(* ===== verification/_CoqProject ===== *)
-Q . S2P
Prelude.v
GoStrings.v
Regexp.v
Encoding.v
Apperr.v
Uuid.v
CatalogDomain.v
Postgres.v
CatalogRepo.v
CatalogApp.v
Relay.v
Interleave.v
Keyset.v
CatalogList.v
TenantDomain.v
TenantApp.v
Marking.v
CatalogConcurrency.v
TenantConcurrency.v
Logging.v
Httpx.v
Jwks.v
CatalogApi.v
Idempotency.v
TenantApi.v
Config.v
Migrate.v
Replicas.v
Provisioning.v
Controller.v
ApiServer.v
Reconciler.v
ControlLoop.v
ReadModels.v
Memory.v
DeepCopy.v
Frames.v
Concurrency.v
Registry.v
Platform.v
Routes.v
System.v
Processes.v
