(* ===== verification/Prelude.v ===== *)
(** * Forge control plane: a verification library

    Forge is a control plane in Go.  Its API (cmd/api) serves two modules that own
    data, the service catalog and the tenants, and two read-only modules that show
    Kubernetes applications and Temporal workflows.  Both data modules have the same
    shape: a domain aggregate that records events, use cases that load, change and
    store it in one transaction, a PostgreSQL adapter with an outbox table, and HTTP
    handlers.  The relay (cmd/relay) publishes outbox rows to NATS; the worker runs
    the tenant provisioning saga on Temporal; the operator reconciles the
    Application custom resource into Deployments, Services and ConfigMaps.

    ** Files and what they model (paths under src/)

    - Prelude: [result] (a Go call that returns an error), machine integers with their
      wrap-around, tactics and hints.  GoStrings: the parts of strings and strconv in
      use, on bytes.  Regexp: regular expressions by derivatives, for the DNS-1123
      patterns.  Encoding: base64, the JSON scanner and printer, decoding into structs,
      RFC 3339 times.  Uuid: google/uuid as a class with its documented laws.
    - Apperr (internal/platform/apperr): errors with kind, code, cause and status.
      Logging (platform/log): loggers, the lines they write, their way through a context.
    - CatalogDomain (catalog/domain): [Service] with [Register], [ChangeOwnership],
      [ChangeLifecycle], [Retire], [PullEvents]; each returns the changed aggregate.
    - Postgres: the tables of migrations/ as the record [Database], the driver as the
      class [Env] (which calls fail, how commits end, clocks, identifiers), the monad
      [M] of computations over it, [Execute] (the transaction of both stores) and a
      weakest-precondition calculus [wp] with the tactic [wp_steps].
    - CatalogRepo (catalog/adapters/postgres): the statements and adapters, and
      [catalog_inv], the invariant of the stored tables.  CatalogApp (catalog/app): the
      commands and [mutate].  Keyset: pagination by key over any table.  CatalogList: the
      query builder, listing and cursors, on Keyset.
    - TenantDomain, TenantApp (tenant/domain, app, adapters/postgres): the same for
      tenants, with [tenants_inv].
    - Interleave: transactions cut into a reading and a writing half, with the relay marking
      rows in between; the class [Workload] states what a module promises about its halves, and
      any workload is serializable.  CatalogConcurrency, TenantConcurrency: the two modules as
      instances; Concurrency: both on one database.  Marking: their invariants do not depend on
      what the relay marks.  Registry: the abstract specification of the data modules, two maps
      and a log changed by atomic steps, and the refinement of it by the stored tables.
      Platform: commands, database, relay replicas and bus as one step relation.
    - Httpx (platform/httpx): response writer with the status recorder and the log of a
      request, error bodies, the middleware chain with deadlines and metrics, rate limiter.
      Jwks (httpx/auth.go): token verifiers and the key cache.  CatalogApi, TenantApi (the
      api packages, platform/idempotency): the handlers.  Idempotency: registrations that
      share an Idempotency-Key, interleaved at their calls.  ReadModels: the application
      and provisioning modules.
    - Config (platform/config), Migrate (platform/postgres/migrate.go).
    - Relay (internal/relay): [DrainOnce], [Run], the claimed batch and the publisher.
      Replicas: any number of relays side by side, under row locks with SKIP LOCKED.
    - Provisioning (internal/provisioning): the interface [Provisioner] as a class with
      laws, the simulated provisioner as its instance, activities with retries, the
      saga and the workflow.
    - Controller (internal/controller, api/v1alpha1): the custom resource, the derived
      objects, conditions and the status.  ApiServer: the cluster, the class [Kube] (failures,
      other clients, how far each watch lags), the informer caches reads are answered from and
      the watches of [SetupWithManager] that bring them up to date.  Reconciler: [Reconcile] with
      every call it makes, reading from the caches and writing to the server.  ControlLoop: the
      queue the watches feed and the worker, with resyncs and restarts, as a step relation.
    - Memory: a heap with pointers and slices.  DeepCopy (zz_generated.deepcopy.go): the
      deep copies of the custom resource in it.
    - Frames: what every operation leaves alone, as preorders on databases kept by all
      computations of [M].  Routes (cmd/api/main.go and the routes.go files): the routing
      tables, the readers of the two read-only modules, health endpoints, and [api], the
      whole server as a function; the router library is the class [Chi].  System: runs of
      [api], the relay and limiter sweeps over one database and one bus.
    - Processes (cmd/, platform/postgres, events, kube, temporal, observability,
      httpx/server.go): the start, the serving and the end of the six programs as
      sequences of library calls with deferred releases, under any outcome of each call.

    ** What the theorems show

    - Commands (CatalogApp, TenantApp): under all failures a command takes its whole effect
      (row, ownership history, outbox) or none; every reachable database satisfies its
      invariant (well-formed rows, unique names, one open ownership interval, events that
      replay to the row).
    - Concurrency (Interleave, Concurrency, Registry, Platform, Idempotency): if clients send only
      If-Match versions they have seen ([seen_versions], a hypothesis of the theorems: the code
      accepts any), concurrent commands of both modules are serializable, two
      registrations racing for one name included; the tables implement the registry, acknowledged
      commands (and in-doubt commits that took effect) in one serial order and queries answered
      from it; with the relay replicas in the same run the whole is a registry whose log reaches the
      bus, each row published once while nothing fails.  CatalogConcurrency has the exact guard of
      a store, and with it how a version not seen overwrites an update.  Replays under one
      Idempotency-Key agree, and requests in flight under one key are not kept apart.
    - The whole system (Routes, System): any sequence of HTTP requests, relay turns and
      sweeps from empty tables keeps all invariants at once; only an accepted token and
      a method other than GET change the database; every message on the bus is an event
      of a stored aggregate; once failures stop, the whole history of every service
      reaches the bus; every request is answered, counted once under the status it was sent
      with, and logged with its correlation id.
    - Processes: every resource opened is released exactly once and in reverse order on
      every path, but for the lazy Temporal client of the API, which is never closed; the API
      listens only with an accepted configuration, a live pool and all migrations applied.
    - Aggregates (CatalogDomain, TenantDomain): well-formedness, the exact state
      machines, finality of retired services and archived tenants, events that explain
      the state.
    - HTTP (Httpx, Jwks, CatalogApi, CatalogList, TenantApi): nothing runs without a verified token
      and an allowance, identities do not share allowances, signing keys come from served documents
      and never from an expired table, conditional updates and idempotent registration hold end to
      end, list parameters and SQL text carry no injected text, limits are bounded without
      wrap-around, and paging enumerates every matching service and tenant exactly once.
    - Relay and Replicas: at-least-once publication, deduplication safety, termination,
      order; replicas never hold the same row and publish it once if nothing fails.
    - Provisioning: compensation in reverse order and the error of the failed step; what a
      rollback leaves when no result is lost (for a new tenant nothing), isolation of tenants;
      what a cancelled or lost step, or a failing second run, leaves behind.
    - Controller, Reconciler, ControlLoop: hardening of all pods, matching selectors and
      ports, convergence in one run on caches that are up to date, status writes only on the
      version in the cluster however old the cache, panics only on unparsable quantities (that
      the loop becomes idle assumes that they parse); the first run for a new application fails at reading back what it applied while the watches lag;
      a cluster not as wanted has a request in the queue or on its way in a watch, and undisturbed
      the loop becomes idle although it is told of its own writes.
    - DeepCopy: copies have the same content and share nothing with the original.
    - Config and Migrate: exactly the valid configurations load; migrations are applied
      once, in order, whole.

    ** Conventions and bounds

    Instants are nanoseconds since 1970 in [Z]; [int64] versions wrap around
    explicitly.  Computations are total functions; the loops whose end depends on the
    environment take fuel: [DrainOnce] is proved to return for some fuel once no rows
    arrive, [all_pages] and [all_tenants] within the number of matches plus one, and the
    JSON scanner gets the length of its input, which bounds its nesting.  Retries are
    bounded by the code (three attempts of an activity, five of a status update).  The
    concurrency theorem bounds the number of requests by 2^63, so that versions do not wrap.
    The loop of the operator is a relation without fuel; its theorem bounds the turns, in one of
    which the watches catch up and the worker handles one request.

    ** Not modelled

    Of the Go code only what does nothing of its own is left: constructors and structs that keep
    their arguments, interface declarations, the [main] functions that print an error of [run] and exit.
    Log lines outside of requests (those of starts, ends and of the relay: nothing reads
    them); the command-line flags and the scheme registration of the operator (library calls
    without a result the code inspects); histogram buckets and exporters; the text of the
    SQL migrations (the tables are the record [Database] with their constraints); waiting times
    between retries of the workflow and of the operator's queue.
    A server-side apply that the cluster refuses (an immutable selector) is one of the failures of
    the environment; handlers of the modelled routes do not panic; strings in JSON are
    printed as valid UTF-8 is, other bytes unchanged.
    Request deadlines are passed on as the code does; that a call past its deadline fails is
    one of the failures of the environment.  Code of libraries (uuid, jwt, pgx and the SQL
    planner, rate limiter, router, Kubernetes and Temporal servers) enters as arguments
    or classes with documented laws. *)
From Stdlib Require Export Ascii ZArith Lia Wf_nat.
From stdpp Require Export base gmap strings list sorting relations.

#[export] Set Default Proof Using "Type".

(** ** The result of a fallible Go call

    A Go function that returns [(T, error)] is a function into [result E T]: the
    error branch carries no value, because every caller in the code base tests
    [err != nil] before it touches the other result. *)

Inductive result (E A : Type) : Type :=
| Ok (a : A)
| Err (e : E).
Arguments Ok {_ _} _.
Arguments Err {_ _} _.

#[export] Instance result_ret E : MRet (result E) := λ A a, Ok a.
#[export] Instance result_bind E : MBind (result E) := λ A B k m,
  match m with Ok a => k a | Err e => Err e end.
#[export] Instance result_fmap E : FMap (result E) := λ A B f m,
  match m with Ok a => Ok (f a) | Err e => Err e end.

#[export] Instance result_eq_dec `{EqDecision E, EqDecision A} : EqDecision (result E A).
Proof. solve_decision. Defined.

(** The optional value of a computation, errors forgotten. *)
Definition ok {E A} (r : result E A) : option A :=
  match r with Ok a => Some a | Err _ => None end.

(** Replace the error of a failed call (the [return nil, ErrX] idiom). *)
Definition or_err {E A} (o : option A) (e : E) : result E A :=
  match o with Some a => Ok a | None => Err e end.

Section result_lemmas.
Context {E : Type}.

Lemma bind_Ok {A B} (m : result E A) (k : A → result E B) b :
  (m ≫= k) = Ok b ↔ ∃ a, m = Ok a ∧ k a = Ok b.
Proof. destruct m; simpl; naive_solver. Qed.

Lemma bind_Err {A B} (m : result E A) (k : A → result E B) e :
  (m ≫= k) = Err e ↔ m = Err e ∨ ∃ a, m = Ok a ∧ k a = Err e.
Proof. destruct m; simpl; naive_solver. Qed.

Lemma or_err_Ok {A} (o : option A) (e : E) a : or_err o e = Ok a ↔ o = Some a.
Proof. destruct o; simpl; naive_solver. Qed.

Lemma or_err_Err {A} (o : option A) (e e' : E) : or_err o e = Err e' ↔ o = None ∧ e' = e.
Proof. destruct o; simpl; naive_solver. Qed.
End result_lemmas.

(** ** Machine integers

    Go's [int] and [int64] are 64-bit two's-complement integers on the platforms
    the control plane is built for, [int32] is 32-bit; both wrap around. *)

Definition int64_min : Z := - 2 ^ 63.
Definition int64_max : Z := 2 ^ 63 - 1.
Definition in_int64 (z : Z) : Prop := (int64_min ≤ z ≤ int64_max)%Z.
Definition wrap64 (z : Z) : Z := ((z + 2 ^ 63) mod 2 ^ 64 - 2 ^ 63)%Z.
Definition in_int32 (z : Z) : Prop := (- 2 ^ 31 ≤ z ≤ 2 ^ 31 - 1)%Z.
Definition wrap32 (z : Z) : Z := ((z + 2 ^ 31) mod 2 ^ 32 - 2 ^ 31)%Z.

#[export] Instance in_int64_dec z : Decision (in_int64 z).
Proof. unfold in_int64. apply _. Defined.
#[export] Instance in_int32_dec z : Decision (in_int32 z).
Proof. unfold in_int32. apply _. Defined.

Lemma wrap64_range z : in_int64 (wrap64 z).
Proof.
  unfold in_int64, wrap64, int64_min, int64_max.
  pose proof (Z.mod_pos_bound (z + 2 ^ 63) (2 ^ 64)). lia.
Qed.
Lemma wrap64_id z : in_int64 z → wrap64 z = z.
Proof.
  unfold in_int64, wrap64, int64_min, int64_max. intros.
  rewrite Z.mod_small; lia.
Qed.
Lemma wrap64_succ z : wrap64 (wrap64 z + 1) = wrap64 (z + 1).
Proof.
  unfold wrap64. f_equal.
  replace ((z + 2 ^ 63) mod 2 ^ 64 - 2 ^ 63 + 1 + 2 ^ 63)%Z
    with ((z + 2 ^ 63) mod 2 ^ 64 + 1)%Z by lia.
  rewrite Zplus_mod_idemp_l. f_equal. lia.
Qed.
Lemma wrap32_range z : in_int32 (wrap32 z).
Proof.
  unfold in_int32, wrap32. pose proof (Z.mod_pos_bound (z + 2 ^ 31) (2 ^ 32)). lia.
Qed.
Lemma wrap32_id z : in_int32 z → wrap32 z = z.
Proof. unfold in_int32, wrap32. intros. rewrite Z.mod_small; lia. Qed.

(** ** Automation *)

Create HintDb forge.
#[export] Hint Resolve wrap64_range wrap32_range : forge.
#[export] Hint Rewrite @bind_Ok @bind_Err @or_err_Ok @or_err_Err : forge.

(** Split conjunctions, existentials and equations of the context. *)
Ltac split_hyps :=
  repeat match goal with
  | H : _ ∧ _ |- _ => destruct H
  | H : ∃ _, _ |- _ => destruct H
  | H : Ok _ = Ok _ |- _ => injection H as H
  | H : Err _ = Err _ |- _ => injection H as H
  | H : Ok _ = Err _ |- _ => discriminate H
  | H : Err _ = Ok _ |- _ => discriminate H
  end; subst.

(** Break a successful chain of Go calls [a ← f; b ← g a; ...] into the facts
    that each call succeeded. *)
Ltac inv_ok H :=
  repeat (apply bind_Ok in H; destruct H as (? & ? & H)); split_hyps.

(** Case analysis on every [match] of the goal or of a hypothesis. *)
Ltac case_all :=
  repeat first [ case_decide; simplify_eq/=; try done
               | case_bool_decide; simplify_eq/=; try done
               | case_match; simplify_eq/=; try done ].

(** ** Lists *)

Section lists.
Context {A : Type}.
Implicit Types l : list A.

Lemma Forall_bool_decide_forallb (P : A → Prop) `{!∀ x, Decision (P x)} l :
  forallb (λ x, bool_decide (P x)) l = true ↔ Forall P l.
Proof.
  rewrite forallb_forall, Forall_forall.
  setoid_rewrite bool_decide_eq_true. setoid_rewrite list_elem_of_In. done.
Qed.

Lemma filter_all (P : A → Prop) `{!∀ x, Decision (P x)} l : Forall P l → filter P l = l.
Proof. induction 1 as [|x l Hx _ IH]; [done|]. by rewrite filter_cons_True, IH. Qed.
Lemma filter_none (P : A → Prop) `{!∀ x, Decision (P x)} l :
  Forall (λ x, ¬ P x) l → filter P l = [].
Proof. induction 1 as [|x l Hx _ IH]; [done|]. by rewrite filter_cons_False, IH. Qed.

Lemma last_is_Some l x : last (l ++ [x]) = Some x.
Proof. by rewrite last_snoc. Qed.
End lists.
