(* ===== verification/GoStrings.v ===== *)
(** * Strings and numbers of the Go standard library

    What the control plane uses of [strings] and [strconv]: a Go string is a
    sequence of bytes, modelled by [string] (eight-bit characters).  Holds
    [strings.TrimSpace], [strings.Trim], [strings.HasPrefix]/[TrimPrefix] and the
    decimal conversions [strconv.ParseInt]/[Atoi]/[FormatInt]/[Itoa], with the
    lemmas the components share: trimming is idempotent and printing an [int64]
    and parsing it back is the identity. *)
From Stdlib Require Import ZifyBool.
From S2P Require Import Prelude.

Abbreviation bytes := String.list_ascii_of_string.
Abbreviation of_bytes := String.string_of_list_ascii.

Lemma bytes_of_bytes l : bytes (of_bytes l) = l.
Proof. apply String.list_ascii_of_string_of_list_ascii. Qed.
Lemma of_bytes_bytes s : of_bytes (bytes s) = s.
Proof. apply String.string_of_list_ascii_of_string. Qed.
#[export] Hint Rewrite bytes_of_bytes of_bytes_bytes : forge.
Lemma append_nil_r s : s +:+ "" = s.
Proof. induction s as [|c s IH]; [done|]. change (String c (s +:+ "") = String c s). by rewrite IH. Qed.
Lemma append_assoc' s1 s2 s3 : (s1 +:+ s2) +:+ s3 = s1 +:+ s2 +:+ s3.
Proof.
  induction s1 as [|c s IH]; [done|]. change (String c ((s +:+ s2) +:+ s3) = String c (s +:+ s2 +:+ s3)). by rewrite IH.
Qed.
Lemma bytes_app s1 s2 : bytes (s1 +:+ s2) = bytes s1 ++ bytes s2.
Proof. induction s1 as [|a s1 IH]; simpl; [done|by rewrite IH]. Qed.

(** [len(s)]: the number of bytes. *)
Definition len (s : string) : nat := length (bytes s).

Definition code (a : ascii) : N := N_of_ascii a.

(** ** strings.TrimSpace

    [TrimSpace] removes leading and trailing runes [r] with [unicode.IsSpace r].
    On the byte level these runes are exactly the UTF-8 sequences below: one byte
    for the ASCII spaces, two for U+0085 and U+00A0, three for U+1680,
    U+2000-U+200A, U+2028, U+2029, U+202F, U+205F and U+3000. *)

Definition space1 (a : ascii) : bool :=
  ((9 <=? code a) && (code a <=? 13) || (code a =? 32))%N.
Definition space2 (a b : ascii) : bool :=
  ((code a =? 0xC2) && ((code b =? 0x85) || (code b =? 0xA0)))%N.
Definition space3 (a b c : ascii) : bool :=
  (((code a =? 0xE1) && (code b =? 0x9A) && (code c =? 0x80))
   || ((code a =? 0xE2) && (code b =? 0x80)
       && (((0x80 <=? code c) && (code c <=? 0x8A))
           || (code c =? 0xA8) || (code c =? 0xA9) || (code c =? 0xAF)))
   || ((code a =? 0xE2) && (code b =? 0x81) && (code c =? 0x9F))
   || ((code a =? 0xE3) && (code b =? 0x80) && (code c =? 0x80)))%N.

(** Drop leading sequences recognised by the three predicates. *)
Fixpoint trim_by (p1 : ascii → bool) (p2 : ascii → ascii → bool)
    (p3 : ascii → ascii → ascii → bool) (l : list ascii) : list ascii :=
  match l with
  | [] => []
  | a :: l1 =>
    if p1 a then trim_by p1 p2 p3 l1 else
    match l1 with
    | [] => l
    | b :: l2 =>
      if p2 a b then trim_by p1 p2 p3 l2 else
      match l2 with
      | [] => l
      | c :: l3 => if p3 a b c then trim_by p1 p2 p3 l3 else l
      end
    end
  end.

Definition trim_left (l : list ascii) : list ascii := trim_by space1 space2 space3 l.
Definition trim_right (l : list ascii) : list ascii :=
  rev (trim_by space1 (λ b a, space2 a b) (λ c b a, space3 a b c) (rev l)).

Definition TrimSpace (s : string) : string := of_bytes (trim_right (trim_left (bytes s))).

Section trim.
Context (p1 : ascii → bool) (p2 : ascii → ascii → bool) (p3 : ascii → ascii → ascii → bool).

(** Nothing is left to trim at the head. *)
Definition headless (l : list ascii) : bool :=
  match l with
  | [] => true
  | a :: l1 =>
    negb (p1 a) &&
    match l1 with
    | [] => true
    | b :: l2 => negb (p2 a b) && match l2 with [] => true | c :: _ => negb (p3 a b c) end
    end
  end.

Lemma trim_by_strong (P : list ascii → list ascii → Prop) :
  (∀ l, headless l = true → P l l) →
  (∀ l k r, k ≠ [] → P l r → P (k ++ l) r) →
  ∀ l, P l (trim_by p1 p2 p3 l).
Proof.
  intros Hid Hstep l. induction l as [l IH] using (induction_ltof1 _ (@length ascii)).
  unfold ltof in IH.
  destruct l as [|a l1]; [by apply Hid|]. simpl.
  destruct (p1 a) eqn:E1; [apply (Hstep _ [a]); [done|apply IH; simpl; lia]|].
  destruct l1 as [|b l2]; [apply Hid; simpl; by rewrite E1|].
  destruct (p2 a b) eqn:E2; [apply (Hstep _ [a; b]); [done|apply IH; simpl; lia]|].
  destruct l2 as [|c l3]; [apply Hid; simpl; by rewrite E1, E2|].
  destruct (p3 a b c) eqn:E3; [apply (Hstep _ [a; b; c]); [done|apply IH; simpl; lia]|].
  apply Hid. simpl. by rewrite E1, E2, E3.
Qed.

Lemma trim_by_headless l : headless (trim_by p1 p2 p3 l) = true.
Proof. apply (trim_by_strong (λ _ r, headless r = true)); auto. Qed.

Lemma trim_by_suffix l : trim_by p1 p2 p3 l `suffix_of` l.
Proof.
  apply (trim_by_strong (λ l r, r `suffix_of` l)); [done|].
  intros l' k r _ Hr. by apply suffix_app_r.
Qed.

Lemma trim_by_id l : headless l = true → trim_by p1 p2 p3 l = l.
Proof.
  destruct l as [|a [|b [|c l]]]; simpl; [done|..];
    (destruct (p1 a); [done|]); [done|..]; (destruct (p2 a b); [done|]); [done|].
  by destruct (p3 a b c).
Qed.

Lemma headless_prefix l k : k `prefix_of` l → headless l = true → headless k = true.
Proof.
  intros [r ->]. destruct k as [|a [|b [|c k]]]; simpl; try done.
  - by destruct (p1 a).
  - destruct (p1 a), (p2 a b); done.
Qed.
End trim.

Lemma trim_right_prefix l : trim_right l `prefix_of` l.
Proof.
  unfold trim_right. destruct (trim_by_suffix space1 (λ b a, space2 a b) (λ c b a, space3 a b c) (rev l))
    as [k Hk].
  exists (rev k). rewrite <- rev_app_distr, <- Hk. by rewrite rev_involutive.
Qed.

Lemma trim_right_idemp l : trim_right (trim_right l) = trim_right l.
Proof.
  unfold trim_right. rewrite rev_involutive. f_equal. apply trim_by_id, trim_by_headless.
Qed.

(** A trimmed byte string stays as it is. *)
Definition trimmed (s : string) : Prop := TrimSpace s = s.
#[export] Instance trimmed_dec s : Decision (trimmed s).
Proof. unfold trimmed. apply _. Defined.

Lemma TrimSpace_trimmed s : trimmed (TrimSpace s).
Proof.
  unfold trimmed, TrimSpace. rewrite bytes_of_bytes. f_equal.
  set (l := trim_left (bytes s)).
  assert (trim_left (trim_right l) = trim_right l) as ->.
  { apply trim_by_id, (headless_prefix _ _ _ l); [apply trim_right_prefix|apply trim_by_headless]. }
  apply trim_right_idemp.
Qed.

Lemma TrimSpace_idemp s : TrimSpace (TrimSpace s) = TrimSpace s.
Proof. apply TrimSpace_trimmed. Qed.
#[export] Hint Rewrite TrimSpace_idemp : forge.
#[export] Hint Resolve TrimSpace_trimmed : forge.

(** A string of bytes that occur in no space sequence is trimmed. *)
Definition plain (a : ascii) : bool := ((33 <=? code a) && (code a <=? 0x7F))%N.

Lemma plain_headless p2 p3 l :
  (∀ a b, p2 a b = true → plain a = false ∨ plain b = false) →
  (∀ a b c, p3 a b c = true → plain a = false ∨ plain b = false ∨ plain c = false) →
  Forall (λ a, plain a = true) l → headless space1 p2 p3 l = true.
Proof.
  intros H2 H3 Hl.
  assert (∀ a, plain a = true → space1 a = false) as H1.
  { intros a. unfold plain, space1. lia. }
  destruct l as [|a [|b [|c l]]]; simpl; [done|..];
    rewrite !Forall_cons in Hl; destruct_and?; rewrite H1 by done; simpl; [done|..];
    (destruct (p2 a b) eqn:E2; [apply H2 in E2; destruct_or?; congruence|]); [done|].
  destruct (p3 a b c) eqn:E3; [apply H3 in E3; destruct_or?; congruence|done].
Qed.

Lemma plain_trimmed s : Forall (λ a, plain a = true) (bytes s) → trimmed s.
Proof.
  intros Hs. unfold trimmed, TrimSpace, trim_right, trim_left.
  rewrite (trim_by_id _ _ _ (bytes s)); [rewrite trim_by_id|].
  - by rewrite rev_involutive, of_bytes_bytes.
  - apply plain_headless; [unfold plain, space2|unfold plain, space3|by apply List.Forall_rev]; lia.
  - apply plain_headless; [unfold plain, space2|unfold plain, space3|done]; lia.
Qed.

(** ** strings.Trim, strings.HasPrefix, strings.TrimPrefix *)

Fixpoint drop_while (p : ascii → bool) (l : list ascii) : list ascii :=
  match l with
  | [] => []
  | a :: l' => if p a then drop_while p l' else l
  end.

Definition dquote : ascii := Ascii.ascii_of_N 34.

(** [strings.Trim(s, cutset)] for a one-byte cutset. *)
Definition Trim (s : string) (cut : ascii) : string :=
  let p a := bool_decide (a = cut) in
  of_bytes (rev (drop_while p (rev (drop_while p (bytes s))))).

Definition HasPrefix (s p : string) : bool := String.prefix p s.

Definition TrimPrefix (s p : string) : string :=
  if HasPrefix s p then String.substring (String.length p) (String.length s - String.length p) s
  else s.

Lemma Trim_id s c : Forall (λ a, a ≠ c) (bytes s) → Trim s c = s.
Proof.
  intros Hs. unfold Trim. set (p := λ a, bool_decide (a = c)).
  assert (∀ l, Forall (λ a, a ≠ c) l → drop_while p l = l) as Hd.
  { intros l Hl. destruct Hl as [|a l Ha]; simpl; [done|].
    unfold p at 1. by rewrite bool_decide_eq_false_2. }
  rewrite (Hd (bytes s)) by done. rewrite Hd by (by apply List.Forall_rev).
  by rewrite rev_involutive, of_bytes_bytes.
Qed.

(** Quotes around a quote-free string are stripped. *)
Lemma Trim_quoted s c :
  Forall (λ a, a ≠ c) (bytes s) → Trim (of_bytes ([c] ++ bytes s ++ [c])) c = s.
Proof.
  intros Hs. unfold Trim. rewrite bytes_of_bytes. simpl. rewrite bool_decide_true by done.
  assert (∀ l, Forall (λ a, a ≠ c) l → l ≠ [] → ∀ r,
    drop_while (λ a, bool_decide (a = c)) (l ++ r) = l ++ r) as Hd.
  { intros l Hl Hne r. destruct Hl as [|a l Ha]; [done|]; simpl.
    by rewrite bool_decide_eq_false_2. }
  destruct (decide (bytes s = [])) as [E|E].
  - rewrite E. simpl. rewrite bool_decide_true by done. simpl.
    rewrite <- (of_bytes_bytes s), E. done.
  - rewrite Hd by done. rewrite rev_app_distr. simpl. rewrite bool_decide_true by done.
    rewrite <- (app_nil_r (rev (bytes s))), Hd, app_nil_r, rev_involutive, of_bytes_bytes; [done| |].
    + by apply List.Forall_rev.
    + intros Hr. apply (f_equal (@rev ascii)) in Hr. by rewrite rev_involutive in Hr.
Qed.

(** ** strconv *)

Definition digit (a : ascii) : option Z :=
  if ((48 <=? code a) && (code a <=? 57))%N then Some (Z.of_N (code a) - 48)%Z else None.

Fixpoint parse_digits (acc : Z) (l : list ascii) : option Z :=
  match l with
  | [] => Some acc
  | a :: l' => d ← digit a; parse_digits (acc * 10 + d)%Z l'
  end.

Definition plus_sign : ascii := Ascii.ascii_of_N 43.
Definition minus_sign : ascii := Ascii.ascii_of_N 45.

(** [strconv.ParseInt(s, 10, 64)]; [None] stands for a syntax or range error, which
    no caller tells apart. *)
Definition ParseInt (s : string) : option Z :=
  let '(neg, ds) :=
    match bytes s with
    | a :: l => if bool_decide (a = plus_sign) then (false, l)
                else if bool_decide (a = minus_sign) then (true, l)
                else (false, a :: l)
    | [] => (false, [])
    end in
  match ds with
  | [] => None
  | _ =>
    n ← parse_digits 0 ds;
    let v := if neg : bool then (- n)%Z else n in
    if decide (in_int64 v) then Some v else None
  end.

(** [strconv.Atoi]: [int] has 64 bits. *)
Definition Atoi (s : string) : option Z := ParseInt s.

Definition digit_char (d : Z) : ascii := Ascii.ascii_of_N (Z.to_N (48 + d)).

(** Decimal digits, most significant first; 20 digits are enough for 64 bits. *)
Fixpoint fmt_digits (fuel : nat) (n : Z) (rest : list ascii) : list ascii :=
  match fuel with
  | O => rest
  | S f => if (n <? 10)%Z then digit_char n :: rest
           else fmt_digits f (n / 10) (digit_char (n mod 10) :: rest)
  end.

(** [strconv.FormatInt(v, 10)] and [strconv.Itoa]. *)
Definition FormatInt (v : Z) : string :=
  of_bytes (if (v <? 0)%Z then minus_sign :: fmt_digits 20 (- v) [] else fmt_digits 20 v []).
Definition Itoa (v : Z) : string := FormatInt v.

Lemma code_digit_char d : (0 ≤ d < 10)%Z → code (digit_char d) = Z.to_N (48 + d).
Proof. intros. unfold code, digit_char. apply Ascii.N_ascii_embedding. lia. Qed.

Lemma digit_digit_char d : (0 ≤ d < 10)%Z → digit (digit_char d) = Some d.
Proof.
  intros. unfold digit. rewrite code_digit_char by done.
  rewrite (proj2 (andb_true_iff _ _)) by lia. f_equal. lia.
Qed.

Lemma parse_fmt_digits f n rest :
  (0 ≤ n < 10 ^ Z.of_nat f)%Z → parse_digits 0 (fmt_digits f n rest) = parse_digits n rest.
Proof.
  revert n rest. induction f as [|f IH]; intros n rest Hn; simpl.
  { assert (n = 0)%Z as -> by (change (10 ^ Z.of_nat 0)%Z with 1%Z in Hn; lia). done. }
  destruct (n <? 10)%Z eqn:E; simpl; [by rewrite digit_digit_char by lia|].
  rewrite IH by (rewrite Nat2Z.inj_succ, Z.pow_succ_r in Hn by lia;
    split; [apply Z.div_pos|apply Z.div_lt_upper_bound]; lia).
  simpl. rewrite digit_digit_char by (apply Z.mod_pos_bound; lia). simpl.
  f_equal. pose proof (Z.div_mod n 10). lia.
Qed.

(** The characters of a printed number are digits. *)
Lemma fmt_digits_range (P : ascii → Prop) f n rest :
  (∀ d, (0 ≤ d < 10)%Z → P (digit_char d)) → (0 ≤ n)%Z → Forall P rest →
  Forall P (fmt_digits f n rest).
Proof.
  intros HP. revert n rest. induction f as [|f IH]; intros n rest Hn Hr; simpl; [done|].
  destruct (n <? 10)%Z eqn:E; [constructor; [apply HP; lia|done]|].
  apply IH; [apply Z.div_pos; lia|]. constructor; [|done].
  apply HP, Z.mod_pos_bound. lia.
Qed.

Lemma fmt_digits_cons f n rest : (0 ≤ n)%Z → f ≠ 0 →
  ∃ d l, (0 ≤ d < 10)%Z ∧ fmt_digits f n rest = digit_char d :: l.
Proof.
  revert n rest. induction f as [|f IH]; intros n rest Hn Hf; [done|]. simpl.
  destruct (n <? 10)%Z eqn:E; [exists n, rest; split; [lia|done]|].
  destruct f as [|f]; [exists (n mod 10)%Z, rest; split; [apply Z.mod_pos_bound; lia|done]|].
  apply IH; [apply Z.div_pos; lia|done].
Qed.

Lemma ParseInt_FormatInt v : in_int64 v → ParseInt (FormatInt v) = Some v.
Proof.
  intros Hv. pose proof Hv as Hv'. unfold in_int64, int64_min, int64_max in Hv'.
  assert (10 ^ Z.of_nat 20 = 100000000000000000000)%Z as H20 by done.
  unfold ParseInt, FormatInt. rewrite bytes_of_bytes. destruct (v <? 0)%Z eqn:E.
  - rewrite bool_decide_eq_false_2 by done. rewrite bool_decide_true by done.
    destruct (fmt_digits_cons 20 (- v) [] ltac:(lia) ltac:(done)) as (d & l & _ & El).
    rewrite El, <- El, parse_fmt_digits by lia. simpl.
    rewrite Z.opp_involutive. by rewrite decide_True.
  - destruct (fmt_digits_cons 20 v [] ltac:(lia) ltac:(done)) as (d & l & Hd & El).
    pose proof (parse_fmt_digits 20 v [] ltac:(lia)) as Hp. rewrite El in *.
    assert (code (digit_char d) ≠ code plus_sign ∧ code (digit_char d) ≠ code minus_sign) as [Hp1 Hp2].
    { rewrite code_digit_char by done. change (code plus_sign) with 43%N. change (code minus_sign) with 45%N. lia. }
    rewrite !bool_decide_eq_false_2 by congruence.
    rewrite Hp. simpl. by rewrite decide_True.
Qed.
