(* ===== verification/Regexp.v ===== *)
(** * The regular expressions of the control plane

    Go's [regexp] decides a pattern anchored with [^] and [$] against a whole
    string.  The patterns of the code base use classes, concatenation, [*] and
    [?]; they are written as terms of [re], with the usual language semantics
    [rmatch] and an executable matcher by derivatives, [MatchString], proved
    equivalent.  The DNS-1123 label pattern shared by service names and tenant
    slugs is characterised without reference to regular expressions. *)
From Stdlib Require Import ZifyBool.
From S2P Require Import Prelude GoStrings.

(** A class is a list of inclusive byte ranges. *)
Inductive re : Type :=
| RNone
| REps
| RClass (ranges : list (N * N))
| RCat (r1 r2 : re)
| RAlt (r1 r2 : re)
| RStar (r : re).

Definition ROpt (r : re) : re := RAlt r REps.

Definition in_class (rs : list (N * N)) (a : ascii) : bool :=
  existsb (λ r, ((r.1 <=? code a) && (code a <=? r.2))%N) rs.

(** The language of an expression. *)
Inductive rmatch : re → list ascii → Prop :=
| m_eps : rmatch REps []
| m_class rs a : in_class rs a = true → rmatch (RClass rs) [a]
| m_cat r1 r2 l1 l2 : rmatch r1 l1 → rmatch r2 l2 → rmatch (RCat r1 r2) (l1 ++ l2)
| m_alt_l r1 r2 l : rmatch r1 l → rmatch (RAlt r1 r2) l
| m_alt_r r1 r2 l : rmatch r2 l → rmatch (RAlt r1 r2) l
| m_star_nil r : rmatch (RStar r) []
| m_star_app r l1 l2 : rmatch r l1 → rmatch (RStar r) l2 → rmatch (RStar r) (l1 ++ l2).
#[local] Hint Constructors rmatch : forge.

Fixpoint nullable (r : re) : bool :=
  match r with
  | RNone | RClass _ => false
  | REps | RStar _ => true
  | RCat r1 r2 => nullable r1 && nullable r2
  | RAlt r1 r2 => nullable r1 || nullable r2
  end.

Fixpoint deriv (a : ascii) (r : re) : re :=
  match r with
  | RNone | REps => RNone
  | RClass rs => if in_class rs a then REps else RNone
  | RCat r1 r2 =>
    if nullable r1 then RAlt (RCat (deriv a r1) r2) (deriv a r2) else RCat (deriv a r1) r2
  | RAlt r1 r2 => RAlt (deriv a r1) (deriv a r2)
  | RStar r1 => RCat (deriv a r1) (RStar r1)
  end.

Fixpoint matches (r : re) (l : list ascii) : bool :=
  match l with
  | [] => nullable r
  | a :: l' => matches (deriv a r) l'
  end.

(** [Regexp.MatchString] for an anchored pattern. *)
Definition MatchString (r : re) (s : string) : bool := matches r (bytes s).

Lemma nullable_spec r : nullable r = true ↔ rmatch r [].
Proof.
  split.
  - induction r; simpl; intros H; try done; auto with forge.
    + apply andb_true_iff in H as [??]. apply (m_cat _ _ [] []); auto.
    + apply orb_true_iff in H as [?|?]; auto with forge.
  - remember [] as l eqn:El. induction 1; simpl; try done; subst.
    + apply app_eq_nil in El as [-> ->]. rewrite IHrmatch1, IHrmatch2; done.
    + by rewrite IHrmatch.
    + rewrite IHrmatch by done. apply orb_true_r.
Qed.

(** A non-empty word of a star starts with a non-empty word of its body. *)
Lemma star_cons r a l :
  rmatch (RStar r) (a :: l) ↔ ∃ l1 l2, l = l1 ++ l2 ∧ rmatch r (a :: l1) ∧ rmatch (RStar r) l2.
Proof.
  split; [|intros (l1 & l2 & -> & ? & ?); by apply (m_star_app r (a :: l1) l2)].
  remember (RStar r) as s eqn:Es. remember (a :: l) as w eqn:Ew. intros H.
  induction H as [| | | | | |r' l1 l2 H1 _ H2 IH]; simplify_eq.
  destruct l1 as [|b l1]; simplify_eq/=; [by apply IH|]. by exists l1, l2.
Qed.

Lemma cat_cons r1 r2 a l :
  rmatch (RCat r1 r2) (a :: l) ↔
  (rmatch r1 [] ∧ rmatch r2 (a :: l)) ∨
  ∃ l1 l2, l = l1 ++ l2 ∧ rmatch r1 (a :: l1) ∧ rmatch r2 l2.
Proof.
  split.
  - inversion 1 as [| |? ? l1 l2 H1 H2| | | |]; subst.
    destruct l1 as [|b l1]; simplify_eq/=; [by left|]. right. by exists l1, l2.
  - intros [[? ?]|(l1 & l2 & -> & ? & ?)]; [by apply (m_cat _ _ [] (a :: l))|].
    by apply (m_cat _ _ (a :: l1) l2).
Qed.

Lemma alt_iff r1 r2 l : rmatch (RAlt r1 r2) l ↔ rmatch r1 l ∨ rmatch r2 l.
Proof. split; [inversion 1; auto|intros [?|?]; auto with forge]. Qed.

Lemma cat_iff r1 r2 l :
  rmatch (RCat r1 r2) l ↔ ∃ l1 l2, l = l1 ++ l2 ∧ rmatch r1 l1 ∧ rmatch r2 l2.
Proof.
  split; [inversion 1; subst; eauto 6|intros (?&?&->&?&?); auto with forge].
Qed.

Lemma none_iff l : ¬ rmatch RNone l.
Proof. inversion 1. Qed.

Lemma class_iff rs l : rmatch (RClass rs) l ↔ ∃ a, l = [a] ∧ in_class rs a = true.
Proof. split; [inversion 1; eauto|intros (a & -> & ?); auto with forge]. Qed.

Lemma eps_iff l : rmatch REps l ↔ l = [].
Proof. split; [by inversion 1|intros ->; auto with forge]. Qed.

Lemma deriv_spec a r l : rmatch (deriv a r) l ↔ rmatch r (a :: l).
Proof.
  revert l. induction r as [| |rs|r1 IH1 r2 IH2|r1 IH1 r2 IH2|r IH]; intros l; simpl.
  - split; intros H; by apply none_iff in H.
  - rewrite eps_iff. split; [intros H; by apply none_iff in H|done].
  - rewrite class_iff. destruct (in_class rs a) eqn:E.
    + rewrite eps_iff. split; [intros ->; eauto|]. intros (b & ? & ?). congruence.
    + split; [intros H; by apply none_iff in H|]. intros (b & ? & ?). congruence.
  - rewrite cat_cons, <- nullable_spec. destruct (nullable r1).
    + rewrite alt_iff, cat_iff. setoid_rewrite IH1. rewrite IH2. clear. intuition.
    + rewrite cat_iff. setoid_rewrite IH1. clear. intuition discriminate.
  - by rewrite !alt_iff, IH1, IH2.
  - rewrite star_cons, cat_iff. by setoid_rewrite IH.
Qed.

Lemma matches_spec r l : matches r l = true ↔ rmatch r l.
Proof.
  revert r. induction l as [|a l IH]; intros r; simpl; [apply nullable_spec|].
  by rewrite IH, deriv_spec.
Qed.

(** A star of a class is the words over the class. *)
Lemma star_class_iff rs l : rmatch (RStar (RClass rs)) l ↔ Forall (λ a, in_class rs a = true) l.
Proof.
  split.
  - remember (RStar (RClass rs)) as s eqn:Es. induction 1; simplify_eq; [done|].
    apply class_iff in H as (a & -> & Ha). constructor; auto.
  - induction 1 as [|a l Ha _ IH]; [constructor|].
    apply (m_star_app _ [a] l); [by constructor|done].
Qed.

(** ** DNS-1123 labels: [^[a-z0-9]([-a-z0-9]*[a-z0-9])?$] *)

Definition alnum_ranges : list (N * N) := [(97, 122); (48, 57)]%N.
Definition label_ranges : list (N * N) := [(45, 45); (97, 122); (48, 57)]%N.

Definition dns1123 : re :=
  RCat (RClass alnum_ranges) (ROpt (RCat (RStar (RClass label_ranges)) (RClass alnum_ranges))).

Definition alnum (a : ascii) : bool := in_class alnum_ranges a.
Definition label_char (a : ascii) : bool := in_class label_ranges a.

(** What a DNS-1123 label is: lower-case letters, digits and inner hyphens. *)
Definition dns_label (s : string) : Prop :=
  ∃ a b : ascii, head (bytes s) = Some a ∧ last (bytes s) = Some b ∧
    alnum a = true ∧ alnum b = true ∧ Forall (λ a, label_char a = true) (bytes s).

Lemma alnum_label a : alnum a = true → label_char a = true.
Proof. unfold alnum, label_char, in_class. simpl. lia. Qed.

Lemma label_plain a : label_char a = true → plain a = true.
Proof. unfold label_char, plain, in_class. simpl. lia. Qed.

Lemma dns1123_spec s : MatchString dns1123 s = true ↔ dns_label s.
Proof.
  unfold MatchString, dns_label. rewrite matches_spec. unfold dns1123. rewrite cat_iff.
  setoid_rewrite alt_iff. setoid_rewrite cat_iff. setoid_rewrite class_iff.
  setoid_rewrite star_class_iff. setoid_rewrite eps_iff. split.
  - intros (l1 & l2 & -> & (a & -> & Ha) & [(l3 & l4 & -> & Hl & b & -> & Hb)| ->]).
    + exists a, b. change ([a] ++ l3 ++ [b]) with ((a :: l3) ++ [b]). rewrite last_snoc.
      repeat split; try done. apply Forall_app; split; [|by repeat constructor; apply alnum_label].
      by constructor; [apply alnum_label|].
    + exists a, a. repeat split; try done. by repeat constructor; apply alnum_label.
  - intros (a & b & Hh & Hb & Ha & Hb' & Hall). destruct (bytes s) as [|a' l]; [done|].
    simplify_eq/=. exists [a], l. split; [done|]. split; [eauto|].
    destruct l as [|c l'] using rev_ind; [by right|]. left. clear IHl'.
    exists l', [c]. split; [done|]. change (a :: l' ++ [c]) with ((a :: l') ++ [c]) in Hb.
    rewrite last_snoc in Hb. simplify_eq. split; [|eauto].
    inversion Hall as [|? ? _ Hl]; subst. by apply Forall_app in Hl as [? _].
Qed.

Lemma dns_label_trimmed s : dns_label s → trimmed s.
Proof.
  intros (a & b & _ & _ & _ & _ & H). apply plain_trimmed.
  eapply Forall_impl; [exact H|]. intros c. apply label_plain.
Qed.

#[export] Instance dns_label_dec s : Decision (dns_label s).
Proof.
  refine (cast_if (decide (MatchString dns1123 s = true))); by rewrite <- dns1123_spec.
Defined.
