(* ===== verification/Encoding.v ===== *)
(** * encoding/base64, encoding/json and time.Format of the Go standard library

    What the cursors use: [base64.RawURLEncoding], the JSON scanner with string
    values, and the layout [time.RFC3339Nano] in UTC.  The main lemmas are the
    round trips: decoding an encoded byte string gives it back, and scanning the
    object printed for a list of plain strings gives its fields back. *)
From Stdlib Require Import ZifyBool ZifyN.
From S2P Require Import Prelude GoStrings.

Ltac Zify.zify_post_hook ::= Z.to_euclidean_division_equations.

(** ** Base64, URL alphabet, no padding *)

Definition chr (n : N) : ascii := Ascii.ascii_of_N n.

Lemma code_chr n : (n < 256)%N → code (chr n) = n.
Proof. apply Ascii.N_ascii_embedding. Qed.
Lemma chr_code a : chr (code a) = a.
Proof. apply Ascii.ascii_N_embedding. Qed.
Lemma code_lt a : (code a < 256)%N.
Proof. apply Ascii.N_ascii_bounded. Qed.

(** The alphabet [A-Za-z0-9-_]. *)
Definition sextet_char (n : N) : ascii :=
  chr (if n <? 26 then 65 + n else if n <? 52 then 71 + n else if n <? 62 then n - 4
       else if n =? 62 then 45 else 95)%N.
Definition char_sextet (a : ascii) : option N :=
  let c := code a in
  if ((65 <=? c) && (c <=? 90))%N then Some (c - 65)%N
  else if ((97 <=? c) && (c <=? 122))%N then Some (c - 71)%N
  else if ((48 <=? c) && (c <=? 57))%N then Some (c + 4)%N
  else if (c =? 45)%N then Some 62%N
  else if (c =? 95)%N then Some 63%N
  else None.

Lemma sextet_roundtrip n : (n < 64)%N → char_sextet (sextet_char n) = Some n.
Proof.
  intros Hn. unfold char_sextet, sextet_char.
  destruct (N.ltb_spec n 26); [|destruct (N.ltb_spec n 52); [|destruct (N.ltb_spec n 62); [|destruct (N.eqb_spec n 62)]]];
    rewrite code_chr by lia;
    repeat match goal with
    | |- context [if ?b then _ else _] => destruct b eqn:?
    end; try (f_equal; lia); lia.
Qed.

Fixpoint b64_encode (l : list ascii) : list ascii :=
  match l with
  | [] => []
  | [a] =>
    let v := (code a * 16)%N in
    [sextet_char (v / 64); sextet_char (v mod 64)]
  | [a; b] =>
    let v := ((code a * 256 + code b) * 4)%N in
    [sextet_char (v / 4096); sextet_char (v / 64 mod 64); sextet_char (v mod 64)]
  | a :: b :: c :: l' =>
    let v := (code a * 65536 + code b * 256 + code c)%N in
    sextet_char (v / 262144) :: sextet_char (v / 4096 mod 64) :: sextet_char (v / 64 mod 64) ::
    sextet_char (v mod 64) :: b64_encode l'
  end.
Definition EncodeToString (s : string) : string := of_bytes (b64_encode (bytes s)).

Fixpoint b64_decode (l : list ascii) : option (list ascii) :=
  match l with
  | [] => Some []
  | [_] => None
  | [a; b] =>
    x ← char_sextet a; y ← char_sextet b;
    let v := (x * 64 + y)%N in Some [chr (v / 16)]
  | [a; b; c] =>
    x ← char_sextet a; y ← char_sextet b; z ← char_sextet c;
    let v := (x * 4096 + y * 64 + z)%N in Some [chr (v / 1024); chr (v / 4 mod 256)]
  | a :: b :: c :: d :: l' =>
    x ← char_sextet a; y ← char_sextet b; z ← char_sextet c; u ← char_sextet d;
    let v := (x * 262144 + y * 4096 + z * 64 + u)%N in
    rest ← b64_decode l';
    Some (chr (v / 65536) :: chr (v / 256 mod 256) :: chr (v mod 256) :: rest)
  end.

(** Line breaks in the input are skipped. *)
Definition line_break (a : ascii) : Prop := code a = 10%N ∨ code a = 13%N.
#[export] Instance line_break_dec a : Decision (line_break a).
Proof. unfold line_break. apply _. Defined.
Definition DecodeString (s : string) : option string :=
  of_bytes <$> b64_decode (filter (λ a, ¬ line_break a) (bytes s)).

Lemma b64_roundtrip l : b64_decode (b64_encode l) = Some l.
Proof.
  induction l as [l IH] using (induction_ltof1 _ (@length ascii)). unfold ltof in IH.
  assert (∀ x y : N, x = y → chr x = chr y) as Hchr by congruence.
  destruct l as [|a [|b [|c l]]]; [done|..].
  - pose proof (code_lt a). cbn [b64_encode b64_decode].
    rewrite !sextet_roundtrip by lia. simpl. do 2 f_equal. rewrite <- (chr_code a) at 3. apply Hchr. lia.
  - pose proof (code_lt a). pose proof (code_lt b). cbn [b64_encode b64_decode].
    rewrite !sextet_roundtrip by lia. simpl. f_equal.
    f_equal; [rewrite <- (chr_code a) at 4; apply Hchr; lia|].
    f_equal. rewrite <- (chr_code b) at 4. apply Hchr. lia.
  - pose proof (code_lt a). pose proof (code_lt b). pose proof (code_lt c).
    cbn [b64_encode b64_decode]. rewrite !sextet_roundtrip by lia. simpl.
    rewrite IH by (simpl; lia). simpl. f_equal.
    f_equal; [rewrite <- (chr_code a) at 5; apply Hchr; lia|].
    f_equal; [rewrite <- (chr_code b) at 5; apply Hchr; lia|].
    f_equal. rewrite <- (chr_code c) at 5. apply Hchr. lia.
Qed.

Lemma sextet_not_break n : ¬ line_break (sextet_char n).
Proof.
  unfold line_break, sextet_char.
  destruct (N.ltb_spec n 26); [|destruct (N.ltb_spec n 52); [|destruct (N.ltb_spec n 62); [|destruct (N.eqb_spec n 62)]]];
    rewrite code_chr by lia; lia.
Qed.

Lemma b64_no_break l : Forall (λ a, ¬ line_break a) (b64_encode l).
Proof.
  induction l as [l IH] using (induction_ltof1 _ (@length ascii)). unfold ltof in IH.
  destruct l as [|a [|b [|c l]]]; cbn [b64_encode];
    repeat (constructor; [apply sextet_not_break|]); try constructor. apply IH. simpl. lia.
Qed.

Lemma DecodeString_EncodeToString s : DecodeString (EncodeToString s) = Some s.
Proof.
  unfold DecodeString, EncodeToString. rewrite bytes_of_bytes, filter_all by apply b64_no_break.
  rewrite b64_roundtrip. simpl. by rewrite of_bytes_bytes.
Qed.

(** ** JSON

    The scanner of [encoding/json] on valid UTF-8: white space, literals, numbers
    (kept as text), strings with their escapes, arrays and objects.  The fuel of
    [json_value] is the length of the input, which bounds the nesting. *)

Inductive jvalue : Type :=
| VNull
| VBool (b : bool)
| VNum (raw : list ascii)
| VStr (s : list ascii)
| VArr (l : list jvalue)
| VObj (fields : list (list ascii * jvalue)).

Definition backslash : ascii := chr 92.
Definition is_ws (a : ascii) : bool := ((code a =? 32) || (code a =? 9) || (code a =? 10) || (code a =? 13))%N.
Fixpoint skip_ws (l : list ascii) : list ascii :=
  match l with
  | a :: l' => if is_ws a then skip_ws l' else l
  | [] => []
  end.

Definition hex_digit (a : ascii) : option N :=
  let c := code a in
  if ((48 <=? c) && (c <=? 57))%N then Some (c - 48)%N
  else if ((97 <=? c) && (c <=? 102))%N then Some (c - 87)%N
  else if ((65 <=? c) && (c <=? 70))%N then Some (c - 55)%N
  else None.
Definition hex4 (a b c d : ascii) : option N :=
  w ← hex_digit a; x ← hex_digit b; y ← hex_digit c; z ← hex_digit d;
  Some (w * 4096 + x * 256 + y * 16 + z)%N.

(** UTF-8 of a code point. *)
Definition utf8 (r : N) : list ascii :=
  if (r <? 128)%N then [chr r]
  else if (r <? 2048)%N then [chr (192 + r / 64); chr (128 + r mod 64)]
  else if (r <? 65536)%N then [chr (224 + r / 4096); chr (128 + r / 64 mod 64); chr (128 + r mod 64)]
  else [chr (240 + r / 262144); chr (128 + r / 4096 mod 64); chr (128 + r / 64 mod 64); chr (128 + r mod 64)].
Definition high_surrogate (r : N) : bool := ((0xD800 <=? r) && (r <? 0xDC00))%N.
Definition low_surrogate (r : N) : bool := ((0xDC00 <=? r) && (r <? 0xE000))%N.
Definition replacement : list ascii := utf8 0xFFFD.

(** One-letter escapes. *)
Definition escape (a : ascii) : option ascii :=
  match code a with
  | 34 | 47 | 92 => Some a
  | 98 => Some (chr 8) | 102 => Some (chr 12) | 110 => Some (chr 10)
  | 114 => Some (chr 13) | 116 => Some (chr 9)
  | _ => None
  end%N.

Definition prepend (l : list ascii) (r : option (list ascii * list ascii)) : option (list ascii * list ascii) :=
  '(s, rest) ← r; Some (l ++ s, rest).

(** The characters of a string up to its closing quote, and the rest. *)
Fixpoint json_string (l : list ascii) : option (list ascii * list ascii) :=
  match l with
  | [] => None
  | a :: l1 =>
    if bool_decide (a = dquote) then Some ([], l1)
    else if (code a <? 32)%N then None
    else if negb (bool_decide (a = backslash)) then prepend [a] (json_string l1)
    else
      match l1 with
      | [] => None
      | b :: l2 =>
        if negb (code b =? 117)%N then
          match escape b with Some x => prepend [x] (json_string l2) | None => None end
        else
          match l2 with
          | c1 :: c2 :: c3 :: c4 :: l3 =>
            match hex4 c1 c2 c3 c4 with
            | None => None
            | Some r =>
              if negb (high_surrogate r || low_surrogate r) then prepend (utf8 r) (json_string l3)
              else
                match l3 with
                | e1 :: e2 :: d1 :: d2 :: d3 :: d4 :: l4 =>
                  match hex4 d1 d2 d3 d4 with
                  | Some r2 =>
                    if high_surrogate r && bool_decide (e1 = backslash) && (code e2 =? 117)%N && low_surrogate r2
                    then prepend (utf8 (0x10000 + (r - 0xD800) * 1024 + (r2 - 0xDC00))) (json_string l4)
                    else prepend replacement (json_string l3)
                  | None => prepend replacement (json_string l3)
                  end
                | _ => prepend replacement (json_string l3)
                end
            end
          | _ => None
          end
      end
  end.

(** Digits at the front of the input. *)
Definition is_digit (a : ascii) : bool := ((48 <=? code a) && (code a <=? 57))%N.
Fixpoint span_digits (l : list ascii) : list ascii * list ascii :=
  match l with
  | a :: l' => if is_digit a then let '(d, r) := span_digits l' in (a :: d, r) else ([], l)
  | [] => ([], [])
  end.

Definition json_fraction (l : list ascii) : option (list ascii * list ascii) :=
  match l with
  | a :: l' =>
    if (code a =? 46)%N then
      match span_digits l' with
      | ([], _) => None
      | (d, r) => Some (a :: d, r)
      end
    else Some ([], l)
  | [] => Some ([], l)
  end.
Definition json_exponent (l : list ascii) : option (list ascii * list ascii) :=
  match l with
  | a :: l' =>
    if ((code a =? 101) || (code a =? 69))%N then
      let '(sign, l2) := match l' with
                         | b :: l3 => if ((code b =? 43) || (code b =? 45))%N then ([b], l3) else ([], l')
                         | [] => ([], l')
                         end in
      match span_digits l2 with
      | ([], _) => None
      | (d, r) => Some (a :: sign ++ d, r)
      end
    else Some ([], l)
  | [] => Some ([], l)
  end.
Definition json_number (l : list ascii) : option (list ascii * list ascii) :=
  let '(sign, l1) := match l with
                     | a :: l' => if (code a =? 45)%N then ([a], l') else ([], l)
                     | [] => ([], l)
                     end in
  let '(ds, l2) := span_digits l1 in
  match ds with
  | [] => None
  | d :: ds' =>
    (* a leading zero stands alone *)
    let '(int, l3) := if (code d =? 48)%N then ([d], ds' ++ l2) else (ds, l2) in
    '(frac, l4) ← json_fraction l3;
    '(exp, l5) ← json_exponent l4;
    Some (sign ++ int ++ frac ++ exp, l5)
  end.

(** [lit] at the front of the input. *)
Fixpoint expect (lit l : list ascii) : option (list ascii) :=
  match lit, l with
  | [], _ => Some l
  | a :: lit', b :: l' => if bool_decide (a = b) then expect lit' l' else None
  | _, _ => None
  end.

Definition is_chr (n : N) (a : ascii) : bool := (code a =? n)%N.

Fixpoint json_value (fuel : nat) (l : list ascii) {struct fuel} : option (jvalue * list ascii) :=
  match fuel with
  | 0 => None
  | S f =>
    match skip_ws l with
    | [] => None
    | a :: l1 =>
      if is_chr 34 a then '(s, r) ← json_string l1; Some (VStr s, r)
      else if is_chr 123 a then
        match skip_ws l1 with
        | b :: r => if is_chr 125 b then Some (VObj [], r)
                    else '(fs, r') ← json_members f (b :: r); Some (VObj fs, r')
        | [] => None
        end
      else if is_chr 91 a then
        match skip_ws l1 with
        | b :: r => if is_chr 93 b then Some (VArr [], r)
                    else '(vs, r') ← json_elements f (b :: r); Some (VArr vs, r')
        | [] => None
        end
      else if is_chr 116 a then r ← expect (bytes "rue") l1; Some (VBool true, r)
      else if is_chr 102 a then r ← expect (bytes "alse") l1; Some (VBool false, r)
      else if is_chr 110 a then r ← expect (bytes "ull") l1; Some (VNull, r)
      else '(raw, r) ← json_number (a :: l1); Some (VNum raw, r)
    end
  end
with json_members (fuel : nat) (l : list ascii) {struct fuel} : option (list (list ascii * jvalue) * list ascii) :=
  match fuel with
  | 0 => None
  | S f =>
    match skip_ws l with
    | q :: l1 =>
      if negb (is_chr 34 q) then None else
      '(name, l2) ← json_string l1;
      match skip_ws l2 with
      | c :: l3 =>
        if negb (is_chr 58 c) then None else
        '(v, l4) ← json_value f l3;
        match skip_ws l4 with
        | s :: l5 =>
          if is_chr 125 s then Some ([(name, v)], l5)
          else if is_chr 44 s then '(fs, r) ← json_members f l5; Some ((name, v) :: fs, r)
          else None
        | [] => None
        end
      | [] => None
      end
    | [] => None
    end
  end
with json_elements (fuel : nat) (l : list ascii) {struct fuel} : option (list jvalue * list ascii) :=
  match fuel with
  | 0 => None
  | S f =>
    '(v, l1) ← json_value f l;
    match skip_ws l1 with
    | s :: l2 =>
      if is_chr 93 s then Some ([v], l2)
      else if is_chr 44 s then '(vs, r) ← json_elements f l2; Some (v :: vs, r)
      else None
    | [] => None
    end
  end.

(** A whole document: one value and white space. *)
Definition json_parse (s : string) : option jvalue :=
  '(v, rest) ← json_value (S (len s)) (bytes s);
  match skip_ws rest with [] => Some v | _ => None end.

(** The first value of a stream, as [json.Decoder.Decode] reads it. *)
Definition json_first (s : string) : option jvalue := fst <$> json_value (S (len s)) (bytes s).

(** ** Decoding into structs

    Field names match without regard to case; U+017F and U+212A fold to s and k. *)

Definition lower (a : ascii) : ascii :=
  if ((65 <=? code a) && (code a <=? 90))%N then chr (code a + 32) else a.
Fixpoint fold_name (l : list ascii) : list ascii :=
  match l with
  | [] => []
  | a :: l1 =>
    match l1 with
    | [] => [lower a]
    | b :: l2 =>
      if is_chr 0xC5 a && is_chr 0xBF b then chr 115 :: fold_name l2
      else match l2 with
           | c :: l3 => if is_chr 0xE2 a && is_chr 0x84 b && is_chr 0xAA c then chr 107 :: fold_name l3
                        else lower a :: fold_name l1
           | [] => lower a :: fold_name l1
           end
    end
  end.
Definition same_field (name : string) (k : list ascii) : bool := bool_decide (fold_name k = fold_name (bytes name)).

(** Structs of string and int fields, by field name; a missing field is zero. *)
Inductive fkind : Type := FString | FInt.
Record fields := mkFields { f_str : gmap string string; f_int : gmap string Z }.
Definition no_fields : fields := mkFields ∅ ∅.
Definition str_field (f : fields) (n : string) : string := default "" (f_str f !! n).
Definition int_field (f : fields) (n : string) : Z := default 0%Z (f_int f !! n).

Definition known_field (spec : list (string * fkind)) (k : list ascii) : option (string * fkind) :=
  head (filter (λ nk, same_field nk.1 k = true) spec).

(** One member: null changes nothing, a value of another type is an error, and so is
    an unknown member when [strict]. *)
Definition store_member (strict : bool) (spec : list (string * fkind)) (o : option fields)
    (m : list ascii * jvalue) : option fields :=
  f ← o;
  match known_field spec m.1 with
  | None => if strict then None else Some f
  | Some (n, kd) =>
    match m.2, kd with
    | VNull, _ => Some f
    | VStr b, FString => Some (mkFields (<[n := of_bytes b]> (f_str f)) (f_int f))
    | VNum raw, FInt => z ← ParseInt (of_bytes raw); Some (mkFields (f_str f) (<[n := z]> (f_int f)))
    | _, _ => None
    end
  end.
Definition decode_struct (strict : bool) (spec : list (string * fkind)) (v : jvalue) : option fields :=
  match v with
  | VObj ms => foldl (store_member strict spec) (Some no_fields) ms
  | VNull => Some no_fields
  | _ => None
  end.

(** ** json.Marshal of strings, on valid UTF-8 *)

Definition hex_char (n : N) : ascii := chr (if n <? 10 then 48 + n else 87 + n)%N.

(** Quotes, backslashes, control characters and the HTML characters are escaped. *)
Definition quote_char (a : ascii) : list ascii :=
  match code a with
  | 34 | 92 => [backslash; a]
  | 8 => [backslash; chr 98] | 12 => [backslash; chr 102] | 10 => [backslash; chr 110]
  | 13 => [backslash; chr 114] | 9 => [backslash; chr 116]
  | n => if (n <? 32) || (n =? 60) || (n =? 62) || (n =? 38)
         then [backslash; chr 117; chr 48; chr 48; hex_char (n / 16); hex_char (n mod 16)]
         else [a]
  end%N.

(** U+2028 and U+2029 are escaped too. *)
Definition line_separator (a b c : ascii) : bool :=
  ((code a =? 0xE2) && (code b =? 0x80) && ((code c =? 0xA8) || (code c =? 0xA9)))%N.

Fixpoint quote_body (l : list ascii) : list ascii :=
  match l with
  | [] => []
  | a :: l1 =>
    match l1 with
    | b :: c :: l3 =>
      if line_separator a b c
      then backslash :: chr 117 :: chr 50 :: chr 48 :: chr 50 :: hex_char (code c - 160) :: quote_body l3
      else quote_char a ++ quote_body l1
    | _ => quote_char a ++ quote_body l1
    end
  end.
Definition json_quote (s : string) : list ascii := dquote :: quote_body (bytes s) ++ [dquote].

Lemma quote_char_scan a r : json_string (quote_char a ++ r) = prepend [a] (json_string r).
Proof. destruct a as [[] [] [] [] [] [] [] []]; reflexivity. Qed.

Lemma prepend_app l1 l2 r : prepend l1 (prepend l2 r) = prepend (l1 ++ l2) r.
Proof. destruct r as [[s rest]|]; simpl; [by rewrite app_assoc|done]. Qed.

Lemma line_separator_scan a b c r : line_separator a b c = true →
  json_string (backslash :: chr 117 :: chr 50 :: chr 48 :: chr 50 :: hex_char (code c - 160) :: r) =
  prepend [a; b; c] (json_string r).
Proof.
  unfold line_separator. intros [[Ha%N.eqb_eq Hb%N.eqb_eq]%andb_true_iff Hc]%andb_true_iff.
  rewrite <- (chr_code a), <- (chr_code b), Ha, Hb.
  apply orb_true_iff in Hc as [Hc%N.eqb_eq|Hc%N.eqb_eq]; rewrite <- (chr_code c), Hc; reflexivity.
Qed.

Lemma quote_body_scan l r : json_string (quote_body l ++ dquote :: r) = Some (l, r).
Proof.
  induction l as [l IH] using (induction_ltof1 _ (@length ascii)). unfold ltof in IH.
  destruct l as [|a l1]; [reflexivity|].
  assert (json_string ((quote_char a ++ quote_body l1) ++ dquote :: r) = Some (a :: l1, r)) as Hstep.
  { rewrite <- app_assoc, quote_char_scan, IH by (simpl; lia). done. }
  destruct l1 as [|b [|c l3]]; try exact Hstep. cbn [quote_body] in *.
  destruct (line_separator a b c) eqn:E; [|exact Hstep].
  cbn [app]. rewrite (line_separator_scan a b c), IH by (done || simpl; lia). done.
Qed.

(** An object whose values are strings. *)
Fixpoint print_members (fs : list (string * string)) : list ascii :=
  match fs with
  | [] => []
  | [(k, v)] => json_quote k ++ chr 58 :: json_quote v
  | (k, v) :: fs' => json_quote k ++ chr 58 :: json_quote v ++ chr 44 :: print_members fs'
  end.
Definition print_object (fs : list (string * string)) : string :=
  of_bytes (chr 123 :: print_members fs ++ [chr 125]).

Definition string_fields (fs : list (string * string)) : list (list ascii * jvalue) :=
  map (λ '(k, v), (bytes k, VStr (bytes v))) fs.

Lemma json_value_quoted f v r : json_value (S f) (json_quote v ++ r) = Some (VStr (bytes v), r).
Proof.
  unfold json_quote. cbn [json_value skip_ws app]. change (is_ws dquote) with false. cbn match.
  change (is_chr 34 dquote) with true. cbn match. rewrite <- app_assoc. cbn [app].
  by rewrite quote_body_scan.
Qed.

(** Scanning one printed member. *)
Lemma json_members_step f k v s r :
  is_ws s = false →
  json_members (S (S f)) (json_quote k ++ chr 58 :: json_quote v ++ s :: r) =
    if is_chr 125 s then Some ([(bytes k, VStr (bytes v))], r)
    else if is_chr 44 s then '(fs, r') ← json_members (S f) r; Some ((bytes k, VStr (bytes v)) :: fs, r')
    else None.
Proof.
  intros Hs. unfold json_quote at 1. remember (S f) as f' eqn:Ef. cbn [json_members skip_ws app].
  change (is_ws dquote) with false. cbn match. change (is_chr 34 dquote) with true. cbn match. cbn [negb].
  rewrite <- app_assoc. cbn [app]. rewrite quote_body_scan. cbn [mbind option_bind skip_ws].
  change (is_ws (chr 58)) with false. cbn match. change (is_chr 58 (chr 58)) with true. cbn [negb].
  subst f'. rewrite json_value_quoted. cbn [mbind option_bind skip_ws]. rewrite Hs. reflexivity.
Qed.

Lemma print_members_scan fs f r :
  fs ≠ [] → length fs ≤ f → json_members (S f) (print_members fs ++ chr 125 :: r) = Some (string_fields fs, r).
Proof.
  revert f. induction fs as [|[k v] fs IH]; intros f Hne Hf; [done|]. destruct f as [|f]; [simpl in Hf; lia|].
  destruct fs as [|kv fs].
  - cbn [print_members]. rewrite <- app_assoc. cbn [app]. by rewrite json_members_step.
  - change (print_members ((k, v) :: kv :: fs)) with
      (json_quote k ++ chr 58 :: json_quote v ++ chr 44 :: print_members (kv :: fs)).
    rewrite <- app_assoc. cbn [app]. rewrite <- app_assoc. cbn [app].
    rewrite json_members_step by done. change (is_chr 125 (chr 44)) with false.
    change (is_chr 44 (chr 44)) with true. cbn match.
    rewrite IH by (done || simpl in *; lia). reflexivity.
Qed.

Lemma json_quote_length s : 2 ≤ length (json_quote s).
Proof. unfold json_quote. simpl. rewrite length_app. simpl. lia. Qed.

Lemma print_members_length fs : 4 * length fs ≤ length (print_members fs).
Proof.
  induction fs as [|[k v] fs IH]; [simpl; lia|].
  pose proof (json_quote_length k). pose proof (json_quote_length v).
  destruct fs as [|kv fs]; cbn [print_members length] in *; rewrite length_app; cbn [length];
    [lia|rewrite length_app; cbn [length]; lia].
Qed.

Lemma json_parse_print fs : fs ≠ [] → json_parse (print_object fs) = Some (VObj (string_fields fs)).
Proof.
  intros Hne. unfold json_parse, print_object, len. rewrite bytes_of_bytes.
  pose proof (print_members_length fs) as Hl.
  assert (∃ l, print_members fs = dquote :: l) as (l & Ep).
  { destruct fs as [|[k v] [|kv fs]]; [done|..]; cbn [print_members]; unfold json_quote at 1; cbn [app]; eauto. }
  set (n := length (chr 123 :: print_members fs ++ [chr 125])).
  assert (S (length fs) ≤ n) as Hn by (unfold n; simpl; rewrite length_app; simpl; lia).
  destruct n as [|n]; [lia|]. cbn [json_value skip_ws]. change (is_ws (chr 123)) with false. cbn match.
  change (is_chr 34 (chr 123)) with false. change (is_chr 123 (chr 123)) with true. cbn match.
  assert (skip_ws (print_members fs ++ [chr 125]) = print_members fs ++ [chr 125]) as -> by (by rewrite Ep).
  pose proof (print_members_scan fs n [] Hne ltac:(lia)) as Hs. rewrite Ep in *. cbn [app] in *.
  change (is_chr 125 dquote) with false. cbn match. by rewrite Hs.
Qed.

(** ** time.Time.UTC().Format(time.RFC3339Nano)

    An instant is the number of nanoseconds since 1970-01-01T00:00:00Z. *)

(** Year, month and day of a day number since 1970-01-01, proleptic Gregorian. *)
Definition civil (days : Z) : Z * Z * Z :=
  let z := (days + 719468)%Z in
  let era := (z / 146097)%Z in
  let doe := (z mod 146097)%Z in
  let yoe := ((doe - doe / 1460 + doe / 36524 - doe / 146096) / 365)%Z in
  let doy := (doe - (365 * yoe + yoe / 4 - yoe / 100))%Z in
  let mp := ((5 * doy + 2) / 153)%Z in
  let d := (doy - (153 * mp + 2) / 5 + 1)%Z in
  let m := if (mp <? 10)%Z then (mp + 3)%Z else (mp - 9)%Z in
  let y := (yoe + era * 400 + (if (m <=? 2)%Z then 1 else 0))%Z in
  (y, m, d).

(** At least [w] digits, zero-padded. *)
Definition padded (w : nat) (n : Z) : string :=
  let ds := fmt_digits 20 n [] in of_bytes (replicate (w - length ds) (digit_char 0) ++ ds).

(** The fraction with its trailing zeros removed, empty when it is zero. *)
Fixpoint strip_zeros (l : list ascii) : list ascii :=
  match l with
  | a :: l' => if (code a =? 48)%N then strip_zeros l' else l
  | [] => []
  end.
Definition fraction (nanos : Z) : string :=
  match strip_zeros (rev (bytes (padded 9 nanos))) with
  | [] => ""
  | l => "." +:+ of_bytes (rev l)
  end.

Definition FormatRFC3339Nano (t : Z) : string :=
  let secs := (t / 1000000000)%Z in
  let nanos := (t mod 1000000000)%Z in
  let '(y, m, d) := civil (secs / 86400) in
  let s := (secs mod 86400)%Z in
  (if (y <? 0)%Z then "-" else "") +:+ padded 4 (Z.abs y) +:+ "-" +:+ padded 2 m +:+ "-" +:+ padded 2 d +:+ "T" +:+
  padded 2 (s / 3600) +:+ ":" +:+ padded 2 (s / 60 mod 60) +:+ ":" +:+ padded 2 (s mod 60) +:+
  fraction nanos +:+ "Z".

Example format_epoch : FormatRFC3339Nano 0 = "1970-01-01T00:00:00Z".
Proof. reflexivity. Qed.
Example format_leap : FormatRFC3339Nano 1709209523123400000 = "2024-02-29T12:25:23.1234Z".
Proof. reflexivity. Qed.
