(* ===== verification/Apperr.v ===== *)
(** * Application errors (internal/platform/apperr)

    The error values of the control plane: application errors with a kind, a
    stable code and an optional cause, errors wrapped by [fmt.Errorf] with
    [%w], and the library errors the adapters test for.  Two error values are
    compared structurally; the sentinels the code compares by identity
    ([ErrServiceNotFound], [ErrTenantNotFound]) carry codes nothing else
    constructs, so both comparisons agree on them. *)
From S2P Require Import Prelude GoStrings.

Inductive Kind : Type :=
| KindInternal
| KindValidation
| KindNotFound
| KindConflict
| KindUnauthorized
| KindForbidden
| KindPreconditionFailed
| KindTooManyRequests
| KindUnavailable.

#[export] Instance Kind_eq_dec : EqDecision Kind.
Proof. solve_decision. Defined.

(** [apperr.Error] without its cause, which [goerror] carries. *)
Record Error := mkError {
  err_Kind : Kind;
  err_Code : string;
  err_Message : string;
  err_Details : list string
}.

#[export] Instance Error_eq_dec : EqDecision Error.
Proof. solve_decision. Defined.

Inductive goerror : Type :=
| EApp (e : Error)                           (** [*apperr.Error], no cause *)
| ECause (e : Error) (cause : goerror)       (** [*apperr.Error] with a cause *)
| EWrap (prefix : string) (cause : goerror)  (** [fmt.Errorf("prefix: %w", cause)] *)
| EPg (sqlstate msg : string)                (** [*pgconn.PgError] *)
| ENoRows                                    (** [pgx.ErrNoRows] *)
| EOther (msg : string).                     (** any other error value *)

#[export] Instance goerror_eq_dec : EqDecision goerror.
Proof. solve_decision. Defined.

(** ** Constructors *)

Definition New (k : Kind) (code message : string) : goerror := EApp (mkError k code message []).

Definition Validation := New KindValidation.
Definition NotFound := New KindNotFound.
Definition Conflict := New KindConflict.
Definition Unauthorized := New KindUnauthorized.
Definition Forbidden := New KindForbidden.
Definition Precondition := New KindPreconditionFailed.
Definition TooManyRequests := New KindTooManyRequests.
Definition Internal := New KindInternal.
Definition Unavailable := New KindUnavailable.

(** [WithCause] and [WithDetails] are methods of [*Error]; other values keep. *)
Definition WithCause (e : goerror) (cause : goerror) : goerror :=
  match e with
  | EApp a | ECause a _ => ECause a cause
  | _ => e
  end.

Definition add_details (a : Error) (d : list string) : Error :=
  mkError (err_Kind a) (err_Code a) (err_Message a) (err_Details a ++ d).
Definition WithDetails (e : goerror) (d : list string) : goerror :=
  match e with
  | EApp a => EApp (add_details a d)
  | ECause a c => ECause (add_details a d) c
  | _ => e
  end.

(** ** Inspection *)

Definition Unwrap (e : goerror) : option goerror :=
  match e with
  | ECause _ c | EWrap _ c => Some c
  | _ => None
  end.

(** [err.Error()]. *)
Fixpoint error_string (e : goerror) : string :=
  match e with
  | EApp a => err_Message a
  | ECause a c => err_Message a +:+ ": " +:+ error_string c
  | EWrap p c => p +:+ ": " +:+ error_string c
  | EPg _ m => m
  | ENoRows => "no rows in result set"
  | EOther m => m
  end.

(** [apperr.As]: the first [*apperr.Error] of the unwrap chain. *)
Fixpoint As (e : goerror) : option Error :=
  match e with
  | EApp a | ECause a _ => Some a
  | EWrap _ c => As c
  | EPg _ _ | ENoRows | EOther _ => None
  end.

(** [errors.Is]: the target occurs in the unwrap chain. *)
Fixpoint Is (e target : goerror) : bool :=
  bool_decide (e = target) ||
  match e with
  | ECause _ c | EWrap _ c => Is c target
  | _ => false
  end.

(** [errors.As(err, &pgErr) && pgErr.Code == "23505"] (both Postgres adapters). *)
Fixpoint isUniqueViolation (e : goerror) : bool :=
  match e with
  | EPg code _ => bool_decide (code = "23505")
  | ECause _ c | EWrap _ c => isUniqueViolation c
  | _ => false
  end.

Definition kind_status (k : Kind) : Z :=
  match k with
  | KindValidation => 422
  | KindNotFound => 404
  | KindConflict => 409
  | KindUnauthorized => 401
  | KindForbidden => 403
  | KindPreconditionFailed => 412
  | KindTooManyRequests => 429
  | KindUnavailable => 503
  | KindInternal => 500
  end%Z.

Definition HTTPStatus (e : goerror) : Z :=
  match As e with
  | None => 500%Z
  | Some a => kind_status (err_Kind a)
  end.

(** ** Lemmas *)

(** Wrapping for context never changes what a client sees. *)
Lemma HTTPStatus_wrap p e : HTTPStatus (EWrap p e) = HTTPStatus e.
Proof. done. Qed.
Lemma As_wrap p e : As (EWrap p e) = As e.
Proof. done. Qed.

Lemma Is_refl e : Is e e = true.
Proof. destruct e; cbn [Is]; apply orb_true_iff; left; by apply bool_decide_eq_true_2. Qed.

Lemma HTTPStatus_range e : (400 ≤ HTTPStatus e < 600)%Z.
Proof. unfold HTTPStatus. destruct (As e) as [[[] ? ? ?]|]; simpl; lia. Qed.

(** A fault of the infrastructure: an error with no application error inside, as
    drivers and network clients return them. *)
Definition infra (e : goerror) : Prop := As e = None.

Lemma infra_status e : infra e → HTTPStatus e = 500%Z.
Proof. unfold infra, HTTPStatus. by intros ->. Qed.
#[export] Hint Rewrite HTTPStatus_wrap As_wrap Is_refl : forge.
#[export] Hint Resolve infra_status : forge.
