(* ===== verification/Uuid.v ===== *)
(** * Identifiers (internal/platform/id)

    UUIDs come from the package [github.com/google/uuid], which is outside the
    repository: the class [UUIDLib] is its interface, a parameter of the whole
    development.  Its laws are the documented ones: a UUID is a 128-bit number,
    and parsing the canonical text of a UUID gives the UUID back. *)
From S2P Require Import Prelude.

Class UUIDLib := {
  uuid : Type;
  uuid_eq_dec :: EqDecision uuid;
  uuid_Nil : uuid;
  uuid_num : uuid → Z;
  uuid_Parse : string → option uuid;
  uuid_String : uuid → string;
  uuid_num_inj :: Inj (=) (=) uuid_num;
  uuid_Parse_String u : uuid_Parse (uuid_String u) = Some u
}.

#[export] Instance uuid_countable `{UUIDLib} : Countable uuid :=
  inj_countable uuid_String uuid_Parse uuid_Parse_String.

Lemma uuid_String_inj `{UUIDLib} u v : uuid_String u = uuid_String v → u = v.
Proof. intros H0. apply (f_equal uuid_Parse) in H0. rewrite !uuid_Parse_String in H0. congruence. Qed.
#[export] Hint Rewrite @uuid_Parse_String : forge.

(** ** A concrete instance

    Words over bytes, printed behind a one-letter prefix: enough to evaluate the
    definitions on closed inputs. *)
#[local] Definition demo_Parse (s : string) : option string :=
  match s with String "u" t => Some t | _ => None end.

#[local] Instance demo_num_inj : Inj (=) (=) (λ s : string, Zpos (encode s)).
Proof. intros x y E. apply (inj encode). congruence. Qed.

Definition demo_uuid : UUIDLib :=
  {| uuid := string; uuid_Nil := ""; uuid_num s := Zpos (encode s);
     uuid_Parse := demo_Parse; uuid_String s := String "u" s;
     uuid_num_inj := demo_num_inj; uuid_Parse_String u := eq_refl |}.
