(* ===== verification/CatalogDomain.v ===== *)
(** * Catalog domain (internal/modules/catalog/domain)

    The service aggregate: identifiers, value objects, the lifecycle table, the
    operations that change a service and the domain events they record.  The
    invariant [service_wf] is what every aggregate built by these operations
    satisfies, and [log_of] relates an aggregate to the events recorded since
    its registration. *)
From S2P Require Import Prelude GoStrings Regexp Apperr Uuid.

(** ** Errors (errors.go) *)

Definition ErrInvalidServiceID := Validation "INVALID_SERVICE_ID" "service id is not a valid identifier".
Definition ErrInvalidTenantID := Validation "INVALID_TENANT_ID" "tenant id is not a valid identifier".
Definition ErrInvalidServiceName := Validation "INVALID_SERVICE_NAME" "service name must be a DNS-1123 label of 1 to 63 characters".
Definition ErrInvalidTier := Validation "INVALID_TIER" "tier must be an integer from 1 to 4".
Definition ErrInvalidLifecycle := Validation "INVALID_LIFECYCLE" "lifecycle must be one of experimental, production, deprecated, retired".
Definition ErrInvalidOwnership := Validation "INVALID_OWNERSHIP" "owning team is required".
Definition ErrIllegalTransition := Precondition "ILLEGAL_LIFECYCLE_TRANSITION" "the requested lifecycle transition is not permitted".
Definition ErrOnCallRequired := Precondition "ONCALL_REQUIRED" "a service cannot enter production without an on-call reference".
Definition ErrAlreadyRetired := Precondition "SERVICE_RETIRED" "a retired service cannot be modified".
Definition ErrServiceNotFound := NotFound "SERVICE_NOT_FOUND" "service not found".
Definition ErrNameConflict := Conflict "SERVICE_NAME_CONFLICT" "a service with this name already exists in the tenant".
Definition ErrVersionConflict := Conflict "VERSION_CONFLICT" "the service was modified concurrently; retry with the current version".

(** ** Value objects (values.go) *)

Record ServiceName := mkServiceName { sn_v : string }.
Record Tier := mkTier { tier_v : Z }.
Record Ownership := mkOwnership { OwningTeam : string; OnCallRef : string }.

#[export] Instance ServiceName_eq_dec : EqDecision ServiceName.
Proof. solve_decision. Defined.
#[export] Instance Tier_eq_dec : EqDecision Tier.
Proof. solve_decision. Defined.
#[export] Instance Ownership_eq_dec : EqDecision Ownership.
Proof. solve_decision. Defined.

Definition dns1123Label : re := dns1123.

Definition NewServiceName (s : string) : result goerror ServiceName :=
  let s := TrimSpace s in
  if (len s <? 1) || (63 <? len s) || negb (MatchString dns1123Label s)
  then Err ErrInvalidServiceName
  else Ok (mkServiceName s).

Definition NewTier (t : Z) : result goerror Tier :=
  if (t <? 1)%Z || (4 <? t)%Z then Err ErrInvalidTier else Ok (mkTier t).

Definition IsCritical (t : Tier) : bool := (tier_v t <=? 2)%Z.

(** [type Lifecycle string] and its constants. *)
Definition LifecycleExperimental : string := "experimental".
Definition LifecycleProduction : string := "production".
Definition LifecycleDeprecated : string := "deprecated".
Definition LifecycleRetired : string := "retired".

Definition lifecycleTransitions : gmap string (gmap string bool) :=
  {[ LifecycleExperimental :=
       {[ LifecycleProduction := true; LifecycleDeprecated := true; LifecycleRetired := true ]};
     LifecycleProduction := {[ LifecycleDeprecated := true; LifecycleRetired := true ]};
     LifecycleDeprecated := {[ LifecycleProduction := true; LifecycleRetired := true ]};
     LifecycleRetired := ∅ ]}.

Definition ParseLifecycle (s : string) : result goerror string :=
  match lifecycleTransitions !! s with
  | None => Err ErrInvalidLifecycle
  | Some _ => Ok s
  end.

(** A missing entry of either map reads as Go's zero value. *)
Definition canTransitionTo (l target : string) : bool :=
  default false (default ∅ (lifecycleTransitions !! l) !! target).

Definition NewOwnership (team onCall : string) : result goerror Ownership :=
  let team := TrimSpace team in
  if decide (team = "") then Err ErrInvalidOwnership
  else Ok (mkOwnership team (TrimSpace onCall)).

Definition hasOnCall (o : Ownership) : bool := negb (bool_decide (OnCallRef o = "")).

(** ** Events (events.go) *)

Record base := mkBase { base_id : string; base_at : Z }.

Inductive Event : Type :=
| ServiceRegistered (b : base) (TenantID Name : string) (Tier : Z)
| ServiceOwnershipChanged (b : base) (PreviousTeam NewTeam : string)
| ServiceLifecycleChanged (b : base) (From To : string)
| ServiceRetired (b : base).

#[export] Instance base_eq_dec : EqDecision base.
Proof. solve_decision. Defined.
#[export] Instance Event_eq_dec : EqDecision Event.
Proof. solve_decision. Defined.

Definition event_base (e : Event) : base :=
  match e with
  | ServiceRegistered b _ _ _ | ServiceOwnershipChanged b _ _
  | ServiceLifecycleChanged b _ _ | ServiceRetired b => b
  end.
Definition AggregateID (e : Event) : string := base_id (event_base e).
Definition OccurredAt (e : Event) : Z := base_at (event_base e).
Definition EventType (e : Event) : string :=
  match e with
  | ServiceRegistered _ _ _ _ => "catalog.service.registered"
  | ServiceOwnershipChanged _ _ _ => "catalog.service.ownership_changed"
  | ServiceLifecycleChanged _ _ _ => "catalog.service.lifecycle_changed"
  | ServiceRetired _ => "catalog.service.retired"
  end.

(** ** The aggregate (ids.go, service.go) *)

Section aggregate.
Context `{UUIDLib}.

Record ServiceID := mkServiceID { sid_v : uuid }.
Record TenantID := mkTenantID { tid_v : uuid }.

Definition NewServiceID (fresh : uuid) : ServiceID := mkServiceID fresh.
Definition ServiceIDFromString (s : string) : result goerror ServiceID :=
  match uuid_Parse s with
  | None => Err ErrInvalidServiceID
  | Some u => Ok (mkServiceID u)
  end.
Definition ServiceID_String (i : ServiceID) : string := uuid_String (sid_v i).
Definition ServiceID_IsZero (i : ServiceID) : bool := bool_decide (sid_v i = uuid_Nil).

Definition TenantIDFromString (s : string) : result goerror TenantID :=
  match uuid_Parse s with
  | None => Err ErrInvalidTenantID
  | Some u => Ok (mkTenantID u)
  end.
Definition TenantID_String (i : TenantID) : string := uuid_String (tid_v i).
Definition TenantID_IsZero (i : TenantID) : bool := bool_decide (tid_v i = uuid_Nil).

Record Service := mkService {
  svc_id : ServiceID;
  svc_tenantID : TenantID;
  svc_name : ServiceName;
  svc_description : string;
  svc_tier : Tier;
  svc_lifecycle : string;
  svc_repository : string;
  svc_ownership : Ownership;
  svc_version : Z;
  svc_createdAt : Z;
  svc_updatedAt : Z;
  svc_events : list Event
}.

Definition set_ownership (s : Service) (o : Ownership) : Service :=
  mkService (svc_id s) (svc_tenantID s) (svc_name s) (svc_description s) (svc_tier s) (svc_lifecycle s) (svc_repository s)
    o (svc_version s) (svc_createdAt s) (svc_updatedAt s) (svc_events s).
Definition set_lifecycle (s : Service) (l : string) : Service :=
  mkService (svc_id s) (svc_tenantID s) (svc_name s) (svc_description s) (svc_tier s) l (svc_repository s)
    (svc_ownership s) (svc_version s) (svc_createdAt s) (svc_updatedAt s) (svc_events s).
Definition set_events (s : Service) (es : list Event) : Service :=
  mkService (svc_id s) (svc_tenantID s) (svc_name s) (svc_description s) (svc_tier s) (svc_lifecycle s) (svc_repository s)
    (svc_ownership s) (svc_version s) (svc_createdAt s) (svc_updatedAt s) es.

(** [s.version++] wraps around at 64 bits. *)
Definition touch (s : Service) (now : Z) : Service :=
  mkService (svc_id s) (svc_tenantID s) (svc_name s) (svc_description s) (svc_tier s) (svc_lifecycle s) (svc_repository s)
    (svc_ownership s) (wrap64 (svc_version s + 1)) (svc_createdAt s) now (svc_events s).
Definition record_event (s : Service) (e : Event) : Service := set_events s (svc_events s ++ [e]).

(** [PullEvents] returns the recorded events and clears them. *)
Definition PullEvents (s : Service) : list Event * Service := (svc_events s, set_events s []).

Definition Register (i : ServiceID) (t : TenantID) (n : ServiceName) (descr : string)
    (ti : Tier) (repo : string) (o : Ownership) (now : Z) : Service :=
  let s := mkService i t n descr ti LifecycleExperimental repo o 1 now now [] in
  record_event s (ServiceRegistered (mkBase (ServiceID_String i) now)
              (TenantID_String t) (sn_v n) (tier_v ti)).

Definition Reconstitute (i : ServiceID) (t : TenantID) (n : ServiceName) (descr : string)
    (ti : Tier) (l : string) (repo : string) (o : Ownership) (v created updated : Z) : Service :=
  mkService i t n descr ti l repo o v created updated [].

Definition ChangeOwnership (s : Service) (o : Ownership) (now : Z) : result goerror Service :=
  if decide (svc_lifecycle s = LifecycleRetired) then Err ErrAlreadyRetired
  else if bool_decide (svc_lifecycle s = LifecycleProduction) && negb (hasOnCall o)
  then Err ErrOnCallRequired
  else
    let previous := OwningTeam (svc_ownership s) in
    let s := set_ownership s o in
    let s := touch s now in
    Ok (record_event s (ServiceOwnershipChanged (mkBase (ServiceID_String (svc_id s)) now)
                    previous (OwningTeam o))).

Definition ChangeLifecycle (s : Service) (target : string) (now : Z) : result goerror Service :=
  if decide (svc_lifecycle s = target) then Ok s
  else if negb (canTransitionTo (svc_lifecycle s) target) then Err ErrIllegalTransition
  else if bool_decide (target = LifecycleProduction) && negb (hasOnCall (svc_ownership s))
  then Err ErrOnCallRequired
  else
    let from := svc_lifecycle s in
    let s := set_lifecycle s target in
    let s := touch s now in
    Ok (record_event s (ServiceLifecycleChanged (mkBase (ServiceID_String (svc_id s)) now) from target)).

Definition Retire (s : Service) (now : Z) : result goerror Service :=
  if decide (svc_lifecycle s = LifecycleRetired) then Ok s
  else
    let s := set_lifecycle s LifecycleRetired in
    let s := touch s now in
    Ok (record_event s (ServiceRetired (mkBase (ServiceID_String (svc_id s)) now))).
End aggregate.

(** ** Value objects: what the constructors accept *)

Definition name_wf (n : ServiceName) : Prop := dns_label (sn_v n) ∧ len (sn_v n) ≤ 63.
Definition tier_wf (t : Tier) : Prop := (1 ≤ tier_v t ≤ 4)%Z.
Definition ownership_wf (o : Ownership) : Prop :=
  OwningTeam o ≠ "" ∧ trimmed (OwningTeam o) ∧ trimmed (OnCallRef o).
Definition lifecycle_wf (l : string) : Prop :=
  l ∈ [LifecycleExperimental; LifecycleProduction; LifecycleDeprecated; LifecycleRetired].

#[export] Instance name_wf_dec n : Decision (name_wf n).
Proof. unfold name_wf. apply _. Defined.
#[export] Instance tier_wf_dec t : Decision (tier_wf t).
Proof. unfold tier_wf. apply _. Defined.
#[export] Instance ownership_wf_dec o : Decision (ownership_wf o).
Proof. unfold ownership_wf. apply _. Defined.
#[export] Instance lifecycle_wf_dec l : Decision (lifecycle_wf l).
Proof. unfold lifecycle_wf. apply _. Defined.

Lemma dns_label_len s : dns_label s → 1 ≤ len s.
Proof. intros (a & b & Ha & _). unfold len. destruct (bytes s); simpl in *; [done|lia]. Qed.

Lemma NewServiceName_eq raw :
  NewServiceName raw =
    if decide (name_wf (mkServiceName (TrimSpace raw)))
    then Ok (mkServiceName (TrimSpace raw)) else Err ErrInvalidServiceName.
Proof.
  unfold NewServiceName, name_wf, dns1123Label. simpl. set (s := TrimSpace raw).
  destruct (MatchString dns1123 s) eqn:E.
  - apply dns1123_spec in E as Hd. apply dns_label_len in Hd as Hl.
    destruct (Nat.ltb_spec (len s) 1); [lia|]. simpl.
    destruct (Nat.ltb_spec 63 (len s)); simpl.
    + rewrite decide_False; [done|]. intros [_ ?]. lia.
    + by rewrite decide_True.
  - rewrite orb_true_r. rewrite decide_False; [done|]. intros [Hd _].
    apply dns1123_spec in Hd. congruence.
Qed.

Lemma NewServiceName_Ok raw n :
  NewServiceName raw = Ok n ↔ n = mkServiceName (TrimSpace raw) ∧ name_wf n.
Proof. rewrite NewServiceName_eq. case_decide; naive_solver. Qed.

Lemma NewServiceName_stable n : name_wf n → NewServiceName (sn_v n) = Ok n.
Proof.
  intros Hn. apply NewServiceName_Ok. split; [|done]. destruct n as [s]. f_equal.
  symmetry. by apply dns_label_trimmed, Hn.
Qed.

Lemma NewTier_Ok z t : NewTier z = Ok t ↔ t = mkTier z ∧ tier_wf t.
Proof.
  unfold NewTier, tier_wf.
  destruct (Z.ltb_spec z 1), (Z.ltb_spec 4 z); simpl; split; intros Ht; simplify_eq;
    destruct_and?; subst; simpl in *; try lia; done.
Qed.

Lemma NewOwnership_Ok t c o :
  NewOwnership t c = Ok o ↔ o = mkOwnership (TrimSpace t) (TrimSpace c) ∧ TrimSpace t ≠ "".
Proof. unfold NewOwnership. case_decide; naive_solver. Qed.

Lemma NewOwnership_wf t c o : NewOwnership t c = Ok o → ownership_wf o.
Proof. intros [-> ?]%NewOwnership_Ok. split_and!; simpl; auto with forge. Qed.

Lemma NewOwnership_stable o : ownership_wf o → NewOwnership (OwningTeam o) (OnCallRef o) = Ok o.
Proof.
  intros (Hne & Ht & Hc). apply NewOwnership_Ok. rewrite Ht, Hc. by destruct o.
Qed.

Lemma lifecycle_lookup l : is_Some (lifecycleTransitions !! l) ↔ lifecycle_wf l.
Proof.
  unfold lifecycleTransitions, lifecycle_wf. rewrite <- elem_of_dom.
  rewrite !dom_insert_L, dom_singleton_L. set_solver.
Qed.

Lemma ParseLifecycle_eq s :
  ParseLifecycle s = if decide (lifecycle_wf s) then Ok s else Err ErrInvalidLifecycle.
Proof.
  unfold ParseLifecycle. pose proof (lifecycle_lookup s) as Hl.
  destruct (lifecycleTransitions !! s) eqn:E; case_decide; naive_solver.
Qed.

Lemma ParseLifecycle_Ok s l : ParseLifecycle s = Ok l ↔ l = s ∧ lifecycle_wf s.
Proof. rewrite ParseLifecycle_eq. case_decide; naive_solver. Qed.

(** The transition table as a list of pairs. *)
Definition transitions : list (string * string) :=
  [(LifecycleExperimental, LifecycleProduction); (LifecycleExperimental, LifecycleDeprecated);
   (LifecycleExperimental, LifecycleRetired); (LifecycleProduction, LifecycleDeprecated);
   (LifecycleProduction, LifecycleRetired); (LifecycleDeprecated, LifecycleProduction);
   (LifecycleDeprecated, LifecycleRetired)].

Lemma canTransitionTo_spec l t : canTransitionTo l t = true ↔ (l, t) ∈ transitions.
Proof.
  unfold canTransitionTo, lifecycleTransitions, transitions.
  rewrite !elem_of_cons, elem_of_nil, !pair_equal_spec.
  rewrite !lookup_insert. repeat case_decide; subst; simpl;
    rewrite ?lookup_insert, ?lookup_singleton, ?lookup_empty; repeat case_decide; subst; simpl; naive_solver.
Qed.

Lemma retired_no_transition t : canTransitionTo LifecycleRetired t = false.
Proof.
  unfold canTransitionTo.
  replace (lifecycleTransitions !! LifecycleRetired) with (Some (∅ : gmap string bool))
    by (vm_compute; reflexivity).
  simpl. by rewrite lookup_empty.
Qed.

Lemma canTransitionTo_wf l t : canTransitionTo l t = true → lifecycle_wf t.
Proof.
  rewrite canTransitionTo_spec. unfold transitions, lifecycle_wf.
  rewrite !elem_of_cons, elem_of_nil, !pair_equal_spec. naive_solver.
Qed.

(** ** The aggregate invariant *)

Section aggregate_facts.
Context `{UUIDLib}.

(** A production service names whom to call (SRD BR-042). *)
Definition oncall_ok (s : Service) : Prop :=
  svc_lifecycle s = LifecycleProduction → hasOnCall (svc_ownership s) = true.

Record service_wf (s : Service) : Prop := {
  wf_name : name_wf (svc_name s);
  wf_tier : tier_wf (svc_tier s);
  wf_lifecycle : lifecycle_wf (svc_lifecycle s);
  wf_ownership : ownership_wf (svc_ownership s);
  wf_oncall : oncall_ok s;
  wf_version : in_int64 (svc_version s)
}.

(** The operations of the aggregate, as the use cases call them. *)
Inductive Op : Type :=
| OpChangeOwnership (o : Ownership)
| OpChangeLifecycle (target : string)
| OpRetire.

Definition run_op (op : Op) (s : Service) (now : Z) : result goerror Service :=
  match op with
  | OpChangeOwnership o => ChangeOwnership s o now
  | OpChangeLifecycle t => ChangeLifecycle s t now
  | OpRetire => Retire s now
  end.

(** The arguments were produced by the value-object constructors. *)
Definition op_wf (op : Op) : Prop :=
  match op with
  | OpChangeOwnership o => ownership_wf o
  | OpChangeLifecycle t => lifecycle_wf t
  | OpRetire => True
  end.

(** [s'] is [s] after one recorded change: the event [e] at time [now]. *)
Record changed (s s' : Service) (e : Event) (now : Z) : Prop := {
  ch_id : svc_id s' = svc_id s;
  ch_tenant : svc_tenantID s' = svc_tenantID s;
  ch_name : svc_name s' = svc_name s;
  ch_description : svc_description s' = svc_description s;
  ch_tier : svc_tier s' = svc_tier s;
  ch_repository : svc_repository s' = svc_repository s;
  ch_created : svc_createdAt s' = svc_createdAt s;
  ch_version : svc_version s' = wrap64 (svc_version s + 1);
  ch_updated : svc_updatedAt s' = now;
  ch_events : svc_events s' = svc_events s ++ [e];
  ch_aggregate : AggregateID e = ServiceID_String (svc_id s);
  ch_occurred : OccurredAt e = now
}.

(** What the event says about the change. *)
Definition explains (e : Event) (s s' : Service) : Prop :=
  match e with
  | ServiceRegistered _ _ _ _ => False
  | ServiceOwnershipChanged _ p n =>
    p = OwningTeam (svc_ownership s) ∧ n = OwningTeam (svc_ownership s') ∧
    svc_lifecycle s ≠ LifecycleRetired ∧ svc_lifecycle s' = svc_lifecycle s
  | ServiceLifecycleChanged _ f t =>
    f = svc_lifecycle s ∧ t = svc_lifecycle s' ∧ canTransitionTo f t = true ∧
    svc_ownership s' = svc_ownership s
  | ServiceRetired _ =>
    svc_lifecycle s ≠ LifecycleRetired ∧ svc_lifecycle s' = LifecycleRetired ∧
    svc_ownership s' = svc_ownership s
  end.

(** Every successful operation either changes nothing or makes exactly one
    recorded, explained change. *)
Lemma run_op_inv op s now s' :
  run_op op s now = Ok s' → s' = s ∨ ∃ e, changed s s' e now ∧ explains e s s'.
Proof.
  destruct op as [o|t|]; simpl; unfold ChangeOwnership, ChangeLifecycle, Retire;
    intros E; case_all; try (by left); right; eexists; (split; [constructor; reflexivity|]);
    simpl; split_and!; try done.
  all: by apply negb_false_iff.
Qed.

Lemma run_op_wf op s now s' :
  op_wf op → service_wf s → run_op op s now = Ok s' → service_wf s'.
Proof.
  intros Hop [Hn Ht Hl Ho Hc Hv].
  destruct op as [o|t|]; simpl in *; unfold ChangeOwnership, ChangeLifecycle, Retire;
    intros E; case_all; try done; constructor; simpl; auto with forge.
  all: try (unfold oncall_ok; simpl; intros; simplify_eq; by apply negb_false_iff).
  unfold lifecycle_wf. set_solver.
Qed.

Lemma Register_wf i t n d ti r o now :
  name_wf n → tier_wf ti → ownership_wf o → service_wf (Register i t n d ti r o now).
Proof.
  intros. constructor; simpl; try done.
  unfold lifecycle_wf. set_solver.
Qed.

Lemma run_op_id op s now s' : run_op op s now = Ok s' → svc_id s' = svc_id s.
Proof. intros [->|(e & Hc & _)]%run_op_inv; [done|by apply Hc]. Qed.

(** ** Runs of an aggregate *)

(** The aggregates the domain can produce: registered from constructed values,
    changed by operations, with events pulled at any time. *)
Inductive reachable : Service → Prop :=
| reach_register i t n d ti r o now rawName rawTier rawTeam rawOnCall :
    NewServiceName rawName = Ok n → NewTier rawTier = Ok ti →
    NewOwnership rawTeam rawOnCall = Ok o → reachable (Register i t n d ti r o now)
| reach_ownership s rawTeam rawOnCall o now s' :
    reachable s → NewOwnership rawTeam rawOnCall = Ok o →
    ChangeOwnership s o now = Ok s' → reachable s'
| reach_lifecycle s raw l now s' :
    reachable s → ParseLifecycle raw = Ok l → ChangeLifecycle s l now = Ok s' → reachable s'
| reach_retire s now s' : reachable s → Retire s now = Ok s' → reachable s'
| reach_pull s : reachable s → reachable (PullEvents s).2.

(** The events recorded since registration, in order, whether pulled or not. *)
Inductive log_of : list Event → Service → Prop :=
| log_register i t n d ti r o now :
    log_of (svc_events (Register i t n d ti r o now)) (Register i t n d ti r o now)
| log_op log op s now s' :
    log_of log s → run_op op s now = Ok s' →
    log_of (log ++ drop (length (svc_events s)) (svc_events s')) s'
| log_pull log s : log_of log s → log_of log (PullEvents s).2.

(** What a consumer of the events can rebuild: the lifecycle, and the owning
    team once ownership has changed.  [None] is a log that does not fit. *)
Record view := mkView { v_lifecycle : string; v_team : option string }.

Definition step_view (v : view) (e : Event) : option view :=
  match e with
  | ServiceRegistered _ _ _ _ => None
  | ServiceOwnershipChanged _ p n =>
    if decide (default p (v_team v) = p ∧ v_lifecycle v ≠ LifecycleRetired)
    then Some (mkView (v_lifecycle v) (Some n)) else None
  | ServiceLifecycleChanged _ f t =>
    if decide (v_lifecycle v = f ∧ canTransitionTo f t = true)
    then Some (mkView t (v_team v)) else None
  | ServiceRetired _ =>
    if decide (v_lifecycle v ≠ LifecycleRetired)
    then Some (mkView LifecycleRetired (v_team v)) else None
  end.

Fixpoint steps_view (v : view) (es : list Event) : option view :=
  match es with
  | [] => Some v
  | e :: es' => v' ← step_view v e; steps_view v' es'
  end.

Definition replay (es : list Event) : option view :=
  match es with
  | ServiceRegistered _ _ _ _ :: es' => steps_view (mkView LifecycleExperimental None) es'
  | _ => None
  end.

Definition agrees (v : view) (s : Service) : Prop :=
  v_lifecycle v = svc_lifecycle s ∧
  (v_team v = None ∨ v_team v = Some (OwningTeam (svc_ownership s))).

Lemma steps_view_app v es1 es2 :
  steps_view v (es1 ++ es2) = steps_view v es1 ≫= λ v', steps_view v' es2.
Proof.
  revert v. induction es1 as [|e es1 IH]; intros v; simpl; [done|].
  destruct (step_view v e); simpl; auto.
Qed.

Lemma replay_app es1 es2 : es1 ≠ [] →
  replay (es1 ++ es2) = replay es1 ≫= λ v, steps_view v es2.
Proof.
  destruct es1 as [|e es1]; [done|]. intros _. simpl. destruct e; try done.
  apply steps_view_app.
Qed.

Lemma explains_step e s s' v :
  agrees v s → explains e s s' → ∃ v', step_view v e = Some v' ∧ agrees v' s'.
Proof.
  unfold agrees, explains. intros [Hl Ht].
  destruct e as [|b p n|b f t|b]; simpl; intros; destruct_and?; try done; subst.
  - rewrite decide_True by (rewrite Hl; destruct Ht as [->| ->]; simpl; done).
    eexists; split; [done|]. simpl. split; [congruence|by right].
  - rewrite decide_True by done. eexists; split; [done|]. simpl.
    split; [done|]. congruence.
  - rewrite decide_True by congruence. eexists; split; [done|]. simpl.
    split; [done|]. congruence.
Qed.

(** The log explains the aggregate: it replays to the aggregate's state, has one
    entry per version, and every entry carries the aggregate's identifier. *)
Definition explained (log : list Event) (s : Service) : Prop :=
  (∃ v, replay log = Some v ∧ agrees v s) ∧
  svc_version s = wrap64 (Z.of_nat (length log)) ∧
  Forall (λ e, AggregateID e = ServiceID_String (svc_id s)) log.

Lemma explained_nonempty log s : explained log s → log ≠ [].
Proof. intros ((v & Hv & _) & _) ->. done. Qed.

Lemma explained_register i t n d ti r o now :
  explained (svc_events (Register i t n d ti r o now)) (Register i t n d ti r o now).
Proof.
  split_and!; [|done|by constructor]. simpl. eexists; split; [done|].
  split; [done|by left].
Qed.

Lemma explained_op log op s now s' :
  explained log s → run_op op s now = Ok s' →
  explained (log ++ drop (length (svc_events s)) (svc_events s')) s'.
Proof.
  intros Hlog [->|(e & Hc & He)]%run_op_inv.
  { by rewrite drop_all, app_nil_r. }
  pose proof (explained_nonempty _ _ Hlog) as Hne.
  destruct Hlog as ((v & Hv & Ha) & Hver & Hid).
  rewrite (ch_events _ _ _ _ Hc), drop_app_length.
  destruct (explains_step _ _ _ _ Ha He) as (v' & Hv' & Ha').
  split_and!.
  - exists v'. rewrite replay_app, Hv by done. simpl. by rewrite Hv'.
  - rewrite (ch_version _ _ _ _ Hc), Hver, wrap64_succ, length_app. simpl. f_equal. lia.
  - rewrite (ch_id _ _ _ _ Hc). apply Forall_app; split; [done|].
    constructor; [apply Hc|done].
Qed.
End aggregate_facts.

(** ** Properties *)

Section properties.
Context `{UUIDLib}.

(** C38: every service aggregate the domain can build, by registration followed by
    any successful operations, has a DNS-1123 name of at most 63 bytes, a tier
    from 1 to 4, a known lifecycle, a non-empty trimmed owning team, and, when it
    is in production, an on-call reference. *)
Theorem reachable_service_wf s : reachable s → service_wf s.
Proof.
  induction 1 as [i t n d ti r o now rn rt rw rc Hn Ht Ho|s rw rc o now s' _ IH Ho Hop
                 |s raw l now s' _ IH Hl Hop|s now s' _ IH Hop|s _ [? ? ? ? ? ?]].
  - apply NewServiceName_Ok in Hn as [_ ?]. apply NewTier_Ok in Ht as [_ ?].
    apply NewOwnership_wf in Ho. by apply Register_wf.
  - apply (run_op_wf (OpChangeOwnership o) s now); [by eapply NewOwnership_wf|done..].
  - apply ParseLifecycle_Ok in Hl as [-> ?].
    by apply (run_op_wf (OpChangeLifecycle raw) s now).
  - by apply (run_op_wf OpRetire s now).
  - by constructor.
Qed.

(** C25: [ChangeLifecycle] is a no-op on the current lifecycle; otherwise it fails
    with ILLEGAL_LIFECYCLE_TRANSITION exactly off the seven permitted pairs, with
    ONCALL_REQUIRED exactly when it would enter production without an on-call
    reference, and else moves the service to the target, recording one
    lifecycle event and one version step and touching nothing else. *)
Theorem change_lifecycle_outcome s target now :
  match ChangeLifecycle s target now with
  | Ok s' =>
    (svc_lifecycle s = target ∧ s' = s) ∨
    ((svc_lifecycle s, target) ∈ transitions ∧ svc_lifecycle s' = target ∧
     (target = LifecycleProduction → hasOnCall (svc_ownership s) = true) ∧
     svc_ownership s' = svc_ownership s ∧
     changed s s' (ServiceLifecycleChanged (mkBase (ServiceID_String (svc_id s)) now)
                     (svc_lifecycle s) target) now)
  | Err e =>
    svc_lifecycle s ≠ target ∧
    (((svc_lifecycle s, target) ∉ transitions ∧ e = ErrIllegalTransition) ∨
     ((svc_lifecycle s, target) ∈ transitions ∧ target = LifecycleProduction ∧
      OnCallRef (svc_ownership s) = "" ∧ e = ErrOnCallRequired))
  end.
Proof.
  pose proof (canTransitionTo_spec (svc_lifecycle s) target) as Ht. unfold ChangeLifecycle.
  case_decide as El; [by left|].
  destruct (canTransitionTo (svc_lifecycle s) target); simpl.
  2:{ split; [done|left]. by split; [rewrite <- Ht|]. }
  apply proj1 in Ht. specialize (Ht eq_refl).
  case_bool_decide as Et; simpl; [unfold hasOnCall; case_bool_decide; simpl|].
  - by split; [|right].
  - right. split_and!; try done; by constructor.
  - right. split_and!; try done; by constructor.
Qed.

(** An operation that fails leaves the aggregate as it was. *)
Definition attempt (s : Service) (op : Op * Z) : Service :=
  match run_op op.1 s op.2 with Ok s' => s' | Err _ => s end.

(** A retired service is final: no sequence of operations, whatever their
    arguments and times, changes any part of it. *)
Theorem retired_is_final s ops :
  svc_lifecycle s = LifecycleRetired → foldl attempt s ops = s.
Proof.
  intros Hr. induction ops as [|[op now] ops IH]; simpl; [done|].
  enough (attempt s (op, now) = s) as -> by done. unfold attempt. simpl.
  destruct (run_op op s now) as [s'|] eqn:E; [|done].
  apply run_op_inv in E as [->|(e & _ & He)]; [done|].
  destruct e; simpl in He; destruct_and?; try done.
  simplify_eq. by rewrite Hr, retired_no_transition in *.
Qed.

(** C26: the events recorded since registration are a complete audit trail: they
    replay, each fitting the state left by the ones before it, to the current
    lifecycle and owning team; their number is the version; and each carries
    the service's identifier. *)
Theorem service_log_explained log s : log_of log s → explained log s.
Proof.
  induction 1 as [| |log s _ IH]; [apply explained_register|by eapply explained_op|].
  destruct IH as ((v & Hv & ? & ?) & ? & ?). split_and!; try done. by exists v.
Qed.
End properties.

(** A service name is accepted exactly when, after trimming white space, it is a
    DNS-1123 label of 1 to 63 bytes, and every other string is rejected with
    INVALID_SERVICE_NAME; an accepted name is stored trimmed and is accepted again
    unchanged, as the repository does when it reads rows back. *)
Theorem service_name_accepted raw :
  match NewServiceName raw with
  | Ok n => sn_v n = TrimSpace raw ∧ dns_label (sn_v n) ∧ 1 ≤ len (sn_v n) ≤ 63 ∧
            NewServiceName (sn_v n) = Ok n
  | Err e => e = ErrInvalidServiceName ∧ ¬ (dns_label (TrimSpace raw) ∧ len (TrimSpace raw) ≤ 63)
  end.
Proof.
  rewrite NewServiceName_eq. case_decide as Hn; [|done].
  split_and!; try apply Hn; [done|apply dns_label_len, Hn|]. by apply NewServiceName_stable.
Qed.

(** ** Witnesses *)

#[local] Existing Instance demo_uuid.
#[local] Definition demo_owner := mkOwnership "payments" "pd://payments".
#[local] Definition demo_service : Service :=
  Register (mkServiceID "1") (mkTenantID "t") (mkServiceName "payments-api") "" (mkTier 1) ""
    demo_owner 10.

Lemma reachable_service_wf_witness :
  ∃ s', ChangeLifecycle demo_service "production" 20 = Ok s' ∧ service_wf s'.
Proof.
  eexists. split; [reflexivity|]. apply reachable_service_wf.
  eapply (reach_lifecycle demo_service "production" _ 20); [|vm_compute; reflexivity|reflexivity].
  apply (reach_register _ _ _ _ _ _ _ _ " payments-api " 1 "payments" "pd://payments");
    vm_compute; reflexivity.
Defined.

Lemma retired_is_final_witness :
  ∃ s', Retire demo_service 20 = Ok s' ∧
    foldl attempt s' [(OpChangeLifecycle "production", 30%Z); (OpChangeOwnership demo_owner, 40%Z)] = s'.
Proof.
  eexists. split; [reflexivity|]. apply retired_is_final. reflexivity.
Defined.

Lemma service_log_explained_witness :
  ∃ s', ChangeLifecycle demo_service "production" 20 = Ok s' ∧
    explained (svc_events s') s'.
Proof.
  eexists. split; [reflexivity|]. apply service_log_explained.
  exact (log_op (svc_events demo_service) (OpChangeLifecycle "production") demo_service 20 _
           (log_register _ _ _ _ _ _ _ _) eq_refl).
Defined.
