(* ===== verification/Postgres.v ===== *)
(** * The database (migrations/, internal/platform/postgres)

    The tables of the migrations as records, and the monad in which the adapters
    run.  A computation sees the database and a counter of driver calls; what
    the outside world decides is a parameter, the class [Env]: which driver calls
    fail and with what error, how each commit ends, the fresh identifiers, the
    process clock, the server clock and the rounding of instants by the
    [timestamptz] type.  Every statement is one call of [stmt], so a theorem that
    holds for all [Env] holds for every placement of failures. *)
From stdpp Require Export pretty.
From S2P Require Import Prelude GoStrings Apperr Uuid.

(** A JSON value, as [encoding/json] writes it and a JSONB column stores it. *)
Inductive json : Type :=
| JNull
| JBool (b : bool)
| JNum (n : Z)
| JStr (s : string)
| JArr (l : list json)
| JObj (fields : list (string * json)).

(** ** The server's errors *)

Definition unique_violation : goerror := EPg "23505" "duplicate key value violates unique constraint".
Definition check_violation : goerror := EPg "23514" "new row violates check constraint".
Definition foreign_key_violation : goerror := EPg "23503" "insert violates foreign key constraint".
Definition invalid_text : goerror := EPg "22P02" "invalid input syntax for type uuid".

Section tables.
Context `{UUIDLib}.

(** [catalog_services] *)
Record ServiceRow := mkServiceRow {
  sr_id : uuid;
  sr_tenant_id : uuid;
  sr_name : string;
  sr_description : string;
  sr_tier : Z;
  sr_lifecycle : string;
  sr_repository_url : string;
  sr_owning_team : string;
  sr_on_call_ref : string;
  sr_version : Z;
  sr_created_at : Z;
  sr_updated_at : Z
}.

(** [catalog_ownership_history] *)
Record HistoryRow := mkHistoryRow {
  h_id : uuid;
  h_service_id : uuid;
  h_owning_team : string;
  h_on_call_ref : string;
  h_valid_from : Z;
  h_valid_to : option Z
}.

(** [outbox_events] *)
Record OutboxRow := mkOutboxRow {
  ob_id : uuid;
  ob_aggregate_id : uuid;
  ob_event_type : string;
  ob_payload : json;
  ob_occurred_at : Z;
  ob_published_at : option Z;
  ob_created_at : Z
}.

(** [idempotency_keys], keyed by [idem_key] *)
Record IdemRow := mkIdemRow {
  ik_id : uuid;
  ik_request_hash : string;
  ik_response_status : Z;
  ik_response_body : json
}.

(** [tenants] *)
Record TenantRow := mkTenantRow {
  tr_id : uuid;
  tr_name : string;
  tr_slug : string;
  tr_plan : string;
  tr_status : string;
  tr_max_services : Z;
  tr_version : Z;
  tr_created_at : Z;
  tr_updated_at : Z
}.

(** Keyed tables are maps from the primary key; the append-only tables are lists
    in insertion order. *)
Record Database := mkDatabase {
  catalog_services : gmap uuid ServiceRow;
  ownership_history : list HistoryRow;
  outbox_events : list OutboxRow;
  idempotency_keys : gmap string IdemRow;
  tenants : gmap uuid TenantRow
}.

Definition empty_db : Database := mkDatabase ∅ [] [] ∅ ∅.

Definition set_services (d : Database) x :=
  mkDatabase x (ownership_history d) (outbox_events d) (idempotency_keys d) (tenants d).
Definition set_history (d : Database) x :=
  mkDatabase (catalog_services d) x (outbox_events d) (idempotency_keys d) (tenants d).
Definition set_outbox (d : Database) x :=
  mkDatabase (catalog_services d) (ownership_history d) x (idempotency_keys d) (tenants d).
Definition set_idem (d : Database) x :=
  mkDatabase (catalog_services d) (ownership_history d) (outbox_events d) x (tenants d).
Definition set_tenants (d : Database) x :=
  mkDatabase (catalog_services d) (ownership_history d) (outbox_events d) (idempotency_keys d) x.

(** How a commit ends: applied, rolled back with an error, or applied although
    the acknowledgement was lost. *)
Inductive commit_outcome : Type :=
| Committed
| CommitFailed (e : goerror)
| CommitUnknown (e : goerror).

Class Env := {
  fault : nat → option goerror;
  commit : nat → commit_outcome;
  fresh_id : nat → uuid;
  clock : nat → Z;
  server_clock : nat → Z;
  timestamptz : Z → Z;
  timestamptz_idemp t : timestamptz (timestamptz t) = timestamptz t
}.

Record World := mkWorld {
  w_db : Database;
  w_tick : nat;     (** driver calls, identifiers and clock readings so far *)
  w_tx_now : Z      (** SQL [now()]: the start of the running transaction *)
}.

Definition set_db (w : World) (d : Database) : World := mkWorld d (w_tick w) (w_tx_now w).
Definition tick (w : World) : World := mkWorld (w_db w) (S (w_tick w)) (w_tx_now w).

Definition M (A : Type) : Type := World → result goerror A * World.

#[global] Instance M_ret : MRet M := λ A a w, (Ok a, w).
#[global] Instance M_bind : MBind M := λ A B k m w,
  match m w with
  | (Ok a, w') => k a w'
  | (Err e, w') => (Err e, w')
  end.

Definition lift {A} (r : result goerror A) : M A := λ w, (r, w).
Definition fail {A} (e : goerror) : M A := lift (Err e).

(** [if err != nil { return fmt.Errorf("p: %w", err) }] *)
Definition wrap_err {A} (p : string) (m : M A) : M A := λ w,
  match m w with
  | (Err e, w') => (Err (EWrap p e), w')
  | r => r
  end.

(** Look at the error of a call before deciding what to do. *)
Definition catch {A B} (m : M A) (k : result goerror A → M B) : M B := λ w,
  let '(r, w') := m w in k r w'.
(** Success, or an error that left the database alone, or a commit that was
    applied although its acknowledgement was lost. *)
Definition all_or_nothing {A} (P : A → Database → Database → Prop) (d : Database)
    (r : result goerror A) (d' : Database) : Prop :=
  match r with
  | Ok a => P a d d'
  | Err e => d' = d ∨ ((∃ e0, e = EWrap "commit tx" e0) ∧ ∃ a, P a d d')
  end.

Lemma all_or_nothing_inv {A} (I : Database → Prop) (P : A → Database → Database → Prop) d r d' :
  I d → (∀ a, P a d d' → I d') → all_or_nothing P d r d' → I d'.
Proof. intros Hd HP. destruct r as [a|e]; simpl; [by eauto|]. intros [->|(_ & ? & ?)]; eauto. Qed.
End tables.

Section driver.
Context `{Env}.

(** One statement: it fails with the driver's error, or runs on the database; a
    statement that violates a constraint changes nothing. *)
Definition stmt {A} (f : Database → Z → result goerror (A * Database)) : M A := λ w,
  match fault (w_tick w) with
  | Some e => (Err e, tick w)
  | None =>
    match f (w_db w) (w_tx_now w) with
    | Ok (a, d) => (Ok a, tick (set_db w d))
    | Err e => (Err e, tick w)
    end
  end.

(** A statement that only reads. *)
Definition query {A} (f : Database → result goerror A) : M A :=
  stmt (λ d _, match f d with Ok a => Ok (a, d) | Err e => Err e end).

(** [id.New()] and [clock.Now()]. *)
Definition id_New : M uuid := λ w, (Ok (fresh_id (w_tick w)), tick w).
Definition Now : M Z := λ w, (Ok (clock (w_tick w)), tick w).

(** [pool.Begin]: the transaction sees the committed database; SQL [now()] is
    frozen at the start. *)
Definition Begin : M unit := λ w,
  match fault (w_tick w) with
  | Some e => (Err e, tick w)
  | None => (Ok tt, mkWorld (w_db w) (S (w_tick w)) (server_clock (w_tick w)))
  end.

(** [tx.Commit] of a transaction that started on [before]. *)
Definition Commit (before : Database) : M unit := λ w,
  match commit (w_tick w) with
  | Committed => (Ok tt, tick w)
  | CommitFailed e => (Err e, tick (set_db w before))
  | CommitUnknown e => (Err e, tick w)
  end.

(** [Pool.Health]: a ping. *)
Definition Health : M unit := query (λ _, Ok tt).

(** [Store.Execute] of both modules: begin, run the unit of work, roll back on its
    error, commit otherwise.  The unit of work hands its captured result on. *)
Definition Execute {A} (fn : M A) : M A := λ w,
  match wrap_err "begin tx" Begin w with
  | (Err e, w1) => (Err e, w1)
  | (Ok _, w1) =>
    match fn w1 with
    | (Err e, w2) => (Err e, set_db w2 (w_db w))
    | (Ok a, w2) =>
      match wrap_err "commit tx" (Commit (w_db w)) w2 with
      | (Err e, w3) => (Err e, w3)
      | (Ok _, w3) => (Ok a, w3)
      end
    end
  end.
End driver.

(** ** Reasoning about computations

    [wp m Q w]: running [m] in [w] ends with a result and a world that satisfy
    [Q].  Computations are total, so this is total correctness. *)

Section wp.
Context `{UUIDLib}.

Definition wp {A} (m : M A) (w : World) (Q : result goerror A → World → Prop) : Prop :=
  let '(r, w') := m w in Q r w'.

Lemma wp_mono {A} (m : M A) w (P Q : result goerror A → World → Prop) :
  wp m w P → (∀ r w', P r w' → Q r w') → wp m w Q.
Proof. unfold wp. destruct (m w). auto. Qed.

Lemma wp_run {A} (m : M A) w r w' Q : wp m w Q → m w = (r, w') → Q r w'.
Proof. unfold wp. intros Hq E. by rewrite E in Hq. Qed.

Lemma wp_self {A} (m : M A) w : wp m w (λ r w', m w = (r, w')).
Proof. unfold wp. by destruct (m w). Qed.

Lemma wp_ret {A} (a : A) w Q : Q (Ok a) w → wp (mret a) w Q.
Proof. done. Qed.

Lemma wp_lift {A} (r : result goerror A) w Q : Q r w → wp (lift r) w Q.
Proof. done. Qed.

Lemma wp_bind {A B} (m : M A) (k : A → M B) w Q :
  wp m w (λ r w', match r with Ok a => wp (k a) w' Q | Err e => Q (Err e) w' end) →
  wp (m ≫= k) w Q.
Proof. unfold wp, mbind, M_bind. destruct (m w) as [[a|e] w']; auto. Qed.

(** A computation in sequence that succeeded, taken apart. *)
Lemma M_bind_Ok {A B} (m : M A) (k : A → M B) w b w' :
  (m ≫= k) w = (Ok b, w') → ∃ a w1, m w = (Ok a, w1) ∧ k a w1 = (Ok b, w').
Proof. unfold mbind, M_bind. destruct (m w) as [[a|e] w1]; [eauto|done]. Qed.

Lemma wp_wrap {A} p (m : M A) w Q :
  wp m w (λ r w', match r with Ok a => Q (Ok a) w' | Err e => Q (Err (EWrap p e)) w' end) →
  wp (wrap_err p m) w Q.
Proof. unfold wp, wrap_err. destruct (m w) as [[a|e] w']; auto. Qed.

Lemma wp_catch {A B} (m : M A) (k : result goerror A → M B) w Q :
  wp m w (λ r w', wp (k r) w' Q) → wp (catch m k) w Q.
Proof. unfold wp, catch. by destruct (m w). Qed.
End wp.

Section wp_driver.
Context `{Env}.

Lemma wp_stmt {A} (f : Database → Z → result goerror (A * Database)) w Q :
  (∀ e, fault (w_tick w) = Some e → Q (Err e) (tick w)) →
  match f (w_db w) (w_tx_now w) with
  | Ok (a, d) => Q (Ok a) (tick (set_db w d))
  | Err e => Q (Err e) (tick w)
  end → wp (stmt f) w Q.
Proof.
  unfold wp, stmt. intros Hf Hr. destruct (fault (w_tick w)); [by apply Hf|].
  by destruct (f (w_db w) (w_tx_now w)) as [[??]|?].
Qed.

Lemma wp_query {A} (f : Database → result goerror A) w Q :
  (∀ e, fault (w_tick w) = Some e → Q (Err e) (tick w)) →
  Q (f (w_db w)) (tick w) → wp (query f) w Q.
Proof.
  intros Hf Hr. apply wp_stmt; [done|]. destruct (f (w_db w)); [by destruct w|done].
Qed.

Lemma wp_id_New w Q : (∀ u, Q (Ok u) (tick w)) → wp id_New w Q.
Proof. intros HQ. apply HQ. Qed.

Lemma wp_Now w Q : (∀ t, Q (Ok t) (tick w)) → wp Now w Q.
Proof. intros HQ. apply HQ. Qed.

(** Atomicity of [Execute]: what the unit of work establishes on success holds of
    the committed database; any error leaves the database as it was, except that
    a commit whose acknowledgement is lost may have been applied. *)
Lemma wp_Execute {A} (fn : M A) w (P : A → Database → Prop) (E : goerror → Prop) :
  (∀ w1, w_db w1 = w_db w →
    wp fn w1 (λ r w2, match r with Ok a => P a (w_db w2) | Err e => E e end)) →
  wp (Execute fn) w (λ r w',
    match r with
    | Ok a => P a (w_db w')
    | Err e =>
      (w_db w' = w_db w ∧ (E e ∨ (∃ e0, e = EWrap "begin tx" e0) ∨ ∃ e0, e = EWrap "commit tx" e0)) ∨
      ((∃ e0, e = EWrap "commit tx" e0) ∧ ∃ a, P a (w_db w'))
    end).
Proof.
  intros Hfn. unfold wp, Execute, wrap_err, Begin.
  destruct (fault (w_tick w)) as [e|]; [left; eauto 6|].
  specialize (Hfn (mkWorld (w_db w) (S (w_tick w)) (server_clock (w_tick w))) eq_refl).
  unfold wp in Hfn. destruct (fn _) as [[a|e] w2]; [|left; eauto].
  unfold Commit. destruct (commit (w_tick w2)) as [|e|e]; simpl; eauto 8.
Qed.

Lemma wp_Execute_atomic {A} (fn : M A) w (P : A → Database → Database → Prop) :
  (∀ w1, w_db w1 = w_db w →
    wp fn w1 (λ r w2, match r with Ok a => P a (w_db w) (w_db w2) | Err _ => True end)) →
  wp (Execute fn) w (λ r w', all_or_nothing P (w_db w) r (w_db w')).
Proof.
  intros Hfn. eapply wp_mono; [apply (wp_Execute _ w (λ a d', P a (w_db w) d') (λ _, True)); exact Hfn|].
  intros [a|e] w'; [done|]. simpl. naive_solver.
Qed.
End wp_driver.

(** ** Relations kept by computations

    [keeps R m]: the database before and after [m] are related by [R], however
    its calls fail.  For a preorder [R] this composes statement by statement; a
    rolled-back transaction stays where it started. *)

Create HintDb keeps discriminated.

Section keeps.
Context `{Env} (R : relation Database) `{!PreOrder R}.

Definition keeps {A} (m : M A) : Prop := ∀ w, R (w_db w) (w_db (m w).2).

Lemma keeps_ret {A} (a : A) : keeps (mret a).
Proof using Type*. intros w. reflexivity. Qed.
Lemma keeps_lift {A} (r : result goerror A) : keeps (lift r).
Proof using Type*. intros w. reflexivity. Qed.
Lemma keeps_id_New : keeps id_New.
Proof using Type*. intros w. reflexivity. Qed.
Lemma keeps_Now : keeps Now.
Proof using Type*. intros w. reflexivity. Qed.

Lemma keeps_bind {A B} (m : M A) (k : A → M B) : keeps m → (∀ a, keeps (k a)) → keeps (m ≫= k).
Proof using Type*.
  intros Hm Hk w. specialize (Hm w). unfold mbind, M_bind. destruct (m w) as [[a|e] w']; [|done].
  etrans; [exact Hm|apply Hk].
Qed.
Lemma keeps_wrap {A} p (m : M A) : keeps m → keeps (wrap_err p m).
Proof using Type*. intros Hm w. specialize (Hm w). unfold wrap_err. by destruct (m w) as [[a|e] w']. Qed.
Lemma keeps_catch {A B} (m : M A) (k : result goerror A → M B) : keeps m → (∀ r, keeps (k r)) → keeps (catch m k).
Proof using Type*.
  intros Hm Hk w. specialize (Hm w). unfold catch. destruct (m w) as [r w']. etrans; [exact Hm|apply Hk].
Qed.
Lemma keeps_stmt {A} (f : Database → Z → result goerror (A * Database)) :
  (∀ d t a d', f d t = Ok (a, d') → R d d') → keeps (stmt f).
Proof using Type*.
  intros Hf w. unfold stmt. destruct (fault (w_tick w)); [reflexivity|].
  destruct (f (w_db w) (w_tx_now w)) as [[a d]|e] eqn:E; [by eapply Hf|reflexivity].
Qed.
Lemma keeps_query {A} (f : Database → result goerror A) : keeps (query f).
Proof using Type*. apply keeps_stmt. intros d t a d'. destruct (f d); [|done]. by intros [= _ <-]. Qed.
Lemma keeps_Execute {A} (fn : M A) : keeps fn → keeps (Execute fn).
Proof using Type*.
  intros Hfn w. unfold Execute, wrap_err, Begin. destruct (fault (w_tick w)); [reflexivity|].
  specialize (Hfn (mkWorld (w_db w) (S (w_tick w)) (server_clock (w_tick w)))).
  destruct (fn _) as [[a|e] w2]; [|reflexivity]. simpl in Hfn.
  unfold Commit. destruct (commit (w_tick w2)); simpl; [done|reflexivity|done].
Qed.
End keeps.


(** Walk through a computation; what is left are the statements that write. *)
Ltac keeps_step :=
  match goal with
  | |- keeps _ (mbind _ _) => apply keeps_bind; [apply _| |intros ?]
  | |- keeps _ (wrap_err _ _) => apply keeps_wrap; [apply _|]
  | |- keeps _ (catch _ _) => apply keeps_catch; [apply _| |intros ?]
  | |- keeps _ (Execute _) => apply keeps_Execute; [apply _|]
  | |- keeps _ (fail _) => apply keeps_lift; apply _
  | |- keeps _ (lift _) => apply keeps_lift; apply _
  | |- keeps _ (mret _) => apply keeps_ret; apply _
  | |- keeps _ (query _) => apply keeps_query; apply _
  | |- keeps _ id_New => apply keeps_id_New; apply _
  | |- keeps _ Now => apply keeps_Now; apply _
  | |- keeps _ _ => solve [eauto with keeps typeclass_instances]
  | |- keeps _ (stmt _) => apply keeps_stmt; [apply _|intros ? ? ? ?]
  | |- keeps _ (match ?x with _ => _ end) => destruct x
  end; cbv beta.
Ltac keeps_steps := repeat keeps_step.

(** [I] is preserved. *)
Definition preserving `{UUIDLib} (I : Database → Prop) : relation Database := λ d d', I d → I d'.
#[export] Instance preserving_preorder `{UUIDLib} I : PreOrder (preserving I).
Proof. split; [by intros d ?|]. intros d1 d2 d3 H12 H23 H1. auto. Qed.

(** ** A concrete environment

    Identifiers are decimal numerals, the clocks count driver calls and instants
    are stored exactly; the failures and the commit outcomes are arguments. *)

Definition demo_env (f : nat → option goerror) (c : nat → @commit_outcome) : @Env demo_uuid :=
  @Build_Env demo_uuid f c (λ n, pretty n) (λ n, Z.of_nat n) (λ n, Z.of_nat n) (λ t, t) (λ t, eq_refl).

(** The environment in which nothing fails. *)
Definition calm_env : @Env demo_uuid := demo_env (λ _, None) (λ _, Committed).

(** Step through the primitives of a computation. *)
Ltac wp_step :=
  match goal with
  | |- wp (mbind _ _) _ _ => apply wp_bind
  | |- wp (wrap_err _ _) _ _ => apply wp_wrap
  | |- wp (catch _ _) _ _ => apply wp_catch
  | |- wp (mret _) _ _ => apply wp_ret
  | |- wp (lift _) _ _ => apply wp_lift
  | |- wp (fail _) _ _ => apply wp_lift
  | |- wp id_New _ _ => apply wp_id_New; intros ?
  | |- wp Now _ _ => apply wp_Now; intros ?
  end; cbv beta iota.
Ltac wp_steps := repeat wp_step.
