(* ===== verification/CatalogRepo.v ===== *)
(** * Catalog persistence (internal/modules/catalog/adapters/postgres)

    The repository and the outbox of the catalog over the tables of [Postgres]:
    [Insert], [Update] with its version guard, the time-versioned ownership
    history, the lookups with [scanService], and [Append].  The invariant
    [catalog_inv] of the stored tables is stated here, with the lemmas that the
    successful statements preserve it.  The listing with its cursors is in
    [CatalogList]. *)
From S2P Require Import Prelude GoStrings Regexp Apperr Uuid CatalogDomain Postgres.

(** ** Rows and aggregates *)

Section rows.
Context `{UUIDLib}.

(** The values bound to the INSERT and UPDATE of a service. *)
Definition service_row (round : Z → Z) (s : Service) : ServiceRow :=
  mkServiceRow (sid_v (svc_id s)) (tid_v (svc_tenantID s)) (sn_v (svc_name s)) (svc_description s)
    (tier_v (svc_tier s)) (svc_lifecycle s) (svc_repository s)
    (OwningTeam (svc_ownership s)) (OnCallRef (svc_ownership s))
    (svc_version s) (round (svc_createdAt s)) (round (svc_updatedAt s)).

Definition corrupt (e : goerror) : goerror :=
  WithCause (Internal "DATA_CORRUPTION" "stored service data is invalid") e.

Definition or_corrupt {A} (r : result goerror A) : result goerror A :=
  match r with Ok a => Ok a | Err e => Err (corrupt e) end.

(** [scanService] after [row.Scan] succeeded: identifiers arrive as text. *)
Definition scan_row (r : ServiceRow) : result goerror Service :=
  dsid ← or_corrupt (ServiceIDFromString (uuid_String (sr_id r)));
  dtid ← or_corrupt (TenantIDFromString (uuid_String (sr_tenant_id r)));
  dname ← or_corrupt (NewServiceName (sr_name r));
  dtier ← or_corrupt (NewTier (sr_tier r));
  dlifecycle ← or_corrupt (ParseLifecycle (sr_lifecycle r));
  downership ← or_corrupt (NewOwnership (sr_owning_team r) (sr_on_call_ref r));
  Ok (Reconstitute dsid dtid dname (sr_description r) dtier dlifecycle (sr_repository_url r)
        downership (sr_version r) (sr_created_at r) (sr_updated_at r)).

(** The error branch of [scanService]. *)
Definition scan_error (e : goerror) : goerror :=
  if Is e ENoRows then ErrServiceNotFound else EWrap "scan service" e.

Definition scanService (r : result goerror ServiceRow) : result goerror Service :=
  match r with
  | Err e => Err (scan_error e)
  | Ok row => scan_row row
  end.

(** ** Statements *)

Definition service_check (r : ServiceRow) : bool :=
  bool_decide (1 ≤ sr_tier r ≤ 4)%Z &&
  bool_decide (sr_lifecycle r ∈ ["experimental"; "production"; "deprecated"; "retired"]).

Definition same_name (t : uuid) (n : string) (r : ServiceRow) : Prop :=
  sr_tenant_id r = t ∧ sr_name r = n.
#[global] Instance same_name_dec t n r : Decision (same_name t n r).
Proof. unfold same_name. apply _. Defined.

(** INSERT INTO catalog_services: CHECK constraints, primary key, then the
    UNIQUE (tenant_id, name) constraint. *)
Definition insert_service (r : ServiceRow) (d : Database) : result goerror (unit * Database) :=
  if negb (service_check r) then Err check_violation
  else if decide (is_Some (catalog_services d !! sr_id r)) then Err unique_violation
  else if decide (map_Exists (λ _ r', same_name (sr_tenant_id r) (sr_name r) r') (catalog_services d))
  then Err unique_violation
  else Ok (tt, set_services d (<[sr_id r := r]> (catalog_services d))).

(** INSERT INTO catalog_ownership_history. *)
Definition insert_history (h : HistoryRow) (d : Database) : result goerror (unit * Database) :=
  if decide (Exists (λ h', h_id h' = h_id h) (ownership_history d)) then Err unique_violation
  else if decide (catalog_services d !! h_service_id h = None) then Err foreign_key_violation
  else Ok (tt, set_history d (ownership_history d ++ [h])).

(** SET of the UPDATE: identity, tenant, name and creation time stay. *)
Definition update_columns (old new : ServiceRow) : ServiceRow :=
  mkServiceRow (sr_id old) (sr_tenant_id old) (sr_name old) (sr_description new) (sr_tier new)
    (sr_lifecycle new) (sr_repository_url new) (sr_owning_team new) (sr_on_call_ref new)
    (sr_version new) (sr_created_at old) (sr_updated_at new).

(** UPDATE catalog_services ... WHERE id AND version; returns RowsAffected. *)
Definition update_service (new : ServiceRow) (expectedVersion : Z) (d : Database)
    : result goerror (nat * Database) :=
  match catalog_services d !! sr_id new with
  | None => Ok (0, d)
  | Some old =>
    if decide (sr_version old = expectedVersion) then
      if negb (service_check (update_columns old new)) then Err check_violation
      else Ok (1, set_services d (<[sr_id new := update_columns old new]> (catalog_services d)))
    else Ok (0, d)
  end.

Definition open_for (u : uuid) (h : HistoryRow) : Prop := h_service_id h = u ∧ h_valid_to h = None.
#[global] Instance open_for_dec u h : Decision (open_for u h).
Proof. unfold open_for. apply _. Defined.

Definition owned_by (team onCall : string) (h : HistoryRow) : Prop :=
  h_owning_team h = team ∧ h_on_call_ref h = onCall.
#[global] Instance owned_by_dec t c h : Decision (owned_by t c h).
Proof. unfold owned_by. apply _. Defined.

Definition close_row (at_ : Z) (h : HistoryRow) : HistoryRow :=
  mkHistoryRow (h_id h) (h_service_id h) (h_owning_team h) (h_on_call_ref h) (h_valid_from h) (Some at_).

Definition close_old (u : uuid) (at_ : Z) (team onCall : string) (h : HistoryRow) : HistoryRow :=
  if decide (open_for u h ∧ ¬ owned_by team onCall h) then close_row at_ h else h.

(** UPDATE ... SET valid_to WHERE the open interval IS DISTINCT FROM the owner. *)
Definition close_intervals (u : uuid) (at_ : Z) (team onCall : string) (d : Database)
    : result goerror (unit * Database) :=
  Ok (tt, set_history d (map (close_old u at_ team onCall) (ownership_history d))).

(** INSERT ... SELECT ... WHERE NOT EXISTS an open interval of the same owner. *)
Definition open_interval (h : HistoryRow) (d : Database) : result goerror (unit * Database) :=
  if decide (Exists (λ h', open_for (h_service_id h) h' ∧
                           owned_by (h_owning_team h) (h_on_call_ref h) h') (ownership_history d))
  then Ok (tt, d)
  else insert_history h d.

(** ** The envelope of the outbox *)

(** JSON of the exported fields of an event; the embedded [base] has none. *)
Definition event_data (e : Event) : json :=
  match e with
  | ServiceRegistered _ t n ti =>
    JObj [("tenantId", JStr t); ("name", JStr n); ("tier", JNum ti)]
  | ServiceOwnershipChanged _ p n => JObj [("previousTeam", JStr p); ("newTeam", JStr n)]
  | ServiceLifecycleChanged _ f t => JObj [("from", JStr f); ("to", JStr t)]
  | ServiceRetired _ => JObj []
  end.

Definition envelope (e : Event) : json :=
  JObj [("eventType", JStr (EventType e)); ("aggregateId", JStr (AggregateID e));
        ("data", event_data e)].

(** INSERT INTO outbox_events; [now_] is the DEFAULT of created_at. *)
Definition insert_outbox (i : uuid) (e : Event) (occurred : Z) (d : Database) (now_ : Z)
    : result goerror (unit * Database) :=
  match uuid_Parse (AggregateID e) with
  | None => Err invalid_text
  | Some agg =>
    if decide (Exists (λ r, ob_id r = i) (outbox_events d)) then Err unique_violation
    else Ok (tt, set_outbox d (outbox_events d ++
              [mkOutboxRow i agg (EventType e) (envelope e) occurred None now_]))
  end.
End rows.

(** ** The adapter *)

Section adapter.
Context `{Env}.

Definition FindByID (sid : ServiceID) : M Service :=
  catch (query (λ d, or_err (catalog_services d !! sid_v sid) ENoRows))
    (λ r, lift (scanService r)).

Definition FindByTenantAndName (t : TenantID) (n : ServiceName) : M Service :=
  catch (query (λ d, or_err (head (filter (same_name (tid_v t) (sn_v n))
                                     (map_to_list (catalog_services d)).*2)) ENoRows))
    (λ r, lift (scanService r)).

Definition Insert (s : Service) : M unit :=
  catch (stmt (λ d _, insert_service (service_row timestamptz s) d))
    (λ r, match r with
          | Err e => if isUniqueViolation e then fail ErrNameConflict
                     else fail (EWrap "insert service" e)
          | Ok _ =>
            hid ← id_New;
            wrap_err "insert ownership history" (stmt (λ d _,
              insert_history (mkHistoryRow hid (sid_v (svc_id s)) (OwningTeam (svc_ownership s))
                (OnCallRef (svc_ownership s)) (timestamptz (svc_createdAt s)) None) d))
          end).

Definition recordOwnership (s : Service) : M unit :=
  _ ← wrap_err "close ownership interval" (stmt (λ d _,
        close_intervals (sid_v (svc_id s)) (timestamptz (svc_updatedAt s))
          (OwningTeam (svc_ownership s)) (OnCallRef (svc_ownership s)) d));
  hid ← id_New;
  wrap_err "open ownership interval" (stmt (λ d _,
    open_interval (mkHistoryRow hid (sid_v (svc_id s)) (OwningTeam (svc_ownership s))
      (OnCallRef (svc_ownership s)) (timestamptz (svc_updatedAt s)) None) d)).

(** Zero rows affected: tell a missing row from a version conflict. *)
Definition no_row_updated (s : Service) : M unit :=
  catch (FindByID (svc_id s)) (λ r,
    match r with
    | Err e => if Is e ErrServiceNotFound then fail ErrServiceNotFound else fail ErrVersionConflict
    | Ok _ => fail ErrVersionConflict
    end).

Definition Update (s : Service) (expectedVersion : Z) : M unit :=
  n ← wrap_err "update service"
        (stmt (λ d _, update_service (service_row timestamptz s) expectedVersion d));
  if decide (n = 0) then no_row_updated s else recordOwnership s.

Fixpoint Append (es : list Event) : M unit :=
  match es with
  | [] => mret tt
  | e :: es' =>
    i ← id_New;
    _ ← wrap_err "append outbox event"
          (stmt (insert_outbox i e (timestamptz (OccurredAt e))));
    Append es'
  end.
End adapter.

(** ** What the stored tables satisfy *)

Section invariant.
Context `{UUIDLib}.

(** The aggregate a row stands for. *)
Definition row_service (r : ServiceRow) : Service :=
  mkService (mkServiceID (sr_id r)) (mkTenantID (sr_tenant_id r)) (mkServiceName (sr_name r))
    (sr_description r) (mkTier (sr_tier r)) (sr_lifecycle r) (sr_repository_url r)
    (mkOwnership (sr_owning_team r) (sr_on_call_ref r)) (sr_version r)
    (sr_created_at r) (sr_updated_at r) [].

Definition catalog_types : list string :=
  ["catalog.service.registered"; "catalog.service.ownership_changed";
   "catalog.service.lifecycle_changed"; "catalog.service.retired"].

(** The catalog's outbox rows of one aggregate, in insertion order. *)
Definition about (u : uuid) (r : OutboxRow) : Prop :=
  ob_aggregate_id r = u ∧ ob_event_type r ∈ catalog_types.
#[global] Instance about_dec u r : Decision (about u r).
Proof. unfold about. apply _. Defined.
Definition outbox_of (u : uuid) (d : Database) : list OutboxRow := filter (about u) (outbox_events d).

Definition records (u : uuid) (r : OutboxRow) (e : Event) : Prop :=
  ob_aggregate_id r = u ∧ ob_event_type r = EventType e ∧ ob_payload r = envelope e ∧
  AggregateID e = uuid_String u.

Record catalog_inv (d : Database) : Prop := {
  inv_rows u r : catalog_services d !! u = Some r → sr_id r = u ∧ service_wf (row_service r);
  inv_unique u1 u2 r1 r2 :
    catalog_services d !! u1 = Some r1 → catalog_services d !! u2 = Some r2 →
    sr_tenant_id r1 = sr_tenant_id r2 → sr_name r1 = sr_name r2 → u1 = u2;
  inv_history u r : catalog_services d !! u = Some r →
    ∃ h, filter (open_for u) (ownership_history d) = [h] ∧
         owned_by (sr_owning_team r) (sr_on_call_ref r) h;
  inv_history_fk u : catalog_services d !! u = None →
    Forall (λ h, h_service_id h ≠ u) (ownership_history d);
  inv_log u r : catalog_services d !! u = Some r →
    ∃ es, explained es (row_service r) ∧ Forall2 (records u) (outbox_of u d) es;
  inv_log_none u : catalog_services d !! u = None → outbox_of u d = []
}.

Lemma catalog_inv_empty : catalog_inv empty_db.
Proof. by constructor. Qed.

(** Reading a well-formed row back never reports corruption. *)
Lemma scan_row_wf r : service_wf (row_service r) → scan_row r = Ok (row_service r).
Proof.
  intros [Hn Ht Hl Ho _ _]. unfold scan_row, ServiceIDFromString, TenantIDFromString.
  rewrite !uuid_Parse_String. simpl in *.
  pose proof (NewServiceName_stable (mkServiceName (sr_name r)) Hn) as En. simpl in En.
  pose proof (NewOwnership_stable (mkOwnership (sr_owning_team r) (sr_on_call_ref r)) Ho) as Eo.
  simpl in Eo. rewrite En. simpl.
  rewrite (proj2 (NewTier_Ok (sr_tier r) (mkTier (sr_tier r)))) by done. simpl.
  rewrite (proj2 (ParseLifecycle_Ok _ _)) by (split; [reflexivity|done]). simpl.
  by rewrite Eo.
Qed.

Lemma service_check_wf r : service_wf (row_service r) → service_check r = true.
Proof.
  intros [_ Ht Hl _ _ _]. unfold service_check. apply andb_true_iff.
  split; apply bool_decide_eq_true; [exact Ht|exact Hl].
Qed.

Lemma explained_ext log s s' :
  svc_id s' = svc_id s → svc_version s' = svc_version s →
  svc_lifecycle s' = svc_lifecycle s → svc_ownership s' = svc_ownership s →
  explained log s → explained log s'.
Proof.
  intros Hi Hv Hl Ho ((v & Hr & Ha) & ? & ?). unfold explained, agrees in *.
  rewrite Hi, Hv, Hl, Ho. eauto 6.
Qed.

Lemma service_wf_ext s s' :
  svc_name s' = svc_name s → svc_tier s' = svc_tier s → svc_lifecycle s' = svc_lifecycle s →
  svc_ownership s' = svc_ownership s → svc_version s' = svc_version s →
  service_wf s → service_wf s'.
Proof.
  intros Hn Ht Hl Ho Hv []. constructor; unfold oncall_ok in *; by rewrite ?Hn, ?Ht, ?Hl, ?Ho, ?Hv.
Qed.

Lemma row_service_row round s :
  service_wf s → service_wf (row_service (service_row round s)).
Proof.
  apply service_wf_ext; simpl; [by destruct (svc_name s)|by destruct (svc_tier s)|done| |done].
  by destruct (svc_ownership s).
Qed.

Lemma explained_row round log s :
  explained log s → explained log (row_service (service_row round s)).
Proof.
  apply explained_ext; simpl; [by destruct (svc_id s)|done|done|by destruct (svc_ownership s)].
Qed.

(** *** The interval tables *)

Lemma close_old_open u at_ t c l :
  filter (open_for u) (map (close_old u at_ t c) l) =
  filter (owned_by t c) (filter (open_for u) l).
Proof.
  induction l as [|h l IH]; [done|]. cbn [map]. rewrite !filter_cons, IH.
  unfold close_old. destruct (decide (open_for u h ∧ ¬ owned_by t c h)) as [[Ho Hn]|Hn].
  - rewrite (decide_False (P := open_for u (close_row at_ h)))
      by (unfold open_for; simpl; naive_solver).
    rewrite (decide_True (P := open_for u h)) by done. by rewrite filter_cons_False.
  - destruct (decide (open_for u h)); [|done].
    rewrite filter_cons_True; [done|]. destruct (decide (owned_by t c h)); tauto.
Qed.

Lemma close_old_other u u' at_ t c l : u ≠ u' →
  filter (open_for u') (map (close_old u at_ t c) l) = filter (open_for u') l.
Proof.
  intros Hne. induction l as [|h l IH]; [done|]. cbn [map]. rewrite !filter_cons, IH.
  unfold close_old. destruct (decide (open_for u h ∧ ¬ owned_by t c h)) as [Hc|]; [|done].
  destruct Hc as [[<- ?] _].
  by rewrite !decide_False by (unfold open_for, close_row; simpl; naive_solver).
Qed.

Lemma close_old_fk u at_ t c u' l :
  Forall (λ h, h_service_id h ≠ u') l → Forall (λ h, h_service_id h ≠ u') (map (close_old u at_ t c) l).
Proof.
  intros Hl. apply Forall_map. eapply Forall_impl; [exact Hl|]. intros h Hh. simpl.
  unfold close_old. by case_decide.
Qed.

(** The history after [recordOwnership]. *)
Definition recorded (h : HistoryRow) (l : list HistoryRow) : list HistoryRow :=
  let l' := map (close_old (h_service_id h) (h_valid_from h) (h_owning_team h) (h_on_call_ref h)) l in
  if decide (Exists (λ h', open_for (h_service_id h) h' ∧
                           owned_by (h_owning_team h) (h_on_call_ref h) h') l')
  then l' else l' ++ [h].

Lemma recorded_open h h0 l :
  h_valid_to h = None →
  filter (open_for (h_service_id h)) l = [h0] →
  ∃ h1, filter (open_for (h_service_id h)) (recorded h l) = [h1] ∧
        owned_by (h_owning_team h) (h_on_call_ref h) h1.
Proof.
  intros Hh Hl. unfold recorded. set (l' := map _ l).
  assert (filter (open_for (h_service_id h)) l' =
          filter (owned_by (h_owning_team h) (h_on_call_ref h)) [h0]) as Hl'.
  { unfold l'. by rewrite close_old_open, Hl. }
  destruct (decide (Exists _ l')) as [Hex|Hex]; rewrite filter_cons, filter_nil in Hl'.
  - apply Exists_exists in Hex as (h1 & Hin & Ho & Hb).
    assert (h1 ∈ filter (open_for (h_service_id h)) l') as Hin'
      by (apply list_elem_of_filter; done).
    rewrite Hl' in *. destruct (decide (owned_by _ _ h0)); [eauto|by apply elem_of_nil in Hin'].
  - rewrite filter_app, filter_cons_True, filter_nil by done.
    exists h. split; [|done]. rewrite Hl'.
    destruct (decide (owned_by _ _ h0)) as [Hb|]; [|done]. destruct Hex.
    apply Exists_exists. exists h0.
    assert (h0 ∈ filter (open_for (h_service_id h)) l') as Hin.
    { rewrite Hl'. set_solver. }
    apply list_elem_of_filter in Hin as [??]. naive_solver.
Qed.

Lemma recorded_other h u l : h_service_id h ≠ u →
  filter (open_for u) (recorded h l) = filter (open_for u) l.
Proof.
  intros Hne. unfold recorded. case_decide; [by apply close_old_other|].
  rewrite filter_app, close_old_other by done.
  rewrite filter_cons_False by (unfold open_for; naive_solver).
  by rewrite filter_nil, app_nil_r.
Qed.

Lemma recorded_fk h u l : h_service_id h ≠ u →
  Forall (λ h, h_service_id h ≠ u) l → Forall (λ h, h_service_id h ≠ u) (recorded h l).
Proof.
  intros Hne Hl. unfold recorded. case_decide; [by apply close_old_fk|].
  apply Forall_app; split; [by apply close_old_fk|by constructor].
Qed.
End invariant.

(** ** What the operations of the adapter do *)

Section effects.
Context `{Env}.

Definition history_entry (hid : uuid) (s : Service) (from : Z) : HistoryRow :=
  mkHistoryRow hid (sid_v (svc_id s)) (OwningTeam (svc_ownership s)) (OnCallRef (svc_ownership s))
    (timestamptz from) None.

(** The database after a successful [Insert]. *)
Definition inserted (hid : uuid) (s : Service) (d : Database) : Database :=
  set_history (set_services d (<[sid_v (svc_id s) := service_row timestamptz s]> (catalog_services d)))
    (ownership_history d ++ [history_entry hid s (svc_createdAt s)]).

(** The database after a successful [Update] of the row [old]. *)
Definition updated (hid : uuid) (s : Service) (old : ServiceRow) (d : Database) : Database :=
  set_history
    (set_services d (<[sid_v (svc_id s) := update_columns old (service_row timestamptz s)]>
                       (catalog_services d)))
    (recorded (history_entry hid s (svc_updatedAt s)) (ownership_history d)).

(** The rows [Append] adds for the events [es]. *)
Definition appended (es : list Event) (rows : list OutboxRow) : Prop :=
  Forall2 (λ r e, uuid_Parse (AggregateID e) = Some (ob_aggregate_id r) ∧
                  ob_event_type r = EventType e ∧ ob_payload r = envelope e ∧
                  ob_published_at r = None) rows es.

Lemma wp_FindByID sid w :
  wp (FindByID sid) w (λ r w', w_db w' = w_db w ∧
    match r with
    | Ok s => ∃ row, catalog_services (w_db w) !! sid_v sid = Some row ∧ scan_row row = Ok s
    | Err e =>
      (∃ e0, fault (w_tick w) = Some e0 ∧ e = scan_error e0) ∨
      (catalog_services (w_db w) !! sid_v sid = None ∧ e = ErrServiceNotFound) ∨
      (∃ row, catalog_services (w_db w) !! sid_v sid = Some row ∧ scan_row row = Err e)
    end).
Proof.
  unfold FindByID. wp_steps. apply wp_query.
  - intros e Ef. wp_steps. split; [done|]. left. eauto.
  - wp_steps. split; [done|]. destruct (catalog_services (w_db w) !! sid_v sid) as [row|]; simpl.
    + destruct (scan_row row) eqn:Es; [eauto|]. right; right. eauto.
    + right; left. done.
Qed.

Lemma wp_FindByTenantAndName t n w :
  wp (FindByTenantAndName t n) w (λ r w', w_db w' = w_db w ∧
    match r with
    | Ok s => ∃ u row, catalog_services (w_db w) !! u = Some row ∧
                       same_name (tid_v t) (sn_v n) row ∧ scan_row row = Ok s
    | Err e => True
    end).
Proof.
  unfold FindByTenantAndName. wp_steps. apply wp_query.
  - intros e Ef. by wp_steps.
  - wp_steps. split; [done|]. destruct (head _) as [row|] eqn:Eh; simpl; [|done].
    destruct (scan_row row) eqn:Es; [|done].
    assert (row ∈ filter (same_name (tid_v t) (sn_v n)) (map_to_list (catalog_services (w_db w))).*2)
      as Hin by (destruct (filter _ _); simplify_eq/=; set_solver).
    apply list_elem_of_filter in Hin as [Hs Hin].
    apply list_elem_of_fmap in Hin as ([u row'] & -> & Hin).
    apply elem_of_map_to_list in Hin. eauto 6.
Qed.

Lemma wp_Insert s w :
  wp (Insert s) w (λ r w',
    match r with
    | Ok _ => ∃ hid, catalog_services (w_db w) !! sid_v (svc_id s) = None ∧
        ¬ map_Exists (λ _ r', same_name (tid_v (svc_tenantID s)) (sn_v (svc_name s)) r')
            (catalog_services (w_db w)) ∧
        w_db w' = inserted hid s (w_db w)
    | Err e => e = ErrNameConflict ∨ ∃ p e0, e = EWrap p e0
    end).
Proof.
  unfold Insert. wp_steps. apply wp_stmt.
  - intros e _. destruct (isUniqueViolation e); wp_steps; eauto.
  - unfold insert_service. destruct (negb _); [simpl; wp_steps; eauto|].
    destruct (decide (is_Some _)) as [|Hfresh]; [simpl; wp_steps; eauto|].
    case_decide as Huniq; [simpl; wp_steps; eauto|].
    wp_steps. apply wp_stmt; [intros; eauto|]. unfold insert_history.
    repeat (case_decide; [by eauto|]). simpl.
    eexists. split_and!; [by apply eq_None_not_Some|done|]. reflexivity.
Qed.

Lemma wp_recordOwnership s w :
  wp (recordOwnership s) w (λ r w',
    match r with
    | Ok _ => ∃ hid, w_db w' =
        set_history (w_db w) (recorded (history_entry hid s (svc_updatedAt s)) (ownership_history (w_db w)))
    | Err e => ∃ p e0, e = EWrap p e0
    end).
Proof.
  unfold recordOwnership. wp_steps. apply wp_stmt; [intros; wp_steps; eauto|].
  unfold close_intervals. wp_steps. apply wp_stmt; [intros; eauto|].
  unfold open_interval, recorded. simpl. case_decide as Hex.
  - by exists u.
  - unfold insert_history. repeat (case_decide; [by eauto|]). simpl.
    by exists u.
Qed.

Lemma wp_no_row_updated s w :
  wp (no_row_updated s) w (λ r _,
    match r with Ok _ => False | Err e => e = ErrServiceNotFound ∨ e = ErrVersionConflict end).
Proof.
  unfold no_row_updated. wp_steps. eapply wp_mono; [apply wp_self|]. intros [?|e] w' _.
  - wp_steps. eauto.
  - destruct (Is e ErrServiceNotFound); wp_steps; eauto.
Qed.

Lemma wp_Update s v w :
  wp (Update s v) w (λ r w',
    match r with
    | Ok _ => ∃ old hid, catalog_services (w_db w) !! sid_v (svc_id s) = Some old ∧
        sr_version old = v ∧ w_db w' = updated hid s old (w_db w)
    | Err e =>
      (e = ErrServiceNotFound ∨ e = ErrVersionConflict ∨ ∃ p e0, e = EWrap p e0) ∧
      (e = ErrServiceNotFound ∨ e = ErrVersionConflict → 
       ∀ old, catalog_services (w_db w) !! sid_v (svc_id s) = Some old → sr_version old ≠ v)
    end).
Proof.
  unfold Update. wp_steps. apply wp_stmt; [intros; split; [eauto|naive_solver]|].
  unfold update_service. simpl.
  destruct (catalog_services (w_db w) !! sid_v (svc_id s)) as [old|] eqn:Eo.
  2:{ eapply wp_mono; [apply wp_no_row_updated|]. intros [?|e] w'; [done|]. naive_solver. }
  destruct (decide (sr_version old = v)) as [Hv|Hv].
  2:{ eapply wp_mono; [apply wp_no_row_updated|]. intros [?|e] w'; [done|]. naive_solver. }
  destruct (negb _); [split; [eauto|naive_solver]|]. simpl.
  eapply wp_mono; [apply wp_recordOwnership|]. intros [?|e] w'.
  - intros (hid & Hd). exists old, hid. rewrite Hd. done.
  - intros (p & e0 & ->). split; [eauto|naive_solver].
Qed.

Lemma wp_Append es w :
  wp (Append es) w (λ r w',
    match r with
    | Ok _ => ∃ rows, appended es rows ∧ w_db w' = set_outbox (w_db w) (outbox_events (w_db w) ++ rows)
    | Err e => ∃ p e0, e = EWrap p e0
    end).
Proof.
  revert w. induction es as [|e es IH]; intros w; simpl; wp_steps.
  { exists []. split; [constructor|]. rewrite app_nil_r. by destruct w as [[]]. }
  apply wp_stmt; [intros; wp_steps; eauto|]. unfold insert_outbox.
  destruct (uuid_Parse (AggregateID e)) as [agg|] eqn:Ea; [|wp_steps; eauto].
  case_decide; [wp_steps; eauto|]. eapply wp_mono; [apply IH|]. intros [?|e'] w'; [|done].
  intros (rows & Hr & ->). 
  exists (mkOutboxRow u agg (EventType e) (envelope e) (timestamptz (OccurredAt e)) None (w_tx_now w) :: rows).
  split; [by constructor|]. unfold set_outbox. simpl. by rewrite <- app_assoc.
Qed.
End effects.

(** ** The invariant is preserved *)

Section preservation.
Context `{Env}.

Lemma EventType_catalog e : EventType e ∈ catalog_types.
Proof. unfold catalog_types. destruct e; simpl; set_solver. Qed.

Lemma appended_records u es rows :
  appended es rows → Forall (λ e, AggregateID e = uuid_String u) es →
  Forall2 (records u) rows es ∧ Forall (about u) rows.
Proof.
  intros Hr. induction Hr as [|r e rows es (Ha & Ht & Hp & _) _ IH]; [by split|].
  intros [He Hes]%Forall_cons. destruct (IH Hes). rewrite He, uuid_Parse_String in Ha.
  split; constructor; try done; [|].
  - split_and!; congruence.
  - split; [congruence|]. rewrite Ht. apply EventType_catalog.
Qed.

Lemma filter_about_other u u' rows : u ≠ u' → Forall (about u) rows → filter (about u') rows = [].
Proof.
  intros Hne Hr. apply filter_none. eapply Forall_impl; [exact Hr|].
  intros r [<- _] [? _]. done.
Qed.

(** One service row is added or replaced, together with its history and its
    outbox rows; everything about the other services stays. *)
Lemma catalog_inv_put d u new hist rows :
  catalog_inv d →
  sr_id new = u → service_wf (row_service new) →
  (∀ u' r, u' ≠ u → catalog_services d !! u' = Some r →
    sr_tenant_id r = sr_tenant_id new → sr_name r ≠ sr_name new) →
  (∃ h, filter (open_for u) hist = [h] ∧ owned_by (sr_owning_team new) (sr_on_call_ref new) h) →
  (∀ u', u' ≠ u → filter (open_for u') hist = filter (open_for u') (ownership_history d)) →
  (∀ u', u' ≠ u → catalog_services d !! u' = None → Forall (λ h, h_service_id h ≠ u') hist) →
  Forall (about u) rows →
  (∃ es, explained es (row_service new) ∧ Forall2 (records u) (outbox_of u d ++ rows) es) →
  catalog_inv (mkDatabase (<[u := new]> (catalog_services d)) hist (outbox_events d ++ rows)
                 (idempotency_keys d) (tenants d)).
Proof.
  intros [Irows Iuniq Ihist Ifk Ilog Inone] <- Hwf Hname Hhist Hother Hfk Habout Hlog.
  constructor; simpl.
  - intros u' r. rewrite lookup_insert. case_decide; naive_solver.
  - intros u1 u2 r1 r2. rewrite !lookup_insert. do 2 case_decide; subst; intros; simplify_eq; eauto.
    + exfalso. eapply (Hname u2); eauto.
    + exfalso. eapply (Hname u1); eauto.
  - intros u' r. rewrite lookup_insert. case_decide; intros; simplify_eq; [done|].
    rewrite Hother by done. eauto.
  - intros u'. rewrite lookup_insert. case_decide; [done|]. auto.
  - intros u' r. rewrite lookup_insert. unfold outbox_of. simpl. rewrite filter_app.
    case_decide; intros; simplify_eq.
    + by rewrite (filter_all (about (sr_id r)) rows).
    + rewrite (filter_about_other (sr_id new) u' rows), app_nil_r by done. by apply Ilog.
  - intros u'. rewrite lookup_insert. case_decide; [done|]. intros. unfold outbox_of. simpl.
    rewrite filter_app, (filter_about_other (sr_id new) u' rows), app_nil_r by done. by apply Inone.
Qed.

Lemma catalog_inv_insert d s hid rows :
  catalog_inv d → service_wf s → explained (svc_events s) s →
  catalog_services d !! sid_v (svc_id s) = None →
  ¬ map_Exists (λ _ r', same_name (tid_v (svc_tenantID s)) (sn_v (svc_name s)) r') (catalog_services d) →
  appended (svc_events s) rows →
  catalog_inv (set_outbox (inserted hid s d) (outbox_events (inserted hid s d) ++ rows)).
Proof.
  intros Hinv Hwf Hex Hfresh Hname Happ.
  destruct (appended_records (sid_v (svc_id s)) _ _ Happ) as [Hrec Habout]; [apply Hex|].
  pose proof (inv_history_fk _ Hinv _ Hfresh) as Hfk.
  assert (filter (open_for (sid_v (svc_id s))) (ownership_history d) = []) as Hno.
  { apply filter_none. eapply Forall_impl; [exact Hfk|]. unfold open_for. naive_solver. }
  apply (catalog_inv_put d (sid_v (svc_id s)) (service_row timestamptz s)
           (ownership_history d ++ [history_entry hid s (svc_createdAt s)]) rows); try done.
  - by apply row_service_row.
  - intros u' r _ Hr Ht En. apply Hname. exists u', r. done.
  - eexists. rewrite filter_app, Hno, filter_cons_True, filter_nil by done. done.
  - intros u' Hne. rewrite filter_app, filter_cons_False, filter_nil by (unfold open_for; naive_solver).
    by rewrite app_nil_r.
  - intros u' Hne Hu'. apply Forall_app; split; [by apply (inv_history_fk _ Hinv)|].
    repeat constructor. simpl. congruence.
  - exists (svc_events s). split; [by apply explained_row|].
    rewrite (inv_log_none _ Hinv) by done. done.
Qed.

Lemma catalog_inv_update d s old hid rows :
  catalog_inv d → catalog_services d !! sid_v (svc_id s) = Some old →
  service_wf s → svc_tenantID s = mkTenantID (sr_tenant_id old) → svc_name s = mkServiceName (sr_name old) →
  (∀ es, explained es (row_service old) → explained (es ++ svc_events s) s) →
  appended (svc_events s) rows →
  catalog_inv (set_outbox (updated hid s old d) (outbox_events (updated hid s old d) ++ rows)).
Proof.
  intros Hinv Hold Hwf Ht Hn Hlog Happ. set (u := sid_v (svc_id s)).
  destruct (inv_rows _ Hinv _ _ Hold) as [Hid Hwf0].
  destruct (inv_log _ Hinv _ _ Hold) as (es & Hes & Hrows).
  destruct (appended_records u _ _ Happ) as [Hrec Habout].
  { destruct (Hlog es Hes) as (_ & _ & [_ Hf]%Forall_app). done. }
  set (new := update_columns old (service_row timestamptz s)).
  apply (catalog_inv_put d u new
           (recorded (history_entry hid s (svc_updatedAt s)) (ownership_history d)) rows); try done.
  - apply (service_wf_ext s); simpl; try done; [by destruct (svc_tier s)|by destruct (svc_ownership s)].
  - intros u' r Hne Hr Ht' En. destruct Hne.
    by apply (inv_unique _ Hinv u' u r old).
  - destruct (inv_history _ Hinv _ _ Hold) as (h0 & Hh0 & _).
    by apply (recorded_open (history_entry hid s (svc_updatedAt s)) h0).
  - intros u' Hne. by apply recorded_other.
  - intros u' Hne Hu'. apply recorded_fk; [done|]. by apply (inv_history_fk _ Hinv).
  - exists (es ++ svc_events s). split.
    + eapply (explained_ext _ s); [..|by apply Hlog]; simpl; try done; [|by destruct (svc_ownership s)].
      unfold u in Hid. rewrite Hid. by destruct (svc_id s).
    + apply Forall2_app; done.
Qed.
End preservation.
