(* ===== verification/CatalogApp.v ===== *)
(** * Catalog use cases (internal/modules/catalog/app)

    The commands [RegisterService], [ChangeOwnership], [ChangeLifecycle] and
    [RetireService] with their common transaction [mutate], and the query
    [GetService], run over the adapters of [CatalogRepo].  Every theorem
    quantifies over the environment, hence over all failures of the driver and
    all outcomes of the commit. *)
From S2P Require Import Prelude GoStrings Regexp Apperr Uuid CatalogDomain Postgres CatalogRepo.

Record RegisterServiceInput := mkRegisterServiceInput {
  rs_TenantID : string;
  rs_Name : string;
  rs_Description : string;
  rs_Tier : Z;
  rs_Repository : string;
  rs_OwningTeam : string;
  rs_OnCallRef : string
}.

Record ChangeOwnershipInput := mkChangeOwnershipInput {
  co_ServiceID : string;
  co_OwningTeam : string;
  co_OnCallRef : string;
  co_ExpectedVersion : Z
}.

Record ChangeLifecycleInput := mkChangeLifecycleInput {
  cl_ServiceID : string;
  cl_Lifecycle : string;
  cl_ExpectedVersion : Z
}.

Record RetireServiceInput := mkRetireServiceInput {
  rt_ServiceID : string;
  rt_ExpectedVersion : Z
}.

Definition isNotFound (e : goerror) : bool := bool_decide (e = ErrServiceNotFound).

Definition expectedVersionOr (provided current : Z) : Z :=
  if (0 <? provided)%Z then provided else current.

Section commands.
Context `{Env}.

(** The parts of [RegisterService]: the aggregate, and the two halves of its
    unit of work, which look the name up and then insert. *)
Definition register_service (inp : RegisterServiceInput) : M Service :=
  tenantID ← lift (TenantIDFromString (rs_TenantID inp));
  name ← lift (NewServiceName (rs_Name inp));
  tier ← lift (NewTier (rs_Tier inp));
  ownership ← lift (NewOwnership (rs_OwningTeam inp) (rs_OnCallRef inp));
  fresh ← id_New;
  now ← Now;
  mret (Register (NewServiceID fresh) tenantID name (rs_Description inp) tier
          (rs_Repository inp) ownership now).

Definition register_check (svc : Service) : M unit :=
  catch (FindByTenantAndName (svc_tenantID svc) (svc_name svc)) (λ r,
    match r with
    | Ok _ => fail ErrNameConflict
    | Err e => if negb (isNotFound e) then fail e else mret tt
    end).

Definition register_insert (svc : Service) : M Service :=
  _ ← Insert svc;
  let '(es, svc') := PullEvents svc in
  _ ← Append es;
  mret svc'.

Definition RegisterService (inp : RegisterServiceInput) : M Service :=
  svc ← register_service inp;
  Execute (
    _ ← register_check svc;
    register_insert svc).

(** The two halves of the unit of work of [mutate]: load and apply, then store. *)
Definition mutate_load (sid : ServiceID) (apply_ : Service → M Service) : M (Z * Service) :=
  svc ← FindByID sid;
  svc' ← apply_ svc;
  mret (svc_version svc, svc').

Definition mutate_store (expectedVersion current : Z) (svc : Service) : M Service :=
  _ ← Update svc (expectedVersionOr expectedVersion current);
  let '(es, svc') := PullEvents svc in
  _ ← Append es;
  mret svc'.

Definition mutate (sid : ServiceID) (expectedVersion : Z) (apply_ : Service → M Service) : M Service :=
  Execute (
    cs ← mutate_load sid apply_;
    mutate_store expectedVersion cs.1 cs.2).

Definition ChangeOwnership (inp : ChangeOwnershipInput) : M Service :=
  sid ← lift (ServiceIDFromString (co_ServiceID inp));
  ownership ← lift (NewOwnership (co_OwningTeam inp) (co_OnCallRef inp));
  mutate sid (co_ExpectedVersion inp) (λ s,
    now ← Now; lift (CatalogDomain.ChangeOwnership s ownership now)).

Definition ChangeLifecycle (inp : ChangeLifecycleInput) : M Service :=
  sid ← lift (ServiceIDFromString (cl_ServiceID inp));
  lifecycle ← lift (ParseLifecycle (cl_Lifecycle inp));
  mutate sid (cl_ExpectedVersion inp) (λ s,
    now ← Now; lift (CatalogDomain.ChangeLifecycle s lifecycle now)).

Definition RetireService (inp : RetireServiceInput) : M Service :=
  sid ← lift (ServiceIDFromString (rt_ServiceID inp));
  mutate sid (rt_ExpectedVersion inp) (λ s, now ← Now; lift (Retire s now)).

Definition GetService (serviceID : string) : M Service :=
  sid ← lift (ServiceIDFromString serviceID);
  FindByID sid.

(** ** Auxiliary views *)

(** A command of the catalog, as the API layer issues it. *)
Inductive Command : Type :=
| CmdRegister (inp : RegisterServiceInput)
| CmdOwnership (inp : ChangeOwnershipInput)
| CmdLifecycle (inp : ChangeLifecycleInput)
| CmdRetire (inp : RetireServiceInput).

Definition run_command (c : Command) : M Service :=
  match c with
  | CmdRegister i => RegisterService i
  | CmdOwnership i => ChangeOwnership i
  | CmdLifecycle i => ChangeLifecycle i
  | CmdRetire i => RetireService i
  end.

(** [d'] is [d] with [s] registered and its events in the outbox. *)
Definition registered (s : Service) (d d' : Database) : Prop :=
  ∃ hid rows, catalog_services d !! sid_v (svc_id s) = None ∧
    ¬ map_Exists (λ _ r', same_name (tid_v (svc_tenantID s)) (sn_v (svc_name s)) r') (catalog_services d) ∧
    appended (svc_events s) rows ∧
    d' = set_outbox (inserted hid s d) (outbox_events (inserted hid s d) ++ rows).

(** [d'] is [d] after the operation [op] on the stored service [old]. *)
Definition mutated (sid : ServiceID) (v : Z) (op : Op) (s' : Service) (d d' : Database) : Prop :=
  ∃ old now s1 hid rows, catalog_services d !! sid_v sid = Some old ∧
    (0 < v → sr_version old = v)%Z ∧
    run_op op (row_service old) now = Ok s1 ∧ s' = (PullEvents s1).2 ∧
    appended (svc_events s1) rows ∧
    d' = set_outbox (updated hid s1 old d) (outbox_events (updated hid s1 old d) ++ rows).

Definition apply_op (op : Op) (s : Service) : M Service := now ← Now; lift (run_op op s now).

(** The columns an operation is about, as they are to be; whether they are so already; and its
    event. *)
Definition wanted_columns (op : Op) (old : ServiceRow) : string * string * string :=
  match op with
  | OpChangeOwnership o => (sr_lifecycle old, OwningTeam o, OnCallRef o)
  | OpChangeLifecycle l => (l, sr_owning_team old, sr_on_call_ref old)
  | OpRetire => (LifecycleRetired, sr_owning_team old, sr_on_call_ref old)
  end.
Definition already_so (op : Op) (old : ServiceRow) : Prop :=
  match op with
  | OpChangeOwnership _ => False
  | OpChangeLifecycle l => sr_lifecycle old = l
  | OpRetire => sr_lifecycle old = LifecycleRetired
  end.
#[global] Instance already_so_dec op old : Decision (already_so op old).
Proof. destruct op; unfold already_so; apply _. Defined.
Definition event_type_of (op : Op) : string :=
  match op with
  | OpChangeOwnership _ => "catalog.service.ownership_changed"
  | OpChangeLifecycle _ => "catalog.service.lifecycle_changed"
  | OpRetire => "catalog.service.retired"
  end.

End commands.

Section command_facts.
Context `{Env}.

(** The operation of the aggregate, seen at the columns. *)
Lemma run_op_columns op old now s1 :
  run_op op (row_service old) now = Ok s1 →
  (svc_lifecycle s1, OwningTeam (svc_ownership s1), OnCallRef (svc_ownership s1)) = wanted_columns op old ∧
  (svc_description s1, tier_v (svc_tier s1), svc_repository s1) = (sr_description old, sr_tier old, sr_repository_url old) ∧
  if decide (already_so op old) then svc_version s1 = sr_version old ∧ svc_events s1 = []
  else svc_version s1 = wrap64 (sr_version old + 1) ∧
       ∃ e, svc_events s1 = [e] ∧ EventType e = event_type_of op ∧ AggregateID e = uuid_String (sr_id old).
Proof.
  destruct op as [o|t|]; simpl; unfold CatalogDomain.ChangeOwnership, CatalogDomain.ChangeLifecycle, CatalogDomain.Retire;
    intros E; case_all; split_and!; try done; try congruence; eexists; split_and!; reflexivity.
Qed.

Lemma wp_mutate_load sid op w :
  catalog_inv (w_db w) →
  wp (mutate_load sid (apply_op op)) w (λ r w', w_db w' = w_db w ∧
    match r with
    | Ok (cur, s1) => ∃ old now, catalog_services (w_db w) !! sid_v sid = Some old ∧
        run_op op (row_service old) now = Ok s1 ∧ cur = sr_version old ∧ sid_v (svc_id s1) = sid_v sid
    | Err _ => True
    end).
Proof.
  intros Hinv. unfold mutate_load, apply_op. wp_steps.
  eapply wp_mono; [apply wp_FindByID|]. intros [s|e] w1 [Hdb Hs]; [|done].
  destruct Hs as (old & Hold & Hscan). destruct (inv_rows _ Hinv _ _ Hold) as [Hid Hwf].
  rewrite (scan_row_wf _ Hwf) in Hscan. simplify_eq. wp_steps.
  destruct (run_op op (row_service old) t) as [s1|e] eqn:Eop; [|done].
  wp_steps. split; [done|]. exists old, t. split_and!; try done.
  apply run_op_id in Eop. rewrite Eop. simpl. done.
Qed.

Lemma wp_mutate_store v cur s w :
  wp (mutate_store v cur s) w (λ r w',
    match r with
    | Ok s' => ∃ old hid rows, catalog_services (w_db w) !! sid_v (svc_id s) = Some old ∧
        sr_version old = expectedVersionOr v cur ∧ s' = (PullEvents s).2 ∧
        appended (svc_events s) rows ∧
        w_db w' = set_outbox (updated hid s old (w_db w)) (outbox_events (updated hid s old (w_db w)) ++ rows)
    | Err _ => True
    end).
Proof.
  unfold mutate_store. wp_steps. eapply wp_mono; [apply wp_Update|]. intros [?|e] w1; [|done].
  intros (old & hid & Hold & Hv & Hdb). simpl. wp_steps.
  eapply wp_mono; [apply wp_Append|]. intros [?|e] w2; [|done].
  intros (rows & Hrows & Hdb'). wp_steps. exists old, hid, rows.
  rewrite Hdb in Hdb'. done.
Qed.

Lemma wp_mutate sid v op w :
  catalog_inv (w_db w) →
  wp (mutate sid v (apply_op op)) w (λ r w',
    all_or_nothing (mutated sid v op) (w_db w) r (w_db w')).
Proof.
  intros Hinv. unfold mutate. eapply wp_mono.
  - apply (wp_Execute _ w (λ s' d', mutated sid v op s' (w_db w) d') (λ _, True)).
    intros w1 Hw1. rewrite <- Hw1 in Hinv. wp_steps.
    eapply wp_mono; [by apply wp_mutate_load|]. intros [[cur s1]|e] w2; [|done].
    intros (Hdb & old & now & Hold & Hop & -> & Hid). simpl.
    eapply wp_mono; [apply wp_mutate_store|]. intros [s'|e] w3; [|done].
    intros (old' & hid & rows & Hold' & Hv & -> & Hrows & Hdb').
    rewrite Hid, Hdb in Hold'. simplify_eq. exists old, now, s1, hid, rows.
    rewrite Hdb, Hw1 in *. split_and!; try done.
    intros Hpos. unfold expectedVersionOr in Hv. destruct (Z.ltb_spec 0 v); [done|lia].
  - intros [s'|e] w'; [done|]. simpl. naive_solver.
Qed.

(** The services [RegisterService] builds. *)
Definition built (inp : RegisterServiceInput) (s : Service) : Prop :=
  ∃ fresh now t n ti o,
    TenantIDFromString (rs_TenantID inp) = Ok t ∧ NewServiceName (rs_Name inp) = Ok n ∧
    NewTier (rs_Tier inp) = Ok ti ∧ NewOwnership (rs_OwningTeam inp) (rs_OnCallRef inp) = Ok o ∧
    s = Register (NewServiceID fresh) t n (rs_Description inp) ti (rs_Repository inp) o now.

Lemma built_wf inp s : built inp s → service_wf s ∧ explained (svc_events s) s.
Proof.
  intros (u & now & t & n & ti & o & _ & Hn & Hti & Ho & ->).
  apply NewServiceName_Ok in Hn as [_ ?]. apply NewTier_Ok in Hti as [_ ?].
  apply NewOwnership_wf in Ho. split; [by apply Register_wf|apply explained_register].
Qed.

Definition register_effect (inp : RegisterServiceInput) (s' : Service) (d d' : Database) : Prop :=
  ∃ s, built inp s ∧ s' = (PullEvents s).2 ∧ registered s d d'.

Lemma wp_register_service inp w :
  wp (register_service inp) w (λ r w', w_db w' = w_db w ∧
    match r with Ok s => built inp s | Err _ => True end).
Proof.
  unfold register_service. wp_steps.
  destruct (TenantIDFromString (rs_TenantID inp)) as [tid|e] eqn:Et; [|done]. wp_steps.
  destruct (NewServiceName (rs_Name inp)) as [n|e] eqn:En; [|done]. wp_steps.
  destruct (NewTier (rs_Tier inp)) as [ti|e] eqn:Eti; [|done]. wp_steps.
  destruct (NewOwnership (rs_OwningTeam inp) (rs_OnCallRef inp)) as [o|e] eqn:Eo; [|done].
  wp_steps. split; [done|]. exists u, t, tid, n, ti, o. done.
Qed.

Lemma wp_register_check s w : wp (register_check s) w (λ _ w', w_db w' = w_db w).
Proof.
  unfold register_check. wp_steps. eapply wp_mono; [apply wp_FindByTenantAndName|].
  intros [?|e] w2 [Hdb _]; [by wp_steps|]. destruct (negb (isNotFound e)); by wp_steps.
Qed.

(** The insertion decides by itself that the name is free, whatever the check saw. *)
Lemma wp_register_insert inp s w :
  built inp s →
  wp (register_insert s) w (λ r w',
    match r with Ok s' => register_effect inp s' (w_db w) (w_db w') | Err _ => True end).
Proof.
  intros Hb. unfold register_insert. wp_steps. eapply wp_mono; [apply wp_Insert|]. intros [?|e'] w3; [|done].
  intros (hid & Hfresh & Hname & Hdb3). simpl. wp_steps.
  eapply wp_mono; [apply wp_Append|]. intros [?|e'] w4; [|done].
  intros (rows & Hrows & Hdb4). wp_steps. exists s. split_and!; [done|done|].
  exists hid, rows. rewrite Hdb3 in *. done.
Qed.

Lemma wp_RegisterService inp w :
  wp (RegisterService inp) w (λ r w', all_or_nothing (register_effect inp) (w_db w) r (w_db w')).
Proof.
  unfold RegisterService. wp_steps. eapply wp_mono; [apply wp_register_service|].
  intros [s|e] w1 [Hdb Hb]; [|by left]. rewrite <- Hdb. eapply wp_mono.
  - apply (wp_Execute _ _ (λ s' d', register_effect inp s' (w_db w1) d') (λ _, True)).
    intros w2 Hw2. simpl in Hw2. wp_steps. eapply wp_mono; [apply wp_register_check|].
    intros [[]|e] w3 Hw3; [|done]. rewrite <- Hw2, <- Hw3.
    eapply wp_mono; [by apply wp_register_insert|]. by intros [].
  - intros [s'|e] w'; [done|]. simpl. naive_solver.
Qed.

Lemma mutated_inv sid v op s' d d' :
  op_wf op → catalog_inv d → mutated sid v op s' d d' → catalog_inv d'.
Proof.
  intros Hop Hinv (old & now & s1 & hid & rows & Hold & _ & Hrun & _ & Hrows & ->).
  destruct (inv_rows _ Hinv _ _ Hold) as [Hid Hwf].
  assert (sid_v (svc_id s1) = sid_v sid) as Hs1.
  { rewrite (run_op_id _ _ _ _ Hrun). done. }
  apply catalog_inv_update; try done; [by rewrite Hs1|by eapply run_op_wf|..].
  - apply run_op_inv in Hrun as [->|(e & Hc & _)]; [done|apply Hc].
  - apply run_op_inv in Hrun as [->|(e & Hc & _)]; [done|apply Hc].
  - intros es Hes. pose proof (explained_op es op _ now s1 Hes Hrun) as Hl. done.
Qed.

Lemma registered_inv inp s d d' :
  built inp s → catalog_inv d → registered s d d' → catalog_inv d'.
Proof.
  intros [Hwf Hex]%built_wf Hinv (hid & rows & Hfresh & Hname & Hrows & ->).
  by apply catalog_inv_insert.
Qed.

(** The operation a command applies to a stored service. *)
Definition command_op (c : Command) : option (result goerror (ServiceID * Z * Op)) :=
  match c with
  | CmdRegister _ => None
  | CmdOwnership i => Some (
      sid ← ServiceIDFromString (co_ServiceID i);
      o ← NewOwnership (co_OwningTeam i) (co_OnCallRef i);
      Ok (sid, co_ExpectedVersion i, OpChangeOwnership o))
  | CmdLifecycle i => Some (
      sid ← ServiceIDFromString (cl_ServiceID i);
      l ← ParseLifecycle (cl_Lifecycle i);
      Ok (sid, cl_ExpectedVersion i, OpChangeLifecycle l))
  | CmdRetire i => Some (
      sid ← ServiceIDFromString (rt_ServiceID i);
      Ok (sid, rt_ExpectedVersion i, OpRetire))
  end.

(** What a command does to the database when it succeeds. *)
Definition command_effect (c : Command) (s' : Service) (d d' : Database) : Prop :=
  match c, command_op c with
  | CmdRegister i, _ => register_effect i s' d d'
  | _, Some (Ok (sid, v, op)) => mutated sid v op s' d d'
  | _, _ => False
  end.

Lemma command_op_wf c sid v op : command_op c = Some (Ok (sid, v, op)) → op_wf op.
Proof.
  destruct c as [i|i|i|i]; simpl; intros E; [done|..]; injection E as E;
    apply bind_Ok in E as (sid' & _ & E).
  - apply bind_Ok in E as (o & Ho & E). simplify_eq. by eapply NewOwnership_wf.
  - apply bind_Ok in E as (l & Hl & E). simplify_eq. by apply ParseLifecycle_Ok in Hl as [-> ?].
  - by simplify_eq.
Qed.

Lemma wp_run_command c w :
  catalog_inv (w_db w) →
  wp (run_command c) w (λ r w', all_or_nothing (command_effect c) (w_db w) r (w_db w')).
Proof.
  intros Hinv. destruct c as [i|i|i|i]; simpl; [apply wp_RegisterService|..];
    unfold ChangeOwnership, ChangeLifecycle, RetireService, command_effect; simpl; wp_steps;
    (destruct (ServiceIDFromString _) as [sid|e]; [|by left]); simpl; wp_steps.
  - destruct (NewOwnership _ _) as [o|e]; [|by left]. simpl. by apply (wp_mutate _ _ (OpChangeOwnership o)).
  - destruct (ParseLifecycle _) as [l|e]; [|by left]. simpl. by apply (wp_mutate _ _ (OpChangeLifecycle l)).
  - by apply (wp_mutate _ _ OpRetire).
Qed.

Lemma command_effect_inv c s' d d' : catalog_inv d → command_effect c s' d d' → catalog_inv d'.
Proof.
  intros Hinv. unfold command_effect.
  destruct c as [i|i|i|i]; [intros (s & Hb & _ & Hr); by eapply registered_inv|..];
    (destruct (command_op _) as [[[[sid v] op]|e]|] eqn:Ec; [|done..]);
    (apply mutated_inv; [by eapply command_op_wf|done]).
Qed.
End command_facts.

(** ** Runs without failures *)

Section calm.
Context `{Env}.

(** From [w] on no driver call fails, commits succeed, and identifiers are new. *)
Record calm (w : World) : Prop := {
  calm_fault n : fault n = None;
  calm_commit n : commit n = Committed;
  calm_history n : w_tick w ≤ n → Forall (λ h, h_id h ≠ fresh_id n) (ownership_history (w_db w));
  calm_outbox n : w_tick w ≤ n → Forall (λ r, ob_id r ≠ fresh_id n) (outbox_events (w_db w))
}.

Lemma stmt_run {A} (f : Database → Z → result goerror (A * Database)) w :
  fault (w_tick w) = None →
  stmt f w = match f (w_db w) (w_tx_now w) with
             | Ok (a, d) => (Ok a, tick (set_db w d))
             | Err e => (Err e, tick w)
             end.
Proof. unfold stmt. by intros ->. Qed.

Lemma FindByID_run sid w :
  fault (w_tick w) = None →
  FindByID sid w = (scanService (or_err (catalog_services (w_db w) !! sid_v sid) ENoRows), tick w).
Proof.
  intros Hf. unfold FindByID, catch, query, lift. rewrite stmt_run by done.
  destruct (catalog_services (w_db w) !! sid_v sid) as [r|]; by destruct w.
Qed.

(** A single event reaches the outbox when its identifier is new. *)
Lemma Append_one e agg w :
  (∀ n, fault n = None) → uuid_Parse (AggregateID e) = Some agg →
  Forall (λ r, ob_id r ≠ fresh_id (w_tick w)) (outbox_events (w_db w)) →
  ∃ w', Append [e] w = (Ok tt, w').
Proof.
  intros Hf Ha Hnew. simpl. unfold mbind, M_bind, id_New, wrap_err. rewrite stmt_run by done. simpl.
  unfold insert_outbox. rewrite Ha.
  rewrite decide_False by (rewrite Exists_exists; rewrite Forall_forall in Hnew; naive_solver).
  simpl. eauto.
Qed.

Lemma recorded_ids P u at_ t c l :
  Forall (λ h, P (h_id h)) l → Forall (λ h, P (h_id h)) (map (close_old u at_ t c) l).
Proof.
  intros Hl. apply Forall_map. eapply Forall_impl; [exact Hl|]. intros h Hh. simpl.
  unfold close_old. by case_decide.
Qed.

Lemma recordOwnership_run s w :
  (∀ n, fault n = None) → is_Some (catalog_services (w_db w) !! sid_v (svc_id s)) →
  (∀ n, w_tick w ≤ n → Forall (λ h, h_id h ≠ fresh_id n) (ownership_history (w_db w))) →
  ∃ d, recordOwnership s w = (Ok tt, mkWorld d (S (S (S (w_tick w)))) (w_tx_now w)) ∧
       outbox_events d = outbox_events (w_db w).
Proof.
  intros Hf [row Hrow] Hnew. unfold recordOwnership, mbind, M_bind, wrap_err. rewrite stmt_run by done.
  simpl. rewrite stmt_run by done. simpl. unfold open_interval. simpl. case_decide; [eauto|].
  unfold insert_history. simpl. rewrite decide_False.
  2:{ rewrite Exists_exists. intros (h & Hin & Hh). revert Hin Hh.
      pose proof (Hnew (S (w_tick w)) ltac:(lia)) as Hl.
      apply (recorded_ids (λ i, i ≠ fresh_id (S (w_tick w))) (sid_v (svc_id s))
               (timestamptz (svc_updatedAt s)) (OwningTeam (svc_ownership s))
               (OnCallRef (svc_ownership s))) in Hl.
      rewrite Forall_forall in Hl. apply Hl. }
  rewrite decide_False by congruence. eauto.
Qed.

Lemma Update_run s v old w :
  (∀ n, fault n = None) → catalog_services (w_db w) !! sid_v (svc_id s) = Some old →
  sr_version old = v → service_wf s →
  (∀ n, w_tick w ≤ n → Forall (λ h, h_id h ≠ fresh_id n) (ownership_history (w_db w))) →
  ∃ d, Update s v w = (Ok tt, mkWorld d (S (S (S (S (w_tick w))))) (w_tx_now w)) ∧
       outbox_events d = outbox_events (w_db w).
Proof.
  intros Hf Hold Hv Hwf Hnew. unfold Update, wrap_err. unfold mbind at 1, M_bind at 1.
  rewrite stmt_run by done. unfold update_service. simpl. rewrite Hold, decide_True by done.
  pose proof (service_check_wf _ (row_service_row timestamptz s Hwf)) as Hc.
  change (service_check (update_columns old (service_row timestamptz s)))
    with (service_check (service_row timestamptz s)).
  rewrite Hc. simpl.
  match goal with |- context [recordOwnership s ?w1] =>
    destruct (recordOwnership_run s w1) as (d & Hr & Ho); simpl
  end; [done| | |].
  - rewrite lookup_insert_eq. eauto.
  - intros n Hn. apply Hnew. lia.
  - exists d. by rewrite Hr.
Qed.

(** Zero rows affected on an existing row is a version conflict. *)
Lemma Update_conflict s v old w :
  (∀ n, fault n = None) → catalog_services (w_db w) !! sid_v (svc_id s) = Some old →
  service_wf (row_service old) → sr_version old ≠ v →
  ∃ w', Update s v w = (Err ErrVersionConflict, w').
Proof.
  intros Hf Hold Hwf Hv. unfold Update, wrap_err. unfold mbind at 1, M_bind at 1.
  rewrite stmt_run by done. unfold update_service. simpl. rewrite Hold, decide_False by done.
  simpl. unfold no_row_updated, catch. rewrite FindByID_run by done. simpl. rewrite Hold. simpl.
  rewrite (scan_row_wf old) by done. unfold fail, lift. eauto.
Qed.

Lemma Append_short es u w :
  (∀ n, fault n = None) → length es ≤ 1 → Forall (λ e, AggregateID e = uuid_String u) es →
  Forall (λ r, ob_id r ≠ fresh_id (w_tick w)) (outbox_events (w_db w)) →
  ∃ w', Append es w = (Ok tt, w').
Proof.
  intros Hf Hlen Hes Hnew. destruct es as [|e [|? ?]]; simpl in Hlen; [by eexists| |lia].
  apply Forall_cons in Hes as [He _]. apply (Append_one _ u); [done| |done].
  by rewrite He, uuid_Parse_String.
Qed.

(** [run_op] on a freshly loaded aggregate records at most one event. *)
Lemma run_op_short op s now s1 :
  svc_events s = [] → run_op op s now = Ok s1 →
  length (svc_events s1) ≤ 1 ∧ Forall (λ e, AggregateID e = uuid_String (sid_v (svc_id s))) (svc_events s1).
Proof.
  intros Hs [->|(e & Hc & _)]%run_op_inv; [rewrite Hs; split; [simpl; lia|done]|].
  rewrite (ch_events _ _ _ _ Hc), Hs. simpl. split; [lia|]. repeat constructor. apply Hc.
Qed.
(** The storing half of [mutate] when nothing fails: only the guard decides. *)
Lemma mutate_store_run v cur s1 old w :
  calm w → catalog_services (w_db w) !! sid_v (svc_id s1) = Some old →
  service_wf (row_service old) → service_wf s1 → length (svc_events s1) ≤ 1 →
  Forall (λ e, AggregateID e = uuid_String (sid_v (svc_id s1))) (svc_events s1) →
  ∃ w', mutate_store v cur s1 w =
    (if decide (sr_version old = expectedVersionOr v cur) then Ok (PullEvents s1).2 else Err ErrVersionConflict, w').
Proof.
  intros [Hf Hcm Hh Ho] Hold Hwf Hwf1 Hlen Hagg. unfold mutate_store, mbind, M_bind.
  destruct (decide (sr_version old = expectedVersionOr v cur)) as [Hv|Hv].
  - destruct (Update_run s1 _ old w Hf Hold Hv Hwf1 Hh) as (d & -> & Hob). simpl.
    match goal with |- context [Append _ ?w1] => set (w4 := w1) end.
    destruct (Append_short (svc_events s1) _ w4 Hf Hlen Hagg) as (w5 & ->); [|eauto].
    unfold w4. simpl. rewrite Hob. apply Ho. lia.
  - destruct (Update_conflict s1 _ old w Hf Hold Hwf Hv) as (w4 & ->). eauto.
Qed.

Lemma calm_later w n t : calm w → w_tick w ≤ n → calm (mkWorld (w_db w) n t).
Proof. intros [Hf Hcm Hh Ho] Hn. split; [done|done|..]; simpl; intros m Hm; [apply Hh|apply Ho]; lia. Qed.

(** The run of [mutate] when nothing fails. *)
Lemma mutate_run sid v op w :
  catalog_inv (w_db w) → calm w → op_wf op →
  (mutate sid v (apply_op op) w).1 =
    match catalog_services (w_db w) !! sid_v sid with
    | None => Err ErrServiceNotFound
    | Some old =>
      s1 ← run_op op (row_service old) (clock (S (S (w_tick w))));
      if decide (0 < v ∧ v ≠ sr_version old)%Z then Err ErrVersionConflict
      else Ok (PullEvents s1).2
    end.
Proof.
  intros Hinv Hcalm Hop. pose proof (calm_fault _ Hcalm) as Hf.
  unfold mutate, Execute, wrap_err, Begin, mutate_load, apply_op, mbind, M_bind. rewrite Hf. simpl.
  rewrite FindByID_run by done. simpl.
  destruct (catalog_services (w_db w) !! sid_v sid) as [old|] eqn:Eold; [|done].
  destruct (inv_rows _ Hinv _ _ Eold) as [Hid Hwf]. simpl. rewrite (scan_row_wf old) by done.
  unfold Now, lift. simpl.
  destruct (run_op op (row_service old) _) as [s1|e] eqn:Er; [|done]. simpl.
  apply run_op_id in Er as Hs1. simpl in Hs1.
  destruct (run_op_short op (row_service old) _ _ eq_refl Er) as [Hlen Hagg].
  pose proof (run_op_wf _ _ _ _ Hop Hwf Er) as Hwf1.
  match goal with |- context [mutate_store v _ s1 ?w1] => destruct (mutate_store_run v (sr_version old) s1 old w1) as (w3 & ->) end;
    [apply (calm_later w _ _ Hcalm); simpl; lia|rewrite Hs1; simpl; by rewrite Hid|done..|by rewrite Hs1|].
  unfold expectedVersionOr. destruct (Z.ltb_spec 0 v) as [Hv|Hv].
  - destruct (decide (sr_version old = v)) as [->|Hne]; simpl.
    + rewrite decide_False by naive_solver. unfold Commit. by rewrite (calm_commit _ Hcalm).
    + by rewrite decide_True.
  - rewrite decide_True, decide_False by (done || lia). simpl. unfold Commit. by rewrite (calm_commit _ Hcalm).
Qed.
End calm.

(** ** Properties *)

Section properties.
Context `{Env}.

(** C2: whatever driver calls fail and however the commit ends, a catalog command
    either succeeds with its whole effect (the service row, the ownership
    history and the outbox rows of its events), or fails and leaves the database
    exactly as it was; the one exception is a commit that was applied although
    its acknowledgement was lost, and then the whole effect is there. *)
Theorem command_all_or_nothing c w r w' :
  catalog_inv (w_db w) → run_command c w = (r, w') →
  all_or_nothing (command_effect c) (w_db w) r (w_db w').
Proof. intros Hinv. exact (wp_run _ _ _ _ _ (wp_run_command c w Hinv)). Qed.

Definition run_commands (cs : list Command) (w : World) : World :=
  foldl (λ w c, (run_command c w).2) w cs.

Lemma run_commands_inv cs w : catalog_inv (w_db w) → catalog_inv (w_db (run_commands cs w)).
Proof.
  unfold run_commands. revert w.
  induction cs as [|c cs IH]; intros w Hw; simpl; [done|]. apply IH.
  pose proof (wp_run_command c w Hw) as Hr. unfold wp in Hr.
  destruct (run_command c w) as [r w']. simpl.
  eapply (all_or_nothing_inv catalog_inv); [exact Hw| |exact Hr]. intros a. by apply command_effect_inv.
Qed.

(** Starting from empty tables, after any sequence of catalog commands under any
    failures: every stored row reads back as a well-formed service (on-call in
    production included), names are unique within a tenant, each service has
    exactly one open ownership interval and it names the current owner, and its
    outbox rows replay to its current state with one row per version. *)
Theorem catalog_invariant_reachable cs n t :
  catalog_inv (w_db (run_commands cs (mkWorld empty_db n t))).
Proof. apply run_commands_inv, catalog_inv_empty. Qed.

(** C24: when nothing fails, [mutate] is decided by the stored row alone: a missing
    row is SERVICE_NOT_FOUND; the domain's refusal is returned as it is; an
    [If-Match] version other than the stored one is VERSION_CONFLICT; and in
    every other case the command succeeds with the result of the operation. *)
Theorem mutate_outcome sid v op w :
  catalog_inv (w_db w) → calm w → op_wf op →
  (mutate sid v (apply_op op) w).1 =
    match catalog_services (w_db w) !! sid_v sid with
    | None => Err ErrServiceNotFound
    | Some old =>
      s1 ← run_op op (row_service old) (clock (S (S (w_tick w))));
      if decide (0 < v ∧ v ≠ sr_version old)%Z then Err ErrVersionConflict
      else Ok (PullEvents s1).2
    end.
Proof. apply mutate_run. Qed.

(** A service that [RegisterService] returned can be read back under the
    identifier it returned: the query yields the same service, its times rounded
    as the database stores them. *)
Theorem registered_service_found inp w s' w' :
  RegisterService inp w = (Ok s', w') → fault (w_tick w') = None →
  (GetService (ServiceID_String (svc_id s')) w').1 = Ok (row_service (service_row timestamptz s')).
Proof.
  intros Hr Hf. pose proof (wp_run _ _ _ _ _ (wp_RegisterService inp w) Hr) as (s & Hb & -> & Hreg).
  destruct (built_wf _ _ Hb) as [Hwf _]. destruct Hreg as (hid & rows & _ & _ & _ & Hd).
  unfold GetService, lift, mbind, M_bind, ServiceIDFromString, ServiceID_String.
  rewrite uuid_Parse_String, FindByID_run by done. rewrite Hd. simpl.
  rewrite lookup_insert_eq. simpl. rewrite scan_row_wf by (by apply row_service_row). done.
Qed.
End properties.


(** ** Witnesses *)

#[local] Existing Instance demo_uuid.
#[local] Definition w0 : World := mkWorld empty_db 0 0.
#[local] Definition demo_register : Command :=
  CmdRegister (mkRegisterServiceInput "utenant" " payments-api" "" 1 "" "payments" "pd://payments").

(** The world after one registration in which nothing fails. *)
#[local] Definition w1 : World := (@run_command _ calm_env demo_register w0).2.

#[local] Lemma w1_inv : catalog_inv (w_db w1).
Proof. apply (@run_commands_inv _ calm_env [demo_register] w0), catalog_inv_empty. Qed.

#[local] Lemma w1_calm : @calm _ calm_env w1.
Proof.
  assert (w_tick w1 = 10 ∧ Forall (λ h, h_id h ∈ map pretty (seq 0 10)) (ownership_history (w_db w1)) ∧
          Forall (λ r, ob_id r ∈ map pretty (seq 0 10)) (outbox_events (w_db w1))) as (Ht & Hh & Ho).
  { apply (bool_decide_unpack _). vm_compute. exact I. }
  assert (∀ n i, 10 ≤ n → i ∈ map pretty (seq 0 10) → i ≠ pretty n) as Hne.
  { intros n i Hn Hi ->. apply list_elem_of_In, in_map_iff in Hi as (k & Hk%(inj pretty) & [_ Hk2]%in_seq). lia. }
  constructor; [done|done|..]; intros n; rewrite Ht; intros Hn;
    (eapply Forall_impl; [eassumption|]); intros x Hx; by apply Hne.
Qed.

Lemma command_all_or_nothing_witness :
  let env := demo_env (λ _, None) (λ _, CommitUnknown (EOther "connection reset")) in
  ∃ e, (run_command demo_register w0).1 = Err e ∧
  all_or_nothing (command_effect demo_register) empty_db (Err e) (w_db (run_command demo_register w0).2).
Proof.
  intros env. eexists. split; [vm_compute; reflexivity|].
  apply (command_all_or_nothing demo_register w0); [apply catalog_inv_empty|].
  vm_compute. reflexivity.
Defined.

Lemma mutate_outcome_witness :
  ∃ s', (@mutate demo_uuid calm_env (mkServiceID ("0" : @uuid demo_uuid)) 1 (@apply_op _ calm_env OpRetire) w1).1 = Ok s' ∧
        svc_lifecycle s' = LifecycleRetired ∧ svc_version s' = 2%Z.
Proof.
  rewrite (@mutate_outcome demo_uuid calm_env (mkServiceID ("0" : @uuid demo_uuid)) 1 OpRetire w1 w1_inv w1_calm I).
  eexists. split; [vm_compute; reflexivity|]. split; reflexivity.
Defined.

Lemma registered_service_found_witness :
  ∃ s', (@run_command _ calm_env demo_register w0).1 = Ok s' ∧
        (@GetService _ calm_env (ServiceID_String (svc_id s')) w1).1 = Ok s'.
Proof.
  eexists. split; [vm_compute; reflexivity|].
  eapply (@registered_service_found _ calm_env
            (mkRegisterServiceInput "utenant" " payments-api" "" 1 "" "payments" "pd://payments") w0);
    vm_compute; reflexivity.
Defined.
