(* ===== verification/Relay.v ===== *)
(** * The outbox relay (internal/relay, internal/platform/events)

    The relay copies outbox rows to the event bus: [ClaimBatch] claims, publishes
    and marks a batch in one transaction, [DrainOnce] repeats it until a batch
    comes back short, and [Run] drains on every tick.  The contract the loop
    relies on is the class [OutboxStore]; [PgStore] is its implementation.  What
    the outside decides is the class [RelayEnv]: the fate of each publish, the
    rows other replicas hold locked, and the rows other transactions commit
    between two batches. *)
From S2P Require Import Prelude GoStrings Apperr Uuid Postgres.

Record OutboxRecord := mkOutboxRecord {
  rec_ID : string;
  rec_AggregateID : string;
  rec_EventType : string;
  rec_Payload : string;
  rec_OccurredAt : Z
}.

(** A message of the stream, with its deduplication identifier. *)
Record Msg := mkMsg { msg_Subject : string; msg_ID : string; msg_Data : string }.

#[export] Instance OutboxRecord_eq_dec : EqDecision OutboxRecord.
Proof. solve_decision. Defined.
#[export] Instance Msg_eq_dec : EqDecision Msg.
Proof. solve_decision. Defined.

(** What a publish comes to: stored and acknowledged, refused, or stored although
    the acknowledgement was lost. *)
Inductive publish_outcome : Type :=
| PubAck
| PubRefused (e : goerror)
| PubUnknown (e : goerror).

Section env.
Context `{UUIDLib}.

Definition outbox_ids (l : list OutboxRow) : list uuid := map ob_id l.
Definition unpublished (r : OutboxRow) : Prop := ob_published_at r = None.
#[global] Instance unpublished_dec r : Decision (unpublished r).
Proof. unfold unpublished. apply _. Defined.

Class RelayEnv := {
  relay_env :: Env;
  publish_result : nat → publish_outcome;
  locked : nat → uuid → bool;
  jsonb_text : json → string;
  arrivals : nat → Database → list OutboxRow;
  (** New rows have new keys and are not published: the primary key of the table and
      the columns the outbox adapter writes. *)
  arrivals_fresh t d : NoDup (outbox_ids (outbox_events d)) →
    NoDup (outbox_ids (outbox_events d ++ arrivals t d));
  arrivals_unpublished t d : Forall unpublished (arrivals t d)
}.

Record RWorld := mkRWorld { rw_world : World; rw_bus : list Msg }.
Definition rw_db (w : RWorld) : Database := w_db (rw_world w).
Definition rw_tick (w : RWorld) : nat := w_tick (rw_world w).
Definition RM (A : Type) : Type := RWorld → result goerror A * RWorld.

#[global] Instance RM_ret : MRet RM := λ A a w, (Ok a, w).
#[global] Instance RM_bind : MBind RM := λ A B k m w,
  match m w with
  | (Ok a, w') => k a w'
  | (Err e, w') => (Err e, w')
  end.

Definition rlift {A} (m : M A) : RM A := λ w,
  let '(r, w') := m (rw_world w) in (r, mkRWorld w' (rw_bus w)).
Definition rwrap {A} (p : string) (m : RM A) : RM A := λ w,
  match m w with
  | (Err e, w') => (Err (EWrap p e), w')
  | r => r
  end.
Definition rset_db (w : RWorld) (d : Database) : RWorld := mkRWorld (set_db (rw_world w) d) (rw_bus w).
Definition rtick (w : RWorld) : RWorld := mkRWorld (tick (rw_world w)) (rw_bus w).
End env.

(** ** The code *)

Section relay.
Context `{RelayEnv}.

(** [JetStreamPublisher.Publish] *)
Definition Publish (subject msgID data : string) : RM unit := λ w,
  let sent := mkRWorld (tick (rw_world w)) (rw_bus w ++ [mkMsg subject msgID data]) in
  match publish_result (rw_tick w) with
  | PubAck => (Ok tt, sent)
  | PubRefused e => (Err (EWrap ("publish " +:+ subject) e), rtick w)
  | PubUnknown e => (Err (EWrap ("publish " +:+ subject) e), sent)
  end.

(** ORDER BY created_at, id *)
Definition claim_order (r1 r2 : OutboxRow) : Prop :=
  (ob_created_at r1 < ob_created_at r2)%Z ∨
  (ob_created_at r1 = ob_created_at r2 ∧ uuid_num (ob_id r1) ≤ uuid_num (ob_id r2))%Z.
#[global] Instance claim_order_dec : RelDecision claim_order.
Proof. unfold RelDecision, claim_order. apply _. Defined.

(** The rows of the claiming SELECT, with LIMIT and SKIP LOCKED. *)
Definition claimable (lk : uuid → bool) (r : OutboxRow) : Prop := unpublished r ∧ lk (ob_id r) = false.
#[global] Instance claimable_dec lk r : Decision (claimable lk r).
Proof. unfold claimable. apply _. Defined.
Definition claim (lk : uuid → bool) (limit : nat) (d : Database) : list OutboxRow :=
  take limit (merge_sort claim_order (filter (claimable lk) (outbox_events d))).

Definition to_record (r : OutboxRow) : OutboxRecord :=
  mkOutboxRecord (uuid_String (ob_id r)) (uuid_String (ob_aggregate_id r)) (ob_event_type r)
    (jsonb_text (ob_payload r)) (ob_occurred_at r).

(** A call of the driver on the open cursor: it can fail, and changes nothing. *)
Definition driver : M unit := query (λ _, Ok tt).

Fixpoint scan_rows (rows : list OutboxRow) : M (list OutboxRecord) :=
  match rows with
  | [] => mret []
  | r :: rows' =>
    _ ← wrap_err "scan outbox row" driver;
    recs ← scan_rows rows';
    mret (to_record r :: recs)
  end.

(** The claimed rows, when the rows of [lk] are locked by others. *)
Definition claim_rows (lk : uuid → bool) (limit : nat) : M (list OutboxRecord) :=
  rows ← wrap_err "claim outbox" (query (λ d, Ok (claim lk limit d)));
  recs ← scan_rows rows;
  _ ← driver;
  mret recs.
Definition select_batch (limit : nat) : M (list OutboxRecord) := λ w,
  claim_rows (locked (w_tick w)) limit w.

Fixpoint publish_all (publish : OutboxRecord → RM unit) (recs : list OutboxRecord) : RM (list string) :=
  match recs with
  | [] => mret []
  | r :: recs' =>
    _ ← rwrap ("publish " +:+ rec_ID r) (publish r);
    ids ← publish_all publish recs';
    mret (rec_ID r :: ids)
  end.

(** UPDATE outbox_events SET published_at = now() WHERE id = ANY($1::uuid[]) *)
Definition mark_row (us : list uuid) (now_ : Z) (r : OutboxRow) : OutboxRow :=
  if decide (ob_id r ∈ us)
  then mkOutboxRow (ob_id r) (ob_aggregate_id r) (ob_event_type r) (ob_payload r) (ob_occurred_at r)
         (Some now_) (ob_created_at r)
  else r.

(** Some rows get a publication time, and nothing else changes. *)
Definition marked (d d' : Database) : Prop :=
  ∃ us t, d' = set_outbox d (map (mark_row us t) (outbox_events d)).

Definition mark_published (ids : list string) (d : Database) (now_ : Z) : result goerror (unit * Database) :=
  match mapM uuid_Parse ids with
  | None => Err invalid_text
  | Some us => Ok (tt, set_outbox d (map (mark_row us now_) (outbox_events d)))
  end.

(** The body of [PgStore.ClaimBatch] inside its transaction; [None] is the early
    return on an empty batch. *)
Definition claim_body (limit : nat) (publish : OutboxRecord → RM unit) : RM (option nat) :=
  recs ← rlift (select_batch limit);
  if decide (recs = []) then mret None
  else
    ids ← publish_all publish recs;
    _ ← rwrap "mark published" (rlift (stmt (mark_published ids)));
    mret (Some (length recs)).

(** [PgStore.ClaimBatch]: every return before the commit runs the deferred
    rollback; messages already published stay published. *)
Definition PgStore_ClaimBatch (limit : nat) (publish : OutboxRecord → RM unit) : RM nat := λ w,
  match rwrap "begin" (rlift Begin) w with
  | (Err e, w1) => (Err e, w1)
  | (Ok _, w1) =>
    match claim_body limit publish w1 with
    | (Err e, w2) => (Err e, rset_db w2 (rw_db w1))
    | (Ok None, w2) => (Ok 0, rset_db w2 (rw_db w1))
    | (Ok (Some n), w2) =>
      match rwrap "commit" (rlift (Commit (rw_db w1))) w2 with
      | (Err e, w3) => (Err e, w3)
      | (Ok _, w3) => (Ok n, w3)
      end
    end
  end.

(** Rows committed by other transactions. *)
Definition others : RWorld → RWorld := λ w,
  rtick (rset_db w (set_outbox (rw_db w) (outbox_events (rw_db w) ++ arrivals (rw_tick w) (rw_db w)))).
End relay.

(** ** The contract between the loop and the store *)

Section contract.
Context `{RelayEnv}.

(** [f] publishes the message [g rec], in the sense of an at-least-once publisher:
    success means it is on the bus, and nothing else is ever put there. *)
Definition publishes (f : OutboxRecord → RM unit) (g : OutboxRecord → Msg) : Prop :=
  ∀ rec w, let '(r, w') := f rec w in
    rw_db w' = rw_db w ∧ rw_tick w ≤ rw_tick w' ∧
    ∃ ms, rw_bus w' = rw_bus w ++ ms ∧ Forall (eq (g rec)) ms ∧ (r = Ok tt → g rec ∈ ms).

(** What one batch may do: mark some unpublished rows, each of them with its
    message on the bus, and put only messages of outbox rows there. *)
Record batch_effect (limit : nat) (g : OutboxRecord → Msg) (w : RWorld) (r : result goerror nat)
    (w' : RWorld) (rows : list OutboxRow) (now_ : Z) (ms : list Msg) : Prop := {
  be_db : rw_db w' = set_outbox (rw_db w) (map (mark_row (outbox_ids rows) now_) (outbox_events (rw_db w)));
  be_bus : rw_bus w' = rw_bus w ++ ms;
  be_tick : rw_tick w ≤ rw_tick w';
  be_rows : rows ⊆+ filter unpublished (outbox_events (rw_db w));
  be_limit : length rows ≤ limit;
  be_msgs : Forall (λ m, ∃ row, row ∈ outbox_events (rw_db w) ∧ m = g (to_record row)) ms;
  be_sent : Forall (λ row, g (to_record row) ∈ ms) rows;
  be_result : match r with
              | Ok n => n = length rows
              | Err e => rows = [] ∨ ∃ e0, e = EWrap "commit" e0
              end
}.

Class OutboxStore := {
  ClaimBatch : nat → (OutboxRecord → RM unit) → RM nat;
  claim_contract limit f g w : publishes f g → NoDup (outbox_ids (outbox_events (rw_db w))) →
    ∃ rows now_ ms,
      batch_effect limit g w (ClaimBatch limit f w).1 (ClaimBatch limit f w).2 rows now_ ms
}.

Lemma wp_driver w Q :
  (∀ e, fault (w_tick w) = Some e → Q (Err e) (tick w)) → Q (Ok tt) (tick w) → wp driver w Q.
Proof. intros. by apply wp_query. Qed.

Lemma wp_scan_rows rows w :
  wp (scan_rows rows) w (λ r w', w_db w' = w_db w ∧ w_tick w ≤ w_tick w' ∧
    match r with Ok recs => recs = map to_record rows | Err _ => True end).
Proof.
  revert w. induction rows as [|row rows IH]; intros w; simpl; [by wp_steps|].
  wp_steps. apply wp_driver; [intros e _; simpl; eauto with lia|]. simpl. wp_steps.
  eapply wp_mono; [apply IH|]. intros [recs|e] w' (Hd & Ht & Hr); simpl in *; [|split_and!; [done|lia|done]].
  wp_steps. split_and!; [done|lia|by rewrite Hr].
Qed.

Lemma wp_select_rows lk limit w :
  wp (claim_rows lk limit) w (λ r w', w_db w' = w_db w ∧ w_tick w ≤ w_tick w' ∧
    match r with
    | Ok recs => recs = map to_record (claim lk limit (w_db w))
    | Err _ => True
    end).
Proof.
  unfold claim_rows. wp_steps. apply wp_query; [intros e _; simpl; eauto with lia|]. wp_steps.
  eapply wp_mono; [apply wp_scan_rows|]. intros [recs|e] w' (Hd & Ht & Hr); simpl in *; [|split_and!; [done|lia|done]].
  wp_steps. apply wp_driver; [intros e _; simpl; split_and!; [done|lia|done]|]. wp_steps.
  simpl. split_and!; [done|lia|done].
Qed.
Lemma wp_select_batch limit w :
  wp (select_batch limit) w (λ r w', w_db w' = w_db w ∧ w_tick w ≤ w_tick w' ∧
    match r with
    | Ok recs => recs = map to_record (claim (locked (w_tick w)) limit (w_db w))
    | Err _ => True
    end).
Proof. apply wp_select_rows. Qed.

Lemma publish_all_spec f g recs w : publishes f g →
  let '(r, w') := publish_all f recs w in
  rw_db w' = rw_db w ∧ rw_tick w ≤ rw_tick w' ∧
  ∃ ms, rw_bus w' = rw_bus w ++ ms ∧ Forall (λ m, m ∈ map g recs) ms ∧
    match r with
    | Ok ids => ids = map rec_ID recs ∧ Forall (λ rec, g rec ∈ ms) recs
    | Err _ => True
    end.
Proof.
  intros Hf. revert w. induction recs as [|rec recs IH]; intros w; simpl.
  - split_and!; [done|lia|]. exists []. by rewrite app_nil_r.
  - unfold mbind, RM_bind, rwrap. pose proof (Hf rec w) as Hrec.
    destruct (f rec w) as [[[]|e] w1]; destruct Hrec as (Hd & Ht & ms & Hb & Hms & Hin).
    2:{ split_and!; [done|done|]. exists ms. split_and!; [done| |done].
        eapply Forall_impl; [exact Hms|]. intros ? <-. left. }
    assert (Forall (λ m, m ∈ map g (rec :: recs)) ms) as Hms1
      by (eapply Forall_impl; [exact Hms|]; intros ? <-; left).
    specialize (IH w1). destruct (publish_all f recs w1) as [r w2].
    destruct IH as (Hd2 & Ht2 & ms2 & Hb2 & Hms2 & Hr2).
    assert (rw_bus w2 = rw_bus w ++ ms ++ ms2) as Hbus by (by rewrite Hb2, Hb, app_assoc).
    assert (Forall (λ m, m ∈ map g (rec :: recs)) (ms ++ ms2)) as Hall.
    { apply Forall_app. split; [done|]. eapply Forall_impl; [exact Hms2|]. by right. }
    destruct r as [ids|e]; simpl; (split; [congruence|]); (split; [lia|]); exists (ms ++ ms2);
      (split; [done|]); (split; [done|]); [|done].
    destruct Hr2 as [-> Hs]. split; [done|]. constructor; [rewrite elem_of_app; auto|].
    eapply Forall_impl; [exact Hs|]. intros. rewrite elem_of_app. auto.
Qed.

Lemma claim_sub lk limit d : claim lk limit d ⊆+ filter unpublished (outbox_events d).
Proof.
  unfold claim. etrans; [apply sublist_submseteq, sublist_take|].
  rewrite merge_sort_Permutation. clear. induction (outbox_events d) as [|r l IH]; [done|].
  rewrite !filter_cons. destruct (decide (claimable lk r)) as [Hc|].
  - rewrite decide_True by apply Hc. by apply submseteq_skip.
  - destruct (decide (unpublished r)); [by apply submseteq_cons|done].
Qed.

Lemma claim_length lk limit d : length (claim lk limit d) ≤ limit.
Proof. unfold claim. rewrite length_take. lia. Qed.

Lemma mapM_parse_ids rows : mapM uuid_Parse (map rec_ID (map to_record rows)) = Some (outbox_ids rows).
Proof.
  induction rows as [|r rows IH]; [done|]. cbn [map mapM]. unfold mapM in *. simpl.
  rewrite uuid_Parse_String. simpl. by rewrite IH.
Qed.

Lemma mark_row_nil now_ l : map (mark_row [] now_) l = l.
Proof. induction l as [|r l IH]; simpl; [done|]. rewrite IH. done. Qed.

Lemma set_outbox_id d : set_outbox d (outbox_events d) = d.
Proof. by destruct d. Qed.

(** A batch that marked nothing. *)
Lemma batch_nothing limit g w r w' ms :
  rw_db w' = rw_db w → rw_bus w' = rw_bus w ++ ms → rw_tick w ≤ rw_tick w' →
  Forall (λ m, ∃ row, row ∈ outbox_events (rw_db w) ∧ m = g (to_record row)) ms →
  match r with Ok n => n = 0 | Err _ => True end →
  batch_effect limit g w r w' [] 0 ms.
Proof.
  intros Hd Hb Ht Hm Hr. constructor; try done.
  - by rewrite mark_row_nil, set_outbox_id.
  - apply submseteq_nil_l.
  - simpl. lia.
  - destruct r; auto.
Qed.
End contract.

(** ** The Postgres store implements the contract *)

Section pgstore.
Context `{RelayEnv}.

Lemma rlift_run {A} (m : M A) w Q :
  wp m (rw_world w) Q → let '(r, w') := rlift m w in Q r (rw_world w') ∧ rw_bus w' = rw_bus w.
Proof. unfold wp, rlift. destruct (m (rw_world w)). done. Qed.

(** The claimed rows' messages come from outbox rows. *)
Lemma claimed_msgs (g : OutboxRecord → Msg) rows d ms :
  rows ⊆+ filter unpublished (outbox_events d) → Forall (λ m, m ∈ map g (map to_record rows)) ms →
  Forall (λ m, ∃ row, row ∈ outbox_events d ∧ m = g (to_record row)) ms.
Proof.
  intros Hsub Hms. eapply Forall_impl; [exact Hms|]. intros m Hm. simpl in Hm.
  rewrite map_map in Hm. apply list_elem_of_In, in_map_iff in Hm as (row & <- & Hrow).
  apply list_elem_of_In in Hrow. pose proof (elem_of_submseteq _ _ _ Hrow Hsub) as Hin.
  apply list_elem_of_filter in Hin as [_ Hin]. eauto.
Qed.

Lemma claim_body_spec limit f g w : publishes f g →
  let '(r, w') := claim_body limit f w in
  rw_tick w ≤ rw_tick w' ∧
  ∃ rows ms, rows ⊆+ filter unpublished (outbox_events (rw_db w)) ∧ length rows ≤ limit ∧
    rw_bus w' = rw_bus w ++ ms ∧ Forall (λ m, m ∈ map g (map to_record rows)) ms ∧
    match r with
    | Ok None => True
    | Ok (Some n) => n = length rows ∧ Forall (λ row, g (to_record row) ∈ ms) rows ∧
        rw_db w' = set_outbox (rw_db w)
          (map (mark_row (outbox_ids rows) (w_tx_now (rw_world w'))) (outbox_events (rw_db w)))
    | Err _ => True
    end.
Proof.
  intros Hf. unfold claim_body. unfold mbind at 1, RM_bind at 1.
  pose proof (rlift_run _ w _ (wp_select_batch limit (rw_world w))) as Hs.
  destruct (rlift (select_batch limit) w) as [[recs|e] w1]; destruct Hs as ((Hd & Ht & Hr) & Hb).
  2:{ split; [done|]. exists [], []. split_and!; [apply submseteq_nil_l|simpl; lia|by rewrite app_nil_r|done|done]. }
  destruct (decide (recs = [])) as [->|_].
  { split; [done|]. exists [], []. split_and!; [apply submseteq_nil_l|simpl; lia|by rewrite app_nil_r|done|done]. }
  set (rows := claim (locked (w_tick (rw_world w))) limit (w_db (rw_world w))) in Hr. subst recs.
  assert (rows ⊆+ filter unpublished (outbox_events (rw_db w)) ∧ length rows ≤ limit) as [Hsub Hlen]
    by (split; [apply claim_sub|apply claim_length]). clearbody rows.
  unfold mbind at 1, RM_bind at 1. pose proof (publish_all_spec f g (map to_record rows) w1 Hf) as Hp.
  destruct (publish_all f (map to_record rows) w1) as [[ids|e] w2];
    destruct Hp as (Hd2 & Ht2 & ms & Hb2 & Hms & Hr2); rewrite Hb in Hb2.
  2:{ split; [unfold rw_tick in *; lia|]. exists rows, ms. done. }
  destruct Hr2 as [-> Hsent]. unfold mbind, RM_bind, rwrap, rlift, stmt.
  destruct (fault _); simpl.
  { split; [unfold rw_tick in *; simpl; lia|]. exists rows, ms. done. }
  unfold mark_published. rewrite mapM_parse_ids. simpl.
  split; [unfold rw_tick in *; simpl; lia|]. exists rows, ms. rewrite length_map.
  split_and!; try done.
  - rewrite Forall_map in Hsent. exact Hsent.
  - unfold rw_db in *. simpl in *. by rewrite Hd2, Hd.
Qed.

Lemma pg_claim_effect limit f g w : publishes f g →
  let '(r, w') := PgStore_ClaimBatch limit f w in ∃ rows now_ ms, batch_effect limit g w r w' rows now_ ms.
Proof.
  intros Hf. unfold PgStore_ClaimBatch. unfold rwrap at 1, rlift at 1, Begin.
  destruct (fault _) as [e|]; cbn [fst snd].
  { exists [], 0%Z, []. apply batch_nothing; simpl; rewrite ?app_nil_r; unfold rw_tick; simpl; auto with lia. }
  match goal with |- context [claim_body limit f ?w1] => set (w1' := w1) end.
  assert (rw_db w1' = rw_db w ∧ rw_bus w1' = rw_bus w ∧ rw_tick w ≤ rw_tick w1') as (Hd1 & Hb1 & Ht1)
    by (unfold rw_tick; simpl; auto).
  clearbody w1'. pose proof (claim_body_spec limit f g w1' Hf) as Hc.
  destruct (claim_body limit f w1') as [[[n|]|e] w2];
    destruct Hc as (Ht & rows & ms & Hsub & Hlen & Hb & Hms & Hr); rewrite Hd1, Hb1 in *;
    apply (claimed_msgs g rows (rw_db w) ms Hsub) in Hms as Hmsg.
  2,3: exists [], 0%Z, ms; apply batch_nothing; try done; unfold rw_tick in *; simpl; lia.
  destruct Hr as (-> & Hsent & Hd). unfold rwrap, rlift, Commit.
  destruct (commit _) as [|e|e]; simpl.
  - exists rows, (w_tx_now (rw_world w2)), ms. constructor; try done. unfold rw_tick in *; simpl; lia.
  - exists [], 0%Z, ms. apply batch_nothing; try done; unfold rw_tick in *; simpl; lia.
  - exists rows, (w_tx_now (rw_world w2)), ms. constructor; try done; [unfold rw_tick in *; simpl; lia|eauto].
Qed.

Lemma pg_claim_contract limit f g w : publishes f g →
  ∃ rows now_ ms,
    batch_effect limit g w (PgStore_ClaimBatch limit f w).1 (PgStore_ClaimBatch limit f w).2 rows now_ ms.
Proof.
  intros Hf. pose proof (pg_claim_effect limit f g w Hf) as Hc. by destruct (PgStore_ClaimBatch limit f w).
Qed.

#[global] Instance PgStore : OutboxStore :=
  {| ClaimBatch := PgStore_ClaimBatch; claim_contract limit f g w Hf _ := pg_claim_contract limit f g w Hf |}.
End pgstore.

(** ** The loop *)

Record Relay := mkRelay { rl_prefix : string; rl_batch : Z; rl_interval : Z }.

(** [relay.New] *)
Definition NewRelay (subjectPrefix : string) (batch interval : Z) : Relay :=
  let batch := if (batch <=? 0)%Z then 100%Z else batch in
  let interval := if (interval <=? 0)%Z then 1000000000%Z else interval in
  mkRelay subjectPrefix batch interval.

Definition subjectFor (r : Relay) (rec : OutboxRecord) : string :=
  rl_prefix r +:+ "." +:+ rec_EventType rec.

Section drain.
Context `{RelayEnv} {store : OutboxStore}.

Definition publish_record (r : Relay) (rec : OutboxRecord) : RM unit :=
  Publish (subjectFor r rec) (rec_ID rec) (rec_Payload rec).

(** [DrainOnce] with the iterations bounded by [fuel]; [None] is out of fuel. *)
Fixpoint drain (fuel : nat) (r : Relay) (total : nat) (w : RWorld)
    : option (nat * option goerror) * RWorld :=
  match fuel with
  | 0 => (None, w)
  | S fuel' =>
    match ClaimBatch (Z.to_nat (rl_batch r)) (publish_record r) (others w) with
    | (Err e, w1) => (Some (total, Some e), w1)
    | (Ok n, w1) =>
      if (Z.of_nat n <? rl_batch r)%Z then (Some (total + n, None), w1)
      else drain fuel' r (total + n) w1
    end
  end.
Definition DrainOnce (fuel : nat) (r : Relay) (w : RWorld) := drain fuel r 0 w.

(** [Run] for a number of ticks: an error is logged, and the next tick tries again. *)
Fixpoint Run (ticks fuel : nat) (r : Relay) (w : RWorld) : RWorld :=
  match ticks with
  | 0 => w
  | S ticks' => Run ticks' fuel r (DrainOnce fuel r w).2
  end.

(** The message of an outbox row. *)
Definition message (r : Relay) (rec : OutboxRecord) : Msg :=
  mkMsg (subjectFor r rec) (rec_ID rec) (rec_Payload rec).

Lemma publish_record_publishes r : publishes (publish_record r) (message r).
Proof.
  intros rec w. unfold publish_record, Publish.
  destruct (publish_result (rw_tick w)); simpl; unfold rw_tick; simpl; split_and!; try lia; try done.
  - exists [message r rec]. split_and!; [done|by repeat constructor|]. intros _. by left.
  - exists []. by rewrite app_nil_r.
  - exists [message r rec]. split_and!; [done|by repeat constructor|done].
Qed.

Definition sent (r : Relay) (w : RWorld) (row : OutboxRow) : Prop := message r (to_record row) ∈ rw_bus w.

(** The state of the relay: keys are unique, a published row has its message on the
    bus, and the bus holds only messages of outbox rows. *)
Record relay_inv (r : Relay) (w : RWorld) : Prop := {
  ri_ids : NoDup (outbox_ids (outbox_events (rw_db w)));
  ri_published row : row ∈ outbox_events (rw_db w) → ¬ unpublished row → sent r w row;
  ri_bus m : m ∈ rw_bus w → ∃ row, row ∈ outbox_events (rw_db w) ∧ m = message r (to_record row)
}.

(** [row'] is [row], possibly marked. *)
Definition kept (row row' : OutboxRow) : Prop :=
  row' = row ∨ (unpublished row ∧ ∃ t, row' = mark_row [ob_id row] t row).

(** The outbox of [w'] is that of [w] with some rows marked and some added. *)
Definition grown (w w' : RWorld) : Prop :=
  ∃ l new, outbox_events (rw_db w') = l ++ new ∧ Forall2 kept (outbox_events (rw_db w)) l.

Definition pending (w : RWorld) : list OutboxRow := filter unpublished (outbox_events (rw_db w)).
End drain.

Section drain_facts.
Context `{RelayEnv}.

Lemma mark_row_id us t r : ob_id (mark_row us t r) = ob_id r.
Proof. unfold mark_row. by case_decide. Qed.
Lemma mark_row_record us t r : to_record (mark_row us t r) = to_record r.
Proof. unfold mark_row. by case_decide. Qed.
Lemma mark_row_ids us t l : outbox_ids (map (mark_row us t) l) = outbox_ids l.
Proof. unfold outbox_ids. rewrite map_map. apply map_ext, mark_row_id. Qed.

Lemma outbox_ids_inj l r1 r2 :
  NoDup (outbox_ids l) → r1 ∈ l → r2 ∈ l → ob_id r1 = ob_id r2 → r1 = r2.
Proof.
  induction l as [|r l IH]; simpl; [by rewrite elem_of_nil|].
  rewrite NoDup_cons, !elem_of_cons. intros [Hr Hl] H1 H2 E.
  assert (∀ x, x ∈ l → ob_id x ∈ outbox_ids l) as Hin.
  { intros x Hx. apply list_elem_of_In, in_map, list_elem_of_In, Hx. }
  destruct H1 as [->|H1], H2 as [->|H2]; [done| | |by apply IH].
  - apply Hin in H2. congruence.
  - apply Hin in H1. congruence.
Qed.

Lemma in_outbox_ids u l : u ∈ outbox_ids l ↔ ∃ r, r ∈ l ∧ ob_id r = u.
Proof.
  unfold outbox_ids. rewrite list_elem_of_In, in_map_iff. setoid_rewrite list_elem_of_In. naive_solver.
Qed.

(** A row whose key is among the claimed ones is one of the claimed rows. *)
Lemma claimed_row l rows row :
  NoDup (outbox_ids l) → rows ⊆+ filter unpublished l → row ∈ l → ob_id row ∈ outbox_ids rows →
  row ∈ rows ∧ unpublished row.
Proof.
  intros Hnd Hsub Hrow (r & Hr & Hid)%in_outbox_ids.
  pose proof (elem_of_submseteq _ _ _ Hr Hsub) as [Hu Hl]%list_elem_of_filter.
  by rewrite <- (outbox_ids_inj l r row).
Qed.

Lemma kept_mark us t l rows :
  NoDup (outbox_ids l) → rows ⊆+ filter unpublished l → us = outbox_ids rows →
  Forall2 kept l (map (mark_row us t) l).
Proof.
  intros Hnd Hsub ->. apply Forall2_fmap_r, Forall_Forall2_diag, Forall_forall.
  intros row Hrow. unfold compose, mark_row. case_decide as Hin; [|by left].
  right. split; [by eapply claimed_row|]. exists t. unfold mark_row.
  by rewrite decide_True by (by left).
Qed.

Lemma kept_trans r1 r2 r3 : kept r1 r2 → kept r2 r3 → kept r1 r3.
Proof.
  intros [->|(Hu & t & ->)]; [done|]. intros [->|(Hu2 & _)]; [right; eauto|].
  unfold unpublished, mark_row in Hu2. rewrite decide_True in Hu2 by (by left). done.
Qed.

#[global] Instance grown_preorder : PreOrder grown.
Proof.
  split.
  - intros w. exists (outbox_events (rw_db w)), []. rewrite app_nil_r. split; [done|].
    apply Forall_Forall2_diag, Forall_true. by left.
  - intros w1 w2 w3 (l1 & n1 & E1 & F1) (l2 & n2 & E2 & F2). rewrite E1 in F2.
    apply Forall2_app_inv_l in F2 as (k1 & k2 & F2 & F3 & ->).
    exists k1, (k2 ++ n2). rewrite E2, app_assoc. split; [done|].
    eapply Forall2_trans; [exact kept_trans|exact F1|exact F2].
Qed.

Lemma others_grown w : grown w (others w).
Proof.
  exists (outbox_events (rw_db w)), (arrivals (rw_tick w) (rw_db w)). split; [done|].
  apply Forall_Forall2_diag, Forall_true. by left.
Qed.

Lemma others_inv r w : relay_inv r w → relay_inv r (others w).
Proof.
  intros [Hnd Hpub Hbus]. constructor; simpl.
  - by apply arrivals_fresh.
  - intros row [Hrow|Hrow]%elem_of_app Hp; [by apply Hpub|].
    pose proof (arrivals_unpublished (rw_tick w) (rw_db w)) as Hu. rewrite Forall_forall in Hu.
    by destruct (Hp (Hu row Hrow)).
  - intros m (row & Hrow & ->)%Hbus. exists row. rewrite elem_of_app. auto.
Qed.

Lemma batch_grown limit g w res w' rows t ms :
  NoDup (outbox_ids (outbox_events (rw_db w))) → batch_effect limit g w res w' rows t ms → grown w w'.
Proof.
  intros Hnd []. exists (map (mark_row (outbox_ids rows) t) (outbox_events (rw_db w))), [].
  rewrite app_nil_r, be_db0. split; [done|]. by eapply kept_mark.
Qed.

Lemma batch_inv limit r w res w' rows t ms :
  relay_inv r w → batch_effect limit (message r) w res w' rows t ms → relay_inv r w'.
Proof.
  intros [Hnd Hpub Hbus] [Hd Hb _ Hsub _ Hms Hsent _].
  assert (∀ row, message r (to_record (mark_row (outbox_ids rows) t row)) = message r (to_record row)) as Hm
    by (intros; by rewrite mark_row_record).
  constructor; rewrite Hd; simpl.
  - by rewrite mark_row_ids.
  - intros row Hrow Hp. apply list_elem_of_In, in_map_iff in Hrow as (row0 & <- & Hrow0%list_elem_of_In).
    unfold sent. rewrite Hm, Hb, elem_of_app.
    destruct (decide (ob_id row0 ∈ outbox_ids rows)) as [Hin|Hin].
    + right. rewrite Forall_forall in Hsent. apply Hsent. by eapply claimed_row.
    + left. apply Hpub; [done|]. unfold mark_row in Hp. by rewrite decide_False in Hp.
  - intros m. rewrite Hb, elem_of_app. rewrite Forall_forall in Hms.
    intros Hin. assert (∃ row, row ∈ outbox_events (rw_db w) ∧ m = message r (to_record row)) as (row & Hrow & ->)
      by (destruct Hin; auto).
    exists (mark_row (outbox_ids rows) t row). rewrite Hm. split; [|done].
    by apply list_elem_of_In, in_map, list_elem_of_In.
Qed.

Lemma mark_row_unpublished us t r : unpublished (mark_row us t r) ↔ unpublished r ∧ ob_id r ∉ us.
Proof. unfold mark_row. case_decide; unfold unpublished; simpl; naive_solver. Qed.
Lemma mark_row_other us t r : ob_id r ∉ us → mark_row us t r = r.
Proof. intros. unfold mark_row. by rewrite decide_False. Qed.

Lemma unpublished_mark us t l :
  filter unpublished (map (mark_row us t) l) = filter (λ r, ob_id r ∉ us) (filter unpublished l).
Proof.
  induction l as [|r l IH]; [done|]. cbn [map]. rewrite !filter_cons, IH.
  pose proof (mark_row_unpublished us t r) as Hm.
  destruct (decide (unpublished (mark_row us t r))) as [Hu|Hu].
  - apply Hm in Hu as [Hu Hid]. by rewrite mark_row_other, decide_True, filter_cons_True.
  - destruct (decide (unpublished r)) as [Hr|]; [|done]. by rewrite filter_cons_False by tauto.
Qed.

Lemma NoDup_ids_filter (P : OutboxRow → Prop) `{!∀ r, Decision (P r)} l :
  NoDup (outbox_ids l) → NoDup (outbox_ids (filter P l)).
Proof. intros Hl. eapply sublist_NoDup; [exact Hl|]. apply (fmap_sublist ob_id), sublist_filter. Qed.

(** Removing the claimed keys leaves exactly the rows that were not claimed. *)
Lemma filter_claimed rows rest l :
  NoDup (outbox_ids l) → l ≡ₚ rows ++ rest → filter (λ r, ob_id r ∉ outbox_ids rows) l ≡ₚ rest.
Proof.
  intros Hnd Hp. rewrite Hp. unfold outbox_ids in Hnd. rewrite Hp, map_app in Hnd.
  apply NoDup_app in Hnd as (_ & Hdisj & _). rewrite filter_app.
  assert (filter (λ r, ob_id r ∉ outbox_ids rows) rows = []) as ->.
  { apply filter_none, Forall_forall. intros r Hr Hn. apply Hn, in_outbox_ids. eauto. }
  simpl. assert (filter (λ r, ob_id r ∉ outbox_ids rows) rest = rest) as ->; [|done].
  apply filter_all, Forall_forall. intros r Hr Hin. apply (Hdisj _ Hin), in_outbox_ids. eauto.
Qed.

Lemma batch_pending limit g w res w' rows t ms :
  NoDup (outbox_ids (outbox_events (rw_db w))) → batch_effect limit g w res w' rows t ms →
  length (pending w') + length rows = length (pending w).
Proof.
  intros Hnd [Hd _ _ Hsub _ _ _ _]. unfold pending. rewrite Hd. simpl. rewrite unpublished_mark.
  apply submseteq_Permutation in Hsub as (rest & Hp).
  rewrite (filter_claimed rows rest) by (done || by apply NoDup_ids_filter).
  rewrite Hp, length_app. lia.
Qed.
End drain_facts.

Section loop_facts.
Context `{RelayEnv} {store : OutboxStore}.

(** One turn of the loop: the arrivals, then a batch under the contract. *)
Lemma turn r w :
  relay_inv r w →
  ∃ rows t ms, let res := ClaimBatch (Z.to_nat (rl_batch r)) (publish_record r) (others w) in
    batch_effect (Z.to_nat (rl_batch r)) (message r) (others w) res.1 res.2 rows t ms ∧
    relay_inv r res.2 ∧ grown w res.2 ∧ length (pending res.2) + length rows = length (pending (others w)) ∧
    rw_tick w < rw_tick res.2.
Proof.
  intros Hinv. apply others_inv in Hinv as Ho. pose proof (ri_ids _ _ Ho) as Hnd.
  destruct (claim_contract (Z.to_nat (rl_batch r)) (publish_record r) (message r) (others w)
              (publish_record_publishes r) Hnd) as (rows & t & ms & Hb).
  exists rows, t, ms. simpl. split_and!; [done|by eapply batch_inv| |by eapply batch_pending|].
  - etrans; [apply others_grown|by eapply batch_grown].
  - pose proof (be_tick _ _ _ _ _ _ _ _ Hb). unfold rw_tick in *. simpl in *. lia.
Qed.

Lemma drain_inv fuel r total w :
  relay_inv r w → relay_inv r (drain fuel r total w).2 ∧ grown w (drain fuel r total w).2.
Proof.
  revert total w. induction fuel as [|fuel IH]; intros total w Hinv; simpl; [done|].
  destruct (turn r w Hinv) as (rows & t & ms & _ & Hinv' & Hg & _). simpl in *.
  destruct (ClaimBatch _ _ _) as [[n|e] w1]; simpl in *; [|done].
  case_match; simpl; [done|]. destruct (IH (total + n) w1 Hinv'). split; [done|by etrans].
Qed.

Lemma run_inv ticks fuel r w : relay_inv r w → relay_inv r (Run ticks fuel r w) ∧ grown w (Run ticks fuel r w).
Proof.
  revert w. induction ticks as [|ticks IH]; intros w Hinv; simpl; [done|].
  destruct (drain_inv fuel r 0 w Hinv) as [Hi Hg]. destruct (IH _ Hi). split; [done|by etrans].
Qed.

(** Without arrivals every full batch shortens the backlog. *)
Lemma drain_finishes r p total w :
  (0 < rl_batch r)%Z → relay_inv r w → (∀ t d, rw_tick w ≤ t → arrivals t d = []) →
  length (pending w) ≤ p → is_Some (drain (S p) r total w).1.
Proof.
  intros Hb. revert total w. induction p as [|p IH]; intros total w Hinv Harr Hp; cbn [drain];
    destruct (turn r w Hinv) as (rows & t & ms & Hbe & Hinv' & _ & Hlen & Htick); simpl in *;
    assert (pending (others w) = pending w) as Hpo
      by (unfold pending, others, rw_db; simpl; by rewrite Harr, app_nil_r);
    rewrite Hpo in Hlen; pose proof (be_result _ _ _ _ _ _ _ _ Hbe) as Hres;
    destruct (ClaimBatch _ _ _) as [[n|e] w1]; simpl in *; try (by eexists);
    destruct (Z.ltb_spec (Z.of_nat n) (rl_batch r)); try (by eexists).
  - lia.
  - apply IH; [done| |lia]. intros t' d Ht'. apply Harr. lia.
Qed.

Lemma drain_stops r N total w :
  (0 < rl_batch r)%Z → relay_inv r w → (∀ t d, N ≤ t → arrivals t d = []) →
  ∃ fuel, is_Some (drain fuel r total w).1.
Proof.
  intros Hb Hinv Harr.
  remember (N - rw_tick w) as k eqn:Hk. revert total w Hinv Hk.
  induction k as [k IH] using lt_wf_ind; intros total w Hinv Hk.
  destruct (decide (N ≤ rw_tick w)) as [Hle|Hgt].
  { exists (S (length (pending w))). apply drain_finishes; try done. intros t d Ht. apply Harr. lia. }
  destruct (turn r w Hinv) as (rows & t & ms & _ & Hinv' & _ & _ & Htick). simpl in *.
  destruct (ClaimBatch _ _ _) as [[n|e] w1] eqn:Ec; simpl in *.
  2:{ exists 1. simpl. by rewrite Ec. }
  destruct (Z.ltb_spec (Z.of_nat n) (rl_batch r)) as [Hlt|Hge].
  { exists 1. simpl. rewrite Ec. rewrite (proj2 (Z.ltb_lt _ _) Hlt). by eexists. }
  destruct (IH (N - rw_tick w1)) with (total := total + n) (w := w1) as [fuel Hfuel]; [lia|done|done|].
  exists (S fuel). simpl. rewrite Ec. by rewrite (proj2 (Z.ltb_ge _ _) Hge).
Qed.
End loop_facts.

(** ** Properties of the loop, for every store that keeps the contract *)

Section loop_properties.
Context `{RelayEnv} {store : OutboxStore}.

(** C6: at-least-once delivery.  Under all driver failures, publish failures, commit
    outcomes, locks and concurrent writers, however many ticks the relay runs: a
    row is marked published only if its message is on the bus; and no outbox row
    is lost or altered, except that a pending row may become marked. *)
Theorem relay_at_least_once ticks fuel r w :
  relay_inv r w →
  (∀ row, row ∈ outbox_events (rw_db (Run ticks fuel r w)) → ¬ unpublished row →
     message r (to_record row) ∈ rw_bus (Run ticks fuel r w)) ∧
  grown w (Run ticks fuel r w).
Proof. intros [Hi Hg]%(run_inv ticks fuel). split; [apply Hi|done]. Qed.

(** Deduplication by message identifier is safe: whatever was published twice
    because of a failure is the same message, so a stream that keeps one message
    per identifier keeps every event. *)
Theorem relay_dedup_safe ticks fuel r w m1 m2 :
  relay_inv r w → m1 ∈ rw_bus (Run ticks fuel r w) → m2 ∈ rw_bus (Run ticks fuel r w) →
  msg_ID m1 = msg_ID m2 → m1 = m2.
Proof.
  intros [[Hnd _ Hbus] _]%(run_inv ticks fuel) (r1 & H1 & ->)%Hbus (r2 & H2 & ->)%Hbus E.
  simpl in E. apply uuid_String_inj in E. by rewrite (outbox_ids_inj _ _ _ Hnd H1 H2 E).
Qed.

(** C30: the drain loop terminates: once other transactions stop adding rows it
    returns after finitely many batches, with a count or an error, under all
    failures. *)
Theorem drain_terminates prefix batch interval N w :
  let r := NewRelay prefix batch interval in
  relay_inv r w → (∀ t d, N ≤ t → arrivals t d = []) →
  ∃ fuel res, (DrainOnce fuel r w).1 = Some res.
Proof.
  intros r Hinv Harr. destruct (drain_stops r N 0 w) as (fuel & res & Hres); try done; [|eauto].
  unfold r, NewRelay. simpl. destruct (Z.leb_spec batch 0); lia.
Qed.
End loop_properties.

(** ** The Postgres store without failures *)

Section pg_calm.
Context `{RelayEnv}.

(** Nothing fails, no row is locked, nothing arrives. *)
Record relay_calm : Prop := {
  rc_fault n : fault n = None;
  rc_commit n : commit n = Committed;
  rc_publish n : publish_result n = PubAck;
  rc_locked n u : locked n u = false;
  rc_arrivals t d : arrivals t d = []
}.

Lemma claim_order_trans : Transitive claim_order.
Proof. intros r1 r2 r3. unfold claim_order. lia. Qed.
Lemma claim_order_total : Total claim_order.
Proof. intros r1 r2. unfold claim_order. lia. Qed.

(** The backlog in the order in which it is claimed. *)
Definition backlog (w : RWorld) : list OutboxRow := merge_sort claim_order (pending w).

Lemma backlog_perm w : backlog w ≡ₚ pending w.
Proof. apply merge_sort_Permutation. Qed.

Lemma backlog_sorted w : StronglySorted claim_order (backlog w).
Proof.
  pose proof claim_order_trans. pose proof claim_order_total.
  apply Sorted_StronglySorted; [apply _|]. apply Sorted_merge_sort. apply _.
Qed.

Lemma StronglySorted_app_r {A} (R : A → A → Prop) l1 l2 :
  StronglySorted R (l1 ++ l2) → StronglySorted R l2.
Proof. induction l1; [done|]. inversion 1; auto. Qed.

(** The order is total on rows with distinct keys, so sorting is canonical. *)
Lemma sorted_canonical l1 l2 :
  NoDup (outbox_ids l1) → StronglySorted claim_order l1 → StronglySorted claim_order l2 →
  l1 ≡ₚ l2 → l1 = l2.
Proof.
  intros Hnd H1 H2 Hp. eapply StronglySorted_unique_strong; [|done..].
  intros x y Hx Hy Hxy Hyx. apply (outbox_ids_inj l1); [done|done|by rewrite Hp|].
  apply (inj uuid_num). unfold claim_order in *. lia.
Qed.

(** After a batch is marked, the backlog is what was behind it. *)
Lemma backlog_mark k t w w' :
  NoDup (outbox_ids (outbox_events (rw_db w))) →
  outbox_events (rw_db w') = map (mark_row (outbox_ids (take k (backlog w))) t) (outbox_events (rw_db w)) →
  backlog w' = drop k (backlog w).
Proof.
  intros Hnd Hd. symmetry. pose proof (NoDup_ids_filter unpublished _ Hnd) as Hpn.
  assert (pending w ≡ₚ take k (backlog w) ++ drop k (backlog w)) as Hp
    by (by rewrite take_drop, backlog_perm).
  assert (pending w' ≡ₚ drop k (backlog w)) as Hp'.
  { unfold pending. rewrite Hd, unpublished_mark. by apply filter_claimed. }
  apply sorted_canonical.
  - assert (NoDup (outbox_ids (take k (backlog w) ++ drop k (backlog w)))) as Hall.
    { unfold outbox_ids. rewrite <- Hp. exact Hpn. }
    unfold outbox_ids in *. rewrite map_app in Hall. by apply NoDup_app in Hall as (_ & _ & ?).
  - apply (StronglySorted_app_r _ (take k (backlog w))). rewrite take_drop. apply backlog_sorted.
  - apply backlog_sorted.
  - by rewrite (backlog_perm w').
Qed.

Context (Hcalm : relay_calm).

Lemma driver_calm w : driver w = (Ok tt, tick w).
Proof using Hcalm. unfold driver, query, stmt. rewrite (rc_fault Hcalm). by destruct w. Qed.

Lemma scan_rows_calm rows w :
  ∃ n, scan_rows rows w = (Ok (map to_record rows), mkWorld (w_db w) n (w_tx_now w)).
Proof using Hcalm.
  revert w. induction rows as [|r rows IH]; intros w; simpl; [exists (w_tick w); by destruct w|].
  unfold mbind, M_bind, wrap_err. rewrite driver_calm. destruct (IH (tick w)) as [n ->]. by exists n.
Qed.

Lemma select_batch_calm k w :
  ∃ n, select_batch k w =
    (Ok (map to_record (take k (merge_sort claim_order (filter unpublished (outbox_events (w_db w)))))),
     mkWorld (w_db w) n (w_tx_now w)).
Proof using Hcalm.
  unfold select_batch, claim_rows, mbind, M_bind, wrap_err, query, stmt. rewrite (rc_fault Hcalm). simpl.
  unfold claim. rewrite (list_filter_iff (claimable (locked (w_tick w))) unpublished).
  2:{ intros r. unfold claimable. rewrite (rc_locked Hcalm). tauto. }
  match goal with |- context [scan_rows ?rows ?w1] => destruct (scan_rows_calm rows w1) as [n ->] end.
  rewrite driver_calm. by eexists.
Qed.

Lemma publish_all_calm r recs w :
  ∃ n, publish_all (publish_record r) recs w =
    (Ok (map rec_ID recs),
     mkRWorld (mkWorld (rw_db w) n (w_tx_now (rw_world w))) (rw_bus w ++ map (message r) recs)).
Proof using Hcalm.
  revert w. induction recs as [|rec recs IH]; intros w; simpl.
  { exists (rw_tick w). rewrite app_nil_r. by destruct w as [[] ?]. }
  unfold mbind, RM_bind, rwrap, publish_record at 1, Publish. rewrite (rc_publish Hcalm).
  match goal with |- context [publish_all _ _ ?w1] => destruct (IH w1) as [n ->] end.
  exists n. simpl. by rewrite <- app_assoc.
Qed.

Lemma claim_calm k r w : NoDup (outbox_ids (outbox_events (rw_db w))) →
  ∃ w', PgStore_ClaimBatch k (publish_record r) w = (Ok (length (take k (backlog w))), w') ∧
    backlog w' = drop k (backlog w) ∧ NoDup (outbox_ids (outbox_events (rw_db w'))) ∧
    rw_bus w' = rw_bus w ++ map (λ row, message r (to_record row)) (take k (backlog w)).
Proof using Hcalm.
  intros Hnd. unfold PgStore_ClaimBatch. unfold rwrap at 1, rlift at 1, Begin.
  rewrite (rc_fault Hcalm). unfold claim_body. unfold mbind at 1, RM_bind at 1. unfold rlift at 1.
  match goal with |- context [select_batch k ?w1] => destruct (select_batch_calm k w1) as [n ->] end.
  simpl. change (merge_sort claim_order (filter unpublished (outbox_events (w_db (rw_world w)))))
    with (backlog w). set (rows := take k (backlog w)).
  destruct (decide (map to_record rows = [])) as [E|Hne]; simpl.
  - apply map_eq_nil in E. rewrite E. eexists. split; [reflexivity|]. simpl.
    split_and!; [|done|by rewrite app_nil_r].
    transitivity (backlog w); [done|]. rewrite <- (take_drop k (backlog w)) at 1. fold rows. by rewrite E.
  - unfold mbind, RM_bind.
    match goal with |- context [publish_all _ _ ?w1] =>
      destruct (publish_all_calm r (map to_record rows) w1) as [n' ->] end.
    unfold rwrap at 1, rlift at 1, stmt. rewrite (rc_fault Hcalm). unfold mark_published.
    rewrite mapM_parse_ids. simpl. unfold rwrap, rlift, Commit. rewrite (rc_commit Hcalm). simpl.
    rewrite length_map. eexists. split; [reflexivity|]. simpl. rewrite map_map.
    split_and!; [|by rewrite mark_row_ids|done]. by eapply backlog_mark.
Qed.

Lemma drain_calm r p total w :
  (0 < rl_batch r)%Z → NoDup (outbox_ids (outbox_events (rw_db w))) → length (backlog w) ≤ p →
  ∃ w', drain (S p) r total w = (Some (total + length (backlog w), None), w') ∧
    backlog w' = [] ∧ rw_bus w' = rw_bus w ++ map (λ row, message r (to_record row)) (backlog w).
Proof using Hcalm.
  intros Hb. revert total w. induction p as [p IH] using lt_wf_ind. intros total w Hnd Hp. cbn [drain].
  assert (others w = rtick w) as ->.
  { unfold others. rewrite (rc_arrivals Hcalm), app_nil_r, set_outbox_id. by destruct w as [[] ?]. }
  change (NoDup (outbox_ids (outbox_events (rw_db (rtick w))))) in Hnd.
  destruct (claim_calm (Z.to_nat (rl_batch r)) r (rtick w) Hnd) as (w1 & Hc & Hd & Hnd1 & Hbus).
  change (backlog (rtick w)) with (backlog w) in *. simpl. rewrite Hc.
  destruct (Z.ltb_spec (Z.of_nat (length (take (Z.to_nat (rl_batch r)) (backlog w)))) (rl_batch r)) as [Hlt|Hge];
    rewrite length_take in *.
  - exists w1. rewrite take_ge in Hbus by lia. rewrite drop_ge in Hd by lia.
    split_and!; [|done|done]. repeat f_equal. lia.
  - destruct p as [|p]; [lia|].
    destruct (IH p (ltac:(lia)) (total + Z.to_nat (rl_batch r)) w1) as (w' & Hdr & He & Hbus');
      [done|rewrite Hd, length_drop; lia|].
    exists w'. rewrite Nat.min_l by lia. rewrite Hdr, Hd, length_drop. split_and!; [|done|].
    + by replace (total + Z.to_nat (rl_batch r) + (length (backlog w) - Z.to_nat (rl_batch r)))
        with (total + length (backlog w)) by lia.
    + rewrite Hbus', Hbus, Hd, <- app_assoc, <- map_app, take_drop. done.
Qed.
End pg_calm.

(** ** Properties of the Postgres store *)

Section pg_properties.
Context `{RelayEnv}.

(** A batch that fails marks nothing: whether the claim, a scan, a publish or the
    update fails, the transaction is rolled back and every row stays claimable;
    only a failed commit leaves the outcome to the server, and then the rows it
    may have marked were all published. *)
Theorem failed_batch_keeps_rows limit r w e w' :
  PgStore_ClaimBatch limit (publish_record r) w = (Err e, w') →
  rw_db w' = rw_db w ∨
  ((∃ e0, e = EWrap "commit" e0) ∧
   ∃ rows t, rw_db w' = set_outbox (rw_db w) (map (mark_row (outbox_ids rows) t) (outbox_events (rw_db w))) ∧
     Forall (λ row, message r (to_record row) ∈ rw_bus w') rows).
Proof.
  intros Hc. pose proof (pg_claim_effect limit _ _ w (publish_record_publishes r)) as Hb.
  rewrite Hc in Hb. destruct Hb as (rows & t & ms & [Hd Hbus _ _ _ _ Hsent Hres]). destruct Hres as [->|He].
  - left. rewrite Hd. simpl. by rewrite mark_row_nil, set_outbox_id.
  - right. split; [done|]. exists rows, t. split; [done|]. eapply Forall_impl; [exact Hsent|].
    intros row Hrow. rewrite Hbus, elem_of_app. by right.
Qed.

(** When nothing fails, [DrainOnce] publishes the whole backlog: one message per
    pending row, in the order of creation time and identifier across the batches,
    for every batch size; it returns their number and leaves no row pending. *)
Theorem drain_publishes_backlog prefix batch interval w :
  let r := NewRelay prefix batch interval in
  relay_calm → NoDup (outbox_ids (outbox_events (rw_db w))) →
  ∃ w', DrainOnce (S (length (pending w))) r w = (Some (length (pending w), None), w') ∧
    pending w' = [] ∧
    rw_bus w' = rw_bus w ++ map (λ row, message r (to_record row)) (backlog w).
Proof.
  intros r Hcalm Hnd. assert (length (backlog w) = length (pending w)) as Hlen by (by rewrite backlog_perm).
  destruct (drain_calm Hcalm r (length (pending w)) 0 w) as (w' & Hd & Hb & Hbus); [|done|lia|].
  - unfold r, NewRelay. simpl. destruct (Z.leb_spec batch 0); lia.
  - exists w'. rewrite <- Hlen at 2. split_and!; [done| |done].
    apply Permutation_nil_r. by rewrite <- Hb, backlog_perm.
Qed.
End pg_properties.

(** ** Witnesses *)

#[local] Existing Instance demo_uuid.

#[local] Lemma no_arrivals_fresh (d : Database) :
  NoDup (outbox_ids (outbox_events d)) → NoDup (outbox_ids (outbox_events d ++ [])).
Proof. by rewrite app_nil_r. Qed.

#[local] Definition demo_relay_env (pub : nat → publish_outcome) : @RelayEnv demo_uuid :=
  {| relay_env := calm_env; publish_result := pub; locked _ _ := false;
     jsonb_text j := match j with JStr s => s | _ => "{}" end;
     arrivals _ _ := []; arrivals_fresh _ d := no_arrivals_fresh d;
     arrivals_unpublished _ _ := Forall_nil_2 _ |}.

#[local] Definition demo_row (i : string) (created : Z) : OutboxRow :=
  mkOutboxRow (i : @uuid demo_uuid) ("s" : @uuid demo_uuid) "catalog.service.retired" (JStr i) created None created.
#[local] Definition demo_world : RWorld :=
  mkRWorld (mkWorld (set_outbox empty_db [demo_row "a" 3; demo_row "b" 1; demo_row "c" 2]) 0 0) [].

#[local] Lemma demo_nodup : NoDup (outbox_ids (outbox_events (rw_db demo_world))).
Proof. apply (bool_decide_unpack _). vm_compute. exact I. Qed.

#[local] Lemma demo_inv env r : @relay_inv _ env r demo_world.
Proof.
  constructor; [exact demo_nodup| |].
  - intros row Hrow Hp. destruct Hp. revert row Hrow. apply Forall_forall. by repeat constructor.
  - intros m. by rewrite elem_of_nil.
Qed.

(** Publishing fails at every fifth call. *)
#[local] Definition flaky (n : nat) : publish_outcome :=
  if n mod 5 =? 0 then PubUnknown (EOther "timeout") else PubAck.
#[local] Definition demo_relay := NewRelay "forge.events" 2 0.

Lemma relay_at_least_once_witness :
  let env := demo_relay_env flaky in
  let w' := Run 3 10 demo_relay demo_world in
  length (filter (λ r, ¬ unpublished r) (outbox_events (rw_db w'))) = 3 ∧
  (∀ row, row ∈ outbox_events (rw_db w') → ¬ unpublished row →
     message demo_relay (to_record row) ∈ rw_bus w').
Proof.
  split; [vm_compute; reflexivity|].
  apply (@relay_at_least_once _ (demo_relay_env flaky) _ 3 10 demo_relay demo_world). apply demo_inv.
Defined.

Lemma relay_dedup_safe_witness :
  let env := demo_relay_env flaky in
  ∃ m1 m2, rw_bus (Run 3 10 demo_relay demo_world) !! 2 = Some m1 ∧
           rw_bus (Run 3 10 demo_relay demo_world) !! 3 = Some m2 ∧ m1 = m2.
Proof.
  intros env. eexists _, _. split; [vm_compute; reflexivity|]. split; [vm_compute; reflexivity|].
  apply (relay_dedup_safe 3 10 demo_relay demo_world); [apply demo_inv| | |reflexivity].
  - apply (list_elem_of_lookup_2 _ 2). vm_compute. reflexivity.
  - apply (list_elem_of_lookup_2 _ 3). vm_compute. reflexivity.
Defined.

Lemma drain_terminates_witness :
  let env := demo_relay_env flaky in
  ∃ fuel res, (DrainOnce fuel demo_relay demo_world).1 = Some res.
Proof.
  intros env. apply (drain_terminates "forge.events" 2 0 0 demo_world); [apply demo_inv|reflexivity].
Defined.

Lemma failed_batch_keeps_rows_witness :
  let env := demo_relay_env (λ _, PubRefused (EOther "no responders")) in
  ∃ e w', PgStore_ClaimBatch 2 (publish_record demo_relay) demo_world = (Err e, w') ∧
    (rw_db w' = rw_db demo_world ∨
     ((∃ e0, e = EWrap "commit" e0) ∧
      ∃ rows t, rw_db w' = set_outbox (rw_db demo_world)
          (map (mark_row (outbox_ids rows) t) (outbox_events (rw_db demo_world))) ∧
        Forall (λ row, message demo_relay (to_record row) ∈ rw_bus w') rows)).
Proof.
  intros env. eexists _, _. split; [vm_compute; reflexivity|].
  apply (failed_batch_keeps_rows 2 demo_relay demo_world). vm_compute. reflexivity.
Defined.

Lemma drain_publishes_backlog_witness :
  let env := demo_relay_env (λ _, PubAck) in
  ∃ w', DrainOnce 4 demo_relay demo_world = (Some (3, None), w') ∧
    map msg_ID (rw_bus w') = ["ub"; "uc"; "ua"].
Proof.
  intros env.
  destruct (drain_publishes_backlog "forge.events" 2 0 demo_world) as (w' & Hd & _ & Hb);
    [by constructor|exact demo_nodup|].
  exists w'. split; [exact Hd|]. rewrite Hb. vm_compute. reflexivity.
Defined.
