(* ===== verification/Interleave.v ===== *)
(** * Interleaved transactions

    Both data modules run their commands the same way: a transaction first reads (the
    aggregate it changes, the name or slug it wants to take), other transactions
    commit, then it writes under a guard and commits.  A [Workload] is what such a
    module promises; any workload that keeps its promises is serializable, as long as its
    clients make admissible requests.
    The writing half is one step, because the UPDATE locks its row and the INSERT
    its unique keys until the commit; the reading half is another.  Meanwhile the relay
    marks outbox rows as published, at any time. *)
From S2P Require Import Prelude Apperr Uuid Postgres Relay.

(** ** The two steps of a transaction *)

Section split.
Context `{Env}.

(** The start of [Execute] with the first part of its unit of work. *)
Definition start {A} (m : M A) : M A := _ ← wrap_err "begin tx" Begin; m.

(** The end of [Execute], for a unit of work whose last part starts on the
    committed database [before]. *)
Definition finish {A} (before : Database) (m : M A) : M A := λ w,
  match m w with
  | (Err e, w2) => (Err e, set_db w2 before)
  | (Ok a, w2) =>
    match wrap_err "commit tx" (Commit before) w2 with
    | (Err e, w3) => (Err e, w3)
    | (Ok _, w3) => (Ok a, w3)
    end
  end.

(** Uninterrupted, the steps are the transaction. *)
Lemma Execute_split {A B} (m1 : M A) (m2 : A → M B) w :
  Execute (m1 ≫= m2) w =
    match start m1 w with
    | (Err e, w1) => (Err e, set_db w1 (w_db w))
    | (Ok a, w1) => finish (w_db w) (m2 a) w1
    end.
Proof.
  unfold Execute, start, finish, mbind, M_bind, wrap_err, Begin.
  destruct (fault (w_tick w)); [by destruct w|]. by destruct (m1 _) as [[]].
Qed.

Lemma wp_start {A} (m : M A) w (Q : result goerror A → World → Prop) :
  (∀ w1, w_db w1 = w_db w → wp m w1 Q) → (∀ e w1, w_db w1 = w_db w → Q (Err e) w1) → wp (start m) w Q.
Proof.
  unfold wp, start, mbind, M_bind, wrap_err, Begin. intros Hm He.
  destruct (fault (w_tick w)); [by apply He|by apply Hm].
Qed.

Lemma wp_finish {A} (m : M A) w (P : A → Database → Database → Prop) :
  wp m w (λ r w2, match r with Ok a => P a (w_db w) (w_db w2) | Err _ => True end) →
  wp (finish (w_db w) m) w (λ r w', all_or_nothing P (w_db w) r (w_db w')).
Proof.
  unfold wp, finish, wrap_err, Commit. destruct (m w) as [[a|e] w2]; [|by left].
  intros HP. destruct (commit (w_tick w2)) as [|e|e]; simpl; eauto 8.
Qed.

(** A transaction that ends leaves what its last part does, or nothing. *)
Lemma finish_keeps {A} (R : relation Database) `{!PreOrder R} (m : M A) w :
  keeps R m → R (w_db w) (w_db (finish (w_db w) m w).2).
Proof.
  intros Hm. specialize (Hm w). unfold finish, wrap_err, Commit. destruct (m w) as [[a|e] w2]; [|reflexivity].
  destruct (commit (w_tick w2)); simpl in *; [done|reflexivity|done].
Qed.
End split.

(** ** Workloads *)

(** What a module promises about its commands.  [sound n] is its invariant on databases
    in which at most [n] commands have committed; [current q x d]: what the
    reading half of [q] returned still decides correctly what may be
    written on [d]. *)
Class Workload `{Env} := {
  request : Type;
  reading : request → Type;
  answer : Type;
  read_half (q : request) : M (reading q);
  write_half (q : request) : reading q → M answer;
  admissible : request → Database → Prop;
  current (q : request) : reading q → Database → Prop;
  effect : request → answer → Database → Database → Prop;
  sound : nat → Database → Prop;
  sound_empty : sound 0 empty_db;
  sound_mono n m d : n ≤ m → sound n d → sound m d;
  effect_sound n q a d d' : (Z.of_nat (S n) < 2 ^ 63)%Z → sound n d → effect q a d d' → sound (S n) d';
  admissible_stable n q q' a d d' : (Z.of_nat (S n) < 2 ^ 63)%Z → sound n d → effect q' a d d' →
    admissible q d → admissible q d';
  current_stable n q x q' a d d' : (Z.of_nat (S n) < 2 ^ 63)%Z → sound n d → effect q' a d d' →
    current q x d → current q x d';
  read_ok n q w : sound n (w_db w) → admissible q (w_db w) →
    wp (read_half q) w (λ r _, match r with Ok x => current q x (w_db w) | Err _ => True end);
  write_ok n q x w : sound n (w_db w) → current q x (w_db w) →
    wp (write_half q x) w (λ r w', match r with Ok a => effect q a (w_db w) (w_db w') | Err _ => True end);
  marked_sound n d d' : marked d d' → sound n d → sound n d';
  marked_admissible q d d' : marked d d' → admissible q d → admissible q d';
  marked_current q x d d' : marked d d' → current q x d → current q x d'
}.

(** ** Versioned tables *)

(** Both modules guard their rows by a version that grows with every change. *)
Section versioned.
Context `{Env} {row : Type} (table : Database → gmap uuid row) (version stamp : row → Z) (inv : Database → Prop).

(** A row keeps its version and stays the same, or its version grows. *)
Definition evolves (d d' : Database) : Prop :=
  ∀ u r, table d !! u = Some r → ∃ r', table d' !! u = Some r' ∧ (r' = r ∨ version r < version r')%Z.

Lemma evolves_same d d' : table d' = table d → evolves d d'.
Proof. intros E u r Hr. rewrite E. eauto. Qed.

(** An [If-Match] version that the row has had: one taken from an ETag. *)
Definition seen_version (v : Z) (u : uuid) (d : Database) : Prop :=
  (v ≤ 0)%Z ∨ ∃ r, table d !! u = Some r ∧ (v ≤ version r)%Z.
Definition seen_versionb (v : Z) (u : uuid) (d : Database) : bool :=
  (v <=? 0)%Z || match table d !! u with Some r => (v <=? version r)%Z | None => false end.

(** The row [r0] that was loaded is the stored one, or the stored one has a later version. *)
Definition loaded (v : Z) (u : uuid) (r0 : row) (d : Database) : Prop :=
  (v ≤ version r0)%Z ∧ ∃ r, table d !! u = Some r ∧ (r = r0 ∨ version r0 < version r)%Z.

Lemma seen_versionb_true v u d : seen_versionb v u d = true → seen_version v u d.
Proof.
  intros [Hv%Z.leb_le|Hv]%orb_true_iff; [by left|right].
  destruct (table d !! u) as [r|]; [|done]. exists r. split; [done|]. by apply Z.leb_le.
Qed.

Lemma seen_evolves v u d d' : evolves d d' → seen_version v u d → seen_version v u d'.
Proof.
  intros Hev [?|(r & Hr & Hv)]; [by left|]. right. destruct (Hev _ _ Hr) as (r' & Hr' & Hor).
  exists r'. split; [done|]. destruct Hor as [->|?]; lia.
Qed.

Lemma loaded_evolves v u r0 d d' : evolves d d' → loaded v u r0 d → loaded v u r0 d'.
Proof.
  intros Hev [Hv (r & Hr & Hor)]. split; [done|]. destruct (Hev _ _ Hr) as (r' & Hr' & Hor').
  exists r'. split; [done|]. destruct Hor' as [->|Hlt]; [done|]. right. destruct Hor as [->|?]; lia.
Qed.

(** A load sees the stored row, and the version asked for is one it has had. *)
Lemma seen_loaded v u r d :
  table d !! u = Some r → (1 ≤ version r)%Z → seen_version v u d → loaded v u r d.
Proof.
  intros Hr Hpos Hv. split; [|eauto]. destruct Hv as [?|(r' & Hr' & ?)]; [lia|]. rewrite Hr in Hr'. by injection Hr' as <-.
Qed.

(** The guard of the UPDATE: it matches only if nothing happened since the load. *)
Lemma loaded_guard v u r0 d old :
  loaded v u r0 d → table d !! u = Some old → version old = (if (0 <? v)%Z then v else version r0) →
  old = r0 ∧ (0 < v → version old = v)%Z.
Proof.
  intros [Hv (r & Hr & Hor)] Hold Hver. rewrite Hr in Hold. injection Hold as <-.
  destruct (Z.ltb_spec 0 v), Hor as [->|]; split; (done || lia).
Qed.

Lemma evolves_insert d d' u new :
  table d' = <[u := new]> (table d) →
  (∀ old, table d !! u = Some old → new = old ∨ version old < version new)%Z → evolves d d'.
Proof.
  intros Ht Hnew u' r Hr. rewrite Ht. destruct (decide (u = u')) as [<-|].
  - rewrite lookup_insert_eq. eauto.
  - rewrite lookup_insert_ne by done. eauto.
Qed.

(** The invariant [inv] of the module, versions bounded by the number of commits, and
    times as the database keeps them. *)
Record tidy (n : nat) (d : Database) : Prop := {
  tidy_inv : inv d;
  tidy_rows u r : table d !! u = Some r → timestamptz (stamp r) = stamp r ∧ (1 ≤ version r ≤ Z.of_nat n)%Z
}.

Lemma tidy_mono n m d : n ≤ m → tidy n d → tidy m d.
Proof. intros Hle [Hi Hr]. split; [done|]. intros u r Hu. destruct (Hr u r Hu). split; [done|lia]. Qed.

(** The row a command writes is the old one, or a later one. *)
Lemma tidy_insert n d d' u new :
  tidy n d → inv d' → table d' = <[u := new]> (table d) →
  timestamptz (stamp new) = stamp new → (1 ≤ version new ≤ Z.of_nat (S n))%Z →
  (∀ old, table d !! u = Some old → new = old ∨ version old < version new)%Z →
  tidy (S n) d' ∧ evolves d d'.
Proof.
  intros [Hinv Hrows] Hinv' Hd Hround Hver Hnew. split; [|by eapply evolves_insert]. split; [done|]. rewrite Hd. intros u' r.
  destruct (decide (u = u')) as [<-|]; [rewrite lookup_insert_eq; by intros [= <-]|].
  rewrite lookup_insert_ne by done. intros Hr. destruct (Hrows _ _ Hr). split; [done|lia].
Qed.

(** ... and the invariant does not see the rest of the database. *)
Lemma tidy_ext n d d' : table d' = table d → (inv d → inv d') → tidy n d → tidy n d'.
Proof. intros Ht Hi [? Hr]. split; [auto|]. by rewrite Ht. Qed.
End versioned.
#[global] Arguments tidy_inv {_ _ _ _ _ _ _ _ _} _.
#[global] Arguments tidy_rows {_ _ _ _ _ _ _ _ _} _ _ _ _.

(** ** Runs *)

Section runs.
Context `{W : Workload}.

(** A client: it has asked, has read, or was answered. *)
Inductive Client : Type :=
| Requested (q : request)
| Loaded (q : request) (x : reading q)
| Answered (q : request) (r : result goerror answer).

Record Shared := mkShared { sh_db : Database; sh_clients : gmap nat Client }.

Definition answer_read (q : request) (r : result goerror (reading q)) : Client :=
  match r with Ok x => Loaded q x | Err e => Answered q (Err e) end.

(** The steps of the commands, each at any point [n] of the environment and any transaction
    time [t]; fewer than 2^63 requests are made.  [policy] is what is known of the requests that
    clients make; the code itself accepts any. *)
Inductive command_step (policy : request → Database → Prop) : Shared → Shared → Prop :=
| step_request d cs i q :
    cs !! i = None → (Z.of_nat (S (size cs)) < 2 ^ 63)%Z → policy q d →
    command_step policy (mkShared d cs) (mkShared d (<[i := Requested q]> cs))
| step_read d cs i q n t r w' :
    cs !! i = Some (Requested q) → read_half q (mkWorld d n t) = (r, w') →
    command_step policy (mkShared d cs) (mkShared d (<[i := answer_read q r]> cs))
| step_write d cs i q x n t r w' :
    cs !! i = Some (Loaded q x) → finish d (write_half q x) (mkWorld d n t) = (r, w') →
    command_step policy (mkShared d cs) (mkShared (w_db w') (<[i := Answered q r]> cs)).

(** A command goes on, or the relay marks rows. *)
Inductive step (policy : request → Database → Prop) : Shared → Shared → Prop :=
| step_command s s' : command_step policy s s' → step policy s s'
| step_mark d cs d' : marked d d' → step policy (mkShared d cs) (mkShared d' cs).

Inductive reachable (policy : request → Database → Prop) : Shared → Prop :=
| reachable_init : reachable policy (mkShared empty_db ∅)
| reachable_step s s' : reachable policy s → step policy s s' → reachable policy s'.

(** ** Serial histories *)

(** [d] results from the commands of the log, one after the other, and from marks in between. *)
Inductive serial : list (nat * (request * answer)) → Database → Prop :=
| serial_nil : serial [] empty_db
| serial_snoc log d i q a d' : serial log d → effect q a d d' → serial (log ++ [(i, (q, a))]) d'
| serial_mark log d d' : serial log d → marked d d' → serial log d'.

(** The entry is the command of the client: acknowledged with this result, or
    answered by a lost commit. *)
Definition in_doubt (e : goerror) : Prop := ∃ e0, e = EWrap "commit tx" e0.
Definition acknowledged (a : answer) (r : result goerror answer) : Prop :=
  match r with Ok a' => a' = a | Err e => in_doubt e end.
Definition entry_of (e : request * answer) (c : Client) : Prop :=
  match c with Answered q r => q = e.1 ∧ acknowledged e.2 r | _ => False end.

(** [log] is a serial order of commands that explains the database and every answer. *)
Record explains (log : list (nat * (request * answer))) (s : Shared) : Prop := {
  ex_serial : serial log (sh_db s);
  ex_once : NoDup log.*1;
  ex_asked i e : (i, e) ∈ log → ∃ c, sh_clients s !! i = Some c ∧ entry_of e c;
  ex_answered i q a : sh_clients s !! i = Some (Answered q (Ok a)) → (i, (q, a)) ∈ log
}.

(** ** The invariant *)

Definition client_ok (d : Database) (log : list (nat * (request * answer))) (i : nat) (c : Client) : Prop :=
  match c with
  | Requested q => admissible q d
  | Loaded q x => current q x d
  | Answered q (Ok a) => (i, (q, a)) ∈ log
  | _ => True
  end.

Record run_inv (d : Database) (cs : gmap nat Client) (log : list (nat * (request * answer))) : Prop := {
  si_serial : serial log d;
  si_sound : sound (length log) d;
  si_nodup : NoDup log.*1;
  si_log i e : (i, e) ∈ log → ∃ c, cs !! i = Some c ∧ entry_of e c;
  si_clients i c : cs !! i = Some c → client_ok d log i c;
  si_size : (Z.of_nat (size cs) < 2 ^ 63)%Z
}.

Lemma ids_size (cs : gmap nat Client) (l : list nat) :
  NoDup l → (∀ i, i ∈ l → is_Some (cs !! i)) → length l ≤ size cs.
Proof.
  intros Hnd Hin. rewrite <- (size_list_to_set (C := gset nat) l), <- size_dom by done.
  apply subseteq_size. intros i Hi%elem_of_list_to_set. apply elem_of_dom. auto.
Qed.

Lemma logged_client d cs log i : run_inv d cs log → i ∈ log.*1 → is_Some (cs !! i).
Proof.
  intros Hi ([j e] & -> & Hin)%list_elem_of_fmap. destruct (si_log _ _ _ Hi _ _ Hin) as (c & Hc & _).
  simpl. eauto.
Qed.

Lemma log_length_lt d cs log i c :
  run_inv d cs log → cs !! i = Some c → (∀ e, (i, e) ∉ log) → S (length log) ≤ size cs.
Proof.
  intros Hi Hc Hnot. rewrite <- (length_fmap fst log). apply (ids_size _ (i :: log.*1)).
  - constructor; [|apply Hi]. intros ([j e] & E & Hin)%list_elem_of_fmap. simpl in E. subst. by apply (Hnot e).
  - intros j [->|Hj]%elem_of_cons; [eauto|]. by eapply logged_client.
Qed.

(** A client that is not in the log moves on without committing. *)
Lemma run_inv_move d cs log i c :
  run_inv d cs log → (∀ e, (i, e) ∉ log) → (Z.of_nat (size (<[i := c]> cs)) < 2 ^ 63)%Z →
  client_ok d log i c → run_inv d (<[i := c]> cs) log.
Proof.
  intros Hi Hnot Hsize Hc. split; try apply Hi; [|..].
  - intros j e Hin. destruct (si_log _ _ _ Hi _ _ Hin) as (c' & Hc' & He). exists c'. split; [|done].
    rewrite lookup_insert_ne; [done|]. intros ->. by apply (Hnot e).
  - intros j c'. destruct (decide (i = j)) as [<-|]; [rewrite lookup_insert_eq; by intros [= <-]|].
    rewrite lookup_insert_ne by done. apply Hi.
  - done.
Qed.

(** A client that is not in the log commits. *)
Lemma run_inv_commit d cs log i q a r d' :
  run_inv d cs log → (∀ e, (i, e) ∉ log) → (Z.of_nat (size (<[i := Answered q r]> cs)) < 2 ^ 63)%Z →
  (Z.of_nat (S (length log)) < 2 ^ 63)%Z →
  effect q a d d' → acknowledged a r → run_inv d' (<[i := Answered q r]> cs) (log ++ [(i, (q, a))]).
Proof.
  intros Hi Hnot Hsize Hlen Heff Hr. pose proof (si_sound _ _ _ Hi) as Hs. split; [|..|done].
  - econstructor; [apply Hi|done].
  - rewrite length_app. simpl. rewrite Nat.add_1_r. by eapply effect_sound.
  - rewrite fmap_app. apply NoDup_app. split_and!; [apply Hi| |apply NoDup_singleton].
    intros j Hj Hji%list_elem_of_singleton. apply list_elem_of_fmap in Hj as ([j' e'] & Ej & Hj).
    simpl in *. subst. by apply (Hnot e').
  - intros j e' [Hin|[= -> ->]%list_elem_of_singleton]%elem_of_app.
    + destruct (si_log _ _ _ Hi _ _ Hin) as (c' & Hc' & He). exists c'. split; [|done].
      rewrite lookup_insert_ne; [done|]. intros ->. by apply (Hnot e').
    + eexists. by rewrite lookup_insert_eq.
  - intros j c'. destruct (decide (i = j)) as [<-|].
    + rewrite lookup_insert_eq. intros [= <-]. simpl. destruct r as [a'|]; [|done]. simpl in Hr. subst a'. set_solver.
    + rewrite lookup_insert_ne by done. intros Hj%(si_clients _ _ _ Hi). destruct c' as [q'|q' x'|q' [a'|e']]; simpl in *.
      * by eapply admissible_stable.
      * by eapply current_stable.
      * set_solver.
      * done.
Qed.

(** However a command ends, it committed once or not at all. *)
Lemma run_inv_answer d cs log i q r d' :
  run_inv d cs log → (∀ e, (i, e) ∉ log) → (Z.of_nat (size (<[i := Answered q r]> cs)) < 2 ^ 63)%Z →
  (Z.of_nat (S (length log)) < 2 ^ 63)%Z →
  all_or_nothing (effect q) d r d' → ∃ log', run_inv d' (<[i := Answered q r]> cs) log'.
Proof.
  intros Hi Hnot Hsize Hlen Hr. destruct r as [a|e]; simpl in Hr.
  - eexists. by eapply (run_inv_commit d).
  - destruct Hr as [->|(Hd & a & HP)].
    + exists log. by apply run_inv_move.
    + eexists. by eapply (run_inv_commit d).
Qed.

Lemma not_logged d cs log i : run_inv d cs log →
  match cs !! i with Some (Answered _ _) => True | _ => ∀ e, (i, e) ∉ log end.
Proof.
  intros Hi. destruct (cs !! i) as [[]|] eqn:E; try done; intros e Hin;
    destruct (si_log _ _ _ Hi _ _ Hin) as (c & Hc & He); rewrite E in Hc; by simplify_eq.
Qed.

(** Marks change nothing a command relies on. *)
Lemma run_inv_mark d cs log d' : run_inv d cs log → marked d d' → run_inv d' cs log.
Proof.
  intros Hi Hm. split; [econstructor; [apply Hi|done]|eapply marked_sound; [done|apply Hi]|apply Hi|apply Hi| |apply Hi].
  intros i c Hc%(si_clients _ _ _ Hi). destruct c as [q|q x|q [a|e]]; simpl in *;
    [by eapply marked_admissible|by eapply marked_current|done|done].
Qed.

Section invariant.
Context (policy : request → Database → Prop) (Hpolicy : ∀ q d, policy q d → admissible q d).

Lemma command_step_inv d cs d' cs' log :
  command_step policy (mkShared d cs) (mkShared d' cs') → run_inv d cs log → ∃ log', run_inv d' cs' log'.
Proof using Hpolicy.
  intros Hstep Hi. pose proof (si_size _ _ _ Hi) as Hsz.
  inversion Hstep as [? ? i q Hn Hnew Hq|? ? i q n t r w' Hc Hl|? ? i q x n t r w' Hc Hst]; subst;
    pose proof (not_logged _ _ _ i Hi) as Hnot; rewrite ?Hn, ?Hc in Hnot.
  - exists log. apply run_inv_move; [done..|by rewrite map_size_insert_None|by apply Hpolicy].
  - exists log. apply run_inv_move; [done..|by erewrite map_size_insert_Some|].
    pose proof (si_clients _ _ _ Hi _ _ Hc) as Hq.
    pose proof (wp_run _ _ _ _ _ (read_ok (length log) q (mkWorld d' n t) (si_sound _ _ _ Hi) Hq) Hl) as Hx.
    by destruct r.
  - pose proof (si_clients _ _ _ Hi _ _ Hc) as Hx. pose proof (log_length_lt _ _ _ _ _ Hi Hc Hnot).
    eapply run_inv_answer; [exact Hi|done|by erewrite map_size_insert_Some|lia|].
    refine (wp_run _ _ _ _ (λ r w', all_or_nothing (effect q) d r (w_db w')) _ Hst).
    apply (wp_finish _ (mkWorld d n t)). by apply (write_ok (length log)); [apply Hi|].
Qed.

Lemma step_inv d cs d' cs' log :
  step policy (mkShared d cs) (mkShared d' cs') → run_inv d cs log → ∃ log', run_inv d' cs' log'.
Proof using Hpolicy.
  intros Hstep. inversion Hstep; subst; [by apply command_step_inv|]. intros Hi. exists log. by eapply run_inv_mark.
Qed.

Lemma reachable_inv s : reachable policy s → ∃ log, run_inv (sh_db s) (sh_clients s) log.
Proof using Hpolicy.
  induction 1 as [|[d cs] [d' cs'] _ [log IH] Hs]; [|by eapply step_inv].
  exists []. split; simpl; [constructor|apply sound_empty|constructor|set_solver|done|by rewrite map_size_empty].
Qed.

(** Every reachable state is explained by a serial order of its commands. *)
Lemma reachable_serializable s : reachable policy s → ∃ log, explains log s.
Proof using Hpolicy.
  intros [log Hi]%reachable_inv. exists log. split; try apply Hi. intros i q a Hc. by apply (si_clients _ _ _ Hi) in Hc.
Qed.

End invariant.

(** ** Executing schedules *)

Inductive Action : Type :=
| ARequest (i : nat) (q : request)
| ARead (i n : nat) (t : Z)
| AWrite (i n : nat) (t : Z)
| AMark (us : list uuid) (t : Z).

Definition may_start (i : nat) (cs : gmap nat Client) : bool :=
  bool_decide (cs !! i = None) && (Z.of_nat (S (size cs)) <? 2 ^ 63)%Z.

(** [let_in]: which requests are let in. *)
Definition exec_step (let_in : request → Database → bool) (s : Shared) (a : Action) : option Shared :=
  let d := sh_db s in
  let cs := sh_clients s in
  match a with
  | ARequest i q =>
    if may_start i cs && let_in q d then Some (mkShared d (<[i := Requested q]> cs)) else None
  | ARead i n t =>
    match cs !! i with
    | Some (Requested q) => Some (mkShared d (<[i := answer_read q (read_half q (mkWorld d n t)).1]> cs))
    | _ => None
    end
  | AWrite i n t =>
    match cs !! i with
    | Some (Loaded q x) =>
      let rw := finish d (write_half q x) (mkWorld d n t) in
      Some (mkShared (w_db rw.2) (<[i := Answered q rw.1]> cs))
    | _ => None
    end
  | AMark us t => Some (mkShared (set_outbox d (map (mark_row us t) (outbox_events d))) cs)
  end.
Definition exec (let_in : request → Database → bool) (l : list Action) (s : Shared) : option Shared :=
  foldl (λ o a, o ≫= λ s, exec_step let_in s a) (Some s) l.

Section sound.
Context (policy : request → Database → Prop) (let_in : request → Database → bool) (Hlet : ∀ q d, let_in q d = true → policy q d).

Definition is_command (a : Action) : Prop := match a with AMark _ _ => False | _ => True end.

Lemma exec_command_sound s a s' : is_command a → exec_step let_in s a = Some s' → command_step policy s s'.
Proof using Hlet.
  destruct s as [d cs]. destruct a as [i q|i n t|i n t|us t]; simpl; [intros _..|done].
  - unfold may_start. case_match eqn:Hb; [|done]. intros [= <-].
    apply andb_true_iff in Hb as [[Hn%bool_decide_eq_true Hs%Z.ltb_lt]%andb_true_iff Hq]. constructor; auto.
  - destruct (cs !! i) as [[]|] eqn:Ei; try done. intros [= <-]. eapply step_read; [done|apply surjective_pairing].
  - destruct (cs !! i) as [[]|] eqn:Ei; try done. intros [= <-]. eapply step_write; [done|apply surjective_pairing].
Qed.

Lemma exec_step_sound s a s' : exec_step let_in s a = Some s' → step policy s s'.
Proof using Hlet.
  intros E. destruct a as [i q|i n t|i n t|us t] eqn:Ea; [by apply step_command, (exec_command_sound _ a); subst..|].
  destruct s as [d cs]. injection E as <-. apply step_mark. by exists us, t.
Qed.

Lemma exec_reachable l s : exec let_in l (mkShared empty_db ∅) = Some s → reachable policy s.
Proof using Hlet.
  unfold exec. revert s. induction l as [|a l IH] using rev_ind; intros s.
  { intros [= <-]. constructor. }
  rewrite foldl_app. simpl. intros (s1 & E1 & E2)%bind_Some.
  apply (reachable_step policy s1); [by apply IH|]. by apply (exec_step_sound s1 a).
Qed.
End sound.
End runs.

(** ** Two workloads on one database *)

Section both.
Context `{Env} (W1 W2 : Workload).

(** Commands of [W] do not touch what [W'] relies on. *)
Record apart (W W' : Workload) : Prop := {
  apart_sound n q a d d' : @effect _ _ W q a d d' → @sound _ _ W' n d → @sound _ _ W' n d';
  apart_admissible q' q a d d' : @effect _ _ W q a d d' → @admissible _ _ W' q' d → @admissible _ _ W' q' d';
  apart_current q' x q a d d' : @effect _ _ W q a d d' → @current _ _ W' q' x d → @current _ _ W' q' x d'
}.
Context (H12 : apart W1 W2) (H21 : apart W2 W1).

Definition both_request : Type := @request _ _ W1 + @request _ _ W2.
Definition both_answer : Type := @answer _ _ W1 + @answer _ _ W2.
Definition both_reading (q : both_request) : Type :=
  match q with inl q => @reading _ _ W1 q | inr q => @reading _ _ W2 q end.
Definition both_read (q : both_request) : M (both_reading q) :=
  match q with inl q => @read_half _ _ W1 q | inr q => @read_half _ _ W2 q end.
Definition both_write (q : both_request) : both_reading q → M both_answer :=
  match q with
  | inl q => λ x, a ← @write_half _ _ W1 q x; mret (inl a)
  | inr q => λ x, a ← @write_half _ _ W2 q x; mret (inr a)
  end.
Definition both_admissible (q : both_request) (d : Database) : Prop :=
  match q with inl q => @admissible _ _ W1 q d | inr q => @admissible _ _ W2 q d end.
Definition both_current (q : both_request) : both_reading q → Database → Prop :=
  match q with inl q => @current _ _ W1 q | inr q => @current _ _ W2 q end.
Definition both_effect (q : both_request) (a : both_answer) (d d' : Database) : Prop :=
  match q, a with
  | inl q, inl a => @effect _ _ W1 q a d d'
  | inr q, inr a => @effect _ _ W2 q a d d'
  | _, _ => False
  end.
Definition both_sound (n : nat) (d : Database) : Prop := @sound _ _ W1 n d ∧ @sound _ _ W2 n d.

Lemma both_effect_sound n q a d d' :
  (Z.of_nat (S n) < 2 ^ 63)%Z → both_sound n d → both_effect q a d d' → both_sound (S n) d'.
Proof using H12 H21.
  intros Hn [S1 S2]. destruct q as [q|q], a as [a|a]; simpl; try done; intros He; split.
  - by eapply effect_sound.
  - eapply sound_mono; [|by eapply (apart_sound _ _ H12)]. lia.
  - eapply sound_mono; [|by eapply (apart_sound _ _ H21)]. lia.
  - by eapply effect_sound.
Qed.

Definition both : Workload.
Proof using W1 W2 H12 H21.
  refine {| request := both_request; reading := both_reading; answer := both_answer; read_half := both_read;
    write_half := both_write; admissible := both_admissible; current := both_current; effect := both_effect;
    sound := both_sound |}.
  - split; apply sound_empty.
  - intros n m d Hle [S1 S2]. split; by eapply sound_mono.
  - apply both_effect_sound.
  - intros n [q|q] [q'|q'] [a|a] d d' Hn [S1 S2]; simpl; try done; intros He.
    + by eapply admissible_stable.
    + by apply (apart_admissible _ _ H21 q q' a).
    + by apply (apart_admissible _ _ H12 q q' a).
    + by eapply admissible_stable.
  - intros n [q|q] x [q'|q'] [a|a] d d' Hn [S1 S2]; simpl; try done; intros He.
    + by eapply current_stable.
    + by apply (apart_current _ _ H21 q x q' a).
    + by apply (apart_current _ _ H12 q x q' a).
    + by eapply current_stable.
  - intros n [q|q] w [S1 S2]; simpl; by apply (read_ok n).
  - intros n [q|q] x w [S1 S2] Hc; simpl; wp_steps.
    + eapply wp_mono; [by apply (write_ok n)|]. intros [a|e] w1; [|done]. intros. by wp_steps.
    + eapply wp_mono; [by apply (write_ok n)|]. intros [a|e] w1; [|done]. intros. by wp_steps.
  - intros n d d' Hm [S1 S2]. split; by eapply marked_sound.
  - intros [q|q] d d'; simpl; apply marked_admissible.
  - intros [q|q] x d d'; simpl; apply marked_current.
Defined.
End both.
