(* ===== verification/Keyset.v ===== *)
(** * Keyset pagination

    What the listings of the catalog and of the tenants share: rows ordered by a
    position, a query that returns one row more than the page, the cut of the
    page, and a loop over the cursors.  The theory is over any rows with a key,
    any strict order of positions that tells rows with different keys apart, and
    any way to fetch the rows behind a cursor. *)
From S2P Require Import Prelude.

Section order.
Context {Row Pos Key : Type} `{!EqDecision Key} (key : Row → Key) (pos : Row → Pos).
Context (lt : Pos → Pos → Prop) {lt_dec : RelDecision lt} {lt_strict : StrictOrder lt}.
Context (lt_total : ∀ r1 r2, lt (pos r1) (pos r2) ∨ pos r1 = pos r2 ∨ lt (pos r2) (pos r1)).
Context (pos_key : ∀ r1 r2, pos r1 = pos r2 → key r1 = key r2).

(** The ORDER BY: no row of the result comes before an earlier one. *)
Definition key_order (r1 r2 : Row) : Prop := ¬ lt (pos r2) (pos r1).
#[export] Instance key_order_dec : RelDecision key_order.
Proof using lt_dec. unfold RelDecision, key_order. intros. apply _. Defined.

Lemma key_order_total : Total key_order.
Proof using Type*.
  intros r1 r2. unfold key_order. destruct (decide (lt (pos r2) (pos r1))) as [Hb|]; [|auto].
  right. intros Hb'. by apply (irreflexivity lt (pos r1)); etrans.
Qed.
Lemma key_order_trans : Transitive key_order.
Proof using Type*.
  intros r1 r2 r3 H1 H2 H3. destruct (lt_total r1 r2) as [Hb|[E|Hb]]; [|by rewrite E in H3|done].
  apply H2. by etrans.
Qed.
Lemma key_order_antisym r1 r2 : key_order r1 r2 → key_order r2 r1 → key r1 = key r2.
Proof using Type*. unfold key_order. intros H1 H2. destruct (lt_total r1 r2) as [?|[E|?]]; [done|auto|done]. Qed.

Lemma sorted_rows l : StronglySorted key_order (merge_sort key_order l).
Proof using Type*.
  pose proof key_order_trans. pose proof key_order_total.
  apply Sorted_StronglySorted; [done|]. apply Sorted_merge_sort, _.
Qed.

Lemma keys_inj l r1 r2 : NoDup (map key l) → r1 ∈ l → r2 ∈ l → key r1 = key r2 → r1 = r2.
Proof using Type*.
  intros Hnd [i Hi]%list_elem_of_lookup [j Hj]%list_elem_of_lookup E.
  assert (i = j) as <-; [|congruence].
  eapply (NoDup_lookup (map key l)); [done|by rewrite list_lookup_fmap, Hi|].
  rewrite list_lookup_fmap, Hj. simpl. by rewrite E.
Qed.

(** Position in the sorted list decides what lies behind a row. *)
Lemma filter_behind l1 x l2 :
  NoDup (map key (l1 ++ x :: l2)) → StronglySorted key_order (l1 ++ x :: l2) →
  filter (λ r, lt (pos x) (pos r)) (l1 ++ x :: l2) = l2.
Proof using Type*.
  intros Hnd Hs. rewrite filter_app, filter_cons_False by apply irreflexivity, _.
  assert (∀ r, r ∈ l1 → key_order r x) as H1.
  { clear Hnd. induction l1 as [|y l1 IH]; [intros r []%elem_of_nil|]. simpl in Hs. inversion Hs as [|? ? Hs' Hf]; subst.
    rewrite Forall_forall in Hf. intros r [->|Hr]%elem_of_cons; [|by apply IH].
    apply Hf. apply elem_of_app. right. by left. }
  assert (Forall (key_order x) l2) as H2.
  { clear H1 Hnd. induction l1 as [|y l1 IH]; simpl in Hs; inversion Hs; subst; auto. }
  rewrite filter_none, filter_all; [done| |].
  - rewrite Forall_forall in *. intros r Hr. specialize (H2 r Hr).
    destruct (lt_total x r) as [?|[E%pos_key|?]]; [done| |done]. exfalso.
    rewrite map_app in Hnd. apply NoDup_app in Hnd as (_ & _ & Hnd). simpl in Hnd. apply NoDup_cons in Hnd as [Hn _].
    apply Hn. rewrite E. by apply list_elem_of_In, in_map, list_elem_of_In.
  - apply Forall_forall. intros r Hr. by apply H1.
Qed.

Context (matches : Row → Prop) `{!∀ r, Decision (matches r)}.
Definition sorted_matches (rows : list Row) : list Row := merge_sort key_order (filter matches rows).

Lemma sorted_matches_keys rows : NoDup (map key rows) → NoDup (map key (sorted_matches rows)).
Proof using Type*.
  intros Hk. unfold sorted_matches. rewrite merge_sort_Permutation.
  eapply sublist_NoDup; [exact Hk|]. apply (fmap_sublist key), sublist_filter.
Qed.

(** The query with a cursor continues right behind the cursor's row. *)
Lemma select_behind rows l1 x l2 :
  NoDup (map key rows) → sorted_matches rows = l1 ++ x :: l2 →
  merge_sort key_order (filter (λ r, matches r ∧ lt (pos x) (pos r)) rows) = l2.
Proof using Type*.
  intros Hk E. pose proof (sorted_matches_keys rows Hk) as Hnd. rewrite E in Hnd.
  pose proof (sorted_rows (filter matches rows)) as Hs. fold (sorted_matches rows) in Hs. rewrite E in Hs.
  assert (filter (λ r, matches r ∧ lt (pos x) (pos r)) rows ≡ₚ l2) as Hp.
  { rewrite <- (filter_behind l1 x l2 Hnd Hs) at 1. rewrite <- E. unfold sorted_matches.
    rewrite merge_sort_Permutation, list_filter_filter. apply reflexive_eq, list_filter_iff.
    intros r. simpl. tauto. }
  assert (StronglySorted key_order l2) as Hs2 by (clear -Hs; induction l1; simpl in Hs; inversion Hs; auto).
  eapply StronglySorted_unique_strong; [|apply sorted_rows|exact Hs2|by rewrite merge_sort_Permutation].
  intros r1 r2 H1 H2 O1 O2. rewrite merge_sort_Permutation, Hp in H1.
  eapply (keys_inj (l1 ++ x :: l2)); [done|rewrite elem_of_app; right; by right..|by eapply key_order_antisym].
Qed.
End order.

(** ** Pages *)

Section pages.
Context {Row Item : Type} (item : Row → Item) (cursor : Item → string) (k : nat).
Context (Hk : 0 < k) (cursor_nonempty : ∀ i, cursor i ≠ "").

(** The page cut from the rows [l] behind a cursor: at most [k] items, and the cursor
    of the last one when there are more. *)
Definition page_of (l : list Row) : list Item * string :=
  match drop k l with
  | [] => (map item l, "")
  | _ => (map item (take k l), match l !! (k - 1) with Some r => cursor (item r) | None => "" end)
  end.

(** Cutting at the limit what was read with one row more. *)
Definition cut (items : list Item) : option (list Item * string) :=
  if decide (k < length items) then
    match items !! (k - 1) with None => None | Some last => Some (take k items, cursor last) end
  else Some (items, "").

Lemma cut_page_of l : cut (map item (take (S k) l)) = Some (page_of l).
Proof using Hk.
  unfold cut, page_of. rewrite length_map, length_take. destruct (drop k l) as [|x rest] eqn:Ed.
  - assert (length l ≤ k) as Hle.
    { apply (f_equal length) in Ed. rewrite length_drop in Ed. simpl in Ed. lia. }
    rewrite take_ge by lia. by rewrite decide_False by lia.
  - assert (k < length l) as Hlt.
    { apply (f_equal length) in Ed. rewrite length_drop in Ed. simpl in Ed. lia. }
    rewrite decide_True by lia. destruct (lookup_lt_is_Some_2 l (k - 1)) as [r Hr]; [lia|].
    rewrite list_lookup_fmap, lookup_take_lt, Hr by lia. simpl.
    rewrite <- (fmap_take item), take_take. by replace (k `min` S k) with k by lia.
Qed.

(** Following the cursors.  [fetch c s] is the page behind the cursor [c]. *)
Context {State : Type} (fetch : string → State → option (list Item * string * State)).
Fixpoint follow (fuel : nat) (c : string) (s : State) : option (list Item) :=
  match fuel with
  | 0 => None
  | S fuel' =>
    match fetch c s with
    | None => None
    | Some (page, next, s') =>
      if decide (next = "") then Some page
      else rest ← follow fuel' next s'; Some (page ++ rest)
    end
  end.

(** The cursor that stands behind the rows [l1]. *)
Definition cursor_at (l1 : list Row) : string := match last l1 with None => "" | Some x => cursor (item x) end.

Context (I : State → Prop) (rows : list Row).
Context (Hfetch : ∀ l1 l2 s, rows = l1 ++ l2 → I s → ∃ s', fetch (cursor_at l1) s = Some (page_of l2, s') ∧ I s').

(** The pages from a position on give the rest of the rows. *)
Lemma follow_from fuel l1 l2 s :
  rows = l1 ++ l2 → length l2 < fuel → I s → follow fuel (cursor_at l1) s = Some (map item l2).
Proof using Hk cursor_nonempty Hfetch.
  revert l1 l2 s. induction fuel as [|fuel IH]; intros l1 l2 s E Hlen Hs; [lia|]. simpl.
  destruct (Hfetch l1 l2 s E Hs) as (s' & -> & Hs'). unfold page_of.
  destruct (drop k l2) as [|y rest] eqn:Ed; [by rewrite decide_True|].
  assert (k < length l2) as Hlt.
  { apply (f_equal length) in Ed. rewrite length_drop in Ed. simpl in Ed. lia. }
  destruct (lookup_lt_is_Some_2 l2 (k - 1)) as [r Hr]; [lia|].
  rewrite Hr, decide_False by apply cursor_nonempty.
  assert (cursor (item r) = cursor_at (l1 ++ take k l2)) as ->.
  { unfold cursor_at. rewrite last_app, last_lookup, length_take.
    replace (pred (k `min` length l2)) with (k - 1) by lia. by rewrite lookup_take_lt, Hr by lia. }
  rewrite (IH (l1 ++ take k l2) (drop k l2) s').
  - simpl. by rewrite <- map_app, take_drop.
  - by rewrite <- app_assoc, take_drop.
  - rewrite length_drop. lia.
  - done.
Qed.

Lemma follow_all s : I s → follow (S (length rows)) "" s = Some (map item rows).
Proof using Hk cursor_nonempty Hfetch. intros Hs. by apply (follow_from (S (length rows)) [] rows); [|lia|]. Qed.
End pages.
