(* ===== verification/CatalogList.v ===== *)
(** * Listing services (catalog/adapters/postgres: List, cursors, queryBuilder;
    catalog/app: ListServices)

    The SQL text built by [queryBuilder], the rows its query selects, the keyset
    cursors, and the paging of [List].  The collation of the database is a
    parameter, a strict total order on text; so is the cast of a text to
    [timestamptz]. *)
From S2P Require Import Prelude GoStrings Regexp Encoding Apperr Uuid CatalogDomain Postgres CatalogRepo CatalogApp Keyset.

Definition SortCreatedAt : string := "created_at".
Definition SortName : string := "name".
Definition OrderAsc : string := "asc".
Definition OrderDesc : string := "desc".

Section filter.
Context `{UUIDLib}.

Record ListFilter := mkListFilter {
  lf_TenantID : option TenantID;
  lf_Lifecycle : option string;
  lf_Tier : option Tier;
  lf_Sort : string;
  lf_Order : string;
  lf_Limit : Z;
  lf_Cursor : string
}.
Definition set_cursor (f : ListFilter) (c : string) : ListFilter :=
  mkListFilter (lf_TenantID f) (lf_Lifecycle f) (lf_Tier f) (lf_Sort f) (lf_Order f) (lf_Limit f) c.
End filter.

(** ** The query builder *)

(** An argument bound to a placeholder. *)
Inductive sql_arg : Type :=
| ArgText (s : string)
| ArgInt (n : Z).

Record queryBuilder := mkQueryBuilder { qb_base : string; qb_clauses : list string; qb_values : list sql_arg }.

Definition newQueryBuilder (base : string) : queryBuilder := mkQueryBuilder base [] [].

(** [fmt.Sprintf] of a format whose verbs are all [%s]. *)
Fixpoint sprintf_s (fmt : list ascii) (args : list string) : list ascii :=
  match fmt with
  | [] => []
  | a :: fmt1 =>
    match fmt1, args with
    | b :: fmt2, x :: args' =>
      if bool_decide (a = "%"%char) && bool_decide (b = "s"%char)
      then bytes x ++ sprintf_s fmt2 args'
      else a :: sprintf_s fmt1 args
    | _, _ => a :: sprintf_s fmt1 args
    end
  end.

(** The placeholders of [k] values appended behind [n]. *)
Definition placeholders (n k : nat) : list string :=
  map (λ i, "$" +:+ Itoa (Z.of_nat (n + i))) (seq 1 k).

Definition where_ (q : queryBuilder) (clauseFmt : string) (args : list sql_arg) : queryBuilder :=
  mkQueryBuilder (qb_base q)
    (qb_clauses q ++ [of_bytes (sprintf_s (bytes clauseFmt) (placeholders (length (qb_values q)) (length args)))])
    (qb_values q ++ args).

Definition raw (q : queryBuilder) (s : string) : queryBuilder :=
  mkQueryBuilder (qb_base q +:+ s) (qb_clauses q) (qb_values q).

(** The first index at which [sub] occurs. *)
Fixpoint is_prefix (sub s : list ascii) : bool :=
  match sub, s with
  | [], _ => true
  | a :: sub', b :: s' => bool_decide (a = b) && is_prefix sub' s'
  | _, _ => false
  end.
Fixpoint indexOf (s sub : list ascii) : option nat :=
  if is_prefix sub s then Some 0
  else match s with
       | [] => None
       | _ :: s' => S <$> indexOf s' sub
       end.

Definition indexOfOrder (sql : list ascii) : option nat :=
  match indexOf sql (bytes " ORDER BY ") with
  | Some i => Some i
  | None => indexOf sql (bytes " LIMIT ")
  end.

Definition where_text (clauses : list string) : string :=
  " WHERE " +:+ String.concat " AND " clauses.

Definition insertWhere (q : queryBuilder) (sql : string) : string :=
  let w := where_text (qb_clauses q) in
  match indexOfOrder (bytes sql) with
  | None => sql +:+ w
  | Some i => of_bytes (take i (bytes sql)) +:+ w +:+ of_bytes (drop i (bytes sql))
  end.

Definition qb_sql (q : queryBuilder) : string :=
  match qb_clauses q with
  | [] => qb_base q
  | _ => insertWhere q (qb_base q)
  end.

Definition serviceColumns : string :=
  "id::text, tenant_id::text, name, description, tier, lifecycle, repository_url, owning_team, on_call_ref, version, created_at, updated_at".

(** ** Cursors *)

Record cursor := mkCursor { cur_Sort : string; cur_Order : string; cur_Value : string; cur_ID : string }.

Definition malformed_cursor : goerror := Validation "INVALID_CURSOR" "cursor is malformed".
Definition mismatched_cursor : goerror :=
  Validation "INVALID_CURSOR" "cursor does not match the requested sort or order".

(** [json.Marshal] of a cursor. *)
Definition cursor_json (c : cursor) : string :=
  print_object [("s", cur_Sort c); ("o", cur_Order c); ("v", cur_Value c); ("id", cur_ID c)].

(** Store one member of the object into the struct; a value that is neither a string
    nor null is an error for a known field, unknown fields are ignored. *)
Definition store_field (c : option cursor) (m : list ascii * jvalue) : option cursor :=
  c0 ← c;
  let '(k, v) := m in
  let known := same_field "s" k || same_field "o" k || same_field "v" k || same_field "id" k in
  if negb known then Some c0 else
  match v with
  | VNull => Some c0
  | VStr b =>
    let x := of_bytes b in
    Some (if same_field "s" k then mkCursor x (cur_Order c0) (cur_Value c0) (cur_ID c0)
          else if same_field "o" k then mkCursor (cur_Sort c0) x (cur_Value c0) (cur_ID c0)
          else if same_field "v" k then mkCursor (cur_Sort c0) (cur_Order c0) x (cur_ID c0)
          else mkCursor (cur_Sort c0) (cur_Order c0) (cur_Value c0) x)
  | _ => None
  end.

(** [json.Unmarshal] into a cursor. *)
Definition unmarshal_cursor (s : string) : option cursor :=
  v ← json_parse s;
  match v with
  | VObj fields => foldl store_field (Some (mkCursor "" "" "" "")) fields
  | VNull => Some (mkCursor "" "" "" "")
  | _ => None
  end.

Definition decodeCursor (encoded sort order : string) : result goerror cursor :=
  match DecodeString encoded with
  | None => Err malformed_cursor
  | Some raw =>
    match unmarshal_cursor raw with
    | None => Err malformed_cursor
    | Some c =>
      if bool_decide (cur_Sort c ≠ sort) || bool_decide (cur_Order c ≠ order)
      then Err mismatched_cursor else Ok c
    end
  end.

Section cursors.
Context `{UUIDLib}.

Definition encodeCursor (f : ListFilter) (s : Service) : string :=
  let value := if decide (lf_Sort f = SortName) then sn_v (svc_name s)
               else FormatRFC3339Nano (svc_createdAt s) in
  EncodeToString (cursor_json (mkCursor (lf_Sort f) (lf_Order f) value (ServiceID_String (svc_id s)))).

Definition base_sql : string := "SELECT " +:+ serviceColumns +:+ " FROM catalog_services".

(** The statement [List] sends: its text and its arguments. *)
Definition list_query (f : ListFilter) (cur : option cursor) : queryBuilder :=
  let qb := newQueryBuilder base_sql in
  let qb := match lf_TenantID f with Some t => where_ qb "tenant_id = %s::uuid" [ArgText (TenantID_String t)] | None => qb end in
  let qb := match lf_Lifecycle f with Some l => where_ qb "lifecycle = %s" [ArgText l] | None => qb end in
  let qb := match lf_Tier f with Some t => where_ qb "tier = %s" [ArgInt (tier_v t)] | None => qb end in
  let '(sortCol, valCast) := if decide (lf_Sort f = SortName) then ("name", "text") else ("created_at", "timestamptz") in
  let '(cmp, dir) := if decide (lf_Order f = OrderDesc) then ("<", "DESC") else (">", "ASC") in
  let qb := match cur with
            | Some c => where_ qb ("(" +:+ sortCol +:+ ", id) " +:+ cmp +:+ " (%s::" +:+ valCast +:+ ", %s::uuid)")
                          [ArgText (cur_Value c); ArgText (cur_ID c)]
            | None => qb
            end in
  raw qb (" ORDER BY " +:+ sortCol +:+ " " +:+ dir +:+ ", id " +:+ dir +:+ " LIMIT " +:+ Itoa (wrap64 (lf_Limit f + 1))).
End cursors.

(** ** The rows of the query *)

Class Collation := {
  text_lt : string → string → Prop;
  text_lt_dec :: RelDecision text_lt;
  text_lt_strict :: StrictOrder text_lt;
  text_lt_total a b : text_lt a b ∨ a = b ∨ text_lt b a;
  cast_timestamptz : string → option Z
}.

(** A position in the listing: the sort value and the identifier. *)
Inductive sort_key : Type :=
| KTime (t : Z)
| KText (s : string).
#[export] Instance sort_key_eq_dec : EqDecision sort_key.
Proof. solve_decision. Defined.

Section select.
Context `{UUIDLib, Collation}.

Definition key_lt (a b : sort_key) : Prop :=
  match a, b with
  | KTime x, KTime y => (x < y)%Z
  | KText x, KText y => text_lt x y
  | _, _ => False
  end.
#[global] Instance key_lt_dec : RelDecision key_lt.
Proof. intros [x|x] [y|y]; simpl; apply _. Defined.

(** Row comparison [(a, i) < (b, j)]. *)
Definition pos_lt (p q : sort_key * Z) : Prop := key_lt p.1 q.1 ∨ (p.1 = q.1 ∧ p.2 < q.2)%Z.
#[global] Instance pos_lt_dec : RelDecision pos_lt.
Proof. unfold RelDecision, pos_lt. apply _. Defined.

Definition row_pos (f : ListFilter) (r : ServiceRow) : sort_key * Z :=
  (if decide (lf_Sort f = SortName) then KText (sr_name r) else KTime (sr_created_at r), uuid_num (sr_id r)).

(** [p] comes before [q] in the requested order. *)
Definition before (f : ListFilter) (p q : sort_key * Z) : Prop :=
  if decide (lf_Order f = OrderDesc) then pos_lt q p else pos_lt p q.
#[global] Instance before_dec f : RelDecision (before f).
Proof. intros p q. unfold before. destruct (decide (lf_Order f = OrderDesc)); apply _. Defined.

Definition row_order (f : ListFilter) : ServiceRow → ServiceRow → Prop := key_order (row_pos f) (before f).
#[global] Instance row_order_dec f : RelDecision (row_order f).
Proof. unfold row_order. apply _. Defined.

(** The equality conditions of the WHERE clause. *)
Definition matches (f : ListFilter) (r : ServiceRow) : Prop :=
  (if lf_TenantID f is Some t then sr_tenant_id r = tid_v t else True) ∧
  (if lf_Lifecycle f is Some l then sr_lifecycle r = l else True) ∧
  (if lf_Tier f is Some t then sr_tier r = tier_v t else True).
#[global] Instance matches_dec f r : Decision (matches f r).
Proof.
  unfold matches. destruct (lf_TenantID f), (lf_Lifecycle f), (lf_Tier f); apply _.
Defined.

Definition invalid_datetime : goerror := EPg "22007" "invalid input syntax for type timestamp with time zone".
Definition negative_limit : goerror := EPg "2201W" "LIMIT must not be negative".

(** The position a cursor stands for: its two casts. *)
Definition cursor_pos (f : ListFilter) (c : cursor) : result goerror (sort_key * Z) :=
  k ← (if decide (lf_Sort f = SortName) then Ok (KText (cur_Value c))
       else t ← or_err (cast_timestamptz (cur_Value c)) invalid_datetime; Ok (KTime t));
  u ← or_err (uuid_Parse (cur_ID c)) invalid_text;
  Ok (k, uuid_num u).

Definition all_rows (d : Database) : list ServiceRow := (map_to_list (catalog_services d)).*2.

(** The keyset condition [(sortCol, id) cmp cursor]. *)
Definition after (f : ListFilter) (p : option (sort_key * Z)) (r : ServiceRow) : Prop :=
  if p is Some q then before f q (row_pos f r) else True.
#[global] Instance after_dec f p r : Decision (after f p r).
Proof. unfold after. destruct p; apply _. Defined.

(** The selection: the conditions, the cursor, the order and the limit. *)
Definition select_rows (f : ListFilter) (cur : option cursor) (d : Database) : result goerror (list ServiceRow) :=
  let limit := wrap64 (lf_Limit f + 1) in
  if (limit <? 0)%Z then Err negative_limit else
  p ← match cur with
      | None => Ok None
      | Some c => p ← cursor_pos f c; Ok (Some p)
      end;
  Ok (take (Z.to_nat limit)
        (merge_sort (row_order f) (filter (λ r, matches f r ∧ after f p r) (all_rows d)))).
End select.

Section list.
Context `{Env} {coll : Collation}.

(** Scan the rows one by one; any of them can fail in the driver. *)
Fixpoint scan_all (rows : list ServiceRow) : M (list Service) :=
  match rows with
  | [] => mret []
  | r :: rows' =>
    s ← catch (query (λ _, Ok r)) (λ x, lift (scanService x));
    rest ← scan_all rows';
    mret (s :: rest)
  end.

(** Slicing past the end panics; the callers pass a positive limit. *)
Definition panic : goerror := EOther "runtime error: index out of range".

(** The page and the cursor of the next one. *)
Definition cut_page (f : ListFilter) (services : list Service) : result goerror (list Service * string) :=
  if (lf_Limit f <? Z.of_nat (length services))%Z then
    if (lf_Limit f <? 1)%Z then Err panic else
    match services !! Z.to_nat (lf_Limit f - 1) with
    | None => Err panic
    | Some last => Ok (take (Z.to_nat (lf_Limit f)) services, encodeCursor f last)
    end
  else Ok (services, "").

Definition List (f : ListFilter) : M (list Service * string) :=
  cur ← (if decide (lf_Cursor f = "") then mret None
         else c ← lift (decodeCursor (lf_Cursor f) (lf_Sort f) (lf_Order f)); mret (Some c));
  rows ← wrap_err "list services" (query (select_rows f cur));
  services ← scan_all rows;
  _ ← query (λ _, Ok tt);
  lift (cut_page f services).

(** [Queries.ListServices] *)
Definition with_defaults (f : ListFilter) : ListFilter :=
  mkListFilter (lf_TenantID f) (lf_Lifecycle f) (lf_Tier f)
    (if decide (lf_Sort f = "") then SortCreatedAt else lf_Sort f)
    (if decide (lf_Order f = "") then OrderDesc else lf_Order f)
    (if (lf_Limit f <=? 0)%Z || (200 <? lf_Limit f)%Z then 50%Z else lf_Limit f)
    (lf_Cursor f).
Definition ListServices (f : ListFilter) : M (list Service * string) := List (with_defaults f).

(** Following the cursors from the first page to the last. *)
Definition fetch_page (f : ListFilter) (c : string) (w : World) : option (list Service * string * World) :=
  match List (set_cursor f c) w with
  | (Ok (page, next), w') => Some (page, next, w')
  | (Err _, _) => None
  end.
Definition all_pages (fuel : nat) (f : ListFilter) (w : World) : option (list Service) :=
  follow (fetch_page f) fuel (lf_Cursor f) w.
End list.

(** ** Facts *)

Lemma store_fields s o v i :
  foldl store_field (Some (mkCursor "" "" "" ""))
    (string_fields [("s", s); ("o", o); ("v", v); ("id", i)]) = Some (mkCursor s o v i).
Proof. cbn. by rewrite !of_bytes_bytes. Qed.

Lemma unmarshal_cursor_json c : unmarshal_cursor (cursor_json c) = Some c.
Proof.
  unfold unmarshal_cursor, cursor_json. rewrite json_parse_print by done.
  cbn [mbind option_bind]. rewrite store_fields. by destruct c.
Qed.

Lemma decode_encode `{UUIDLib} f s :
  decodeCursor (encodeCursor f s) (lf_Sort f) (lf_Order f) =
    Ok (mkCursor (lf_Sort f) (lf_Order f)
          (if decide (lf_Sort f = SortName) then sn_v (svc_name s) else FormatRFC3339Nano (svc_createdAt s))
          (ServiceID_String (svc_id s))).
Proof.
  unfold decodeCursor, encodeCursor. rewrite DecodeString_EncodeToString, unmarshal_cursor_json. simpl.
  by rewrite !bool_decide_eq_false_2 by naive_solver.
Qed.

Lemma encodeCursor_nonempty `{UUIDLib} f s : encodeCursor f s ≠ "".
Proof. unfold encodeCursor, EncodeToString. simpl. done. Qed.

(** The WHERE clause lands between the base and the tail. *)
Lemma qb_sql_insert q tail :
  qb_base q = base_sql +:+ tail → qb_clauses q ≠ [] →
  indexOfOrder (bytes (base_sql +:+ tail)) = Some (len base_sql) →
  qb_sql q = base_sql +:+ where_text (qb_clauses q) +:+ tail.
Proof.
  intros Hb Hc Hi. unfold qb_sql, insertWhere. destruct (qb_clauses q) as [|c cs]; [done|].
  rewrite Hb, Hi, bytes_app. unfold len. by rewrite take_app_length, drop_app_length, !of_bytes_bytes.
Qed.

Section order_facts.
Context `{UUIDLib, Collation}.

Lemma key_lt_irrefl k : ¬ key_lt k k.
Proof. destruct k as [t|s]; simpl; [lia|apply irreflexivity; apply _]. Qed.
Lemma key_lt_trans a b c : key_lt a b → key_lt b c → key_lt a c.
Proof. destruct a, b, c; simpl; try done; [lia|]. intros. by etrans. Qed.

Lemma pos_lt_irrefl p : ¬ pos_lt p p.
Proof. intros [Hk|[_ ?]]; [by apply key_lt_irrefl in Hk|lia]. Qed.
Lemma pos_lt_trans p q r : pos_lt p q → pos_lt q r → pos_lt p r.
Proof.
  intros [H1|[E1 H1]] [H2|[E2 H2]]; unfold pos_lt.
  - left. by eapply key_lt_trans.
  - left. by rewrite <- E2.
  - left. by rewrite E1.
  - right. split; [congruence|lia].
Qed.

#[global] Instance before_strict f : StrictOrder (before f).
Proof.
  split.
  - intros p. unfold complement, before. destruct (decide _); apply pos_lt_irrefl.
  - intros p q r. unfold before. destruct (decide _); intros; by eapply pos_lt_trans.
Qed.

(** Rows of one listing are always comparable. *)
Lemma before_total f r1 r2 :
  before f (row_pos f r1) (row_pos f r2) ∨ row_pos f r1 = row_pos f r2 ∨ before f (row_pos f r2) (row_pos f r1).
Proof.
  assert (pos_lt (row_pos f r1) (row_pos f r2) ∨ row_pos f r1 = row_pos f r2 ∨
          pos_lt (row_pos f r2) (row_pos f r1)) as Ht.
  { unfold row_pos, pos_lt. destruct (decide (lf_Sort f = SortName)); simpl.
    - destruct (text_lt_total (sr_name r1) (sr_name r2)) as [|[->|]]; [by auto| |by auto].
      destruct (Z.lt_trichotomy (uuid_num (sr_id r1)) (uuid_num (sr_id r2))) as [|[->|]]; auto.
    - destruct (Z.lt_trichotomy (sr_created_at r1) (sr_created_at r2)) as [|[->|]]; [by auto| |by auto].
      destruct (Z.lt_trichotomy (uuid_num (sr_id r1)) (uuid_num (sr_id r2))) as [|[->|]]; auto. }
  unfold before. destruct (decide (lf_Order f = OrderDesc)); tauto.
Qed.

Lemma row_pos_key f r1 r2 : row_pos f r1 = row_pos f r2 → sr_id r1 = sr_id r2.
Proof. intros E. apply (inj uuid_num). unfold row_pos in E. congruence. Qed.

Definition listing (f : ListFilter) (d : Database) : list ServiceRow :=
  sorted_matches (row_pos f) (before f) (matches f) (all_rows d).

Definition keyed (d : Database) : Prop := ∀ u r, catalog_services d !! u = Some r → sr_id r = u.

Lemma all_rows_ids d : keyed d → NoDup (map sr_id (all_rows d)).
Proof.
  intros Hk. unfold all_rows. replace (map sr_id (map_to_list (catalog_services d)).*2)
    with (map_to_list (catalog_services d)).*1; [apply NoDup_fst_map_to_list|].
  rewrite map_map. apply map_ext_in. intros [u r] Hin%list_elem_of_In%elem_of_map_to_list. symmetry. by apply Hk.
Qed.

(** The query with a cursor continues right behind the cursor's row. *)
Lemma catalog_behind f d l1 x l2 :
  keyed d → listing f d = l1 ++ x :: l2 →
  merge_sort (row_order f) (filter (λ r, matches f r ∧ after f (Some (row_pos f x)) r) (all_rows d)) = l2.
Proof.
  intros Hk%all_rows_ids E.
  exact (select_behind sr_id (row_pos f) (before f) (before_total f) (row_pos_key f) (matches f) (all_rows d) l1 x l2 Hk E).
Qed.

Lemma select_first f d : merge_sort (row_order f) (filter (λ r, matches f r ∧ after f None r) (all_rows d)) = listing f d.
Proof. unfold listing, sorted_matches. f_equal. apply list_filter_iff. intros r. simpl. tauto. Qed.
End order_facts.

Section paging.
Context `{Env} {coll : Collation}.
Context (Hf : ∀ n, fault n = None).

Lemma query_calm {A} (g : Database → result goerror A) w :
  query g w = (g (w_db w), tick w).
Proof using Hf.
  unfold query, stmt. rewrite Hf. destruct (g (w_db w)); [by destruct w|done].
Qed.

Lemma scan_all_calm rows w :
  Forall (λ r, service_wf (row_service r)) rows →
  ∃ n, scan_all rows w = (Ok (map row_service rows), mkWorld (w_db w) n (w_tx_now w)).
Proof using Hf.
  intros Hwf. revert w. induction Hwf as [|r rows Hr _ IH]; intros w; simpl; [exists (w_tick w); by destruct w|].
  unfold mbind, M_bind, catch. rewrite query_calm. simpl. unfold lift. rewrite scan_row_wf by done.
  destruct (IH (tick w)) as [n ->]. by exists n.
Qed.

(** The limit as a number of rows. *)
Definition page_size (f : ListFilter) : nat := Z.to_nat (lf_Limit f).
Definition catalog_page (f : ListFilter) : list ServiceRow → list Service * string :=
  page_of row_service (encodeCursor f) (page_size f).

Lemma cut_page_cut f ss : (0 < lf_Limit f)%Z →
  cut_page f ss = match cut (encodeCursor f) (page_size f) ss with Some p => Ok p | None => Err panic end.
Proof.
  intros Hl. unfold cut_page, cut, page_size.
  destruct (Z.ltb_spec (lf_Limit f) (Z.of_nat (length ss))); [rewrite decide_True by lia|by rewrite decide_False by lia].
  destruct (Z.ltb_spec (lf_Limit f) 1); [lia|].
  replace (Z.to_nat (lf_Limit f - 1)) with (Z.to_nat (lf_Limit f) - 1) by lia. by destruct (ss !! _).
Qed.

Lemma List_calm f w p l :
  (0 < lf_Limit f ≤ 200)%Z →
  match p with
  | None => lf_Cursor f = ""
  | Some q => lf_Cursor f ≠ "" ∧ ∃ c, decodeCursor (lf_Cursor f) (lf_Sort f) (lf_Order f) = Ok c ∧ cursor_pos f c = Ok q
  end →
  merge_sort (row_order f) (filter (λ r, matches f r ∧ after f p r) (all_rows (w_db w))) = l →
  Forall (λ r, service_wf (row_service r)) l →
  ∃ w', List f w = (Ok (catalog_page f l), w') ∧ w_db w' = w_db w.
Proof using Hf.
  intros Hlim Hp Hl Hwf. unfold List.
  assert (∃ cur, (if decide (lf_Cursor f = "") then mret None
         else c ← lift (decodeCursor (lf_Cursor f) (lf_Sort f) (lf_Order f)); mret (Some c)) w = (Ok cur, w) ∧
         select_rows f cur (w_db w) = Ok (take (S (Z.to_nat (lf_Limit f))) l)) as (cur & Hc & Hsel).
  { assert (wrap64 (lf_Limit f + 1) = lf_Limit f + 1)%Z as Ew.
    { apply wrap64_id. unfold in_int64, int64_min, int64_max. lia. }
    assert (∀ o, (if (wrap64 (lf_Limit f + 1) <? 0)%Z then Err negative_limit else o) = o :> result goerror (list ServiceRow)) as Eo.
    { intros o. rewrite Ew. destruct (Z.ltb_spec (lf_Limit f + 1) 0); [lia|done]. }
    assert (Z.to_nat (wrap64 (lf_Limit f + 1)) = S (Z.to_nat (lf_Limit f))) as Et by (rewrite Ew; lia).
    destruct p as [q|].
    - destruct Hp as [Hne (c & Hd & Hq)]. exists (Some c). rewrite decide_False by done.
      unfold mbind, M_bind, lift. rewrite Hd. split; [done|].
      unfold select_rows. rewrite Eo, Hq, Et. cbn [mbind result_bind]. by rewrite Hl.
    - exists None. rewrite decide_True by done. split; [done|].
      unfold select_rows. rewrite Eo, Et. cbn [mbind result_bind]. by rewrite Hl. }
  unfold mbind at 1, M_bind at 1. rewrite Hc. unfold mbind, M_bind, wrap_err. rewrite query_calm, Hsel.
  destruct (scan_all_calm (take (S (Z.to_nat (lf_Limit f))) l) (tick w)) as [n ->]; [by apply Forall_take|].
  rewrite query_calm. unfold lift. rewrite cut_page_cut by lia.
  change (S (Z.to_nat (lf_Limit f))) with (S (page_size f)). rewrite cut_page_of by (unfold page_size; lia). eauto.
Qed.

Context (d : Database) (f : ListFilter).
Context (Hlim : (0 < lf_Limit f ≤ 200)%Z) (Hkeyed : keyed d).
Context (Hwf : ∀ u r, catalog_services d !! u = Some r → service_wf (row_service r)).
Context (Hcast : ∀ u r, catalog_services d !! u = Some r →
  cast_timestamptz (FormatRFC3339Nano (sr_created_at r)) = Some (sr_created_at r)).

Lemma listing_stored r : r ∈ listing f d → catalog_services d !! sr_id r = Some r.
Proof using Hkeyed.
  unfold listing, sorted_matches. rewrite merge_sort_Permutation. intros [_ Hr]%list_elem_of_filter.
  unfold all_rows in Hr. apply list_elem_of_fmap in Hr as ([u r'] & -> & Hin%elem_of_map_to_list).
  simpl in *. by rewrite (Hkeyed u r').
Qed.

Lemma listing_wf l1 l2 : listing f d = l1 ++ l2 → Forall (λ r, service_wf (row_service r)) l2.
Proof using Hkeyed Hwf.
  intros E. apply Forall_forall. intros r Hr. eapply Hwf, listing_stored. rewrite E. apply elem_of_app. by right.
Qed.

Lemma cursor_pos_row c r :
  r ∈ listing f d →
  cursor_pos (set_cursor f c) (mkCursor (lf_Sort f) (lf_Order f)
    (if decide (lf_Sort f = SortName) then sn_v (svc_name (row_service r)) else FormatRFC3339Nano (svc_createdAt (row_service r)))
    (ServiceID_String (svc_id (row_service r)))) = Ok (row_pos f r).
Proof using Hkeyed Hcast.
  intros Hr%listing_stored. unfold cursor_pos, row_pos, ServiceID_String.
  cbn [cur_ID cur_Value svc_id row_service sid_v lf_Sort set_cursor svc_name svc_createdAt sn_v].
  rewrite uuid_Parse_String. destruct (decide (lf_Sort f = SortName)); simpl; [done|].
  by rewrite (Hcast _ _ Hr).
Qed.

(** A page behind the rows [l1] is cut from the rest. *)
Lemma fetch_page_behind l1 l2 w :
  listing f d = l1 ++ l2 → w_db w = d →
  ∃ w', fetch_page f (cursor_at row_service (encodeCursor f) l1) w = Some (catalog_page f l2, w') ∧ w_db w' = d.
Proof using Hf Hlim Hkeyed Hwf Hcast.
  intros E Hw. pose proof (listing_wf _ _ E) as Hwf2. unfold fetch_page, cursor_at.
  assert (∃ w', List (set_cursor f (match last l1 with None => "" | Some x => encodeCursor f (row_service x) end)) w =
    (Ok (catalog_page f l2), w') ∧ w_db w' = d) as (w' & -> & Hw').
  { rewrite <- Hw. destruct (last l1) as [x|] eqn:El.
    - apply last_Some in El as [l0 ->]. rewrite <- app_assoc in E. simpl in E. set (c := encodeCursor f (row_service x)).
      eapply (List_calm (set_cursor f c) w (Some (row_pos f x)) l2); [done| | |done].
      + split; [apply encodeCursor_nonempty|]. simpl. unfold c. rewrite decode_encode.
        eexists. split; [done|]. apply cursor_pos_row. rewrite E. set_solver.
      + rewrite Hw. exact (catalog_behind f d l0 x l2 Hkeyed E).
    - apply last_None in El as ->. simpl in E. eapply (List_calm (set_cursor f "") w None l2); [done|done| |done].
      rewrite Hw, <- E. exact (select_first f d). }
  exists w'. split; [|done]. by destruct (catalog_page f l2).
Qed.

Lemma all_pages_listing w : w_db w = d → lf_Cursor f = "" → all_pages (S (length (listing f d))) f w = Some (map row_service (listing f d)).
Proof using Hf Hlim Hkeyed Hwf Hcast.
  intros Hw Hc. unfold all_pages. rewrite Hc.
  apply (follow_all row_service (encodeCursor f) (page_size f)) with (I := λ w, w_db w = d); [unfold page_size; lia| | |done].
  - intros s. apply encodeCursor_nonempty.
  - exact fetch_page_behind.
Qed.
End paging.

(** ** Properties *)

Section list_properties.
Context `{Env} {coll : Collation}.

(** C17: paging is complete and exact: following the cursors from the first page, for
    every filter, sort, order and page size, enumerates exactly the matching
    services, each once, in the requested order, and the enumeration ends. *)
Theorem paging_complete f d w :
  (∀ n, fault n = None) → w_db w = d → catalog_inv d → lf_Cursor f = "" → (0 < lf_Limit f ≤ 200)%Z →
  (∀ u r, catalog_services d !! u = Some r →
     cast_timestamptz (FormatRFC3339Nano (sr_created_at r)) = Some (sr_created_at r)) →
  ∃ l, all_pages (S (length l)) f w = Some (map row_service l) ∧
    l ≡ₚ filter (matches f) (all_rows d) ∧
    StronglySorted (λ r1 r2, ¬ before f (row_pos f r2) (row_pos f r1)) l.
Proof.
  intros Hf Hw Hinv Hc Hlim Hcast.
  assert (keyed d) as Hk by (intros u r Hr; by apply (inv_rows _ Hinv)).
  exists (listing f d). split_and!; [|apply merge_sort_Permutation|].
  - apply all_pages_listing; try done. intros u r Hr. by apply (inv_rows _ Hinv u).
  - apply (sorted_rows sr_id); [apply _|apply before_total|apply row_pos_key].
Qed.

(** C39: the text of the listing query never contains a value: it is the fixed base,
    the clauses of the conditions that are set joined by AND, and the ORDER BY
    and LIMIT tail; the placeholders are numbered in the order of the bound
    values, and every value is bound. *)
Theorem list_sql_text f (cur : option cursor) :
  let name := bool_decide (lf_Sort f = SortName) in let desc := bool_decide (lf_Order f = OrderDesc) in
  let n1 := if lf_TenantID f is Some _ then 1 else 0 in
  let n2 := n1 + if lf_Lifecycle f is Some _ then 1 else 0 in
  let n3 := n2 + if lf_Tier f is Some _ then 1 else 0 in
  let ph i := "$" +:+ Itoa (Z.of_nat i) in
  let col := if name then "name" else "created_at" in
  let dir := if desc then "DESC" else "ASC" in
  let clauses :=
    (if lf_TenantID f is Some _ then ["tenant_id = " +:+ ph 1 +:+ "::uuid"] else []) ++
    (if lf_Lifecycle f is Some _ then ["lifecycle = " +:+ ph n2] else []) ++
    (if lf_Tier f is Some _ then ["tier = " +:+ ph n3] else []) ++
    (if cur is Some _ then ["(" +:+ col +:+ ", id) " +:+ (if desc then "<" else ">") +:+ " (" +:+ ph (n3 + 1) +:+ "::" +:+
                  (if name then "text" else "timestamptz") +:+ ", " +:+ ph (n3 + 2) +:+ "::uuid)"] else []) in
  let q := list_query f cur in
  qb_sql q = base_sql +:+ (match clauses with [] => "" | _ => " WHERE " +:+ String.concat " AND " clauses end) +:+
    " ORDER BY " +:+ col +:+ " " +:+ dir +:+ ", id " +:+ dir +:+ " LIMIT " +:+ Itoa (wrap64 (lf_Limit f + 1)) ∧
  qb_values q =
    (if lf_TenantID f is Some t then [ArgText (TenantID_String t)] else []) ++
    (if lf_Lifecycle f is Some l then [ArgText l] else []) ++
    (if lf_Tier f is Some t then [ArgInt (tier_v t)] else []) ++
    (if cur is Some c then [ArgText (cur_Value c); ArgText (cur_ID c)] else []).
Proof.
  destruct f as [t l ti so o lim c]. unfold list_query. cbn [lf_TenantID lf_Lifecycle lf_Tier lf_Sort lf_Order lf_Limit].
  generalize (Itoa (wrap64 (lim + 1))) as n. intros n.
  destruct (decide (so = SortName)) as [Hs|Hs];
    [rewrite (bool_decide_eq_true_2 _ Hs)|rewrite (bool_decide_eq_false_2 _ Hs)];
    (destruct (decide (o = OrderDesc)) as [Ho|Ho];
      [rewrite (bool_decide_eq_true_2 _ Ho)|rewrite (bool_decide_eq_false_2 _ Ho)]);
    destruct t, l, ti, cur; (split; [|reflexivity]); try reflexivity;
    (erewrite qb_sql_insert; [|reflexivity|done|reflexivity]); reflexivity.
Qed.
End list_properties.

(** C40: cursors round-trip and are checked: decoding a cursor that [encodeCursor]
    produced gives its sort value and identifier back when sort and order are
    those it was made for, and is rejected as INVALID_CURSOR otherwise. *)
Theorem cursor_roundtrip `{UUIDLib} f s sort order :
  decodeCursor (encodeCursor f s) sort order =
    if decide (sort = lf_Sort f ∧ order = lf_Order f)
    then Ok (mkCursor sort order
               (if decide (sort = SortName) then sn_v (svc_name s) else FormatRFC3339Nano (svc_createdAt s))
               (uuid_String (sid_v (svc_id s))))
    else Err mismatched_cursor.
Proof.
  destruct (decide (sort = lf_Sort f ∧ order = lf_Order f)) as [[-> ->]|Hne]; [apply decode_encode|].
  unfold decodeCursor, encodeCursor. rewrite DecodeString_EncodeToString, unmarshal_cursor_json. simpl.
  destruct (decide (lf_Sort f = sort)) as [Es|]; [|by rewrite bool_decide_eq_true_2].
  destruct (decide (lf_Order f = order)) as [Eo|Ho]; [by destruct Hne|].
  by rewrite (bool_decide_eq_true_2 (lf_Order f ≠ order)), orb_true_r by done.
Qed.

(** ** Witnesses *)

#[local] Existing Instance demo_uuid.

#[local] Instance demo_text_lt_dec : RelDecision (λ a b : string, encode a < encode b)%positive.
Proof. intros a b. apply _. Defined.
#[local] Instance demo_text_lt_strict : StrictOrder (λ a b : string, encode a < encode b)%positive.
Proof. split; [intros a; unfold complement; lia|intros a b c; lia]. Qed.
#[local] Lemma demo_text_lt_total (a b : string) :
  (encode a < encode b)%positive ∨ a = b ∨ (encode b < encode a)%positive.
Proof. destruct (Pos.lt_total (encode a) (encode b)) as [?|[?%(inj encode)|?]]; auto. Qed.

#[local] Definition demo_collation : Collation :=
  {| text_lt a b := (encode a < encode b)%positive; text_lt_dec := demo_text_lt_dec;
     text_lt_strict := demo_text_lt_strict; text_lt_total := demo_text_lt_total;
     cast_timestamptz s := head (filter (λ t, FormatRFC3339Nano t = s) (seqZ 0 60)) |}.
#[local] Existing Instance demo_collation.

#[local] Definition demo_register (name : string) : Command :=
  CmdRegister (mkRegisterServiceInput "utenant" name "" 1 "" "payments" "pd://payments").
#[local] Definition w3 : World :=
  @run_commands _ calm_env (map demo_register ["a"; "b"; "c"]) (mkWorld empty_db 0 0).
#[local] Definition demo_filter : ListFilter := mkListFilter None (Some "experimental") None "name" "desc" 2 "".

Lemma paging_complete_witness :
  ∃ l, @all_pages _ calm_env _ (S (length l)) demo_filter w3 = Some (map row_service l) ∧
    l ≡ₚ filter (matches demo_filter) (all_rows (w_db w3)) ∧ length l = 3.
Proof.
  assert (catalog_inv (w_db w3)) as Hinv by apply run_commands_inv, catalog_inv_empty.
  assert (map_Forall (λ _ r, cast_timestamptz (FormatRFC3339Nano (sr_created_at r)) = Some (sr_created_at r))
            (catalog_services (w_db w3))) as Hall.
  { apply (bool_decide_unpack _). vm_compute. exact I. }
  destruct (@paging_complete _ calm_env _ demo_filter (w_db w3) w3 (λ _, eq_refl) eq_refl Hinv eq_refl
              ltac:(split; [reflexivity|discriminate]) Hall) as (l & Hl & Hp & _).
  exists l. split; [exact Hl|]. split; [exact Hp|]. rewrite Hp. vm_compute. reflexivity.
Defined.
