(* ===== verification/TenantDomain.v ===== *)
(** * Tenant domain (internal/modules/tenant/domain)

    The tenant aggregate: name, slug, plan, status and quota, the operations
    [ChangeStatus] and [UpdateQuota], and the events they record. *)
From S2P Require Import Prelude GoStrings Regexp Apperr Uuid.

Definition ErrInvalidTenantID := Validation "INVALID_TENANT_ID" "tenant id is not a valid identifier".
Definition ErrInvalidTenantName := Validation "INVALID_TENANT_NAME" "tenant name must be 1 to 100 characters".
Definition ErrInvalidSlug := Validation "INVALID_SLUG" "slug must be a DNS-1123 label of 1 to 63 characters".
Definition ErrInvalidPlan := Validation "INVALID_PLAN" "plan must be one of free, standard, enterprise".
Definition ErrInvalidStatus := Validation "INVALID_STATUS" "status must be one of active, suspended, archived".
Definition ErrInvalidQuota := Validation "INVALID_QUOTA" "max services must not be negative".
Definition ErrIllegalTransition := Precondition "ILLEGAL_STATUS_TRANSITION" "the requested status transition is not permitted".
Definition ErrArchived := Precondition "TENANT_ARCHIVED" "an archived tenant cannot be modified".
Definition ErrTenantNotFound := NotFound "TENANT_NOT_FOUND" "tenant not found".
Definition ErrSlugConflict := Conflict "SLUG_CONFLICT" "a tenant with this slug already exists".
Definition ErrVersionConflict := Conflict "VERSION_CONFLICT" "the tenant was modified concurrently; retry with the current version".

(** ** Values (values.go) *)

Record TenantName := mkTenantName { tn_v : string }.
Record Slug := mkSlug { slug_v : string }.
Record Quota := mkQuota { MaxServices : Z }.

Definition slugPattern : re := dns1123.

Definition NewTenantName (s : string) : result goerror TenantName :=
  let s := TrimSpace s in
  if (len s <? 1) || (100 <? len s) then Err ErrInvalidTenantName else Ok (mkTenantName s).

Definition NewSlug (s : string) : result goerror Slug :=
  let s := TrimSpace s in
  if (len s <? 1) || (63 <? len s) || negb (MatchString slugPattern s)
  then Err ErrInvalidSlug else Ok (mkSlug s).

Definition PlanFree : string := "free".
Definition PlanStandard : string := "standard".
Definition PlanEnterprise : string := "enterprise".
Definition validPlans : gmap string bool := {[ PlanFree := true; PlanStandard := true; PlanEnterprise := true ]}.
Definition ParsePlan (s : string) : result goerror string :=
  if negb (default false (validPlans !! s)) then Err ErrInvalidPlan else Ok s.

Definition StatusActive : string := "active".
Definition StatusSuspended : string := "suspended".
Definition StatusArchived : string := "archived".
Definition statusTransitions : gmap string (gmap string bool) :=
  {[ StatusActive := {[ StatusSuspended := true; StatusArchived := true ]};
     StatusSuspended := {[ StatusActive := true; StatusArchived := true ]};
     StatusArchived := ∅ ]}.
Definition ParseStatus (s : string) : result goerror string :=
  match statusTransitions !! s with None => Err ErrInvalidStatus | Some _ => Ok s end.
Definition canTransitionTo (s target : string) : bool :=
  default false (default ∅ (statusTransitions !! s) !! target).

Definition NewQuota (maxServices : Z) : result goerror Quota :=
  if (maxServices <? 0)%Z then Err ErrInvalidQuota else Ok (mkQuota maxServices).

(** ** Events (events.go) *)

Record base := mkBase { base_id : string; base_at : Z }.
Inductive Event : Type :=
| TenantCreated (b : base) (Name Slug Plan : string)
| TenantStatusChanged (b : base) (From To : string)
| TenantQuotaUpdated (b : base) (MaxServices : Z).

Definition event_base (e : Event) : base :=
  match e with TenantCreated b _ _ _ | TenantStatusChanged b _ _ | TenantQuotaUpdated b _ => b end.
Definition AggregateID (e : Event) : string := base_id (event_base e).
Definition OccurredAt (e : Event) : Z := base_at (event_base e).
Definition EventType (e : Event) : string :=
  match e with
  | TenantCreated _ _ _ _ => "tenant.created"
  | TenantStatusChanged _ _ _ => "tenant.status_changed"
  | TenantQuotaUpdated _ _ => "tenant.quota_updated"
  end.

(** ** The aggregate (ids.go, tenant.go) *)

Section aggregate.
Context `{UUIDLib}.

Record TenantID := mkTenantID { tid_v : uuid }.
Definition NewTenantID (fresh : uuid) : TenantID := mkTenantID fresh.
Definition TenantIDFromString (s : string) : result goerror TenantID :=
  match uuid_Parse s with None => Err ErrInvalidTenantID | Some u => Ok (mkTenantID u) end.
Definition TenantID_String (i : TenantID) : string := uuid_String (tid_v i).
Definition TenantID_IsZero (i : TenantID) : bool := bool_decide (tid_v i = uuid_Nil).

Record Tenant := mkTenant {
  tn_id : TenantID;
  tn_name : TenantName;
  tn_slug : Slug;
  tn_plan : string;
  tn_status : string;
  tn_quota : Quota;
  tn_version : Z;
  tn_createdAt : Z;
  tn_updatedAt : Z;
  tn_events : list Event
}.

Definition set_status (t : Tenant) x := mkTenant (tn_id t) (tn_name t) (tn_slug t) (tn_plan t) x (tn_quota t)
  (tn_version t) (tn_createdAt t) (tn_updatedAt t) (tn_events t).
Definition set_quota (t : Tenant) x := mkTenant (tn_id t) (tn_name t) (tn_slug t) (tn_plan t) (tn_status t) x
  (tn_version t) (tn_createdAt t) (tn_updatedAt t) (tn_events t).
Definition set_events (t : Tenant) x := mkTenant (tn_id t) (tn_name t) (tn_slug t) (tn_plan t) (tn_status t) (tn_quota t)
  (tn_version t) (tn_createdAt t) (tn_updatedAt t) x.

(** [t.version++] wraps around at 64 bits. *)
Definition touch (t : Tenant) (now : Z) : Tenant :=
  mkTenant (tn_id t) (tn_name t) (tn_slug t) (tn_plan t) (tn_status t) (tn_quota t)
    (wrap64 (tn_version t + 1)) (tn_createdAt t) now (tn_events t).
Definition record_event (t : Tenant) (e : Event) : Tenant := set_events t (tn_events t ++ [e]).
Definition PullEvents (t : Tenant) : list Event * Tenant := (tn_events t, set_events t []).

Definition Create (i : TenantID) (n : TenantName) (s : Slug) (plan : string) (q : Quota) (now : Z) : Tenant :=
  let t := mkTenant i n s plan StatusActive q 1 now now [] in
  record_event t (TenantCreated (mkBase (TenantID_String i) now) (tn_v n) (slug_v s) plan).

Definition Reconstitute (i : TenantID) (n : TenantName) (s : Slug) (plan status : string) (q : Quota)
    (v created updated : Z) : Tenant :=
  mkTenant i n s plan status q v created updated [].

Definition ChangeStatus (t : Tenant) (target : string) (now : Z) : result goerror Tenant :=
  if decide (tn_status t = target) then Ok t
  else if negb (canTransitionTo (tn_status t) target) then Err ErrIllegalTransition
  else
    let from := tn_status t in
    let t := set_status t target in
    let t := touch t now in
    Ok (record_event t (TenantStatusChanged (mkBase (TenantID_String (tn_id t)) now) from target)).

Definition UpdateQuota (t : Tenant) (q : Quota) (now : Z) : result goerror Tenant :=
  if decide (tn_status t = StatusArchived) then Err ErrArchived
  else
    let t := set_quota t q in
    let t := touch t now in
    Ok (record_event t (TenantQuotaUpdated (mkBase (TenantID_String (tn_id t)) now) (MaxServices q))).
End aggregate.

(** ** What the constructors accept *)

Definition name_wf (n : TenantName) : Prop := trimmed (tn_v n) ∧ 1 ≤ len (tn_v n) ≤ 100.
Definition slug_wf (s : Slug) : Prop := dns_label (slug_v s) ∧ 1 ≤ len (slug_v s) ≤ 63.
Definition plan_wf (p : string) : Prop := p ∈ [PlanFree; PlanStandard; PlanEnterprise].
Definition status_wf (s : string) : Prop := s ∈ [StatusActive; StatusSuspended; StatusArchived].
Definition quota_wf (q : Quota) : Prop := (0 ≤ MaxServices q)%Z.

Lemma NewTenantName_Ok s n : NewTenantName s = Ok n ↔ n = mkTenantName (TrimSpace s) ∧ name_wf n.
Proof.
  unfold NewTenantName, name_wf.
  destruct (Nat.ltb_spec (len (TrimSpace s)) 1), (Nat.ltb_spec 100 (len (TrimSpace s))); simpl;
    split; intros Hn; simplify_eq; destruct_and?; subst; simpl in *; try lia;
    split; [done|split; [auto with forge|lia]].
Qed.
Lemma NewSlug_Ok s x : NewSlug s = Ok x ↔ x = mkSlug (TrimSpace s) ∧ slug_wf x.
Proof.
  unfold NewSlug, slug_wf, slugPattern.
  pose proof (dns1123_spec (TrimSpace s)) as Hd.
  destruct (Nat.ltb_spec (len (TrimSpace s)) 1), (Nat.ltb_spec 63 (len (TrimSpace s))),
    (MatchString dns1123 (TrimSpace s)); simpl; split; intros Hn; simplify_eq; destruct_and?; subst; simpl in *;
    first [lia | done | split; [done|split; [by apply Hd|lia]] | by assert (false = true) by (by apply Hd)].
Qed.
Lemma ParsePlan_Ok s p : ParsePlan s = Ok p ↔ p = s ∧ plan_wf s.
Proof.
  unfold ParsePlan, validPlans, plan_wf. rewrite !elem_of_cons, elem_of_nil.
  rewrite !lookup_insert, lookup_singleton. repeat case_decide; subst; simpl; naive_solver.
Qed.
Lemma ParseStatus_Ok s p : ParseStatus s = Ok p ↔ p = s ∧ status_wf s.
Proof.
  unfold ParseStatus, statusTransitions, status_wf. rewrite !elem_of_cons, elem_of_nil.
  rewrite !lookup_insert, lookup_singleton. repeat case_decide; subst; simpl; naive_solver.
Qed.
Lemma NewQuota_Ok n q : NewQuota n = Ok q ↔ q = mkQuota n ∧ quota_wf q.
Proof.
  unfold NewQuota, quota_wf. destruct (Z.ltb_spec n 0); split; intros Hq; simplify_eq;
    destruct_and?; subst; simpl in *; try lia; split; [done|simpl; lia].
Qed.

(** The transition table as a list of pairs. *)
Definition transitions : list (string * string) :=
  [(StatusActive, StatusSuspended); (StatusActive, StatusArchived);
   (StatusSuspended, StatusActive); (StatusSuspended, StatusArchived)].
Lemma tenant_canTransitionTo_spec s t : canTransitionTo s t = true ↔ (s, t) ∈ transitions.
Proof.
  unfold canTransitionTo, statusTransitions, transitions.
  rewrite !elem_of_cons, elem_of_nil, !pair_equal_spec, !lookup_insert, lookup_singleton.
  repeat case_decide; subst; simpl; rewrite ?lookup_insert, ?lookup_singleton, ?lookup_empty;
    repeat case_decide; subst; simpl; naive_solver.
Qed.

Section aggregate_facts.
Context `{UUIDLib}.

Record tenant_wf (t : Tenant) : Prop := {
  twf_name : name_wf (tn_name t);
  twf_slug : slug_wf (tn_slug t);
  twf_plan : plan_wf (tn_plan t);
  twf_status : status_wf (tn_status t);
  twf_quota : quota_wf (tn_quota t);
  twf_version : in_int64 (tn_version t)
}.

Inductive Op : Type :=
| OpStatus (target : string)
| OpQuota (q : Quota).
Definition run_op (op : Op) (t : Tenant) (now : Z) : result goerror Tenant :=
  match op with OpStatus s => ChangeStatus t s now | OpQuota q => UpdateQuota t q now end.
Definition op_wf (op : Op) : Prop :=
  match op with OpStatus s => status_wf s | OpQuota q => quota_wf q end.

(** An operation changes nothing, or makes one recorded step that keeps identity,
    name, slug, plan and creation time. *)
Definition stepped (t t' : Tenant) (e : Event) : Prop :=
  tn_id t' = tn_id t ∧ tn_name t' = tn_name t ∧ tn_slug t' = tn_slug t ∧ tn_plan t' = tn_plan t ∧
  tn_createdAt t' = tn_createdAt t ∧ tn_version t' = wrap64 (tn_version t + 1) ∧
  tn_events t' = tn_events t ++ [e] ∧ AggregateID e = TenantID_String (tn_id t).

Lemma run_op_step op t now t' : run_op op t now = Ok t' → t' = t ∨ ∃ e, stepped t t' e.
Proof.
  destruct op; simpl; unfold ChangeStatus, UpdateQuota; intros E; case_all; [by left|..];
    right; eexists; by split_and!.
Qed.

Lemma tenant_run_op_wf op t now t' : op_wf op → tenant_wf t → run_op op t now = Ok t' → tenant_wf t'.
Proof.
  intros Hop []. destruct op; simpl in *; unfold ChangeStatus, UpdateQuota; intros E; case_all; try done;
    constructor; simpl; auto with forge.
Qed.

Lemma Create_wf i n s p q now :
  name_wf n → slug_wf s → plan_wf p → quota_wf q → tenant_wf (Create i n s p q now).
Proof. intros. constructor; try done. simpl. by left. Qed.

(** The status of a tenant moves only along the four permitted transitions, by one
    recorded step each; a request for the current status changes nothing, every
    other one is refused with ILLEGAL_STATUS_TRANSITION; and an archived tenant
    is final: neither its status nor its quota can change. *)
Theorem tenant_status_machine t target q now :
  match ChangeStatus t target now with
  | Ok t' => (tn_status t = target ∧ t' = t) ∨
      ((tn_status t, target) ∈ transitions ∧ tn_status t' = target ∧ tn_quota t' = tn_quota t ∧
       stepped t t' (TenantStatusChanged (mkBase (TenantID_String (tn_id t)) now) (tn_status t) target))
  | Err e => tn_status t ≠ target ∧ (tn_status t, target) ∉ transitions ∧ e = ErrIllegalTransition
  end ∧
  (tn_status t = StatusArchived →
     (∀ t', ChangeStatus t target now = Ok t' → t' = t) ∧ UpdateQuota t q now = Err ErrArchived).
Proof.
  pose proof (tenant_canTransitionTo_spec (tn_status t) target) as Ht. split.
  - unfold ChangeStatus. destruct (decide (tn_status t = target)); [by left|].
    destruct (canTransitionTo (tn_status t) target); simpl.
    + right. split_and!; try done. by apply Ht.
    + split_and!; try done. by rewrite <- Ht.
  - intros Ha. unfold ChangeStatus, UpdateQuota. rewrite (decide_True _ _ Ha). split; [|done].
    intros t'. destruct (decide (tn_status t = target)); [by intros [= <-]|].
    rewrite Ha. replace (canTransitionTo StatusArchived target) with false; [done|].
    symmetry. apply not_true_iff_false. rewrite tenant_canTransitionTo_spec. unfold transitions.
    rewrite !elem_of_cons, elem_of_nil, !pair_equal_spec. naive_solver.
Qed.
End aggregate_facts.
