(* ===== verification/TenantApp.v ===== *)
(** * Tenant persistence and use cases (internal/modules/tenant/adapters/postgres,
    internal/modules/tenant/app)

    The repository and outbox of the tenants and the commands over them.  The
    column [max_services] is a 32-bit integer: the driver refuses to encode a
    larger quota.  [tenants_inv] is the invariant of the stored tables. *)
From S2P Require Import Prelude GoStrings Regexp Apperr Uuid Postgres TenantDomain.

(** ** Persistence *)

Section rows.
Context `{UUIDLib}.

Definition tenant_row (round : Z → Z) (t : Tenant) : TenantRow :=
  mkTenantRow (tid_v (tn_id t)) (tn_v (tn_name t)) (slug_v (tn_slug t)) (tn_plan t) (tn_status t)
    (MaxServices (tn_quota t)) (tn_version t) (round (tn_createdAt t)) (round (tn_updatedAt t)).

Definition corrupt (e : goerror) : goerror :=
  WithCause (Internal "DATA_CORRUPTION" "stored tenant data is invalid") e.
Definition or_corrupt {A} (r : result goerror A) : result goerror A :=
  match r with Ok a => Ok a | Err e => Err (corrupt e) end.

Definition scan_row (r : TenantRow) : result goerror Tenant :=
  tid ← or_corrupt (TenantIDFromString (uuid_String (tr_id r)));
  tname ← or_corrupt (NewTenantName (tr_name r));
  tslug ← or_corrupt (NewSlug (tr_slug r));
  tplan ← or_corrupt (ParsePlan (tr_plan r));
  tstatus ← or_corrupt (ParseStatus (tr_status r));
  tquota ← or_corrupt (NewQuota (tr_max_services r));
  Ok (Reconstitute tid tname tslug tplan tstatus tquota (tr_version r) (tr_created_at r) (tr_updated_at r)).

Definition scanTenant (r : result goerror TenantRow) : result goerror Tenant :=
  match r with
  | Err e => if Is e ENoRows then Err ErrTenantNotFound else Err (EWrap "scan tenant" e)
  | Ok row => scan_row row
  end.

(** The CHECK constraints, and the range of INTEGER. *)
Definition tenant_check (r : TenantRow) : bool :=
  bool_decide (tr_plan r ∈ ["free"; "standard"; "enterprise"]) &&
  bool_decide (tr_status r ∈ ["active"; "suspended"; "archived"]) && (0 <=? tr_max_services r)%Z.
Definition encode_error : goerror := EOther "unable to encode value into int4: out of range".

Definition insert_tenant (r : TenantRow) (d : Database) : result goerror (unit * Database) :=
  if negb (bool_decide (in_int32 (tr_max_services r))) then Err encode_error
  else if negb (tenant_check r) then Err check_violation
  else if decide (is_Some (tenants d !! tr_id r)) then Err unique_violation
  else if decide (map_Exists (λ _ r', tr_slug r' = tr_slug r) (tenants d)) then Err unique_violation
  else Ok (tt, set_tenants d (<[tr_id r := r]> (tenants d))).

(** SET of the UPDATE: the slug and the creation time stay. *)
Definition update_columns (old new : TenantRow) : TenantRow :=
  mkTenantRow (tr_id old) (tr_name new) (tr_slug old) (tr_plan new) (tr_status new) (tr_max_services new)
    (tr_version new) (tr_created_at old) (tr_updated_at new).
Definition update_tenant (new : TenantRow) (expectedVersion : Z) (d : Database) : result goerror (nat * Database) :=
  if negb (bool_decide (in_int32 (tr_max_services new))) then Err encode_error else
  match tenants d !! tr_id new with
  | None => Ok (0, d)
  | Some old =>
    if decide (tr_version old = expectedVersion) then
      if negb (tenant_check (update_columns old new)) then Err check_violation
      else Ok (1, set_tenants d (<[tr_id new := update_columns old new]> (tenants d)))
    else Ok (0, d)
  end.

Definition event_data (e : Event) : json :=
  match e with
  | TenantCreated _ n s p => JObj [("name", JStr n); ("slug", JStr s); ("plan", JStr p)]
  | TenantStatusChanged _ f t => JObj [("from", JStr f); ("to", JStr t)]
  | TenantQuotaUpdated _ n => JObj [("maxServices", JNum n)]
  end.
Definition envelope (e : Event) : json :=
  JObj [("eventType", JStr (EventType e)); ("aggregateId", JStr (AggregateID e)); ("data", event_data e)].

Definition insert_outbox (i : uuid) (e : Event) (occurred : Z) (d : Database) (now_ : Z)
    : result goerror (unit * Database) :=
  match uuid_Parse (AggregateID e) with
  | None => Err invalid_text
  | Some agg =>
    if decide (Exists (λ r, ob_id r = i) (outbox_events d)) then Err unique_violation
    else Ok (tt, set_outbox d (outbox_events d ++
              [mkOutboxRow i agg (EventType e) (envelope e) occurred None now_]))
  end.
End rows.

Section adapter.
Context `{Env}.

Definition Insert (t : Tenant) : M unit :=
  catch (stmt (λ d _, insert_tenant (tenant_row timestamptz t) d)) (λ r,
    match r with
    | Err e => if isUniqueViolation e then fail ErrSlugConflict else fail (EWrap "insert tenant" e)
    | Ok _ => mret tt
    end).

Definition FindByID (i : TenantID) : M Tenant :=
  catch (query (λ d, or_err (tenants d !! tid_v i) ENoRows)) (λ r, lift (scanTenant r)).

Definition FindBySlug (s : Slug) : M Tenant :=
  catch (query (λ d, or_err (head (filter (λ r, tr_slug r = slug_v s) (map_to_list (tenants d)).*2)) ENoRows))
    (λ r, lift (scanTenant r)).

(** Zero rows affected: tell a missing row from a version conflict. *)
Definition no_row_updated (t : Tenant) : M unit :=
  catch (FindByID (tn_id t)) (λ r,
    match r with
    | Err e => if Is e ErrTenantNotFound then fail ErrTenantNotFound else fail ErrVersionConflict
    | Ok _ => fail ErrVersionConflict
    end).

Definition Update (t : Tenant) (expectedVersion : Z) : M unit :=
  n ← wrap_err "update tenant" (stmt (λ d _, update_tenant (tenant_row timestamptz t) expectedVersion d));
  if decide (n = 0) then no_row_updated t else mret tt.

Fixpoint Append (es : list Event) : M unit :=
  match es with
  | [] => mret tt
  | e :: es' =>
    i ← id_New;
    _ ← wrap_err "append outbox event" (stmt (insert_outbox i e (timestamptz (OccurredAt e))));
    Append es'
  end.
End adapter.

(** ** Use cases *)

Record CreateTenantInput := mkCreateTenantInput { ct_Name : string; ct_Slug : string; ct_Plan : string; ct_MaxServices : Z }.
Record ChangeStatusInput := mkChangeStatusInput { cs_TenantID : string; cs_Status : string; cs_ExpectedVersion : Z }.
Record UpdateQuotaInput := mkUpdateQuotaInput { uq_TenantID : string; uq_MaxServices : Z; uq_ExpectedVersion : Z }.

Definition expectedVersionOr (provided current : Z) : Z :=
  if (0 <? provided)%Z then provided else current.

Section commands.
Context `{Env}.

(** The parts of [CreateTenant]: the aggregate, and the two halves of its unit of work. *)
Definition create_tenant (inp : CreateTenantInput) : M Tenant :=
  name ← lift (NewTenantName (ct_Name inp));
  slug ← lift (NewSlug (ct_Slug inp));
  plan ← lift (ParsePlan (ct_Plan inp));
  quota ← lift (NewQuota (ct_MaxServices inp));
  fresh ← id_New;
  now ← Now;
  mret (Create (NewTenantID fresh) name slug plan quota now).

Definition create_check (tenant : Tenant) : M unit :=
  catch (FindBySlug (tn_slug tenant)) (λ r,
    match r with
    | Ok _ => fail ErrSlugConflict
    | Err e => if negb (bool_decide (e = ErrTenantNotFound)) then fail e else mret tt
    end).

Definition create_insert (tenant : Tenant) : M Tenant :=
  _ ← Insert tenant;
  let '(es, tenant') := PullEvents tenant in
  _ ← Append es;
  mret tenant'.

Definition CreateTenant (inp : CreateTenantInput) : M Tenant :=
  tenant ← create_tenant inp;
  Execute (
    _ ← create_check tenant;
    create_insert tenant).

(** The two halves of the unit of work of [mutate]: load and apply, then store. *)
Definition tenant_load (i : TenantID) (apply_ : Tenant → M Tenant) : M (Z * Tenant) :=
  tenant ← FindByID i;
  tenant' ← apply_ tenant;
  mret (tn_version tenant, tenant').

Definition tenant_store (expectedVersion current : Z) (tenant : Tenant) : M Tenant :=
  _ ← Update tenant (expectedVersionOr expectedVersion current);
  let '(es, tenant') := PullEvents tenant in
  _ ← Append es;
  mret tenant'.

Definition mutate (i : TenantID) (expectedVersion : Z) (apply_ : Tenant → M Tenant) : M Tenant :=
  Execute (
    cs ← tenant_load i apply_;
    tenant_store expectedVersion cs.1 cs.2).

Definition ChangeStatus (inp : ChangeStatusInput) : M Tenant :=
  i ← lift (TenantIDFromString (cs_TenantID inp));
  status ← lift (ParseStatus (cs_Status inp));
  mutate i (cs_ExpectedVersion inp) (λ t, now ← Now; lift (TenantDomain.ChangeStatus t status now)).

Definition UpdateQuota (inp : UpdateQuotaInput) : M Tenant :=
  i ← lift (TenantIDFromString (uq_TenantID inp));
  quota ← lift (NewQuota (uq_MaxServices inp));
  mutate i (uq_ExpectedVersion inp) (λ t, now ← Now; lift (TenantDomain.UpdateQuota t quota now)).

Definition GetTenant (tenantID : string) : M Tenant :=
  i ← lift (TenantIDFromString tenantID);
  FindByID i.

Inductive TenantCommand : Type :=
| CmdCreate (inp : CreateTenantInput)
| CmdStatus (inp : ChangeStatusInput)
| CmdQuota (inp : UpdateQuotaInput).
Definition run_tenant_command (c : TenantCommand) : M Tenant :=
  match c with CmdCreate i => CreateTenant i | CmdStatus i => ChangeStatus i | CmdQuota i => UpdateQuota i end.
End commands.

(** ** The stored tables *)

Section invariant.
Context `{UUIDLib}.

Definition row_tenant (r : TenantRow) : Tenant :=
  mkTenant (mkTenantID (tr_id r)) (mkTenantName (tr_name r)) (mkSlug (tr_slug r)) (tr_plan r) (tr_status r)
    (mkQuota (tr_max_services r)) (tr_version r) (tr_created_at r) (tr_updated_at r) [].

Definition tenant_types : list string := ["tenant.created"; "tenant.status_changed"; "tenant.quota_updated"].
Definition about (u : uuid) (r : OutboxRow) : Prop := ob_aggregate_id r = u ∧ ob_event_type r ∈ tenant_types.
#[global] Instance about_dec u r : Decision (about u r).
Proof. unfold about. apply _. Defined.
Definition tenant_outbox (u : uuid) (d : Database) : list OutboxRow := filter (about u) (outbox_events d).

Record tenants_inv (d : Database) : Prop := {
  ti_rows u r : tenants d !! u = Some r → tr_id r = u ∧ tenant_wf (row_tenant r);
  ti_slug u1 u2 r1 r2 : tenants d !! u1 = Some r1 → tenants d !! u2 = Some r2 → tr_slug r1 = tr_slug r2 → u1 = u2;
  ti_version u r : tenants d !! u = Some r →
    tr_version r = wrap64 (Z.of_nat (length (tenant_outbox u d)));
  ti_none u : tenants d !! u = None → tenant_outbox u d = []
}.

Lemma tenant_scan_row_wf r : tenant_wf (row_tenant r) → scan_row r = Ok (row_tenant r).
Proof.
  intros [[Hn Hnl] [Hd Hsl] Hp Hs Hq _]. unfold scan_row, TenantIDFromString. simpl in *.
  rewrite uuid_Parse_String. simpl.
  rewrite (proj2 (NewTenantName_Ok (tr_name r) (mkTenantName (tr_name r)))) by (unfold trimmed in Hn; split; [by rewrite Hn|done]).
  simpl. rewrite (proj2 (NewSlug_Ok (tr_slug r) (mkSlug (tr_slug r))))
    by (split; [by rewrite (dns_label_trimmed _ Hd)|done]).
  simpl. rewrite (proj2 (ParsePlan_Ok _ (tr_plan r))) by done. simpl.
  rewrite (proj2 (ParseStatus_Ok _ (tr_status r))) by done. simpl.
  by rewrite (proj2 (NewQuota_Ok _ (mkQuota (tr_max_services r)))) by done.
Qed.

Lemma tenant_row_wf round t : tenant_wf t → tenant_wf (row_tenant (tenant_row round t)).
Proof.
  destruct t as [i n s p st q v c u es]. intros []. simpl in *.
  constructor; simpl; try done; destruct n, s, q; done.
Qed.
End invariant.

Section facts.
Context `{Env}.

Definition appended (es : list Event) (rows : list OutboxRow) : Prop :=
  Forall2 (λ e r, uuid_Parse (AggregateID e) = Some (ob_aggregate_id r) ∧ ob_event_type r = EventType e ∧
                  ob_payload r = envelope e) es rows.

Lemma tenant_wp_FindByID i w :
  wp (FindByID i) w (λ r w', w_db w' = w_db w ∧
    match r with
    | Ok t => ∃ row, tenants (w_db w) !! tid_v i = Some row ∧ scan_row row = Ok t
    | Err _ => True
    end).
Proof.
  unfold FindByID. wp_steps. apply wp_query; [intros e _; wp_steps; split; [done|simpl; by destruct (Is e ENoRows)]|]. wp_steps. split; [done|].
  destruct (tenants (w_db w) !! tid_v i) as [row|]; simpl; [|done].
  destruct (scan_row row) eqn:E; eauto.
Qed.

Lemma wp_FindBySlug s w : wp (FindBySlug s) w (λ _ w', w_db w' = w_db w).
Proof. unfold FindBySlug. wp_steps. apply wp_query; intros; by wp_steps. Qed.

Lemma tenant_wp_Insert t w :
  wp (Insert t) w (λ r w',
    match r with
    | Ok _ => tenants (w_db w) !! tid_v (tn_id t) = None ∧
        ¬ map_Exists (λ _ r', tr_slug r' = slug_v (tn_slug t)) (tenants (w_db w)) ∧
        w_db w' = set_tenants (w_db w) (<[tid_v (tn_id t) := tenant_row timestamptz t]> (tenants (w_db w)))
    | Err _ => True
    end).
Proof.
  unfold Insert. wp_steps. apply wp_stmt.
  - intros e _. case_match; by wp_steps.
  - unfold insert_tenant. simpl.
    destruct (bool_decide (in_int32 _)); simpl; [|by wp_steps].
    destruct (tenant_check _); simpl; [|by wp_steps].
    destruct (decide (is_Some _)) as [|Hn]; [by wp_steps|].
    destruct (decide (map_Exists _ _)) as [|Hs]; [by wp_steps|].
    wp_steps. split_and!; [by apply eq_None_not_Some|done|done].
Qed.

Lemma tenant_wp_no_row_updated t w Q : (∀ e w', Q (Err e) w') → wp (no_row_updated t) w Q.
Proof.
  intros HQ. unfold no_row_updated. wp_steps. eapply wp_mono; [apply wp_self|].
  intros [a|e] w' _; [wp_steps; auto|]. destruct (Is e ErrTenantNotFound); wp_steps; auto.
Qed.

Lemma tenant_wp_Update t v w :
  wp (Update t v) w (λ r w',
    match r with
    | Ok _ => ∃ old, tenants (w_db w) !! tid_v (tn_id t) = Some old ∧ tr_version old = v ∧
        w_db w' = set_tenants (w_db w)
          (<[tid_v (tn_id t) := update_columns old (tenant_row timestamptz t)]> (tenants (w_db w)))
    | Err _ => True
    end).
Proof.
  unfold Update. wp_steps. apply wp_stmt; [by intros|]. unfold update_tenant. simpl.
  destruct (bool_decide (in_int32 _)); simpl; [|done].
  destruct (tenants (w_db w) !! tid_v (tn_id t)) as [old|] eqn:Eo.
  2:{ rewrite decide_True by done. by apply tenant_wp_no_row_updated. }
  destruct (decide (tr_version old = v)) as [Hv|].
  2:{ rewrite decide_True by done. by apply tenant_wp_no_row_updated. }
  destruct (tenant_check _); simpl; [|done]. wp_steps. eauto.
Qed.

Lemma tenant_wp_Append es w :
  wp (Append es) w (λ r w',
    match r with
    | Ok _ => ∃ rows, appended es rows ∧ w_db w' = set_outbox (w_db w) (outbox_events (w_db w) ++ rows)
    | Err _ => True
    end).
Proof.
  revert w. induction es as [|e es IH]; intros w; simpl; wp_steps.
  { exists []. split; [constructor|]. rewrite app_nil_r. by destruct w as [[]]. }
  apply wp_stmt; [by intros|]. unfold insert_outbox.
  destruct (uuid_Parse (AggregateID e)) as [agg|] eqn:Ea; [|done].
  destruct (decide (Exists _ _)); [done|]. eapply wp_mono; [apply IH|]. intros [?|e'] w'; [|done].
  intros (rows & Hr & ->).
  exists (mkOutboxRow u agg (EventType e) (envelope e) (timestamptz (OccurredAt e)) None (w_tx_now w) :: rows).
  split; [by constructor|]. unfold set_outbox. simpl. by rewrite <- app_assoc.
Qed.

(** What a successful command does to the database. *)
Definition created (inp : CreateTenantInput) (t' : Tenant) (d d' : Database) : Prop :=
  ∃ fresh now n s p q rows,
    NewTenantName (ct_Name inp) = Ok n ∧ NewSlug (ct_Slug inp) = Ok s ∧ ParsePlan (ct_Plan inp) = Ok p ∧
    NewQuota (ct_MaxServices inp) = Ok q ∧
    let t := Create (mkTenantID fresh) n s p q now in
    t' = (PullEvents t).2 ∧ tenants d !! fresh = None ∧
    ¬ map_Exists (λ _ r', tr_slug r' = slug_v s) (tenants d) ∧ appended (tn_events t) rows ∧
    d' = set_outbox (set_tenants d (<[fresh := tenant_row timestamptz t]> (tenants d))) (outbox_events d ++ rows).

Definition mutated (i : TenantID) (v : Z) (op : Op) (t' : Tenant) (d d' : Database) : Prop :=
  ∃ old now t rows, tenants d !! tid_v i = Some old ∧ (0 < v → tr_version old = v)%Z ∧
    run_op op (row_tenant old) now = Ok t ∧ t' = (PullEvents t).2 ∧ appended (tn_events t) rows ∧
    d' = set_outbox (set_tenants d (<[tid_v i := update_columns old (tenant_row timestamptz t)]> (tenants d)))
           (outbox_events d ++ rows).

Definition command_op (c : TenantCommand) : result goerror (TenantID * Z * Op) :=
  match c with
  | CmdCreate _ => Err ErrTenantNotFound
  | CmdStatus i => u ← TenantIDFromString (cs_TenantID i); s ← ParseStatus (cs_Status i);
                   Ok (u, cs_ExpectedVersion i, OpStatus s)
  | CmdQuota i => u ← TenantIDFromString (uq_TenantID i); q ← NewQuota (uq_MaxServices i);
                  Ok (u, uq_ExpectedVersion i, OpQuota q)
  end.
Definition tenant_effect (c : TenantCommand) (t' : Tenant) (d d' : Database) : Prop :=
  match c with
  | CmdCreate i => created i t' d d'
  | _ => match command_op c with Ok (u, v, op) => mutated u v op t' d d' | Err _ => False end
  end.

Lemma tenant_run_op_id op t now t' : run_op op t now = Ok t' → tn_id t' = tn_id t.
Proof. intros [->|(e & Hs)]%run_op_step; [done|apply Hs]. Qed.

Definition apply_tenant_op (op : Op) (t : Tenant) : M Tenant := now ← Now; lift (run_op op t now).

Lemma wp_tenant_load i op w :
  tenants_inv (w_db w) →
  wp (tenant_load i (apply_tenant_op op)) w (λ r w', w_db w' = w_db w ∧
    match r with
    | Ok (cur, t1) => ∃ old now, tenants (w_db w) !! tid_v i = Some old ∧
        run_op op (row_tenant old) now = Ok t1 ∧ cur = tr_version old ∧ tid_v (tn_id t1) = tid_v i
    | Err _ => True
    end).
Proof.
  intros Hinv. unfold tenant_load, apply_tenant_op. wp_steps.
  eapply wp_mono; [apply tenant_wp_FindByID|]. intros [t0|e] w2 [Hd2 Ht0]; [|done].
  destruct Ht0 as (old & Hold & Hscan). destruct (ti_rows _ Hinv _ _ Hold) as [Hid Hwf].
  rewrite (tenant_scan_row_wf _ Hwf) in Hscan. simplify_eq. wp_steps.
  destruct (run_op op (row_tenant old) t) as [t1|e] eqn:Eop; [|done]. wp_steps. split; [done|].
  exists old, t. split_and!; try done. by rewrite (tenant_run_op_id _ _ _ _ Eop).
Qed.

Lemma wp_tenant_store v cur t w :
  wp (tenant_store v cur t) w (λ r w',
    match r with
    | Ok t' => ∃ old rows, tenants (w_db w) !! tid_v (tn_id t) = Some old ∧ tr_version old = expectedVersionOr v cur ∧
        t' = (PullEvents t).2 ∧ appended (tn_events t) rows ∧
        w_db w' = set_outbox (set_tenants (w_db w)
          (<[tid_v (tn_id t) := update_columns old (tenant_row timestamptz t)]> (tenants (w_db w)))) (outbox_events (w_db w) ++ rows)
    | Err _ => True
    end).
Proof.
  unfold tenant_store. wp_steps. eapply wp_mono; [apply tenant_wp_Update|]. intros [[]|e] w3; [|done].
  intros (old & Hold & Hv & Hd3). unfold PullEvents. cbv beta iota. wp_step. eapply wp_mono; [apply tenant_wp_Append|].
  intros [[]|e] w4; [|done]. intros (rows & Hrows & Hd4). wp_steps. exists old, rows. rewrite Hd3 in Hd4. done.
Qed.

Lemma tenant_wp_mutate i v op w :
  tenants_inv (w_db w) →
  wp (mutate i v (apply_tenant_op op)) w (λ r w', all_or_nothing (mutated i v op) (w_db w) r (w_db w')).
Proof.
  intros Hinv. unfold mutate. apply wp_Execute_atomic. intros w1 Hw1. rewrite <- Hw1 in *. wp_steps.
  eapply wp_mono; [by apply wp_tenant_load|]. intros [[cur t1]|e] w2; [|done].
  intros (Hd2 & old & now & Hold & Hrun & -> & Hid). simpl. eapply wp_mono; [apply wp_tenant_store|]. intros [t'|e] w3; [|done].
  rewrite Hid, Hd2. intros (old' & rows & Hold' & Hv & -> & Hrows & Hd3). rewrite Hold in Hold'. injection Hold' as <-.
  exists old, now, t1, rows. split_and!; try done.
  intros Hpos. unfold expectedVersionOr in Hv. destruct (Z.ltb_spec 0 v); [done|lia].
Qed.

(** The tenants [CreateTenant] builds. *)
Definition tenant_built (inp : CreateTenantInput) (t : Tenant) : Prop :=
  ∃ fresh now n s p q,
    NewTenantName (ct_Name inp) = Ok n ∧ NewSlug (ct_Slug inp) = Ok s ∧ ParsePlan (ct_Plan inp) = Ok p ∧
    NewQuota (ct_MaxServices inp) = Ok q ∧ t = Create (NewTenantID fresh) n s p q now.

Lemma wp_create_tenant inp w :
  wp (create_tenant inp) w (λ r w', w_db w' = w_db w ∧ match r with Ok t => tenant_built inp t | Err _ => True end).
Proof.
  unfold create_tenant. wp_steps.
  destruct (NewTenantName (ct_Name inp)) as [n|e] eqn:En; [|done]. wp_steps.
  destruct (NewSlug (ct_Slug inp)) as [s|e] eqn:Es; [|done]. wp_steps.
  destruct (ParsePlan (ct_Plan inp)) as [p|e] eqn:Ep; [|done]. wp_steps.
  destruct (NewQuota (ct_MaxServices inp)) as [q|e] eqn:Eq; [|done]. wp_steps.
  split; [done|]. by exists u, t, n, s, p, q.
Qed.

Lemma wp_create_check t w : wp (create_check t) w (λ _ w', w_db w' = w_db w).
Proof.
  unfold create_check. wp_steps. eapply wp_mono; [apply wp_FindBySlug|]. intros [?|e] w2 Hd2; [by wp_steps|].
  destruct (negb _); by wp_steps.
Qed.

Lemma wp_create_insert inp t w :
  tenant_built inp t →
  wp (create_insert t) w (λ r w', match r with Ok t' => created inp t' (w_db w) (w_db w') | Err _ => True end).
Proof.
  intros (fresh & now & n & s & p & q & Hn & Hs & Hp & Hq & ->). unfold create_insert. wp_steps.
  eapply wp_mono; [apply tenant_wp_Insert|]. intros [[]|e'] w3; [|done].
  intros (Hfresh & Hslug & Hd3). unfold PullEvents. cbv beta iota. wp_step. eapply wp_mono; [apply tenant_wp_Append|].
  intros [[]|e'] w4; [|done]. intros (rows & Hrows & Hd4). wp_steps. exists fresh, now, n, s, p, q, rows.
  split_and!; try done. rewrite Hd4, Hd3. done.
Qed.

Lemma wp_CreateTenant inp w :
  wp (CreateTenant inp) w (λ r w', all_or_nothing (created inp) (w_db w) r (w_db w')).
Proof.
  unfold CreateTenant. wp_steps. eapply wp_mono; [apply wp_create_tenant|]. intros [t|e] w1 [Hdb Hb]; [|by left].
  rewrite <- Hdb. apply wp_Execute_atomic. intros w2 Hw2. wp_steps.
  eapply wp_mono; [apply wp_create_check|]. intros [[]|e] w3 Hw3; [|done]. rewrite <- Hw2, <- Hw3.
  by apply wp_create_insert.
Qed.

Lemma wp_tenant_command c w :
  tenants_inv (w_db w) →
  wp (run_tenant_command c) w (λ r w', all_or_nothing (tenant_effect c) (w_db w) r (w_db w')).
Proof.
  intros Hinv. destruct c as [i|i|i]; simpl; [apply wp_CreateTenant|..];
    unfold ChangeStatus, UpdateQuota; wp_steps;
    (destruct (TenantIDFromString _) as [u|e] eqn:Eu; [|by left]); wp_steps.
  - destruct (ParseStatus _) as [s|e] eqn:Es; [|by left]. unfold tenant_effect, command_op. rewrite Eu, Es.
    by apply (tenant_wp_mutate _ _ (OpStatus s)).
  - destruct (NewQuota _) as [q|e] eqn:Eq; [|by left]. unfold tenant_effect, command_op. rewrite Eu, Eq.
    by apply (tenant_wp_mutate _ _ (OpQuota q)).
Qed.
End facts.

Section preservation.
Context `{Env}.

Lemma tenants_inv_empty : tenants_inv empty_db.
Proof. by constructor. Qed.

Lemma appended_about u es rows :
  Forall (λ e, AggregateID e = uuid_String u) es → appended es rows →
  Forall (about u) rows ∧ length rows = length es.
Proof.
  intros Hes Hrows. split; [|symmetry; by eapply Forall2_length].
  induction Hrows as [|e r es rows (Hp & Ht & _) _ IH]; [done|].
  apply Forall_cons in Hes as [He Hes]. constructor; [|by apply IH].
  rewrite He, uuid_Parse_String in Hp. split; [congruence|]. rewrite Ht. by destruct e; set_solver.
Qed.

Lemma tenants_inv_put d u new rows :
  tenants_inv d → tr_id new = u → tenant_wf (row_tenant new) →
  (∀ u' r', tenants d !! u' = Some r' → tr_slug r' = tr_slug new → u' = u) →
  Forall (about u) rows →
  tr_version new = wrap64 (Z.of_nat (length (tenant_outbox u d) + length rows)) →
  tenants_inv (set_outbox (set_tenants d (<[u := new]> (tenants d))) (outbox_events d ++ rows)).
Proof.
  intros [Hr Hs Hv Hn] Hid Hwf Hslug Hrows Hver.
  assert (∀ u', u' ≠ u → tenant_outbox u' (set_outbox (set_tenants d (<[u := new]> (tenants d)))
            (outbox_events d ++ rows)) = tenant_outbox u' d) as Hother.
  { intros u' Hne. unfold tenant_outbox. simpl. rewrite filter_app, (filter_none _ rows), app_nil_r; [done|].
    eapply Forall_impl; [exact Hrows|]. intros x [Hx _] [Hx' _]. congruence. }
  constructor; simpl.
  - intros u' r. destruct (decide (u = u')) as [<-|]; [rewrite lookup_insert_eq; by intros [= <-]|].
    rewrite lookup_insert_ne by done. apply Hr.
  - intros u1 u2 r1 r2. destruct (decide (u = u1)) as [<-|], (decide (u = u2)) as [<-|];
      rewrite ?lookup_insert_eq, ?lookup_insert_ne by done; [done|..].
    + intros [= <-] H2 E. symmetry. by eapply Hslug.
    + intros H1 [= <-] E. by eapply Hslug.
    + apply Hs.
  - intros u' r. destruct (decide (u = u')) as [<-|]; [|rewrite lookup_insert_ne, Hother by done; apply Hv].
    rewrite lookup_insert_eq. intros [= <-]. rewrite Hver. unfold tenant_outbox. simpl.
    by rewrite filter_app, (filter_all _ rows), length_app by done.
  - intros u'. destruct (decide (u = u')) as [<-|]; [by rewrite lookup_insert_eq|].
    rewrite lookup_insert_ne, Hother by done. apply Hn.
Qed.

Lemma created_inv inp t' d d' : tenants_inv d → created inp t' d d' → tenants_inv d'.
Proof.
  intros Hinv (u & now & n & s & p & q & rows & Hn & Hs & Hp & Hq & -> & Hfresh & Hslug & Hrows & ->).
  apply NewTenantName_Ok in Hn as [_ ?]. apply NewSlug_Ok in Hs as [_ ?].
  apply ParsePlan_Ok in Hp as [-> ?]. apply NewQuota_Ok in Hq as [_ ?].
  destruct (appended_about u (tn_events (Create (mkTenantID u) n s (ct_Plan inp) q now)) rows
              ltac:(by repeat constructor) Hrows) as [Habout Hlen].
  apply tenants_inv_put; try done.
  - by apply tenant_row_wf, Create_wf.
  - intros u' r' Hr' E. exfalso. apply Hslug. exists u', r'. done.
  - simpl. by rewrite (ti_none _ Hinv u Hfresh), Hlen.
Qed.

Lemma tenant_mutated_inv i v op t' d d' : op_wf op → tenants_inv d → mutated i v op t' d d' → tenants_inv d'.
Proof.
  intros Hop Hinv (old & now & t & rows & Hold & _ & Hrun & _ & Hrows & ->).
  destruct (ti_rows _ Hinv _ _ Hold) as [Hid Hwf]. pose proof (tenant_run_op_wf _ _ _ _ Hop Hwf Hrun) as Hwf'.
  pose proof (ti_version _ Hinv _ _ Hold) as Hver.
  assert (tn_slug t = tn_slug (row_tenant old) ∧ tn_name t = tn_name (row_tenant old)) as [Hsl Hnm]
    by (apply run_op_step in Hrun as [->|(e & ? & ? & ? & _)]; done).
  assert (Forall (λ e, AggregateID e = uuid_String (tid_v i)) (tn_events t) ∧
    tn_version t = wrap64 (Z.of_nat (length (tenant_outbox (tid_v i) d) + length (tn_events t)))) as [Hag Hv].
  { apply run_op_step in Hrun as [->|(e & _ & _ & _ & _ & _ & Ev & Ee & Ea)].
    - split; [done|]. simpl. by rewrite Nat.add_0_r.
    - rewrite Ee, Ev. simpl. rewrite Hver, wrap64_succ. split; [|do 2 f_equal; simpl; lia].
      repeat constructor. rewrite Ea. unfold TenantID_String. simpl. by rewrite Hid. }
  destruct (appended_about (tid_v i) _ _ Hag Hrows) as [Habout Hlen].
  apply tenants_inv_put; try done.
  - apply (tenant_row_wf timestamptz) in Hwf' as [Hw1 _ Hw3 Hw4 Hw5 Hw6]. destruct Hwf as [_ Hw2 _ _ _ _].
    by constructor.
  - simpl. intros u' r' Hr' E. by eapply (ti_slug _ Hinv).
  - simpl. by rewrite Hlen.
Qed.

Lemma tenant_effect_inv c t' d d' : tenants_inv d → tenant_effect c t' d d' → tenants_inv d'.
Proof.
  intros Hinv. destruct c as [i|i|i]; simpl; [by apply created_inv|..];
    (destruct (TenantIDFromString _) as [u|]; [|done]); simpl.
  - destruct (ParseStatus _) as [s|] eqn:Es; [|done]. apply tenant_mutated_inv; [|done].
    by apply ParseStatus_Ok in Es as [-> ?].
  - destruct (NewQuota _) as [q|] eqn:Eq; [|done]. apply tenant_mutated_inv; [|done]. by apply NewQuota_Ok in Eq as [_ ?].
Qed.

Definition run_tenant_commands (cs : list TenantCommand) (w : World) : World :=
  foldl (λ w c, (run_tenant_command c w).2) w cs.

Lemma run_tenant_commands_inv cs w : tenants_inv (w_db w) → tenants_inv (w_db (run_tenant_commands cs w)).
Proof.
  unfold run_tenant_commands. revert w. induction cs as [|c cs IH]; intros w Hw; simpl; [done|]. apply IH.
  pose proof (wp_tenant_command c w Hw) as Hr. unfold wp in Hr. destruct (run_tenant_command c w) as [r w'].
  eapply (all_or_nothing_inv tenants_inv); [exact Hw| |exact Hr]. intros a. by apply tenant_effect_inv.
Qed.

(** After any sequence of tenant commands under any failures, from empty tables:
    every stored tenant reads back well-formed, slugs are unique, and a tenant
    has exactly one outbox event per version; and each further command takes its
    whole effect or none, as for the catalog. *)
Theorem tenant_commands_safe cs c n t r w' :
  let w := run_tenant_commands cs (mkWorld empty_db n t) in
  run_tenant_command c w = (r, w') →
  tenants_inv (w_db w) ∧ all_or_nothing (tenant_effect c) (w_db w) r (w_db w').
Proof.
  intros w E. assert (tenants_inv (w_db w)) as Hw by apply run_tenant_commands_inv, tenants_inv_empty.
  split; [done|]. exact (wp_run _ _ _ _ _ (wp_tenant_command c w Hw) E).
Qed.
End preservation.

(** ** Witnesses *)

#[local] Existing Instance demo_uuid.
#[local] Definition demo_create : TenantCommand := CmdCreate (mkCreateTenantInput "Acme" "acme" "free" 10).
#[local] Definition demo_suspend : TenantCommand := CmdStatus (mkChangeStatusInput "u0" "suspended" 1).
#[local] Definition demo_world : World := @run_tenant_commands _ calm_env [demo_create] (mkWorld empty_db 0 0).

Lemma tenant_commands_safe_witness :
  let rw := @run_tenant_command _ calm_env demo_suspend demo_world in
  tn_status <$> ok rw.1 = Some StatusSuspended ∧
  @all_or_nothing _ _ (@tenant_effect _ calm_env demo_suspend) (w_db demo_world) rw.1 (w_db rw.2).
Proof.
  intros rw. split; [vm_compute; reflexivity|].
  refine (proj2 (@tenant_commands_safe _ calm_env [demo_create] demo_suspend 0 0 _ _ _)).
  apply surjective_pairing.
Defined.
