(* ===== verification/Marking.v ===== *)
(** * Marking rows as published

    The relay sets the publication times of outbox rows, in the database the modules work
    on: [marked].  Their invariants do not depend on these times. *)
From S2P Require Import Prelude GoStrings Apperr Uuid Postgres TenantDomain TenantApp CatalogDomain CatalogRepo Relay.

Section marking.
Context `{UUIDLib}.

Lemma filter_map_stable {A} (P : A → Prop) `{!∀ x, Decision (P x)} (f : A → A) l :
  (∀ x, P (f x) ↔ P x) → filter P (map f l) = map f (filter P l).
Proof.
  intros Hf. induction l as [|x l IH]; [done|]. cbn [map]. rewrite !filter_cons, IH.
  destruct (decide (P x)) as [Hx|Hx]; [by rewrite decide_True by (by apply Hf)|].
  by rewrite decide_False by (by rewrite Hf).
Qed.

Lemma mark_row_same us t r :
  ob_aggregate_id (mark_row us t r) = ob_aggregate_id r ∧ ob_event_type (mark_row us t r) = ob_event_type r ∧
  ob_payload (mark_row us t r) = ob_payload r.
Proof. unfold mark_row. by case_decide. Qed.

Lemma marked_catalog d d' : marked d d' → catalog_inv d → catalog_inv d'.
Proof.
  intros (us & t & ->) [I1 I2 I3 I4 I5 I6].
  assert (∀ u, outbox_of u (set_outbox d (map (mark_row us t) (outbox_events d))) = map (mark_row us t) (outbox_of u d))
    as Ho.
  { intros u. apply filter_map_stable. intros r. unfold CatalogRepo.about.
    by destruct (mark_row_same us t r) as (-> & -> & _). }
  constructor; try done; simpl.
  - intros u r Hr. rewrite Ho. destruct (I5 u r Hr) as (es & Hes & Hrec). exists es. split; [done|].
    apply Forall2_fmap_l. eapply Forall2_impl; [exact Hrec|]. intros x e. unfold records, compose.
    by destruct (mark_row_same us t x) as (-> & -> & ->).
  - intros u Hu. by rewrite Ho, I6.
Qed.

Lemma marked_tenants d d' : marked d d' → tenants_inv d → tenants_inv d'.
Proof.
  intros (us & t & ->) [I1 I2 I3 I4].
  assert (∀ u, tenant_outbox u (set_outbox d (map (mark_row us t) (outbox_events d))) =
               map (mark_row us t) (tenant_outbox u d)) as Ho.
  { intros u. apply filter_map_stable. intros r. unfold TenantApp.about.
    by destruct (mark_row_same us t r) as (-> & -> & _). }
  constructor; try done; simpl.
  - intros u r Hr. rewrite Ho, length_map. auto.
  - intros u Hu. by rewrite Ho, I4.
Qed.
End marking.

