(* ===== verification/CatalogConcurrency.v ===== *)
(** * Concurrent catalog commands (internal/modules/catalog/app/commands.go)

    [mutate] and [RegisterService] cut into their reading and writing halves, and the
    proof that they are a workload in the sense of Interleave: a version seen
    stays seen, with such a version the guard of the UPDATE fails whenever the service has moved
    on, and the INSERT decides by itself whether a name is free.  What the guard does with any
    version is [store_guard_exact]. *)
From S2P Require Import Prelude GoStrings Apperr Uuid Postgres CatalogDomain CatalogRepo CatalogApp Relay Marking Interleave.

(** ** The halves *)

Section split.
Context `{Env}.

Lemma mutate_split sid v f w :
  mutate sid v f w =
    match start (mutate_load sid f) w with
    | (Err e, w1) => (Err e, set_db w1 (w_db w))
    | (Ok cs, w1) => finish (w_db w) (mutate_store v cs.1 cs.2) w1
    end.
Proof. unfold mutate. by rewrite Execute_split. Qed.

(** A registration up to the point where the name was found to be free. *)
Definition register_open (inp : RegisterServiceInput) : M Service :=
  svc ← register_service inp;
  _ ← start (register_check svc);
  mret svc.

Lemma register_split inp w :
  RegisterService inp w =
    match register_open inp w with
    | (Err e, w1) => (Err e, set_db w1 (w_db w))
    | (Ok svc, w1) => finish (w_db w) (register_insert svc) w1
    end.
Proof.
  unfold RegisterService, register_open, mbind at 1 3, M_bind at 1 3.
  pose proof (wp_register_service inp w) as Hs. unfold wp in Hs.
  destruct (register_service inp w) as [[svc|e] w1]; destruct Hs as [Hdb _]; simpl in *.
  - rewrite Execute_split. unfold mbind at 1, M_bind at 1.
    destruct (start (register_check svc) w1) as [[[]|e] w2]; by rewrite Hdb.
  - rewrite <- Hdb. by destruct w1.
Qed.

Lemma wp_register_open inp w :
  wp (register_open inp) w (λ r w', w_db w' = w_db w ∧ match r with Ok s => built inp s | Err _ => True end).
Proof.
  unfold register_open. wp_steps. eapply wp_mono; [apply wp_register_service|]. intros [s|e] w1 [Hdb Hb]; [|done].
  wp_steps. apply wp_start; [|intros e w2 ->; done]. intros w2 Hw2. eapply wp_mono; [apply wp_register_check|].
  intros [[]|e] w3 Hw3; wp_steps; (split; [congruence|done]).
Qed.

End split.

(** ** How rows evolve *)

Section workload.
Context `{Env}.
Abbreviation service_evolves := (evolves catalog_services sr_version).
Abbreviation service_seen := (seen_version catalog_services sr_version).
Abbreviation service_loaded := (loaded catalog_services sr_version).
Abbreviation service_tidy := (tidy catalog_services sr_version sr_updated_at catalog_inv).

Lemma mutated_tidy n sid v op s' d d' :
  op_wf op → (Z.of_nat (S n) < 2 ^ 63)%Z → service_tidy n d → mutated sid v op s' d d' → service_tidy (S n) d' ∧ service_evolves d d'.
Proof.
  intros Hop Hn Ht Hm. pose proof (mutated_inv _ _ _ _ _ _ Hop (tidy_inv Ht) Hm) as Hinv'.
  destruct Hm as (old & now & s1 & hid & rows & Hold & _ & Hrun & _ & _ & ->).
  destruct (inv_rows _ (tidy_inv Ht) _ _ Hold) as [Hid _]. destruct (tidy_rows Ht _ _ Hold) as [Hround Hver].
  assert (sid_v (svc_id s1) = sid_v sid) as Hs1 by (rewrite (run_op_id _ _ _ _ Hrun); done).
  assert (update_columns old (service_row timestamptz s1) = old ∨
    sr_version (update_columns old (service_row timestamptz s1)) = sr_version old + 1)%Z as Hnew.
  { apply run_op_inv in Hrun as [->|(e & Hc & _)].
    - left. unfold update_columns, service_row. simpl. rewrite Hround. by destruct old.
    - right. simpl. rewrite (ch_version _ _ _ _ Hc). simpl. apply wrap64_id. unfold in_int64, int64_min, int64_max. lia. }
  eapply (tidy_insert _ _ _ _ n d _ (sid_v (svc_id s1))); [done|done|done|apply timestamptz_idemp| |].
  - destruct Hnew as [E%(f_equal sr_version)|E]; lia.
  - rewrite Hs1, Hold. intros ? [= <-]. destruct Hnew as [->|?]; [by left|right; lia].
Qed.

Lemma registered_tidy n inp s' d d' :
  service_tidy n d → register_effect inp s' d d' → service_tidy (S n) d' ∧ service_evolves d d'.
Proof.
  intros Ht (s & Hb & -> & Hreg). pose proof (registered_inv _ _ _ _ Hb (tidy_inv Ht) Hreg) as Hinv'.
  destruct Hreg as (hid & rows & Hfresh & _ & _ & ->). destruct Hb as (u0 & now & t & nm & ti & o & _ & _ & _ & _ & ->).
  eapply (tidy_insert _ _ _ _ n d _ u0); [done|done|done|apply timestamptz_idemp|simpl; lia|]. simpl in Hfresh. by rewrite Hfresh.
Qed.

(** ** The workload *)

Inductive CatalogRequest : Type :=
| QMutate (sid : ServiceID) (v : Z) (op : Op)
| QRegister (inp : RegisterServiceInput).

(** What the reading half hands on: the loaded version and the changed service, or the new one. *)
Definition catalog_reading (q : CatalogRequest) : Type :=
  match q with QMutate _ _ _ => Z * Service | QRegister _ => Service end.
Definition catalog_read (q : CatalogRequest) : M (catalog_reading q) :=
  match q with
  | QMutate sid v op => start (mutate_load sid (apply_op op))
  | QRegister inp => register_open inp
  end.
Definition catalog_write (q : CatalogRequest) : catalog_reading q → M Service :=
  match q with
  | QMutate sid v op => λ x, mutate_store v x.1 x.2
  | QRegister inp => λ svc, register_insert svc
  end.

Definition catalog_admissible (q : CatalogRequest) (d : Database) : Prop :=
  match q with QMutate sid v op => op_wf op ∧ service_seen v (sid_v sid) d | QRegister _ => True end.
Definition catalog_effect (q : CatalogRequest) (s' : Service) (d d' : Database) : Prop :=
  match q with
  | QMutate sid v op => op_wf op ∧ mutated sid v op s' d d'
  | QRegister inp => register_effect inp s' d d'
  end.

(** The command was computed from a row that is the stored one, or outdated. *)
Definition catalog_current (q : CatalogRequest) : catalog_reading q → Database → Prop :=
  match q with
  | QMutate sid v op => λ x d, op_wf op ∧ sid_v (svc_id x.2) = sid_v sid ∧
      ∃ row0 now, run_op op (row_service row0) now = Ok x.2 ∧ x.1 = sr_version row0 ∧ service_loaded v (sid_v sid) row0 d
  | QRegister inp => λ svc _, built inp svc
  end.

Lemma catalog_effect_tidy n q s' d d' :
  (Z.of_nat (S n) < 2 ^ 63)%Z → service_tidy n d → catalog_effect q s' d d' → service_tidy (S n) d' ∧ service_evolves d d'.
Proof. intros Hn Ht. destruct q; simpl; [intros []; by eapply mutated_tidy|by eapply registered_tidy]. Qed.

Lemma catalog_admissible_evolves q d d' : service_evolves d d' → catalog_admissible q d → catalog_admissible q d'.
Proof. intros Hev. destruct q; simpl; [|done]. intros [? ?]. split; [done|]. by eapply seen_evolves. Qed.

Lemma catalog_current_evolves q x d d' : service_evolves d d' → catalog_current q x d → catalog_current q x d'.
Proof.
  intros Hev. destruct q; simpl; [|done]. intros (? & ? & row0 & now & Hrun & Hcur & Hl). split_and!; [done..|].
  exists row0, now. split_and!; [done..|]. by eapply loaded_evolves.
Qed.

Lemma catalog_read_ok n q w : service_tidy n (w_db w) → catalog_admissible q (w_db w) →
  wp (catalog_read q) w (λ r _, match r with Ok x => catalog_current q x (w_db w) | Err _ => True end).
Proof.
  intros Ht. destruct q as [sid v op|inp]; simpl.
  - intros [Hop Hv]. apply wp_start; [|done]. intros w1 Hw1. rewrite <- Hw1 in *.
    eapply wp_mono; [apply wp_mutate_load, (tidy_inv Ht)|]. intros [[cur s1]|e] w2; simpl; [|done].
    intros (_ & old & now & Hold & Hrun & -> & Hid). split_and!; [done..|]. exists old, now. split_and!; [done..|].
    apply seen_loaded; [done| |done]. by apply (tidy_rows Ht _ _ Hold).
  - intros _. eapply wp_mono; [apply wp_register_open|]. intros [s|e] w1 [_ Hb]; done.
Qed.

Lemma catalog_write_ok q x w : catalog_current q x (w_db w) →
  wp (catalog_write q x) w (λ r w', match r with Ok s' => catalog_effect q s' (w_db w) (w_db w') | Err _ => True end).
Proof.
  destruct q as [sid v op|inp]; simpl.
  - intros (Hop & Hs1 & row0 & now & Hrun & Hcur & Hl). eapply wp_mono; [apply wp_mutate_store|].
    intros [s'|e] w'; [|done]. rewrite Hs1. intros (old & hid & rows & Hold & Hver & -> & Hrows & Hd).
    unfold expectedVersionOr in Hver. rewrite Hcur in Hver. destruct (loaded_guard _ _ _ _ _ _ _ Hl Hold Hver) as [-> Hv].
    split; [done|]. by exists row0, now, x.2, hid, rows.
  - intros Hb. eapply wp_mono; [by apply wp_register_insert|]. by intros [].
Qed.

#[global] Instance catalog_workload : Workload.
Proof.
  refine {| request := CatalogRequest; reading := catalog_reading; answer := Service;
    read_half := catalog_read; write_half := catalog_write; admissible := catalog_admissible;
    current := catalog_current; effect := catalog_effect; sound := service_tidy |}.
  - split; [apply catalog_inv_empty|done].
  - apply tidy_mono.
  - intros n q a d d' Hn Ht He. by eapply catalog_effect_tidy.
  - intros n q q' a d d' Hn Ht He. eapply catalog_admissible_evolves, catalog_effect_tidy; done.
  - intros n q x q' a d d' Hn Ht He. eapply catalog_current_evolves, catalog_effect_tidy; done.
  - apply catalog_read_ok.
  - intros n q x w _. apply catalog_write_ok.
  - intros n d d' Hm. eapply tidy_ext; [by destruct Hm as (? & ? & ->)|by apply marked_catalog].
  - intros q d d' Hm. apply catalog_admissible_evolves, evolves_same. by destruct Hm as (? & ? & ->).
  - intros q x d d' Hm. apply catalog_current_evolves, evolves_same. by destruct Hm as (? & ? & ->).
Defined.

(** Admission as a test. *)
#[global] Instance op_wf_dec op : Decision (op_wf op).
Proof. destruct op; simpl; unfold lifecycle_wf, ownership_wf, trimmed; apply _. Defined.
Definition catalog_admit (q : CatalogRequest) (d : Database) : bool :=
  match q with
  | QMutate sid v op => bool_decide (op_wf op) && seen_versionb catalog_services sr_version v (sid_v sid) d
  | QRegister _ => true
  end.
Lemma catalog_admit_ok q d : catalog_admit q d = true → catalog_admissible q d.
Proof.
  destruct q as [sid v op|inp]; simpl; [|done]. intros [Ho%bool_decide_eq_true Hv]%andb_true_iff.
  split; [done|by apply seen_versionb_true].
Qed.
End workload.

(** ** The guard of a store *)

Section guard.
Context `{Env}.

(** C29: the guard of the UPDATE, exactly.  A command loaded a service at the row [row0]; when it
    stores, nothing fails and [old] is the stored row.  It succeeds exactly if the stored version
    is the [If-Match] version of the client, or the loaded version if the client sent none; then
    the lifecycle and the owner of the stored row are those computed from [row0] and its version
    follows that of [row0]; otherwise it is a VERSION_CONFLICT and nothing changes.  So the
    loaded version is not compared when the client sent one: with a version it has not seen
    ([v] the version of [old], [row0] older) the command overwrites what others changed since the load. *)
Theorem store_guard_exact sid v op w0 w0' cur s1 row0 w old :
  catalog_inv (w_db w0) → op_wf op → catalog_services (w_db w0) !! sid_v sid = Some row0 →
  start (mutate_load sid (apply_op op)) w0 = (Ok (cur, s1), w0') →
  catalog_inv (w_db w) → calm w → catalog_services (w_db w) !! sid_v sid = Some old →
  let out := finish (w_db w) (mutate_store v cur s1) w in
  if decide (sr_version old = if (0 <? v)%Z then v else sr_version row0) then
    out.1 = Ok (PullEvents s1).2 ∧
    ∃ new, catalog_services (w_db out.2) !! sid_v sid = Some new ∧
      (sr_lifecycle new, sr_owning_team new, sr_on_call_ref new) = wanted_columns op row0 ∧
      sr_version new = (if decide (already_so op row0) then sr_version row0 else wrap64 (sr_version row0 + 1))
  else out.1 = Err ErrVersionConflict ∧ w_db out.2 = w_db w.
Proof.
  intros Hinv0 Hop Hrow0 Hload Hinv Hcalm Hold.
  assert (wp (start (mutate_load sid (apply_op op))) w0 (λ r _, match r with
    | Ok (cur, s1) => ∃ now, run_op op (row_service row0) now = Ok s1 ∧ cur = sr_version row0 ∧ sid_v (svc_id s1) = sid_v sid
    | Err _ => True end)) as Hwp.
  { apply wp_start; [|done]. intros w1 Hw1. rewrite <- Hw1 in *. eapply wp_mono; [by apply wp_mutate_load|].
    intros [[c s]|e] w2; [|done]. intros (_ & r & now & Hr & Hrest). rewrite Hrow0 in Hr. injection Hr as <-. eauto. }
  destruct (wp_run _ _ _ _ _ Hwp Hload) as (now & Hrun & -> & Hs1).
  destruct (inv_rows _ Hinv0 _ _ Hrow0) as [_ Hwf0]. destruct (inv_rows _ Hinv _ _ Hold) as [_ Hwf].
  destruct (run_op_short op (row_service row0) _ _ eq_refl Hrun) as [Hlen Hagg]. rewrite <- (run_op_id _ _ _ _ Hrun) in Hagg.
  destruct (run_op_columns _ _ _ _ Hrun) as (Hcols & _ & Hver). rewrite <- Hs1 in *.
  pose proof (wp_mutate_store v (sr_version row0) s1 w) as Hst. unfold wp in Hst.
  destruct (mutate_store_run v (sr_version row0) s1 old w Hcalm Hold Hwf (run_op_wf _ _ _ _ Hop Hwf0 Hrun) Hlen Hagg) as (w' & E).
  unfold finish. rewrite E in *. change (expectedVersionOr v (sr_version row0)) with (if (0 <? v)%Z then v else sr_version row0) in *.
  destruct (decide (sr_version old = _)); [|done]. unfold wrap_err, Commit. rewrite (calm_commit _ Hcalm). split; [done|].
  destruct Hst as (old' & hid & rows & Hold' & _ & _ & _ & Hdb). simpl. rewrite Hdb. simpl. rewrite lookup_insert_eq.
  eexists. split_and!; [done|done|]. simpl. by case_decide; destruct Hver.
Qed.
End guard.

(** ** Concrete schedules *)

#[local] Existing Instance demo_uuid.
#[local] Existing Instance calm_env.
Definition race_service : ServiceID := mkServiceID ("0" : @uuid demo_uuid).
Definition race_input : RegisterServiceInput :=
  mkRegisterServiceInput "utenant" "payments-api" "" 1 "" "payments" "pd://payments".

(** Clients 0 and 3 register the same name; both find it free before either inserts.
    Client 1 moves the service to production, client 2 hands it over; both load
    before either stores. [v] is the [If-Match] version of client 2. *)
#[local] Definition race (v : Z) : list Action :=
  [ARequest 0 (QRegister race_input); ARequest 3 (QRegister race_input); ARead 0 0 0; ARead 3 10 0; AWrite 0 5 0; AWrite 3 15 0;
   ARequest 1 (QMutate race_service 0 (OpChangeLifecycle LifecycleProduction));
   ARequest 2 (QMutate race_service v (OpChangeOwnership (mkOwnership "billing" "pd://billing")));
   ARead 1 20 20; ARead 2 30 30; AWrite 1 40 40; AWrite 2 50 50].
#[local] Definition stored_versions (s : Shared) : option (string * Z * nat) :=
  row ← catalog_services (sh_db s) !! ("0" : @uuid demo_uuid);
  Some (sr_lifecycle row, sr_version row, length (outbox_events (sh_db s))).
#[local] Definition answered (i : nat) (s : Shared) : option (result goerror Z) :=
  match sh_clients s !! i with
  | Some (Answered _ (Ok s')) => Some (Ok (svc_version s'))
  | Some (Answered _ (Err e)) => Some (Err e)
  | _ => None
  end.

(** Such a run: with a guessed version 2 on a service loaded at version 1 both clients are told
    that they succeeded with version 2, and the change to production is gone although its
    event is in the outbox. *)
Example guessed_if_match_loses_update :
  ∃ s, exec (λ _ _, true) (race 2) (mkShared empty_db ∅) = Some s ∧
    answered 1 s = Some (Ok 2%Z) ∧ answered 2 s = Some (Ok 2%Z) ∧
    stored_versions s = Some (LifecycleExperimental, 2%Z, 3).
Proof.
  assert ((λ s, (answered 1 s, answered 2 s, stored_versions s)) <$> exec (λ _ _, true) (race 2) (mkShared empty_db ∅) =
    Some (Some (Ok 2%Z), Some (Ok 2%Z), Some (LifecycleExperimental, 2%Z, 3))) as E1 by (vm_compute; reflexivity).
  destruct (exec (λ _ _, true) (race 2) (mkShared empty_db ∅)) as [s|] eqn:E; [|discriminate E1].
  injection E1 as H1 H2 H3. exists s. split; [reflexivity|]. split; [exact H1|]. split; [exact H2|exact H3].
Qed.

(** A client loads version 1, another moves the service to production, and the first one stores with
    the version 2 that it has not seen. *)
#[local] Definition loaded_world : World :=
  run_commands [CmdRegister race_input] (mkWorld empty_db 0 0).
#[local] Definition later_world : World :=
  run_commands [CmdLifecycle (mkChangeLifecycleInput "u0" "production" 1)] loaded_world.
#[local] Definition handover : Op := OpChangeOwnership (mkOwnership "billing" "pd://billing").

#[local] Lemma later_calm : calm later_world.
Proof.
  assert (w_tick later_world = 20 ∧ Forall (λ h, h_id h ∈ map pretty (seq 0 20)) (ownership_history (w_db later_world)) ∧
          Forall (λ r, ob_id r ∈ map pretty (seq 0 20)) (outbox_events (w_db later_world))) as (Ht & Hh & Ho).
  { apply (bool_decide_unpack _). vm_compute. exact I. }
  assert (∀ n i, 20 ≤ n → i ∈ map pretty (seq 0 20) → i ≠ pretty n) as Hne.
  { intros n i Hn Hi ->. apply list_elem_of_In, in_map_iff in Hi as (k & Hk%(inj pretty) & [_ Hk2]%in_seq). lia. }
  constructor; [done|done|..]; intros n; rewrite Ht; intros Hn;
    (eapply Forall_impl; [eassumption|]); intros x Hx; by apply Hne.
Qed.

Lemma store_guard_exact_witness :
  sr_lifecycle <$> (catalog_services (w_db later_world) !! sid_v race_service) = Some LifecycleProduction ∧
  ∃ cur s1 w0', start (mutate_load race_service (apply_op handover)) loaded_world = (Ok (cur, s1), w0') ∧
    let out := finish (w_db later_world) (mutate_store 2 cur s1) later_world in
    out.1 = Ok (PullEvents s1).2 ∧
    ∃ new, catalog_services (w_db out.2) !! sid_v race_service = Some new ∧
      (sr_lifecycle new, sr_owning_team new, sr_on_call_ref new) = (LifecycleExperimental, "billing", "pd://billing").
Proof.
  split; [vm_compute; reflexivity|].
  destruct (catalog_services (w_db loaded_world) !! sid_v race_service) as [row0|] eqn:E0; [|vm_compute in E0; discriminate E0].
  destruct (catalog_services (w_db later_world) !! sid_v race_service) as [old|] eqn:E1; [|vm_compute in E1; discriminate E1].
  destruct (start (mutate_load race_service (apply_op handover)) loaded_world) as [[[cur s1]|e] w0'] eqn:El;
    [|vm_compute in El; discriminate El].
  exists cur, s1, w0'. split; [reflexivity|]. intros out.
  assert (sr_version old = 2%Z) as Hv by (vm_compute in E1; injection E1 as <-; reflexivity).
  assert (sr_lifecycle row0 = LifecycleExperimental) as Hl by (vm_compute in E0; injection E0 as <-; reflexivity).
  assert (catalog_inv (w_db loaded_world)) as I0 by (apply run_commands_inv, catalog_inv_empty).
  assert (catalog_inv (w_db later_world)) as I1 by (by apply run_commands_inv).
  assert (op_wf handover) as Hop by (apply (bool_decide_unpack _); vm_compute; exact Logic.I).
  pose proof (store_guard_exact race_service 2 handover loaded_world w0' cur s1 row0 later_world old I0
    Hop E0 El I1 later_calm E1) as Hg. cbv zeta in Hg.
  rewrite decide_True in Hg by exact Hv. destruct Hg as (H1 & new & H2 & H3 & _). split; [exact H1|].
  exists new. split; [exact H2|]. rewrite H3. simpl. by rewrite Hl.
Defined.
