(* ===== verification/TenantConcurrency.v ===== *)
(** * Concurrent tenant commands (internal/modules/tenant/app/commands.go)

    [mutate] and [CreateTenant] of the tenants cut into their reading and writing halves, as a
    workload in the sense of Interleave, with the slug in the place of the
    catalog's name. *)
From S2P Require Import Prelude GoStrings Apperr Uuid Postgres TenantDomain TenantApp Relay Marking Interleave.

(** ** The halves *)

Section split.
Context `{Env}.

Lemma tenant_mutate_split i v f w :
  mutate i v f w =
    match start (tenant_load i f) w with
    | (Err e, w1) => (Err e, set_db w1 (w_db w))
    | (Ok cs, w1) => finish (w_db w) (tenant_store v cs.1 cs.2) w1
    end.
Proof. unfold mutate. by rewrite Execute_split. Qed.

(** A creation up to the point where the slug was found to be free. *)
Definition create_open (inp : CreateTenantInput) : M Tenant :=
  tenant ← create_tenant inp;
  _ ← start (create_check tenant);
  mret tenant.

Lemma create_split inp w :
  CreateTenant inp w =
    match create_open inp w with
    | (Err e, w1) => (Err e, set_db w1 (w_db w))
    | (Ok tenant, w1) => finish (w_db w) (create_insert tenant) w1
    end.
Proof.
  unfold CreateTenant, create_open, mbind at 1 3, M_bind at 1 3.
  pose proof (wp_create_tenant inp w) as Hs. unfold wp in Hs.
  destruct (create_tenant inp w) as [[t|e] w1]; destruct Hs as [Hdb _]; simpl in *.
  - rewrite Execute_split. unfold mbind at 1, M_bind at 1.
    destruct (start (create_check t) w1) as [[[]|e] w2]; by rewrite Hdb.
  - rewrite <- Hdb. by destruct w1.
Qed.

Lemma wp_create_open inp w :
  wp (create_open inp) w (λ r w', match r with Ok t => tenant_built inp t | Err _ => True end).
Proof.
  unfold create_open. wp_steps. eapply wp_mono; [apply wp_create_tenant|]. intros [t|e] w1 [_ Hb]; [|done].
  wp_steps. apply wp_start; [|done]. intros w2 _. eapply wp_mono; [apply wp_self|]. intros [[]|e] w3 _; by wp_steps.
Qed.
End split.

(** ** How rows evolve *)

Section workload.
Context `{Env}.
Abbreviation tenant_evolves := (evolves tenants tr_version).
Abbreviation tenant_seen := (seen_version tenants tr_version).
Abbreviation tenant_loaded := (loaded tenants tr_version).
Abbreviation tenant_tidy := (tidy tenants tr_version tr_updated_at tenants_inv).

Lemma tenant_mutated_tidy n i v op t' d d' :
  op_wf op → (Z.of_nat (S n) < 2 ^ 63)%Z → tenant_tidy n d → mutated i v op t' d d' →
  tenant_tidy (S n) d' ∧ tenant_evolves d d'.
Proof.
  intros Hop Hn Ht Hm. pose proof (tenant_mutated_inv _ _ _ _ _ _ Hop (tidy_inv Ht) Hm) as Hinv'.
  destruct Hm as (old & now & t1 & rows & Hold & _ & Hrun & _ & _ & ->).
  destruct (tidy_rows Ht _ _ Hold) as [Hround Hver].
  assert (update_columns old (tenant_row timestamptz t1) = old ∨
    tr_version (update_columns old (tenant_row timestamptz t1)) = tr_version old + 1)%Z as Hnew.
  { apply run_op_step in Hrun as [->|(e & _ & _ & _ & _ & _ & Ev & _)].
    - left. unfold update_columns, tenant_row. simpl. rewrite Hround. by destruct old.
    - right. simpl. rewrite Ev. simpl. apply wrap64_id. unfold in_int64, int64_min, int64_max. lia. }
  eapply (tidy_insert _ _ _ _ n d _ (tid_v i)); [done|done|done|apply timestamptz_idemp| |].
  - destruct Hnew as [E%(f_equal tr_version)|E]; lia.
  - rewrite Hold. intros ? [= <-]. destruct Hnew as [->|?]; [by left|right; lia].
Qed.

Lemma created_tidy n inp t' d d' :
  tenant_tidy n d → created inp t' d d' → tenant_tidy (S n) d' ∧ tenant_evolves d d'.
Proof.
  intros Ht Hc. pose proof (created_inv _ _ _ _ (tidy_inv Ht) Hc) as Hinv'.
  destruct Hc as (fresh & now & n0 & s & p & q & rows & _ & _ & _ & _ & _ & Hfresh & _ & _ & ->).
  eapply (tidy_insert _ _ _ _ n d _ fresh); [done|done|done|apply timestamptz_idemp|simpl; lia|]. by rewrite Hfresh.
Qed.

(** ** The workload *)

Inductive TenantRequest : Type :=
| QTenantMutate (i : TenantID) (v : Z) (op : Op)
| QCreate (inp : CreateTenantInput).

Definition tenant_reading (q : TenantRequest) : Type :=
  match q with QTenantMutate _ _ _ => Z * Tenant | QCreate _ => Tenant end.
Definition tenant_read (q : TenantRequest) : M (tenant_reading q) :=
  match q with
  | QTenantMutate i v op => start (tenant_load i (apply_tenant_op op))
  | QCreate inp => create_open inp
  end.
Definition tenant_write (q : TenantRequest) : tenant_reading q → M Tenant :=
  match q with
  | QTenantMutate i v op => λ x, tenant_store v x.1 x.2
  | QCreate inp => λ t, create_insert t
  end.

Definition tenant_admissible (q : TenantRequest) (d : Database) : Prop :=
  match q with QTenantMutate i v op => op_wf op ∧ tenant_seen v (tid_v i) d | QCreate _ => True end.
Definition tenant_written (q : TenantRequest) (t' : Tenant) (d d' : Database) : Prop :=
  match q with
  | QTenantMutate i v op => op_wf op ∧ mutated i v op t' d d'
  | QCreate inp => created inp t' d d'
  end.
Definition tenant_current (q : TenantRequest) : tenant_reading q → Database → Prop :=
  match q with
  | QTenantMutate i v op => λ x d, op_wf op ∧ tid_v (tn_id x.2) = tid_v i ∧
      ∃ row0 now, run_op op (row_tenant row0) now = Ok x.2 ∧ x.1 = tr_version row0 ∧ tenant_loaded v (tid_v i) row0 d
  | QCreate inp => λ t _, tenant_built inp t
  end.

Lemma tenant_written_tidy n q t' d d' :
  (Z.of_nat (S n) < 2 ^ 63)%Z → tenant_tidy n d → tenant_written q t' d d' → tenant_tidy (S n) d' ∧ tenant_evolves d d'.
Proof. intros Hn Ht. destruct q; simpl; [intros []; by eapply tenant_mutated_tidy|by eapply created_tidy]. Qed.

Lemma tenant_admissible_evolves q d d' : tenant_evolves d d' → tenant_admissible q d → tenant_admissible q d'.
Proof. intros Hev. destruct q; simpl; [|done]. intros [? ?]. split; [done|]. by eapply seen_evolves. Qed.

Lemma tenant_current_evolves q x d d' : tenant_evolves d d' → tenant_current q x d → tenant_current q x d'.
Proof.
  intros Hev. destruct q; simpl; [|done]. intros (? & ? & row0 & now & Hrun & Hcur & Hl). split_and!; [done..|].
  exists row0, now. split_and!; [done..|]. by eapply loaded_evolves.
Qed.

Lemma tenant_read_ok n q w : tenant_tidy n (w_db w) → tenant_admissible q (w_db w) →
  wp (tenant_read q) w (λ r _, match r with Ok x => tenant_current q x (w_db w) | Err _ => True end).
Proof.
  intros Ht. destruct q as [i v op|inp]; simpl.
  - intros [Hop Hv]. apply wp_start; [|done]. intros w1 Hw1. rewrite <- Hw1 in *.
    eapply wp_mono; [apply wp_tenant_load, (tidy_inv Ht)|]. intros [[cur t1]|e] w2; simpl; [|done].
    intros (_ & old & now & Hold & Hrun & -> & Hid). split_and!; [done..|]. exists old, now. split_and!; [done..|].
    apply seen_loaded; [done| |done]. by apply (tidy_rows Ht _ _ Hold).
  - intros _. apply wp_create_open.
Qed.

Lemma tenant_write_ok q x w : tenant_current q x (w_db w) →
  wp (tenant_write q x) w (λ r w', match r with Ok t' => tenant_written q t' (w_db w) (w_db w') | Err _ => True end).
Proof.
  destruct q as [i v op|inp]; simpl.
  - intros (Hop & Hid & row0 & now & Hrun & Hcur & Hl). eapply wp_mono; [apply wp_tenant_store|].
    intros [t'|e] w'; [|done]. rewrite Hid. intros (old & rows & Hold & Hver & -> & Hrows & Hd).
    unfold expectedVersionOr in Hver. rewrite Hcur in Hver. destruct (loaded_guard _ _ _ _ _ _ _ Hl Hold Hver) as [-> Hv].
    split; [done|]. by exists row0, now, x.2, rows.
  - intros Hb. by apply wp_create_insert.
Qed.

#[global] Instance tenant_workload : Workload.
Proof.
  refine {| request := TenantRequest; reading := tenant_reading; answer := Tenant;
    read_half := tenant_read; write_half := tenant_write; admissible := tenant_admissible;
    current := tenant_current; effect := tenant_written; sound := tenant_tidy |}.
  - split; [apply tenants_inv_empty|done].
  - apply tidy_mono.
  - intros n q a d d' Hn Ht He. by eapply tenant_written_tidy.
  - intros n q q' a d d' Hn Ht He. eapply tenant_admissible_evolves, tenant_written_tidy; done.
  - intros n q x q' a d d' Hn Ht He. eapply tenant_current_evolves, tenant_written_tidy; done.
  - apply tenant_read_ok.
  - intros n q x w _. apply tenant_write_ok.
  - intros n d d' Hm. eapply tidy_ext; [by destruct Hm as (? & ? & ->)|by apply marked_tenants].
  - intros q d d' Hm. apply tenant_admissible_evolves, evolves_same. by destruct Hm as (? & ? & ->).
  - intros q x d d' Hm. apply tenant_current_evolves, evolves_same. by destruct Hm as (? & ? & ->).
Defined.

(** Admission as a test. *)
#[global] Instance tenant_op_wf_dec op : Decision (op_wf op).
Proof. destruct op; simpl; unfold status_wf, quota_wf; apply _. Defined.
Definition tenant_admit (q : TenantRequest) (d : Database) : bool :=
  match q with
  | QTenantMutate i v op => bool_decide (op_wf op) && seen_versionb tenants tr_version v (tid_v i) d
  | QCreate _ => true
  end.
Lemma tenant_admit_ok q d : tenant_admit q d = true → tenant_admissible q d.
Proof.
  destruct q as [i v op|inp]; simpl; [|done]. intros [Ho%bool_decide_eq_true Hv]%andb_true_iff.
  split; [done|by apply seen_versionb_true].
Qed.
End workload.
