(* ===== verification/Logging.v ===== *)
(** * Structured logging (internal/platform/log)

    The logger of a program and its way through the context of a request.  [log/slog] is
    modelled as far as the code uses it: a logger is a level, a flag and the attributes
    attached with [With]; a record below the level is dropped, any other becomes one line
    that carries the attributes of its logger first. *)
From S2P Require Import Prelude.

(** Attribute values; panics and stack traces are not looked into. *)
Inductive LogValue : Type :=
| LString (s : string)
| LInt (z : Z)
| LDuration (z : Z)
| LAny.
#[export] Instance LogValue_eq_dec : EqDecision LogValue.
Proof. solve_decision. Defined.

Definition LevelDebug : Z := -4.
Definition LevelInfo : Z := 0.
Definition LevelError : Z := 8.

Record HandlerOptions := mkHandlerOptions { ho_Level : Z; ho_AddSource : bool }.
Record Logger := mkLogger { lg_options : HandlerOptions; lg_attrs : list (string * LogValue) }.
Record Line := mkLine { ln_level : Z; ln_msg : string; ln_attrs : list (string * LogValue) }.

(** [slog.Default] *)
Definition slog_Default : Logger := mkLogger (mkHandlerOptions LevelInfo false) [].
(** [Logger.With] *)
Definition With (attrs : list (string * LogValue)) (l : Logger) : Logger :=
  mkLogger (lg_options l) (lg_attrs l ++ attrs).
(** [Logger.Log]: the lines one call writes. *)
Definition Log (l : Logger) (level : Z) (msg : string) (attrs : list (string * LogValue)) : list Line :=
  if (level <? ho_Level (lg_options l))%Z then [] else [mkLine level msg (lg_attrs l ++ attrs)].

Definition New (env service : string) : Logger :=
  let level := if decide (env ≠ "production") then LevelDebug else LevelInfo in
  With [("service", LString service); ("env", LString env)]
    (mkLogger (mkHandlerOptions level (bool_decide (env ≠ "production"))) []).

(** What the context holds under the key of the package: nothing, or a pointer that may
    be nil. *)
Abbreviation log_value := (option (option Logger)).
Definition Into (ctx : log_value) (l : option Logger) : log_value := Some l.
Definition From (ctx : log_value) : Logger :=
  match ctx with Some (Some l) => l | _ => slog_Default end.

(** The line was written by [l] or by a logger derived from it. *)
Definition carries (l : Logger) (x : Line) : Prop := lg_attrs l `prefix_of` ln_attrs x.

Lemma Log_carries l level msg attrs : Forall (carries l) (Log l level msg attrs).
Proof. unfold Log. destruct (_ <? _)%Z; constructor; [|constructor]. by eexists. Qed.

Lemma carries_With l attrs x : carries (With attrs l) x → carries l x.
Proof. unfold carries, With. simpl. intros [k ->]. exists (attrs ++ k). by rewrite app_assoc. Qed.

(** Loggers of [New] drop nothing from [LevelInfo] on. *)
Lemma New_keeps env service attrs level msg more :
  (LevelInfo ≤ level)%Z →
  Log (With attrs (New env service)) level msg more =
    [mkLine level msg (lg_attrs (New env service) ++ attrs ++ more)].
Proof.
  intros Hl. unfold Log, New, With, LevelInfo, LevelDebug in *. simpl. case_decide.
  - destruct (Z.ltb_spec level (-4)); [lia|done].
  - destruct (Z.ltb_spec level 0); [lia|done].
Qed.
