(* ===== verification/Httpx.v ===== *)
(** * HTTP plumbing (internal/platform/httpx)

    The response writer of [net/http] (headers are frozen by the first
    [WriteHeader], later ones are ignored), the JSON and error responses, the
    middleware of the API and its composition in cmd/api.  A handler takes the
    request, the writer and the state of the process; it returns or panics.  The
    writer also collects the lines logged for the request. *)
From S2P Require Import Prelude GoStrings Apperr Postgres Logging.

(** ** Requests and the response writer *)

Record Principal := mkPrincipal { Subject : string; Email : string; Groups : list string }.

Record Request := mkRequest {
  rq_method : string;
  rq_path : string;
  rq_query : gmap string string;     (** first value of each parameter *)
  rq_header : gmap string string;    (** first value of each canonical name *)
  rq_body : string;
  rq_remote : string;
  rq_correlation : option string;    (** context value [ctxCorrelationID] *)
  rq_principal : option Principal;   (** context value [ctxPrincipal] *)
  rq_deadline : option Z;            (** deadline of the context *)
  rq_logger : log_value;             (** context value of the package log *)
  rq_span : option string            (** trace id of the span in the context *)
}.
(** [Header.Get], [Values.Get]: absent reads as empty. *)
Definition Header_Get (r : Request) (k : string) : string := default "" (rq_header r !! k).
Definition Query_Get (r : Request) (k : string) : string := default "" (rq_query r !! k).
Definition with_correlation (r : Request) (c : string) : Request :=
  mkRequest (rq_method r) (rq_path r) (rq_query r) (rq_header r) (rq_body r) (rq_remote r) (Some c) (rq_principal r) (rq_deadline r)
    (rq_logger r) (rq_span r).
Definition with_principal (r : Request) (p : Principal) : Request :=
  mkRequest (rq_method r) (rq_path r) (rq_query r) (rq_header r) (rq_body r) (rq_remote r) (rq_correlation r) (Some p) (rq_deadline r)
    (rq_logger r) (rq_span r).
(** [context.WithTimeout] at the instant [t]: an earlier deadline stays. *)
Definition WithTimeout (t d : Z) (r : Request) : Request :=
  mkRequest (rq_method r) (rq_path r) (rq_query r) (rq_header r) (rq_body r) (rq_remote r) (rq_correlation r) (rq_principal r)
    (Some (from_option (Z.min (t + d)) (t + d)%Z (rq_deadline r))) (rq_logger r) (rq_span r).
Definition with_logger (r : Request) (l : option Logger) : Request :=
  mkRequest (rq_method r) (rq_path r) (rq_query r) (rq_header r) (rq_body r) (rq_remote r) (rq_correlation r) (rq_principal r)
    (rq_deadline r) (Into (rq_logger r) l) (rq_span r).
Definition CorrelationID (r : Request) : string := default "" (rq_correlation r).
Definition PrincipalFrom (r : Request) : option Principal := rq_principal r.

(** What is written to the body: the encoding of a JSON value and a newline, or
    the text of a JSONB value as the database prints it. *)
Inductive chunk : Type :=
| CJson (j : json)
| CRaw (j : json).

(** What handling one request mutates: the response, the status kept by a
    [statusRecorder] around it, and the pattern in the route context that the
    router keeps behind a pointer in the context. *)
Record Writer := mkWriter {
  rw_header : gmap string string;
  rw_sent : option (Z * gmap string string);   (** status and headers on the wire *)
  rw_body : list chunk;
  rw_recorded : Z;
  rw_route : string;
  rw_log : list Line                 (** lines logged while the request was handled *)
}.
Definition fresh_writer : Writer := mkWriter ∅ None [] 200 "" [].
Definition Header_Set (k v : string) (w : Writer) : Writer :=
  mkWriter (<[k := v]> (rw_header w)) (rw_sent w) (rw_body w) (rw_recorded w) (rw_route w) (rw_log w).
Definition set_recorded (code : Z) (w : Writer) : Writer :=
  mkWriter (rw_header w) (rw_sent w) (rw_body w) code (rw_route w) (rw_log w).
Definition set_route (pattern : string) (w : Writer) : Writer :=
  mkWriter (rw_header w) (rw_sent w) (rw_body w) (rw_recorded w) pattern (rw_log w).
Definition log_lines (ls : list Line) (w : Writer) : Writer :=
  mkWriter (rw_header w) (rw_sent w) (rw_body w) (rw_recorded w) (rw_route w) (rw_log w ++ ls).
(** [net/http]: only the first call reaches the wire. *)
Definition send (code : Z) (w : Writer) : Writer :=
  match rw_sent w with
  | Some _ => w
  | None => mkWriter (rw_header w) (Some (code, rw_header w)) (rw_body w) (rw_recorded w) (rw_route w) (rw_log w)
  end.
(** [statusRecorder.WriteHeader]: every call is recorded. *)
Definition WriteHeader (code : Z) (w : Writer) : Writer := send code (set_recorded code w).
(** [Write] is promoted from the embedded writer: its implicit 200 is not recorded. *)
Definition Write (c : chunk) (w : Writer) : Writer :=
  let w := send 200 w in mkWriter (rw_header w) (rw_sent w) (rw_body w ++ [c]) (rw_recorded w) (rw_route w) (rw_log w).

Definition status_of (w : Writer) : Z := match rw_sent w with Some (c, _) => c | None => 200%Z end.
Definition sent_header (w : Writer) (k : string) : option string :=
  match rw_sent w with Some (_, h) => h !! k | None => rw_header w !! k end.

(** ** Responses (response.go) *)

Definition json_content : string := "application/json; charset=utf-8".
Definition JSON (status : Z) (body : json) (w : Writer) : Writer :=
  Write (CJson body) (WriteHeader status (Header_Set "Content-Type" json_content w)).

Record ErrorBody := mkErrorBody { eb_Code : string; eb_Message : string; eb_Details : list string; eb_CorrelationID : string }.
(** [details] is omitted when empty. *)
Definition error_json (b : ErrorBody) : json :=
  JObj ([("code", JStr (eb_Code b)); ("message", JStr (eb_Message b))] ++
        (if decide (eb_Details b = []) then [] else [("details", JArr (map JStr (eb_Details b)))]) ++
        [("correlationId", JStr (eb_CorrelationID b))]).
Definition error_body (r : Request) (err : goerror) : ErrorBody :=
  match As err with
  | Some e => mkErrorBody (err_Code e) (err_Message e) (err_Details e) (CorrelationID r)
  | None => mkErrorBody "INTERNAL" "an unexpected error occurred" [] (CorrelationID r)
  end.
(** A server error is logged with the logger of the request. *)
Definition failure_lines (r : Request) (err : goerror) : list Line :=
  if (500 <=? HTTPStatus err)%Z
  then Log (From (rq_logger r)) LevelError "request failed"
         [("error", LString (error_string err)); ("code", LString (eb_Code (error_body r err)))]
  else [].
Definition Error (r : Request) (err : goerror) (w : Writer) : Writer :=
  JSON (HTTPStatus err) (error_json (error_body r err)) (log_lines (failure_lines r err) w).
(** [Page], [nextCursor] omitted when empty. *)
Definition page_json (items : list json) (next : string) : json :=
  JObj (("items", JArr items) :: if decide (next = "") then [] else [("nextCursor", JStr next)]).

(** ** The rate limiter (ratelimit.go)

    [golang.org/x/time/rate] is an argument: the buckets it makes for the
    configured rate and burst, and what [Allow] answers at an instant. *)

Class LimiterLib := {
  Limiter : Type;
  NewLimiter : Limiter;
  Allow : Z → Limiter → bool * Limiter
}.

Section ratelimit.
Context `{LimiterLib}.

Record entry := mkEntry { e_limiter : Limiter; e_seen : Z }.
(** Ten minutes, in nanoseconds. *)
Definition limiter_ttl : Z := 600 * 1000000000.

(** [t1] is read for [seen], [t2] inside [Allow]. *)
Definition allow (key : string) (t1 t2 : Z) (kl : gmap string entry) : bool * gmap string entry :=
  let e := default (mkEntry NewLimiter 0) (kl !! key) in
  let '(ok, l) := Allow t2 (e_limiter e) in
  (ok, <[key := mkEntry l t1]> kl).

(** One round of [reap]: entries idle for longer than the ttl go; the clock is read
    for each key. *)
Definition reap (t : string → Z) (kl : gmap string entry) : gmap string entry :=
  filter (λ ke, ¬ (limiter_ttl < t ke.1 - e_seen ke.2)%Z) kl.

(** What happens to the table, in order: the mutex makes each one step. *)
Inductive LimiterOp : Type :=
| OpAllow (key : string) (t1 t2 : Z)
| OpReap (t : string → Z).
Fixpoint run_limiter (ops : list LimiterOp) (kl : gmap string entry) : list (string * bool) * gmap string entry :=
  match ops with
  | [] => ([], kl)
  | OpAllow k t1 t2 :: ops' =>
    let '(b, kl1) := allow k t1 t2 kl in
    let '(ds, kl2) := run_limiter ops' kl1 in ((k, b) :: ds, kl2)
  | OpReap t :: ops' => run_limiter ops' (reap t kl)
  end.

(** A bucket of its own for one identity: it is discarded only by a reap that
    finds it idle for longer than the ttl. *)
Fixpoint run_private (k : string) (ops : list LimiterOp) (o : option entry) : list bool * option entry :=
  match ops with
  | [] => ([], o)
  | OpAllow k' t1 t2 :: ops' =>
    if decide (k' = k) then
      let '(b, l) := Allow t2 (e_limiter (default (mkEntry NewLimiter 0) o)) in
      let '(ds, o') := run_private k ops' (Some (mkEntry l t1)) in (b :: ds, o')
    else run_private k ops' o
  | OpReap t :: ops' =>
    run_private k ops' (match o with
                        | Some e => if decide (limiter_ttl < t k - e_seen e)%Z then None else Some e
                        | None => None
                        end)
  end.

Definition decisions (k : string) (ds : list (string * bool)) : list bool :=
  (filter (λ d, d.1 = k) ds).*2.

Lemma reap_lookup t kl k :
  reap t kl !! k = match kl !! k with
                   | Some e => if decide (limiter_ttl < t k - e_seen e)%Z then None else Some e
                   | None => None
                   end.
Proof.
  unfold reap. rewrite map_lookup_filter. destruct (kl !! k) as [e|]; simpl; [|done].
  destruct (decide (limiter_ttl < t k - e_seen e)%Z); [by rewrite option_guard_False by (by intros [])|].
  by rewrite option_guard_True.
Qed.

(** C35: identities do not share their allowance: for every identity, whatever other
    identities do, the answers of the shared limiter are those of a token bucket
    of its own, which is replaced by a new one only after it was idle for more
    than ten minutes. *)
Theorem rate_limit_isolated k ops kl :
  decisions k (run_limiter ops kl).1 = (run_private k ops (kl !! k)).1 ∧
  (run_limiter ops kl).2 !! k = (run_private k ops (kl !! k)).2.
Proof.
  revert kl. induction ops as [|[k' t1 t2|t] ops IH]; intros kl; simpl; [done|..].
  - unfold allow. destruct (Allow t2 _) as [b l] eqn:E. specialize (IH (<[k' := mkEntry l t1]> kl)).
    destruct (run_limiter ops _) as [ds kl2]. simpl in *. unfold decisions in *. rewrite filter_cons. simpl.
    destruct (decide (k' = k)) as [->|Hne].
    + rewrite E. rewrite lookup_insert_eq in IH. destruct (run_private k ops _) as [ds' o']. simpl in *.
      destruct IH as [IH1 IH2]. split; [by f_equal|done].
    + by rewrite lookup_insert_ne in IH by done.
  - rewrite <- reap_lookup. apply IH.
Qed.
End ratelimit.

(** ** Metrics (internal/platform/observability)

    The two vectors of [NewMetrics]: the request counter by route, method and
    status, and the observations of the duration histogram by route and method.
    A label combination that was never used is absent. *)

Record Metrics := mkMetrics {
  HTTPRequests : gmap (string * string * string) N;
  HTTPDuration : gmap (string * string) (list Z)
}.
Definition NewMetrics : Metrics := mkMetrics ∅ ∅.
(** [WithLabelValues(l).Inc()] and [WithLabelValues(l).Observe(d)] *)
Definition Inc (l : string * string * string) (m : Metrics) : Metrics :=
  mkMetrics (<[l := (default 0 (HTTPRequests m !! l) + 1)%N]> (HTTPRequests m)) (HTTPDuration m).
Definition ObserveDuration (l : string * string) (d : Z) (m : Metrics) : Metrics :=
  mkMetrics (HTTPRequests m) (<[l := default [] (HTTPDuration m !! l) ++ [d]]> (HTTPDuration m)).
Definition requests_total (m : Metrics) (l : string * string * string) : N := default 0%N (HTTPRequests m !! l).
Definition durations (m : Metrics) (l : string * string) : list Z := default [] (HTTPDuration m !! l).

(** [http.StatusText] *)
Definition status_texts : list (Z * string) :=
  [(100, "Continue"); (101, "Switching Protocols"); (102, "Processing"); (103, "Early Hints"); (200, "OK");
   (201, "Created"); (202, "Accepted"); (203, "Non-Authoritative Information"); (204, "No Content");
   (205, "Reset Content"); (206, "Partial Content"); (207, "Multi-Status"); (208, "Already Reported");
   (226, "IM Used"); (300, "Multiple Choices"); (301, "Moved Permanently"); (302, "Found"); (303, "See Other");
   (304, "Not Modified"); (305, "Use Proxy"); (307, "Temporary Redirect"); (308, "Permanent Redirect");
   (400, "Bad Request"); (401, "Unauthorized"); (402, "Payment Required"); (403, "Forbidden"); (404, "Not Found");
   (405, "Method Not Allowed"); (406, "Not Acceptable"); (407, "Proxy Authentication Required");
   (408, "Request Timeout"); (409, "Conflict"); (410, "Gone"); (411, "Length Required");
   (412, "Precondition Failed"); (413, "Request Entity Too Large"); (414, "Request URI Too Long");
   (415, "Unsupported Media Type"); (416, "Requested Range Not Satisfiable"); (417, "Expectation Failed");
   (418, "I'm a teapot"); (421, "Misdirected Request"); (422, "Unprocessable Entity"); (423, "Locked");
   (424, "Failed Dependency"); (425, "Too Early"); (426, "Upgrade Required"); (428, "Precondition Required");
   (429, "Too Many Requests"); (431, "Request Header Fields Too Large"); (451, "Unavailable For Legal Reasons");
   (500, "Internal Server Error"); (501, "Not Implemented"); (502, "Bad Gateway"); (503, "Service Unavailable");
   (504, "Gateway Timeout"); (505, "HTTP Version Not Supported"); (506, "Variant Also Negotiates");
   (507, "Insufficient Storage"); (508, "Loop Detected"); (510, "Not Extended");
   (511, "Network Authentication Required")]%Z.
Definition StatusText (code : Z) : string := default "" (snd <$> find (λ e, (e.1 =? code)%Z) status_texts).

(** ** Middleware (middleware.go, auth.go, ratelimit.go)

    [V] is the state of the token verifier, [App] what the handlers work on. *)

Class Verifier (V : Type) := Verify : string → V → result goerror Principal * V.

Section middleware.
Context {App V : Type} `{!Verifier V} `{!LimiterLib}.
(** Clock readings, [uuid.NewString()], and the logger of the program. *)
Context (now : nat → Z) (NewString : nat → string) (base : Logger).

Record Process := mkProcess {
  ps_app : App; ps_verifier : V; ps_limiter : gmap string entry; ps_metrics : Metrics; ps_tick : nat }.
Inductive ending : Type := Returned | Panicked.
Definition Handler : Type := Request → Writer → Process → ending * Writer * Process.

Definition set_verifier (s : Process) (v : V) : Process := mkProcess (ps_app s) v (ps_limiter s) (ps_metrics s) (ps_tick s).
Definition set_limiter (s : Process) kl : Process := mkProcess (ps_app s) (ps_verifier s) kl (ps_metrics s) (S (S (ps_tick s))).
Definition set_app (s : Process) (a : App) : Process := mkProcess a (ps_verifier s) (ps_limiter s) (ps_metrics s) (ps_tick s).
Definition set_metrics (s : Process) (m : Metrics) : Process := mkProcess (ps_app s) (ps_verifier s) (ps_limiter s) m (ps_tick s).
Definition tick_process (s : Process) : Process := mkProcess (ps_app s) (ps_verifier s) (ps_limiter s) (ps_metrics s) (S (ps_tick s)).

Definition correlationHeader : string := "X-Correlation-Id".
Definition ErrPanic : goerror := Internal "PANIC" "an unexpected error occurred".
Definition ErrMissingToken : goerror := Unauthorized "MISSING_TOKEN" "a bearer token is required".
Definition ErrRateLimited : goerror := TooManyRequests "RATE_LIMITED" "rate limit exceeded".

Definition panic_lines (r : Request) : list Line :=
  Log (From (rq_logger r)) LevelError "panic recovered" [("panic", LAny); ("stack", LAny)].
Definition Recoverer (next : Handler) : Handler := λ r w s,
  match next r w s with
  | (Panicked, w', s') => (Returned, Error r ErrPanic (log_lines (panic_lines r) w'), s')
  | done_ => done_
  end.

Definition Correlate (next : Handler) : Handler := λ r w s,
  let given := Header_Get r correlationHeader in
  let '(cid, s) := if decide (given = "") then (NewString (ps_tick s), tick_process s) else (given, s) in
  let r := with_correlation r cid in
  let reqLogger := With [("correlation_id", LString cid)] base in
  let reqLogger := match rq_span r with
                   | Some trace => With [("trace_id", LString trace)] reqLogger
                   | None => reqLogger
                   end in
  next (with_logger r (Some reqLogger)) (Header_Set correlationHeader cid w) s.

Definition request_lines (r : Request) (route : string) (status duration : Z) : list Line :=
  Log (From (rq_logger r)) LevelInfo "request"
    [("method", LString (rq_method r)); ("route", LString route); ("status", LInt status); ("duration", LDuration duration)].
Definition Observe (next : Handler) : Handler := λ r w s,
  let start := now (ps_tick s) in
  match next r (set_recorded 200 w) (tick_process s) with
  | (Panicked, w', s') => (Panicked, w', s')
  | (Returned, w', s') =>
    let route := if decide (rw_route w' = "") then "unmatched" else rw_route w' in
    let m := ObserveDuration (route, rq_method r) (now (ps_tick s') - start)%Z (ps_metrics s') in
    let s'' := tick_process (set_metrics s' (Inc (route, rq_method r, StatusText (rw_recorded w')) m)) in
    (Returned, log_lines (request_lines r route (rw_recorded w') (now (ps_tick s'') - start)%Z) w', tick_process s'')
  end.

Definition Timeout (d : Z) (next : Handler) : Handler := λ r w s,
  next (WithTimeout (now (ps_tick s)) d r) w (tick_process s).

Definition Authenticate (next : Handler) : Handler := λ r w s,
  let raw := Header_Get r "Authorization" in
  if negb (HasPrefix raw "Bearer ") then (Returned, Error r ErrMissingToken w, s)
  else
    match Verify (TrimPrefix raw "Bearer ") (ps_verifier s) with
    | (Err e, v) => (Returned, Error r e w, set_verifier s v)
    | (Ok p, v) => next (with_principal r p) w (set_verifier s v)
    end.

Definition limiter_key (r : Request) : string :=
  match PrincipalFrom r with
  | Some p => if decide (Subject p ≠ "") then Subject p else rq_remote r
  | None => rq_remote r
  end.
Definition RateLimit (next : Handler) : Handler := λ r w s,
  let '(ok, kl) := allow (limiter_key r) (now (ps_tick s)) (now (S (ps_tick s))) (ps_limiter s) in
  if negb ok then (Returned, Error r ErrRateLimited (Header_Set "Retry-After" "1" w), set_limiter s kl)
  else next r w (set_limiter s kl).

(** The chain in front of every route, and what follows it under /api/v1
    (cmd/api/main.go). *)
Definition seconds (n : Z) : Z := n * 1000000000.
Definition chain (router : Handler) : Handler := Recoverer (Correlate (Observe (Timeout (seconds 30) router))).
Definition gate (routes : Handler) : Handler := Authenticate (RateLimit routes).
Definition api_v1 (routes : Handler) : Handler := chain (gate routes).

(** ** What the chain guarantees *)

Lemma status_of_Error r e w : rw_sent w = None → status_of (Error r e w) = HTTPStatus e.
Proof. unfold Error, JSON, Write, WriteHeader, send, status_of. simpl. by intros ->. Qed.
Lemma body_of_Error r e w : rw_sent w = None → rw_body (Error r e w) = rw_body w ++ [CJson (error_json (error_body r e))].
Proof. unfold Error, JSON, Write, WriteHeader, send. simpl. by intros ->. Qed.
Lemma sent_header_Error r e w k : rw_sent w = None → k ≠ "Content-Type" → sent_header (Error r e w) k = rw_header w !! k.
Proof.
  unfold Error, JSON, Write, WriteHeader, send, sent_header. simpl. intros -> Hk. simpl. by rewrite lookup_insert_ne.
Qed.

(** The writer as the chain hands it over: nothing sent, the correlation id set. *)
Definition unsent (cid : string) (w : Writer) : Prop :=
  rw_sent w = None ∧ rw_body w = [] ∧ rw_header w !! correlationHeader = Some cid ∧ rw_recorded w = 200%Z.

(** [Recoverer] seen from outside: a panic is answered with the PANIC error. *)
Definition recovered (r : Request) (out : ending * Writer * Process) : Writer :=
  match out.1.1 with Returned => out.1.2 | Panicked => Error r ErrPanic (log_lines (panic_lines r) out.1.2) end.

Lemma log_lines_nil w : log_lines [] w = w.
Proof. unfold log_lines. rewrite app_nil_r. by destruct w. Qed.

(** The logger in the context of [r] is the one of the program with the correlation id. *)
Definition correlated (cid : string) (r : Request) : Prop :=
  lg_options (From (rq_logger r)) = lg_options base ∧
  ∀ x, carries (From (rq_logger r)) x → carries (With [("correlation_id", LString cid)] base) x.

(** What the first part of the chain does around any router. *)
Lemma chain_run router r s :
  let out := chain router r fresh_writer s in
  ∃ cid r0 w0 s0, unsent cid w0 ∧ (Header_Get r correlationHeader ≠ "" → cid = Header_Get r correlationHeader) ∧
    CorrelationID r0 = cid ∧ rq_principal r0 = rq_principal r ∧ rq_body r0 = rq_body r ∧
    rq_path r0 = rq_path r ∧ rq_query r0 = rq_query r ∧ rq_header r0 = rq_header r ∧ rq_method r0 = rq_method r ∧
    rq_remote r0 = rq_remote r ∧ rw_route w0 = "" ∧ rw_log w0 = [] ∧ correlated cid r0 ∧
    ps_app s0 = ps_app s ∧ ps_verifier s0 = ps_verifier s ∧ ps_limiter s0 = ps_limiter s ∧ ps_metrics s0 = ps_metrics s ∧
    let o := router r0 w0 s0 in
    out.1.1 = Returned ∧ ps_app out.2 = ps_app o.2 ∧ ps_verifier out.2 = ps_verifier o.2 ∧
    ps_limiter out.2 = ps_limiter o.2 ∧
    ∃ ls, out.1.2 = log_lines ls (recovered r o) ∧
    match o.1.1 with
    | Panicked => ls = [] ∧ ps_metrics out.2 = ps_metrics o.2
    | Returned =>
      let route := if decide (rw_route o.1.2 = "") then "unmatched" else rw_route o.1.2 in
      ∃ d d', ls = request_lines r0 route (rw_recorded o.1.2) d' ∧ ps_metrics out.2 =
        Inc (route, rq_method r, StatusText (rw_recorded o.1.2)) (ObserveDuration (route, rq_method r) d (ps_metrics o.2))
    end.
Proof.
  simpl. unfold chain, Recoverer, Correlate.
  destruct (if decide (Header_Get r correlationHeader = "") then _ else _) as [cid s1] eqn:Es1.
  assert (ps_app s1 = ps_app s ∧ ps_verifier s1 = ps_verifier s ∧ ps_limiter s1 = ps_limiter s ∧ ps_metrics s1 = ps_metrics s)
    as (Ha & Hv & Hl & Hm) by (case_decide; by injection Es1 as <- <-).
  unfold Observe, Timeout.
  set (r0 := WithTimeout _ _ _). set (w0 := set_recorded 200 _). set (s0 := tick_process (tick_process s1)).
  exists cid, r0, w0, s0. split_and!; try done.
  { intros Hg. rewrite decide_False in Es1 by done. by injection Es1 as <- _. }
  2-5: destruct (router r0 w0 s0) as [[[] w'] s'] eqn:Er; cbn [fst snd]; try done.
  - split; unfold r0; simpl; destruct (rq_span r); try done. intros x. apply carries_With.
  - destruct (router r0 w0 s0) as [[[] w'] s'] eqn:Er; cbn [fst snd].
    + eexists. split; [reflexivity|]. eexists _, _. split; reflexivity.
    + exists []. split_and!; [by rewrite log_lines_nil|done|done].
Qed.

(** The chain stopped the request with [e]: nothing of the application was touched. *)
Definition stopped (e : goerror) (s : Process) (out : ending * Writer * Process) : Prop :=
  out.1.1 = Returned ∧ ps_app out.2 = ps_app s ∧ status_of out.1.2 = HTTPStatus e ∧
  (∃ r', rw_body out.1.2 = [CJson (error_json (error_body r' e))] ∧
     sent_header out.1.2 correlationHeader = Some (CorrelationID r')).

(** The request handed to a route: authenticated as [p], with a correlation id. *)
Definition handed_over (r r' : Request) (p : Principal) (w' : Writer) : Prop :=
  rq_principal r' = Some p ∧ rq_body r' = rq_body r ∧ rq_path r' = rq_path r ∧ rq_query r' = rq_query r ∧
  rq_header r' = rq_header r ∧ rq_method r' = rq_method r ∧ unsent (CorrelationID r') w'.

Lemma stopped_Error r e w s s' cid :
  unsent cid w → CorrelationID r = cid → ps_app s' = ps_app s → stopped e s (Returned, Error r e w, s').
Proof.
  intros (Hs & Hb & Hh & _) Hc Ha. split_and!; [done|done|by apply status_of_Error|].
  exists r. cbn [fst snd]. rewrite body_of_Error, Hb, sent_header_Error, Hh, Hc by done. done.
Qed.

(** The identity a request is counted under: the subject of its principal, or its address. *)
Definition identity (p : Principal) (r : Request) : string := if decide (Subject p = "") then rq_remote r else Subject p.

Lemma limiter_key_identity p r : limiter_key (with_principal r p) = identity p r.
Proof. unfold limiter_key, identity. simpl. repeat case_decide; tauto. Qed.

(** What [gate] does with a request the chain handed to it. *)
Lemma gate_run routes r w s cid :
  unsent cid w → CorrelationID r = cid →
  let out := gate routes r w s in
  (stopped ErrMissingToken s out ∧ HasPrefix (Header_Get r "Authorization") "Bearer " = false ∧
     ps_limiter out.2 = ps_limiter s) ∨
  (∃ v, HasPrefix (Header_Get r "Authorization") "Bearer " = true ∧
    ((∃ e, Verify (TrimPrefix (Header_Get r "Authorization") "Bearer ") (ps_verifier s) = (Err e, v) ∧ stopped e s out ∧
        ps_limiter out.2 = ps_limiter s) ∨
     (∃ p n ok kl, Verify (TrimPrefix (Header_Get r "Authorization") "Bearer ") (ps_verifier s) = (Ok p, v) ∧
        allow (identity p r) (now n) (now (S n)) (ps_limiter s) = (ok, kl) ∧
        if ok then ∃ s', ps_app s' = ps_app s ∧ ps_verifier s' = v ∧ ps_limiter s' = kl ∧
                         out = routes (with_principal r p) w s'
        else stopped ErrRateLimited s out ∧ ps_limiter out.2 = kl ∧ sent_header out.1.2 "Retry-After" = Some "1"))).
Proof.
  intros Hw Hc. simpl. unfold gate, Authenticate.
  destruct (HasPrefix (Header_Get r "Authorization") "Bearer ") eqn:Ep; simpl.
  2:{ left. split_and!; [|done..]. by eapply stopped_Error. }
  right. destruct (Verify _ (ps_verifier s)) as [[p|e] v] eqn:Evf; exists v; (split; [done|]).
  2:{ left. exists e. split_and!; [done| |done]. by eapply stopped_Error. }
  right. unfold RateLimit. rewrite limiter_key_identity.
  destruct (allow _ (now (ps_tick _)) _ _) as [ok kl] eqn:Eal. exists p, (ps_tick s), ok, kl.
  split_and!; [done..|]. destruct ok; simpl; [by exists (set_limiter (set_verifier s v) kl)|].
  destruct Hw as (Hs & Hb & Hh & Hr). split_and!; [|done|].
  - apply (stopped_Error (with_principal r p) _ _ s _ cid); [|done|done]. split_and!; try done. simpl. by rewrite lookup_insert_ne.
  - rewrite sent_header_Error by done. simpl. apply lookup_insert_eq.
Qed.

(** C12: no route of the API runs without a verified token and an allowance.  A request without a
    bearer token is answered 401, one whose token the verifier refuses with the verifier's
    error; neither is counted.  For a verified request the shared limiter is asked once, under the
    subject of the principal (or the remote address if that is empty): if it answers no, the
    request is answered 429 with Retry-After; only if it answers yes a route runs, as the principal
    that the verifier returned, with the correlation id that is set on the response, and the
    answer is that of the route, a panic of the route becoming the PANIC error.  In all other
    cases the application is untouched.  In all cases the chain returns. *)
Theorem api_gate routes r s :
  let out := api_v1 routes r fresh_writer s in
  (stopped ErrMissingToken s out ∧ HasPrefix (Header_Get r "Authorization") "Bearer " = false ∧
     ps_limiter out.2 = ps_limiter s) ∨
  (∃ token v, HasPrefix (Header_Get r "Authorization") "Bearer " = true ∧
    token = TrimPrefix (Header_Get r "Authorization") "Bearer " ∧
    ((∃ e, Verify token (ps_verifier s) = (Err e, v) ∧ stopped e s out ∧ ps_limiter out.2 = ps_limiter s) ∨
     (∃ p n ok kl, Verify token (ps_verifier s) = (Ok p, v) ∧
        allow (identity p r) (now n) (now (S n)) (ps_limiter s) = (ok, kl) ∧
        if ok then
          ∃ r' w' s', handed_over r r' p w' ∧ ps_app s' = ps_app s ∧ ps_verifier s' = v ∧ ps_limiter s' = kl ∧
            let o := routes r' w' s' in
            out.1.1 = Returned ∧ ps_app out.2 = ps_app o.2 ∧ ∃ ls, out.1.2 = log_lines ls (recovered r o)
        else stopped ErrRateLimited s out ∧ ps_limiter out.2 = kl ∧ sent_header out.1.2 "Retry-After" = Some "1"))).
Proof.
  destruct (chain_run (gate routes) r s) as (cid & r0 & w0 & s0 & Hw & _ & Hc & _ & Hbody & Hpath & Hquery & Hhdr & Hmeth &
    Hrem & _ & _ & _ & Ha & Hv & Hl & _ & Hret & Happ & _ & Hlim & ls & Hout & _).
  fold (api_v1 routes) in *. set (out := api_v1 routes r fresh_writer s) in *. cbv zeta.
  assert (∀ e, stopped e s0 (gate routes r0 w0 s0) → stopped e s out ∧
    ∀ k, sent_header out.1.2 k = sent_header (gate routes r0 w0 s0).1.2 k) as Hstop.
  { intros e (Hr & Hap & Hst & Hb). unfold recovered in Hout. rewrite Hr in Hout.
    unfold stopped. rewrite Hout, Happ, Hap. done. }
  assert (Header_Get r0 "Authorization" = Header_Get r "Authorization") as Hauth by (unfold Header_Get; by rewrite Hhdr).
  pose proof (gate_run routes r0 w0 s0 cid Hw Hc) as Hg. cbv zeta in Hg. rewrite Hauth, Hv, Hl, <- Hlim in Hg.
  destruct Hg as [(Hs & Hp & Hk)|(v & Hp & Hg)]; [left; split_and!; [by apply Hstop|done..]|]. right.
  exists (TrimPrefix (Header_Get r "Authorization") "Bearer "), v. split_and!; [done..|].
  destruct Hg as [(e & He & Hs & Hk)|(p & n & ok & kl & Hvf & Hal & Hg)].
  { left. exists e. split_and!; [done|by apply Hstop|done]. }
  right. exists p, n, ok, kl. split; [done|]. split.
  { unfold identity in *. by rewrite <- Hrem. }
  destruct ok.
  - destruct Hg as (s' & Ha' & Hv' & Hl' & Ho). exists (with_principal r0 p), w0, s'. rewrite Ha', Ha. rewrite Ho in *.
    split_and!; try done; [|by exists ls]. split_and!; try done. by rewrite <- Hc in Hw.
  - destruct Hg as (Hs & Hk & Hh). destruct (Hstop _ Hs) as [Hs' Hhd]. split_and!; [done..|]. by rewrite Hhd.
Qed.

(** A recovered panic is logged before the correlation id was known: on a request as
    net/http delivers it, neither of its two lines carries the id. *)
Theorem panic_log_uncorrelated router r s :
  rq_logger r = None →
  (∀ r' w' s', (router r' w' s').1.1 = Panicked) →
  ∃ ls, rw_log (chain router r fresh_writer s).1.2 = ls ++
    [mkLine LevelError "panic recovered" [("panic", LAny); ("stack", LAny)];
     mkLine LevelError "request failed" [("error", LString (error_string ErrPanic)); ("code", LString "PANIC")]].
Proof.
  intros Hl Hp. destruct (chain_run router r s) as (cid & r0 & w0 & s0 & _ & _ & _ & _ & _ & _ & _ & _ & _ & _ & _ & _ & _ &
    _ & _ & _ & _ & _ & _ & _ & _ & ls & Hout & Hmet).
  unfold recovered in Hout. rewrite Hp in Hout, Hmet. destruct Hmet as [-> _]. rewrite log_lines_nil in Hout. rewrite Hout.
  unfold Error, JSON, Write, WriteHeader, send, failure_lines, panic_lines, error_body. rewrite Hl.
  destruct (router r0 w0 s0) as [[e [hd sent bd rec rt lg]] s']. simpl. destruct sent; simpl; rewrite <- app_assoc; by eexists.
Qed.
End middleware.

(** ** Health endpoints (server.go) *)

Definition Liveness (w : Writer) : Writer := JSON 200 (JObj [("status", JStr "ok")]) w.
Definition Readiness (ready : result goerror unit) (w : Writer) : Writer :=
  match ready with
  | Err e => JSON 503 (JObj [("reason", JStr (error_string e)); ("status", JStr "unready")]) w
  | Ok _ => JSON 200 (JObj [("status", JStr "ready")]) w
  end.
