(* ===== verification/Jwks.v ===== *)
(** * Token verification (internal/platform/httpx/auth.go)

    The HMAC and the JWKS verifier.  [jwt.ParseWithClaims] is an argument: it may
    call the key function it is given and answers claims or nothing.  The JWKS
    document is fetched over an HTTP client that may fail or answer anything;
    other requests refresh the same key table concurrently. *)
From S2P Require Import Prelude GoStrings Apperr Encoding Postgres Httpx.

(** ** Keys *)

Record PublicKey := mkPublicKey { key_N : Z; key_E : Z }.
(** [big.Int.SetBytes]: big-endian. *)
Definition SetBytes (s : string) : Z := foldl (λ z a, z * 256 + Z.of_N (code a))%Z 0%Z (bytes s).

(** [time.Since]: the difference saturates at the range of a duration. *)
Definition Since (now t : Z) : Z := Z.max int64_min (Z.min int64_max (now - t)).
(** The zero [time.Time] is the first of January of the year 1. *)
Definition zero_time : Z := - 62135596800 * 1000000000.

Record JWKSVerifier := mkJWKSVerifier { jw_keys : gmap string PublicKey; jw_fetched : Z }.
Definition NewJWKSVerifier : JWKSVerifier := mkJWKSVerifier ∅ zero_time.
(** Ten minutes, in nanoseconds. *)
Definition jwks_ttl : Z := 600 * 1000000000.

(** ** Reading the document *)

Definition jwk_spec : list (string * fkind) := [("kty", FString); ("kid", FString); ("n", FString); ("e", FString)].

(** The [keys] member: an array of structs, or null. *)
Definition decode_keys (v : jvalue) : option (list fields) :=
  match v with
  | VArr l => mapM (decode_struct false jwk_spec) l
  | VNull => Some []
  | _ => None
  end.
Definition store_doc (o : option (list fields)) (m : list ascii * jvalue) : option (list fields) :=
  ks ← o;
  if same_field "keys" m.1 then match m.2 with VNull => Some ks | v => decode_keys v end else Some ks.
Definition decode_doc (body : string) : option (list fields) :=
  v ← json_first body;
  match v with
  | VObj ms => foldl store_doc (Some []) ms
  | VNull => Some []
  | _ => None
  end.

Definition decode_failed : goerror := EOther "invalid JWKS document".
Definition base64_failed : goerror := EOther "illegal base64 data".

(** The loop over the keys: other key types are skipped, bad numbers end it. *)
Fixpoint parse_keys (ks : list fields) (parsed : gmap string PublicKey) : result goerror (gmap string PublicKey) :=
  match ks with
  | [] => Ok parsed
  | k :: ks' =>
    if decide (str_field k "kty" ≠ "RSA") then parse_keys ks' parsed
    else
      n ← or_err (DecodeString (str_field k "n")) base64_failed;
      e ← or_err (DecodeString (str_field k "e")) base64_failed;
      parse_keys ks' (<[str_field k "kid" := mkPublicKey (SetBytes n) (wrap64 (SetBytes e))]> parsed)
  end.
Definition parse_document (body : string) : result goerror (gmap string PublicKey) :=
  ks ← or_err (decode_doc body) decode_failed;
  parse_keys ks ∅.

Record HTTPAnswer := mkHTTPAnswer { ha_status : Z; ha_body : string }.

Section jwks.
Context (Quote : string → string).
(** The answer of the endpoint to a request, and the clock. *)
Context (NewRequest : result goerror unit) (Do : nat → result goerror HTTPAnswer) (now : nat → Z).
(** What other goroutines do to the table between two locks. *)
Context (others : nat → JWKSVerifier → JWKSVerifier).

Record JWorld := mkJWorld { jw_state : JWKSVerifier; jw_tick : nat }.
Definition advance (w : JWorld) : JWorld := mkJWorld (others (jw_tick w) (jw_state w)) (S (jw_tick w)).
Definition get_failed (code : Z) : goerror := EOther ("jwks endpoint returned status " +:+ Itoa code).

(** [refresh]: the table is replaced only by a document that parsed completely. *)
Definition refresh (w : JWorld) : result goerror unit * JWorld :=
  let fetched :=
    _ ← NewRequest;
    resp ← Do (jw_tick w);
    if decide (ha_status resp ≠ 200%Z) then Err (get_failed (ha_status resp)) else parse_document (ha_body resp) in
  match fetched with
  | Err e => (Err e, mkJWorld (jw_state w) (S (jw_tick w)))
  | Ok parsed =>
    let w1 := advance w in
    (Ok tt, mkJWorld (mkJWKSVerifier parsed (now (jw_tick w1))) (S (jw_tick w1)))
  end.

Definition kid_not_found (kid : string) : goerror := EOther ("signing key " +:+ Quote kid +:+ " not found in JWKS").

Definition keyForKID (kid : string) (w : JWorld) : result goerror PublicKey * JWorld :=
  match jw_keys (jw_state w) !! kid, decide (Since (now (jw_tick w)) (jw_fetched (jw_state w)) < jwks_ttl)%Z with
  | Some key, left _ => (Ok key, mkJWorld (jw_state w) (S (jw_tick w)))
  | _, _ =>
    match refresh (advance w) with
    | (Err e, w1) => (Err e, w1)
    | (Ok _, w1) =>
      let w2 := advance w1 in
      (or_err (jw_keys (jw_state w2) !! kid) (kid_not_found kid), w2)
    end
  end.

(** ** Where keys come from *)

(** The table was stored at [m]: it holds the keys of a document that the endpoint had served
    with status 200. *)
Definition stored_at (m : nat) (st : JWKSVerifier) : Prop :=
  ∃ k resp, k ≤ m ∧ Do k = Ok resp ∧ ha_status resp = 200%Z ∧ parse_document (ha_body resp) = Ok (jw_keys st) ∧
    jw_fetched st = now m.
Definition served (st : JWKSVerifier) : Prop := st = NewJWKSVerifier ∨ ∃ m, stored_at m st.

(** Other goroutines only run [refresh] too: at [n] they leave the table alone or store one. *)
Definition others_refresh : Prop := ∀ n st, others n st = st ∨ stored_at n (others n st).

(** The [n]-th request for the document fails with [e]. *)
Definition fetch_failed (n : nat) (e : goerror) : Prop :=
  NewRequest = Err e ∨ Do n = Err e ∨
  ∃ resp, Do n = Ok resp ∧
    ((ha_status resp ≠ 200%Z ∧ e = get_failed (ha_status resp)) ∨
     (ha_status resp = 200%Z ∧ parse_document (ha_body resp) = Err e)).

Lemma advance_served w : others_refresh → served (jw_state w) → served (jw_state (advance w)).
Proof. intros Hoth Hs. simpl. destruct (Hoth (jw_tick w) (jw_state w)) as [->|?]; [done|]. right. eauto. Qed.

(** A table stored since [n] stays one. *)
Lemma advance_stored n m w :
  others_refresh → n < m → n < jw_tick w → stored_at m (jw_state w) → ∃ m', n < m' ∧ stored_at m' (jw_state (advance w)).
Proof. intros Hoth Hm Ht Hs. simpl. destruct (Hoth (jw_tick w) (jw_state w)) as [->|?]; eauto. Qed.

Lemma refresh_outcome w r w' : refresh w = (r, w') →
  match r with
  | Ok _ => stored_at (S (jw_tick w)) (jw_state w') ∧ jw_tick w < jw_tick w'
  | Err e => fetch_failed (jw_tick w) e ∧ jw_state w' = jw_state w
  end.
Proof.
  unfold refresh, fetch_failed. destruct NewRequest as [[]|]; simpl; [|intros [= <- <-]; auto].
  destruct (Do (jw_tick w)) as [resp|] eqn:Ed; simpl; [|intros [= <- <-]; auto].
  destruct (decide _) as [|Hst]; [intros [= <- <-]; split; [|done]; right; right; eauto|]. apply dec_stable in Hst.
  destruct (parse_document (ha_body resp)) as [parsed|] eqn:Ep; intros [= <- <-].
  - split; [|simpl; lia]. exists (jw_tick w), resp. split_and!; [lia|done..].
  - split; [|done]. right. right. exists resp. auto.
Qed.

(** C34: where a signing key comes from.  A key of the cached table is used while that table
    is younger than ten minutes.  Otherwise the document is requested: if that fails (the request
    cannot be made or sent, the status is not 200, the document cannot be read) that very
    error is returned, so an expired key is never used; if not, the answer is looked up in a table
    stored after the caller began to look, from a document the endpoint served, and a key that is
    not in it is an error.  The table always holds the keys of one served document. *)
Theorem jwks_keys_served kid w r w' :
  others_refresh → served (jw_state w) → keyForKID kid w = (r, w') →
  let fresh := (Since (now (jw_tick w)) (jw_fetched (jw_state w)) < jwks_ttl)%Z in
  served (jw_state w') ∧
  (∀ key, jw_keys (jw_state w) !! kid = Some key → fresh → r = Ok key ∧ jw_state w' = jw_state w) ∧
  (jw_keys (jw_state w) !! kid = None ∨ ¬ fresh →
     (∃ e, fetch_failed (S (jw_tick w)) e ∧ r = Err e) ∨
     (∃ m, jw_tick w < m ∧ stored_at m (jw_state w') ∧ r = or_err (jw_keys (jw_state w') !! kid) (kid_not_found kid))).
Proof.
  intros Hoth Hs E fresh.
  assert (jw_keys (jw_state w) !! kid = None ∨ ¬ fresh →
    keyForKID kid w = match refresh (advance w) with
      | (Err e, w1) => (Err e, w1)
      | (Ok _, w1) => (or_err (jw_keys (jw_state (advance w1)) !! kid) (kid_not_found kid), advance w1)
      end) as Hmiss.
  { unfold keyForKID. fold fresh. destruct (jw_keys (jw_state w) !! kid); [|done].
    destruct (decide fresh); [naive_solver|done]. }
  destruct (decide (is_Some (jw_keys (jw_state w) !! kid) ∧ fresh)) as [[[key Hk] Hf]|Hn].
  { unfold keyForKID in E. fold fresh in E. rewrite Hk in E. destruct (decide fresh); [|done].
    injection E as <- <-. split_and!; [done| |]; naive_solver. }
  assert (jw_keys (jw_state w) !! kid = None ∨ ¬ fresh) as Hm.
  { destruct (jw_keys (jw_state w) !! kid); [right|by left]. intros ?. by apply Hn. }
  rewrite (Hmiss Hm) in E. pose proof (refresh_outcome (advance w)) as Hr.
  destruct (refresh (advance w)) as [[u|e] w1]; specialize (Hr _ _ eq_refl); injection E as <- <-.
  - destruct Hr as [Hst Ht].
    destruct (advance_stored (jw_tick w) (S (jw_tick (advance w))) w1 Hoth) as (m & Hm' & Hst'); [simpl in *; lia..|done|].
    split_and!; [right; eauto|naive_solver|]. intros _. right. eauto.
  - destruct Hr as [Hfail Hst]. split_and!; [rewrite Hst; by apply advance_served|naive_solver|]. intros _. left. eauto.
Qed.
End jwks.

(** ** Verifiers *)

Record claims := mkClaims { cl_Subject : string; cl_Email : string; cl_Groups : list string }.
Definition principalFromClaims (c : claims) : Principal := mkPrincipal (cl_Subject c) (cl_Email c) (cl_Groups c).

(** The header of a token as the key function sees it: the algorithm and a [kid]
    that is a string. *)
Record token_header := mkTokenHeader { th_alg : string; th_kid : option string }.
Record parser_options := mkParserOptions {
  po_methods : list string; po_issuer : option string; po_audience : option string; po_exp_required : bool }.

Class JWTLib := {
  ParseWithClaims {K S : Type} : parser_options → string → (token_header → S → result goerror K * S) → S → option claims * S
}.

Definition ErrInvalidToken : goerror := Unauthorized "INVALID_TOKEN" "token verification failed".
Definition unexpected_method (alg : string) : goerror := EOther ("unexpected signing method " +:+ alg).

Section verify.
Context `{!JWTLib}.

Definition answer_claims {S} (r : option claims * S) : result goerror Principal * S :=
  match r with
  | (None, s) => (Err ErrInvalidToken, s)
  | (Some c, s) => (Ok (principalFromClaims c), s)
  end.

Definition HMACVerify {S} (secret : string) (token : string) (s : S) : result goerror Principal * S :=
  answer_claims (ParseWithClaims (mkParserOptions ["HS256"] None None false) token
    (λ h s, (if decide (th_alg h ∈ ["HS256"; "HS384"; "HS512"]) then Ok secret
             else Err (unexpected_method (th_alg h)), s)) s).

Definition JWKSVerify (keys : string → JWorld → result goerror PublicKey * JWorld) (issuer audience : string)
    (token : string) (w : JWorld) : result goerror Principal * JWorld :=
  answer_claims (ParseWithClaims (mkParserOptions ["RS256"] (Some issuer) (Some audience) true) token
    (λ h w, if decide (th_alg h ∈ ["RS256"; "RS384"; "RS512"]) then keys (default "" (th_kid h)) w
            else (Err (unexpected_method (th_alg h)), w)) w).

(** Whatever goes wrong inside, a refusal is the same 401. *)
Lemma answer_claims_refused {S} (r : option claims * S) e s :
  answer_claims r = (Err e, s) → e = ErrInvalidToken ∧ HTTPStatus e = 401%Z.
Proof. destruct r as [[c|] s']; simpl; [done|]. by intros [= <- _]. Qed.
End verify.

(** ** Witnesses *)

#[local] Definition demo_body : string := of_bytes (
  let q := [dquote] in let k s := q ++ bytes s ++ q in
  bytes "{" ++ k "keys" ++ bytes ":[{" ++ k "kty" ++ bytes ":" ++ k "RSA" ++ bytes "," ++ k "kid" ++ bytes ":" ++ k "k1" ++
  bytes "," ++ k "n" ++ bytes ":" ++ k "AQAB" ++ bytes "," ++ k "e" ++ bytes ":" ++ k "AQAB" ++ bytes "}]}").

Lemma jwks_keys_served_witness :
  let key := keyForKID (λ s, s) (Ok tt) (λ n, Ok (mkHTTPAnswer 200 demo_body)) (λ n, Z.of_nat n) (λ _ st, st) "k1"
               (mkJWorld NewJWKSVerifier 0) in
  key.1 = Ok (mkPublicKey 65537 65537) ∧
  served (λ n, Ok (mkHTTPAnswer 200 demo_body)) (λ n, Z.of_nat n) (jw_state key.2).
Proof.
  intros key. split; [vm_compute; reflexivity|].
  refine (proj1 (jwks_keys_served (λ s, s) (Ok tt) (λ n, Ok (mkHTTPAnswer 200 demo_body)) (λ n, Z.of_nat n) (λ _ st, st)
    "k1" (mkJWorld NewJWKSVerifier 0) key.1 key.2 _ _ _)).
  - intros n st. by left.
  - by left.
  - apply surjective_pairing.
Defined.
