(* ===== verification/CatalogApi.v ===== *)
(** * The catalog over HTTP (internal/modules/catalog/api, internal/platform/idempotency)

    The handlers of /services: decoding, the idempotency store, conditional
    requests with ETag and If-Match, list parameters and responses.  A handler
    turns a request, a writer and the database world into a writer and a world.
    The body text of a decoding error, SHA-256 and the JSON of an instant (which
    depends on the time zone of the process) are arguments. *)
From S2P Require Import Prelude GoStrings Encoding Apperr Uuid CatalogDomain Postgres CatalogRepo CatalogApp CatalogList Httpx.

(** [http.MaxBytesReader(w, r.Body, 1<<20)] *)
Definition body_limit : Z := Z.shiftl 1 20.
Definition too_long (body : string) : bool := (body_limit <? Z.of_nat (len body))%Z.
Definition limited (body : string) : string :=
  if too_long body then of_bytes (take (Z.to_nat body_limit) (bytes body)) else body.

(** ** The idempotency store *)

Section idempotency.
Context `{Env}.

Definition Lookup (key : string) : M (option (Z * json)) :=
  catch (query (λ d, or_err (idempotency_keys d !! key) ENoRows)) (λ r,
    match r with
    | Ok row => mret (Some (ik_response_status row, ik_response_body row))
    | Err e => if Is e ENoRows then mret None else fail (EWrap "lookup idempotency key" e)
    end).

(** INSERT ... ON CONFLICT (idem_key) DO NOTHING *)
Definition insert_idem (i : uuid) (key hash : string) (status : Z) (body : json) (d : Database)
    : result goerror (unit * Database) :=
  if decide (is_Some (idempotency_keys d !! key)) then Ok (tt, d)
  else if decide (map_Exists (λ _ row, ik_id row = i) (idempotency_keys d)) then Err unique_violation
  else Ok (tt, set_idem d (<[key := mkIdemRow i hash status body]> (idempotency_keys d))).
Definition Save (key requestHash : string) (status : Z) (body : json) : M unit :=
  i ← id_New;
  wrap_err "save idempotency key" (stmt (λ d _, insert_idem i key requestHash status body d)).
End idempotency.

(** ** Conditional requests *)

Definition ifMatch (r : Request) : Z :=
  let raw := Trim (Header_Get r "If-Match") dquote in
  if decide (raw = "") then 0%Z else default 0%Z (ParseInt raw).
Definition setETag (version : Z) (w : Writer) : Writer := Header_Set "ETag" (FormatInt version) w.

(** The header carries the ETag of version [v], bare or quoted. *)
Definition if_match_etag (r : Request) (v : Z) : Prop :=
  Header_Get r "If-Match" ∈ [FormatInt v; of_bytes ([dquote] ++ bytes (FormatInt v) ++ [dquote])].

Lemma FormatInt_no_quote v : Forall (λ a, a ≠ dquote) (bytes (FormatInt v)).
Proof.
  assert (∀ d, (0 ≤ d < 10)%Z → digit_char d ≠ dquote) as Hd.
  { intros d Hd E. apply (f_equal code) in E. rewrite code_digit_char in E by done.
    change (code dquote) with 34%N in E. lia. }
  unfold FormatInt. rewrite bytes_of_bytes. destruct (Z.ltb_spec v 0); [constructor; [done|]|];
    apply fmt_digits_range; (done || lia).
Qed.

Lemma ifMatch_etag r v : in_int64 v → if_match_etag r v → ifMatch r = v.
Proof.
  intros Hv Hh. pose proof (FormatInt_no_quote v) as Hq. unfold ifMatch.
  assert (Trim (Header_Get r "If-Match") dquote = FormatInt v) as ->.
  { unfold if_match_etag in Hh. rewrite !elem_of_cons, elem_of_nil in Hh.
    destruct Hh as [->|[->|[]]]; [by apply Trim_id|by apply Trim_quoted]. }
  destruct (decide (FormatInt v = "")) as [E|_].
  - pose proof (ParseInt_FormatInt v Hv) as Hp. by rewrite E in Hp.
  - by rewrite ParseInt_FormatInt.
Qed.

(** ** List parameters *)

Section parameters.
Context `{UUIDLib}.

Definition ErrLimit : goerror := Validation "INVALID_LIMIT" "limit must be a positive integer".
Definition ErrTierParam : goerror := Validation "INVALID_TIER" "tier must be an integer from 1 to 4".
Definition ErrSort : goerror := Validation "INVALID_SORT" "sort must be created_at or name".
Definition ErrOrder : goerror := Validation "INVALID_ORDER" "order must be asc or desc".

(** [if v := q.Get(name); v != "" { parse }] *)
Definition optional {A} (v : string) (parse : string → result goerror A) : result goerror (option A) :=
  if decide (v = "") then Ok None else x ← parse v; Ok (Some x).
Definition parse_limit (v : string) : result goerror Z :=
  n ← or_err (Atoi v) ErrLimit; if (n <? 1)%Z then Err ErrLimit else Ok n.
Definition parse_tier (v : string) : result goerror Tier := n ← or_err (Atoi v) ErrTierParam; NewTier n.
Definition parse_sort (v : string) : result goerror string :=
  if decide (v = "" ∨ v = "created_at") then Ok SortCreatedAt else if decide (v = "name") then Ok SortName else Err ErrSort.
Definition parse_order (v : string) : result goerror string :=
  if decide (v = "" ∨ v = "desc") then Ok OrderDesc else if decide (v = "asc") then Ok OrderAsc else Err ErrOrder.

Definition parseListFilter (r : Request) : result goerror ListFilter :=
  limit ← optional (Query_Get r "limit") parse_limit;
  tenant ← optional (Query_Get r "tenantId") TenantIDFromString;
  lifecycle ← optional (Query_Get r "lifecycle") ParseLifecycle;
  tier ← optional (Query_Get r "tier") parse_tier;
  sort ← parse_sort (Query_Get r "sort");
  order ← parse_order (Query_Get r "order");
  Ok (mkListFilter tenant lifecycle tier sort order (default 50%Z limit) (Query_Get r "cursor")).

Lemma parse_limit_spec v x : parse_limit v = x → match x with Ok n => (1 ≤ n)%Z | Err e => HTTPStatus e = 422%Z end.
Proof.
  intros <-. unfold parse_limit. destruct (Atoi v) as [n|]; simpl; [|done].
  destruct (Z.ltb_spec n 1); [done|lia].
Qed.
Lemma parse_tier_spec v x : parse_tier v = x → match x with Ok t => tier_wf t | Err e => HTTPStatus e = 422%Z end.
Proof.
  intros <-. unfold parse_tier. destruct (Atoi v) as [n|]; simpl; [|done].
  destruct (NewTier n) as [t|e] eqn:Et; [by apply NewTier_Ok in Et as [_ ?]|].
  unfold NewTier in Et. destruct (_ || _); by simplify_eq.
Qed.
Lemma tenant_param v x : TenantIDFromString v = x →
  match x with Ok t => uuid_Parse v = Some (tid_v t) | Err e => HTTPStatus e = 422%Z end.
Proof. intros <-. unfold TenantIDFromString. by destruct (uuid_Parse v). Qed.
Lemma lifecycle_param v x : ParseLifecycle v = x →
  match x with Ok l => l = v ∧ lifecycle_wf l | Err e => HTTPStatus e = 422%Z end.
Proof.
  intros <-. destruct (ParseLifecycle v) as [l|e] eqn:E; [by apply ParseLifecycle_Ok in E as [-> ?]|].
  unfold ParseLifecycle in E. destruct (_ !! v); by simplify_eq.
Qed.
Lemma parse_sort_spec v x : parse_sort v = x →
  match x with Ok s => s ∈ [SortCreatedAt; SortName] | Err e => HTTPStatus e = 422%Z end.
Proof. intros <-. unfold parse_sort. repeat case_decide; [left|right; left|]; done. Qed.
Lemma parse_order_spec v x : parse_order v = x →
  match x with Ok s => s ∈ [OrderDesc; OrderAsc] | Err e => HTTPStatus e = 422%Z end.
Proof. intros <-. unfold parse_order. repeat case_decide; [left|right; left|]; done. Qed.

(** [parseListFilter] passes on only valid filters: a positive limit (50 by
    default), a known lifecycle, a tier from 1 to 4, one of the two sort columns
    and orders; everything else is refused with a validation error, status 422.
    So a listing never runs with a column or direction taken from the request. *)
Theorem list_filter_valid r :
  match parseListFilter r with
  | Ok f => (1 ≤ lf_Limit f)%Z ∧ (Query_Get r "limit" = "" → lf_Limit f = 50%Z) ∧
      (∀ l, lf_Lifecycle f = Some l → l = Query_Get r "lifecycle" ∧ lifecycle_wf l) ∧
      (∀ t, lf_Tier f = Some t → tier_wf t) ∧
      (∀ t, lf_TenantID f = Some t → uuid_Parse (Query_Get r "tenantId") = Some (tid_v t)) ∧
      lf_Sort f ∈ [SortCreatedAt; SortName] ∧ lf_Order f ∈ [OrderDesc; OrderAsc] ∧
      lf_Cursor f = Query_Get r "cursor"
  | Err e => HTTPStatus e = 422%Z
  end.
Proof.
  unfold parseListFilter, optional.
  set (lim := Query_Get r "limit"). set (ten := Query_Get r "tenantId"). set (lc := Query_Get r "lifecycle").
  set (ti := Query_Get r "tier").
  destruct (decide (lim = "")) as [El|El];
    [|destruct (parse_limit lim) as [n|e] eqn:En; apply parse_limit_spec in En; simpl; [|done]];
  (destruct (decide (ten = "")) as [Et|Et];
    [|destruct (TenantIDFromString ten) as [t|e] eqn:Etn; apply tenant_param in Etn; simpl; [|done]]);
  (destruct (decide (lc = "")) as [Ec|Ec];
    [|destruct (ParseLifecycle lc) as [l|e] eqn:Elc; apply lifecycle_param in Elc; simpl; [|done]]);
  (destruct (decide (ti = "")) as [Ei|Ei];
    [|destruct (parse_tier ti) as [tr|e] eqn:Etr; apply parse_tier_spec in Etr; simpl; [|done]]); simpl;
  (destruct (parse_sort _) as [so|e] eqn:Eso; apply parse_sort_spec in Eso; simpl; [|done]);
  (destruct (parse_order _) as [o|e] eqn:Eo; apply parse_order_spec in Eo; simpl; [|done]);
  split_and!; try done; try lia; naive_solver.
Qed.
End parameters.

Section handlers.
Context `{Env} {coll : Collation}.
Context (json_error : string → string) (sha256_hex : string → string) (time_json : Z → json).
(** [h.idem != nil] *)
Context (idem : bool).

(** ** Data transfer (dto.go) *)

Definition register_spec : list (string * fkind) :=
  [("tenantId", FString); ("name", FString); ("description", FString); ("tier", FInt);
   ("repository", FString); ("owningTeam", FString); ("onCallRef", FString)].
Definition ChangeOwnershipRequest : list (string * fkind) := [("owningTeam", FString); ("onCallRef", FString)].
Definition ChangeLifecycleRequest : list (string * fkind) := [("lifecycle", FString)].
Definition register_input (f : fields) : RegisterServiceInput :=
  mkRegisterServiceInput (str_field f "tenantId") (str_field f "name") (str_field f "description")
    (int_field f "tier") (str_field f "repository") (str_field f "owningTeam") (str_field f "onCallRef").

(** [omitempty] *)
Definition omit_empty (k v : string) : list (string * json) := if decide (v = "") then [] else [(k, JStr v)].
Record OwnershipDTO := mkOwnershipDTO { od_OwningTeam : string; od_OnCallRef : string }.
Record ServiceResponse := mkServiceResponse {
  rp_ID : string; rp_TenantID : string; rp_Name : string; rp_Description : string; rp_Tier : Z;
  rp_Lifecycle : string; rp_Repository : string; rp_Ownership : OwnershipDTO; rp_Version : Z;
  rp_CreatedAt : Z; rp_UpdatedAt : Z }.
Definition toResponse (s : Service) : ServiceResponse :=
  mkServiceResponse (ServiceID_String (svc_id s)) (TenantID_String (svc_tenantID s)) (sn_v (svc_name s))
    (svc_description s) (tier_v (svc_tier s)) (svc_lifecycle s) (svc_repository s)
    (mkOwnershipDTO (OwningTeam (svc_ownership s)) (OnCallRef (svc_ownership s)))
    (svc_version s) (svc_createdAt s) (svc_updatedAt s).

(** Marshalling, by the tags of the fields. *)
Definition OwnershipDTO_json (o : OwnershipDTO) : json :=
  JObj (("owningTeam", JStr (od_OwningTeam o)) :: omit_empty "onCallRef" (od_OnCallRef o)).
Definition ServiceResponse_json (p : ServiceResponse) : json :=
  JObj ([("id", JStr (rp_ID p)); ("tenantId", JStr (rp_TenantID p)); ("name", JStr (rp_Name p))] ++
        omit_empty "description" (rp_Description p) ++
        [("tier", JNum (rp_Tier p)); ("lifecycle", JStr (rp_Lifecycle p))] ++
        omit_empty "repository" (rp_Repository p) ++
        [("ownership", OwnershipDTO_json (rp_Ownership p)); ("version", JNum (rp_Version p));
         ("createdAt", time_json (rp_CreatedAt p)); ("updatedAt", time_json (rp_UpdatedAt p))]).
Definition service_json (s : Service) : json := ServiceResponse_json (toResponse s).

(** [httpx.Decode]: the first value of the limited body, unknown fields refused. *)
Definition Decode (spec : list (string * fkind)) (r : Request) : result goerror fields :=
  or_err (v ← json_first (limited (rq_body r)); decode_struct true spec v)
    (Validation "INVALID_BODY" ("request body is not valid JSON: " +:+ json_error (rq_body r))).

(** ** Handlers *)

Definition handler : Type := Request → Writer → World → Writer * World.

(** [if err != nil { httpx.Error(w, r, err); return }] *)
Definition or_error {A} (r : Request) (w : Writer) (m : M A) (k : A → World → Writer * World) (a : World)
    : Writer * World :=
  match m a with
  | (Err e, a') => (Error r e w, a')
  | (Ok x, a') => k x a'
  end.
Definition respond (status : Z) (s : Service) (w : Writer) : Writer :=
  JSON status (service_json s) (setETag (svc_version s) w).

Definition ErrBodyRead : goerror := Validation "INVALID_BODY" "request body could not be read".
Definition ErrBodyJSON : goerror := Validation "INVALID_BODY" "request body is not valid JSON".

Definition read_register (r : Request) : result goerror fields :=
  if too_long (rq_body r) then Err ErrBodyRead
  else or_err (v ← json_parse (rq_body r); decode_struct false register_spec v) ErrBodyJSON.

Definition idem_key (r : Request) : option string :=
  let k := Header_Get r "Idempotency-Key" in if decide (k ≠ "" ∧ idem = true) then Some k else None.

Definition replay (rec : Z * json) (w : Writer) : Writer :=
  Write (CRaw rec.2) (WriteHeader rec.1
    (Header_Set "Content-Type" json_content (Header_Set "Idempotency-Replayed" "true" w))).

(** Registering and saving the response; an error of [Save] is dropped. *)
Definition register_fresh (r : Request) (f : fields) : handler := λ _ w,
  or_error r w (RegisterService (register_input f)) (λ svc a,
    let a' := match idem_key r with
              | Some k => (Save k (sha256_hex (rq_body r)) 201 (service_json svc) a).2
              | None => a
              end in
    (respond 201 svc (Header_Set "Location" ("/api/v1/services/" +:+ ServiceID_String (svc_id svc)) w), a')).

Definition Register : handler := λ r w,
  or_error r w (lift (read_register r)) (λ f,
    match idem_key r with
    | None => register_fresh r f r w
    | Some k => or_error r w (Lookup k) (λ found,
        match found with
        | Some rec => λ a, (replay rec w, a)
        | None => register_fresh r f r w
        end)
    end).

(** [id] is the path parameter of the route. *)
Definition Get (id : string) : handler := λ r w,
  or_error r w (GetService id) (λ svc a, (respond 200 svc w, a)).

Definition mutating (r : Request) (w : Writer) (m : M Service) : World → Writer * World :=
  or_error r w m (λ svc a, (respond 200 svc w, a)).

Definition ChangeOwnership (id : string) : handler := λ r w,
  or_error r w (lift (Decode ChangeOwnershipRequest r)) (λ f,
    mutating r w (CatalogApp.ChangeOwnership
      (mkChangeOwnershipInput id (str_field f "owningTeam") (str_field f "onCallRef") (ifMatch r)))).
Definition ChangeLifecycle (id : string) : handler := λ r w,
  or_error r w (lift (Decode ChangeLifecycleRequest r)) (λ f,
    mutating r w (CatalogApp.ChangeLifecycle (mkChangeLifecycleInput id (str_field f "lifecycle") (ifMatch r)))).
Definition Retire (id : string) : handler := λ r w,
  mutating r w (RetireService (mkRetireServiceInput id (ifMatch r))).

Definition ListHandler : handler := λ r w,
  or_error r w (lift (parseListFilter r)) (λ f,
    or_error r w (ListServices f) (λ '(services, next) a,
      (JSON 200 (page_json (map service_json services) next) w, a))).

(** ** Conditional updates *)

(** The mutating routes. *)
Inductive Patch : Type := PatchOwnership | PatchLifecycle | DeleteService.
Definition run_patch (p : Patch) (id : string) : handler :=
  match p with
  | PatchOwnership => ChangeOwnership id
  | PatchLifecycle => ChangeLifecycle id
  | DeleteService => Retire id
  end.

Definition etag_of (w : Writer) : option string := sent_header w "ETag".

(** What the request asks for. *)
Definition requested (p : Patch) (r : Request) : option Op :=
  match p with
  | PatchOwnership =>
    f ← ok (Decode ChangeOwnershipRequest r);
    OpChangeOwnership <$> ok (NewOwnership (str_field f "owningTeam") (str_field f "onCallRef"))
  | PatchLifecycle =>
    f ← ok (Decode ChangeLifecycleRequest r);
    OpChangeLifecycle <$> ok (ParseLifecycle (str_field f "lifecycle"))
  | DeleteService => Some OpRetire
  end.

(** The request changed the row [old] of the service [u] into [new]: the columns it asks for,
    the others kept, no other service touched; with the next version and one event in the
    outbox, or with neither if the columns were so already. *)
Record carried_out (op : Op) (u : uuid) (old new : ServiceRow) (d d' : Database) : Prop := {
  co_columns : (sr_lifecycle new, sr_owning_team new, sr_on_call_ref new) = wanted_columns op old;
  co_kept : (sr_id new, sr_tenant_id new, sr_name new, sr_description new, sr_tier new, sr_repository_url new, sr_created_at new) =
            (sr_id old, sr_tenant_id old, sr_name old, sr_description old, sr_tier old, sr_repository_url old, sr_created_at old);
  co_table : catalog_services d' = <[u := new]> (catalog_services d);
  co_event :
    if decide (already_so op old) then sr_version new = sr_version old ∧ outbox_events d' = outbox_events d
    else sr_version new = wrap64 (sr_version old + 1) ∧
         ∃ row, outbox_events d' = outbox_events d ++ [row] ∧ ob_aggregate_id row = u ∧ ob_event_type row = event_type_of op
}.

(** One transaction carried the request out, from the version named by [If-Match] if that is an
    ETag of the API; [s'] is the service now stored. *)
Definition patched (p : Patch) (id : string) (r : Request) (s' : Service) (d d' : Database) : Prop :=
  ∃ u op old, uuid_Parse id = Some u ∧ requested p r = Some op ∧ catalog_services d !! u = Some old ∧
    (∀ v, in_int64 v → (0 < v)%Z → if_match_etag r v → sr_version old = v) ∧
    carried_out op u old (update_columns old (service_row timestamptz s')) d d'.

(** How a mutating request ends. *)
Definition patch_outcome (p : Patch) (id : string) (r : Request) (out : Writer) (d d' : Database) : Prop :=
  (∃ s', status_of out = 200%Z ∧ etag_of out = Some (FormatInt (svc_version s')) ∧
     rw_body out = [CJson (service_json s')] ∧ patched p id r s' d d') ∨
  (∃ e, out = Error r e fresh_writer ∧
     (d' = d ∨ ((∃ e0, e = EWrap "commit tx" e0) ∧ ∃ s', patched p id r s' d d'))).

Lemma respond_sent status s w :
  rw_sent w = None →
  status_of (respond status s w) = status ∧ etag_of (respond status s w) = Some (FormatInt (svc_version s)) ∧
  rw_body (respond status s w) = rw_body w ++ [CJson (service_json s)].
Proof.
  unfold respond, JSON, Write, WriteHeader, send, etag_of, sent_header, status_of. simpl. intros ->. simpl. split_and!; try done.
  by rewrite lookup_insert_ne, lookup_insert_eq.
Qed.

Lemma mutated_patched p id r sid op s' d d' :
  catalog_inv d → ServiceIDFromString id = Ok sid → requested p r = Some op → mutated sid (ifMatch r) op s' d d' →
  patched p id r s' d d'.
Proof.
  intros Hinv Hsid Hreq (old & now & s1 & hid & rows & Hold & Hv & Hrun & -> & Happ & ->).
  destruct (inv_rows _ Hinv _ _ Hold) as [Hid _].
  assert (sid_v (svc_id s1) = sid_v sid) as Hs1 by (rewrite (run_op_id _ _ _ _ Hrun); done).
  destruct (run_op_columns _ _ _ _ Hrun) as (Hcols & [= Hd Ht Hr] & Hev).
  exists (sid_v sid), op, old. split_and!; [|done|done|..].
  - unfold ServiceIDFromString in Hsid. destruct (uuid_Parse id); [|done]. by injection Hsid as <-.
  - intros v Hin Hpos He. rewrite (ifMatch_etag r v Hin He) in Hv. by apply Hv.
  - split; simpl; [done|by rewrite Hd, Ht, Hr|by rewrite Hs1|].
    case_decide; destruct Hev as [Hver Hev].
    + split; [done|]. rewrite Hev in Happ. apply Forall2_nil_inv_r in Happ as ->. apply app_nil_r.
    + split; [done|]. destruct Hev as (e & Hev & Hty & Hagg). rewrite Hev in Happ.
      apply Forall2_cons_inv_r in Happ as (row & l & (Ha & Hety & _) & ->%Forall2_nil_inv_r & ->). exists row.
      split_and!; [done| |congruence]. rewrite Hagg, uuid_Parse_String, Hid in Ha. by injection Ha.
Qed.

Lemma mutating_outcome m (P : Service → Database → Database → Prop) p id r a :
  wp m a (λ res a', all_or_nothing P (w_db a) res (w_db a')) →
  (∀ s' d', P s' (w_db a) d' → patched p id r s' (w_db a) d') →
  let out := mutating r fresh_writer m a in patch_outcome p id r out.1 (w_db a) (w_db out.2).
Proof.
  intros Hm HP. unfold mutating, or_error. unfold wp in Hm. destruct (m a) as [[s'|e] a']; simpl in *.
  - left. exists s'. destruct (respond_sent 200 s' fresh_writer) as (? & ? & ?); [done|]. split_and!; [done..|by apply HP].
  - right. exists e. split; [done|]. destruct Hm as [?|(? & s' & Hs')]; [by left|]. right. eauto.
Qed.

Lemma command_patched c op p id r s' d d' :
  catalog_inv d → match c with CmdRegister _ => False | _ => True end → requested p r = ok op →
  command_op c = Some (sid ← ServiceIDFromString id; o ← op; Ok (sid, ifMatch r, o)) →
  command_effect c s' d d' → patched p id r s' d d'.
Proof.
  intros Hinv Hc Hreq Hop. unfold command_effect.
  destruct c; [done|..]; rewrite Hop; (destruct (ServiceIDFromString id) as [sid|] eqn:Es; simpl; [|done]);
    (destruct op as [o|]; simpl; [|done]); by apply mutated_patched with (sid := sid) (op := o).
Qed.

(** C10: conditional updates over HTTP, under any failures.  A PATCH or DELETE of a service
    answers 200 only when one transaction carried the request out on the stored service, from the
    version named by [If-Match] when that carries an ETag (bare or quoted) of the API: the
    requested columns have the requested values, all others and all other services are as before,
    and either the version is the next one and one event of the request's type was added to the
    outbox, or the lifecycle was so already and version and outbox are as before; ETag and body of
    the answer are those of the stored service.  Otherwise it answers an error and the database is as
    before, unless the commit itself was left in doubt: then nothing or the whole was done. *)
Theorem conditional_update p id r a :
  catalog_inv (w_db a) →
  let out := run_patch p id r fresh_writer a in
  patch_outcome p id r out.1 (w_db a) (w_db out.2).
Proof.
  intros Hinv. destruct p; simpl; unfold ChangeOwnership, ChangeLifecycle, Retire.
  - unfold or_error at 1, lift. destruct (Decode _ r) as [f|e] eqn:Ed; simpl; [|right; eauto].
    eapply mutating_outcome; [by apply (wp_run_command (CmdOwnership _))|].
    intros s' d'. apply (command_patched _ (o ← NewOwnership (str_field f "owningTeam") (str_field f "onCallRef"); Ok (OpChangeOwnership o)));
      [done|done| |].
    + simpl. rewrite Ed. simpl. by destruct (NewOwnership _ _).
    + simpl. f_equal. destruct (ServiceIDFromString id); simpl; [|done]. by destruct (NewOwnership _ _).
  - unfold or_error at 1, lift. destruct (Decode _ r) as [f|e] eqn:Ed; simpl; [|right; eauto].
    eapply mutating_outcome; [by apply (wp_run_command (CmdLifecycle _))|].
    intros s' d'. apply (command_patched _ (l ← ParseLifecycle (str_field f "lifecycle"); Ok (OpChangeLifecycle l)));
      [done|done| |].
    + simpl. rewrite Ed. simpl. by destruct (ParseLifecycle _).
    + simpl. f_equal. destruct (ServiceIDFromString id); simpl; [|done]. by destruct (ParseLifecycle _).
  - eapply mutating_outcome; [by apply (wp_run_command (CmdRetire _))|].
    intros s' d'. by apply (command_patched _ (Ok OpRetire)).
Qed.

(** ** Idempotent registration *)

Lemma error_not_created r e : status_of (Error r e fresh_writer) ≠ 201%Z.
Proof. rewrite status_of_Error by done. pose proof (HTTPStatus_range e). lia. Qed.

Lemma register_keeps_keys inp s' d d' : register_effect inp s' d d' → idempotency_keys d' = idempotency_keys d.
Proof. by intros (s & _ & _ & hid & rows & _ & _ & _ & ->). Qed.

(** [Lookup] reads the row of the key. *)
Lemma Lookup_run k a :
  (Lookup k a = (Ok ((λ row, (ik_response_status row, ik_response_body row)) <$> idempotency_keys (w_db a) !! k), tick a)) ∨
  (∃ e, fault (w_tick a) = Some e ∧ w_db (Lookup k a).2 = w_db a ∧
     (Lookup k a).1 = if Is e ENoRows then Ok None else Err (EWrap "lookup idempotency key" e)).
Proof.
  unfold Lookup, catch, query, stmt. destruct (fault (w_tick a)) as [e|] eqn:Ef.
  - right. exists e. split; [done|]. by destruct (Is e ENoRows).
  - left. destruct (idempotency_keys (w_db a) !! k) as [row|]; by destruct a.
Qed.

(** What a [Save] that left a row behind stored. *)
Lemma Save_stored k hash status body a row :
  idempotency_keys (w_db a) !! k = None → idempotency_keys (w_db (Save k hash status body a).2) !! k = Some row →
  ik_response_status row = status ∧ ik_response_body row = body.
Proof.
  intros Hnone. unfold Save, mbind, M_bind, id_New, wrap_err, stmt. simpl.
  destruct (fault _); simpl; [by rewrite Hnone|]. unfold insert_idem. rewrite decide_False by (rewrite Hnone; by intros []).
  destruct (decide (map_Exists _ _)); simpl; [by rewrite Hnone|]. rewrite lookup_insert_eq. by intros [= <-].
Qed.

(** A created service: the response, and what was saved under the key. *)
Lemma register_fresh_created r f a out a' k row :
  idem_key r = Some k → idempotency_keys (w_db a) !! k = None →
  register_fresh r f r fresh_writer a = (out, a') → status_of out = 201%Z →
  idempotency_keys (w_db a') !! k = Some row →
  rw_body out = [CJson (ik_response_body row)] ∧ ik_response_status row = 201%Z.
Proof.
  intros Hk Hnone. unfold register_fresh, or_error. rewrite Hk.
  pose proof (wp_self (RegisterService (register_input f)) a) as Hw.
  pose proof (wp_RegisterService (register_input f) a) as Hr. unfold wp in Hw, Hr.
  destruct (RegisterService (register_input f) a) as [[svc|e] a1]; intros [= <- <-] Hst Hrow;
    [|by apply error_not_created in Hst]. simpl in Hr. apply register_keeps_keys in Hr.
  apply Save_stored in Hrow as [-> ->]; [done|by rewrite Hr].
Qed.

(** C27: idempotent registration: once a registration under an Idempotency-Key answered 201
    and its response was saved, every later request with that key and a decodable
    body is answered with the same status and the same response value, marked as
    replayed, and leaves the database unchanged: the service is not registered
    twice. *)
Theorem register_replayed r r2 k a out1 a1 a2 row f2 :
  idem_key r = Some k → idempotency_keys (w_db a) !! k = None →
  Register r fresh_writer a = (out1, a1) → status_of out1 = 201%Z →
  idempotency_keys (w_db a1) !! k = Some row → idempotency_keys (w_db a2) !! k = Some row →
  idem_key r2 = Some k → read_register r2 = Ok f2 → fault (w_tick a2) = None →
  let out2 := Register r2 fresh_writer a2 in
  status_of out2.1 = 201%Z ∧ sent_header out2.1 "Idempotency-Replayed" = Some "true" ∧ w_db out2.2 = w_db a2 ∧
  ∃ j, rw_body out1 = [CJson j] ∧ rw_body out2.1 = [CRaw j].
Proof.
  intros Hk Hnone Hreg Hst Hrow Hrow2 Hk2 Hread2 Hf.
  assert (rw_body out1 = [CJson (ik_response_body row)] ∧ ik_response_status row = 201%Z) as [Hbody Hstatus].
  { revert Hreg. unfold Register at 1, or_error at 1, lift. destruct (read_register r) as [f|e];
      [|intros [= <- <-]; by apply error_not_created in Hst].
    rewrite Hk. unfold or_error at 1. destruct (Lookup_run k a) as [->|(e & He & Hd & Hl)].
    - rewrite Hnone. intros Hfr. exact (register_fresh_created r f (tick a) out1 a1 k row Hk Hnone Hfr Hst Hrow).
    - destruct (Lookup k a) as [x a3]. simpl in Hd, Hl. subst x. destruct (Is e ENoRows).
      + intros Hfr. apply (register_fresh_created r f a3 out1 a1 k row); try done. by rewrite Hd.
      + intros [= <- <-]. by apply error_not_created in Hst. }
  assert (Register r2 fresh_writer a2 =
    (replay (ik_response_status row, ik_response_body row) fresh_writer, tick a2)) as Hrun.
  { unfold Register, or_error at 1, lift. rewrite Hread2, Hk2. unfold or_error.
    destruct (Lookup_run k a2) as [->|(e & He & _)]; [|congruence]. by rewrite Hrow2. }
  intros out2. unfold out2. rewrite Hrun, Hstatus. split_and!; [done..|]. by exists (ik_response_body row).
Qed.
End handlers.

(** ** Witnesses *)

#[local] Existing Instance demo_uuid.
#[local] Existing Instance calm_env.
Definition demo_time (t : Z) : json := JStr (FormatRFC3339Nano t).
Definition q (s : string) : string := of_bytes ([dquote] ++ bytes s ++ [dquote]).
#[local] Definition demo_body : string :=
  "{" +:+ q "tenantId" +:+ ":" +:+ q "utenant" +:+ "," +:+ q "name" +:+ ":" +:+ q "payments-api" +:+ "," +:+
  q "tier" +:+ ":1," +:+ q "owningTeam" +:+ ":" +:+ q "payments" +:+ "," +:+ q "onCallRef" +:+ ":" +:+ q "pd://p" +:+ "}".
Definition demo_request (headers : gmap string string) (body : string) : Request :=
  mkRequest "POST" "/api/v1/services" ∅ headers body "10.0.0.1:999" None None None None None.
#[local] Definition demo_post : Request := demo_request {[ "Idempotency-Key" := "k-1" ]} demo_body.
(** The same key with another body. *)
#[local] Definition demo_retry : Request := demo_request {[ "Idempotency-Key" := "k-1" ]} "{}".
#[local] Definition demo_patch : Request :=
  demo_request {[ "If-Match" := q "1" ]} ("{" +:+ q "lifecycle" +:+ ":" +:+ q "production" +:+ "}").
#[local] Definition created : Writer * World :=
  Register (λ s, s) demo_time true demo_post fresh_writer (mkWorld empty_db 0 0).
#[local] Definition w1 : World :=
  run_commands [CmdRegister (mkRegisterServiceInput "utenant" "payments-api" "" 1 "" "payments" "pd://p")] (mkWorld empty_db 0 0).

Lemma conditional_update_witness :
  let out := run_patch (λ s, s) demo_time PatchLifecycle "u0" demo_patch fresh_writer w1 in
  status_of out.1 = 200%Z ∧ etag_of out.1 = Some "2" ∧
  patch_outcome (λ s, s) demo_time PatchLifecycle "u0" demo_patch out.1 (w_db w1) (w_db out.2).
Proof.
  intros out. split; [vm_compute; reflexivity|]. split; [vm_compute; reflexivity|].
  apply (conditional_update (λ s, s) demo_time PatchLifecycle "u0" demo_patch w1).
  apply run_commands_inv, catalog_inv_empty.
Defined.

Lemma register_replayed_witness :
  let out2 := Register (λ s, s) demo_time true demo_retry fresh_writer created.2 in
  status_of created.1 = 201%Z ∧ status_of out2.1 = 201%Z ∧ w_db out2.2 = w_db created.2.
Proof.
  intros out2. assert (status_of created.1 = 201%Z) as Hst by (vm_compute; reflexivity). split; [exact Hst|].
  destruct (idempotency_keys (w_db created.2) !! "k-1") as [row|] eqn:Hrow;
    [|exfalso; revert Hrow; vm_compute; discriminate].
  destruct (read_register demo_retry) as [f2|] eqn:Hread; [|exfalso; revert Hread; vm_compute; discriminate].
  destruct (register_replayed (λ s, s) demo_time true demo_post demo_retry "k-1" (mkWorld empty_db 0 0) created.1 created.2
    created.2 row f2 eq_refl eq_refl (surjective_pairing _) Hst Hrow Hrow eq_refl Hread eq_refl) as (H1 & _ & H2 & _).
  split; [exact H1|exact H2].
Defined.
