(* ===== verification/Idempotency.v ===== *)
(** * Registrations under one Idempotency-Key at the same time

    [Register] of the catalog looks its key up, registers the service in a transaction and
    saves the response; each is a call of its own, so requests that share a key
    interleave between them.  Here the handler is cut at these calls, and
    any number of requests run side by side with the rest of the API. *)
From S2P Require Import Prelude GoStrings Encoding Apperr Uuid CatalogDomain Postgres CatalogRepo CatalogApp CatalogList Httpx CatalogApi.

Section stages.
Context `{Env} (sha256_hex : string → string) (time_json : Z → json) (idem : bool).
#[local] Abbreviation idem_key := (idem_key idem).
#[local] Abbreviation service_json := (service_json time_json).

(** ** The stages of the handler *)

Inductive Reply : Type :=
| Replayed (rec : Z * json)
| Registered (svc : Service)
| Refused (e : goerror).

(** Posted; the key was unknown; the service is committed; answered. *)
Inductive Registration : Type :=
| Posted (r : Request)
| Missed (r : Request) (f : fields)
| Committing (r : Request) (svc : Service)
| Replied (r : Request) (o : Reply).

(** What the client is sent. *)
Definition written (r : Request) (o : Reply) (w : Writer) : Writer :=
  match o with
  | Replayed rec => replay rec w
  | Registered svc =>
    respond time_json 201 svc (Header_Set "Location" ("/api/v1/services/" +:+ ServiceID_String (svc_id svc)) w)
  | Refused e => Error r e w
  end.

Definition look_up (r : Request) : M Registration :=
  match read_register r with
  | Err e => mret (Replied r (Refused e))
  | Ok f =>
    match idem_key r with
    | None => mret (Missed r f)
    | Some k => catch (Lookup k) (λ x, mret
        match x with
        | Ok (Some rec) => Replied r (Replayed rec)
        | Ok None => Missed r f
        | Err e => Replied r (Refused e)
        end)
    end
  end.
Definition create (r : Request) (f : fields) : M Registration :=
  catch (RegisterService (register_input f)) (λ x, mret
    match x with Ok svc => Committing r svc | Err e => Replied r (Refused e) end).
Definition save (r : Request) (svc : Service) : M Registration :=
  match idem_key r with
  | None => mret (Replied r (Registered svc))
  | Some k => catch (Save k (sha256_hex (rq_body r)) 201 (service_json svc)) (λ _, mret (Replied r (Registered svc)))
  end.
Definition progress (c : Registration) : M Registration :=
  match c with
  | Posted r => look_up r
  | Missed r f => create r f
  | Committing r svc => save r svc
  | Replied _ _ => mret c
  end.

(** Uninterrupted, the stages are the handler. *)
Lemma Register_stages r w a :
  ∃ o a', (c1 ← progress (Posted r); c2 ← progress c1; progress c2) a = (Ok (Replied r o), a') ∧
    Register sha256_hex time_json idem r w a = (written r o w, a').
Proof.
  unfold Register, or_error at 1, lift, mbind, M_bind. simpl. unfold look_up.
  destruct (read_register r) as [f|e]; [|by eexists _, _].
  assert (∀ b, ∃ o a', (progress (Missed r f) ≫= progress) b = (Ok (Replied r o), a') ∧
    register_fresh sha256_hex time_json idem r f r w b = (written r o w, a')) as Hf.
  { intros b. unfold register_fresh, or_error, mbind, M_bind. simpl. unfold create, catch.
    destruct (RegisterService (register_input f) b) as [[svc|e] b1]; simpl; [|by eexists _, _].
    unfold save. destruct (idem_key r) as [k|]; [|by eexists _, _]. unfold catch.
    by destruct (Save k _ 201 _ b1) as [x b2]; eexists _, _. }
  unfold mbind, M_bind in Hf. destruct (idem_key r) as [k|]; [|apply Hf].
  unfold or_error, catch. destruct (Lookup k a) as [[[rec|]|e] a1]; [by eexists _, _|apply Hf|by eexists _, _].
Qed.

(** ** Requests side by side *)

Record Requests := mkRequests { rs_db : Database; rs_clients : gmap nat Registration }.

(** A request arrives, one moves on, or another part of the system acts, which leaves the
    keys alone. *)
Inductive step : Requests → Requests → Prop :=
| step_post d cs i r : cs !! i = None → step (mkRequests d cs) (mkRequests d (<[i := Posted r]> cs))
| step_progress d cs i c n t c' w' :
    cs !! i = Some c → progress c (mkWorld d n t) = (Ok c', w') →
    step (mkRequests d cs) (mkRequests (w_db w') (<[i := c']> cs))
| step_other d cs d' : idempotency_keys d' = idempotency_keys d → step (mkRequests d cs) (mkRequests d' cs).

(** A schedule: [Some r] starts client [i] with [r], [None] lets it move on at the point [n] of
    the environment. *)
Definition exec_step (s : Requests) (x : nat * option Request * nat) : Requests :=
  let '(i, o, n) := x in
  match o, rs_clients s !! i with
  | Some r, None => mkRequests (rs_db s) (<[i := Posted r]> (rs_clients s))
  | None, Some c =>
    match progress c (mkWorld (rs_db s) n 0) with
    | (Ok c', w') => mkRequests (w_db w') (<[i := c']> (rs_clients s))
    | _ => s
    end
  | _, _ => s
  end.
Definition exec (l : list (nat * option Request * nat)) : Requests := foldl exec_step (mkRequests empty_db ∅) l.

Definition reachable (s : Requests) : Prop := rtc step (mkRequests empty_db ∅) s.

(** ** What the stages do to the keys *)

Lemma Save_keys k hash status body a :
  let d' := w_db (Save k hash status body a).2 in
  idempotency_keys d' = idempotency_keys (w_db a) ∨
  idempotency_keys (w_db a) !! k = None ∧ ∃ row, ik_response_status row = status ∧ ik_response_body row = body ∧
    idempotency_keys d' = <[k := row]> (idempotency_keys (w_db a)).
Proof.
  unfold Save, mbind, M_bind, id_New, wrap_err, stmt, insert_idem. simpl. destruct (fault _); [by left|]. simpl.
  destruct (decide (is_Some (idempotency_keys (w_db a) !! k))) as [|Hn]; simpl; [by left|].
  destruct (decide (map_Exists _ _)); simpl; [by left|]. right. split; [by apply eq_None_not_Some|].
  eexists. split_and!; [| |reflexivity]; done.
Qed.

Lemma create_keys r f a : idempotency_keys (w_db (create r f a).2) = idempotency_keys (w_db a).
Proof.
  unfold create, catch. pose proof (wp_RegisterService (register_input f) a) as Hr. unfold wp in Hr.
  destruct (RegisterService (register_input f) a) as [[svc|e] a1]; simpl in *; [by eapply register_keeps_keys|].
  destruct Hr as [->|(_ & s & Hs)]; [done|by eapply register_keeps_keys].
Qed.

Lemma look_up_keys r a :
  w_db (look_up r a).2 = w_db a ∧
  ∀ rec, (look_up r a).1 = Ok (Replied r (Replayed rec)) →
    ∃ k row, idem_key r = Some k ∧ idempotency_keys (w_db a) !! k = Some row ∧
      rec = (ik_response_status row, ik_response_body row).
Proof.
  unfold look_up. destruct (read_register r) as [f|e]; [|done]. destruct (idem_key r) as [k|]; [|done].
  unfold catch. destruct (Lookup_run k a) as [->|(e & He & Hd & Hl)].
  - split; [done|]. simpl. intros rec. destruct (idempotency_keys (w_db a) !! k) as [row|] eqn:E; simpl; [|done].
    intros [= <-]. by exists k, row.
  - destruct (Lookup k a) as [x a1]. simpl in *. subst x. split; [by destruct (Is e ENoRows)|].
    intros rec. by destruct (Is e ENoRows).
Qed.

Lemma look_up_request r a r' o : (look_up r a).1 = Ok (Replied r' o) → r' = r.
Proof.
  unfold look_up. destruct (read_register r); [|by intros [= <- _]]. destruct (idem_key r) as [k|]; [|done].
  unfold catch. destruct (Lookup k a) as [[[rec|]|e] a1]; simpl; [by intros [= <- _]|done|by intros [= <- _]].
Qed.

(** ** The invariant *)

(** Saved responses were given to the request that saved them, and replayed responses are
    the saved ones. *)
Record keys_inv (s : Requests) : Prop := {
  ki_origin k row : idempotency_keys (rs_db s) !! k = Some row →
    ∃ i r svc, rs_clients s !! i = Some (Replied r (Registered svc)) ∧ idem_key r = Some k ∧
      ik_response_status row = 201%Z ∧ ik_response_body row = service_json svc;
  ki_replay i r rec : rs_clients s !! i = Some (Replied r (Replayed rec)) →
    ∃ k row, idem_key r = Some k ∧ idempotency_keys (rs_db s) !! k = Some row ∧
      rec = (ik_response_status row, ik_response_body row)
}.

(** Answered requests stay as they are; no step takes a saved response away. *)
Lemma step_kept s s' : step s s' →
  (∀ i r o, rs_clients s !! i = Some (Replied r o) → rs_clients s' !! i = Some (Replied r o)) ∧
  (∀ k row, idempotency_keys (rs_db s) !! k = Some row → idempotency_keys (rs_db s') !! k = Some row).
Proof.
  intros Hs. destruct Hs as [d cs i r Hi|d cs i c n t c' w' Hi Hp|d cs d' Hd]; simpl.
  - split; [|done]. intros j r0 o Hj. rewrite lookup_insert_ne by (intros ->; congruence). done.
  - split.
    + intros j r0 o Hj. destruct (decide (i = j)) as [->|]; [|by rewrite lookup_insert_ne].
      rewrite lookup_insert_eq. rewrite Hi in Hj. injection Hj as ->. simpl in Hp. by injection Hp as <- _.
    + intros k row Hk. destruct c as [r|r f|r svc|r o]; simpl in Hp.
      * destruct (look_up_keys r (mkWorld d n t)) as [Hd _]. rewrite Hp in Hd. simpl in Hd. by rewrite Hd.
      * pose proof (create_keys r f (mkWorld d n t)) as Hd. rewrite Hp in Hd. simpl in Hd. by rewrite Hd.
      * unfold save, catch in Hp. destruct (idem_key r) as [k0|]; [|by injection Hp as _ <-].
        destruct (Save_keys k0 (sha256_hex (rq_body r)) 201 (service_json svc) (mkWorld d n t)) as [Hd|(Hnone & row0 & _ & _ & Hd)];
          destruct (Save k0 _ 201 _ _) as [x w2]; injection Hp as _ <-; simpl in *; rewrite Hd; [done|].
        rewrite lookup_insert_ne; [done|]. intros ->. congruence.
      * by injection Hp as _ <-.
  - by rewrite Hd.
Qed.

(** A request that moves on to a replay found the response; one that saves answers with it. *)
Lemma progress_inv d cs i c n t c' w' :
  keys_inv (mkRequests d cs) → cs !! i = Some c → progress c (mkWorld d n t) = (Ok c', w') →
  (∀ r rec, c' = Replied r (Replayed rec) → ∃ k row, idem_key r = Some k ∧ idempotency_keys d !! k = Some row ∧
     rec = (ik_response_status row, ik_response_body row)) ∧
  (∀ k row, idempotency_keys (w_db w') !! k = Some row → idempotency_keys d !! k = Some row ∨
     ∃ r svc, c' = Replied r (Registered svc) ∧ idem_key r = Some k ∧
       ik_response_status row = 201%Z ∧ ik_response_body row = service_json svc).
Proof.
  intros Hinv Hi Hp. destruct c as [r|r f|r svc|r o]; simpl in Hp.
  - destruct (look_up_keys r (mkWorld d n t)) as [Hd Hr]. rewrite Hp in Hd, Hr. simpl in Hd, Hr. rewrite Hd.
    split; [|auto]. intros r' rec ->. assert (r' = r) as -> by (eapply look_up_request; by rewrite Hp).
    by apply Hr.
  - pose proof (create_keys r f (mkWorld d n t)) as Hd. rewrite Hp in Hd. simpl in Hd. rewrite Hd.
    split; [|auto]. intros r' rec ->. unfold create, catch in Hp. by destruct (RegisterService _ _) as [[]].
  - unfold save, catch in Hp. destruct (idem_key r) as [k0|] eqn:Ek; [|injection Hp as <- <-; split; [done|auto]].
    destruct (Save_keys k0 (sha256_hex (rq_body r)) 201 (service_json svc) (mkWorld d n t)) as [Hd|(Hnone & row0 & Hst & Hb & Hd)];
      destruct (Save k0 _ 201 _ _) as [x w2]; injection Hp as <- <-; simpl in *; (split; [done|]); rewrite Hd; [auto|].
    intros k row [[<- <-]|[_ Hk]]%lookup_insert_Some; [|auto]. right. by exists r, svc.
  - injection Hp as <- <-. split; [|auto]. intros r' rec [= -> ->]. by apply (ki_replay _ Hinv i r' rec).
Qed.

Lemma keys_step s s' : step s s' → keys_inv s → keys_inv s'.
Proof.
  intros Hs Hinv. destruct (step_kept s s' Hs) as [Hc Hk].
  assert (∀ k row, idempotency_keys (rs_db s) !! k = Some row → ∃ i r svc,
    rs_clients s' !! i = Some (Replied r (Registered svc)) ∧ idem_key r = Some k ∧
    ik_response_status row = 201%Z ∧ ik_response_body row = service_json svc) as Hold.
  { intros k row Hrow. destruct (ki_origin _ Hinv k row Hrow) as (i & r & svc & Hi & Hr). exists i, r, svc. auto. }
  destruct Hs as [d cs i r Hi|d cs i c n t c' w' Hi Hp|d cs d' Hd]; simpl in *.
  - split; simpl; [done|]. intros j r0 rec [[_ ?]|[_ Hj]]%lookup_insert_Some; [done|by apply (ki_replay _ Hinv j)].
  - destruct (progress_inv _ _ _ _ _ _ _ _ Hinv Hi Hp) as [Hr Hnew]. split; simpl.
    + intros k row [Hrow|(r & svc & -> & Hrest)]%Hnew; [auto|]. exists i, r, svc. by rewrite lookup_insert_eq.
    + intros j r0 rec [[_ Hj]|[_ Hj]]%lookup_insert_Some.
      * destruct (Hr _ _ Hj) as (k & row & ? & ? & ?). exists k, row. auto.
      * destruct (ki_replay _ Hinv j _ _ Hj) as (k & row & ? & ? & ?). exists k, row. auto.
  - split; simpl; rewrite Hd; [done|]. intros j r0 rec Hj. by apply (ki_replay _ Hinv j).
Qed.

Lemma reachable_keys s : reachable s → keys_inv s.
Proof.
  unfold reachable. assert (keys_inv (mkRequests empty_db ∅)) as H0' by (split; done). revert H0'.
  generalize (mkRequests empty_db ∅). intros s0 Hinv Hr. induction Hr as [|s0 s1 s2 Hs Hr IH]; [done|].
  apply IH. by eapply keys_step.
Qed.

(** C28: replays under one Idempotency-Key never contradict each other: however requests
    interleave and whatever fails, in every state each replayed response is the
    201 response of one registration that succeeded under the same key, it is
    the same for all replays of the key, and it stays the answer to every later request. *)
Theorem replays_agree s i r rec :
  reachable s → rs_clients s !! i = Some (Replied r (Replayed rec)) →
  ∃ k j rj svc, idem_key r = Some k ∧ idem_key rj = Some k ∧
    rs_clients s !! j = Some (Replied rj (Registered svc)) ∧ rec = (201%Z, service_json svc) ∧
    (∀ i' r' rec', rs_clients s !! i' = Some (Replied r' (Replayed rec')) → idem_key r' = Some k → rec' = rec) ∧
    ∀ s', rtc step s s' → ∃ row, idempotency_keys (rs_db s') !! k = Some row ∧
      rec = (ik_response_status row, ik_response_body row).
Proof.
  intros Hs%reachable_keys Hi. destruct (ki_replay _ Hs _ _ _ Hi) as (k & row & Hk & Hrow & Hrec).
  destruct (ki_origin _ Hs _ _ Hrow) as (j & rj & svc & Hj & Hkj & Hst & Hb).
  exists k, j, rj, svc. split_and!; try done; [by rewrite Hrec, Hst, Hb|..].
  - intros i' r' rec' Hi' Hk'. destruct (ki_replay _ Hs _ _ _ Hi') as (k' & row' & Ek' & Hrow' & ->).
    rewrite Hk' in Ek'. injection Ek' as <-. rewrite Hrow in Hrow'. by injection Hrow' as <-.
  - intros s' Hss'. exists row. split; [|done]. clear -Hss' Hrow. induction Hss' as [|s1 s2 s3 H1 H2 IH]; [done|].
    apply IH. by apply (step_kept s1 s2 H1).
Qed.

Lemma exec_requests_sound s x : rtc step s (exec_step s x).
Proof.
  destruct s as [d cs], x as [[i [r|]] n]; simpl.
  - destruct (cs !! i) eqn:Ei; [done|]. by apply rtc_once, step_post.
  - destruct (cs !! i) as [c|] eqn:Ei; [|done]. destruct (progress c (mkWorld d n 0)) as [[c'|] w'] eqn:Ep; [|done].
    apply rtc_once. by eapply step_progress.
Qed.

Lemma exec_reachable_requests l : reachable (exec l).
Proof.
  unfold exec, reachable. generalize (mkRequests empty_db ∅). induction l as [|x l IH]; intros s; simpl; [done|].
  etrans; [apply exec_requests_sound|apply IH].
Qed.
End stages.

(** ** Schedules *)

#[local] Existing Instance demo_uuid.
#[local] Existing Instance calm_env.

(** A registration of [name] under the key k-1. *)
#[local] Definition post (name : string) : Request :=
  demo_request {[ "Idempotency-Key" := "k-1" ]}
    ("{" +:+ q "tenantId" +:+ ":" +:+ q "utenant" +:+ "," +:+ q "name" +:+ ":" +:+ q name +:+ "," +:+
     q "tier" +:+ ":1," +:+ q "owningTeam" +:+ ":" +:+ q "payments" +:+ "}").
(** The requests [r0] and [r1] look the key up before either registers; client 2 retries [r1]. *)
#[local] Definition in_flight (r0 r1 : Request) : Requests :=
  exec (λ s, s) demo_time true
       [(0, Some r0, 0); (1, Some r1, 0); (0, None, 0); (1, None, 10); (0, None, 20); (1, None, 40);
        (0, None, 60); (1, None, 70); (2, Some r1, 0); (2, None, 80)].
(** What a client was told: the status, and the name in the response. *)
#[local] Definition name_of (j : json) : option json :=
  match j with JObj fs => snd <$> find (λ f, String.eqb f.1 "name") fs | _ => None end.
#[local] Definition told (s : Requests) (i : nat) : option (Z * option json) :=
  match rs_clients s !! i with
  | Some (Replied _ (Registered svc)) => Some (201%Z, name_of (service_json demo_time svc))
  | Some (Replied _ (Replayed rec)) => Some (rec.1, name_of rec.2)
  | Some (Replied _ (Refused e)) => Some (HTTPStatus e, None)
  | _ => None
  end.

(** The key guards finished requests only.  Two requests in flight under one key both look it
    up in vain: with different bodies both services are created, and the retry of the second is
    told the response of the first; with the same body the second is
    refused with 409 instead of being told the outcome of the first. *)
Theorem in_flight_duplicates :
  (let s := in_flight (post "payments") (post "billing") in
   map (told s) [0; 1; 2] = [Some (201%Z, Some (JStr "payments")); Some (201%Z, Some (JStr "billing"));
                             Some (201%Z, Some (JStr "payments"))] ∧
   size (catalog_services (rs_db s)) = 2) ∧
  (let s := in_flight (post "payments") (post "payments") in
   map (told s) [0; 1; 2] = [Some (201%Z, Some (JStr "payments")); Some (409%Z, None);
                             Some (201%Z, Some (JStr "payments"))]).
Proof. vm_compute. split; [split; reflexivity|reflexivity]. Qed.

Lemma replays_agree_witness :
  let s := in_flight (post "payments") (post "billing") in
  told s 2 = Some (201%Z, Some (JStr "payments")) ∧
  ∃ r rec k j rj svc, rs_clients s !! 2 = Some (Replied r (Replayed rec)) ∧ idem_key true r = Some k ∧
    rs_clients s !! j = Some (Replied rj (Registered svc)) ∧ rec = (201%Z, service_json demo_time svc).
Proof.
  intros s. split; [vm_compute; reflexivity|].
  assert (match rs_clients s !! 2 with Some (Replied _ (Replayed _)) => true | _ => false end = true) as E
    by (vm_compute; reflexivity).
  destruct (rs_clients s !! 2) as [[| | |r [rec|svc|e]]|] eqn:E2; try discriminate E.
  destruct (@replays_agree demo_uuid calm_env (λ s, s) demo_time true s 2 r rec) as (k & j & rj & svc & Hk & _ & Hj & Hrec & _).
  - apply exec_reachable_requests.
  - exact E2.
  - exists r, rec, k, j, rj, svc. split; [reflexivity|]. split; [exact Hk|]. split; [exact Hj|exact Hrec].
Defined.
