(* ===== verification/TenantApi.v ===== *)
(** * Listing tenants and the tenant API (internal/modules/tenant: adapters/postgres
    List and cursors, app ListTenants, api)

    The keyset listing with its SQL text and cursors (an instance of the pagination
    of Keyset), the bounds of both listings, and the handlers of /tenants.  Decoding, conditional requests and responses are those of the
    catalog API, which the source repeats. *)
From S2P Require Import Prelude GoStrings Encoding Apperr Uuid Postgres TenantDomain TenantApp Keyset CatalogList Httpx CatalogApi.

(** ** Cursors *)

Record tcursor := mkTCursor { tc_CreatedAt : string; tc_ID : string; tc_Order : string }.
Definition tcursor_spec : list (string * fkind) := [("c", FString); ("id", FString); ("o", FString)].

Section listing.
Context `{Env} {coll : Collation}.

Record TListFilter := mkTListFilter {
  tf_Status : option string;
  tf_Plan : option string;
  tf_Order : string;
  tf_Limit : Z;
  tf_Cursor : string
}.

(** The order is not written into the cursor, and not compared on the way back. *)
Definition encodeCursor (t : Tenant) : string :=
  EncodeToString (print_object
    [("c", FormatRFC3339Nano (tn_createdAt t)); ("id", TenantID_String (tn_id t)); ("o", "")]).
Definition decodeCursor (encoded order : string) : result goerror tcursor :=
  raw ← or_err (DecodeString encoded) malformed_cursor;
  f ← or_err (v ← json_parse raw; decode_struct false tcursor_spec v) malformed_cursor;
  Ok (mkTCursor (str_field f "c") (str_field f "id") (str_field f "o")).

(** ** The statement *)

Definition tenantColumns : string := "id::text, name, slug, plan, status, max_services, version, created_at, updated_at".
Definition placeholder (n : nat) : string := "$" +:+ Itoa (Z.of_nat n).

(** [add]: one more argument and the condition on it. *)
Definition add_cond (col : string) (v : option string) (q : list string * list sql_arg) : list string * list sql_arg :=
  match v with
  | None => q
  | Some x => (q.1 ++ [col +:+ " = " +:+ placeholder (S (length q.2))], q.2 ++ [ArgText x])
  end.
Definition conditions (f : TListFilter) (cur : option tcursor) : list string * list sql_arg :=
  let q := add_cond "plan" (tf_Plan f) (add_cond "status" (tf_Status f) ([], [])) in
  let cmp := if decide (tf_Order f = OrderDesc) then "<" else ">" in
  match cur with
  | None => q
  | Some c =>
    (q.1 ++ ["(created_at, id) " +:+ cmp +:+ " (" +:+ placeholder (S (length q.2)) +:+ "::timestamptz, " +:+
             placeholder (S (S (length q.2))) +:+ "::uuid)"],
     q.2 ++ [ArgText (tc_CreatedAt c); ArgText (tc_ID c)])
  end.
(** The parts in order, the separator before each but the first: [i] counts them. *)
Fixpoint join_from (i : nat) (parts : list string) (sep out : string) : string :=
  match parts with
  | [] => out
  | p :: parts => join_from (S i) parts sep ((if (0 <? i)%nat then out +:+ sep else out) +:+ p)
  end.
Definition join (parts : list string) (sep : string) : string := join_from 0 parts sep "".
Definition list_sql (f : TListFilter) (cur : option tcursor) : string * list sql_arg :=
  let q := conditions f cur in
  let dir := if decide (tf_Order f = OrderDesc) then "DESC" else "ASC" in
  ("SELECT " +:+ tenantColumns +:+ " FROM tenants" +:+
   (if decide (q.1 = []) then "" else " WHERE " +:+ join q.1 " AND ") +:+
   " ORDER BY created_at " +:+ dir +:+ ", id " +:+ dir +:+ " LIMIT " +:+ Itoa (wrap64 (tf_Limit f + 1)), q.2).

Lemma join_from_concat i parts sep out :
  join_from (S i) parts sep out = out +:+ (if decide (parts = []) then "" else sep +:+ String.concat sep parts).
Proof.
  revert i out. induction parts as [|p parts IH]; intros i out.
  { by rewrite append_nil_r. }
  cbn [join_from]. rewrite IH. change (0 <? S i)%nat with true. cbn iota. rewrite !append_assoc'.
  destruct parts as [|q parts]; [by rewrite append_nil_r|done].
Qed.

(** The loop of the code is the library's [strings.Join]. *)
Lemma join_concat parts sep : join parts sep = String.concat sep parts.
Proof.
  destruct parts as [|p [|q parts]]; [done..|]. unfold join. change (join_from 0 (p :: q :: parts) sep "")
    with (join_from 1 (q :: parts) sep p). by rewrite join_from_concat.
Qed.

(** ** Its rows *)

Definition tenant_pos (r : TenantRow) : Z * Z := (tr_created_at r, uuid_num (tr_id r)).
Definition tpos_lt (p q : Z * Z) : Prop := (p.1 < q.1)%Z ∨ (p.1 = q.1 ∧ p.2 < q.2)%Z.
#[global] Instance tpos_lt_dec : RelDecision tpos_lt.
Proof. unfold RelDecision, tpos_lt. apply _. Defined.
Definition tbefore (f : TListFilter) (p q : Z * Z) : Prop :=
  if decide (tf_Order f = OrderDesc) then tpos_lt q p else tpos_lt p q.
#[global] Instance tbefore_dec f : RelDecision (tbefore f).
Proof. intros p q. unfold tbefore. destruct (decide (tf_Order f = OrderDesc)); apply _. Defined.

Definition tmatches (f : TListFilter) (r : TenantRow) : Prop :=
  (if tf_Status f is Some s then tr_status r = s else True) ∧ (if tf_Plan f is Some p then tr_plan r = p else True).
#[global] Instance tmatches_dec f r : Decision (tmatches f r).
Proof. unfold tmatches. destruct (tf_Status f), (tf_Plan f); apply _. Defined.

Definition tcursor_pos (c : tcursor) : result goerror (Z * Z) :=
  t ← or_err (cast_timestamptz (tc_CreatedAt c)) invalid_datetime;
  u ← or_err (uuid_Parse (tc_ID c)) invalid_text;
  Ok (t, uuid_num u).

Definition torder (f : TListFilter) : TenantRow → TenantRow → Prop := key_order tenant_pos (tbefore f).
#[global] Instance torder_dec f : RelDecision (torder f).
Proof. unfold torder. apply _. Defined.

(** The keyset condition [(created_at, id) cmp cursor]. *)
Definition tafter (f : TListFilter) (p : option (Z * Z)) (r : TenantRow) : Prop :=
  if p is Some q then tbefore f q (tenant_pos r) else True.
#[global] Instance tafter_dec f p r : Decision (tafter f p r).
Proof. unfold tafter. destruct p; apply _. Defined.

Definition select_tenants (f : TListFilter) (cur : option tcursor) (d : Database) : result goerror (list TenantRow) :=
  let limit := wrap64 (tf_Limit f + 1) in
  if (limit <? 0)%Z then Err negative_limit else
  p ← match cur with None => Ok None | Some c => p ← tcursor_pos c; Ok (Some p) end;
  Ok (take (Z.to_nat limit)
        (merge_sort (torder f) (filter (λ r, tmatches f r ∧ tafter f p r) (map_to_list (tenants d)).*2))).

Fixpoint scan_tenants (rows : list TenantRow) : M (list Tenant) :=
  match rows with
  | [] => mret []
  | r :: rows' =>
    t ← catch (query (λ _, Ok r)) (λ x, lift (scanTenant x));
    rest ← scan_tenants rows';
    mret (t :: rest)
  end.

Definition cut_tenants (f : TListFilter) (ts : list Tenant) : result goerror (list Tenant * string) :=
  if (tf_Limit f <? Z.of_nat (length ts))%Z then
    if (tf_Limit f <? 1)%Z then Err panic else
    match ts !! Z.to_nat (tf_Limit f - 1) with
    | None => Err panic
    | Some last => Ok (take (Z.to_nat (tf_Limit f)) ts, encodeCursor last)
    end
  else Ok (ts, "").

Definition List (f : TListFilter) : M (list Tenant * string) :=
  cur ← (if decide (tf_Cursor f = "") then mret None
         else c ← lift (decodeCursor (tf_Cursor f) (tf_Order f)); mret (Some c));
  rows ← wrap_err "list tenants" (query (select_tenants f cur));
  ts ← scan_tenants rows;
  _ ← query (λ _, Ok tt);
  lift (cut_tenants f ts).

Definition with_tenant_defaults (f : TListFilter) : TListFilter :=
  mkTListFilter (tf_Status f) (tf_Plan f) (if decide (tf_Order f = "") then OrderDesc else tf_Order f)
    (if (tf_Limit f <=? 0)%Z || (200 <? tf_Limit f)%Z then 50%Z else tf_Limit f) (tf_Cursor f).
Definition ListTenants (f : TListFilter) : M (list Tenant * string) := List (with_tenant_defaults f).

(** Cursors round-trip; the order a cursor is used with plays no part. *)
Lemma tenant_cursor_roundtrip t order :
  decodeCursor (encodeCursor t) order =
    Ok (mkTCursor (FormatRFC3339Nano (tn_createdAt t)) (uuid_String (tid_v (tn_id t))) "").
Proof.
  assert (known_field tcursor_spec (bytes "c") = Some ("c", FString) ∧
          known_field tcursor_spec (bytes "id") = Some ("id", FString) ∧
          known_field tcursor_spec (bytes "o") = Some ("o", FString)) as (Kc & Ki & Ko) by (vm_compute; done).
  unfold decodeCursor, encodeCursor. rewrite DecodeString_EncodeToString. cbn [or_err mbind result_bind].
  rewrite json_parse_print by done. unfold string_fields. cbn [mbind option_bind map decode_struct foldl].
  unfold store_member. cbn [mbind option_bind fst snd]. rewrite Kc, Ki, Ko. unfold str_field, TenantID_String.
  cbn [or_err mbind result_bind option_bind f_str f_int no_fields]. by rewrite !of_bytes_bytes.
Qed.

(** Every value reaches the database as an argument, none through the text. *)
Lemma tenant_list_args f cur :
  (list_sql f cur).2 =
    (if tf_Status f is Some s then [ArgText s] else []) ++ (if tf_Plan f is Some p then [ArgText p] else []) ++
    (if cur is Some c then [ArgText (tc_CreatedAt c); ArgText (tc_ID c)] else []).
Proof. unfold list_sql, conditions, add_cond. by destruct (tf_Status f), (tf_Plan f), cur. Qed.

(** ** Bounds *)

(** The limit as the queries pass it on. *)
Lemma clamped_limit (n : Z) :
  let l := if (n <=? 0)%Z || (200 <? n)%Z then 50%Z else n in (1 ≤ l ≤ 200)%Z ∧ wrap64 (l + 1) = (l + 1)%Z.
Proof.
  intros l. assert (1 ≤ l ≤ 200)%Z as Hl.
  { unfold l. destruct (Z.leb_spec n 0), (Z.ltb_spec 200 n); simpl; lia. }
  split; [done|]. apply wrap64_id. unfold in_int64, int64_min, int64_max. lia.
Qed.

(** Cutting a page at a limit within the rows. *)
Lemma cut_page_bounds f ss : (1 ≤ lf_Limit f)%Z →
  match cut_page f ss with
  | Ok (page, next) => (Z.of_nat (length page) ≤ lf_Limit f)%Z ∧ page `prefix_of` ss
  | Err _ => False
  end.
Proof.
  intros Hl. unfold cut_page. destruct (Z.ltb_spec (lf_Limit f) (Z.of_nat (length ss))) as [Hlt|Hge]; [|done].
  destruct (Z.ltb_spec (lf_Limit f) 1); [lia|].
  destruct (lookup_lt_is_Some_2 ss (Z.to_nat (lf_Limit f - 1))) as [s ->]; [lia|].
  split; [rewrite length_take; lia|apply prefix_take].
Qed.
Lemma cut_tenants_bounds f ts : (1 ≤ tf_Limit f)%Z →
  match cut_tenants f ts with
  | Ok (page, next) => (Z.of_nat (length page) ≤ tf_Limit f)%Z ∧ page `prefix_of` ts
  | Err _ => False
  end.
Proof.
  intros Hl. unfold cut_tenants. destruct (Z.ltb_spec (tf_Limit f) (Z.of_nat (length ts))) as [Hlt|Hge]; [|done].
  destruct (Z.ltb_spec (tf_Limit f) 1); [lia|].
  destruct (lookup_lt_is_Some_2 ts (Z.to_nat (tf_Limit f - 1))) as [s ->]; [lia|].
  split; [rewrite length_take; lia|apply prefix_take].
Qed.

(** A listing that succeeds returns a cut of the rows it scanned. *)
Lemma List_cut f w page next w' : CatalogList.List f w = (Ok (page, next), w') → ∃ ss, cut_page f ss = Ok (page, next).
Proof.
  intros E. unfold CatalogList.List in E. apply M_bind_Ok in E as (cur & w1 & _ & E).
  apply M_bind_Ok in E as (rows & w2 & _ & E). apply M_bind_Ok in E as (ss & w3 & _ & E).
  apply M_bind_Ok in E as (u & w4 & _ & E). exists ss. by injection E as ->.
Qed.
Lemma tenant_List_cut f w page next w' : List f w = (Ok (page, next), w') → ∃ ts, cut_tenants f ts = Ok (page, next).
Proof.
  intros E. unfold List in E. apply M_bind_Ok in E as (cur & w1 & _ & E).
  apply M_bind_Ok in E as (rows & w2 & _ & E). apply M_bind_Ok in E as (ts & w3 & _ & E).
  apply M_bind_Ok in E as (u & w4 & _ & E). exists ts. by injection E as ->.
Qed.

(** C36: listings are bounded for every requested limit, negative and huge ones included:
    the services and the tenants are selected with LIMIT between 2 and 201, which
    the addition of one does not wrap around; the slice that cuts the page stays
    within the rows read, so the index never panics; and no page is longer than
    the limit, hence than 200. *)
Theorem listing_bounded (f : ListFilter) (g : TListFilter) w :
  (2 ≤ wrap64 (lf_Limit (with_defaults f) + 1) ≤ 201)%Z ∧ (∀ ss, is_Some (ok (cut_page (with_defaults f) ss))) ∧
  (∀ page next w', ListServices f w = (Ok (page, next), w') → (Z.of_nat (length page) ≤ lf_Limit (with_defaults f) ≤ 200)%Z) ∧
  (2 ≤ wrap64 (tf_Limit (with_tenant_defaults g) + 1) ≤ 201)%Z ∧ (∀ ts, is_Some (ok (cut_tenants (with_tenant_defaults g) ts))) ∧
  (∀ page next w', ListTenants g w = (Ok (page, next), w') → (Z.of_nat (length page) ≤ tf_Limit (with_tenant_defaults g) ≤ 200)%Z).
Proof.
  destruct (clamped_limit (lf_Limit f)) as [Hf Wf]. destruct (clamped_limit (tf_Limit g)) as [Hg Wg].
  change (if (lf_Limit f <=? 0)%Z || (200 <? lf_Limit f)%Z then 50%Z else lf_Limit f) with (lf_Limit (with_defaults f)) in *.
  change (if (tf_Limit g <=? 0)%Z || (200 <? tf_Limit g)%Z then 50%Z else tf_Limit g)
    with (tf_Limit (with_tenant_defaults g)) in *.
  pose proof (cut_page_bounds (with_defaults f)) as Cf. pose proof (cut_tenants_bounds (with_tenant_defaults g)) as Cg.
  rewrite Wf, Wg. split_and!; [lia|lia|..].
  - intros ss. specialize (Cf ss). destruct (cut_page _ ss) as [[]|]; [by eexists|]. exfalso. apply Cf. lia.
  - intros page next w' E. apply List_cut in E as (ss & E). specialize (Cf ss). rewrite E in Cf.
    destruct Cf as [? _]; lia.
  - lia.
  - lia.
  - intros ts. specialize (Cg ts). destruct (cut_tenants _ ts) as [[]|]; [by eexists|]. exfalso. apply Cg. lia.
  - intros page next w' E. apply tenant_List_cut in E as (ts & E). specialize (Cg ts). rewrite E in Cg.
    destruct Cg as [? _]; lia.
Qed.
End listing.

(** ** Paging through the tenants *)

Section tenant_paging.
Context `{Env} {coll : Collation}.

Definition set_tcursor (f : TListFilter) (c : string) : TListFilter :=
  mkTListFilter (tf_Status f) (tf_Plan f) (tf_Order f) (tf_Limit f) c.
Definition fetch_tenants (f : TListFilter) (c : string) (w : World) : option (list Tenant * string * World) :=
  match List (set_tcursor f c) w with
  | (Ok (page, next), w') => Some (page, next, w')
  | (Err _, _) => None
  end.
Definition all_tenants (fuel : nat) (f : TListFilter) (w : World) : option (list Tenant) :=
  follow (fetch_tenants f) fuel (tf_Cursor f) w.

#[global] Instance tbefore_strict f : StrictOrder (tbefore f).
Proof.
  split.
  - intros p. unfold complement, tbefore, tpos_lt. destruct (decide _); lia.
  - intros p q r. unfold tbefore, tpos_lt. destruct (decide _); lia.
Qed.
Lemma tbefore_total f r1 r2 :
  tbefore f (tenant_pos r1) (tenant_pos r2) ∨ tenant_pos r1 = tenant_pos r2 ∨ tbefore f (tenant_pos r2) (tenant_pos r1).
Proof.
  unfold tbefore, tpos_lt, tenant_pos. simpl.
  destruct (Z.lt_trichotomy (tr_created_at r1) (tr_created_at r2)) as [|[->|]],
    (Z.lt_trichotomy (uuid_num (tr_id r1)) (uuid_num (tr_id r2))) as [|[->|]]; destruct (decide _); auto; lia.
Qed.
Lemma tenant_pos_key r1 r2 : tenant_pos r1 = tenant_pos r2 → tr_id r1 = tr_id r2.
Proof. intros E. apply (inj uuid_num). unfold tenant_pos in E. congruence. Qed.

Definition tenant_rows (d : Database) : list TenantRow := (map_to_list (tenants d)).*2.
Definition tenant_listing (f : TListFilter) (d : Database) : list TenantRow :=
  sorted_matches tenant_pos (tbefore f) (tmatches f) (tenant_rows d).

Lemma tenant_rows_ids d : tenants_inv d → NoDup (map tr_id (tenant_rows d)).
Proof.
  intros Hinv. unfold tenant_rows. replace (map tr_id (map_to_list (tenants d)).*2)
    with (map_to_list (tenants d)).*1; [apply NoDup_fst_map_to_list|].
  rewrite map_map. apply map_ext_in. intros [u r] Hin%list_elem_of_In%elem_of_map_to_list. symmetry.
  by apply (ti_rows _ Hinv).
Qed.
Lemma tenant_listing_stored f d r : tenants_inv d → r ∈ tenant_listing f d → tenants d !! tr_id r = Some r.
Proof.
  intros Hinv. unfold tenant_listing, sorted_matches. rewrite merge_sort_Permutation. intros [_ Hr]%list_elem_of_filter.
  unfold tenant_rows in Hr. apply list_elem_of_fmap in Hr as ([u r'] & -> & Hin%elem_of_map_to_list).
  simpl in *. by destruct (ti_rows _ Hinv u r') as [-> _].
Qed.

Lemma encode_tcursor_nonempty t : encodeCursor t ≠ "".
Proof. unfold encodeCursor, EncodeToString. simpl. done. Qed.

Definition tenant_page_size (f : TListFilter) : nat := Z.to_nat (tf_Limit f).
Definition tenant_page (f : TListFilter) : list TenantRow → list Tenant * string :=
  page_of row_tenant encodeCursor (tenant_page_size f).

Lemma cut_tenants_cut f ts : (0 < tf_Limit f)%Z →
  cut_tenants f ts = match cut encodeCursor (tenant_page_size f) ts with Some p => Ok p | None => Err panic end.
Proof.
  intros Hl. unfold cut_tenants, cut, tenant_page_size.
  destruct (Z.ltb_spec (tf_Limit f) (Z.of_nat (length ts))); [rewrite decide_True by lia|by rewrite decide_False by lia].
  destruct (Z.ltb_spec (tf_Limit f) 1); [lia|].
  replace (Z.to_nat (tf_Limit f - 1)) with (Z.to_nat (tf_Limit f) - 1) by lia. by destruct (ts !! _).
Qed.

Context (Hf : ∀ n, fault n = None).
Lemma scan_tenants_calm rows w :
  Forall (λ r, tenant_wf (row_tenant r)) rows →
  ∃ n, scan_tenants rows w = (Ok (map row_tenant rows), mkWorld (w_db w) n (w_tx_now w)).
Proof using Hf.
  intros Hwf. revert w. induction Hwf as [|r rows Hr _ IH]; intros w; simpl; [exists (w_tick w); by destruct w|].
  unfold mbind, M_bind, catch. rewrite (query_calm Hf). simpl. unfold lift. rewrite tenant_scan_row_wf by done.
  destruct (IH (tick w)) as [n ->]. by exists n.
Qed.

(** [List] once the rows behind its position are known. *)
Lemma tenant_List_calm f w p l :
  (0 < tf_Limit f ≤ 200)%Z →
  match p with
  | None => tf_Cursor f = ""
  | Some q => tf_Cursor f ≠ "" ∧ ∃ c, decodeCursor (tf_Cursor f) (tf_Order f) = Ok c ∧ tcursor_pos c = Ok q
  end →
  merge_sort (torder f) (filter (λ r, tmatches f r ∧ tafter f p r) (tenant_rows (w_db w))) = l →
  Forall (λ r, tenant_wf (row_tenant r)) l →
  ∃ w', List f w = (Ok (tenant_page f l), w') ∧ w_db w' = w_db w.
Proof using Hf.
  intros Hlim Hp Hl Hwf. unfold List.
  assert (wrap64 (tf_Limit f + 1) = tf_Limit f + 1)%Z as Ew by (apply wrap64_id; unfold in_int64, int64_min, int64_max; lia).
  assert (∃ cur, (if decide (tf_Cursor f = "") then mret None
         else c ← lift (decodeCursor (tf_Cursor f) (tf_Order f)); mret (Some c)) w = (Ok cur, w) ∧
         select_tenants f cur (w_db w) = Ok (take (S (tenant_page_size f)) l)) as (cur & Hc & Hsel).
  { assert (Z.to_nat (tf_Limit f + 1) = S (tenant_page_size f)) as Et by (unfold tenant_page_size; lia).
    destruct p as [q|].
    - destruct Hp as [Hne (c & Hd & Hq)]. exists (Some c). rewrite decide_False by done.
      unfold mbind, M_bind, lift. rewrite Hd. split; [done|]. unfold select_tenants. rewrite Ew, Hq, Et.
      destruct (Z.ltb_spec (tf_Limit f + 1) 0); [lia|]. cbn [mbind result_bind]. by rewrite <- Hl.
    - exists None. rewrite decide_True by done. split; [done|]. unfold select_tenants. rewrite Ew, Et.
      destruct (Z.ltb_spec (tf_Limit f + 1) 0); [lia|]. cbn [mbind result_bind]. by rewrite <- Hl. }
  unfold mbind at 1, M_bind at 1. rewrite Hc. unfold mbind, M_bind, wrap_err. rewrite (query_calm Hf), Hsel.
  destruct (scan_tenants_calm (take (S (tenant_page_size f)) l) (tick w)) as [n ->]; [by apply Forall_take|].
  rewrite (query_calm Hf). unfold lift. rewrite cut_tenants_cut, cut_page_of by (unfold tenant_page_size; lia). eauto.
Qed.

Context (d : Database) (f : TListFilter) (Hlim : (0 < tf_Limit f ≤ 200)%Z) (Hinv : tenants_inv d).
Context (Hcast : ∀ u r, tenants d !! u = Some r →
  cast_timestamptz (FormatRFC3339Nano (tr_created_at r)) = Some (tr_created_at r)).

Lemma fetch_tenants_behind l1 l2 w :
  tenant_listing f d = l1 ++ l2 → w_db w = d →
  ∃ w', fetch_tenants f (cursor_at row_tenant encodeCursor l1) w = Some (tenant_page f l2, w') ∧ w_db w' = d.
Proof using Hf Hlim Hinv Hcast.
  intros E Hw. assert (Forall (λ r, tenant_wf (row_tenant r)) l2) as Hwf2.
  { apply Forall_forall. intros r Hr. eapply (ti_rows _ Hinv), (tenant_listing_stored f); [done|]. rewrite E. set_solver. }
  unfold fetch_tenants, cursor_at.
  assert (∃ w', List (set_tcursor f (match last l1 with None => "" | Some x => encodeCursor (row_tenant x) end)) w =
    (Ok (tenant_page f l2), w') ∧ w_db w' = d) as (w' & -> & Hw'); [|exists w'; by destruct (tenant_page f l2)].
  rewrite <- Hw. destruct (last l1) as [x|] eqn:El.
  - apply last_Some in El as [l0 ->]. rewrite <- app_assoc in E. simpl in E. set (c := encodeCursor (row_tenant x)).
    assert (tenants d !! tr_id x = Some x) as Hx by (eapply (tenant_listing_stored f); [done|]; rewrite E; set_solver).
    eapply (tenant_List_calm (set_tcursor f c) w (Some (tenant_pos x)) l2); [done| | |done].
    + split; [apply encode_tcursor_nonempty|]. eexists. split; [apply tenant_cursor_roundtrip|].
      unfold tcursor_pos. cbn [tc_CreatedAt tc_ID tn_createdAt tn_id row_tenant tid_v].
      rewrite (Hcast _ _ Hx), uuid_Parse_String. done.
    + rewrite Hw. exact (select_behind tr_id tenant_pos (tbefore f) (tbefore_total f) tenant_pos_key (tmatches f)
        (tenant_rows d) l0 x l2 (tenant_rows_ids d Hinv) E).
  - apply last_None in El as ->. simpl in E. eapply (tenant_List_calm (set_tcursor f "") w None l2); [done|done| |done].
    rewrite Hw, <- E. unfold tenant_listing, sorted_matches, torder. f_equal. apply list_filter_iff. intros r. simpl. tauto.
Qed.
End tenant_paging.

Section tenant_paging_complete.
Context `{Env} {coll : Collation}.

(** Paging through the tenants is complete and exact: following the cursors from
    the first page, for every filter, order and page size, enumerates exactly the
    matching tenants, each once, in the order of creation time and identifier,
    and the enumeration ends. *)
Theorem tenant_paging_complete f d w :
  (∀ n, fault n = None) → w_db w = d → tenants_inv d → tf_Cursor f = "" → (0 < tf_Limit f ≤ 200)%Z →
  (∀ u r, tenants d !! u = Some r → cast_timestamptz (FormatRFC3339Nano (tr_created_at r)) = Some (tr_created_at r)) →
  ∃ l, all_tenants (S (length l)) f w = Some (map row_tenant l) ∧
    l ≡ₚ filter (tmatches f) (tenant_rows d) ∧
    StronglySorted (λ r1 r2, ¬ tbefore f (tenant_pos r2) (tenant_pos r1)) l.
Proof.
  intros Hf Hw Hinv Hc Hlim Hcast. exists (tenant_listing f d). split_and!; [|apply merge_sort_Permutation|].
  - unfold all_tenants. rewrite Hc.
    apply (follow_all row_tenant encodeCursor (tenant_page_size f)) with (I := λ w, w_db w = d);
      [unfold tenant_page_size; lia|apply encode_tcursor_nonempty| |done].
    by apply fetch_tenants_behind.
  - apply (sorted_rows tr_id); [apply _|apply tbefore_total|apply tenant_pos_key].
Qed.
End tenant_paging_complete.

(** ** Handlers *)

Section handlers.
Context `{Env} {coll : Collation}.
Context (json_error : string → string) (time_json : Z → json).

Definition CreateTenantRequest : list (string * fkind) :=
  [("name", FString); ("slug", FString); ("plan", FString); ("maxServices", FInt)].
Definition ChangeStatusRequest : list (string * fkind) := [("status", FString)].
Definition UpdateQuotaRequest : list (string * fkind) := [("maxServices", FInt)].

Record TenantResponse := mkTenantResponse {
  tp_ID : string; tp_Name : string; tp_Slug : string; tp_Plan : string; tp_Status : string;
  tp_MaxServices : Z; tp_Version : Z; tp_CreatedAt : Z; tp_UpdatedAt : Z }.
Definition toResponse (t : Tenant) : TenantResponse :=
  mkTenantResponse (TenantID_String (tn_id t)) (tn_v (tn_name t)) (slug_v (tn_slug t)) (tn_plan t) (tn_status t)
    (MaxServices (tn_quota t)) (tn_version t) (tn_createdAt t) (tn_updatedAt t).
Definition TenantResponse_json (p : TenantResponse) : json :=
  JObj [("id", JStr (tp_ID p)); ("name", JStr (tp_Name p)); ("slug", JStr (tp_Slug p));
        ("plan", JStr (tp_Plan p)); ("status", JStr (tp_Status p)); ("maxServices", JNum (tp_MaxServices p));
        ("version", JNum (tp_Version p)); ("createdAt", time_json (tp_CreatedAt p));
        ("updatedAt", time_json (tp_UpdatedAt p))].
Definition tenant_json (t : Tenant) : json := TenantResponse_json (toResponse t).

(** The conditional requests of this package, the same as those of the catalog. *)
Definition ifMatch (r : Request) : Z :=
  let raw := Trim (Header_Get r "If-Match") dquote in
  if decide (raw = "") then 0%Z else default 0%Z (ParseInt raw).
Definition setETag (version : Z) (w : Writer) : Writer := Header_Set "ETag" (FormatInt version) w.

Definition tenant_respond (status : Z) (t : Tenant) (w : Writer) : Writer :=
  JSON status (tenant_json t) (setETag (tn_version t) w).

Definition Create : handler := λ r w,
  or_error r w (lift (Decode json_error CreateTenantRequest r)) (λ f,
    or_error r w (CreateTenant (mkCreateTenantInput (str_field f "name") (str_field f "slug") (str_field f "plan")
                                  (int_field f "maxServices"))) (λ t a,
      (tenant_respond 201 t (Header_Set "Location" ("/api/v1/tenants/" +:+ TenantID_String (tn_id t)) w), a))).

Definition Get (id : string) : handler := λ r w,
  or_error r w (GetTenant id) (λ t a, (tenant_respond 200 t w, a)).

Definition ChangeStatus (id : string) : handler := λ r w,
  or_error r w (lift (Decode json_error ChangeStatusRequest r)) (λ f,
    or_error r w (TenantApp.ChangeStatus (mkChangeStatusInput id (str_field f "status") (ifMatch r))) (λ t a,
      (tenant_respond 200 t w, a))).

Definition UpdateQuota (id : string) : handler := λ r w,
  or_error r w (lift (Decode json_error UpdateQuotaRequest r)) (λ f,
    or_error r w (TenantApp.UpdateQuota (mkUpdateQuotaInput id (int_field f "maxServices") (ifMatch r))) (λ t a,
      (tenant_respond 200 t w, a))).

Definition parseTenantFilter (r : Request) : result goerror TListFilter :=
  limit ← optional (Query_Get r "limit") parse_limit;
  status ← optional (Query_Get r "status") ParseStatus;
  plan ← optional (Query_Get r "plan") ParsePlan;
  order ← parse_order (Query_Get r "order");
  Ok (mkTListFilter status plan order (default 50%Z limit) (Query_Get r "cursor")).

Definition ListHandler : handler := λ r w,
  or_error r w (lift (parseTenantFilter r)) (λ f,
    or_error r w (ListTenants f) (λ '(ts, next) a,
      (JSON 200 (page_json (map tenant_json ts) next) w, a))).

(** ** Conditional updates of tenants *)

Definition tpatched (id : string) (r : Request) (out : Writer) (d d' : Database) : Prop :=
  ∃ u old new, uuid_Parse id = Some u ∧ tenants d !! u = Some old ∧ tenants d' !! u = Some new ∧
    (∀ v, in_int64 v → (0 < v)%Z → if_match_etag r v → tr_version old = v) ∧
    etag_of out = Some (FormatInt (tr_version new)).
Definition tpatch_outcome (id : string) (r : Request) (out : Writer) (d d' : Database) : Prop :=
  (status_of out = 200%Z ∧ tpatched id r out d d') ∨
  (∃ e, out = Error r e fresh_writer ∧ (d' = d ∨ ∃ e0, e = EWrap "commit tx" e0)).

Lemma tenant_respond_sent status t w :
  rw_sent w = None →
  status_of (tenant_respond status t w) = status ∧ etag_of (tenant_respond status t w) = Some (FormatInt (tn_version t)).
Proof.
  unfold tenant_respond, JSON, Write, WriteHeader, send, etag_of, sent_header, status_of. simpl. intros ->. simpl.
  split; [done|]. by rewrite lookup_insert_ne, lookup_insert_eq.
Qed.

Lemma tenant_mutating_outcome c op id r a :
  tenants_inv (w_db a) → match c with CmdCreate _ => False | _ => True end →
  command_op c = (u ← TenantIDFromString id; o ← op; Ok (u, ifMatch r, o)) →
  let out := or_error r fresh_writer (run_tenant_command c) (λ t a, (tenant_respond 200 t fresh_writer, a)) a in
  tpatch_outcome id r out.1 (w_db a) (w_db out.2).
Proof.
  intros Hinv Hc Hop. unfold or_error. pose proof (wp_tenant_command c a Hinv) as Hr. unfold wp in Hr.
  destruct (run_tenant_command c a) as [[t'|e] a']; simpl in *.
  2:{ right. exists e. split; [done|]. destruct Hr as [?|[? _]]; auto. }
  left. split; [by apply tenant_respond_sent|]. assert (tenant_effect c t' (w_db a) (w_db a')) as Heff by done.
  assert (match command_op c with Ok (u, v, op) => mutated u v op t' (w_db a) (w_db a') | Err _ => False end) as Hm
    by (by destruct c). rewrite Hop in Hm. clear Heff Hr. unfold TenantIDFromString in *.
  destruct (uuid_Parse id) as [u|] eqn:Eu; simpl in Hm; [|done]. destruct op as [o|]; simpl in Hm; [|done].
  destruct Hm as (old & now & t & rows & Hold & Hv & Hrun & -> & _ & ->). simpl in Hold.
  destruct (ti_rows _ Hinv _ _ Hold) as [Hid _].
  exists u, old, (update_columns old (tenant_row timestamptz t)). split_and!; [done|done|by apply lookup_insert_eq|..].
  - intros v Hin Hpos He. change (ifMatch r) with (CatalogApi.ifMatch r) in Hv. rewrite (ifMatch_etag r v Hin He) in Hv. by apply Hv.
  - by apply tenant_respond_sent.
Qed.

(** A PATCH of a tenant answers 200 only from the version named by [If-Match], with
    the stored version as ETag; otherwise the database is as before, unless the
    commit was lost in doubt. *)
Lemma tenant_conditional_update id r a :
  tenants_inv (w_db a) →
  (let out := ChangeStatus id r fresh_writer a in tpatch_outcome id r out.1 (w_db a) (w_db out.2)) ∧
  (let out := UpdateQuota id r fresh_writer a in tpatch_outcome id r out.1 (w_db a) (w_db out.2)).
Proof.
  intros Hinv. unfold ChangeStatus, UpdateQuota. split.
  - unfold or_error at 1 3, lift. destruct (Decode _ _ r) as [f|e]; simpl; [|right; eauto].
    apply (tenant_mutating_outcome (CmdStatus _) (s ← ParseStatus (str_field f "status"); Ok (OpStatus s))); [done..|].
    simpl. destruct (TenantIDFromString id); simpl; [|done]. by destruct (ParseStatus _).
  - unfold or_error at 1 3, lift. destruct (Decode _ _ r) as [f|e]; simpl; [|right; eauto].
    apply (tenant_mutating_outcome (CmdQuota _) (q ← NewQuota (int_field f "maxServices"); Ok (OpQuota q))); [done..|].
    simpl. destruct (TenantIDFromString id); simpl; [|done]. by destruct (NewQuota _).
Qed.
End handlers.

(** ** Witnesses *)

#[local] Existing Instance demo_uuid.
#[local] Existing Instance calm_env.
#[local] Existing Instance CatalogList.demo_collation.
#[local] Definition demo_create (slug : string) : TenantCommand := CmdCreate (mkCreateTenantInput slug slug "standard" 5).
#[local] Definition tw3 : World := run_tenant_commands (map demo_create ["acme"; "beta"; "core"]) (mkWorld empty_db 0 0).
#[local] Definition demo_tfilter : TListFilter := mkTListFilter (Some "active") None OrderDesc 2 "".

Lemma tenant_paging_complete_witness :
  ∃ l, all_tenants (S (length l)) demo_tfilter tw3 = Some (map row_tenant l) ∧
    l ≡ₚ filter (tmatches demo_tfilter) (tenant_rows (w_db tw3)) ∧ length l = 3.
Proof.
  assert (tenants_inv (w_db tw3)) as Hinv by apply run_tenant_commands_inv, tenants_inv_empty.
  assert (map_Forall (λ _ r, cast_timestamptz (FormatRFC3339Nano (tr_created_at r)) = Some (tr_created_at r))
            (tenants (w_db tw3))) as Hall.
  { apply (bool_decide_unpack _). vm_compute. exact I. }
  destruct (@tenant_paging_complete demo_uuid calm_env _ demo_tfilter (w_db tw3) tw3 (λ _, eq_refl) eq_refl Hinv eq_refl
              ltac:(split; [reflexivity|discriminate]) Hall) as (l & Hl & Hp & _).
  exists l. split; [exact Hl|]. split; [exact Hp|]. rewrite Hp. vm_compute. reflexivity.
Defined.
