(* ===== verification/Config.v ===== *)
(** * Configuration (internal/platform/config)

    [Load] reads the process environment, a function from names to optional
    values, and validates the result.  [ParseFloat], [ParseDuration] and [Quote]
    (the [%q] verb) of the standard library are arguments: they take part in no
    decision of [validate]. *)
From S2P Require Import Prelude GoStrings Apperr.

#[local] Open Scope string_scope.

Record Temporal := mkTemporal { HostPort : string; Namespace : string; TaskQueue : string }.
Record Events := mkEvents { NATSURL : string; StreamName : string; SubjectPrefix : string }.
Record Relay := mkRelay { BatchSize : Z; PollInterval : Z }.
Record DatabaseConfig := mkDatabaseConfig {
  URL : string; MaxConns : Z; MinConns : Z; MaxConnLifetime : Z; MaxConnIdleTime : Z }.
Record Auth := mkAuth { Mode : string; HMACSecret : string; JWKSURL : string; Issuer : string; Audience : string }.
Record Telemetry := mkTelemetry { ServiceName : string; OTLPEndpoint : string }.

(** Durations in nanoseconds. *)
Definition Second : Z := 1000000000.
Definition Minute : Z := 60 * Second.
Definition Hour : Z := 60 * Minute.

Section config.
Context {float64 : Type} (of_int : Z → float64) (ParseFloat : string → option float64).
Context (ParseDuration : string → option Z) (Quote : string → string).
(** [os.LookupEnv]. *)
Context (LookupEnv : string → option string).

Record RateLimit := mkRateLimit { RPS : float64; Burst : Z }.
Record Config := mkConfig {
  cfg_Env : string;
  cfg_HTTPAddr : string;
  cfg_ShutdownTimeout : Z;
  cfg_Database : DatabaseConfig;
  cfg_Auth : Auth;
  cfg_Telemetry : Telemetry;
  cfg_RateLimit : RateLimit;
  cfg_Events : Events;
  cfg_Relay : Relay;
  cfg_Temporal : Temporal
}.

(** [os.Getenv]: an absent variable reads as empty. *)
Definition Getenv (key : string) : string := default "" (LookupEnv key).

Definition getStr (key def : string) : string :=
  match LookupEnv key with
  | Some v => if decide (v ≠ "") then v else def
  | None => def
  end.
Definition get_parsed {A} (parse : string → option A) (key : string) (def : A) : A :=
  match LookupEnv key with
  | Some v => if decide (v ≠ "") then default def (parse v) else def
  | None => def
  end.
Definition getInt (key : string) (def : Z) : Z := get_parsed Atoi key def.
Definition getFloat (key : string) (def : float64) : float64 := get_parsed ParseFloat key def.
Definition getDur (key : string) (def : Z) : Z := get_parsed ParseDuration key def.

Definition httpAddr : string :=
  if decide (Getenv "FORGE_HTTP_ADDR" ≠ "") then Getenv "FORGE_HTTP_ADDR"
  else if decide (Getenv "PORT" ≠ "") then ":" +:+ Getenv "PORT"
  else ":8080".

Definition IsProduction (c : Config) : bool := bool_decide (cfg_Env c = "production").

(** The configuration [Load] assembles before it validates; the connection
    limits go through [int32(...)], which wraps around. *)
Definition assembled : Config :=
  mkConfig (getStr "FORGE_ENV" "development") httpAddr (getDur "FORGE_SHUTDOWN_TIMEOUT" (15 * Second))
    (mkDatabaseConfig (getStr "FORGE_DB_URL" "")
       (wrap32 (getInt "FORGE_DB_MAX_CONNS" 10)) (wrap32 (getInt "FORGE_DB_MIN_CONNS" 2))
       (getDur "FORGE_DB_MAX_CONN_LIFETIME" Hour) (getDur "FORGE_DB_MAX_CONN_IDLE_TIME" (30 * Minute)))
    (mkAuth (getStr "FORGE_AUTH_MODE" "hmac") (getStr "FORGE_AUTH_HMAC_SECRET" "")
       (getStr "FORGE_AUTH_JWKS_URL" "") (getStr "FORGE_AUTH_ISSUER" "") (getStr "FORGE_AUTH_AUDIENCE" ""))
    (mkTelemetry (getStr "FORGE_OTEL_SERVICE_NAME" "forge-control-plane") (getStr "FORGE_OTEL_OTLP_ENDPOINT" ""))
    (mkRateLimit (getFloat "FORGE_RATE_LIMIT_RPS" (of_int 50)) (getInt "FORGE_RATE_LIMIT_BURST" 100))
    (mkEvents (getStr "FORGE_NATS_URL" "nats://localhost:4222") (getStr "FORGE_EVENTS_STREAM" "FORGE_EVENTS")
       (getStr "FORGE_EVENTS_SUBJECT_PREFIX" "forge.events"))
    (mkRelay (getInt "FORGE_RELAY_BATCH_SIZE" 100) (getDur "FORGE_RELAY_POLL_INTERVAL" Second))
    (mkTemporal (getStr "FORGE_TEMPORAL_HOSTPORT" "localhost:7233") (getStr "FORGE_TEMPORAL_NAMESPACE" "default")
       (getStr "FORGE_TEMPORAL_TASK_QUEUE" "forge-provisioning")).

(** [if cond { problems = append(problems, p) }] *)
Definition problem_if (cond : bool) (p : string) : list string := if cond then [p] else [].

Definition auth_problems (c : Config) : list string :=
  let a := cfg_Auth c in
  if decide (Mode a = "hmac") then
    problem_if (bool_decide (HMACSecret a = "")) "FORGE_AUTH_HMAC_SECRET is required when FORGE_AUTH_MODE=hmac" ++
    problem_if (IsProduction c) "FORGE_AUTH_MODE=hmac is not permitted in production; use jwks"
  else if decide (Mode a = "jwks") then
    problem_if (bool_decide (JWKSURL a = "")) "FORGE_AUTH_JWKS_URL is required when FORGE_AUTH_MODE=jwks" ++
    problem_if (bool_decide (Issuer a = "") || bool_decide (Audience a = ""))
      "FORGE_AUTH_ISSUER and FORGE_AUTH_AUDIENCE are required when FORGE_AUTH_MODE=jwks"
  else ["FORGE_AUTH_MODE " +:+ Quote (Mode a) +:+ " is invalid (want hmac or jwks)"].

Definition problems (c : Config) : list string :=
  problem_if (bool_decide (URL (cfg_Database c) = "")) "FORGE_DB_URL is required" ++
  auth_problems c ++
  problem_if (MaxConns (cfg_Database c) <? MinConns (cfg_Database c))%Z
    "FORGE_DB_MIN_CONNS must not exceed FORGE_DB_MAX_CONNS".

Definition validate (c : Config) : result goerror unit :=
  let ps := problems c in
  if decide (0 < length ps) then Err (EOther ("invalid configuration: " +:+ String.concat "; " ps)) else Ok tt.

Definition Load : result goerror Config :=
  let cfg := assembled in
  _ ← validate cfg;
  Ok cfg.

(** ** What a loaded configuration guarantees *)

Definition auth_ok (c : Config) : Prop :=
  let a := cfg_Auth c in
  (Mode a = "hmac" ∧ HMACSecret a ≠ "" ∧ cfg_Env c ≠ "production") ∨
  (Mode a = "jwks" ∧ JWKSURL a ≠ "" ∧ Issuer a ≠ "" ∧ Audience a ≠ "").
Definition config_ok (c : Config) : Prop :=
  URL (cfg_Database c) ≠ "" ∧ auth_ok c ∧ (MinConns (cfg_Database c) ≤ MaxConns (cfg_Database c))%Z.

Lemma problem_if_nil b p : problem_if b p = [] ↔ b = false.
Proof. by destruct b. Qed.

Lemma auth_problems_nil c : auth_problems c = [] ↔ auth_ok c.
Proof.
  unfold auth_problems, auth_ok, IsProduction.
  destruct (decide (Mode (cfg_Auth c) = "hmac")) as [E|Hh]; [|destruct (decide (Mode (cfg_Auth c) = "jwks")) as [E|Hj]].
  - rewrite app_nil, !problem_if_nil, !bool_decide_eq_false, E. split; [by intros []; left|]. by intros [[_ ?]|[[=] _]].
  - rewrite app_nil, !problem_if_nil, orb_false_iff, !bool_decide_eq_false, E.
    split; [intros (? & ? & ?); by right|]. by intros [[[=] _]|(_ & ? & ? & ?)].
  - split; [done|]. by intros [[? _]|[? _]].
Qed.

Lemma problems_nil c : problems c = [] ↔ config_ok c.
Proof.
  unfold problems, config_ok.
  by rewrite !app_nil, !problem_if_nil, auth_problems_nil, bool_decide_eq_false, Z.ltb_ge.
Qed.

Lemma validate_outcome c :
  validate c = if decide (problems c = []) then Ok tt
               else Err (EOther ("invalid configuration: " +:+ String.concat "; " (problems c))).
Proof.
  unfold validate. destruct (problems c); by repeat case_decide; simpl in *; try lia.
Qed.

(** C37: [Load] returns the configuration read from the environment exactly when it names
    a database, its authentication mode is [hmac] with a secret outside
    production or [jwks] with key set, issuer and audience, and the connection
    limits are in order; so production never runs on a shared secret.  Otherwise
    it returns nothing but an error that lists all the problems. *)
Theorem load_accepts :
  match Load with
  | Ok c => c = assembled ∧ config_ok c ∧
      (cfg_Env c = "production" → Mode (cfg_Auth c) = "jwks" ∧ Issuer (cfg_Auth c) ≠ "" ∧ Audience (cfg_Auth c) ≠ "")
  | Err e => ¬ config_ok assembled ∧
      e = EOther ("invalid configuration: " +:+ String.concat "; " (problems assembled))
  end.
Proof.
  unfold Load. rewrite validate_outcome. destruct (decide (problems assembled = [])) as [H|H]; simpl.
  - apply problems_nil in H as Hok. split_and!; [done|done|]. intros Hp. destruct Hok as (_ & [(_ & _ & Hn)|(Hm & _ & Hi)] & _); [done|by split].
  - by rewrite <- problems_nil.
Qed.

End config.

(** The limits wrap around: a configured maximum of 2^32 + 2 connections loads as 2. *)
Example max_conns_wraps :
  let env k := match k with
    | "FORGE_DB_URL" => Some "postgres://db" | "FORGE_AUTH_HMAC_SECRET" => Some "s"
    | "FORGE_DB_MAX_CONNS" => Some "4294967298" | _ => None end%string in
  (λ c, MaxConns (cfg_Database c)) <$> ok (Load (λ z, z) ParseInt (λ _, None) (λ s, s) env) = Some 2%Z.
Proof. vm_compute. reflexivity. Qed.
