(* ===== verification/Migrate.v ===== *)
(** * Schema migrations (internal/platform/postgres/migrate.go)

    [Migrate] applies the pending [*.up.sql] files in version order, each in a
    transaction of its own together with its row in schema_migrations.  The file
    system and the SQL engine that runs a script are arguments; so is [sort.Slice],
    which promises a sorted permutation and not a stable one.  Every driver call
    may fail, the read of the applied versions may end early without an error
    (the code does not look at [rows.Err()]), and a commit may be lost. *)
From S2P Require Import Prelude GoStrings Apperr Postgres.

Record migration := mkMigration { version : Z; name : string }.
#[global] Instance migration_eq_dec : EqDecision migration.
Proof. solve_decision. Defined.

(** [strings.IndexByte] as the part before the byte, [None] for -1. *)
Fixpoint before_byte (c : ascii) (l : list ascii) : option (list ascii) :=
  match l with
  | [] => None
  | a :: l' => if decide (a = c) then Some [] else (a ::.) <$> before_byte c l'
  end.
Definition underscore : ascii := Ascii.ascii_of_N 95.

Definition HasSuffix (s suffix : string) : bool :=
  (len suffix <=? len s) && bool_decide (drop (len s - len suffix) (bytes s) = bytes suffix).

(** The [*NumError] of [strconv.ParseInt]. *)
Definition parse_int_error : goerror := EOther "strconv.ParseInt: parsing failed".
Definition parseVersion (Quote : string → string) (name : string) : result goerror Z :=
  match before_byte underscore (bytes name) with
  | None | Some [] =>
    Err (EOther ("migration " +:+ Quote name +:+ " must be named <version>_<desc>.up.sql"))
  | Some digits =>
    match ParseInt (of_bytes digits) with
    | None => Err (EWrap ("migration " +:+ Quote name +:+ " has non-numeric version") parse_int_error)
    | Some v => Ok v
    end
  end.

Class SortSlice := {
  sort_Slice : list migration → list migration;
  sort_Slice_perm l : sort_Slice l ≡ₚ l;
  sort_Slice_sorted l : StronglySorted (λ m1 m2, version m1 ≤ version m2)%Z (sort_Slice l)
}.

Section migrate.
Context {Schema : Type} (exec_sql : string → Schema → result goerror Schema).
Context (ReadDir : result goerror (list string)) (ReadFile : string → result goerror string).
Context (Quote : string → string) `{!SortSlice}.
Context (fault : nat → option goerror) (stops : nat → bool) (commit : nat → commit_outcome).

(** [mw_versions]: the rows of schema_migrations, [None] before the table exists. *)
Record MWorld := mkMWorld { mw_schema : Schema; mw_versions : option (list Z); mw_tick : nat }.
Definition MM (A : Type) : Type := MWorld → result goerror A * MWorld.
#[global] Instance MM_ret : MRet MM := λ A a w, (Ok a, w).
#[global] Instance MM_bind : MBind MM := λ A B k m w,
  match m w with (Ok a, w') => k a w' | (Err e, w') => (Err e, w') end.

Definition wrapping {A} (p : string) (m : MM A) : MM A := λ w,
  match m w with (Err e, w') => (Err (EWrap p e), w') | r => r end.
Definition step (w : MWorld) : MWorld := mkMWorld (mw_schema w) (mw_versions w) (S (mw_tick w)).
Definition rollback (before w : MWorld) : MWorld := mkMWorld (mw_schema before) (mw_versions before) (mw_tick w).
Definition table (w : MWorld) : list Z := default [] (mw_versions w).

(** A driver call: its fault, or its effect. *)
Definition call {A} (f : MWorld → result goerror (A * MWorld)) : MM A := λ w,
  match fault (mw_tick w) with
  | Some e => (Err e, step w)
  | None => match f w with Ok (a, w') => (Ok a, step w') | Err e => (Err e, step w) end
  end.

(** A statement outside a transaction: its own commit may be lost. *)
Definition ensure_table : MM unit := λ w,
  let created := mkMWorld (mw_schema w) (Some (table w)) (mw_tick w) in
  match commit (mw_tick w) with
  | Committed => (Ok tt, step created)
  | CommitFailed e => (Err e, step w)
  | CommitUnknown e => (Err e, step created)
  end.

(** [for rows.Next() { ... }] *)
Fixpoint read_rows (rows : list Z) (applied : gset Z) : MM (gset Z) := λ w,
  match rows with
  | [] => (Ok applied, w)
  | v :: rows' =>
    if stops (mw_tick w) then (Ok applied, step w)
    else match fault (mw_tick w) with
         | Some e => (Err e, step w)
         | None => read_rows rows' ({[v]} ∪ applied) (step w)
         end
  end.
Definition read_applied : MM (gset Z) := λ w,
  (rows ← wrapping "read applied migrations" (call (λ w, Ok (table w, w))); read_rows rows ∅) w.

Definition is_up (n : string) : bool := HasSuffix n ".up.sql".
Fixpoint collect (applied : gset Z) (entries : list string) : result goerror (list migration) :=
  match entries with
  | [] => Ok []
  | n :: entries' =>
    if negb (is_up n) then collect applied entries'
    else
      v ← parseVersion Quote n;
      ms ← collect applied entries';
      Ok (if decide (v ∈ applied) then ms else mkMigration v n :: ms)
  end.

Definition run_script (content : string) (w : MWorld) : result goerror (unit * MWorld) :=
  s ← exec_sql content (mw_schema w);
  Ok (tt, mkMWorld s (mw_versions w) (mw_tick w)).
(** INSERT INTO schema_migrations: the version is the primary key. *)
Definition insert_version (v : Z) (w : MWorld) : result goerror (unit * MWorld) :=
  if decide (v ∈ table w) then Err unique_violation
  else Ok (tt, mkMWorld (mw_schema w) (Some (table w ++ [v])) (mw_tick w)).

Definition apply_one (m : migration) : MM unit := λ w,
  match ReadFile (name m) with
  | Err e => (Err (EWrap ("read " +:+ name m) e), w)
  | Ok content =>
    match call (λ w, Ok (tt, w)) w with
    | (Err e, w1) => (Err e, w1)
    | (Ok _, w1) =>
      match wrapping ("apply " +:+ name m) (call (run_script content)) w1 with
      | (Err e, w2) => (Err e, rollback w w2)
      | (Ok _, w2) =>
        match call (insert_version (version m)) w2 with
        | (Err e, w3) => (Err e, rollback w w3)
        | (Ok _, w3) =>
          match commit (mw_tick w3) with
          | Committed => (Ok tt, step w3)
          | CommitFailed e => (Err e, step (rollback w w3))
          | CommitUnknown e => (Err e, step w3)
          end
        end
      end
    end
  end.
Fixpoint apply_all (ms : list migration) : MM unit :=
  match ms with [] => mret tt | m :: ms' => _ ← apply_one m; apply_all ms' end.

Definition Migrate : MM unit :=
  _ ← wrapping "ensure migrations table" ensure_table;
  applied ← read_applied;
  entries ← wrapping "read migrations dir" (λ w, (ReadDir, w));
  pending ← (λ w, (collect applied entries, w));
  apply_all (sort_Slice pending).

(** ** What migrating does *)

(** Running the scripts of [ms] one after the other, with no transaction at all. *)
Fixpoint run_scripts (ms : list migration) (s : Schema) : option Schema :=
  match ms with
  | [] => Some s
  | m :: ms' => c ← ok (ReadFile (name m)); s' ← ok (exec_sql c s); run_scripts ms' s'
  end.

Definition advanced (ms : list migration) (w w' : MWorld) : Prop :=
  run_scripts ms (mw_schema w) = Some (mw_schema w') ∧ table w' = table w ++ map version ms.

Definition listed (m : migration) : Prop :=
  ∃ entries, ReadDir = Ok entries ∧ name m ∈ entries ∧ is_up (name m) = true ∧
    parseVersion Quote (name m) = Ok (version m).

Lemma advanced_refl w w' : mw_schema w' = mw_schema w → table w' = table w → advanced [] w w'.
Proof. intros Hs Ht. split; simpl; [by rewrite Hs|by rewrite Ht, app_nil_r]. Qed.
Lemma advanced_cons m ms w1 w2 w3 : advanced [m] w1 w2 → advanced ms w2 w3 → advanced (m :: ms) w1 w3.
Proof.
  intros [H1 H2] [H3 H4]. split.
  - simpl in *. destruct (ok (ReadFile (name m))); simpl in *; [|done].
    destruct (ok (exec_sql _ _)); simpl in *; [by simplify_eq|done].
  - rewrite H4, H2, <- app_assoc. done.
Qed.

Lemma apply_one_spec m w r w' :
  apply_one m w = (r, w') →
  (r ≠ Ok tt ∧ mw_schema w' = mw_schema w ∧ table w' = table w) ∨
  (advanced [m] w w' ∧ version m ∉ table w).
Proof.
  unfold apply_one, call, wrapping, run_script, insert_version, advanced. simpl.
  destruct (ReadFile (name m)) as [c|e] eqn:Ef; [|intros [= <- <-]; by left].
  destruct (fault _); [intros [= <- <-]; by left|]. simpl.
  destruct (fault _); [intros [= <- <-]; by left|].
  destruct (exec_sql c (mw_schema w)) as [s|e] eqn:Es; simpl; [|intros [= <- <-]; by left].
  destruct (fault _); [intros [= <- <-]; by left|].
  destruct (decide (version m ∈ table _)); simpl; [intros [= <- <-]; by left|].
  destruct (commit _); intros [= <- <-]; [right|by left|right]; done.
Qed.

Lemma apply_all_spec ms w r w' :
  apply_all ms w = (r, w') →
  ∃ done_ rest, ms = done_ ++ rest ∧ advanced done_ w w' ∧
    (NoDup (table w) → NoDup (table w')) ∧ (r = Ok tt → rest = []).
Proof.
  revert w. induction ms as [|m ms IH]; intros w; simpl.
  { intros [= <- <-]. exists [], []. split_and!; try done. by apply advanced_refl. }
  unfold mbind, MM_bind. destruct (apply_one m w) as [r1 w1] eqn:E1.
  apply apply_one_spec in E1 as [(Hr & Hs & Ht)|(Hadv & Hnew)].
  { destruct r1 as [[]|e]; [done|]. intros [= <- <-]. exists [], (m :: ms).
    split_and!; [done|by apply advanced_refl|by rewrite Ht|done]. }
  assert (NoDup (table w) → NoDup (table w1)) as Hnd.
  { destruct Hadv as [_ ->]. intros. apply NoDup_app. split_and!; [done| |apply NoDup_singleton].
    intros x Hx. simpl. rewrite list_elem_of_singleton. by intros ->. }
  destruct r1 as [[]|e].
  - intros (d & rest & -> & Hd & Hn & Hok)%IH. exists (m :: d), rest.
    split_and!; [done|by eapply advanced_cons|by auto|done].
  - intros [= <- <-]. exists [m], ms. by split_and!.
Qed.

Lemma read_rows_subset rows acc w r w' :
  read_rows rows acc w = (r, w') →
  mw_schema w' = mw_schema w ∧ table w' = table w ∧
  ∀ a, r = Ok a → a ⊆ list_to_set rows ∪ acc.
Proof.
  revert acc w. induction rows as [|v rows IH]; intros acc w; simpl.
  { intros [= <- <-]. split_and!; try done. intros a [= <-]. set_solver. }
  destruct (stops _); [intros [= <- <-]; split_and!; try done; intros a [= <-]; set_solver|].
  destruct (fault _); [intros [= <- <-]; by split_and!|].
  intros (Hs & Ht & Ha)%IH. split_and!; [done|done|]. intros a ->. specialize (Ha a eq_refl). set_solver.
Qed.

Lemma read_applied_subset w r w' :
  read_applied w = (r, w') →
  mw_schema w' = mw_schema w ∧ table w' = table w ∧ ∀ a, r = Ok a → ∀ v, v ∈ a → v ∈ table w.
Proof.
  unfold read_applied, mbind, MM_bind, wrapping, call. destruct (fault _); [by intros [= <- <-]|].
  intros (Hs & Ht & Ha)%read_rows_subset. split_and!; [done|done|]. intros a Hr v Hv.
  apply (Ha _ Hr) in Hv. set_solver.
Qed.

Lemma collect_spec applied entries ms :
  collect applied entries = Ok ms →
  (∀ m, m ∈ ms → name m ∈ entries ∧ is_up (name m) = true ∧ parseVersion Quote (name m) = Ok (version m)) ∧
  (∀ n, n ∈ entries → is_up n = true → ∃ v, parseVersion Quote n = Ok v ∧ (v ∈ applied ∨ mkMigration v n ∈ ms)).
Proof.
  revert ms. induction entries as [|n entries IH]; intros ms; simpl.
  { intros [= <-]. split; intros ? ?%elem_of_nil; done. }
  destruct (is_up n) eqn:Eup; simpl.
  2:{ intros Hc%IH. destruct Hc as [H1 H2]. split.
      - intros m Hm. destruct (H1 m Hm). by split; [right|].
      - intros n' [->|Hn]%elem_of_cons Hup; [congruence|by apply H2]. }
  destruct (parseVersion Quote n) as [v|e] eqn:Ev; simpl; [|done].
  destruct (collect applied entries) as [ms'|e]; simpl; [|done]. intros [= <-].
  destruct (IH ms' eq_refl) as [H1 H2]. split.
  - intros m Hm. assert (m = mkMigration v n ∨ m ∈ ms') as [->|Hm'].
    { case_decide; [by right|]. by apply elem_of_cons in Hm. }
    + split_and!; [by left|done..].
    + destruct (H1 m Hm'). by split; [right|].
  - intros n' [->|Hn]%elem_of_cons Hup.
    + exists v. split; [done|]. case_decide; [by left|right; by left].
    + destruct (H2 n' Hn Hup) as (v' & Hv' & Hor). exists v'. split; [done|]. destruct Hor as [?|?]; [by left|].
      right. case_decide; [done|by right].
Qed.

(** Each unit of [Migrate] up to the loop leaves schema and versions alone. *)
Lemma Migrate_run w r w' :
  Migrate w = (r, w') →
  (r ≠ Ok tt ∧ mw_schema w' = mw_schema w ∧ table w' = table w) ∨
  ∃ applied entries pending w1,
    mw_schema w1 = mw_schema w ∧ table w1 = table w ∧ (∀ v, v ∈ applied → v ∈ table w) ∧
    ReadDir = Ok entries ∧ collect applied entries = Ok pending ∧ apply_all (sort_Slice pending) w1 = (r, w').
Proof.
  unfold Migrate, mbind, MM_bind, wrapping, ensure_table.
  destruct (commit _); [|intros [= <- <-]; by left..].
  destruct (read_applied _) as [[applied|e] w1] eqn:Er; apply read_applied_subset in Er as (Hs & Ht & Ha);
    [|intros [= <- <-]; by left].
  destruct ReadDir as [entries|e]; [|intros [= <- <-]; by left].
  destruct (collect applied entries) as [pending|e] eqn:Ec; [|intros [= <- <-]; by left].
  intros E. right. exists applied, entries, pending, w1. split_and!; try done. by apply Ha.
Qed.

Lemma StronglySorted_app_l {A} (R : A → A → Prop) l k : StronglySorted R (l ++ k) → StronglySorted R l.
Proof. intros Hs. induction l as [|a l IH]; [constructor|]. inversion_clear Hs as [|? ? Hs' Hf].
  constructor; [by apply IH|]. by apply Forall_app in Hf as [? _]. Qed.

(** A successful run leaves every [.up.sql] file recorded. *)
Lemma Migrate_records_all w w' :
  Migrate w = (Ok tt, w') → ∀ entries n, ReadDir = Ok entries → n ∈ entries → is_up n = true →
  ∃ v, parseVersion Quote n = Ok v ∧ v ∈ table w'.
Proof.
  intros [(Hr & _)|(applied & entries & pending & w1 & Hs & Ht & Ha & Hdir & Hc & Happ)]%Migrate_run; [done|].
  apply collect_spec in Hc as [_ Hall]. pose proof (sort_Slice_perm pending) as Hperm.
  apply apply_all_spec in Happ as (ms & rest & Hms & [_ Htab] & _ & Hok). rewrite Ht in Htab.
  rewrite (Hok eq_refl), app_nil_r in Hms.
  intros entries' n Hdir' Hn Hup. rewrite Hdir in Hdir'. injection Hdir' as <-.
  destruct (Hall n Hn Hup) as (v & Hv & [Hin|Hin]); exists v; (split; [done|]); rewrite Htab, elem_of_app.
  - left. by apply Ha.
  - right. change v with (version (mkMigration v n)). apply list_elem_of_fmap_2. by rewrite <- Hms, Hperm.
Qed.

(** Versions in order and without duplicates are strictly increasing. *)
Lemma versions_increasing ms :
  StronglySorted (λ m1 m2, version m1 ≤ version m2)%Z ms → NoDup (map version ms) → StronglySorted Z.lt (map version ms).
Proof.
  induction ms as [|m ms IH]; simpl; [constructor|]. intros Hsort Hnd.
  inversion_clear Hsort as [|? ? Hs Hf]. inversion_clear Hnd as [|? ? Hn Hv]. constructor; [by apply IH|].
  apply Forall_forall. intros v (m' & -> & Hm')%list_elem_of_fmap. rewrite Forall_forall in Hf.
  specialize (Hf m' Hm'). simpl in Hf. assert (version m ≠ version m'); [|lia].
  intros E. apply Hn. rewrite E. by apply list_elem_of_fmap_2.
Qed.

(** What was applied, however the run ended. *)
Lemma Migrate_applies w r w' :
  NoDup (table w) → Migrate w = (r, w') →
  NoDup (table w') ∧ ∃ ms, advanced ms w w' ∧ Forall listed ms ∧ StronglySorted Z.lt (map version ms).
Proof.
  intros Hnd [(Hr & Hs & Ht)|(applied & entries & pending & w1 & Hs & Ht & Ha & Hdir & Hc & Happ)]%Migrate_run.
  { rewrite Ht. split; [done|]. exists []. split_and!; [by apply advanced_refl|constructor..]. }
  apply collect_spec in Hc as [Hlist _]. pose proof (sort_Slice_perm pending) as Hperm.
  pose proof (sort_Slice_sorted pending) as Hsort.
  apply apply_all_spec in Happ as (ms & rest & Hms & [Hrun Htab] & Hnd' & _).
  rewrite Hs in Hrun. rewrite Ht in Htab, Hnd'. specialize (Hnd' Hnd).
  split; [done|]. exists ms. split_and!; [done| |].
  - apply Forall_forall. intros m Hm. exists entries. split; [done|]. apply Hlist.
    rewrite <- Hperm, Hms. apply elem_of_app. by left.
  - rewrite Hms in Hsort. apply StronglySorted_app_l in Hsort.
    rewrite Htab in Hnd'. apply NoDup_app in Hnd' as (_ & _ & Hv). by apply versions_increasing.
Qed.

(** C20: whatever fails, [Migrate] applies some listed [.up.sql] files, each as a whole,
    in strictly increasing version order, and records exactly the versions it
    applied, none a second time, even if the list of applied versions was read
    incompletely; the schema is the one these scripts produce.  When it reports
    success every [.up.sql] file of the directory is recorded as applied. *)
Theorem migrate_exactly_once w r w' :
  NoDup (table w) → Migrate w = (r, w') →
  NoDup (table w') ∧
  (∃ ms, advanced ms w w' ∧ Forall listed ms ∧ StronglySorted Z.lt (map version ms)) ∧
  (r = Ok tt → ∀ entries n, ReadDir = Ok entries → n ∈ entries → is_up n = true →
     ∃ v, parseVersion Quote n = Ok v ∧ v ∈ table w').
Proof.
  intros Hnd HM. destruct (Migrate_applies w r w' Hnd HM) as [Hnd' Hms]. split_and!; [done|done|].
  intros ->. by apply (Migrate_records_all w).
Qed.

(** ** Undisturbed runs *)

Definition calm : Prop :=
  (∀ n, fault n = None) ∧ (∀ n, stops n = false) ∧ (∀ n, commit n = Committed).

Lemma read_rows_calm rows acc w :
  calm → ∃ w', read_rows rows acc w = (Ok (list_to_set rows ∪ acc), w') ∧ mw_schema w' = mw_schema w ∧ table w' = table w.
Proof.
  intros (Hf & Hst & _). revert acc w. induction rows as [|v rows IH]; intros acc w; simpl.
  { exists w. by rewrite union_empty_l_L. }
  rewrite Hst, Hf. destruct (IH ({[v]} ∪ acc) (step w)) as (w' & -> & Hs & Ht). exists w'.
  split_and!; [|done..]. do 2 f_equal. set_solver.
Qed.

Lemma apply_one_calm m w c s' :
  calm → ReadFile (name m) = Ok c → exec_sql c (mw_schema w) = Ok s' → version m ∉ table w →
  apply_one m w = (Ok tt, mkMWorld s' (Some (table w ++ [version m])) (S (S (S (S (mw_tick w)))))).
Proof.
  intros (Hf & _ & Hc) Ef Es Hnew. unfold apply_one, wrapping, call, run_script, insert_version.
  rewrite Ef, Hf, Hf. simpl. rewrite Es. simpl. rewrite Hf. unfold table. simpl. rewrite decide_False by done.
  simpl. by rewrite Hc.
Qed.

Lemma apply_all_calm ms w s' :
  calm → run_scripts ms (mw_schema w) = Some s' → NoDup (table w ++ map version ms) →
  ∃ w', apply_all ms w = (Ok tt, w') ∧ mw_schema w' = s' ∧ table w' = table w ++ map version ms.
Proof.
  intros Hcalm. revert w. induction ms as [|m ms IH]; intros w; simpl.
  { intros [= <-] _. exists w. by rewrite app_nil_r. }
  intros Hrun Hnd. destruct (ReadFile (name m)) as [c|] eqn:Ef; simpl in Hrun; [|done].
  destruct (exec_sql c (mw_schema w)) as [s1|] eqn:Es; simpl in Hrun; [|done].
  assert (version m ∉ table w) as Hnew.
  { apply NoDup_app in Hnd as (_ & Hd & _). intros Hin. apply (Hd _ Hin). by left. }
  unfold mbind, MM_bind. rewrite (apply_one_calm m w c s1) by done.
  destruct (IH (mkMWorld s1 (Some (table w ++ [version m])) (S (S (S (S (mw_tick w))))))) as (w' & -> & Hs & Ht).
  - done.
  - unfold table at 1. simpl. by rewrite <- app_assoc.
  - exists w'. split_and!; [done..|]. rewrite Ht. unfold table at 1. simpl. by rewrite <- app_assoc.
Qed.

Lemma Migrate_calm w entries pending s' :
  calm → ReadDir = Ok entries → collect (list_to_set (table w)) entries = Ok pending →
  run_scripts (sort_Slice pending) (mw_schema w) = Some s' → NoDup (table w ++ map version (sort_Slice pending)) →
  ∃ w', Migrate w = (Ok tt, w') ∧ mw_schema w' = s' ∧ table w' = table w ++ map version (sort_Slice pending).
Proof.
  intros Hcalm Hdir Hc Hrun Hnd. pose proof Hcalm as (Hf & _ & Hcm).
  unfold Migrate, mbind, MM_bind, wrapping, ensure_table. rewrite Hcm.
  unfold read_applied, mbind, MM_bind, wrapping, call. rewrite Hf.
  destruct (read_rows_calm (table w) ∅ (step (step (mkMWorld (mw_schema w) (Some (table w)) (mw_tick w)))) Hcalm)
    as (w1 & Hr & Hs & Ht).
  change (table (step (mkMWorld (mw_schema w) (Some (table w)) (mw_tick w)))) with (table w).
  rewrite Hr, union_empty_r_L, Hdir, Hc.
  change (table (step _)) with (table w) in Ht. change (mw_schema (step _)) with (mw_schema w) in Hs.
  destruct (apply_all_calm (sort_Slice pending) w1 s' Hcalm) as (w' & ? & ? & Htab); [by rewrite Hs|by rewrite Ht|].
  exists w'. by rewrite Htab, Ht.
Qed.

Lemma collect_applied applied entries ms :
  collect applied entries = Ok ms → collect (applied ∪ list_to_set (map version ms)) entries = Ok [].
Proof.
  intros Hc. apply collect_spec in Hc as [_ Hall]. remember (applied ∪ _) as all eqn:Eall.
  assert (∀ n, n ∈ entries → is_up n = true → ∃ v, parseVersion Quote n = Ok v ∧ v ∈ all) as Hin.
  { intros n Hn Hup. destruct (Hall n Hn Hup) as (v & Hv & Hor). exists v. split; [done|]. rewrite Eall.
    apply elem_of_union. destruct Hor as [?|Hm]; [by left|]. right. apply elem_of_list_to_set.
    by apply (list_elem_of_fmap_2 version) in Hm. }
  clear -Hin. induction entries as [|n entries IH]; simpl; [done|].
  rewrite IH by (intros; apply Hin; [by right|done]). destruct (is_up n) eqn:Eup; simpl; [|done].
  destruct (Hin n) as (v & -> & Hv); [by left|done|]. simpl. by rewrite decide_True.
Qed.

(** Undisturbed, with distinct versions and scripts that run, [Migrate] succeeds and
    brings the schema to what the pending scripts produce in version order; a
    second [Migrate] succeeds and changes nothing. *)
Theorem migrate_completes w entries pending s' :
  calm → ReadDir = Ok entries → collect (list_to_set (table w)) entries = Ok pending →
  NoDup (table w ++ map version pending) → run_scripts (sort_Slice pending) (mw_schema w) = Some s' →
  ∃ w' w'', Migrate w = (Ok tt, w') ∧ mw_schema w' = s' ∧ table w' = table w ++ map version (sort_Slice pending) ∧
    Migrate w' = (Ok tt, w'') ∧ mw_schema w'' = s' ∧ table w'' = table w'.
Proof.
  intros Hcalm Hdir Hc Hnd Hrun.
  assert (map version (sort_Slice pending) ≡ₚ map version pending) as Hperm by by rewrite sort_Slice_perm.
  assert (NoDup (table w ++ map version (sort_Slice pending))) as Hnd' by by rewrite Hperm.
  destruct (Migrate_calm _ _ _ _ Hcalm Hdir Hc Hrun Hnd') as (w' & HM & Hs & Ht).
  assert (sort_Slice [] = []) as Hnil by (apply Permutation_nil_r, sort_Slice_perm).
  destruct (Migrate_calm w' entries [] s' Hcalm Hdir) as (w'' & HM' & Hs' & Ht').
  - rewrite Ht, list_to_set_app_L, Hperm. by apply collect_applied.
  - by rewrite Hnil, Hs.
  - rewrite Hnil, Ht. by rewrite app_nil_r.
  - exists w', w''. split_and!; try done. by rewrite Ht', Hnil, app_nil_r.
Qed.
End migrate.

(** ** Witnesses *)

#[local] Definition by_version (m1 m2 : migration) : Prop := (version m1 ≤ version m2)%Z.
#[local] Instance by_version_dec m1 m2 : Decision (by_version m1 m2).
Proof. unfold by_version. apply _. Defined.
#[local] Instance by_version_total : Total by_version.
Proof. intros m1 m2. unfold by_version. lia. Qed.
#[local] Instance by_version_trans : Transitive by_version.
Proof. intros m1 m2 m3. unfold by_version. lia. Qed.
Lemma merge_sort_by_version l : StronglySorted (λ m1 m2, version m1 ≤ version m2)%Z (merge_sort by_version l).
Proof. apply (StronglySorted_merge_sort by_version). Qed.
#[local] Instance merge_sort_slice : SortSlice := {|
  sort_Slice := merge_sort by_version;
  sort_Slice_perm := merge_sort_Permutation by_version;
  sort_Slice_sorted := merge_sort_by_version |}.

(** The migrations of the repository, listed by name; a schema is the list of scripts run. *)
#[local] Definition demo_dir : result goerror (list string) :=
  Ok ["0001_catalog.down.sql"; "0001_catalog.up.sql"; "0002_tenant.down.sql"; "0002_tenant.up.sql"].
#[local] Definition demo_read (n : string) : result goerror string := Ok n.
#[local] Definition demo_exec (c : string) (s : list string) : result goerror (list string) := Ok (s ++ [c]).
#[local] Definition demo_migrate (f : nat → option goerror) (st : nat → bool) : MM unit :=
  Migrate demo_exec demo_dir demo_read (λ s, s) f st (λ _, Committed).

Lemma migrate_exactly_once_witness :
  let w := mkMWorld [] (Some [1%Z]) 0 in
  (demo_migrate (λ _, None) (λ n, n =? 2) w).1 = Err (unique_violation) ∧
  NoDup (table (demo_migrate (λ _, None) (λ n, n =? 2) w).2).
Proof.
  intros w. split; [vm_compute; reflexivity|].
  apply (migrate_exactly_once demo_exec demo_dir demo_read (λ s, s) (λ _, None) (λ n, n =? 2) (λ _, Committed) w
    (demo_migrate (λ _, None) (λ n, n =? 2) w).1); [apply NoDup_singleton|apply surjective_pairing].
Defined.

Lemma migrate_completes_witness :
  ∃ w' w'', demo_migrate (λ _, None) (λ _, false) (mkMWorld [] None 0) = (Ok tt, w') ∧
    mw_schema w' = ["0001_catalog.up.sql"; "0002_tenant.up.sql"] ∧
    table w' = [1; 2]%Z ∧
    demo_migrate (λ _, None) (λ _, false) w' = (Ok tt, w'') ∧
    mw_schema w'' = ["0001_catalog.up.sql"; "0002_tenant.up.sql"] ∧ table w'' = table w'.
Proof.
  assert ([1; 2]%Z = table (mkMWorld (Schema := list string) [] None 0) ++ map version
    (sort_Slice [mkMigration 1 "0001_catalog.up.sql"; mkMigration 2 "0002_tenant.up.sql"])) as ->
    by (vm_compute; reflexivity).
  apply (migrate_completes demo_exec demo_dir demo_read (λ s, s) (λ _, None) (λ _, false) (λ _, Committed)
    (mkMWorld [] None 0) ["0001_catalog.down.sql"; "0001_catalog.up.sql"; "0002_tenant.down.sql"; "0002_tenant.up.sql"]
    [mkMigration 1 "0001_catalog.up.sql"; mkMigration 2 "0002_tenant.up.sql"]
    ["0001_catalog.up.sql"; "0002_tenant.up.sql"]).
  - done.
  - reflexivity.
  - vm_compute; reflexivity.
  - apply (bool_decide_unpack _). vm_compute. exact I.
  - vm_compute; reflexivity.
Defined.
