(* ===== verification/Replicas.v ===== *)
(** * Relay replicas running side by side (internal/relay/postgres.go)

    [ClaimBatch] locks the rows it selects until its transaction ends and skips the rows
    others have locked, "so multiple relay replicas never publish the same
    row".  Here any number of replicas take their batches in steps: claim, publish one
    record, mark and commit; each may fail or crash at any point, and other
    transactions add rows in between. *)
From S2P Require Import Prelude GoStrings Apperr Uuid Postgres Relay.

(** ** The steps of [ClaimBatch] *)

Section steps.
Context `{RelayEnv}.

Definition open_batch (lk : uuid → bool) (limit : nat) : M (list OutboxRecord) :=
  _ ← wrap_err "begin" Begin;
  claim_rows lk limit.

(** The end of the transaction, on the committed database [before]. *)
Definition close_batch (before : Database) (ids : list string) : M unit := λ w,
  match wrap_err "mark published" (stmt (mark_published ids)) w with
  | (Err e, w1) => (Err e, set_db w1 before)
  | (Ok _, w1) => wrap_err "commit" (Commit before) w1
  end.

(** Uninterrupted, the steps are [ClaimBatch]. *)
Lemma claim_batch_split limit f w :
  PgStore_ClaimBatch limit f w =
    match rlift (open_batch (locked (S (rw_tick w))) limit) w with
    | (Err e, w1) => (Err e, rset_db w1 (rw_db w))
    | (Ok recs, w1) =>
      if decide (recs = []) then (Ok 0, rset_db w1 (rw_db w))
      else match publish_all f recs w1 with
      | (Err e, w2) => (Err e, rset_db w2 (rw_db w))
      | (Ok ids, w2) =>
        match rlift (close_batch (rw_db w) ids) w2 with
        | (Err e, w3) => (Err e, w3)
        | (Ok _, w3) => (Ok (length recs), w3)
        end
      end
    end.
Proof.
  destruct w as [[d n t] bus]. unfold PgStore_ClaimBatch, open_batch, rwrap at 1, rlift at 1 3, Begin.
  unfold mbind at 1, M_bind at 1, wrap_err at 1. simpl. destruct (fault n); [done|].
  unfold claim_body, select_batch. unfold mbind at 1, RM_bind at 1, rlift at 1. simpl.
  destruct (claim_rows _ _ _) as [[recs|e] w1]; [|done]. destruct (decide (recs = [])); [done|].
  unfold mbind at 1, RM_bind at 1. destruct (publish_all f recs _) as [[ids|e] w2]; [|done].
  unfold mbind, RM_bind, rwrap, rlift, close_batch, wrap_err. destruct (stmt _ _) as [[[]|e] w3]; [|done].
  simpl. by destruct (Commit _ _) as [[]].
Qed.
End steps.

(** ** The fleet *)

Section fleet.
Context `{RelayEnv} (r : Relay).

(** A replica in the middle of a batch: the identifiers of the records it has published, and the
    records it has yet to publish. *)
Record Replica := mkReplica { rp_ids : list string; rp_todo : list OutboxRecord }.
Record Fleet := mkFleet { fl_db : Database; fl_bus : list Msg; fl_relays : gmap nat Replica }.

Definition held (c : Replica) : list string := rp_ids c ++ map rec_ID (rp_todo c).
(** The row locks: what the replicas hold. *)
Definition row_locks (cs : gmap nat Replica) (u : uuid) : bool :=
  existsb (λ ic, bool_decide (uuid_String u ∈ held ic.2)) (map_to_list cs).

Definition claimed (i : nat) (res : result goerror (list OutboxRecord)) (cs : gmap nat Replica) : gmap nat Replica :=
  match res with
  | Ok (rec :: recs) => <[i := mkReplica [] (rec :: recs)]> cs
  | _ => cs
  end.

(** Steps, each at any point [n] of the environment and any transaction time [t]; the flag
    tells that a batch failed. *)
Inductive relay_step : bool → Fleet → Fleet → Prop :=
| step_claim d bus cs i n t res w' :
    cs !! i = None → open_batch (row_locks cs) (Z.to_nat (rl_batch r)) (mkWorld d n t) = (res, w') →
    relay_step false (mkFleet d bus cs) (mkFleet d bus (claimed i res cs))
| step_publish d bus cs i ids rec todo n t w' :
    cs !! i = Some (mkReplica ids (rec :: todo)) →
    publish_record r rec (mkRWorld (mkWorld d n t) bus) = (Ok tt, w') →
    relay_step false (mkFleet d bus cs) (mkFleet d (rw_bus w') (<[i := mkReplica (ids ++ [rec_ID rec]) todo]> cs))
| step_publish_fails d bus cs i ids rec todo n t e w' :
    cs !! i = Some (mkReplica ids (rec :: todo)) →
    publish_record r rec (mkRWorld (mkWorld d n t) bus) = (Err e, w') →
    relay_step true (mkFleet d bus cs) (mkFleet d (rw_bus w') (delete i cs))
| step_commit d bus cs i ids n t w' :
    cs !! i = Some (mkReplica ids []) → close_batch d ids (mkWorld d n t) = (Ok tt, w') →
    relay_step false (mkFleet d bus cs) (mkFleet (w_db w') bus (delete i cs))
| step_commit_fails d bus cs i ids n t e w' :
    cs !! i = Some (mkReplica ids []) → close_batch d ids (mkWorld d n t) = (Err e, w') →
    relay_step true (mkFleet d bus cs) (mkFleet (w_db w') bus (delete i cs))
| step_crash d bus cs i c :
    cs !! i = Some c → relay_step true (mkFleet d bus cs) (mkFleet d bus (delete i cs)).

(** A replica goes on, or a transaction of another program adds rows. *)
Inductive step : bool → Fleet → Fleet → Prop :=
| step_relay b s s' : relay_step b s s' → step b s s'
| step_arrive d bus cs d' new :
    outbox_events d' = outbox_events d ++ new → NoDup (outbox_ids (outbox_events d')) → Forall unpublished new →
    step false (mkFleet d bus cs) (mkFleet d' bus cs).

(** [reach k s]: [s] can be reached from empty tables, with [k] failed batches. *)
Inductive reach : nat → Fleet → Prop :=
| reach_start : reach 0 (mkFleet empty_db [] ∅)
| reach_step k s b s' : reach k s → step b s s' → reach (if b then S k else k) s'.

(** ** The invariant *)

Definition row_id (row : OutboxRow) : string := uuid_String (ob_id row).
Definition copies (row : OutboxRow) (bus : list Msg) : nat := length (filter (λ m, msg_ID m = row_id row) bus).

(** The rows a replica works on. *)
Definition works (d : Database) (c : Replica) (done todo : list OutboxRow) : Prop :=
  rp_ids c = map row_id done ∧ rp_todo c = map to_record todo ∧ NoDup (outbox_ids (done ++ todo)) ∧
  Forall (λ row, row ∈ outbox_events d ∧ unpublished row) (done ++ todo).

(** The message of a row is out: the row is marked, or a replica has sent it and not failed yet. *)
Definition settled (cs : gmap nat Replica) (row : OutboxRow) : Prop :=
  ¬ unpublished row ∨ ∃ i c, cs !! i = Some c ∧ row_id row ∈ rp_ids c.

Record fleet_inv (k : nat) (d : Database) (bus : list Msg) (cs : gmap nat Replica) : Prop := {
  fi_ids : NoDup (outbox_ids (outbox_events d));
  fi_works i c : cs !! i = Some c → ∃ done todo, works d c done todo;
  fi_locks i j c1 c2 u : cs !! i = Some c1 → cs !! j = Some c2 → u ∈ held c1 → u ∈ held c2 → i = j;
  fi_bus m : m ∈ bus → ∃ row, row ∈ outbox_events d ∧ m = message r (to_record row);
  fi_most row : row ∈ outbox_events d → copies row bus ≤ S k ∧ (¬ settled cs row → copies row bus ≤ k);
  fi_least row : row ∈ outbox_events d → settled cs row → 1 ≤ copies row bus
}.

Lemma row_id_inj row row' : row_id row = row_id row' → ob_id row = ob_id row'.
Proof. unfold row_id. intros E%(f_equal uuid_Parse). rewrite !uuid_Parse_String in E. by injection E. Qed.
Lemma row_id_in (l : list OutboxRow) u : u ∈ map row_id l ↔ ∃ row, row ∈ l ∧ u = row_id row.
Proof. rewrite list_elem_of_fmap. naive_solver. Qed.
Lemma held_works d c done todo : works d c done todo → held c = map row_id (done ++ todo).
Proof.
  intros (Hi & Ht & _). unfold held. rewrite Hi, Ht, map_app. f_equal. by rewrite map_map.
Qed.
Lemma row_locks_true cs u : row_locks cs u = true ↔ ∃ i c, cs !! i = Some c ∧ uuid_String u ∈ held c.
Proof.
  unfold row_locks. rewrite existsb_exists. split.
  - intros ([i c] & Hin%list_elem_of_In%elem_of_map_to_list & Hu%bool_decide_eq_true). eauto.
  - intros (i & c & Hc & Hu). exists (i, c). split; [by apply list_elem_of_In, elem_of_map_to_list|by apply bool_decide_eq_true].
Qed.
Lemma copies_app row bus ms : copies row (bus ++ ms) = copies row bus + copies row ms.
Proof. unfold copies. by rewrite filter_app, length_app. Qed.
Lemma copies_message row row' :
  copies row [message r (to_record row')] = if decide (row_id row' = row_id row) then 1 else 0.
Proof. unfold copies, message. simpl. rewrite filter_cons. simpl. unfold row_id. by case_decide. Qed.

(** What a replica holds are rows of the table, not yet published. *)
Lemma works_row d c done todo u :
  works d c done todo → u ∈ held c → ∃ row, row ∈ outbox_events d ∧ unpublished row ∧ u = row_id row.
Proof.
  intros Hw. rewrite (held_works _ _ _ _ Hw). intros (row & Hrow & ->)%row_id_in.
  destruct Hw as (_ & _ & _ & Hall). rewrite Forall_forall in Hall. destruct (Hall _ Hrow). eauto.
Qed.

(** ** Claims *)

Lemma claim_works cs d :
  NoDup (outbox_ids (outbox_events d)) →
  let rows := claim (row_locks cs) (Z.to_nat (rl_batch r)) d in
  works d (mkReplica [] (map to_record rows)) [] rows ∧ Forall (λ row, row_locks cs (ob_id row) = false) rows.
Proof.
  intros Hnd rows. assert (rows ⊆+ filter (claimable (row_locks cs)) (outbox_events d)) as Hsub.
  { unfold rows, claim. rewrite sublist_submseteq by apply sublist_take. by rewrite merge_sort_Permutation. }
  assert (∀ row, row ∈ rows → claimable (row_locks cs) row ∧ row ∈ outbox_events d) as Hin.
  { intros row Hrow. eapply elem_of_submseteq in Hrow; [|exact Hsub]. by apply list_elem_of_filter in Hrow. }
  split; [|apply Forall_forall; intros row Hrow; apply (Hin row Hrow)].
  split_and!; [done|done| |].
  - apply submseteq_Permutation in Hsub as [rest Hp]. pose proof (NoDup_ids_filter (claimable (row_locks cs)) _ Hnd) as Hf.
    unfold outbox_ids in Hf. rewrite Hp, map_app, NoDup_app in Hf. apply Hf.
  - apply Forall_forall. intros row Hrow. destruct (Hin row Hrow) as [[? _] ?]. done.
Qed.

Lemma inv_claim k d bus cs i n t res w' :
  fleet_inv k d bus cs → cs !! i = None →
  open_batch (row_locks cs) (Z.to_nat (rl_batch r)) (mkWorld d n t) = (res, w') →
  fleet_inv k d bus (claimed i res cs).
Proof.
  intros Hi Hn Ho. destruct res as [[|rec recs]|e]; [done| |done].
  assert (rec :: recs = map to_record (claim (row_locks cs) (Z.to_nat (rl_batch r)) d)) as Hrecs.
  { unfold open_batch, mbind, M_bind, wrap_err, Begin in Ho. simpl in Ho. destruct (fault n); [done|].
    eapply (wp_run _ _ _ _ _ (wp_select_rows _ _ _)) in Ho. by destruct Ho as (_ & _ & ->). }
  destruct (claim_works cs d (fi_ids _ _ _ _ Hi)) as [Hw Hfree]. rewrite <- Hrecs in Hw. simpl.
  assert (∀ j c u, cs !! j = Some c → u ∈ held c → u ∉ held (mkReplica [] (rec :: recs))) as Hdis.
  { intros j c u Hc Hu Hu'. rewrite (held_works _ _ _ _ Hw) in Hu'. apply row_id_in in Hu' as (row & Hrow & ->).
    rewrite Forall_forall in Hfree. specialize (Hfree row Hrow). assert (row_locks cs (ob_id row) = true); [|congruence].
    apply row_locks_true. eauto. }
  assert (∀ row, settled (<[i := mkReplica [] (rec :: recs)]> cs) row ↔ settled cs row) as Hset.
  { intros row. unfold settled. apply or_iff_compat_l. split.
    - intros (j & c & Hc & Hrow). apply lookup_insert_Some in Hc as [[<- <-]|[_ Hc]]; [by apply elem_of_nil in Hrow|eauto].
    - intros (j & c & Hc & Hrow). exists j, c. rewrite lookup_insert_ne by congruence. done. }
  split; try apply Hi.
  - intros j c [[<- <-]|[_ Hc]]%lookup_insert_Some; [eauto|by eapply fi_works].
  - intros j1 j2 c1 c2 u [[<- <-]|[_ Hc1]]%lookup_insert_Some [[<- <-]|[_ Hc2]]%lookup_insert_Some Hu1 Hu2;
      [done|by destruct (Hdis j2 c2 u)|by destruct (Hdis j1 c1 u)|by eapply Hi].
  - intros row Hrow. rewrite Hset. by apply Hi.
  - intros row Hrow. rewrite Hset. by apply Hi.
Qed.
(** ** Publishing *)

Lemma publish_bus rec w res w' :
  publish_record r rec w = (res, w') →
  match res with
  | Ok _ => rw_bus w' = rw_bus w ++ [message r rec]
  | Err _ => rw_bus w' = rw_bus w ++ [] ∨ rw_bus w' = rw_bus w ++ [message r rec]
  end.
Proof.
  unfold publish_record, Publish. destruct (publish_result _); intros [= <- <-]; simpl; rewrite ?app_nil_r; auto.
Qed.

(** The record a replica publishes next belongs to a row whose message is not out. *)
Lemma next_row k d bus cs i ids rec todo :
  fleet_inv k d bus cs → cs !! i = Some (mkReplica ids (rec :: todo)) →
  ∃ done row td, rec = to_record row ∧ works d (mkReplica ids (rec :: todo)) done (row :: td) ∧
    row ∈ outbox_events d ∧ ¬ settled cs row.
Proof.
  intros Hi Hc. destruct (fi_works _ _ _ _ Hi _ _ Hc) as (done & td & Hw). pose proof Hw as (Hids & Htd & Hnd & Hall).
  simpl in *. destruct td as [|row td]; [done|]. simpl in Htd. injection Htd as -> ->. exists done, row, td.
  rewrite Forall_app, Forall_cons in Hall. destruct Hall as (_ & [Hin Hu] & _). split_and!; [done..|].
  intros [Hp|(j & c & Hcj & Hj)]; [done|].
  assert (i = j) as <-.
  { apply (fi_locks _ _ _ _ Hi i j _ _ (row_id row) Hc Hcj); unfold held; rewrite elem_of_app; [right; by left|by left]. }
  rewrite Hc in Hcj. injection Hcj as <-. simpl in Hj. rewrite Hids in Hj. apply row_id_in in Hj as (row' & Hrow' & E%row_id_inj).
  unfold outbox_ids in Hnd. rewrite map_app, NoDup_app in Hnd. destruct Hnd as (_ & Hdis & _).
  apply (Hdis (ob_id row)); [rewrite E; by apply (list_elem_of_fmap_2 ob_id)|by left].
Qed.

Lemma copies_le row bus bus' ms : bus' = bus ++ ms → copies row bus ≤ copies row bus'.
Proof. intros ->. rewrite copies_app. lia. Qed.

Lemma inv_publish k d bus cs i ids rec todo :
  fleet_inv k d bus cs → cs !! i = Some (mkReplica ids (rec :: todo)) →
  fleet_inv k d (bus ++ [message r rec]) (<[i := mkReplica (ids ++ [rec_ID rec]) todo]> cs).
Proof.
  intros Hi Hc. destruct (next_row _ _ _ _ _ _ _ _ Hi Hc) as (done & row & td & -> & Hw & Hrow & Hns).
  set (c' := mkReplica (ids ++ [rec_ID (to_record row)]) todo).
  assert (held c' = held (mkReplica ids (to_record row :: todo))) as Hheld by (unfold held, c'; simpl; by rewrite <- app_assoc).
  assert (∀ row', settled (<[i := c']> cs) row' ↔ settled cs row' ∨ row_id row' = row_id row) as Hset.
  { intros row'. unfold settled. split.
    - intros [?|(j & cj & Hcj & Hin)]; [tauto|]. apply lookup_insert_Some in Hcj as [[<- <-]|[_ Hcj]]; [|eauto 6].
      simpl in Hin. apply elem_of_app in Hin as [Hin|Hin%list_elem_of_singleton]; [eauto 7|tauto].
    - intros [[?|(j & cj & Hcj & Hin)]|E]; [tauto| |].
      + right. destruct (decide (i = j)) as [<-|]; [|exists j, cj; by rewrite lookup_insert_ne].
        rewrite Hc in Hcj. injection Hcj as <-. exists i, c'. rewrite lookup_insert_eq. simpl in *. set_solver.
      + right. exists i, c'. rewrite lookup_insert_eq. split; [done|]. simpl. rewrite E. set_solver. }
  split; try apply Hi.
  - intros j cj [[<- <-]|[_ Hcj]]%lookup_insert_Some; [|by eapply fi_works].
    exists (done ++ [row]), td. destruct Hw as (Hids & Htd & Hnd & Hall). simpl in *. injection Htd as ->.
    unfold works. simpl. rewrite Hids, map_app, <- !app_assoc. done.
  - intros j1 j2 c1 c2 u Hc1 Hc2. apply lookup_insert_Some in Hc1 as [[<- <-]|[_ Hc1]], Hc2 as [[<- <-]|[_ Hc2]];
      rewrite ?Hheld; [done|by eapply (fi_locks _ _ _ _ Hi)..].
  - intros m [Hm|Hm%list_elem_of_singleton]%elem_of_app; [by apply Hi|eauto].
  - intros row' Hrow'. rewrite copies_app, copies_message, Hset. destruct (fi_most _ _ _ _ Hi row' Hrow') as [Hle Hun].
    case_decide as E; [|split; [lia|intros Hn; enough (copies row' bus ≤ k) by lia; apply Hun; tauto]].
    assert (row' = row) as -> by (by eapply outbox_ids_inj; [apply Hi| | |by apply row_id_inj]).
    specialize (Hun Hns). split; [lia|]. intros Hn. destruct Hn. tauto.
  - intros row' Hrow'. rewrite copies_app, copies_message, Hset. intros [Hs|E].
    + pose proof (fi_least _ _ _ _ Hi row' Hrow' Hs). lia.
    + rewrite decide_True by done. lia.
Qed.
(** ** The end of a batch *)

Lemma settled_delete cs i row : settled (delete i cs) row → settled cs row.
Proof. intros [?|(j & c & [_ Hc]%lookup_delete_Some & ?)]; [by left|right; eauto]. Qed.

(** A batch that fails, after putting the messages [ms] on the bus last. *)
Lemma inv_abort k d bus cs i ms :
  fleet_inv k d bus cs →
  (∀ m, m ∈ ms → ∃ row, row ∈ outbox_events d ∧ m = message r (to_record row)) →
  (∀ row, row ∈ outbox_events d → copies row (bus ++ ms) ≤ S k) →
  fleet_inv (S k) d (bus ++ ms) (delete i cs).
Proof.
  intros Hi Hms Hle. split; try apply Hi.
  - intros j c [_ Hc]%lookup_delete_Some. by eapply fi_works.
  - intros j1 j2 c1 c2 u [_ Hc1]%lookup_delete_Some [_ Hc2]%lookup_delete_Some. by eapply Hi.
  - intros m [Hm|Hm]%elem_of_app; [by apply Hi|by apply Hms].
  - intros row Hrow. specialize (Hle row Hrow). split; [lia|done].
  - intros row Hrow Hs%settled_delete. rewrite copies_app. pose proof (fi_least _ _ _ _ Hi row Hrow Hs). lia.
Qed.

Lemma mark_settled d cs i c done us t row :
  cs !! i = Some c → works d c done [] → us = outbox_ids done →
  settled (delete i cs) (mark_row us t row) ↔ settled cs row.
Proof.
  intros Hc (Hids & _) ->. unfold settled, row_id. rewrite mark_row_unpublished, mark_row_id.
  assert (ob_id row ∈ outbox_ids done ↔ uuid_String (ob_id row) ∈ rp_ids c) as Hin.
  { rewrite Hids, row_id_in, in_outbox_ids. split.
    - intros (x & Hx & <-). by exists x.
    - intros (x & Hx & E). exists x. split; [done|]. symmetry. by apply (row_id_inj row x). }
  split.
  - intros [Hn|(j & cj & [_ Hcj]%lookup_delete_Some & Hj)]; [|right; eauto].
    destruct (decide (unpublished row)); [|by left]. destruct (decide (ob_id row ∈ outbox_ids done)) as [Hd|]; [|tauto].
    right. exists i, c. split; [done|]. by apply Hin.
  - intros [?|(j & cj & Hcj & Hj)]; [left; tauto|]. destruct (decide (i = j)) as [<-|Hne].
    + left. rewrite Hc in Hcj. injection Hcj as <-. apply Hin in Hj. tauto.
    + right. exists j, cj. by rewrite lookup_delete_ne.
Qed.

Lemma inv_marked k d bus cs i c done t :
  fleet_inv k d bus cs → cs !! i = Some c → works d c done [] →
  fleet_inv k (set_outbox d (map (mark_row (outbox_ids done) t) (outbox_events d))) bus (delete i cs).
Proof.
  intros Hi Hc Hw.
  assert (∀ row, row ∈ map (mark_row (outbox_ids done) t) (outbox_events d) →
    ∃ row0, row = mark_row (outbox_ids done) t row0 ∧ row0 ∈ outbox_events d) as Hmap
    by (intros row (row0 & ? & ?)%list_elem_of_fmap; eauto).
  assert (∀ row, row ∈ outbox_events d → mark_row (outbox_ids done) t row ∈ map (mark_row (outbox_ids done) t) (outbox_events d))
    as Hmap2 by (intros row Hrow; by apply list_elem_of_fmap_2).
  assert (∀ row, copies (mark_row (outbox_ids done) t row) bus = copies row bus) as Hcop
    by (intros row; unfold copies, row_id; by rewrite mark_row_id).
  split; simpl.
  - rewrite mark_row_ids. apply Hi.
  - intros j cj [Hne Hcj]%lookup_delete_Some. destruct (fi_works _ _ _ _ Hi _ _ Hcj) as (dj & tj & Hwj).
    pose proof Hwj as (H1 & H2 & H3 & H4). exists dj, tj. split_and!; [done..|]. apply Forall_forall. intros row Hrow.
    rewrite Forall_forall in H4. destruct (H4 row Hrow) as [Hin Hu]. split; [|done].
    replace row with (mark_row (outbox_ids done) t row); [by apply Hmap2|]. apply mark_row_other. intros (x & Hx & E)%in_outbox_ids.
    apply Hne, (fi_locks _ _ _ _ Hi i j c cj (row_id row)); [done|done| |].
    + rewrite (held_works _ _ _ _ Hw), app_nil_r. apply row_id_in. exists x. split; [done|]. unfold row_id. by rewrite E.
    + rewrite (held_works _ _ _ _ Hwj). apply row_id_in. eauto.
  - intros j1 j2 c1 c2 u [_ Hc1]%lookup_delete_Some [_ Hc2]%lookup_delete_Some. by eapply Hi.
  - intros m (row & Hrow & ->)%(fi_bus _ _ _ _ Hi). eexists. split; [by apply Hmap2|]. by rewrite mark_row_record.
  - intros row (row0 & -> & Hrow)%Hmap. rewrite Hcop, (mark_settled d cs i c done) by done. by apply Hi.
  - intros row (row0 & -> & Hrow)%Hmap. rewrite Hcop, (mark_settled d cs i c done) by done. by apply Hi.
Qed.

(** The outcomes of [close_batch]: nothing, or the batch marked; marked if it succeeds. *)
Lemma close_batch_db d c done n t res w' :
  works d c done [] → close_batch d (rp_ids c) (mkWorld d n t) = (res, w') →
  (w_db w' = d ∧ ∃ e, res = Err e) ∨
  w_db w' = set_outbox d (map (mark_row (outbox_ids done) t) (outbox_events d)).
Proof.
  intros (-> & _). unfold close_batch, wrap_err, stmt. simpl. destruct (fault n); [intros [= <- <-]; eauto|].
  unfold mark_published. replace (map row_id done) with (map rec_ID (map to_record done)) by (by rewrite map_map).
  rewrite mapM_parse_ids. simpl. unfold Commit. simpl. destruct (commit _); intros [= <- <-]; simpl; eauto.
Qed.

Lemma inv_arrive k d bus cs d' new :
  fleet_inv k d bus cs → outbox_events d' = outbox_events d ++ new →
  NoDup (outbox_ids (outbox_events d')) → Forall unpublished new → fleet_inv k d' bus cs.
Proof.
  intros Hi Hd Hnd Hu.
  assert (∀ row row', row ∈ new → row' ∈ outbox_events d → row_id row ≠ row_id row') as Hnew.
  { intros row row' Hrow Hrow' E%row_id_inj. unfold outbox_ids in Hnd. rewrite Hd, map_app, NoDup_app in Hnd.
    destruct Hnd as (_ & Hdis & _). apply (Hdis (ob_id row')); [by apply (list_elem_of_fmap_2 ob_id)|].
    rewrite <- E. by apply (list_elem_of_fmap_2 ob_id). }
  assert (∀ row, row ∈ new → copies row bus = 0 ∧ ¬ settled cs row) as Hzero.
  { intros row Hrow. split.
    - unfold copies. destruct (filter _ bus) as [|m l] eqn:Ef; [done|exfalso].
      assert (m ∈ filter (λ m, msg_ID m = row_id row) bus) as [E Hm]%list_elem_of_filter by (rewrite Ef; left).
      apply (fi_bus _ _ _ _ Hi) in Hm as (row' & Hrow' & ->). simpl in E. by apply (Hnew row row').
    - intros [Hp|(i & c & Hc & Hin)]; [by rewrite Forall_forall in Hu; apply Hp, Hu|].
      destruct (fi_works _ _ _ _ Hi _ _ Hc) as (done & todo & Hw).
      destruct (works_row _ _ _ _ (row_id row) Hw) as (row' & Hrow' & _ & E); [unfold held; set_solver|].
      by apply (Hnew row row'). }
  split; [done| |apply Hi|..]; rewrite ?Hd.
  - intros i c Hc. destruct (fi_works _ _ _ _ Hi _ _ Hc) as (done & todo & H1 & H2 & H3 & H4). exists done, todo.
    split_and!; [done..|]. eapply Forall_impl; [exact H4|]. intros row [? ?]. rewrite Hd, elem_of_app. auto.
  - intros m (row & Hrow & ->)%(fi_bus _ _ _ _ Hi). exists row. rewrite elem_of_app. auto.
  - intros row [Hrow|Hrow]%elem_of_app; [by apply Hi|]. destruct (Hzero row Hrow). lia.
  - intros row [Hrow|Hrow]%elem_of_app; [by apply Hi|]. by destruct (Hzero row Hrow).
Qed.
Lemma relay_step_inv k b s s' :
  relay_step b s s' → fleet_inv k (fl_db s) (fl_bus s) (fl_relays s) →
  fleet_inv (if b then S k else k) (fl_db s') (fl_bus s') (fl_relays s').
Proof.
  intros Hs IH. destruct Hs as [d bus cs i n t res w' Hn Ho|d bus cs i ids rec todo n t w' Hc Hp|d bus cs i ids rec todo n t e w' Hc Hp|
      d bus cs i ids n t w' Hc Hcl|d bus cs i ids n t e w' Hc Hcl|d bus cs i c Hc]; simpl in *.
  - by eapply inv_claim.
  - apply publish_bus in Hp. rewrite Hp. by apply inv_publish.
  - apply publish_bus in Hp as [Hp|Hp]; rewrite Hp; simpl; apply inv_abort; try done.
    + intros m Hm. by apply elem_of_nil in Hm.
    + intros row Hrow. rewrite app_nil_r. by apply IH.
    + destruct (next_row _ _ _ _ _ _ _ _ IH Hc) as (done & row & td & -> & _ & Hrow & _).
        intros m Hm%list_elem_of_singleton. eauto.
    + intros row Hrow. pose proof (inv_publish _ _ _ _ _ _ _ _ IH Hc) as Hi. by apply Hi.
  - destruct (fi_works _ _ _ _ IH _ _ Hc) as (done & todo & Hw). pose proof Hw as (_ & Ht & _).
      destruct todo; [|done]. destruct (close_batch_db _ _ _ _ _ _ _ Hw Hcl) as [[_ [e ?]]| ->]; [done|]. by eapply inv_marked.
  - destruct (fi_works _ _ _ _ IH _ _ Hc) as (done & todo & Hw). pose proof Hw as (_ & Ht & _). destruct todo; [|done].
      rewrite <- (app_nil_r bus).
      destruct (close_batch_db _ _ _ _ _ _ _ Hw Hcl) as [[-> _]| ->];
        [apply inv_abort; [done|intros m Hm; by apply elem_of_nil in Hm|intros row Hrow; rewrite app_nil_r; by apply IH]|].
      pose proof (inv_marked _ _ _ _ _ _ _ t IH Hc Hw) as Hm. rewrite app_nil_r.
      destruct Hm as [? ? ? ? Hmost ?]. split; try done. intros row Hrow. destruct (Hmost row Hrow) as [? Hun].
      split; [lia|]. intros Hn. specialize (Hun Hn). lia.
  - rewrite <- (app_nil_r bus). apply inv_abort; [done|intros m Hm; by apply elem_of_nil in Hm|].
      intros row Hrow. rewrite app_nil_r. by apply IH.
Qed.

Lemma empty_fleet_inv : fleet_inv 0 empty_db [] ∅.
Proof. split; simpl; [apply NoDup_nil_2|done|done|..]; intros ? Hm; by apply elem_of_nil in Hm. Qed.

Lemma reach_inv k s : reach k s → fleet_inv k (fl_db s) (fl_bus s) (fl_relays s).
Proof.
  induction 1 as [|k s b s' _ IH Hs]; [apply empty_fleet_inv|].
  destruct Hs as [b s s' Hs|d bus cs d' new Hd Hnd Hu]; [by eapply relay_step_inv|by eapply inv_arrive].
Qed.

(** A batch that ends marks rows or changes nothing. *)
Lemma marked_refl d : marked d d.
Proof. exists [], 0%Z. by rewrite mark_row_nil, set_outbox_id. Qed.

Lemma close_batch_marked d ids n t res w' : close_batch d ids (mkWorld d n t) = (res, w') → marked d (w_db w').
Proof.
  unfold close_batch, wrap_err, stmt. simpl. destruct (fault n); [intros [= <- <-]; apply marked_refl|].
  unfold mark_published. destruct (mapM uuid_Parse ids) as [us|]; [|intros [= <- <-]; apply marked_refl].
  unfold Commit. simpl. destruct (commit _); intros [= <- <-]; simpl; [by exists us, t|apply marked_refl|by exists us, t].
Qed.

Lemma relay_step_marked b s s' : relay_step b s s' → marked (fl_db s) (fl_db s').
Proof. destruct 1; simpl; eauto using marked_refl, close_batch_marked. Qed.

(** Any number of relay replicas running side by side, each claiming, publishing and
    committing batches under arbitrary failures and crashes: no row is ever in the hands of two
    replicas; every row marked as published has its message on the bus; the bus
    carries only messages of outbox rows; and after [k] failed batches the message of a row
    is there at most [k + 1] times.  Without failures it is there exactly
    once for every row that is marked. *)
Theorem replicas_publish_once k s :
  reach k s →
  (∀ i j c1 c2 u, fl_relays s !! i = Some c1 → fl_relays s !! j = Some c2 → u ∈ held c1 → u ∈ held c2 → i = j) ∧
  (∀ m, m ∈ fl_bus s → ∃ row, row ∈ outbox_events (fl_db s) ∧ m = message r (to_record row)) ∧
  (∀ row, row ∈ outbox_events (fl_db s) → copies row (fl_bus s) ≤ S k ∧
    (¬ unpublished row → 1 ≤ copies row (fl_bus s) ∧ (k = 0 → copies row (fl_bus s) = 1))).
Proof.
  intros Hi%reach_inv. split_and!; [apply Hi|apply Hi|]. intros row Hrow.
  destruct (fi_most _ _ _ _ Hi row Hrow) as [Hle _]. split; [done|]. intros Hp.
  assert (1 ≤ copies row (fl_bus s)) by (apply Hi; [done|by left]). split; [done|]. lia.
Qed.
End fleet.

(** ** Executing schedules *)

Section schedules.
Context `{RelayEnv} (r : Relay).

Inductive Turn : Type :=
| TClaim (i n : nat) (t : Z)
| TPublish (i n : nat) (t : Z)
| TCommit (i n : nat) (t : Z)
| TCrash (i : nat)
| TArrive (new : list OutboxRow).

Definition take_turn (s : Fleet) (a : Turn) : option (bool * Fleet) :=
  let d := fl_db s in
  let bus := fl_bus s in
  let cs := fl_relays s in
  match a with
  | TClaim i n t =>
    if decide (cs !! i = None)
    then Some (false, mkFleet d bus (claimed i (open_batch (row_locks cs) (Z.to_nat (rl_batch r)) (mkWorld d n t)).1 cs))
    else None
  | TPublish i n t =>
    match cs !! i with
    | Some (mkReplica ids (rec :: todo)) =>
      match publish_record r rec (mkRWorld (mkWorld d n t) bus) with
      | (Ok _, w') => Some (false, mkFleet d (rw_bus w') (<[i := mkReplica (ids ++ [rec_ID rec]) todo]> cs))
      | (Err _, w') => Some (true, mkFleet d (rw_bus w') (delete i cs))
      end
    | _ => None
    end
  | TCommit i n t =>
    match cs !! i with
    | Some (mkReplica ids []) =>
      match close_batch d ids (mkWorld d n t) with
      | (Ok _, w') => Some (false, mkFleet (w_db w') bus (delete i cs))
      | (Err _, w') => Some (true, mkFleet (w_db w') bus (delete i cs))
      end
    | _ => None
    end
  | TCrash i =>
    match cs !! i with Some _ => Some (true, mkFleet d bus (delete i cs)) | None => None end
  | TArrive new =>
    if decide (NoDup (outbox_ids (outbox_events d ++ new)) ∧ Forall unpublished new)
    then Some (false, mkFleet (set_outbox d (outbox_events d ++ new)) bus cs) else None
  end.

Definition is_relay (a : Turn) : Prop := match a with TArrive _ => False | _ => True end.

Lemma take_turn_relay s a b s' : is_relay a → take_turn s a = Some (b, s') → relay_step r b s s'.
Proof.
  destruct s as [d bus cs]. destruct a as [i n t|i n t|i n t|i|new]; simpl; [intros _..|done].
  - case_decide; [|done]. intros [= <- <-]. eapply step_claim; [done|apply surjective_pairing].
  - destruct (cs !! i) as [[ids [|rec todo]]|] eqn:Hc; try done.
    destruct (publish_record r rec _) as [[[]|e] w'] eqn:Hp; intros [= <- <-]; [by eapply step_publish|by eapply step_publish_fails].
  - destruct (cs !! i) as [[ids [|rec todo]]|] eqn:Hc; try done.
    destruct (close_batch d ids _) as [[[]|e] w'] eqn:Hp; intros [= <- <-]; [by eapply step_commit|by eapply step_commit_fails].
  - destruct (cs !! i) as [c|] eqn:Hc; [|done]. intros [= <- <-]. by eapply step_crash.
Qed.

Lemma take_turn_step s a b s' : take_turn s a = Some (b, s') → step r b s s'.
Proof.
  intros E. destruct a as [i n t|i n t|i n t|i|new] eqn:Ea; [by apply step_relay, (take_turn_relay _ a); subst..|].
  destruct s as [d bus cs]. simpl in E. case_decide as Hn; [|done]. injection E as <- <-. destruct Hn.
  by apply step_arrive with (new := new).
Qed.

Fixpoint take_turns (l : list Turn) (k : nat) (s : Fleet) : option (nat * Fleet) :=
  match l with
  | [] => Some (k, s)
  | a :: l => match take_turn s a with Some (b, s') => take_turns l (if b then S k else k) s' | None => None end
  end.

Lemma take_turns_reach l k s k' s' : reach r k s → take_turns l k s = Some (k', s') → reach r k' s'.
Proof.
  revert k s. induction l as [|a l IH]; simpl; intros k s Hr; [by intros [= <- <-]|].
  destruct (take_turn s a) as [[b s1]|] eqn:E; [|done]. apply IH. eapply reach_step; [done|]. by apply take_turn_step in E.
Qed.
End schedules.

#[local] Existing Instance demo_uuid.

(** Two replicas with batches of two share three rows; the second one crashes after it has
    published, and its row goes out again with the first one's next batch. *)
#[local] Definition demo_turns : list Turn :=
  [TArrive [Relay.demo_row "a" 3; Relay.demo_row "b" 1; Relay.demo_row "c" 2];
   TClaim 1 1 0; TClaim 2 1 0; TPublish 2 1 0; TPublish 1 2 0; TCrash 2; TPublish 1 3 0; TCommit 1 4 7;
   TClaim 1 1 0; TPublish 1 2 0; TCommit 1 3 8].
#[local] Definition demo_end : option (nat * Fleet) :=
  @take_turns _ (Relay.demo_relay_env (λ _, PubAck)) Relay.demo_relay demo_turns 0 (mkFleet empty_db [] ∅).

Lemma replicas_publish_once_witness :
  ∃ s, demo_end = Some (1, s) ∧
    map msg_ID (fl_bus s) = ["ua"; "ub"; "uc"; "ua"] ∧
    ∀ row, row ∈ outbox_events (fl_db s) → copies row (fl_bus s) ≤ 2.
Proof.
  destruct demo_end as [[k s]|] eqn:E; [|exfalso; revert E; vm_compute; discriminate].
  assert ((λ x, (x.1, map msg_ID (fl_bus x.2))) <$> demo_end = Some (1, ["ua"; "ub"; "uc"; "ua"])) as E1
    by (vm_compute; reflexivity).
  rewrite E in E1. simpl in E1. injection E1 as -> Hbus. exists s. split_and!; [done|done|].
  intros row Hrow. eapply (@replicas_publish_once _ (Relay.demo_relay_env (λ _, PubAck)) Relay.demo_relay 1 s); [|done].
  eapply (@take_turns_reach _ (Relay.demo_relay_env (λ _, PubAck))); [constructor|exact E].
Defined.
