(* ===== verification/Provisioning.v ===== *)
(** * Tenant provisioning (internal/provisioning)

    The saga [ProvisionTenantWorkflow] over a provisioner.  [Provisioner] is the
    interface the activities call, with the laws a provisioner owes the saga:
    each call adds or removes one resource of one tenant, or fails without
    effect.  [SimulatedProvisioner] is the implementation of the repository.
    Temporal is outside the repository: the class [Temporal] decides, for every
    attempt of an activity, whether it runs, is lost before it runs, or runs and
    has its result lost, and when the workflow is cancelled. *)
From S2P Require Import Prelude GoStrings Apperr.

(** ** types.go *)

Record ProvisionTenantInput := mkProvisionTenantInput { pt_Slug : string; pt_MaxServices : Z }.
Record ProvisionTenantResult := mkProvisionTenantResult { pt_Namespace : string; pt_Endpoint : string }.
Record NamespaceRequest := mkNamespaceRequest { nr_Slug : string }.
Record NamespaceResult := mkNamespaceResult { nr_Name : string }.
Record QuotaRequest := mkQuotaRequest { qr_Slug : string; qr_MaxServices : Z }.
Record DNSRequest := mkDNSRequest { dr_Slug : string }.
Record DNSResult := mkDNSResult { dr_FQDN : string }.
Record SecretRequest := mkSecretRequest { sec_Slug : string }.
Record FinalizeRequest := mkFinalizeRequest { fr_Slug : string }.

(** ** The interface *)

Inductive Resource : Type := Namespace | Quota | DNS | Secret.
#[export] Instance Resource_eq_dec : EqDecision Resource.
Proof. solve_decision. Defined.

Section specs.
Context {S : Type} (present : S → Resource → string → Prop).

Definition same_resources (s s' : S) : Prop := ∀ R t, present s' R t ↔ present s R t.
Definition added (X : Resource) (slug : string) (s s' : S) : Prop :=
  ∀ R t, present s' R t ↔ (R = X ∧ t = slug) ∨ present s R t.
Definition removed (X : Resource) (slug : string) (s s' : S) : Prop :=
  ∀ R t, present s' R t ↔ ¬ (R = X ∧ t = slug) ∧ present s R t.

(** A call has the effect when it succeeds and none when it fails. *)
Definition effect {A} (eff : S → S → Prop) (op : S → result goerror A * S) : Prop :=
  ∀ s, let '(r, s') := op s in
    match r with Ok _ => eff s s' | Err _ => same_resources s s' end.

#[global] Instance same_resources_equiv : Equivalence same_resources.
Proof.
  split; [done|intros s1 s2 E R t; symmetry; apply E|intros s1 s2 s3 E1 E2 R t; by rewrite (E2 R t), (E1 R t)].
Qed.
End specs.

Class Provisioner := {
  prov : Type;
  CreateNamespace : string → prov → result goerror string * prov;
  DeleteNamespace : string → prov → result goerror unit * prov;
  ApplyQuota : string → Z → prov → result goerror unit * prov;
  RemoveQuota : string → prov → result goerror unit * prov;
  RegisterDNS : string → prov → result goerror string * prov;
  DeregisterDNS : string → prov → result goerror unit * prov;
  CreateSecretPath : string → prov → result goerror unit * prov;
  DeleteSecretPath : string → prov → result goerror unit * prov;
  Finalize : string → prov → result goerror unit * prov;
  present : prov → Resource → string → Prop;
  law_CreateNamespace t : effect present (added present Namespace t) (CreateNamespace t);
  law_DeleteNamespace t : effect present (removed present Namespace t) (DeleteNamespace t);
  law_ApplyQuota t n : effect present (added present Quota t) (ApplyQuota t n);
  law_RemoveQuota t : effect present (removed present Quota t) (RemoveQuota t);
  law_RegisterDNS t : effect present (added present DNS t) (RegisterDNS t);
  law_DeregisterDNS t : effect present (removed present DNS t) (DeregisterDNS t);
  law_CreateSecretPath t : effect present (added present Secret t) (CreateSecretPath t);
  law_DeleteSecretPath t : effect present (removed present Secret t) (DeleteSecretPath t);
  law_Finalize t : effect present (same_resources present) (Finalize t)
}.

(** ** The simulated provisioner *)

Definition dnsZone : string := "forge.example.com".

Record SimulatedProvisioner := mkSimulatedProvisioner {
  namespaces : gmap string bool;
  quotas : gmap string Z;
  dns : gmap string bool;
  secrets : gmap string bool;
  FailRegisterDNS : bool
}.

Definition NewSimulatedProvisioner : SimulatedProvisioner := mkSimulatedProvisioner ∅ ∅ ∅ ∅ false.

Module Sim.
Definition set_namespaces p x := mkSimulatedProvisioner x (quotas p) (dns p) (secrets p) (FailRegisterDNS p).
Definition set_quotas p x := mkSimulatedProvisioner (namespaces p) x (dns p) (secrets p) (FailRegisterDNS p).
Definition set_dns p x := mkSimulatedProvisioner (namespaces p) (quotas p) x (secrets p) (FailRegisterDNS p).
Definition set_secrets p x := mkSimulatedProvisioner (namespaces p) (quotas p) (dns p) x (FailRegisterDNS p).

(** [%q] of a string without characters to escape. *)
Definition quoted (s : string) : string := String dquote (s +:+ String dquote "").

Definition CreateNamespace (slug : string) (p : SimulatedProvisioner) : result goerror string * SimulatedProvisioner :=
  let name := "tenant-" +:+ slug in
  (Ok name, set_namespaces p (<[slug := true]> (namespaces p))).
Definition DeleteNamespace (slug : string) (p : SimulatedProvisioner) : result goerror unit * SimulatedProvisioner :=
  (Ok tt, set_namespaces p (delete slug (namespaces p))).
Definition ApplyQuota (slug : string) (maxServices : Z) (p : SimulatedProvisioner) : result goerror unit * SimulatedProvisioner :=
  (Ok tt, set_quotas p (<[slug := maxServices]> (quotas p))).
Definition RemoveQuota (slug : string) (p : SimulatedProvisioner) : result goerror unit * SimulatedProvisioner :=
  (Ok tt, set_quotas p (delete slug (quotas p))).
Definition RegisterDNS (slug : string) (p : SimulatedProvisioner) : result goerror string * SimulatedProvisioner :=
  if FailRegisterDNS p
  then (Err (EOther ("dns provider unavailable for " +:+ quoted slug)), p)
  else
    let fqdn := slug +:+ "." +:+ dnsZone in
    (Ok fqdn, set_dns p (<[slug := true]> (dns p))).
Definition DeregisterDNS (slug : string) (p : SimulatedProvisioner) : result goerror unit * SimulatedProvisioner :=
  (Ok tt, set_dns p (delete slug (dns p))).
Definition CreateSecretPath (slug : string) (p : SimulatedProvisioner) : result goerror unit * SimulatedProvisioner :=
  (Ok tt, set_secrets p (<[slug := true]> (secrets p))).
Definition DeleteSecretPath (slug : string) (p : SimulatedProvisioner) : result goerror unit * SimulatedProvisioner :=
  (Ok tt, set_secrets p (delete slug (secrets p))).
Definition Finalize (slug : string) (p : SimulatedProvisioner) : result goerror unit * SimulatedProvisioner :=
  (Ok tt, p).

(** Inspection helpers. *)
Definition has (m : gmap string bool) (slug : string) : bool := default false (m !! slug).
Definition HasNamespace (p : SimulatedProvisioner) (slug : string) : bool := has (namespaces p) slug.
Definition HasDNS (p : SimulatedProvisioner) (slug : string) : bool := has (dns p) slug.
Definition HasSecret (p : SimulatedProvisioner) (slug : string) : bool := has (secrets p) slug.
Definition HasQuota (p : SimulatedProvisioner) (slug : string) : bool := bool_decide (is_Some (quotas p !! slug)).

Definition has_resource (p : SimulatedProvisioner) (R : Resource) (slug : string) : Prop :=
  match R with
  | Namespace => HasNamespace p slug = true
  | Quota => HasQuota p slug = true
  | DNS => HasDNS p slug = true
  | Secret => HasSecret p slug = true
  end.

Lemma has_insert m t u : has (<[t := true]> m) u = true ↔ u = t ∨ has m u = true.
Proof. unfold has. destruct (decide (t = u)) as [->|]; [rewrite lookup_insert_eq|rewrite lookup_insert_ne by done]; simpl; naive_solver. Qed.
Lemma has_delete m t u : has (delete t m) u = true ↔ u ≠ t ∧ has m u = true.
Proof. unfold has. destruct (decide (t = u)) as [->|]; [rewrite lookup_delete_eq|rewrite lookup_delete_ne by done]; simpl; naive_solver. Qed.
Lemma quota_insert (m : gmap string Z) t u n : is_Some (<[t := n]> m !! u) ↔ u = t ∨ is_Some (m !! u).
Proof. rewrite lookup_insert_is_Some. destruct (decide (t = u)); naive_solver. Qed.
Lemma quota_delete (m : gmap string Z) t u : is_Some (delete t m !! u) ↔ u ≠ t ∧ is_Some (m !! u).
Proof. rewrite lookup_delete_is_Some. naive_solver. Qed.
End Sim.

Ltac solve_sim_law :=
  intros p; simpl; try done; intros R u; destruct R; simpl;
  unfold Sim.HasNamespace, Sim.HasDNS, Sim.HasSecret, Sim.HasQuota; simpl;
  rewrite ?Sim.has_insert, ?Sim.has_delete, ?bool_decide_eq_true, ?Sim.quota_insert, ?Sim.quota_delete;
  naive_solver.

Lemma sim_CreateNamespace t : effect Sim.has_resource (added Sim.has_resource Namespace t) (Sim.CreateNamespace t).
Proof. solve_sim_law. Qed.
Lemma sim_DeleteNamespace t : effect Sim.has_resource (removed Sim.has_resource Namespace t) (Sim.DeleteNamespace t).
Proof. solve_sim_law. Qed.
Lemma sim_ApplyQuota t n : effect Sim.has_resource (added Sim.has_resource Quota t) (Sim.ApplyQuota t n).
Proof. solve_sim_law. Qed.
Lemma sim_RemoveQuota t : effect Sim.has_resource (removed Sim.has_resource Quota t) (Sim.RemoveQuota t).
Proof. solve_sim_law. Qed.
Lemma sim_RegisterDNS t : effect Sim.has_resource (added Sim.has_resource DNS t) (Sim.RegisterDNS t).
Proof.
  intros p. unfold Sim.RegisterDNS. destruct (FailRegisterDNS p); [done|revert p; solve_sim_law].
Qed.
Lemma sim_DeregisterDNS t : effect Sim.has_resource (removed Sim.has_resource DNS t) (Sim.DeregisterDNS t).
Proof. solve_sim_law. Qed.
Lemma sim_CreateSecretPath t : effect Sim.has_resource (added Sim.has_resource Secret t) (Sim.CreateSecretPath t).
Proof. solve_sim_law. Qed.
Lemma sim_DeleteSecretPath t : effect Sim.has_resource (removed Sim.has_resource Secret t) (Sim.DeleteSecretPath t).
Proof. solve_sim_law. Qed.
Lemma sim_Finalize t : effect Sim.has_resource (same_resources Sim.has_resource) (Sim.Finalize t).
Proof. done. Qed.

#[export] Instance simulated : Provisioner :=
  {| prov := SimulatedProvisioner; present := Sim.has_resource;
     CreateNamespace := Sim.CreateNamespace; law_CreateNamespace := sim_CreateNamespace;
     DeleteNamespace := Sim.DeleteNamespace; law_DeleteNamespace := sim_DeleteNamespace;
     ApplyQuota := Sim.ApplyQuota; law_ApplyQuota := sim_ApplyQuota;
     RemoveQuota := Sim.RemoveQuota; law_RemoveQuota := sim_RemoveQuota;
     RegisterDNS := Sim.RegisterDNS; law_RegisterDNS := sim_RegisterDNS;
     DeregisterDNS := Sim.DeregisterDNS; law_DeregisterDNS := sim_DeregisterDNS;
     CreateSecretPath := Sim.CreateSecretPath; law_CreateSecretPath := sim_CreateSecretPath;
     DeleteSecretPath := Sim.DeleteSecretPath; law_DeleteSecretPath := sim_DeleteSecretPath;
     Finalize := Sim.Finalize; law_Finalize := sim_Finalize |}.

(** ** Activities (activities.go) *)

Module Activities.
Section activities.
Context `{Provisioner}.

Definition CreateNamespace (inp : NamespaceRequest) (p : prov) : result goerror NamespaceResult * prov :=
  let '(r, p') := Provisioning.CreateNamespace (nr_Slug inp) p in (mkNamespaceResult <$> r, p').
Definition DeleteNamespace (inp : NamespaceRequest) : prov → result goerror unit * prov :=
  Provisioning.DeleteNamespace (nr_Slug inp).
Definition ApplyQuota (inp : QuotaRequest) : prov → result goerror unit * prov :=
  Provisioning.ApplyQuota (qr_Slug inp) (qr_MaxServices inp).
Definition RemoveQuota (inp : QuotaRequest) : prov → result goerror unit * prov :=
  Provisioning.RemoveQuota (qr_Slug inp).
Definition RegisterDNS (inp : DNSRequest) (p : prov) : result goerror DNSResult * prov :=
  let '(r, p') := Provisioning.RegisterDNS (dr_Slug inp) p in (mkDNSResult <$> r, p').
Definition DeregisterDNS (inp : DNSRequest) : prov → result goerror unit * prov :=
  Provisioning.DeregisterDNS (dr_Slug inp).
Definition CreateSecretPath (inp : SecretRequest) : prov → result goerror unit * prov :=
  Provisioning.CreateSecretPath (sec_Slug inp).
Definition DeleteSecretPath (inp : SecretRequest) : prov → result goerror unit * prov :=
  Provisioning.DeleteSecretPath (sec_Slug inp).
Definition Finalize (inp : FinalizeRequest) : prov → result goerror unit * prov :=
  Provisioning.Finalize (fr_Slug inp).
End activities.
End Activities.

(** ** The workflow engine *)

Inductive ActivityName : Type :=
| ACreateNamespace | ADeleteNamespace | AApplyQuota | ARemoveQuota | ARegisterDNS
| ADeregisterDNS | ACreateSecretPath | ADeleteSecretPath | AFinalize.
#[export] Instance ActivityName_eq_dec : EqDecision ActivityName.
Proof. solve_decision. Defined.

(** One attempt of an activity. *)
Inductive attempt_fate : Type :=
| Ran
| NotRun (e : goerror)
| LostResult (e : goerror).

Class Temporal := {
  fate : nat → attempt_fate;      (** of the n-th attempt *)
  cancelled : nat → bool;         (** cancellation was requested before that attempt *)
  cancelled_stays n m : n ≤ m → cancelled n = true → cancelled m = true
}.

Definition CanceledError : goerror := EOther "canceled".

(** The retry policy of the workflow's activity options. *)
Definition MaximumAttempts : nat := 3.

(** What became of an activity that the workflow asked for. *)
Inductive disposition : Type :=
| Done                          (** it reported success *)
| Failed (e : goerror)          (** it used up its attempts, the last error was [e] *)
| Unscheduled.                  (** the context was cancelled: it was not scheduled *)
Definition disposition_of {A} (r : result goerror A) : disposition :=
  match r with Ok _ => Done | Err e => Failed e end.
(** The error that [Get] returns. *)
Definition error_of (o : disposition) : option goerror :=
  match o with Done => None | Failed e => Some e | Unscheduled => Some CanceledError end.
#[export] Instance disposition_eq_dec : EqDecision disposition.
Proof. solve_decision. Defined.

Section workflow.
Context `{Provisioner, Temporal}.

Record PWorld := mkPWorld {
  pw_state : prov;
  pw_tick : nat;
  pw_trace : list (ActivityName * disposition)   (** the activities asked for, in order *)
}.
Definition PM (A : Type) : Type := PWorld → result goerror A * PWorld.

Definition attempt {A} (f : attempt_fate) (act : prov → result goerror A * prov) (s : prov)
    : result goerror A * prov :=
  match f with
  | Ran => act s
  | NotRun e => (Err e, s)
  | LostResult e => (Err e, (act s).2)
  end.

(** At most [n + 1] attempts. *)
Fixpoint attempts {A} (n : nat) (act : prov → result goerror A * prov) (k : nat) (s : prov)
    : result goerror A * prov * nat :=
  let '(r, s') := attempt (fate k) act s in
  match r, n with
  | Ok a, _ => (Ok a, s', S k)
  | Err e, 0 => (Err e, s', S k)
  | Err _, S n' => attempts n' act (S k) s'
  end.

Definition succeeded {A} (r : result goerror A) : bool := match r with Ok _ => true | Err _ => false end.

(** [workflow.ExecuteActivity(...).Get]: on a cancelled context the activity is not
    scheduled. *)
Definition ExecuteActivity {A} (name : ActivityName) (act : prov → result goerror A * prov) : PM A := λ w,
  if cancelled (pw_tick w)
  then (Err CanceledError, mkPWorld (pw_state w) (S (pw_tick w)) (pw_trace w ++ [(name, Unscheduled)]))
  else
    let '(r, s, k) := attempts (MaximumAttempts - 1) act (pw_tick w) (pw_state w) in
    (r, mkPWorld s k (pw_trace w ++ [(name, disposition_of r)])).

Definition saga : Type := list (PM unit).
Definition newSaga : saga := [].
Definition addCompensation (s : saga) (f : PM unit) : saga := s ++ [f].

(** Run the compensations from the last to the first; their errors are only logged. *)
Definition compensate {A} (s : saga) (cause : goerror) : PM A := λ w,
  (Err (EWrap "provisioning failed and was rolled back" cause),
   foldl (λ w f, (f w).2) w (rev s)).

(** [if err := m; err != nil { return saga.compensate(ctx, err) }] *)
Definition or_compensate {A B} (s : saga) (m : PM A) (k : A → PM B) : PM B := λ w,
  match m w with
  | (Err e, w') => compensate s e w'
  | (Ok a, w') => k a w'
  end.

Definition ProvisionTenantWorkflow (inp : ProvisionTenantInput) : PM ProvisionTenantResult := λ w,
  let slug := pt_Slug inp in
  match ExecuteActivity ACreateNamespace (Activities.CreateNamespace (mkNamespaceRequest slug)) w with
  | (Err e, w1) => (Err e, w1)
  | (Ok ns, w1) =>
    let saga := addCompensation newSaga
      (ExecuteActivity ADeleteNamespace (Activities.DeleteNamespace (mkNamespaceRequest slug))) in
    or_compensate saga
      (ExecuteActivity AApplyQuota (Activities.ApplyQuota (mkQuotaRequest slug (pt_MaxServices inp)))) (λ _,
    let saga := addCompensation saga
      (ExecuteActivity ARemoveQuota (Activities.RemoveQuota (mkQuotaRequest slug 0))) in
    or_compensate saga
      (ExecuteActivity ARegisterDNS (Activities.RegisterDNS (mkDNSRequest slug))) (λ dns,
    let saga := addCompensation saga
      (ExecuteActivity ADeregisterDNS (Activities.DeregisterDNS (mkDNSRequest slug))) in
    or_compensate saga
      (ExecuteActivity ACreateSecretPath (Activities.CreateSecretPath (mkSecretRequest slug))) (λ _,
    let saga := addCompensation saga
      (ExecuteActivity ADeleteSecretPath (Activities.DeleteSecretPath (mkSecretRequest slug))) in
    or_compensate saga
      (ExecuteActivity AFinalize (Activities.Finalize (mkFinalizeRequest slug))) (λ _ w',
    (Ok (mkProvisionTenantResult (nr_Name ns) (dr_FQDN dns)), w'))))) w1
  end.
End workflow.

(** ** One activity *)

Section activity_facts.
Context `{Provisioner, Temporal}.

(** No attempt takes effect and then has its result lost. *)
Definition no_loss : Prop := ∀ n e, fate n ≠ LostResult e.

(** Effects that can be repeated. *)
Record repeatable (eff : prov → prov → Prop) : Prop := {
  rep_before s1 s2 s3 : same_resources present s1 s2 → eff s2 s3 → eff s1 s3;
  rep_after s1 s2 s3 : eff s1 s2 → same_resources present s2 s3 → eff s1 s3;
  rep_twice s1 s2 s3 : eff s1 s2 → eff s2 s3 → eff s1 s3
}.

Lemma repeatable_added X t : repeatable (added present X t).
Proof.
  split; intros s1 s2 s3 E1 E2 R u; rewrite (E2 R u), (E1 R u); tauto.
Qed.
Lemma repeatable_removed X t : repeatable (removed present X t).
Proof.
  split; intros s1 s2 s3 E1 E2 R u; rewrite (E2 R u), (E1 R u); tauto.
Qed.
Lemma repeatable_same : repeatable (same_resources present).
Proof. split; intros s1 s2 s3 E1 E2; by etrans. Qed.

(** What is left behind by an activity with this outcome. *)
Definition left_behind {A} (eff : prov → prov → Prop) (r : result goerror A) (s s' : prov) : Prop :=
  match r with
  | Ok _ => eff s s'
  | Err _ => (same_resources present s s' ∨ eff s s') ∧ (no_loss → same_resources present s s')
  end.

Lemma attempt_spec {A} eff (act : prov → result goerror A * prov) k s :
  effect present eff act → let '(r, s') := attempt (fate k) act s in left_behind eff r s s'.
Proof.
  intros Heff. pose proof (Heff s) as Hs. unfold attempt.
  destruct (fate k) as [|e|e] eqn:Ef.
  - destruct (act s) as [[a|e] s']; simpl in *; [done|]. by split; [left|].
  - simpl. by split; [left|].
  - destruct (act s) as [[a|e'] s']; simpl in *; (split; [auto|]); intros Hl; by destruct (Hl k e).
Qed.

Lemma attempts_spec {A} eff (act : prov → result goerror A * prov) n k s :
  repeatable eff → effect present eff act →
  let '(r, s', _) := attempts n act k s in left_behind eff r s s'.
Proof.
  intros Hrep Heff. revert k s. induction n as [|n IH]; intros k s; simpl;
    pose proof (attempt_spec eff act k s Heff) as Ha;
    destruct (attempt (fate k) act s) as [[a|e] s1]; try exact Ha.
  specialize (IH (S k) s1). destruct (attempts n act (S k) s1) as [[[a|e'] s2] k2]; simpl in *;
    destruct Ha as [Ha Hl]; destruct Hrep as [Hb Haf Ht].
  - destruct Ha; eauto.
  - destruct IH as [IH Hl2]. split; [destruct Ha, IH; eauto; left; by etrans|].
    intros Hn. etrans; [by apply Hl|by apply Hl2].
Qed.

Lemma attempts_tick {A} (act : prov → result goerror A * prov) n k s : k < (attempts n act k s).2.
Proof.
  revert k s. induction n as [|n IH]; intros k s; simpl; destruct (attempt (fate k) act s) as [[a|e] s1]; simpl; try lia.
  specialize (IH (S k) s1). lia.
Qed.

Lemma effect_CreateNamespace slug :
  effect present (added present Namespace slug) (Activities.CreateNamespace (mkNamespaceRequest slug)).
Proof.
  intros s. unfold Activities.CreateNamespace. simpl. pose proof (law_CreateNamespace slug s) as Hl.
  by destruct (CreateNamespace slug s) as [[a|e] s'].
Qed.
Lemma effect_RegisterDNS slug :
  effect present (added present DNS slug) (Activities.RegisterDNS (mkDNSRequest slug)).
Proof.
  intros s. unfold Activities.RegisterDNS. simpl. pose proof (law_RegisterDNS slug s) as Hl.
  by destruct (RegisterDNS slug s) as [[a|e] s'].
Qed.

(** The effect an activity has on the tenant's resources. *)
Definition effect_of (a : ActivityName) (slug : string) : prov → prov → Prop :=
  match a with
  | ACreateNamespace => added present Namespace slug
  | ADeleteNamespace => removed present Namespace slug
  | AApplyQuota => added present Quota slug
  | ARemoveQuota => removed present Quota slug
  | ARegisterDNS => added present DNS slug
  | ADeregisterDNS => removed present DNS slug
  | ACreateSecretPath => added present Secret slug
  | ADeleteSecretPath => removed present Secret slug
  | AFinalize => same_resources present
  end.

Lemma effect_of_repeatable a slug : repeatable (effect_of a slug).
Proof. destruct a; simpl; auto using repeatable_added, repeatable_removed, repeatable_same. Qed.

Definition implements {A} (a : ActivityName) (slug : string) (act : prov → result goerror A * prov) : Prop :=
  effect present (effect_of a slug) act.

(** One activity that was asked for: it is recorded; it is scheduled unless the workflow was
    cancelled; and what it did, given what became of it. *)
Record moved (slug : string) (a : ActivityName) (o : disposition) (w w' : PWorld) : Prop := {
  mv_trace : pw_trace w' = pw_trace w ++ [(a, o)];
  mv_tick : pw_tick w < pw_tick w';
  mv_scheduled : o = Unscheduled ↔ cancelled (pw_tick w) = true;
  mv_effect :
    match o with
    | Done => effect_of a slug (pw_state w) (pw_state w')
    | Failed _ => (same_resources present (pw_state w) (pw_state w') ∨ effect_of a slug (pw_state w) (pw_state w')) ∧
                  (no_loss → same_resources present (pw_state w) (pw_state w'))
    | Unscheduled => pw_state w' = pw_state w
    end
}.

(** A run of activities, one after the other. *)
Fixpoint chain (slug : string) (tr : list (ActivityName * disposition)) (w w' : PWorld) : Prop :=
  match tr with
  | [] => w' = w
  | (a, o) :: tr' => ∃ w1, moved slug a o w w1 ∧ chain slug tr' w1 w'
  end.

Lemma chain_app slug tr1 tr2 w1 w2 w3 :
  chain slug tr1 w1 w2 → chain slug tr2 w2 w3 → chain slug (tr1 ++ tr2) w1 w3.
Proof.
  revert w1. induction tr1 as [|[a o] tr1 IH]; intros w1; simpl; [by intros <-|].
  intros (w & Hm & Hc) Hc2. eauto.
Qed.

Lemma chain_trace slug tr w w' : chain slug tr w w' → pw_trace w' = pw_trace w ++ tr.
Proof.
  revert w. induction tr as [|[a o] tr IH]; intros w; simpl; [intros ->; by rewrite app_nil_r|].
  intros (w1 & Hm & Hc). rewrite (IH _ Hc), (mv_trace _ _ _ _ _ Hm). by rewrite <- app_assoc.
Qed.

(** Once the workflow is cancelled, nothing is scheduled any more. *)
Lemma chain_cancelled slug tr w w' :
  chain slug tr w w' → cancelled (pw_tick w) = true → Forall (λ x, x.2 = Unscheduled) tr.
Proof.
  revert w. induction tr as [|[a o] tr IH]; intros w; simpl; [by constructor|].
  intros (w1 & Hm & Hc) Hcan. constructor; [by apply Hm|]. apply (IH _ Hc).
  eapply cancelled_stays; [|done]. pose proof (mv_tick _ _ _ _ _ Hm). lia.
Qed.
Lemma chain_scheduling slug tr w w' :
  chain slug tr w w' → ∃ n, Forall (λ x, x.2 ≠ Unscheduled) (take n tr) ∧ Forall (λ x, x.2 = Unscheduled) (drop n tr).
Proof.
  revert w. induction tr as [|[a o] tr IH]; intros w Hall; [by exists 0|].
  destruct (cancelled (pw_tick w)) eqn:Hcan; [exists 0; split; [constructor|by eapply chain_cancelled]|].
  destruct Hall as (w1 & Hm & Hc). destruct (IH _ Hc) as (n & Hbefore & Hafter). exists (S n). split; [|done].
  constructor; [|done]. simpl. intros E%(mv_scheduled _ _ _ _ _ Hm). congruence.
Qed.
Lemma chain_undisturbed slug tr w w' :
  chain slug tr w w' → (∀ n, cancelled n = false) → Forall (λ x, x.2 ≠ Unscheduled) tr.
Proof.
  intros Hc Hn. revert w Hc. induction tr as [|[a o] tr IH]; intros w; simpl; [by constructor|].
  intros (w1 & Hm & Hc). constructor; [|by eapply IH]. simpl. intros E%(mv_scheduled _ _ _ _ _ Hm). by rewrite Hn in E.
Qed.

(** The activity ends with an error exactly if it was not done. *)
Lemma exec_moved {A} a slug (act : prov → result goerror A * prov) w :
  implements a slug act →
  let '(r, w') := ExecuteActivity a act w in
  ∃ o, moved slug a o w w' ∧ error_of o = match r with Ok _ => None | Err e => Some e end.
Proof.
  intros Hi. unfold ExecuteActivity. destruct (cancelled (pw_tick w)) eqn:Hcan.
  { exists Unscheduled. split; [|done]. by split; [|simpl; lia| |]. }
  pose proof (attempts_spec _ act (MaximumAttempts - 1) (pw_tick w) (pw_state w) (effect_of_repeatable a slug) Hi) as Ha.
  pose proof (attempts_tick act (MaximumAttempts - 1) (pw_tick w) (pw_state w)) as Ht.
  destruct (attempts _ _ _ _) as [[r s] k]. exists (disposition_of r). split; [|by destruct r].
  split; [done|done| |by destruct r]. rewrite Hcan. by destruct r.
Qed.

(** Compensations are all asked for, in the order given, whatever becomes of them. *)
Lemma compensations_run slug (cs : list (ActivityName * (prov → result goerror unit * prov))) w :
  Forall (λ c, implements c.1 slug c.2) cs →
  ∃ outcomes, length outcomes = length cs ∧
    chain slug (zip (map fst cs) outcomes) w (foldl (λ w f, (f w).2) w (map (λ c, ExecuteActivity c.1 c.2) cs)).
Proof.
  intros Hcs. revert w. induction Hcs as [|[a act] cs Hi _ IH]; intros w; simpl; [by exists []|].
  pose proof (exec_moved a slug act w Hi) as He. simpl in *.
  destruct (ExecuteActivity a act w) as [r w1]. destruct He as (o & Hm & _). simpl.
  destruct (IH w1) as (outs & Hl & Hc). exists (o :: outs). simpl. split; [by rewrite Hl|eauto].
Qed.
End activity_facts.

Create HintDb saga.
#[export] Hint Resolve effect_CreateNamespace effect_RegisterDNS : saga.
#[export] Hint Resolve law_DeleteNamespace law_ApplyQuota law_RemoveQuota law_DeregisterDNS
  law_CreateSecretPath law_DeleteSecretPath law_Finalize : saga.

(** ** The whole workflow *)

Definition forward : list ActivityName :=
  [ACreateNamespace; AApplyQuota; ARegisterDNS; ACreateSecretPath; AFinalize].
Definition undo : list ActivityName :=
  [ADeleteNamespace; ARemoveQuota; ADeregisterDNS; ADeleteSecretPath].

(** The activities of a run with this result: all five steps; or the steps before the [k]-th,
    that step with its error, and the compensations of the steps before it in reverse.  The
    error of the run is that of the step, wrapped if there was something to compensate. *)
Definition run_shape {A} (r : result goerror A) (tr : list (ActivityName * disposition)) : Prop :=
  match r with
  | Ok _ => tr = map (λ a, (a, Done)) forward
  | Err e => ∃ k a o cause outcomes, forward !! k = Some a ∧ error_of o = Some cause ∧
      e = (if decide (k = 0) then cause else EWrap "provisioning failed and was rolled back" cause) ∧
      length outcomes = k ∧
      tr = map (λ a, (a, Done)) (take k forward) ++ [(a, o)] ++ zip (rev (take k undo)) outcomes
  end.

Section workflow_facts.
Context `{Provisioner, Temporal}.

Lemma saga_failed {A} slug k a o (cs : list (ActivityName * (prov → result goerror unit * prov))) w w1 cause
    (r : result goerror A) :
  Forall (λ c, implements c.1 slug c.2) cs → forward !! k = Some a → k ≠ 0 →
  map fst cs = rev (take k undo) → error_of o = Some cause →
  chain slug (map (λ a, (a, Done)) (take k forward) ++ [(a, o)]) w w1 →
  k ≤ length undo → r = Err (EWrap "provisioning failed and was rolled back" cause) →
  ∃ tr, chain slug tr w (foldl (λ w f, (f w).2) w1 (map (λ c, ExecuteActivity c.1 c.2) cs)) ∧ run_shape r tr.
Proof.
  intros Hcs Hk Hk0 Hn Ho Hc Hkl ->. destruct (compensations_run slug cs w1 Hcs) as (outs & Hl & Hch). rewrite Hn in Hch.
  eexists. split; [by eapply chain_app|]. exists k, a, o, cause, outs. split_and!; [done..| | |by rewrite <- !app_assoc].
  - by rewrite decide_False.
  - rewrite Hl, <- (length_map fst), Hn, length_rev, length_take. lia.
Qed.

Lemma error_of_None o : error_of o = None → o = Done.
Proof. by destruct o. Qed.

Ltac solve_chain := cbn [chain app map take]; repeat (eexists; split; [eassumption|]); reflexivity.
(** Every run: which activities were asked for and what they did. *)
Lemma workflow_run inp w :
  let '(r, w') := ProvisionTenantWorkflow inp w in
  ∃ tr, chain (pt_Slug inp) tr w w' ∧ run_shape r tr.
Proof.
  set (slug := pt_Slug inp). set (n := pt_MaxServices inp).
  unfold ProvisionTenantWorkflow. fold slug n. cbv zeta.
  set (c1 := (ADeleteNamespace, Activities.DeleteNamespace (mkNamespaceRequest slug))).
  set (c2 := (ARemoveQuota, Activities.RemoveQuota (mkQuotaRequest slug 0))).
  set (c3 := (ADeregisterDNS, Activities.DeregisterDNS (mkDNSRequest slug))).
  set (c4 := (ADeleteSecretPath, Activities.DeleteSecretPath (mkSecretRequest slug))).
  assert (implements c1.1 slug c1.2 ∧ implements c2.1 slug c2.2 ∧ implements c3.1 slug c3.2 ∧
          implements c4.1 slug c4.2) as (I1 & I2 & I3 & I4)
    by (split_and!; [apply law_DeleteNamespace|apply law_RemoveQuota|apply law_DeregisterDNS|apply law_DeleteSecretPath]).
  pose proof (exec_moved ACreateNamespace slug _ w (effect_CreateNamespace slug)) as E1.
  destruct (ExecuteActivity ACreateNamespace _ w) as [[ns|e] w1]; destruct E1 as (o1 & M1 & O1).
  2:{ eexists. split; [|exists 0, ACreateNamespace, o1, e, []; done]. solve_chain. }
  apply error_of_None in O1 as ->. unfold or_compensate at 1.
  pose proof (exec_moved AApplyQuota slug (Activities.ApplyQuota (mkQuotaRequest slug n)) w1 (law_ApplyQuota slug n)) as E2.
  destruct (ExecuteActivity AApplyQuota _ w1) as [[[]|e] w2]; destruct E2 as (o2 & M2 & O2).
  2:{ eapply (saga_failed slug 1 AApplyQuota o2 [c1]); first [done|by rewrite !Forall_cons|solve_chain|simpl; lia]. }
  apply error_of_None in O2 as ->. unfold or_compensate at 1.
  pose proof (exec_moved ARegisterDNS slug _ w2 (effect_RegisterDNS slug)) as E3.
  destruct (ExecuteActivity ARegisterDNS _ w2) as [[d|e] w3]; destruct E3 as (o3 & M3 & O3).
  2:{ eapply (saga_failed slug 2 ARegisterDNS o3 [c2; c1]); first [done|by rewrite !Forall_cons|solve_chain|simpl; lia]. }
  apply error_of_None in O3 as ->. unfold or_compensate at 1.
  pose proof (exec_moved ACreateSecretPath slug (Activities.CreateSecretPath (mkSecretRequest slug)) w3 (law_CreateSecretPath slug)) as E4.
  destruct (ExecuteActivity ACreateSecretPath _ w3) as [[[]|e] w4]; destruct E4 as (o4 & M4 & O4).
  2:{ eapply (saga_failed slug 3 ACreateSecretPath o4 [c3; c2; c1]); first [done|by rewrite !Forall_cons|solve_chain|simpl; lia]. }
  apply error_of_None in O4 as ->. unfold or_compensate at 1.
  pose proof (exec_moved AFinalize slug (Activities.Finalize (mkFinalizeRequest slug)) w4 (law_Finalize slug)) as E5.
  destruct (ExecuteActivity AFinalize _ w4) as [[[]|e] w5]; destruct E5 as (o5 & M5 & O5).
  2:{ eapply (saga_failed slug 4 AFinalize o5 [c4; c3; c2; c1]); first [done|by rewrite !Forall_cons|solve_chain|simpl; lia]. }
  apply error_of_None in O5 as ->. eexists. split; [|done]. solve_chain.
Qed.

(** Activities on one tenant never touch another one. *)
Lemma chain_isolated slug tr w w' R t :
  chain slug tr w w' → t ≠ slug → present (pw_state w') R t ↔ present (pw_state w) R t.
Proof.
  revert w. induction tr as [|[a o] tr IH]; intros w; simpl; [by intros ->|].
  intros (w1 & Hm & Hc) Ht. rewrite (IH _ Hc Ht). clear IH Hc.
  assert (effect_of a slug (pw_state w) (pw_state w1) → present (pw_state w1) R t ↔ present (pw_state w) R t) as He
    by (intros E; destruct a; simpl in E; rewrite (E R t); naive_solver).
  pose proof (mv_effect _ _ _ _ _ Hm) as Hme. destruct o; [auto| |by rewrite Hme].
  destruct Hme as [[Hs|E] _]; [apply Hs|auto].
Qed.

(** The resource that a compensation removes. *)
Definition undoes (a : ActivityName) : option Resource :=
  match a with
  | ADeleteNamespace => Some Namespace
  | ARemoveQuota => Some Quota
  | ADeregisterDNS => Some DNS
  | ADeleteSecretPath => Some Secret
  | _ => None
  end.
(** A compensation of the run removed the resource. *)
Definition undone (tr : list (ActivityName * disposition)) (R : Resource) : Prop :=
  Exists (λ x, undoes x.1 = Some R ∧ x.2 = Done) tr.

(** Undoing the completed steps in reverse removes their resources, and nothing else. *)
Lemma chain_rollback slug k a o w w' :
  no_loss → forward !! k = Some a → o ≠ Done →
  let tr := map (λ a, (a, Done)) (take k forward) ++ [(a, o)] ++ zip (rev (take k undo)) (replicate k Done) in
  chain slug tr w w' →
  ∀ R t, present (pw_state w') R t ↔ present (pw_state w) R t ∧ ¬ (t = slug ∧ undone tr R).
Proof.
  intros Hnl Hk Ho tr Hc R t.
  assert (∀ a' w1 w2, moved slug a' o w1 w2 → same_resources present (pw_state w1) (pw_state w2)) as Hf.
  { intros a' w1 w2 Hm. pose proof (mv_effect _ _ _ _ _ Hm) as He. destruct o; [done|by apply He|by rewrite He]. }
  unfold tr, undone in *. clear tr.
  do 5 (destruct k as [|k]; [simpl in Hk; injection Hk as <-; simpl in Hc; split_hyps;
    repeat match goal with
    | Hm : moved _ _ Done _ _ |- _ => apply mv_effect in Hm; simpl in Hm
    | Hm : moved _ _ o _ _ |- _ => apply Hf in Hm
    end;
    repeat match goal with
    | Hm : added _ _ _ _ ?s |- context [present ?s _ _] => rewrite (Hm R t); clear Hm
    | Hm : removed _ _ _ _ ?s |- context [present ?s _ _] => rewrite (Hm R t); clear Hm
    | Hm : same_resources _ _ ?s |- context [present ?s _ _] => rewrite (Hm R t); clear Hm
    end; cbn; rewrite ?Exists_cons, ?Exists_nil; simpl; destruct R; naive_solver|]).
  apply lookup_lt_Some in Hk. simpl in Hk. lia.
Qed.
End workflow_facts.

(** ** Properties *)

Section properties.
Context `{Provisioner, Temporal}.

(** C9: the order of the saga, under all failures, lost results and cancellation: the
    five steps are asked for in order up to the first that does not succeed; then the compensation of
    every completed step is asked for exactly once, in reverse order, even when compensations
    fail; the error returned is the error of that very step, wrapped when a step had been
    completed before it.  What is asked for is executed, except that from a
    cancellation on nothing is scheduled any more, compensations included. *)
Theorem saga_compensates_in_reverse inp w r w' :
  ProvisionTenantWorkflow inp w = (r, w') →
  ∃ tr, pw_trace w' = pw_trace w ++ tr ∧ run_shape r tr ∧
    (∃ n, Forall (λ x, x.2 ≠ Unscheduled) (take n tr) ∧ Forall (λ x, x.2 = Unscheduled) (drop n tr)) ∧
    ((∀ n, cancelled n = false) → Forall (λ x, x.2 ≠ Unscheduled) tr).
Proof.
  intros E. pose proof (workflow_run inp w) as Hr. rewrite E in Hr. destruct Hr as (tr & Hc & Hs).
  exists tr. split_and!; [by eapply chain_trace|done|by eapply chain_scheduling|by eapply chain_undisturbed].
Qed.

(** C31: a workflow that reports success has provisioned exactly the four resources of
    its tenant, whatever attempts were lost on the way; and a workflow with any
    result leaves every other tenant's resources as they were. *)
Theorem saga_success_and_isolation inp w r w' :
  ProvisionTenantWorkflow inp w = (r, w') →
  (succeeded r = true → ∀ R t,
     present (pw_state w') R t ↔ t = pt_Slug inp ∨ present (pw_state w) R t) ∧
  (∀ R t, t ≠ pt_Slug inp → present (pw_state w') R t ↔ present (pw_state w) R t).
Proof.
  intros E. pose proof (workflow_run inp w) as Hr. rewrite E in Hr.
  destruct Hr as (tr & Hc & Hs). split; [|intros R t; by eapply chain_isolated].
  destruct r as [res|e]; [|done]. simpl in Hs. subst tr. intros _ R t.
  destruct Hc as (w1 & M1%mv_effect & w2 & M2%mv_effect & w3 & M3%mv_effect & w4 & M4%mv_effect & w5 & M5%mv_effect & ->).
  simpl in *. rewrite (M5 R t), (M4 R t), (M3 R t), (M2 R t), (M1 R t). destruct R; naive_solver.
Qed.

(** C18: what a rollback leaves.  When no attempt took effect and then lost its result, a
    failed workflow whose compensations all succeeded leaves every resource as it was, except that
    those of the tenant which it compensated are gone, also when they were there before.  So
    for a tenant that had none of the resources the rollback is complete. *)
Theorem saga_rollback_complete inp w e w' tr :
  no_loss → ProvisionTenantWorkflow inp w = (Err e, w') → pw_trace w' = pw_trace w ++ tr →
  (∀ a o, (a, o) ∈ tr → a ∈ undo → o = Done) →
  (∀ R t, present (pw_state w') R t ↔ present (pw_state w) R t ∧ ¬ (t = pt_Slug inp ∧ undone tr R)) ∧
  ((∀ R, ¬ present (pw_state w) R (pt_Slug inp)) → same_resources present (pw_state w) (pw_state w')).
Proof.
  intros Hnl E Htr Hok. pose proof (workflow_run inp w) as Hr. rewrite E in Hr.
  destruct Hr as (tr' & Hc & k & a & o & cause & outs & Hk & Ho & _ & Hl & Hshape).
  assert (tr' = tr) as -> by (apply (app_inv_head (pw_trace w)); rewrite <- Htr; symmetry; by eapply chain_trace).
  subst tr. assert (Forall (eq Done) outs) as Hall.
  { apply Forall_lookup. intros i b Hi. assert (i < k) as Hik by (rewrite <- Hl; by eapply lookup_lt_Some).
    destruct (lookup_lt_is_Some_2 (rev (take k undo)) i) as [u Hu].
    { rewrite length_rev, length_take. apply lookup_lt_Some in Hk. simpl in *. lia. }
    symmetry. apply (Hok u).
    - rewrite !elem_of_app. right. right. apply (list_elem_of_lookup_2 _ i).
      by rewrite lookup_zip_with, Hu, Hi.
    - apply list_elem_of_lookup_2 in Hu. apply list_elem_of_In, in_rev, list_elem_of_In in Hu.
      by eapply elem_of_take in Hu as (? & ?%list_elem_of_lookup_2 & _). }
  assert (outs = replicate k Done) as -> by (symmetry; by apply replicate_as_Forall_2).
  assert (o ≠ Done) as Hnd by (by intros ->).
  pose proof (chain_rollback _ k a o w w' Hnl Hk Hnd Hc) as Hend. split; [exact Hend|].
  intros Hfresh R t. rewrite (Hend R t). destruct (decide (t = pt_Slug inp)) as [->|]; [|naive_solver].
  specialize (Hfresh R). naive_solver.
Qed.
End properties.

Section simulated_run.
Context {T : Temporal}.
Context (Hran : ∀ n, fate n = Ran) (Hnc : ∀ n, cancelled n = false).

(** An activity that answers at the first attempt, or fails alike at all three. *)
Lemma exec_ok {A} a (act : @prov simulated → result goerror A * @prov simulated) x w s' :
  act (pw_state w) = (Ok x, s') →
  ExecuteActivity a act w = (Ok x, mkPWorld s' (S (pw_tick w)) (pw_trace w ++ [(a, Done)])).
Proof using Hran Hnc.
  intros E. unfold ExecuteActivity. rewrite Hnc. simpl. unfold attempt. by rewrite Hran, E.
Qed.
Lemma exec_err {A} a (act : @prov simulated → result goerror A * @prov simulated) e w :
  act (pw_state w) = (Err e, pw_state w) →
  ExecuteActivity a act w = (Err e, mkPWorld (pw_state w) (S (S (S (pw_tick w)))) (pw_trace w ++ [(a, Failed e)])).
Proof using Hran Hnc.
  intros E. unfold ExecuteActivity. rewrite Hnc. simpl. unfold attempt. by rewrite !Hran, E, E, E.
Qed.

(** On the simulated provisioner, when every attempt runs, the workflow does
    exactly this: it returns the namespace [tenant-<slug>] and the endpoint
    [<slug>.forge.example.com] and records the four resources; or, when DNS
    registration is made to fail, it fails with that cause and the tables hold
    nothing for the tenant, everything else as before. *)
Theorem simulated_workflow_outcome inp (w : @PWorld simulated) :
  let p := pw_state w in let slug := pt_Slug inp in
  ∃ n tr, ProvisionTenantWorkflow inp w =
    if FailRegisterDNS p
    then (Err (EWrap "provisioning failed and was rolled back"
                (EOther ("dns provider unavailable for " +:+ Sim.quoted slug))),
          mkPWorld (mkSimulatedProvisioner (delete slug (namespaces p)) (delete slug (quotas p)) (dns p)
                      (secrets p) true) n tr)
    else (Ok (mkProvisionTenantResult ("tenant-" +:+ slug) (slug +:+ ".forge.example.com")),
          mkPWorld (mkSimulatedProvisioner (<[slug := true]> (namespaces p))
                      (<[slug := pt_MaxServices inp]> (quotas p)) (<[slug := true]> (dns p))
                      (<[slug := true]> (secrets p)) false) n tr).
Proof using Hran Hnc.
  intros p slug. subst p. destruct w as [p k tr0]. cbn [pw_state]. unfold ProvisionTenantWorkflow.
  erewrite exec_ok by reflexivity. unfold or_compensate at 1. erewrite exec_ok by reflexivity.
  unfold or_compensate at 1. destruct (FailRegisterDNS p) eqn:Ef.
  - erewrite exec_err.
    2:{ unfold Activities.RegisterDNS. simpl. unfold Sim.RegisterDNS. simpl. rewrite Ef. reflexivity. }
    unfold compensate. cbn [rev app addCompensation newSaga foldl].
    erewrite exec_ok by reflexivity. cbn [snd]. erewrite exec_ok by reflexivity. simpl.
    eexists _, _. unfold Sim.set_namespaces. simpl. unfold Sim.set_namespaces, Sim.set_quotas. simpl.
    rewrite !delete_insert_eq, Ef. reflexivity.
  - erewrite exec_ok.
    2:{ unfold Activities.RegisterDNS. simpl. unfold Sim.RegisterDNS. simpl. rewrite Ef. reflexivity. }
    unfold or_compensate at 1. erewrite exec_ok by reflexivity.
    unfold or_compensate at 1. erewrite exec_ok by reflexivity. simpl.
    eexists _, _. unfold Sim.set_secrets, Sim.set_dns. simpl. rewrite Ef. reflexivity.
Qed.
End simulated_run.

(** ** What the saga does not cover *)

#[local] Definition w0 : @PWorld simulated := mkPWorld NewSimulatedProvisioner 0 [].
#[local] Definition acme : ProvisionTenantInput := mkProvisionTenantInput "acme" 10.

(** Attempts with these fates, in a workflow cancelled from attempt [c] on. *)
#[local] Definition engine (f : nat → attempt_fate) (c : option nat) : Temporal.
Proof.
  refine {| fate := f; cancelled n := if c is Some k then (k <=? n) else false |}.
  intros n m Hle. destruct c; [|done]. rewrite !Nat.leb_le. lia.
Defined.

(** Cancelling the workflow after its first step: the compensations run on the
    cancelled context, so none of them is scheduled; the error still says that
    everything was rolled back, and the namespace stays. *)
Lemma cancelled_saga_leaks :
  let T := engine (λ _, Ran) (Some 1) in
  let rw := ProvisionTenantWorkflow acme w0 in
  ok rw.1 = None ∧ Sim.HasNamespace (pw_state rw.2) "acme" = true ∧
  pw_trace rw.2 = [(ACreateNamespace, Done); (AApplyQuota, Unscheduled); (ADeleteNamespace, Unscheduled)].
Proof. split_and!; vm_compute; reflexivity. Qed.

(** A step that takes effect and loses its result three times is reported as failed;
    its own compensation was never registered, so its effect stays. *)
Lemma lost_result_leaks :
  let T := engine (λ n, if n <? 2 then Ran else if n <? 5 then LostResult (EOther "timeout") else Ran) None in
  let rw := ProvisionTenantWorkflow acme w0 in
  ok rw.1 = None ∧ Sim.HasDNS (pw_state rw.2) "acme" = true ∧
  Sim.HasNamespace (pw_state rw.2) "acme" = false.
Proof. split_and!; vm_compute; reflexivity. Qed.

(** Provisioning a tenant again, when it fails, takes away what the tenant had. *)
Lemma failed_rerun_deletes :
  let T := engine (λ _, Ran) None in
  let had := mkSimulatedProvisioner {["acme" := true]} {["acme" := 10%Z]} {["acme" := true]} {["acme" := true]} true in
  let rw := ProvisionTenantWorkflow acme (mkPWorld had 0 []) in
  ok rw.1 = None ∧ Sim.HasNamespace (pw_state rw.2) "acme" = false ∧ Sim.HasQuota (pw_state rw.2) "acme" = false.
Proof. split_and!; vm_compute; reflexivity. Qed.

(** ** Witnesses *)

#[local] Definition refusing : SimulatedProvisioner := mkSimulatedProvisioner ∅ ∅ ∅ ∅ true.
#[local] Definition w_fail : @PWorld simulated := mkPWorld refusing 0 [].
#[local] Definition calm_temporal : Temporal := engine (λ _, Ran) None.
#[local] Definition flaky_temporal : Temporal :=
  engine (λ n, if Nat.even n then NotRun (EOther "worker restarted") else Ran) None.
#[local] Existing Instance flaky_temporal.

Lemma saga_compensates_in_reverse_witness :
  let rw := ProvisionTenantWorkflow acme w_fail in
  pw_trace rw.2 = [(ACreateNamespace, Done); (AApplyQuota, Done);
                   (ARegisterDNS, Failed (EOther "worker restarted"));
                   (ARemoveQuota, Done); (ADeleteNamespace, Done)] ∧
  ∃ tr, pw_trace rw.2 = [] ++ tr ∧ run_shape rw.1 tr.
Proof.
  split; [vm_compute; reflexivity|].
  destruct (saga_compensates_in_reverse acme w_fail _ _ (surjective_pairing _)) as (tr & Ht & Hs & _). by exists tr.
Defined.

Lemma saga_success_and_isolation_witness :
  let rw := ProvisionTenantWorkflow acme w0 in
  (∀ R, present (pw_state rw.2) R "acme") ∧ ¬ present (pw_state rw.2) DNS "other".
Proof.
  destruct (saga_success_and_isolation acme w0 _ _ (surjective_pairing _)) as [Hs Hi]. split.
  - intros R. apply Hs; [vm_compute; reflexivity|]. by left.
  - rewrite (Hi DNS "other"); done.
Defined.

Lemma saga_rollback_complete_witness :
  let rw := ProvisionTenantWorkflow acme w_fail in
  ∃ e, rw.1 = Err e ∧ same_resources present (pw_state w_fail) (pw_state rw.2).
Proof.
  eexists. split; [vm_compute; reflexivity|].
  eapply (saga_rollback_complete acme w_fail _ _ (pw_trace (ProvisionTenantWorkflow acme w_fail).2)).
  - intros n e. simpl. by destruct (Nat.even n).
  - rewrite (surjective_pairing (ProvisionTenantWorkflow acme w_fail)) at 1. f_equal.
  - reflexivity.
  - assert (Forall (λ p : ActivityName * disposition, p.1 ∈ undo → p.2 = Done)
              (pw_trace (ProvisionTenantWorkflow acme w_fail).2)) as Hall.
    { apply (bool_decide_unpack _). vm_compute. exact I. }
    intros a o Hin. rewrite Forall_forall in Hall. exact (Hall (a, o) Hin).
  - intros []; vm_compute; done.
Defined.

Lemma simulated_workflow_outcome_witness :
  ∃ n tr, @ProvisionTenantWorkflow simulated calm_temporal acme w0 =
    (Ok (mkProvisionTenantResult "tenant-acme" "acme.forge.example.com"),
     mkPWorld (mkSimulatedProvisioner {["acme" := true]} {["acme" := 10%Z]} {["acme" := true]}
                 {["acme" := true]} false) n tr).
Proof.
  apply (@simulated_workflow_outcome calm_temporal (λ _, eq_refl) (λ _, eq_refl) acme w0).
Defined.
