(* ===== verification/Controller.v ===== *)
(** * The objects of the Application controller (internal/controller, api/v1alpha1)

    The custom resource, the Deployment, Service and ConfigMap that the controller
    derives from it, the upsert of conditions and the computation of the status.
    Objects carry the fields the controller sets.  Quantities of the Kubernetes
    libraries are the class [QuantityLib].  The reconciler against an API server
    is in Reconciler. *)
From S2P Require Import Prelude GoStrings Apperr.

(** ** api/v1alpha1 *)

Record SecuritySettings := mkSecuritySettings { ReadOnlyRootFilesystem : option bool }.
Record AppEnvVar := mkAppEnvVar { av_Name : string; av_Value : string }.
Record ResourceRequests := mkResourceRequests { CPU : string; Memory : string }.

Record ApplicationSpec := mkApplicationSpec {
  Image : string;
  Port : Z;
  Replicas : Z;
  AppTier : Z;
  Env : list AppEnvVar;
  Resources : ResourceRequests;
  Expose : bool;
  Security : SecuritySettings
}.

Record Condition := mkCondition {
  cd_Type : string;
  cd_Status : string;
  cd_ObservedGeneration : Z;
  cd_LastTransitionTime : Z;   (** zero is the unset time *)
  cd_Reason : string;
  cd_Message : string
}.

Record ApplicationStatus := mkApplicationStatus {
  Phase : string;
  ObservedGeneration : Z;
  st_Replicas : Z;
  ReadyReplicas : Z;
  Conditions : list Condition
}.

Record Application := mkApplication {
  app_Name : string;
  app_Namespace : string;
  app_Generation : Z;
  app_ResourceVersion : nat;
  app_Spec : ApplicationSpec;
  app_Status : ApplicationStatus
}.

#[export] Instance Condition_eq_dec : EqDecision Condition.
Proof. solve_decision. Defined.
#[export] Instance ApplicationStatus_eq_dec : EqDecision ApplicationStatus.
Proof. solve_decision. Defined.
#[export] Instance SecuritySettings_eq_dec : EqDecision SecuritySettings.
Proof. solve_decision. Defined.
#[export] Instance AppEnvVar_eq_dec : EqDecision AppEnvVar.
Proof. solve_decision. Defined.
#[export] Instance ResourceRequests_eq_dec : EqDecision ResourceRequests.
Proof. solve_decision. Defined.
#[export] Instance ApplicationSpec_eq_dec : EqDecision ApplicationSpec.
Proof. solve_decision. Defined.
#[export] Instance Application_eq_dec : EqDecision Application.
Proof. solve_decision. Defined.
(** ** Kubernetes objects, with the fields the controller sets *)

Section objects.
Context {Quantity : Type}.

Record ResourceRequirements := mkResourceRequirements {
  Requests : list (string * Quantity);
  Limits : list (string * Quantity)
}.
Record Probe := mkProbe {
  TCPSocketPort : Z;
  InitialDelaySeconds : Z;
  PeriodSeconds : Z;
  TimeoutSeconds : Z;
  FailureThreshold : Z
}.
Record SecurityContext := mkSecurityContext {
  sc_RunAsNonRoot : bool;
  sc_AllowPrivilegeEscalation : bool;
  sc_ReadOnlyRootFilesystem : bool;
  sc_CapabilitiesDrop : list string
}.
Record Container := mkContainer {
  ct_Name : string;
  ct_Image : string;
  ct_Ports : list Z;
  ct_Env : list (string * string);
  ct_Resources : ResourceRequirements;
  ct_LivenessProbe : Probe;
  ct_ReadinessProbe : Probe;
  ct_SecurityContext : SecurityContext
}.
Record OwnerRef := mkOwnerRef { or_Kind : string; or_Name : string }.
Record Deployment := mkDeployment {
  dp_Name : string;
  dp_Namespace : string;
  dp_Labels : gmap string string;
  dp_Owner : option OwnerRef;
  dp_Replicas : Z;
  dp_Selector : gmap string string;
  dp_PodLabels : gmap string string;
  dp_PodAnnotations : gmap string string;
  dp_PodRunAsNonRoot : bool;
  dp_Containers : list Container
}.
Record ServicePort := mkServicePort { sp_Name : string; sp_Port : Z; sp_TargetPort : Z; sp_Protocol : string }.
Record KService := mkKService {
  ks_Name : string;
  ks_Namespace : string;
  ks_Labels : gmap string string;
  ks_Owner : option OwnerRef;
  ks_Selector : gmap string string;
  ks_Type : string;
  ks_Ports : list ServicePort
}.
Record ConfigMap := mkConfigMap {
  cm_Name : string;
  cm_Namespace : string;
  cm_Labels : gmap string string;
  cm_Owner : option OwnerRef;
  cm_Data : gmap string string
}.

#[global] Instance ResourceRequirements_eq_dec `{EqDecision Quantity} : EqDecision ResourceRequirements.
Proof. solve_decision. Defined.
#[global] Instance Probe_eq_dec : EqDecision Probe.
Proof. solve_decision. Defined.
#[global] Instance SecurityContext_eq_dec : EqDecision SecurityContext.
Proof. solve_decision. Defined.
#[global] Instance Container_eq_dec `{EqDecision Quantity} : EqDecision Container.
Proof. solve_decision. Defined.
#[global] Instance OwnerRef_eq_dec : EqDecision OwnerRef.
Proof. solve_decision. Defined.
#[global] Instance Deployment_eq_dec `{EqDecision Quantity} : EqDecision Deployment.
Proof. solve_decision. Defined.
#[global] Instance ServicePort_eq_dec : EqDecision ServicePort.
Proof. solve_decision. Defined.
#[global] Instance KService_eq_dec : EqDecision KService.
Proof. solve_decision. Defined.
#[global] Instance ConfigMap_eq_dec : EqDecision ConfigMap.
Proof. solve_decision. Defined.
End objects.
Arguments ResourceRequirements : clear implicits.
Arguments Container : clear implicits.
Arguments Deployment : clear implicits.

(** ** The desired objects *)

Definition tierDefaults : gmap Z ResourceRequests :=
  {[ 1%Z := mkResourceRequests "1" "1Gi"; 2%Z := mkResourceRequests "500m" "512Mi";
     3%Z := mkResourceRequests "250m" "256Mi"; 4%Z := mkResourceRequests "100m" "128Mi" ]}.

Definition effectiveTier (app : Application) : Z :=
  if (1 <=? AppTier (app_Spec app))%Z && (AppTier (app_Spec app) <=? 4)%Z
  then AppTier (app_Spec app) else 3%Z.

Definition managedLabels (app : Application) : gmap string string :=
  {[ "app.kubernetes.io/name" := app_Name app;
     "app.kubernetes.io/managed-by" := "forge";
     "forge.dev/application" := app_Name app;
     "forge.dev/tier" := Itoa (effectiveTier app) ]}.

Definition readOnlyRoot (app : Application) : bool :=
  match ReadOnlyRootFilesystem (Security (app_Spec app)) with
  | Some b => b
  | None => true
  end.

Definition toEnvVars (inp : list AppEnvVar) : list (string * string) :=
  map (λ e, (av_Name e, av_Value e)) inp.

Definition tcpProbe (port initialDelay : Z) : Probe := mkProbe port initialDelay 10 2 3.

(** [replicas == 0] means one. *)
Definition desired_replicas (app : Application) : Z :=
  if (Replicas (app_Spec app) =? 0)%Z then 1%Z else Replicas (app_Spec app).

(** Text of the source with ['] for the double quote, and [%1], [%2] for the
    arguments of [fmt.Sprintf]. *)
Fixpoint sprintf (a1 a2 : string) (s : string) : string :=
  match s with
  | EmptyString => EmptyString
  | String "%" (String "1" s') => a1 +:+ sprintf a1 a2 s'
  | String "%" (String "2" s') => a2 +:+ sprintf a1 a2 s'
  | String "'" s' => String dquote (sprintf a1 a2 s')
  | String c s' => String c (sprintf a1 a2 s')
  end.

Definition dashboardJSON (app : Application) : string := sprintf (app_Name app) "" "{
  'title': 'Forge / %1',
  'uid': 'forge-%1',
  'tags': ['forge', 'managed'],
  'panels': [
    {'title': 'Request rate', 'type': 'timeseries', 'targets': [{'expr': 'sum(rate(http_requests_total{app=\'%1\'}[5m]))'}]},
    {'title': 'p95 latency', 'type': 'timeseries', 'targets': [{'expr': 'histogram_quantile(0.95, sum(rate(http_request_duration_seconds_bucket{app=\'%1\'}[5m])) by (le))'}]},
    {'title': 'Ready replicas', 'type': 'stat', 'targets': [{'expr': 'kube_deployment_status_replicas_ready{deployment=\'%1\'}'}]}
  ]
}".

Definition alertRules (app : Application) : string :=
  let desired := desired_replicas app in
  sprintf (app_Name app) (Itoa desired) "groups:
  - name: forge-%1
    rules:
      - alert: HighErrorRate
        expr: sum(rate(http_requests_total{app='%1',status=~'5..'}[5m])) / sum(rate(http_requests_total{app='%1'}[5m])) > 0.05
        for: 10m
        labels:
          severity: page
          forge_application: %1
        annotations:
          summary: 'High 5xx error rate for %1'
      - alert: InsufficientReplicas
        expr: kube_deployment_status_replicas_ready{deployment='%1'} < %2
        for: 15m
        labels:
          severity: page
          forge_application: %1
        annotations:
          summary: '%1 has fewer ready replicas than desired'
".

Definition desiredObservability (app : Application) : ConfigMap :=
  mkConfigMap (app_Name app +:+ "-observability") (app_Namespace app)
    {[ "app.kubernetes.io/managed-by" := "forge"; "forge.dev/application" := app_Name app;
       "grafana_dashboard" := "1"; "forge.dev/prometheus-rules" := "true" ]}
    None
    {[ "dashboard.json" := dashboardJSON app; "alerts.yaml" := alertRules app ]}.

Definition desiredService (app : Application) : KService :=
  mkKService (app_Name app) (app_Namespace app) (managedLabels app) None
    {[ "forge.dev/application" := app_Name app ]} "ClusterIP"
    [mkServicePort "http" (Port (app_Spec app)) (Port (app_Spec app)) "TCP"].

(** [resource.Quantity] of apimachinery with its comparison, and [resource.ParseQuantity]. *)
Class QuantityLib := {
  Quantity : Type;
  Quantity_eq_dec :: EqDecision Quantity;
  ParseQuantity : string → option Quantity
}.

Section desired.
Context `{QuantityLib}.

(** [resource.MustParse] panics on what does not parse: the result is [None]. *)
Definition MustParse (s : string) : option Quantity := ParseQuantity s.

Definition resourceRequirements (app : Application) : option (ResourceRequirements Quantity) :=
  let def := default (mkResourceRequests "" "") (tierDefaults !! effectiveTier app) in
  let cpu := if decide (CPU (Resources (app_Spec app)) = "") then CPU def else CPU (Resources (app_Spec app)) in
  let mem := if decide (Memory (Resources (app_Spec app)) = "") then Memory def else Memory (Resources (app_Spec app)) in
  c ← MustParse cpu;
  m ← MustParse mem;
  let q := [("cpu", c); ("memory", m)] in
  Some (mkResourceRequirements q q).

Definition desiredDeployment (app : Application) : option (Deployment Quantity) :=
  let replicas := desired_replicas app in
  let labels := managedLabels app in
  let selector := {[ "forge.dev/application" := app_Name app ]} in
  let port := Port (app_Spec app) in
  resources ← resourceRequirements app;
  Some (mkDeployment (app_Name app) (app_Namespace app) labels None replicas selector labels
    {[ "prometheus.io/scrape" := "true"; "prometheus.io/port" := Itoa port ]}
    true
    [mkContainer "app" (Image (app_Spec app)) [port] (toEnvVars (Env (app_Spec app))) resources
       (tcpProbe port 15) (tcpProbe port 5)
       (mkSecurityContext true false (readOnlyRoot app) ["ALL"])]).
End desired.

(** ** Conditions and status *)

Definition with_time (c : Condition) (t : Z) : Condition :=
  mkCondition (cd_Type c) (cd_Status c) (cd_ObservedGeneration c) t (cd_Reason c) (cd_Message c).

(** The loop of [setCondition]: replace the first condition of the type, else append. *)
Fixpoint upsert_condition (conds : list Condition) (c : Condition) : list Condition :=
  match conds with
  | [] => [c]
  | x :: conds' =>
    if decide (cd_Type x = cd_Type c)
    then (if decide (cd_Status x = cd_Status c) then with_time c (cd_LastTransitionTime x) else c) :: conds'
    else x :: upsert_condition conds' c
  end.
Definition setCondition (conds : list Condition) (c : Condition) (now : Z) : list Condition :=
  let c := if decide (cd_LastTransitionTime c = 0%Z) then with_time c now else c in
  upsert_condition conds c.

Record DeploymentStatus := mkDeploymentStatus { ds_Replicas : Z; ds_ReadyReplicas : Z }.

(** The computation inside [updateStatus]: [None] when nothing changed. *)
Definition compute_status (app : Application) (dep : DeploymentStatus) (now : Z) : option ApplicationStatus :=
  let st := app_Status app in
  let desired := desired_replicas app in
  let ready := ds_ReadyReplicas dep in
  let isReady := (desired <=? ready)%Z && (0 <? desired)%Z in
  let phase := if isReady then "Ready" else "Progressing" in
  let condStatus := if isReady then "True" else "False" in
  if bool_decide (Phase st = phase) && (ReadyReplicas st =? ready)%Z &&
     (st_Replicas st =? ds_Replicas dep)%Z && (ObservedGeneration st =? app_Generation app)%Z
  then None
  else Some (mkApplicationStatus phase (app_Generation app) (ds_Replicas dep) ready
    (setCondition (Conditions st)
       (mkCondition "Available" condStatus (app_Generation app) 0 phase
          (Itoa ready +:+ "/" +:+ Itoa desired +:+ " replicas ready")) now)).

(** ** Lemmas *)

Section status_facts.

Lemma with_time_type c t : cd_Type (with_time c t) = cd_Type c.
Proof. done. Qed.

Lemma upsert_types conds c :
  map cd_Type (upsert_condition conds c) =
    if decide (cd_Type c ∈ map cd_Type conds) then map cd_Type conds else map cd_Type conds ++ [cd_Type c].
Proof.
  induction conds as [|x conds IH]; cbn [map upsert_condition]; [done|].
  destruct (decide (cd_Type x = cd_Type c)) as [Ex|Hx]; cbn [map].
  - destruct (decide (cd_Type c ∈ cd_Type x :: map cd_Type conds)) as [_|Hn].
    + rewrite Ex. by destruct (decide (cd_Status x = cd_Status c)).
    + destruct Hn. rewrite Ex. left.
  - rewrite IH. destruct (decide (cd_Type c ∈ map cd_Type conds)) as [Hin|Hin].
    + by rewrite decide_True by (by right).
    + rewrite decide_False; [done|]. rewrite elem_of_cons. naive_solver.
Qed.

Lemma upsert_others conds c x :
  cd_Type x ≠ cd_Type c → x ∈ upsert_condition conds c ↔ x ∈ conds.
Proof.
  intros Hx. induction conds as [|y conds IH]; simpl.
  - rewrite list_elem_of_singleton, elem_of_nil. naive_solver.
  - destruct (decide (cd_Type y = cd_Type c)) as [Ey|Hy].
    + rewrite !elem_of_cons. destruct (decide (cd_Status y = cd_Status c)); split; intros [->|?]; auto; by destruct Hx.
    + rewrite !elem_of_cons, IH. done.
Qed.

(** The condition that ends up stored for the type of [c]. *)
Definition upserted (conds : list Condition) (c : Condition) : Condition :=
  match list_find (λ x, cd_Type x = cd_Type c) conds with
  | Some (_, x) => if decide (cd_Status x = cd_Status c) then with_time c (cd_LastTransitionTime x) else c
  | None => c
  end.

Lemma upsert_stored conds c : upserted conds c ∈ upsert_condition conds c.
Proof.
  unfold upserted. induction conds as [|x conds IH]; simpl; [by left|].
  destruct (decide (cd_Type x = cd_Type c)) as [Ex|Hx].
  - destruct (decide (cd_Status x = cd_Status c)); left.
  - right. by destruct (list_find _ conds) as [[i y]|].
Qed.

(** A status that was just written needs no further write. *)
Lemma compute_status_again app dep now st now' v :
  compute_status app dep now = Some st →
  compute_status (mkApplication (app_Name app) (app_Namespace app) (app_Generation app) v (app_Spec app) st)
    dep now' = None.
Proof.
  unfold compute_status, desired_replicas. simpl.
  match goal with |- (if ?b then _ else _) = _ → _ => destruct b; [done|] end.
  intros [= <-]. simpl. by rewrite bool_decide_eq_true_2, !Z.eqb_refl by done.
Qed.
End status_facts.

(** ** Properties *)

(** The resources an application asks for: its overrides, else those of its tier. *)
Definition wanted_resources (app : Application) : string * string :=
  let '(cpu, mem) :=
    match effectiveTier app with
    | 1 => ("1", "1Gi") | 2 => ("500m", "512Mi") | 4 => ("100m", "128Mi") | _ => ("250m", "256Mi")
    end%Z in
  let r := Resources (app_Spec app) in
  (if decide (CPU r = "") then cpu else CPU r, if decide (Memory r = "") then mem else Memory r).

Lemma tier_default app :
  tierDefaults !! effectiveTier app =
    Some match effectiveTier app with
         | 1 => mkResourceRequests "1" "1Gi" | 2 => mkResourceRequests "500m" "512Mi"
         | 4 => mkResourceRequests "100m" "128Mi" | _ => mkResourceRequests "250m" "256Mi"
         end%Z.
Proof.
  assert (effectiveTier app = 1 ∨ effectiveTier app = 2 ∨ effectiveTier app = 3 ∨ effectiveTier app = 4)%Z as Ht.
  { unfold effectiveTier. destruct (Z.leb_spec 1 (AppTier (app_Spec app))),
      (Z.leb_spec (AppTier (app_Spec app)) 4); simpl; lia. }
  destruct Ht as [->|[->|[->| ->]]]; reflexivity.
Qed.

Lemma resourceRequirements_eq `{QuantityLib} app :
  resourceRequirements app =
    c ← ParseQuantity (wanted_resources app).1; m ← ParseQuantity (wanted_resources app).2;
    Some (mkResourceRequirements [("cpu", c); ("memory", m)] [("cpu", c); ("memory", m)]).
Proof.
  unfold resourceRequirements, wanted_resources, MustParse. rewrite tier_default. simpl.
  by destruct (effectiveTier app) as [|[[[]|[]|]|[[]|[]|]|]|].
Qed.

(** Each wanted quantity is a tier default or the application's own. *)
Lemma wanted_cases app :
  let defaults := ["1"; "1Gi"; "500m"; "512Mi"; "250m"; "256Mi"; "100m"; "128Mi"] in
  ((wanted_resources app).1 ∈ defaults ∨
     (wanted_resources app).1 ≠ "" ∧ (wanted_resources app).1 = CPU (Resources (app_Spec app))) ∧
  ((wanted_resources app).2 ∈ defaults ∨
     (wanted_resources app).2 ≠ "" ∧ (wanted_resources app).2 = Memory (Resources (app_Spec app))).
Proof.
  unfold wanted_resources.
  assert (∃ cpu mem, match effectiveTier app with
    | 1 => ("1", "1Gi") | 2 => ("500m", "512Mi") | 4 => ("100m", "128Mi") | _ => ("250m", "256Mi")
    end%Z = (cpu, mem) ∧ cpu ∈ ["1"; "500m"; "250m"; "100m"] ∧ mem ∈ ["1Gi"; "512Mi"; "256Mi"; "128Mi"])
    as (cpu & mem & -> & Hc & Hm).
  { destruct (effectiveTier app) as [|[[[]|[]|]|[[]|[]|]|]|]; eexists _, _; (split; [reflexivity|]); set_solver. }
  simpl. split; case_decide; set_solver.
Qed.

Section deployment_properties.
Context `{QuantityLib}.

(** C16: every Deployment the controller derives carries the platform standards,
    whatever the application asks for: one container that runs as non-root,
    cannot escalate privileges and drops all capabilities; a read-only root file
    system unless the application opts out explicitly; liveness and readiness
    probes on its port; and CPU and memory requests, equal to the limits, taken
    from the application or else from its tier. *)
Theorem deployment_hardened app d :
  desiredDeployment app = Some d →
  ∃ c q_cpu q_mem, dp_Containers d = [c] ∧ dp_PodRunAsNonRoot d = true ∧
    sc_RunAsNonRoot (ct_SecurityContext c) = true ∧
    sc_AllowPrivilegeEscalation (ct_SecurityContext c) = false ∧
    sc_CapabilitiesDrop (ct_SecurityContext c) = ["ALL"] ∧
    (sc_ReadOnlyRootFilesystem (ct_SecurityContext c) = false ↔
       ReadOnlyRootFilesystem (Security (app_Spec app)) = Some false) ∧
    TCPSocketPort (ct_LivenessProbe c) = Port (app_Spec app) ∧
    TCPSocketPort (ct_ReadinessProbe c) = Port (app_Spec app) ∧
    ParseQuantity (wanted_resources app).1 = Some q_cpu ∧
    ParseQuantity (wanted_resources app).2 = Some q_mem ∧
    Requests (ct_Resources c) = [("cpu", q_cpu); ("memory", q_mem)] ∧
    Limits (ct_Resources c) = Requests (ct_Resources c).
Proof.
  unfold desiredDeployment. rewrite resourceRequirements_eq.
  destruct (ParseQuantity (wanted_resources app).1) as [qc|]; [|done].
  destruct (ParseQuantity (wanted_resources app).2) as [qm|]; [|done].
  simpl. intros [= <-]. eexists _, qc, qm. split_and!; try done. simpl. unfold readOnlyRoot.
  destruct (ReadOnlyRootFilesystem _) as [[]|]; naive_solver.
Qed.

(** The derived objects fit together: the Deployment's selector and the Service's
    selector both match the pod labels, so the Service reaches exactly the pods
    of its application; its target port is a container port; the scrape
    annotation names that port; and the alert threshold is the replica count of
    the Deployment. *)
Theorem objects_fit_together app d :
  desiredDeployment app = Some d →
  dp_Selector d ⊆ dp_PodLabels d ∧ ks_Selector (desiredService app) ⊆ dp_PodLabels d ∧
  (∀ app' d', desiredDeployment app' = Some d' →
     ks_Selector (desiredService app) ⊆ dp_PodLabels d' → app_Name app' = app_Name app) ∧
  Forall (λ p, ∃ c, c ∈ dp_Containers d ∧ sp_TargetPort p ∈ ct_Ports c) (ks_Ports (desiredService app)) ∧
  dp_PodAnnotations d !! "prometheus.io/port" = Some (Itoa (Port (app_Spec app))) ∧
  ∃ body, cm_Data (desiredObservability app) !! "alerts.yaml" =
    Some (sprintf (app_Name app) (Itoa (dp_Replicas d)) body).
Proof.
  assert (∀ a n, managedLabels a !! "forge.dev/application" = Some n ↔ n = app_Name a) as Hlab.
  { intros a n. unfold managedLabels. rewrite !lookup_insert_ne by done. rewrite lookup_insert_eq. naive_solver. }
  assert (∀ a dd, desiredDeployment a = Some dd → dp_PodLabels dd = managedLabels a ∧
            dp_Selector dd = {[ "forge.dev/application" := app_Name a ]}) as Hd.
  { intros a dd. unfold desiredDeployment. destruct (resourceRequirements a); [|done]. by intros [= <-]. }
  intros E. destruct (Hd _ _ E) as [-> ->]. simpl.
  split_and!; [apply map_singleton_subseteq_l; by apply Hlab..| | | |].
  - intros a dd Ea Hs. apply Hd in Ea as [El _]. rewrite El in Hs.
    by apply map_singleton_subseteq_l, Hlab in Hs.
  - apply Forall_singleton. unfold desiredDeployment in E. destruct (resourceRequirements app); [|done].
    injection E as <-. eexists. split; [by left|]. by left.
  - unfold desiredDeployment in E. destruct (resourceRequirements app); [|done]. by injection E as <-.
  - unfold desiredDeployment in E. destruct (resourceRequirements app); [|done]. injection E as <-.
    eexists. reflexivity.
Qed.
End deployment_properties.

(** [setCondition] is an upsert by type: condition types stay unique, conditions of
    other types are untouched, and the stored condition is the new one, whose
    transition time is kept from the old one when the status did not change and
    is the present otherwise. *)
Theorem set_condition_upserts conds c now :
  NoDup (map cd_Type conds) → cd_LastTransitionTime c = 0%Z →
  NoDup (map cd_Type (setCondition conds c now)) ∧
  (∀ x, cd_Type x ≠ cd_Type c → x ∈ setCondition conds c now ↔ x ∈ conds) ∧
  ∃ t, with_time c t ∈ setCondition conds c now ∧
    (∀ x, x ∈ conds → cd_Type x = cd_Type c →
       t = if decide (cd_Status x = cd_Status c) then cd_LastTransitionTime x else now) ∧
    (cd_Type c ∉ map cd_Type conds → t = now).
Proof.
  intros Hnd Hz. unfold setCondition. rewrite decide_True by done. split_and!.
  - rewrite upsert_types. simpl. case_decide as Hin; [done|]. apply NoDup_app. split_and!; [done| |apply NoDup_singleton].
    intros x Hx ->%list_elem_of_singleton. done.
  - intros x Hx. by apply upsert_others.
  - pose proof (upsert_stored conds (with_time c now)) as Hs. unfold upserted in Hs. simpl in Hs.
    destruct (list_find (λ x, cd_Type x = cd_Type c) conds) as [[i y]|] eqn:Ef.
    + apply list_find_Some in Ef as (Hy & Hty & _).
      exists (if decide (cd_Status y = cd_Status c) then cd_LastTransitionTime y else now). split_and!.
      * by destruct (decide (cd_Status y = cd_Status c)).
      * intros x Hx Htx. apply list_elem_of_lookup in Hx as [j Hj].
        assert (i = j) as <-; [|by simplify_eq].
        eapply (NoDup_lookup (map cd_Type conds)); [done|by rewrite list_lookup_fmap, Hy|].
        rewrite list_lookup_fmap, Hj. simpl. by rewrite Htx, Hty.
      * intros Hn. destruct Hn. rewrite <- Hty. by apply list_elem_of_In, in_map, list_elem_of_In, (list_elem_of_lookup_2 _ i).
    + apply list_find_None in Ef. rewrite Forall_forall in Ef.
      exists now. split_and!; [done| |done]. intros x Hx Htx. by destruct (Ef x Hx).
Qed.

(** ** Witnesses *)

Definition demo_quantity : QuantityLib :=
  {| Quantity := string; Quantity_eq_dec := _;
     ParseQuantity s := match s with String c _ => _ ← digit c; Some s | _ => None end |}.
#[local] Existing Instance demo_quantity.

Definition demo_app (cpu : string) : Application :=
  mkApplication "payments" "default" 1 1
    (mkApplicationSpec "ghcr.io/acme/payments:1.0" 8080 2 2 [mkAppEnvVar "LOG_LEVEL" "info"]
       (mkResourceRequests cpu "") true (mkSecuritySettings None))
    (mkApplicationStatus "" 0 0 0 []).
Lemma demo_desired : ∃ d, desiredDeployment (demo_app "") = Some d.
Proof. eexists. vm_compute. reflexivity. Qed.

Lemma deployment_hardened_witness :
  ∃ d c, desiredDeployment (demo_app "") = Some d ∧ dp_Containers d = [c] ∧
    sc_ReadOnlyRootFilesystem (ct_SecurityContext c) = true ∧
    Requests (ct_Resources c) = [("cpu", "500m"); ("memory", "512Mi")].
Proof.
  destruct demo_desired as [d Ed]. destruct (deployment_hardened (demo_app "") d Ed)
    as (c & qc & qm & Hc & _ & _ & _ & _ & Hro & _ & _ & Hqc & Hqm & Hreq & _).
  exists d, c. split; [exact Ed|]. split; [exact Hc|]. split.
  - destruct (sc_ReadOnlyRootFilesystem _); [reflexivity|]. discriminate (proj1 Hro eq_refl).
  - rewrite Hreq. vm_compute in Hqc, Hqm. injection Hqc as <-. injection Hqm as <-. reflexivity.
Defined.

Lemma objects_fit_together_witness :
  ∃ d, desiredDeployment (demo_app "") = Some d ∧ ks_Selector (desiredService (demo_app "")) ⊆ dp_PodLabels d.
Proof.
  destruct demo_desired as [d Ed]. exists d. split; [exact Ed|].
  apply (objects_fit_together (demo_app "") d Ed).
Defined.

Lemma set_condition_upserts_witness :
  let old := mkCondition "Available" "False" 1 5 "Progressing" "0/1 replicas ready" in
  let new := mkCondition "Available" "True" 2 0 "Ready" "1/1 replicas ready" in
  NoDup (map cd_Type (setCondition [old] new 9)) ∧ setCondition [old] new 9 = [with_time new 9].
Proof.
  intros old new. split; [|reflexivity].
  apply (set_condition_upserts [old] new 9); [apply NoDup_singleton|reflexivity].
Defined.
