(* ===== verification/ApiServer.v ===== *)
(** * The Kubernetes API as the operator sees it (sigs.k8s.io/controller-runtime)

    The API server is outside the repository.  [Cluster] holds the objects the controller
    reads and writes; the class [Kube] decides which calls fail, what other clients
    change between two calls and how far the watches lag behind; its laws are the documented ones (a
    change of an object changes its resource version).  The client of the manager writes to the
    server and reads from informer caches: for every kind a cache, brought up to date by a
    watch that delivers the changes one after the other, and puts the requests of
    [SetupWithManager] on the queue as it does. *)
From S2P Require Import Prelude GoStrings Apperr Controller.

(** ** The API server *)

Definition not_found : goerror := EOther "not found".
Definition conflict : goerror := EOther "the object has been modified".
Definition IsNotFound (e : goerror) : bool := bool_decide (e = not_found).
Definition IsConflict (e : goerror) : bool := bool_decide (e = conflict).

Abbreviation key := (string * string)%type.

Section server.
Context `{QuantityLib}.

(** A stored object: the applied fields, the fields nobody here manages, a status. *)
Record LiveDeployment := mkLiveDeployment {
  ld_managed : Deployment Quantity;
  ld_rest : gmap string string;
  ld_status : DeploymentStatus
}.
Record Live (T : Type) := mkLive { lv_managed : T; lv_rest : gmap string string }.

Record Cluster := mkCluster {
  applications : gmap key Application;
  deployments : gmap key LiveDeployment;
  kservices : gmap key (Live KService);
  configmaps : gmap key (Live ConfigMap);
  app_rev : nat                        (** the last resource version given out *)
}.

Definition set_applications c x v := mkCluster x (deployments c) (kservices c) (configmaps c) v.
Definition set_deployments c x := mkCluster (applications c) x (kservices c) (configmaps c) (app_rev c).
Definition set_kservices c x := mkCluster (applications c) (deployments c) x (configmaps c) (app_rev c).
Definition set_configmaps c x := mkCluster (applications c) (deployments c) (kservices c) x (app_rev c).

#[global] Instance DeploymentStatus_eq_dec : EqDecision DeploymentStatus.
Proof. solve_decision. Defined.
#[global] Instance LiveDeployment_eq_dec : EqDecision LiveDeployment.
Proof. solve_decision. Defined.
#[global] Instance Live_eq_dec `{EqDecision T} : EqDecision (Live T).
Proof. solve_decision. Defined.

(** Resource versions are handed out in increasing order. *)
Definition versions_ok (c : Cluster) : Prop :=
  ∀ k a, applications c !! k = Some a → app_ResourceVersion a ≤ app_rev c.

(** An application is stored under its namespace and name. *)
Definition keyed (c : Cluster) : Prop :=
  ∀ k a, applications c !! k = Some a → (app_Namespace a, app_Name a) = k.

(** [c'] is [c] after changes of other clients: an application that is still there
    is the same object or carries a newer resource version. *)
Record evolved (c c' : Cluster) : Prop := {
  ev_rev : app_rev c ≤ app_rev c';
  ev_ok : versions_ok c → versions_ok c';
  ev_keyed : keyed c → keyed c';
  ev_apps k a' : applications c' !! k = Some a' →
    applications c !! k = Some a' ∨ app_rev c < app_ResourceVersion a'
}.

(** The kinds of objects. *)
Inductive ObjectKind := KindApplication | KindDeployment | KindService | KindConfigMap.
#[global] Instance ObjectKind_eq_dec : EqDecision ObjectKind.
Proof. solve_decision. Defined.

(** The environment of the operator, at each of its calls: whether the call fails, what other
    clients have changed, the clock, and how many of the changes that the watch of a
    kind still has to deliver have arrived. *)
Class Kube := {
  api_fault : nat → option goerror;
  interfere : nat → Cluster → Cluster;
  metav1_Now : nat → Z;
  arrived : nat → ObjectKind → nat → nat;
  interfere_evolves n c : evolved c (interfere n c)
}.

(** *** Watches

    [For] asks for the application that changed, [Owns] for the application
    that is the controller of an object that changed, before or after the change. *)
Record Builder := mkBuilder { For : ObjectKind; Owns : list ObjectKind }.

Definition SetupWithManager : Builder := mkBuilder KindApplication [KindDeployment; KindService].

Definition owner_request (ns : string) (o : option OwnerRef) : gset key :=
  match o with
  | Some r => if decide (or_Kind r = "Application") then {[ (ns, or_Name r) ]} else ∅
  | None => ∅
  end.
Definition changed_keys `{EqDecision T} (m m' : gmap key T) : gset key :=
  filter (λ k, m !! k ≠ m' !! k) (dom m ∪ dom m').
Definition owner_at {T} (own : T → option OwnerRef) (m : gmap key T) (k : key) : gset key :=
  match m !! k with Some x => owner_request k.1 (own x) | None => ∅ end.
Definition owner_requests `{EqDecision T} (own : T → option OwnerRef) (m m' : gmap key T) : gset key :=
  set_bind (λ k, owner_at own m k ∪ owner_at own m' k) (changed_keys m m').

(** [handler.EnqueueRequestForObject] and [handler.EnqueueRequestForOwner]. *)
Definition enqueue_object (kd : ObjectKind) (c c' : Cluster) : gset key :=
  match kd with
  | KindApplication => changed_keys (applications c) (applications c')
  | KindDeployment => changed_keys (deployments c) (deployments c')
  | KindService => changed_keys (kservices c) (kservices c')
  | KindConfigMap => changed_keys (configmaps c) (configmaps c')
  end.
Definition enqueue_owner (kd : ObjectKind) (c c' : Cluster) : gset key :=
  match kd with
  | KindApplication => ∅
  | KindDeployment => owner_requests (dp_Owner ∘ ld_managed) (deployments c) (deployments c')
  | KindService => owner_requests (ks_Owner ∘ lv_managed _) (kservices c) (kservices c')
  | KindConfigMap => owner_requests (cm_Owner ∘ lv_managed _) (configmaps c) (configmaps c')
  end.

(** What a change of an object of the kind asks for. *)
Definition enqueue (kd : ObjectKind) (c c' : Cluster) : gset key :=
  (if decide (For SetupWithManager = kd) then enqueue_object kd c c' else ∅) ∪
  (if decide (kd ∈ Owns SetupWithManager) then enqueue_owner kd c c' else ∅).

Definition kinds : list ObjectKind := [KindApplication; KindDeployment; KindService; KindConfigMap].

(** The requests that a change of the cluster leads to. *)
Definition notify (c c' : Cluster) : gset key := ⋃ ((λ kd, enqueue kd c c') <$> kinds).

(** *** Caches *)

(** The informer of a kind: the state its cache shows, and the later states of the
    cluster that its watch has yet to deliver, oldest first. *)
Record Informer := mkInformer { inf_cache : Cluster; inf_backlog : list Cluster }.

(** Deliver the first [n] changes. *)
Fixpoint feed (kd : ObjectKind) (n : nat) (c : Cluster) (cs : list Cluster) : gset key * Informer :=
  match n, cs with
  | S n', c' :: cs' => let '(q, i) := feed kd n' c' cs' in (enqueue kd c c' ∪ q, i)
  | _, _ => (∅, mkInformer c cs)
  end.

(** The requests that have not been delivered. *)
Fixpoint undelivered (kd : ObjectKind) (c : Cluster) (cs : list Cluster) : gset key :=
  match cs with
  | [] => ∅
  | c' :: cs' => enqueue kd c c' ∪ undelivered kd c' cs'
  end.

(** The queue holds the requests delivered and not yet taken by the worker. *)
Record KWorld := mkKWorld {
  kw_cluster : Cluster;
  kw_tick : nat;
  kw_queue : gset key;
  kw_seen : ObjectKind → Informer
}.

(** The informer hands over the next changes of its kind, as many as [f] says. *)
Definition deliver (f : ObjectKind → nat → nat) (w : KWorld) : KWorld :=
  let d kd := let i := kw_seen w kd in feed kd (f kd (length (inf_backlog i))) (inf_cache i) (inf_backlog i) in
  mkKWorld (kw_cluster w) (kw_tick w) (kw_queue w ∪ ⋃ ((λ kd, (d kd).1) <$> kinds)) (λ kd, (d kd).2).

(** The cluster has changed; the watches will tell. *)
Definition changed (c : Cluster) (w : KWorld) : KWorld :=
  mkKWorld c (kw_tick w) (kw_queue w)
    (λ kd, let i := kw_seen w kd in mkInformer (inf_cache i) (inf_backlog i ++ [c])).

Definition ticked (w : KWorld) : KWorld := mkKWorld (kw_cluster w) (S (kw_tick w)) (kw_queue w) (kw_seen w).

(** The operator starts with caches that show the cluster. *)
Definition fresh_world (c : Cluster) (n : nat) (q : gset key) : KWorld := mkKWorld c n q (λ _, mkInformer c []).

(** The requests on their way to the worker: on the queue, or in a watch. *)
Definition pending (w : KWorld) : gset key :=
  ⋃ ((λ kd, undelivered kd (inf_cache (kw_seen w kd)) (inf_backlog (kw_seen w kd))) <$> kinds).
Definition awaited (w : KWorld) : gset key := kw_queue w ∪ pending w.

(** The last state a watch will deliver is the present one. *)
Definition newest (i : Informer) : Cluster := foldl (λ _ c, c) (inf_cache i) (inf_backlog i).
Definition synced (w : KWorld) : Prop := ∀ kd, newest (kw_seen w kd) = kw_cluster w.

(** How a reconcile stops early: with an error, or by a panic. *)
Inductive stop : Type :=
| Failed (e : goerror)
| Panicked.
Definition KM (A : Type) : Type := KWorld → result stop A * KWorld.
#[global] Instance KM_ret : MRet KM := λ A a w, (Ok a, w).
#[global] Instance KM_bind : MBind KM := λ A B k m w,
  match m w with
  | (Ok a, w') => k a w'
  | (Err e, w') => (Err e, w')
  end.
End server.
Arguments mkLive {T} _ _.
Arguments lv_managed {T} _.
Arguments lv_rest {T} _.

Section calls.
Context `{Kube}.

(** Before each call other clients may act, and the watches make progress. *)
Definition await (w : KWorld) : KWorld :=
  deliver (arrived (kw_tick w)) (changed (interfere (kw_tick w) (kw_cluster w)) w).

(** A call of the API server; it can fail. *)
Definition api {A} (f : Cluster → result goerror (A * Cluster)) : KWorld → result goerror A * KWorld := λ w,
  let w1 := await w in
  match api_fault (kw_tick w) with
  | Some e => (Err e, ticked w1)
  | None =>
    match f (kw_cluster w1) with
    | Ok (a, c') => (Ok a, ticked (changed c' w1))
    | Err e => (Err e, ticked w1)
    end
  end.

(** A read from the cache of a kind. *)
Definition cached {A} (kd : ObjectKind) (f : Cluster → result goerror A) : KWorld → result goerror A * KWorld := λ w,
  let w1 := await w in
  match api_fault (kw_tick w) with
  | Some e => (Err e, ticked w1)
  | None => (f (inf_cache (kw_seen w1 kd)), ticked w1)
  end.
End calls.

(** ** Lemmas *)

(** *** Changes of other clients *)

Section server_facts.
Context `{QuantityLib}.

Lemma evolved_refl (c : Cluster) : evolved c c.
Proof. constructor; auto. Qed.

Lemma evolved_trans c1 c2 c3 : evolved c1 c2 → evolved c2 c3 → evolved c1 c3.
Proof.
  intros [R1 O1 K1 A1] [R2 O2 K2 A2]. constructor; [lia|auto|auto|].
  intros k a Ha. destruct (A2 k a Ha) as [Ha2|Hlt]; [destruct (A1 k a Ha2); auto|right; lia].
Qed.

(** *** What the watches announce *)

Lemma elem_of_changed_keys `{EqDecision T} (m m' : gmap key T) k : k ∈ changed_keys m m' ↔ m !! k ≠ m' !! k.
Proof.
  unfold changed_keys. rewrite elem_of_filter, elem_of_union, !elem_of_dom. split; [by intros []|].
  intros Hne. split; [done|]. destruct (m !! k), (m' !! k); naive_solver.
Qed.

Lemma elem_of_owner_requests `{EqDecision T} (own : T → option OwnerRef) (m m' : gmap key T) k :
  k ∈ owner_requests own m m' ↔
  ∃ j, m !! j ≠ m' !! j ∧ (k ∈ owner_at own m j ∨ k ∈ owner_at own m' j).
Proof.
  unfold owner_requests. rewrite elem_of_set_bind. setoid_rewrite elem_of_changed_keys.
  setoid_rewrite elem_of_union. naive_solver.
Qed.

Lemma changed_keys_same `{EqDecision T} (m : gmap key T) : changed_keys m m = ∅.
Proof. unfold changed_keys. set_solver. Qed.

Lemma owner_requests_same `{EqDecision T} (own : T → option OwnerRef) (m : gmap key T) : owner_requests own m m = ∅.
Proof. unfold owner_requests. rewrite changed_keys_same. set_solver. Qed.

Lemma elem_of_kinds kd : kd ∈ kinds.
Proof. destruct kd; set_solver. Qed.

(** Each kind counts once in a union over the kinds. *)
Lemma elem_of_over_kinds (f : ObjectKind → gset key) k : k ∈ ⋃ (f <$> kinds) ↔ ∃ kd, k ∈ f kd.
Proof.
  rewrite elem_of_union_list. split.
  - intros (X & HX & Hk). apply list_elem_of_fmap in HX as (kd & -> & _). eauto.
  - intros [kd Hk]. exists (f kd). split; [apply list_elem_of_fmap; eauto using elem_of_kinds|done].
Qed.

Lemma elem_of_enqueue_application c c' k :
  k ∈ enqueue KindApplication c c' ↔ applications c !! k ≠ applications c' !! k.
Proof. unfold enqueue. simpl. rewrite elem_of_union, elem_of_changed_keys. set_solver. Qed.

Lemma elem_of_enqueue_deployment c c' k :
  k ∈ enqueue KindDeployment c c' ↔ k ∈ owner_requests (dp_Owner ∘ ld_managed) (deployments c) (deployments c').
Proof. unfold enqueue. simpl. set_solver. Qed.

Lemma elem_of_enqueue_service c c' k :
  k ∈ enqueue KindService c c' ↔ k ∈ owner_requests (ks_Owner ∘ lv_managed) (kservices c) (kservices c').
Proof. unfold enqueue. simpl. set_solver. Qed.

Lemma enqueue_configmap c c' : enqueue KindConfigMap c c' = ∅.
Proof. unfold enqueue. simpl. set_solver. Qed.

Lemma elem_of_notify c c' k :
  k ∈ notify c c' ↔
  applications c !! k ≠ applications c' !! k ∨
  k ∈ owner_requests (dp_Owner ∘ ld_managed) (deployments c) (deployments c') ∨
  k ∈ owner_requests (ks_Owner ∘ lv_managed) (kservices c) (kservices c').
Proof.
  unfold notify. rewrite elem_of_over_kinds, <- elem_of_enqueue_application, <- elem_of_enqueue_deployment,
    <- elem_of_enqueue_service. split; [|naive_solver]. intros [[] Hk]; auto.
  rewrite enqueue_configmap in Hk. set_solver.
Qed.

(** Only applications, Deployments and Services are watched. *)
Lemma notify_unwatched c c' :
  applications c' = applications c → deployments c' = deployments c → kservices c' = kservices c →
  notify c c' = ∅.
Proof.
  intros Ea Ed Es. apply set_eq. intros k. rewrite elem_of_notify, Ea, Ed, Es, !owner_requests_same. set_solver.
Qed.

(** A change of an object that the application controls is announced. *)
Lemma owner_at_controlled {T} (own : T → option OwnerRef) (m : gmap key T) app x :
  let k := (app_Namespace app, app_Name app) in
  m !! k = Some x → own x = Some (mkOwnerRef "Application" (app_Name app)) → k ∈ owner_at own m k.
Proof.
  intros k Hx Ho. unfold owner_at. rewrite Hx, Ho. simpl. by apply elem_of_singleton.
Qed.

(** *** Deliveries *)

Lemma feed_undelivered kd n c cs :
  (feed kd n c cs).1 ∪ undelivered kd (inf_cache (feed kd n c cs).2) (inf_backlog (feed kd n c cs).2) =
  undelivered kd c cs.
Proof.
  revert n c. induction cs as [|c' cs IH]; intros [|n] c; simpl; [set_solver..|].
  specialize (IH n c'). destruct (feed kd n c' cs) as [q i]. simpl in *. rewrite <- IH. set_solver.
Qed.

Lemma feed_newest kd n c cs : newest (feed kd n c cs).2 = newest (mkInformer c cs).
Proof.
  revert n c. induction cs as [|c' cs IH]; intros [|n] c; simpl; [done..|].
  specialize (IH n c'). by destruct (feed kd n c' cs) as [q i].
Qed.

Lemma feed_all kd c cs : (feed kd (length cs) c cs).2 = mkInformer (newest (mkInformer c cs)) [].
Proof.
  revert c. induction cs as [|c' cs IH]; intros c; simpl; [done|]. specialize (IH c').
  destruct (feed kd (length cs) c' cs) as [q i]. simpl in *. by rewrite IH.
Qed.

Lemma undelivered_snoc kd c cs c' :
  undelivered kd c (cs ++ [c']) = undelivered kd c cs ∪ enqueue kd (newest (mkInformer c cs)) c'.
Proof.
  revert c. induction cs as [|c1 cs IH]; intros c; simpl; [unfold newest; simpl; set_solver|].
  rewrite IH. unfold newest. simpl. set_solver.
Qed.

Lemma awaited_deliver f w : awaited (deliver f w) = awaited w.
Proof.
  apply set_eq. intros k. unfold awaited, pending, deliver. cbn [kw_queue kw_seen].
  rewrite !elem_of_union, !elem_of_over_kinds. split.
  - intros [[?|[kd Hk]]|[kd Hk]]; [by left|right; exists kd..];
      rewrite <- (feed_undelivered kd (f kd (length (inf_backlog (kw_seen w kd))))); set_solver.
  - intros [?|[kd Hk]]; [by left; left|].
    rewrite <- (feed_undelivered kd (f kd (length (inf_backlog (kw_seen w kd))))) in Hk.
    apply elem_of_union in Hk as [Hk|Hk]; [left; right|right]; eauto.
Qed.

Lemma synced_deliver f w : synced w → synced (deliver f w).
Proof. intros Hw kd. simpl. rewrite feed_newest. specialize (Hw kd). by destruct (kw_seen w kd). Qed.

Lemma awaited_changed c w : synced w → awaited (changed c w) = awaited w ∪ notify (kw_cluster w) c.
Proof.
  intros Hw. apply set_eq. intros k. unfold awaited, pending, notify, changed. cbn [kw_queue kw_seen kw_cluster inf_cache inf_backlog].
  rewrite !elem_of_union, !elem_of_over_kinds.
  assert (∀ kd, undelivered kd (inf_cache (kw_seen w kd)) (inf_backlog (kw_seen w kd) ++ [c]) =
    undelivered kd (inf_cache (kw_seen w kd)) (inf_backlog (kw_seen w kd)) ∪ enqueue kd (kw_cluster w) c) as Hu.
  { intros kd. rewrite undelivered_snoc, <- (Hw kd). by destruct (kw_seen w kd). }
  split.
  - intros [?|[kd Hk]]; [by left; left|]. rewrite Hu in Hk.
    apply elem_of_union in Hk as [?|?]; [left; right|right]; by exists kd.
  - intros [[?|[kd Hk]]|[kd Hk]]; [by left|right; exists kd; rewrite Hu..]; set_solver.
Qed.

Lemma synced_changed c w : synced (changed c w).
Proof. intros kd. unfold changed, newest. simpl. by rewrite foldl_app. Qed.

Lemma awaited_fresh c n q : awaited (fresh_world c n q) = q.
Proof. unfold awaited, pending. simpl. set_solver. Qed.
Lemma synced_fresh c n q : synced (fresh_world c n q).
Proof. by intros kd. Qed.

(** *** Reads behind the watch *)

(** A property of the objects of a kind that some change between the cache and the
    cluster has touched. *)
Lemma stale_undelivered {T} (get : Cluster → T) `{EqDecision T} kd k c cs :
  (∀ c1 c2, get c1 ≠ get c2 → get c2 = get (newest (mkInformer c cs)) → k ∈ enqueue kd c1 c2) →
  get c ≠ get (newest (mkInformer c cs)) → k ∈ undelivered kd c cs.
Proof.
  revert c. induction cs as [|c' cs IH]; intros c Hask Hne; [done|]. simpl.
  assert (newest (mkInformer c (c' :: cs)) = newest (mkInformer c' cs)) as E by done.
  rewrite E in *. destruct (decide (get c' = get (newest (mkInformer c' cs)))) as [E'|Hn].
  - apply elem_of_union_l, Hask; [congruence|done].
  - apply elem_of_union_r. by apply IH.
Qed.

(** An application that the cache shows differently is awaited. *)
Lemma stale_application w k :
  synced w → applications (inf_cache (kw_seen w KindApplication)) !! k ≠ applications (kw_cluster w) !! k → k ∈ awaited w.
Proof.
  intros Hw Hne. unfold awaited, pending. apply elem_of_union_r, elem_of_over_kinds. exists KindApplication.
  rewrite <- (Hw KindApplication) in Hne. destruct (kw_seen w KindApplication) as [c cs].
  apply (stale_undelivered (λ c, applications c !! k)); [|done].
  intros c1 c2 Hc _. by apply elem_of_enqueue_application.
Qed.

(** So is the application that controls a Deployment. *)
Lemma stale_deployment w app l :
  let k := (app_Namespace app, app_Name app) in
  synced w → deployments (kw_cluster w) !! k = Some l →
  dp_Owner (ld_managed l) = Some (mkOwnerRef "Application" (app_Name app)) →
  deployments (inf_cache (kw_seen w KindDeployment)) !! k ≠ Some l → k ∈ awaited w.
Proof.
  intros k Hw Hl Ho Hne. unfold awaited, pending. apply elem_of_union_r, elem_of_over_kinds. exists KindDeployment.
  rewrite <- Hl, <- (Hw KindDeployment) in Hne. rewrite <- (Hw KindDeployment) in Hl.
  destruct (kw_seen w KindDeployment) as [c cs].
  apply (stale_undelivered (λ c, deployments c !! k)); [|done].
  intros c1 c2 Hc Hlast. assert (deployments c2 !! k = Some l) by (etrans; [exact Hlast|exact Hl]).
  apply elem_of_enqueue_deployment, elem_of_owner_requests.
  exists k. split; [done|]. right. by eapply owner_at_controlled.
Qed.
End server_facts.

(** *** Calls *)

Section call_facts.
Context `{Kube}.

Lemma await_cluster w : kw_cluster (await w) = interfere (kw_tick w) (kw_cluster w).
Proof. done. Qed.
Lemma synced_await w : synced (await w).
Proof. apply synced_deliver, synced_changed. Qed.
Lemma awaited_await w :
  synced w → awaited (await w) = awaited w ∪ notify (kw_cluster w) (interfere (kw_tick w) (kw_cluster w)).
Proof. intros Hw. unfold await. by rewrite awaited_deliver, awaited_changed. Qed.

(** *** Versions identify what the cache shows *)

(** Every state the watch of the applications has shown or will show: its applications carry
    versions given out, and one that carries the version of the stored application is that
    application. *)
Definition shown (w : KWorld) : list Cluster :=
  inf_cache (kw_seen w KindApplication) :: inf_backlog (kw_seen w KindApplication).
Record coherent (w : KWorld) : Prop := {
  co_ok : versions_ok (kw_cluster w);
  co_old c k a : c ∈ shown w → applications c !! k = Some a → app_ResourceVersion a ≤ app_rev (kw_cluster w);
  co_same c k a a' : c ∈ shown w → applications c !! k = Some a → applications (kw_cluster w) !! k = Some a' →
    app_ResourceVersion a' = app_ResourceVersion a → a' = a
}.

Lemma coherent_changed c w : coherent w → evolved (kw_cluster w) c → coherent (changed c w).
Proof.
  intros [Hok Hold Hsame] Hev. pose proof (ev_ok _ _ Hev Hok) as Hok'.
  assert (∀ x, x ∈ shown (changed c w) → x ∈ shown w ∨ x = c) as Hshown.
  { intros x. unfold shown. simpl. rewrite !elem_of_cons, elem_of_app, list_elem_of_singleton. naive_solver. }
  split; [done| |].
  - intros x k a [Hx| ->]%Hshown Ha; [|by apply (Hok' k)].
    pose proof (ev_rev _ _ Hev). pose proof (Hold _ _ _ Hx Ha). simpl. lia.
  - intros x k a a' [Hx| ->]%Hshown Ha Ha' Hv; simpl in *; [|congruence].
    destruct (ev_apps _ _ Hev k a' Ha') as [Hl|Hlt]; [by eapply Hsame|].
    pose proof (Hold _ _ _ Hx Ha). lia.
Qed.

Lemma feed_shown kd n c cs x :
  x ∈ inf_cache (feed kd n c cs).2 :: inf_backlog (feed kd n c cs).2 → x ∈ c :: cs.
Proof.
  revert n c. induction cs as [|c' cs IH]; intros [|n] c; simpl; [done..|].
  specialize (IH n c'). destruct (feed kd n c' cs) as [q i]. simpl in *. intros Hx%IH. by right.
Qed.

Lemma coherent_deliver f w : coherent w → coherent (deliver f w).
Proof.
  intros [Hok Hold Hsame].
  assert (∀ x, x ∈ shown (deliver f w) → x ∈ shown w) as Hs by (intros x; apply feed_shown).
  split; [done|intros c k a Hc%Hs; by apply Hold|intros c k a a' Hc%Hs; by apply Hsame].
Qed.

Lemma coherent_await w : coherent w → coherent (await w).
Proof. intros Hw. by apply coherent_deliver, coherent_changed; [|apply interfere_evolves]. Qed.

Lemma coherent_fresh c n q : versions_ok c → coherent (fresh_world c n q).
Proof.
  intros Hok. split; [done| |].
  - intros x k a ->%list_elem_of_singleton. apply Hok.
  - intros x k a a' ->%list_elem_of_singleton. simpl. congruence.
Qed.

(** *** What every call keeps *)

(** A request to the server that hands out new versions for what it changes. *)
Definition lawful {A} (f : Cluster → result goerror (A * Cluster)) : Prop :=
  ∀ c a c', f c = Ok (a, c') → evolved c c'.

Lemma lawful_write (g : Cluster → Cluster) :
  (∀ c, applications (g c) = applications c) → (∀ c, app_rev (g c) = app_rev c) → lawful (λ c, Ok (tt, g c)).
Proof.
  intros Ha Hr c [] c' [= <-]. constructor.
  - by rewrite Hr.
  - intros Hok k a. rewrite Ha, Hr. apply Hok.
  - intros Hk k a. rewrite Ha. apply Hk.
  - intros k a. rewrite Ha. auto.
Qed.

(** A property kept by changes of the cluster, deliveries and ticks is kept by calls. *)
Section keeps.
Context (P : KWorld → Prop).
Context (Hchanged : ∀ c w, evolved (kw_cluster w) c → P w → P (changed c w)).
Context (Hdeliver : ∀ f w, P w → P (deliver f w)) (Hticked : ∀ w, P w → P (ticked w)).

Lemma await_keeps w : P w → P (await w).
Proof using Hchanged Hdeliver. intros Hw. by apply Hdeliver, Hchanged; [apply interfere_evolves|]. Qed.

Lemma api_keeps {A} (f : Cluster → result goerror (A * Cluster)) w : lawful f → P w → P (api f w).2.
Proof using Hchanged Hdeliver Hticked.
  intros Hf Hw%await_keeps. unfold api. destruct (api_fault _); [by apply Hticked|].
  destruct (f _) as [[a c']|e] eqn:E; simpl; apply Hticked; [|done]. apply Hchanged; [|done]. by eapply Hf.
Qed.

Lemma cached_keeps {A} kd (f : Cluster → result goerror A) w : P w → P (cached kd f w).2.
Proof using Hchanged Hdeliver Hticked.
  intros Hw%await_keeps. unfold cached. destruct (api_fault _); by apply Hticked.
Qed.
End keeps.
End call_facts.
