(* ===== verification/Reconciler.v ===== *)
(** * Reconciling an Application (internal/controller)

    [Reconcile] and [updateStatus] against the API of [ApiServer]: objects are read from
    the caches of the manager's client and written to the server.  Server-side apply with
    forced ownership sets the fields of the applied configuration and leaves all other
    fields alone; the status is written over the version that was read. *)
From S2P Require Import Prelude GoStrings Apperr Controller ApiServer.

Section reconcile.
Context `{Kube}.

(** [r.Get] reads from the cache of the kind. *)
Definition Get_application (k : key) : KWorld → result goerror Application * KWorld :=
  cached KindApplication (λ c, or_err (applications c !! k) not_found).
Definition Get_deployment (k : key) : KWorld → result goerror LiveDeployment * KWorld :=
  cached KindDeployment (λ c, or_err (deployments c !! k) not_found).

(** Server-side apply of the three kinds.  When the server refuses one (a selector that is
    immutable and differs, a field it does not accept) the call fails: [api_fault]. *)
Definition Patch_deployment (d : Deployment Quantity) : KWorld → result goerror unit * KWorld :=
  api (λ c, let k := (dp_Namespace d, dp_Name d) in
    let l := match deployments c !! k with
             | Some l => mkLiveDeployment d (ld_rest l) (ld_status l)
             | None => mkLiveDeployment d ∅ (mkDeploymentStatus 0 0)
             end in
    Ok (tt, set_deployments c (<[k := l]> (deployments c)))).
Definition Patch_service (s : KService) : KWorld → result goerror unit * KWorld :=
  api (λ c, let k := (ks_Namespace s, ks_Name s) in
    let l := match kservices c !! k with Some l => mkLive s (lv_rest l) | None => mkLive s ∅ end in
    Ok (tt, set_kservices c (<[k := l]> (kservices c)))).
Definition Patch_configmap (m : ConfigMap) : KWorld → result goerror unit * KWorld :=
  api (λ c, let k := (cm_Namespace m, cm_Name m) in
    let l := match configmaps c !! k with Some l => mkLive m (lv_rest l) | None => mkLive m ∅ end in
    Ok (tt, set_configmaps c (<[k := l]> (configmaps c)))).

(** [r.Status().Update]: only the status is written, and only over the version that
    was read. *)
Definition update_status_at (k : key) (app : Application) (c : Cluster) : result goerror (unit * Cluster) :=
  stored ← or_err (applications c !! k) not_found;
  if decide (app_ResourceVersion stored = app_ResourceVersion app) then
    let v := S (app_rev c) in
    Ok (tt, set_applications c (<[k := mkApplication (app_Name stored) (app_Namespace stored)
          (app_Generation stored) v (app_Spec stored) (app_Status app)]> (applications c)) v)
  else Err conflict.
Definition Status_Update (k : key) (app : Application) : KWorld → result goerror unit * KWorld :=
  api (update_status_at k app).

Definition with_status (app : Application) (st : ApplicationStatus) : Application :=
  mkApplication (app_Name app) (app_Namespace app) (app_Generation app) (app_ResourceVersion app)
    (app_Spec app) st.

(** One run of the closure of [updateStatus]: the variable [wrote] and the error. *)
Definition status_attempt (k : key) (dep : DeploymentStatus) (wrote : bool) (w : KWorld)
    : bool * result goerror unit * KWorld :=
  match Get_application k w with
  | (Err e, w1) => (wrote, Err e, w1)
  | (Ok app, w1) =>
    match compute_status app dep (metav1_Now (kw_tick w1)) with
    | None => (false, Ok tt, w1)
    | Some st => let '(r, w2) := Status_Update k (with_status app st) w1 in (true, r, w2)
    end
  end.

(** [retry.RetryOnConflict]: at most [n + 1] runs. *)
Fixpoint RetryOnConflict (n : nat) (k : key) (dep : DeploymentStatus) (wrote : bool) (w : KWorld)
    : bool * result goerror unit * KWorld :=
  let '(wrote', r, w') := status_attempt k dep wrote w in
  match r, n with
  | Err e, S n' => if IsConflict e then RetryOnConflict n' k dep wrote' w' else (wrote', Err e, w')
  | _, _ => (wrote', r, w')
  end.

(** [retry.DefaultRetry] has five steps. *)
Definition DefaultRetry_Steps : nat := 5.

Definition updateStatus (k : key) (dep : DeploymentStatus) (w : KWorld) : bool * result goerror unit * KWorld :=
  RetryOnConflict (DefaultRetry_Steps - 1) k dep false w.

(** A request whose error is wrapped and returned. *)
Definition or_fail {A} (p : string) (m : KWorld → result goerror A * KWorld) : KM A := λ w,
  match m w with
  | (Ok a, w') => (Ok a, w')
  | (Err e, w') => (Err (Failed (EWrap p e)), w')
  end.

Definition owner_of (app : Application) : option OwnerRef := Some (mkOwnerRef "Application" (app_Name app)).

(** [ctrl.SetControllerReference] on a fresh object of the same namespace. *)
Definition own_deployment (app : Application) (d : Deployment Quantity) : Deployment Quantity :=
  mkDeployment (dp_Name d) (dp_Namespace d) (dp_Labels d) (owner_of app) (dp_Replicas d) (dp_Selector d)
    (dp_PodLabels d) (dp_PodAnnotations d) (dp_PodRunAsNonRoot d) (dp_Containers d).
Definition own_service (app : Application) (s : KService) : KService :=
  mkKService (ks_Name s) (ks_Namespace s) (ks_Labels s) (owner_of app) (ks_Selector s) (ks_Type s) (ks_Ports s).
Definition own_configmap (app : Application) (m : ConfigMap) : ConfigMap :=
  mkConfigMap (cm_Name m) (cm_Namespace m) (cm_Labels m) (owner_of app) (cm_Data m).

Definition or_panic {A} (o : option A) : KM A := λ w,
  match o with Some a => (Ok a, w) | None => (Err Panicked, w) end.

(** The last step of [Reconcile]; whether a write happened is only logged. *)
Definition report_status (k : key) (dep : DeploymentStatus) : KM unit := λ w,
  let '(_, r, w') := updateStatus k dep w in
  match r with Ok _ => (Ok tt, w') | Err e => (Err (Failed e), w') end.

Definition Reconcile (k : key) : KM unit := λ w,
  match Get_application k w with
  | (Err e, w1) => if IsNotFound e then (Ok tt, w1) else (Err (Failed e), w1)
  | (Ok app, w1) =>
    (dep ← or_panic (own_deployment app <$> desiredDeployment app);
     _ ← or_fail "apply deployment" (Patch_deployment dep);
     _ ← (if Expose (app_Spec app)
          then or_fail "apply service" (Patch_service (own_service app (desiredService app)))
          else mret tt);
     _ ← or_fail "apply observability" (Patch_configmap (own_configmap app (desiredObservability app)));
     live ← or_fail "read deployment status" (Get_deployment (dp_Namespace dep, dp_Name dep));
     report_status k (ld_status live)) w1
  end.
End reconcile.

(** ** Lemmas *)

(** *** What the calls of a run keep *)

Lemma lawful_status `{QuantityLib} k app : lawful (update_status_at k app).
Proof.
  intros c [] c'. unfold update_status_at. destruct (applications c !! k) as [stored|] eqn:Ha; simpl; [|done].
  case_decide; [|done]. intros [= <-]. constructor; simpl.
  - lia.
  - intros Hok j a. simpl. destruct (decide (j = k)) as [->|]; [rewrite lookup_insert_eq; by intros [= <-]|].
    rewrite lookup_insert_ne by done. intros Hj%Hok. lia.
  - intros Hk j a. simpl. destruct (decide (j = k)) as [->|].
    + rewrite lookup_insert_eq. intros [= <-]. by apply (Hk _ _ Ha).
    + rewrite lookup_insert_ne by done. apply Hk.
  - intros j a. simpl. destruct (decide (j = k)) as [->|]; [rewrite lookup_insert_eq; intros [= <-]; simpl; right; lia|].
    rewrite lookup_insert_ne by done. auto.
Qed.

Section run_keeps.
Context `{Kube} (P : KWorld → Prop).
Context (Hapi : ∀ A f w, lawful f → P w → P (@api _ _ A f w).2).
Context (Hcached : ∀ A kd f w, P w → P (@cached _ _ A kd f w).2).

Lemma status_attempt_keeps k dep wrote w : P w → P (status_attempt k dep wrote w).2.
Proof using Hapi Hcached.
  intros Hw. unfold status_attempt. assert (P (Get_application k w).2) as Hg by (by apply Hcached).
  destruct (Get_application k w) as [[app|] w2]; [|done].
  destruct (compute_status _ _ _) as [st|]; [|done].
  assert (P (Status_Update k (with_status app st) w2).2) as Hu by (apply Hapi; [apply lawful_status|done]).
  by destruct (Status_Update k (with_status app st) w2).
Qed.

Lemma RetryOnConflict_keeps n k dep wrote w : P w → P (RetryOnConflict n k dep wrote w).2.
Proof using Hapi Hcached.
  revert wrote w. induction n as [|n IH]; intros wrote w Hw; simpl;
    pose proof (status_attempt_keeps k dep wrote w Hw) as H1;
    destruct (status_attempt k dep wrote w) as [[wr [[]|e]] w1]; try done.
  destruct (IsConflict e); [by apply IH|done].
Qed.

Lemma or_fail_keeps {A} p (m : KWorld → result goerror A * KWorld) w : (∀ w, P w → P (m w).2) → P w → P (or_fail p m w).2.
Proof. intros Hm Hw. unfold or_fail. specialize (Hm w Hw). by destruct (m w) as [[]]. Qed.

Lemma bind_keeps {A B} (m : KM A) (h : A → KM B) w :
  P (m w).2 → (∀ a w', P w' → P (h a w').2) → P ((m ≫= h) w).2.
Proof. intros Hm Hh. unfold mbind, KM_bind. destruct (m w) as [[a|] w']; simpl in *; auto. Qed.

Lemma Reconcile_keeps k w : P w → P (Reconcile k w).2.
Proof using Hapi Hcached.
  intros Hw. unfold Reconcile. assert (P (Get_application k w).2) as Hg by (by apply Hcached).
  destruct (Get_application k w) as [[app|e] w1]; [|by destruct (IsNotFound e)]. simpl in Hg.
  apply bind_keeps; [by destruct (own_deployment app <$> desiredDeployment app)|]. intros dep w2 H2.
  apply bind_keeps; [apply or_fail_keeps; [intros w3; apply Hapi; by apply lawful_write|done]|]. intros _ w3 H3.
  apply bind_keeps.
  { destruct (Expose _); [apply or_fail_keeps; [intros w4; apply Hapi; by apply lawful_write|done]|done]. }
  intros _ w4 H4. apply bind_keeps; [apply or_fail_keeps; [intros w5; apply Hapi; by apply lawful_write|done]|].
  intros _ w5 H5. apply bind_keeps; [apply or_fail_keeps; [intros w6; apply Hcached|done]|].
  intros live w6 H6. unfold report_status, updateStatus.
  pose proof (RetryOnConflict_keeps (DefaultRetry_Steps - 1) k (ld_status live) false w6 H6) as H7.
  by destruct (RetryOnConflict _ _ _ _ _) as [[wr [[]|]] w7].
Qed.
End run_keeps.

(** *** The status write *)

Section status_facts.
Context `{Kube}.

Lemma Get_application_inv k w r w' :
  Get_application k w = (r, w') →
  kw_cluster w' = interfere (kw_tick w) (kw_cluster w) ∧
  match r with
  | Ok app => applications (inf_cache (kw_seen w' KindApplication)) !! k = Some app
  | Err _ => True
  end.
Proof.
  unfold Get_application, cached. destruct (api_fault (kw_tick w)); [by intros [= <- <-]|].
  intros [= <- <-]. split; [done|]. cbn [kw_seen ticked]. by destruct (applications _ !! k).
Qed.

(** What a successful status write did. *)
Definition status_written (k : key) (dep : DeploymentStatus) (c0 c' : Cluster) : Prop :=
  ∃ app st t c, evolved c0 c ∧ applications c !! k = Some app ∧ compute_status app dep t = Some st ∧
    c' = set_applications c (<[k := mkApplication (app_Name app) (app_Namespace app) (app_Generation app)
           (S (app_rev c)) (app_Spec app) st]> (applications c)) (S (app_rev c)).

(** The stored application has the version the cache showed, so it is what the cache showed. *)
Lemma Status_Update_inv k app w r w' :
  coherent w → applications (inf_cache (kw_seen w KindApplication)) !! k = Some app →
  ∀ st, Status_Update k (with_status app st) w = (r, w') →
  match r with
  | Err _ => kw_cluster w' = interfere (kw_tick w) (kw_cluster w)
  | Ok _ => let c := interfere (kw_tick w) (kw_cluster w) in
      applications c !! k = Some app ∧
      kw_cluster w' = set_applications c (<[k := mkApplication (app_Name app) (app_Namespace app)
        (app_Generation app) (S (app_rev c)) (app_Spec app) st]> (applications c)) (S (app_rev c))
  end.
Proof.
  intros Hco Happ st. unfold Status_Update, update_status_at, api. rewrite await_cluster. set (c := interfere _ _).
  destruct (api_fault (kw_tick w)); [by intros [= <- <-]|].
  destruct (applications c !! k) as [a|] eqn:Ea; simpl; [|by intros [= <- <-]].
  destruct (decide (app_ResourceVersion a = app_ResourceVersion app)) as [Hv|]; [|by intros [= <- <-]].
  assert (coherent (changed c w)) as Hco' by (apply coherent_changed; [done|apply interfere_evolves]).
  assert (a = app) as ->; [|by intros [= <- <-]].
  eapply (co_same _ Hco'); [|exact Happ|exact Ea|done]. unfold shown. simpl. by left.
Qed.

(** What [updateStatus] may have done, given what it returned. *)
Definition status_outcome k dep (wrote : bool) (r : result goerror unit) (c c' : Cluster) : Prop :=
  match r with
  | Ok _ => if wrote then status_written k dep c c' else evolved c c'
  | Err _ => evolved c c'
  end.

Lemma status_outcome_trans k dep wrote r c1 c2 c3 :
  evolved c1 c2 → status_outcome k dep wrote r c2 c3 → status_outcome k dep wrote r c1 c3.
Proof.
  unfold status_outcome. intros He. destruct r as [[]|]; [destruct wrote|]; try by apply evolved_trans.
  intros (a & s & t & c & He2 & Hrest). exists a, s, t, c. split; [|done]. by eapply evolved_trans.
Qed.

Lemma coherent_ticked w : coherent w → coherent (ticked w).
Proof. by intros [? ? ?]. Qed.

Lemma api_coherent {A} (f : Cluster → result goerror (A * Cluster)) w : lawful f → coherent w → coherent (api f w).2.
Proof. apply api_keeps; auto using coherent_changed, coherent_deliver, coherent_ticked. Qed.

Lemma cached_coherent {A} kd (f : Cluster → result goerror A) w : coherent w → coherent (cached kd f w).2.
Proof. apply cached_keeps; auto using coherent_changed, coherent_deliver, coherent_ticked. Qed.

Lemma status_attempt_inv k dep wrote w wrote' r w' :
  coherent w → status_attempt k dep wrote w = (wrote', r, w') →
  status_outcome k dep wrote' r (kw_cluster w) (kw_cluster w') ∧ coherent w'.
Proof.
  intros Hco E. split.
  2:{ replace w' with (status_attempt k dep wrote w).2 by (by rewrite E).
      by apply (status_attempt_keeps coherent (@api_coherent) (@cached_coherent)). }
  revert E. unfold status_attempt.
  assert (coherent (Get_application k w).2) as Hco1 by (by apply cached_coherent).
  destruct (Get_application k w) as [[app|e] w1] eqn:Eg; apply Get_application_inv in Eg as [Hc Happ];
    pose proof (interfere_evolves (kw_tick w) (kw_cluster w)) as Hev; rewrite <- Hc in Hev;
    [|by intros [= <- <- <-]].
  destruct (compute_status _ _ _) as [st|] eqn:Es; [|by intros [= <- <- <-]].
  destruct (Status_Update _ _ _) as [r2 w2] eqn:Eu. intros [= <- <- <-].
  apply Status_Update_inv in Eu; [|done..]. eapply status_outcome_trans; [exact Hev|].
  pose proof (interfere_evolves (kw_tick w1) (kw_cluster w1)) as Hev2.
  destruct r2 as [[]|e2]; simpl; [|by rewrite Eu]. destruct Eu as [Ha Hd].
  by exists app, st, (metav1_Now (kw_tick w1)), (interfere (kw_tick w1) (kw_cluster w1)).
Qed.

Lemma RetryOnConflict_inv n k dep wrote w wrote' r w' :
  coherent w → RetryOnConflict n k dep wrote w = (wrote', r, w') →
  status_outcome k dep wrote' r (kw_cluster w) (kw_cluster w').
Proof.
  revert wrote w. induction n as [|n IH]; intros wrote w Hok; simpl;
    destruct (status_attempt k dep wrote w) as [[wr1 r1] w1] eqn:Ea;
    apply status_attempt_inv in Ea as [Ea Hco]; try done.
  - destruct r1; by intros [= <- <- <-].
  - destruct r1 as [[]|e]; [by intros [= <- <- <-]|]. simpl in Ea.
    destruct (IsConflict e); [|by intros [= <- <- <-]]. intros E.
    eapply status_outcome_trans; [exact Ea|]. by eapply IH.
Qed.
End status_facts.

(** ** Reconciling an undisturbed cluster *)

Section calm.
Context `{Kube}.

Record kube_calm : Prop := {
  kc_fault n : api_fault n = None;
  kc_still n c : interfere n c = c;
  kc_fresh n kd len : arrived n kd len = len
}.

Definition live_deployment (d : Deployment Quantity) (c : Cluster) : LiveDeployment :=
  match deployments c !! (dp_Namespace d, dp_Name d) with
  | Some l => mkLiveDeployment d (ld_rest l) (ld_status l)
  | None => mkLiveDeployment d ∅ (mkDeploymentStatus 0 0)
  end.
Definition live_of {T} (x : T) (o : option (Live T)) : Live T :=
  match o with Some l => mkLive x (lv_rest l) | None => mkLive x ∅ end.

Lemma live_of_managed {T} (x : T) o : lv_managed (live_of x o) = x.
Proof. by destruct o. Qed.

(** The cluster after each of the three applies, and after all. *)
Definition apply_deployment (app : Application) (d : Deployment Quantity) (c : Cluster) : Cluster :=
  set_deployments c (<[(app_Namespace app, app_Name app) := live_deployment (own_deployment app d) c]> (deployments c)).
Definition apply_service (app : Application) (c : Cluster) : Cluster :=
  let k := (app_Namespace app, app_Name app) in
  set_kservices c (if Expose (app_Spec app)
    then <[k := live_of (own_service app (desiredService app)) (kservices c !! k)]> (kservices c)
    else kservices c).
Definition apply_configmap (app : Application) (c : Cluster) : Cluster :=
  let k := (app_Namespace app, app_Name app +:+ "-observability") in
  set_configmaps c (<[k := live_of (own_configmap app (desiredObservability app)) (configmaps c !! k)]> (configmaps c)).
Definition applied (app : Application) (d : Deployment Quantity) (c : Cluster) : Cluster :=
  apply_configmap app (apply_service app (apply_deployment app d c)).

(** The cluster after the status update. *)
Definition reported (k : key) (app : Application) (dep : DeploymentStatus) (now : Z) (c : Cluster) : Cluster :=
  match compute_status app dep now with
  | None => c
  | Some st => set_applications c (<[k := mkApplication (app_Name app) (app_Namespace app)
      (app_Generation app) (S (app_rev c)) (app_Spec app) st]> (applications c)) (S (app_rev c))
  end.

Lemma desired_key app d :
  desiredDeployment app = Some d → dp_Namespace d = app_Namespace app ∧ dp_Name d = app_Name app.
Proof. unfold desiredDeployment. destruct (resourceRequirements app); [|done]. by intros [= <-]. Qed.

(** The requests that a run announces through its own writes: the writes of the
    Deployment, of the Service and of the status are watched. *)
Definition announced (app : Application) (d : Deployment Quantity) (now : Z) (c : Cluster) : gset key :=
  let k := (app_Namespace app, app_Name app) in
  let c1 := apply_deployment app d c in
  let c2 := apply_service app c1 in
  let dep := ld_status (live_deployment (own_deployment app d) c) in
  notify c c1 ∪ notify c1 c2 ∪ notify (applied app d c) (reported k app dep now (applied app d c)).

Context (Hcalm : kube_calm).

(** The world as far as the theorems speak of it: the cluster, and the requests on their way. *)
Definition shows (w : KWorld) (c : Cluster) (q : gset key) : Prop :=
  kw_cluster w = c ∧ awaited w = q ∧ synced w.

Lemma shows_ticked w c q : shows w c q → shows (ticked w) c q.
Proof. by intros (? & ? & ?). Qed.

(** The watches are up to date at each call. *)
Lemma await_calm w c q :
  shows w c q → shows (await w) c q ∧ ∀ kd, inf_cache (kw_seen (await w) kd) = c.
Proof using Hcalm.
  intros (Hc & Hq & Hs). split.
  - split_and!; [by rewrite await_cluster, (kc_still Hcalm)| |apply synced_await].
    by rewrite awaited_await, (kc_still Hcalm), notify_unwatched, union_empty_r_L.
  - intros kd. unfold await, deliver. cbn [kw_seen]. rewrite (kc_fresh Hcalm), feed_all. simpl.
    unfold newest. simpl. by rewrite foldl_app, (kc_still Hcalm).
Qed.

Lemma cached_calm {A} kd (f : Cluster → result goerror A) w c q :
  shows w c q → ∃ w', cached kd f w = (f c, w') ∧ shows w' c q.
Proof using Hcalm.
  intros [Hw Hs]%await_calm. unfold cached. rewrite (kc_fault Hcalm), Hs.
  eexists. split; [done|]. by apply shows_ticked.
Qed.

Lemma api_calm {A} (f : Cluster → result goerror (A * Cluster)) w c q a c' :
  shows w c q → f c = Ok (a, c') → ∃ w', api f w = (Ok a, w') ∧ shows w' c' (q ∪ notify c c').
Proof using Hcalm.
  intros [(Hc & Hq & Hs) _]%await_calm Hf. unfold api. rewrite (kc_fault Hcalm), Hc, Hf.
  eexists. split; [done|]. apply shows_ticked. split_and!; [done| |apply synced_changed].
  by rewrite awaited_changed, Hc, Hq.
Qed.

Lemma updateStatus_calm k app dep w c q :
  shows w c q → applications c !! k = Some app →
  ∃ now wrote w', let c' := reported k app dep now c in
    updateStatus k dep w = (wrote, Ok tt, w') ∧ shows w' c' (q ∪ notify c c').
Proof using Hcalm.
  intros Hw Ha. unfold updateStatus. simpl. unfold status_attempt, Get_application.
  destruct (cached_calm KindApplication (λ c, or_err (applications c !! k) not_found) w c q Hw) as (w1 & -> & Hw1).
  rewrite Ha. simpl. unfold reported. exists (metav1_Now (kw_tick w1)). destruct (compute_status _ _ _) as [st|].
  - unfold Status_Update, update_status_at. match goal with |- context [api ?f ?w] =>
      edestruct (api_calm f w c) as (w2 & -> & Hw2); [exact Hw1| |] end.
    + rewrite Ha. simpl. by rewrite decide_True.
    + eauto.
  - eexists _, _. split; [done|]. by rewrite notify_unwatched, union_empty_r_L by done.
Qed.

(** The writes of the three kinds, in the terms of the state they leave. *)
Lemma Patch_deployment_calm app d w c q :
  shows w c q → desiredDeployment app = Some d →
  let c' := apply_deployment app d c in
  ∃ w', Patch_deployment (own_deployment app d) w = (Ok tt, w') ∧ shows w' c' (q ∪ notify c c').
Proof using Hcalm.
  intros Hw [Hns Hnm]%desired_key c'. unfold Patch_deployment. eapply api_calm; [done|].
  unfold c', apply_deployment, live_deployment. simpl. by rewrite Hns, Hnm.
Qed.

Lemma Patch_service_calm app w c q :
  shows w c q →
  let c' := apply_service app c in
  ∃ w', (if Expose (app_Spec app)
        then or_fail "apply service" (Patch_service (own_service app (desiredService app)))
        else mret tt) w = (Ok tt, w') ∧ shows w' c' (q ∪ notify c c').
Proof using Hcalm.
  intros Hw c'. unfold c', apply_service, or_fail, Patch_service. destruct (Expose (app_Spec app)).
  - match goal with |- context [api ?f ?w] =>
      destruct (api_calm f w c q _ _ Hw eq_refl) as (w2 & -> & Hw2) end. by eexists.
  - exists w. split; [done|]. rewrite notify_unwatched, union_empty_r_L by done. by destruct c.
Qed.

Lemma Patch_configmap_calm app w c q :
  shows w c q →
  ∃ w', Patch_configmap (own_configmap app (desiredObservability app)) w = (Ok tt, w') ∧
    shows w' (apply_configmap app c) q.
Proof using Hcalm.
  intros Hw. unfold Patch_configmap. match goal with |- context [api ?f ?w] =>
    destruct (api_calm f w c q _ _ Hw eq_refl) as (w2 & E & Hw2) end.
  exists w2. split; [exact E|]. by rewrite notify_unwatched, union_empty_r_L in Hw2 by done.
Qed.

Lemma Reconcile_calm app d w c q :
  let k := (app_Namespace app, app_Name app) in
  shows w c q → applications c !! k = Some app → desiredDeployment app = Some d →
  ∃ now w', Reconcile k w = (Ok tt, w') ∧
    shows w' (reported k app (ld_status (live_deployment (own_deployment app d) c)) now (applied app d c))
      (q ∪ announced app d now c).
Proof using Hcalm.
  intros k Hw Ha Hd. destruct (desired_key _ _ Hd) as [Hns Hnm]. unfold Reconcile, Get_application.
  destruct (cached_calm KindApplication (λ c, or_err (applications c !! k) not_found) w c q Hw) as (w1 & -> & Hw1).
  rewrite Ha. simpl. rewrite Hd. unfold mbind, KM_bind, or_panic. simpl. unfold or_fail at 1.
  destruct (Patch_deployment_calm app d w1 c q Hw1 Hd) as (w2 & -> & Hw2).
  destruct (Patch_service_calm app w2 _ _ Hw2) as (w3 & -> & Hw3). unfold or_fail at 1.
  destruct (Patch_configmap_calm app w3 _ _ Hw3) as (w4 & -> & Hw4). unfold or_fail, Get_deployment.
  rewrite Hns, Hnm. fold k. 
  edestruct (cached_calm KindDeployment (λ c, or_err (deployments c !! k) not_found)) as (w5 & -> & Hw5); [exact Hw4|].
  simpl. unfold k. rewrite lookup_insert_eq. fold k. simpl. unfold report_status.
  edestruct (updateStatus_calm k app) as (now & wrote & w6 & -> & Hw6); [exact Hw5|exact Ha|].
  exists now, w6. split; [done|]. unfold announced, applied in *. by rewrite !(assoc_L (∪)).
Qed.
End calm.

(** *** Facts about the fixed point *)

Section fixpoint_facts.
Context `{QuantityLib}.

(** The wanted objects depend on the name, the namespace and the specification only. *)
Lemma same_wants app app' :
  app_Name app' = app_Name app → app_Namespace app' = app_Namespace app → app_Spec app' = app_Spec app →
  desiredDeployment app' = desiredDeployment app ∧
  (∀ d : Deployment Quantity, own_deployment app' d = own_deployment app d) ∧
  own_service app' (desiredService app') = own_service app (desiredService app) ∧
  own_configmap app' (desiredObservability app') = own_configmap app (desiredObservability app) ∧
  desired_replicas app' = desired_replicas app.
Proof. destruct app, app'. simpl. by intros -> -> ->. Qed.

Lemma compute_status_None app dep now :
  compute_status app dep now = None →
  (Phase (app_Status app) = "Ready" ↔ (0 < desired_replicas app ≤ ds_ReadyReplicas dep)%Z) ∧
  ObservedGeneration (app_Status app) = app_Generation app ∧
  ReadyReplicas (app_Status app) = ds_ReadyReplicas dep ∧ st_Replicas (app_Status app) = ds_Replicas dep.
Proof.
  unfold compute_status. destruct (_ && _) eqn:E; [|done]. intros _.
  apply andb_true_iff in E as [[[E Hrd%Z.eqb_eq]%andb_true_iff Hrp%Z.eqb_eq]%andb_true_iff Hg%Z.eqb_eq].
  apply bool_decide_eq_true in E. split; [|done]. rewrite E.
  destruct (Z.leb_spec (desired_replicas app) (ds_ReadyReplicas dep)),
    (Z.ltb_spec 0 (desired_replicas app)); simpl; split; intros; try done; lia.
Qed.

Lemma reported_app k app dep now c :
  applications c !! k = Some app →
  ∃ app1, applications (reported k app dep now c) !! k = Some app1 ∧
    app_Name app1 = app_Name app ∧ app_Namespace app1 = app_Namespace app ∧
    app_Spec app1 = app_Spec app ∧ app_Generation app1 = app_Generation app ∧
    ∀ now', compute_status app1 dep now' = None.
Proof.
  intros Ha. unfold reported. destruct (compute_status app dep now) as [st|] eqn:Es.
  - eexists. split; [simpl; apply lookup_insert_eq|]. split_and!; try done.
    intros now'. by eapply compute_status_again.
  - exists app. split_and!; try done. intros now'. rewrite <- Es. unfold compute_status in *.
    by destruct (_ && _).
Qed.

Lemma reported_rest k app dep now (c : Cluster) :
  deployments (reported k app dep now c) = deployments c ∧ kservices (reported k app dep now c) = kservices c ∧
  configmaps (reported k app dep now c) = configmaps c.
Proof. unfold reported. by destruct (compute_status app dep now). Qed.

(** The application [k] needs nothing that is watched: its Deployment, its Service if it is
    exposed and its status are as wanted. *)
Definition settled (c : Cluster) (k : key) : Prop :=
  match applications c !! k with
  | None => True
  | Some app =>
    match desiredDeployment app, deployments c !! k with
    | Some d, Some l =>
      ld_managed l = own_deployment app d ∧
      (Expose (app_Spec app) = true →
         lv_managed <$> (kservices c !! k) = Some (own_service app (desiredService app))) ∧
      compute_status app (ld_status l) 0 = None
    | _, _ => False
    end
  end.

#[global] Instance settled_dec c k : Decision (settled c k).
Proof. unfold settled. repeat case_match; apply _. Defined.

(** Whether a status is to be written does not depend on the time. *)
Lemma compute_status_time app dep t t' : compute_status app dep t = None → compute_status app dep t' = None.
Proof. unfold compute_status. by destruct (_ && _). Qed.

Lemma settled_Some c k app :
  applications c !! k = Some app → settled c k ↔
  ∃ d l, desiredDeployment app = Some d ∧ deployments c !! k = Some l ∧ ld_managed l = own_deployment app d ∧
    (Expose (app_Spec app) = true →
       lv_managed <$> (kservices c !! k) = Some (own_service app (desiredService app))) ∧
    ∀ t, compute_status app (ld_status l) t = None.
Proof.
  intros Ha. unfold settled. rewrite Ha. split.
  - destruct (desiredDeployment app) as [d|]; [|done]. destruct (deployments c !! k) as [l|]; [|done].
    intros (Hm & Hs & Hst). exists d, l. split_and!; try done. intros t. by eapply compute_status_time.
  - by intros (d & l & -> & -> & Hm & Hs & Hst).
Qed.

(** The writes for a settled application change no watched object. *)
Lemma settled_still c app d t :
  let k := (app_Namespace app, app_Name app) in
  applications c !! k = Some app → desiredDeployment app = Some d → settled c k →
  apply_deployment app d c = c ∧ apply_service app c = c ∧
  reported k app (ld_status (live_deployment (own_deployment app d) c)) t (applied app d c) = apply_configmap app c ∧
  announced app d t c = ∅.
Proof.
  intros k Ha Hd (d' & l & Hd' & Hl & Hm & Hs & Hst)%(settled_Some _ _ _ Ha). simplify_eq.
  destruct (desired_key _ _ Hd) as [Hns Hnm].
  assert (live_deployment (own_deployment app d) c = l) as Hlive.
  { unfold live_deployment. simpl. rewrite Hns, Hnm. fold k. rewrite Hl, <- Hm. by destruct l. }
  assert (apply_deployment app d c = c) as E1.
  { unfold apply_deployment. rewrite Hlive. fold k. rewrite insert_id by done. by destruct c. }
  assert (apply_service app c = c) as E2.
  { unfold apply_service. fold k. destruct (Expose _); [|by destruct c]. specialize (Hs eq_refl).
    destruct (kservices c !! k) as [x|] eqn:Ex; simplify_eq/=. rewrite <- Hs, insert_id; [by destruct c|].
    rewrite Ex. by destruct x. }
  unfold announced, applied, reported. fold k. rewrite E1, E2, Hlive, Hst, !notify_unwatched by done.
  split_and!; [done..|set_solver].
Qed.

Lemma reported_settled c app d t :
  let k := (app_Namespace app, app_Name app) in
  applications c !! k = Some app → desiredDeployment app = Some d →
  settled (reported k app (ld_status (live_deployment (own_deployment app d) c)) t (applied app d c)) k.
Proof.
  intros k Ha Hd. set (l := live_deployment _ _).
  destruct (reported_app k app (ld_status l) t (applied app d c)) as (app1 & Ha1 & Hn & Hns & Hs & Hg & Hst); [done|].
  destruct (same_wants app app1 Hn Hns Hs) as (Ed & Eo & Es & _).
  apply (settled_Some _ _ _ Ha1). exists d, l. rewrite Ed, Eo, Es, Hs.
  destruct (reported_rest k app (ld_status l) t (applied app d c)) as (-> & -> & _).
  split_and!; [done|apply lookup_insert_eq| | |done].
  - unfold l, live_deployment. by destruct (deployments _ !! _).
  - intros He. simpl. rewrite He. fold k. rewrite lookup_insert_eq. simpl. by rewrite live_of_managed.
Qed.

Lemma configmap_applied app d c :
  configmaps (applied app d c) !! (app_Namespace app, app_Name app +:+ "-observability") =
    Some (live_of (own_configmap app (desiredObservability app))
            (configmaps c !! (app_Namespace app, app_Name app +:+ "-observability"))).
Proof. apply lookup_insert_eq. Qed.

Lemma apply_configmap_id app c :
  lv_managed <$> (configmaps c !! (app_Namespace app, app_Name app +:+ "-observability")) =
    Some (own_configmap app (desiredObservability app)) →
  apply_configmap app c = c.
Proof.
  unfold apply_configmap. simpl. destruct (configmaps c !! _) as [[x rest]|] eqn:E; [|done].
  simpl. intros [= ->]. rewrite insert_id by done. by destruct c.
Qed.
End fixpoint_facts.

(** A run for a settled application restores the ConfigMap and announces nothing. *)
Lemma Reconcile_settled_calm `{Kube} app w c q :
  let k := (app_Namespace app, app_Name app) in
  kube_calm → shows w c q → applications c !! k = Some app → settled c k →
  ∃ w', Reconcile k w = (Ok tt, w') ∧ shows w' (apply_configmap app c) q.
Proof.
  intros k Hcalm Hw Ha Hset. pose proof Hset as (d & l & Hd & _)%(settled_Some _ _ _ Ha).
  destruct (Reconcile_calm Hcalm app d w c q Hw Ha Hd) as (now & w' & Hr & Hw').
  destruct (settled_still _ _ _ now Ha Hd Hset) as (_ & _ & E1 & E2).
  exists w'. split; [exact Hr|]. by rewrite E1, E2, union_empty_r_L in Hw'.
Qed.

(** ** Properties *)

Section reconcile_properties.
Context `{Kube}.

(** C13: on an undisturbed cluster, with watches that keep up, [Reconcile] converges in one run: it succeeds, the
    Deployment, the observability ConfigMap and, for an exposed application, the
    Service carry the desired fields and the owner reference, whatever drift was
    there before; the reported phase is Ready exactly when enough replicas are;
    and a second run changes nothing at all and announces nothing. *)
Theorem reconcile_converges app d w :
  let k := (app_Namespace app, app_Name app) in
  kube_calm → synced w → applications (kw_cluster w) !! k = Some app → desiredDeployment app = Some d →
  ∃ w1 l app1, Reconcile k w = (Ok tt, w1) ∧
    deployments (kw_cluster w1) !! k = Some l ∧ ld_managed l = own_deployment app d ∧
    (Expose (app_Spec app) = true →
       lv_managed <$> (kservices (kw_cluster w1) !! k) = Some (own_service app (desiredService app))) ∧
    lv_managed <$> (configmaps (kw_cluster w1) !! (app_Namespace app, app_Name app +:+ "-observability")) =
      Some (own_configmap app (desiredObservability app)) ∧
    applications (kw_cluster w1) !! k = Some app1 ∧ app_Spec app1 = app_Spec app ∧
    ObservedGeneration (app_Status app1) = app_Generation app ∧
    (Phase (app_Status app1) = "Ready" ↔
       (0 < desired_replicas app ≤ ds_ReadyReplicas (ld_status l))%Z) ∧
    ∃ w2, Reconcile k w1 = (Ok tt, w2) ∧ kw_cluster w2 = kw_cluster w1 ∧ awaited w2 = awaited w1.
Proof.
  intros k Hcalm Hsync Ha Hd.
  destruct (Reconcile_calm Hcalm app d w _ _ (conj eq_refl (conj eq_refl Hsync)) Ha Hd) as (now & w1 & Hr & Hw1).
  fold k in Hr, Hw1. pose proof (reported_settled _ _ _ now Ha Hd) as Hset. fold k in Hset.
  set (dep := ld_status _) in *.
  destruct (reported_app k app dep now (applied app d (kw_cluster w))) as (app1 & Ha1 & Hn & Hns & Hs & Hg & _); [done|].
  destruct (reported_rest k app dep now (applied app d (kw_cluster w))) as (_ & _ & Ec).
  pose proof (configmap_applied app d (kw_cluster w)) as Hcm. rewrite <- Ec in Hcm.
  set (c1 := reported _ _ _ _ _) in *. pose proof Hw1 as (Hc1 & Hq1 & Hsync1).
  pose proof Hset as (d' & l & Hd' & Hl & Hm & Hsvc & Hst)%(settled_Some _ _ _ Ha1).
  destruct (same_wants app app1 Hn Hns Hs) as (Ed & Eo & Es & Eom & Er).
  assert (d' = d) as -> by congruence. rewrite Eo in Hm. rewrite Es, Hs in Hsvc.
  destruct (compute_status_None _ _ _ (Hst now)) as (Hph & Hog & _). rewrite Er in Hph. rewrite Hg in Hog.
  exists w1, l, app1. rewrite Hc1. split; [exact Hr|].
  split_and!; try done; [rewrite Hcm; simpl; by rewrite live_of_managed|].
  assert ((app_Namespace app1, app_Name app1) = k) as Ek by (by rewrite Hn, Hns).
  destruct (Reconcile_settled_calm app1 w1 _ _ Hcalm Hw1) as (w2 & Hr2 & Hc2 & Hq2 & _); [by rewrite Ek..|].
  rewrite Ek in Hr2. exists w2. split_and!; [exact Hr2| |congruence].
  rewrite Hc2. apply apply_configmap_id. rewrite Hns, Hn, Eom. simpl. rewrite Hcm. simpl. by rewrite live_of_managed.
Qed.

(** C32: the status write loses no concurrent change: whatever other clients do between
    the read and the write, however old the application is that the cache shows, and however
    often a conflict is retried, a write that succeeds replaces exactly the status of the
    application stored at that moment, by the status computed from that same version. *)
Theorem status_write_atomic k dep w w' :
  coherent w → updateStatus k dep w = (true, Ok tt, w') →
  ∃ app st t c, evolved (kw_cluster w) c ∧ applications c !! k = Some app ∧
    compute_status app dep t = Some st ∧
    kw_cluster w' = set_applications c (<[k := mkApplication (app_Name app) (app_Namespace app)
      (app_Generation app) (S (app_rev c)) (app_Spec app) st]> (applications c)) (S (app_rev c)).
Proof. intros Hok E. exact (RetryOnConflict_inv _ _ _ _ _ _ _ _ Hok E). Qed.

(** C33: [Reconcile] panics only on a quantity that does not parse, given that the
    tier defaults do: the application that was read then carries an override that
    is not a quantity; and nothing has been written. *)
Theorem reconcile_panics k w w' :
  (∀ s, s ∈ ["1"; "1Gi"; "500m"; "512Mi"; "250m"; "256Mi"; "100m"; "128Mi"] → is_Some (ParseQuantity s)) →
  Reconcile k w = (Err Panicked, w') →
  kw_cluster w' = interfere (kw_tick w) (kw_cluster w) ∧
  ∃ app s, applications (inf_cache (kw_seen w' KindApplication)) !! k = Some app ∧ s ≠ "" ∧ ParseQuantity s = None ∧
    (s = CPU (Resources (app_Spec app)) ∨ s = Memory (Resources (app_Spec app))).
Proof.
  intros Hdef. unfold Reconcile. destruct (Get_application k w) as [[app|e] w1] eqn:Eg.
  2:{ by destruct (IsNotFound e). }
  apply Get_application_inv in Eg as [Hc Ha]. unfold mbind, KM_bind, or_panic.
  destruct (desiredDeployment app) as [d|] eqn:Ed; simpl.
  { intros Hp. exfalso. revert Hp. repeat match goal with
    | |- context [or_fail ?p ?m ?w] => unfold or_fail at 1; destruct (m w) as [[]]; simpl; [|done]
    end. destruct (Expose (app_Spec app)); simpl; unfold or_fail, report_status;
    repeat match goal with
    | |- context [match ?m ?w with (_, _) => _ end] => destruct (m w) as [[] ?]; simpl; try done
    end; repeat (case_match; try done). }
  intros [= <-]. split; [done|]. exists app.
  unfold desiredDeployment in Ed. rewrite resourceRequirements_eq in Ed.
  destruct (wanted_cases app) as [Hcpu Hmem]. 
  destruct (ParseQuantity (wanted_resources app).1) eqn:E1; simpl in Ed.
  - destruct (ParseQuantity (wanted_resources app).2) eqn:E2; simpl in Ed; [done|].
    destruct Hmem as [Hin|[Hne Heq]]; [apply Hdef in Hin as [? ?]; congruence|].
    exists (wanted_resources app).2. eauto.
  - destruct Hcpu as [Hin|[Hne Heq]]; [apply Hdef in Hin as [? ?]; congruence|].
    exists (wanted_resources app).1. eauto.
Qed.
End reconcile_properties.

(** ** Watches that are behind *)

Section lagging.
Context `{Kube} (Hf : ∀ n, api_fault n = None) (Hi : ∀ n c, interfere n c = c) (Hlag : ∀ n kd len, arrived n kd len = 0).

(** The caches of [w'] are those of [w]. *)
Definition same_caches (w w' : KWorld) : Prop := ∀ kd, inf_cache (kw_seen w' kd) = inf_cache (kw_seen w kd).

Lemma await_lagging w : kw_cluster (await w) = kw_cluster w ∧ same_caches w (await w).
Proof using Hi Hlag. split; [apply Hi|]. intros kd. simpl. by rewrite Hlag. Qed.

Lemma api_lagging {A} (f : Cluster → result goerror (A * Cluster)) w a c' :
  f (kw_cluster w) = Ok (a, c') → ∃ w', api f w = (Ok a, w') ∧ kw_cluster w' = c' ∧ same_caches w w'.
Proof using Hf Hi Hlag.
  intros Hfc. destruct (await_lagging w) as [Hc Hs]. unfold api. rewrite Hf, Hc, Hfc.
  eexists. split_and!; [done..|]. intros kd. apply Hs.
Qed.

Lemma cached_lagging {A} kd (f : Cluster → result goerror A) w :
  ∃ w', cached kd f w = (f (inf_cache (kw_seen w kd)), w') ∧ kw_cluster w' = kw_cluster w ∧ same_caches w w'.
Proof using Hf Hi Hlag.
  destruct (await_lagging w) as [Hc Hs]. unfold cached. rewrite Hf, Hs. eexists. split_and!; [done..|].
  intros kd'. apply Hs.
Qed.

Lemma Patch_service_lagging app w :
  ∃ w', (if Expose (app_Spec app)
         then or_fail "apply service" (Patch_service (own_service app (desiredService app)))
         else mret tt) w = (Ok tt, w') ∧
    kw_cluster w' = apply_service app (kw_cluster w) ∧ same_caches w w'.
Proof using Hf Hi Hlag.
  unfold apply_service. destruct (Expose (app_Spec app)).
  - unfold or_fail, Patch_service. edestruct @api_lagging as (w3 & -> & Hc3 & Hb3); [reflexivity|]. by exists w3.
  - exists w. split_and!; [done| |done]. by destruct (kw_cluster w).
Qed.

(** [Reconcile] reads the Deployment back from the cache.  While the watches are behind, the run for a
    new application applies all its objects and then fails, because the cache does not
    show the Deployment yet: the request is tried again. *)
Theorem lagging_read_back app d w :
  let k := (app_Namespace app, app_Name app) in
  applications (inf_cache (kw_seen w KindApplication)) !! k = Some app → desiredDeployment app = Some d →
  deployments (inf_cache (kw_seen w KindDeployment)) !! k = None →
  ∃ w', Reconcile k w = (Err (Failed (EWrap "read deployment status" not_found)), w') ∧
    kw_cluster w' = applied app d (kw_cluster w).
Proof using Hf Hi Hlag.
  intros k Ha Hd Hnone. destruct (desired_key _ _ Hd) as [Hns Hnm].
  unfold Reconcile, Get_application.
  destruct (cached_lagging KindApplication (λ c, or_err (applications c !! k) not_found) w) as (w1 & -> & Hc1 & Hb1).
  rewrite Ha. simpl. rewrite Hd. unfold mbind, KM_bind, or_panic. simpl. unfold or_fail at 1, Patch_deployment.
  edestruct @api_lagging as (w2 & -> & Hc2 & Hb2); [reflexivity|].
  destruct (Patch_service_lagging app w2) as (w3 & -> & Hc3 & Hb3).
  unfold or_fail at 1, Patch_configmap. edestruct @api_lagging as (w4 & -> & Hc4 & Hb4); [reflexivity|].
  unfold or_fail, Get_deployment. rewrite Hns, Hnm. fold k.
  destruct (cached_lagging KindDeployment (λ c, or_err (deployments c !! k) not_found) w4) as (w5 & -> & Hc5 & Hb5).
  rewrite (Hb4 _), (Hb3 _), (Hb2 _), (Hb1 _), Hnone. simpl. exists w5. split; [done|].
  rewrite Hc5, Hc4, Hc3, Hc2, Hc1. unfold applied, apply_configmap, apply_deployment, live_deployment. simpl.
  by rewrite Hns, Hnm.
Qed.
End lagging.

(** ** Witnesses *)
#[local] Existing Instance demo_quantity.
Definition demo_kube : Kube :=
  {| api_fault _ := None; interfere _ c := c; metav1_Now n := Z.of_nat n; arrived _ _ len := len;
     interfere_evolves _ := evolved_refl |}.
#[local] Existing Instance demo_kube.

Definition demo_cluster (cpu : string) : KWorld :=
  fresh_world (mkCluster {[ ("default", "payments") := demo_app cpu ]} ∅ ∅ ∅ 1) 0 ∅.

Lemma reconcile_converges_witness :
  ∃ w1 w2, Reconcile ("default", "payments") (demo_cluster "") = (Ok tt, w1) ∧
    Reconcile ("default", "payments") w1 = (Ok tt, w2) ∧ kw_cluster w2 = kw_cluster w1.
Proof.
  destruct demo_desired as [d Ed].
  destruct (reconcile_converges (demo_app "") d (demo_cluster "") ltac:(by constructor) (synced_fresh _ _ _)
              ltac:(vm_compute; reflexivity) Ed)
    as (w1 & l & app1 & Hr & _ & _ & _ & _ & _ & _ & _ & _ & w2 & Hr2 & Hc & _).
  exists w1, w2. split; [exact Hr|]. split; [exact Hr2|exact Hc].
Defined.

Lemma status_write_atomic_witness :
  let rw := updateStatus ("default", "payments") (mkDeploymentStatus 2 2) (demo_cluster "") in
  rw.1 = (true, Ok tt) ∧
  ∃ app st t c, evolved (kw_cluster (demo_cluster "")) c ∧
    applications c !! ("default", "payments") = Some app ∧
    compute_status app (mkDeploymentStatus 2 2) t = Some st ∧
    kw_cluster rw.2 = set_applications c (<[("default", "payments") := mkApplication (app_Name app)
      (app_Namespace app) (app_Generation app) (S (app_rev c)) (app_Spec app) st]> (applications c)) (S (app_rev c)).
Proof.
  intros rw. assert (rw.1 = (true, Ok tt)) as E by (vm_compute; reflexivity). split; [exact E|].
  apply (status_write_atomic ("default", "payments") (mkDeploymentStatus 2 2) (demo_cluster "")).
  - apply coherent_fresh. intros k a. simpl. intros [<- <-]%lookup_singleton_Some. simpl. lia.
  - rewrite <- E. apply surjective_pairing.
Defined.

Lemma reconcile_panics_witness :
  (Reconcile ("default", "payments") (demo_cluster "lots")).1 = Err Panicked ∧
  kw_cluster (Reconcile ("default", "payments") (demo_cluster "lots")).2 = kw_cluster (demo_cluster "lots").
Proof.
  set (rw := Reconcile ("default", "payments") (demo_cluster "lots")).
  assert (rw.1 = Err Panicked) as E by (vm_compute; reflexivity). split; [exact E|].
  refine (proj1 (reconcile_panics ("default", "payments") (demo_cluster "lots") _ _ _)).
  - apply Forall_forall. repeat constructor; by eexists.
  - rewrite <- E. apply surjective_pairing.
Defined.

(** With watches that never catch up, the first run for the application stops at the read. *)
Example first_run_fails :
  let slow : Kube := {| api_fault _ := None; interfere _ c := c; metav1_Now n := Z.of_nat n; arrived _ _ _ := 0;
     interfere_evolves _ := evolved_refl |} in
  (@Reconcile _ slow ("default", "payments") (demo_cluster "")).1 =
    Err (Failed (EWrap "read deployment status" not_found)).
Proof. vm_compute. reflexivity. Qed.
