(* ===== verification/ControlLoop.v ===== *)
(** * The control loop of the operator (internal/controller, cmd/operator)

    The manager runs one worker: it takes a request off the queue, calls [Reconcile]
    and puts the request back when the call fails or panics.  Between two runs and
    between any two calls of a run other clients change the cluster; every change is
    announced through the watches of [SetupWithManager], some time later, and until then the
    caches show the old state.  The loop is the step relation [step]; the theorems say that an
    idle operator means a cluster as wanted, and that on its own the loop becomes idle. *)
From S2P Require Import Prelude GoStrings Apperr Controller ApiServer Reconciler.

Section loop.
Context `{Kube}.

(** ** Steps *)

(** The worker takes a request; an announcement during the run puts it back. *)
Definition take (k : key) (w : KWorld) : KWorld :=
  mkKWorld (kw_cluster w) (kw_tick w) (kw_queue w ∖ {[ k ]}) (kw_seen w).
Definition requeue (k : key) (w : KWorld) : KWorld :=
  mkKWorld (kw_cluster w) (kw_tick w) ({[ k ]} ∪ kw_queue w) (kw_seen w).

Definition process (k : key) (w : KWorld) : KWorld :=
  let '(r, w') := Reconcile k (take k w) in
  match r with Ok _ => w' | Err _ => requeue k w' end.

(** The periodic resynchronisation asks for every application of the cache; the operator starts
    with the caches filled, and with all of them announced. *)
Definition resync (w : KWorld) : KWorld :=
  mkKWorld (kw_cluster w) (kw_tick w)
    (kw_queue w ∪ dom (applications (inf_cache (kw_seen w KindApplication)))) (kw_seen w).
Definition started (c : Cluster) (n : nat) : KWorld := resync (fresh_world c n ∅).

Inductive work : KWorld → KWorld → Prop :=
| work_one k w : k ∈ kw_queue w → work w (process k w).

(** The worker works, other clients change the cluster, a watch delivers, the caches are
    resynchronised, the operator restarts. *)
Inductive step : KWorld → KWorld → Prop :=
| step_work w w' : work w w' → step w w'
| step_other w c : evolved (kw_cluster w) c → step w (changed c w)
| step_deliver w f : step w (deliver f w)
| step_resync w : step w (resync w)
| step_restart w : step w (started (kw_cluster w) (kw_tick w)).

Definition reachable (c : Cluster) (w : KWorld) : Prop := rtc step (started c 0) w.

(** *** What stays true of an application that is not announced *)

Definition stable (k : key) (R : Cluster → Prop) : Prop :=
  ∀ c c', keyed c → R c → k ∉ notify c c' → R c'.

Lemma stable_application k o : stable k (λ c, applications c !! k = o).
Proof.
  intros c c' _ Ha Hn. rewrite elem_of_notify in Hn. destruct (decide (applications c !! k = applications c' !! k)); [congruence|].
  tauto.
Qed.

Lemma stable_deployment app l :
  let k := (app_Namespace app, app_Name app) in
  dp_Owner (ld_managed l) = owner_of app → stable k (λ c, deployments c !! k = Some l).
Proof.
  intros k Ho c c' _ Hl Hn. rewrite elem_of_notify, elem_of_owner_requests in Hn.
  destruct (decide (deployments c !! k = deployments c' !! k)) as [E|E]; [congruence|].
  destruct Hn. right. left. exists k. split; [done|]. left. by eapply owner_at_controlled.
Qed.

Lemma stable_service app s :
  let k := (app_Namespace app, app_Name app) in
  ks_Owner s = owner_of app → stable k (λ c, lv_managed <$> (kservices c !! k) = Some s).
Proof.
  intros k Ho c c' _ Hl Hn. rewrite elem_of_notify, !elem_of_owner_requests in Hn.
  destruct (decide (kservices c !! k = kservices c' !! k)) as [E|E]; [congruence|].
  destruct Hn. right. right. exists k. split; [done|]. left.
  destruct (kservices c !! k) as [x|] eqn:Ex; [|done]. injection Hl as Hl.
  eapply owner_at_controlled; [done|]. simpl. by rewrite Hl.
Qed.

Lemma stable_and k R R' : stable k R → stable k R' → stable k (λ c, R c ∧ R' c).
Proof. intros HR HR' c c' Hk [] Hn. split; eauto. Qed.
Lemma stable_impl k (P : Prop) R : stable k R → stable k (λ c, P → R c).
Proof. intros HR c c' Hk Hr Hn Hp. eauto. Qed.
Lemma stable_exists {A} k (R : A → Cluster → Prop) : (∀ a, stable k (R a)) → stable k (λ c, ∃ a, R a c).
Proof. intros HR c c' Hk [a Ha] Hn. exists a. by eapply HR. Qed.
Lemma stable_pure k (P : Prop) : stable k (λ _, P).
Proof. by intros c c' _ HP _. Qed.

(** The stages of a run for [app]: the application as it was read, its Deployment, its
    Service. *)
Definition stage_read (app : Application) (c : Cluster) : Prop :=
  applications c !! (app_Namespace app, app_Name app) = Some app.
Definition stage_live (app : Application) (d : Deployment Quantity) (l : LiveDeployment) (c : Cluster) : Prop :=
  stage_read app c ∧ ld_managed l = own_deployment app d ∧
  deployments c !! (app_Namespace app, app_Name app) = Some l.
Definition stage_exposed (app : Application) (c : Cluster) : Prop :=
  Expose (app_Spec app) = true →
  lv_managed <$> (kservices c !! (app_Namespace app, app_Name app)) = Some (own_service app (desiredService app)).

Lemma stable_read app : stable (app_Namespace app, app_Name app) (stage_read app).
Proof. apply stable_application. Qed.
Lemma stable_live app d l : stable (app_Namespace app, app_Name app) (stage_live app d l).
Proof.
  intros c c' Hk (Hr & Hm & Hl) Hn. split_and!; [by eapply stable_read|done|].
  eapply stable_deployment; [|done..]. by rewrite Hm.
Qed.
Lemma stable_exposed app : stable (app_Namespace app, app_Name app) (stage_exposed app).
Proof. apply stable_impl. by apply stable_service. Qed.

(** A settled application stays so until it is announced. *)
Lemma stable_settled k : stable k (λ c, settled c k).
Proof.
  intros c c' Hk Hs Hn. destruct (applications c !! k) as [app|] eqn:Ha.
  - pose proof Hs as (d & l & Hd & Hl & Hm & Hsvc & Hst)%(settled_Some _ _ _ Ha).
    pose proof (Hk _ _ Ha) as <-.
    destruct (stable_live app d l c c' Hk) as (Ha' & _ & Hl'); [done..|].
    apply (settled_Some _ _ _ Ha'). exists d, l. split_and!; try done. by apply (stable_exposed app c c').
  - unfold settled. by rewrite (stable_application k None c c').
Qed.

(** ** The calls of a run *)

(** Applications are stored under their keys, in the cluster and in what the watch shows. *)
Definition all_keyed (w : KWorld) : Prop := ∀ c, c ∈ kw_cluster w :: shown w → keyed c.

Lemma all_keyed_cluster w : all_keyed w → keyed (kw_cluster w).
Proof. intros Hw. apply Hw. by left. Qed.
Lemma all_keyed_cache w : all_keyed w → keyed (inf_cache (kw_seen w KindApplication)).
Proof. intros Hw. apply Hw. right. by left. Qed.
Lemma all_keyed_changed c w : keyed c → all_keyed w → all_keyed (changed c w).
Proof.
  intros Hc Hw x. unfold shown. simpl. rewrite !elem_of_cons, elem_of_app, list_elem_of_singleton.
  intros [->|[->|[Hx| ->]]]; [done|by apply all_keyed_cache| |done]. apply Hw. unfold shown. set_solver.
Qed.
Lemma all_keyed_deliver f w : all_keyed w → all_keyed (deliver f w).
Proof. intros Hw x [->|Hx%feed_shown]%elem_of_cons; apply Hw; [by left|by right]. Qed.

(** The application [k] is awaited, or [R] holds of the cluster. *)
Definition holds (k : key) (R : Cluster → Prop) (w : KWorld) : Prop :=
  all_keyed w ∧ synced w ∧ (k ∈ awaited w ∨ R (kw_cluster w)).

Lemma holds_mono k (R R' : Cluster → Prop) w :
  (keyed (kw_cluster w) → R (kw_cluster w) → R' (kw_cluster w)) → holds k R w → holds k R' w.
Proof. intros HR (Hk & Hs & [Hq|Hr]); split_and!; auto using all_keyed_cluster. Qed.

Lemma holds_ticked k R w : holds k R w → holds k R (ticked w).
Proof. done. Qed.

Lemma holds_deliver k R f w : holds k R w → holds k R (deliver f w).
Proof. intros (Hk & Hs & Hq). split_and!; [by apply all_keyed_deliver|by apply synced_deliver|by rewrite awaited_deliver]. Qed.

(** What is stable survives the changes of others. *)
Lemma holds_changed k R c w : stable k R → evolved (kw_cluster w) c → holds k R w → holds k R (changed c w).
Proof.
  intros Hst Hev (Hk & Hs & Hq). pose proof (all_keyed_cluster _ Hk) as Hkc. split_and!.
  { apply all_keyed_changed; [by apply (ev_keyed _ _ Hev)|done]. }
  { apply synced_changed. }
  rewrite awaited_changed by done. simpl. destruct (decide (k ∈ notify (kw_cluster w) c)); [set_solver|].
  destruct Hq; [set_solver|]. right. eauto.
Qed.

Lemma holds_await k R w : stable k R → holds k R w → holds k R (await w).
Proof. intros Hst Hw. by apply holds_deliver, holds_changed; [|apply interfere_evolves|]. Qed.

(** One request to the server: what it establishes holds unless its own change is announced. *)
Lemma api_rule {A} k (f : Cluster → result goerror (A * Cluster)) (R : Cluster → Prop) (R' : A → Cluster → Prop) w r w' :
  lawful f → stable k R →
  (∀ c a c', keyed c → R c → f c = Ok (a, c') → k ∉ notify c c' → R' a c') →
  holds k R w → api f w = (r, w') →
  match r with Ok a => holds k (R' a) w' | Err _ => holds k R w' end.
Proof.
  intros Ht Hst Hf Hw%(holds_await _ _ _ Hst) E. unfold api in E.
  destruct (api_fault (kw_tick w)); [by injection E as <- <-|].
  destruct (f (kw_cluster (await w))) as [[a c']|e] eqn:Ef; injection E as <- <-; [|done].
  destruct Hw as (Hk & Hs & Hq). apply holds_ticked. split_and!.
  - apply all_keyed_changed; [|done]. by apply (ev_keyed _ _ (Ht _ _ _ Ef)), all_keyed_cluster.
  - apply synced_changed.
  - rewrite awaited_changed by done. simpl. destruct (decide (k ∈ notify (kw_cluster (await w)) c')); [set_solver|].
    destruct Hq; [set_solver|]. right. eapply Hf; eauto using all_keyed_cluster.
Qed.

(** One read from a cache: what it returns describes the cluster unless a change is on its way. *)
Lemma cached_rule {A} k kd (f : Cluster → result goerror A) (R : Cluster → Prop) (R' : A → Cluster → Prop) w r w' :
  stable k R →
  (∀ w1 a, keyed (kw_cluster w1) → synced w1 → R (kw_cluster w1) → k ∉ awaited w1 →
     f (inf_cache (kw_seen w1 kd)) = Ok a → R' a (kw_cluster w1)) →
  holds k R w → cached kd f w = (r, w') →
  match r with Ok a => holds k (R' a) w' | Err _ => holds k R w' end.
Proof.
  intros Hst Hf Hw%(holds_await _ _ _ Hst) E. unfold cached in E.
  destruct (api_fault (kw_tick w)); [by injection E as <- <-|]. injection E as <- <-.
  destruct (f _) as [a|e] eqn:Ef; [|done]. destruct Hw as (Hk & Hs & Hq). apply holds_ticked. split_and!; [done..|].
  destruct (decide (k ∈ awaited (await w))); [by left|]. destruct Hq; [done|]. right. eapply Hf; eauto using all_keyed_cluster.
Qed.

Lemma api_holds {A} k R (f : Cluster → result goerror (A * Cluster)) w :
  stable k R → lawful f → holds k R w → holds k R (api f w).2.
Proof. intros Hst. apply api_keeps; auto using holds_changed, holds_deliver. Qed.

Lemma cached_holds {A} k R kd (f : Cluster → result goerror A) w :
  stable k R → holds k R w → holds k R (cached kd f w).2.
Proof. intros Hst. apply cached_keeps; auto using holds_changed, holds_deliver. Qed.

Lemma or_fail_Ok {A} p (m : KWorld → result goerror A * KWorld) w a w' :
  or_fail p m w = (Ok a, w') → m w = (Ok a, w').
Proof. unfold or_fail. destruct (m w) as [[]]; [by intros [= <- <-]|done]. Qed.

Lemma KM_bind_Ok {A B} (m : KM A) (h : A → KM B) w b w' :
  (m ≫= h) w = (Ok b, w') → ∃ a w1, m w = (Ok a, w1) ∧ h a w1 = (Ok b, w').
Proof. unfold mbind, KM_bind. destruct (m w) as [[a|] w1]; [eauto|done]. Qed.

(** ** A run that succeeds leaves its application settled or announced *)

(** What is not awaited is in the cache. *)
Lemma fresh_application w k :
  synced w → k ∉ awaited w →
  applications (inf_cache (kw_seen w KindApplication)) !! k = applications (kw_cluster w) !! k.
Proof.
  intros Hs Hn. destruct (decide (applications (inf_cache (kw_seen w KindApplication)) !! k =
    applications (kw_cluster w) !! k)) as [|Hne]; [done|]. by apply (stale_application w k Hs) in Hne.
Qed.

Lemma fresh_deployment w app l :
  let k := (app_Namespace app, app_Name app) in
  synced w → k ∉ awaited w → deployments (kw_cluster w) !! k = Some l → dp_Owner (ld_managed l) = owner_of app →
  deployments (inf_cache (kw_seen w KindDeployment)) !! k = Some l.
Proof.
  intros k Hs Hn Hl Ho. destruct (decide (deployments (inf_cache (kw_seen w KindDeployment)) !! k = Some l))
    as [|Hne]; [done|]. by apply (stale_deployment w app l) in Hne.
Qed.

Section run.
Context (app : Application) (d : Deployment Quantity) (Hd : desiredDeployment app = Some d).
Let k := (app_Namespace app, app_Name app).

Definition stage_all (l : LiveDeployment) (c : Cluster) : Prop := stage_live app d l c ∧ stage_exposed app c.

Lemma stable_all l : stable k (stage_all l).
Proof. apply stable_and; [apply stable_live|apply stable_exposed]. Qed.

Lemma status_attempt_settles l wrote w wrote' r w' :
  holds k (stage_all l) w → status_attempt k (ld_status l) wrote w = (wrote', r, w') →
  match r with Ok _ => holds k (λ c, settled c k) w' | Err _ => holds k (stage_all l) w' end.
Proof using Hd.
  intros Hw. unfold status_attempt. destruct (Get_application k w) as [r1 w1] eqn:Eg.
  apply (cached_rule k KindApplication _ (stage_all l) (λ a c, a = app ∧ stage_all l c)) in Eg;
    [|apply stable_all| |done].
  2:{ intros w0 a _ Hs Hc Hn. pose proof Hc as [[Hr _] _]. rewrite (fresh_application _ k) by done.
      unfold stage_read in Hr. fold k in Hr. rewrite Hr. by intros [= <-]. }
  destruct r1 as [app'|e]; [|by intros [= <- <- <-]].
  destruct (compute_status app' (ld_status l) _) as [st|] eqn:Es.
  - destruct (Status_Update k (with_status app' st) w1) as [r2 w2] eqn:Eu. intros [= <- <- <-].
    apply (api_rule k _ (λ c, app' = app ∧ stage_all l c) (λ _ c, settled c k)) in Eu; [|apply lawful_status| | |done].
    + destruct r2; [done|]. revert Eu. apply holds_mono. naive_solver.
    + apply stable_and; [apply stable_pure|apply stable_all].
    + intros c [] c' _ [-> [[Hr _] _]]. unfold update_status_at, stage_read in *. fold k in Hr. rewrite Hr. simpl.
      rewrite decide_True by done. intros [= <-] Hn. exfalso.
      pose proof (compute_status_again _ _ _ _ 0 (S (app_rev c)) Es) as Hno.
      rewrite elem_of_notify in Hn. destruct Hn. left. simpl. rewrite Hr, lookup_insert_eq.
      intros [= Heq]. rewrite <- Heq in Hno. by rewrite (compute_status_time _ _ _ _ Hno) in Es.
  - intros [= <- <- <-]. revert Eg. apply holds_mono. intros _ [-> [(Hr & Hm & Hl) He]].
    apply (settled_Some _ _ _ Hr). exists d, l. split_and!; try done. intros t. by eapply compute_status_time.
Qed.

Lemma RetryOnConflict_settles n l wrote w wrote' w' :
  holds k (stage_all l) w → RetryOnConflict n k (ld_status l) wrote w = (wrote', Ok tt, w') →
  holds k (λ c, settled c k) w'.
Proof using Hd.
  revert wrote w. induction n as [|n IH]; intros wrote w Hw; simpl;
    destruct (status_attempt k (ld_status l) wrote w) as [[wr1 r1] w1] eqn:Ea;
    apply status_attempt_settles in Ea; try done.
  - destruct r1 as [[]|]; [by intros [= <- <-]|done].
  - destruct r1 as [[]|e]; [by intros [= <- <-]|].
    destruct (IsConflict e); [by apply IH|done].
Qed.

Lemma Patch_deployment_stage w w' :
  holds k (stage_read app) w → Patch_deployment (own_deployment app d) w = (Ok tt, w') →
  holds k (λ c, ∃ l, stage_live app d l c) w'.
Proof using Hd.
  intros Hw E. destruct (desired_key _ _ Hd) as [Hns Hnm].
  apply (api_rule k _ (stage_read app) (λ _ c, ∃ l, stage_live app d l c)) in E;
    [done|by apply lawful_write|apply stable_read| |done].
  intros c [] c' _ Hr [= <-] _. eexists. unfold stage_live. simpl. rewrite Hns, Hnm, lookup_insert_eq.
  split_and!; [done| |done]. by destruct (deployments c !! _).
Qed.

Lemma Patch_service_stage w w' :
  holds k (λ c, ∃ l, stage_live app d l c) w →
  (if Expose (app_Spec app)
   then or_fail "apply service" (Patch_service (own_service app (desiredService app)))
   else mret tt) w = (Ok tt, w') →
  holds k (λ c, ∃ l, stage_all l c) w'.
Proof.
  intros Hw. unfold stage_all, stage_exposed. fold k. destruct (Expose (app_Spec app)) eqn:Hex.
  - intros E%or_fail_Ok.
    apply (api_rule k _ (λ c, ∃ l, stage_live app d l c) (λ _ c, ∃ l, stage_live app d l c ∧ (true = true →
         lv_managed <$> (kservices c !! k) = Some (own_service app (desiredService app))))) in E;
      [done|by apply lawful_write|apply stable_exists, stable_live| |done].
    intros c [] c' _ [l Hl] [= <-] _. exists l. split; [done|]. intros _. simpl. fold k.
    rewrite lookup_insert_eq. by destruct (kservices c !! k).
  - intros [= <-]. revert Hw. apply holds_mono. intros _ [l Hl]. by exists l.
Qed.

Lemma Patch_configmap_stage m w w' :
  holds k (λ c, ∃ l, stage_all l c) w → Patch_configmap m w = (Ok tt, w') → holds k (λ c, ∃ l, stage_all l c) w'.
Proof.
  intros Hw E. apply (api_rule k _ (λ c, ∃ l, stage_all l c) (λ _ c, ∃ l, stage_all l c)) in E;
    [done|by apply lawful_write|apply stable_exists, stable_all|by intros c [] c' _ Hc [= <-] _|done].
Qed.

Lemma Get_deployment_stage live w w' :
  holds k (λ c, ∃ l, stage_all l c) w → Get_deployment k w = (Ok live, w') → holds k (stage_all live) w'.
Proof.
  intros Hw E. apply (cached_rule k KindDeployment _ (λ c, ∃ l, stage_all l c) stage_all) in E;
    [done|apply stable_exists, stable_all| |done].
  intros w0 a _ Hs [l Hl] Hn. pose proof Hl as [(_ & Hm & Hk) _].
  pose proof (fresh_deployment _ app l Hs Hn Hk) as Hc. fold k in Hc. rewrite Hc by (by rewrite Hm). by intros [= <-].
Qed.
End run.

(** Failures of the calls are not answers that an object does not exist. *)
Definition honest : Prop := ∀ n e, api_fault n = Some e → IsNotFound e = false.

Lemma Reconcile_settles k w w' :
  honest → all_keyed w → synced w → Reconcile k w = (Ok tt, w') → holds k (λ c, settled c k) w'.
Proof.
  intros Hh Hk Hs. unfold Reconcile. destruct (Get_application k w) as [[app|e] w1] eqn:Eg.
  - pose proof (Get_application_inv _ _ _ _ Eg) as [_ Happ].
    apply (cached_rule k KindApplication _ (λ _, True) (λ a c, applications c !! k = Some a)) in Eg;
      [|apply stable_pure| |split_and!; auto].
    2:{ intros w0 a _ Hs0 _ Hn. rewrite (fresh_application _ k) by done. apply or_err_Ok. }
    pose proof (all_keyed_cache _ (proj1 Eg) _ _ Happ) as <-.
    intros (dep & w2 & Ep & E)%KM_bind_Ok. unfold or_panic in Ep.
    destruct (desiredDeployment app) as [d|] eqn:Hd; [|done]. injection Ep as <- <-.
    destruct (desired_key _ _ Hd) as [Hns Hnm]. simpl in E. rewrite Hns, Hnm in E.
    apply KM_bind_Ok in E as ([] & w3 & E1%or_fail_Ok & E). apply KM_bind_Ok in E as ([] & w4 & E2 & E).
    apply KM_bind_Ok in E as ([] & w5 & E3%or_fail_Ok & E). apply KM_bind_Ok in E as (live & w6 & E4%or_fail_Ok & E).
    apply (Patch_deployment_stage app d Hd) in E1; [|exact Eg]. apply (Patch_service_stage app d) in E2; [|done].
    apply (Patch_configmap_stage app d) in E3; [|done]. apply (Get_deployment_stage app d) in E4; [|done].
    unfold report_status, updateStatus in E.
    destruct (RetryOnConflict _ _ _ _ _) as [[wr [[]|]] w7] eqn:E5; [|done]. injection E as <-.
    by apply (RetryOnConflict_settles app d Hd) in E5.
  - destruct (IsNotFound e) eqn:Hnf; [|done]. intros [= <-].
    assert (holds k (λ _, True) w1) as Hw1.
    { change w1 with ((Err e, w1) : result goerror Application * KWorld).2. rewrite <- Eg.
      apply cached_holds; [apply stable_pure|]. split_and!; auto. }
    destruct Hw1 as (Hk1 & Hs1 & _). split_and!; [done..|]. destruct (decide (k ∈ awaited w1)) as [|Hn]; [by left|right].
    unfold Get_application, cached in Eg. destruct (api_fault (kw_tick w)) as [e'|] eqn:Hf.
    { injection Eg as <- <-. by rewrite (Hh _ _ Hf) in Hnf. }
    apply pair_equal_spec in Eg as [Er <-]. apply or_err_Err in Er as [Er _]. unfold settled.
    rewrite <- (fresh_application _ k Hs1 Hn). unfold ticked. cbn [kw_seen]. by rewrite Er.
Qed.
(** ** The invariant of the loop *)

(** Every application is settled or awaited. *)
Definition loop_inv (w : KWorld) : Prop := ∀ k, holds k (λ c, settled c k) w.

Lemma Reconcile_holds j R k w : stable j R → holds j R w → holds j R (Reconcile k w).2.
Proof.
  intros Hst. apply Reconcile_keeps; [intros A f w0 Hf; by apply api_holds|intros A kd f w0; by apply cached_holds].
Qed.

Lemma holds_take j k R w : j ≠ k → holds j R w → holds j R (take k w).
Proof. intros Hj (Hk & Hs & Hq). split_and!; [done..|]. unfold awaited in *. simpl. set_solver. Qed.

Lemma holds_requeue j k R w : holds j R w → holds j R (requeue k w).
Proof. intros (Hk & Hs & Hq). split_and!; [done..|]. unfold awaited in *. simpl. set_solver. Qed.

Lemma process_inv k w : honest → loop_inv w → loop_inv (process k w).
Proof.
  intros Hh Hw j. unfold process. destruct (Reconcile k (take k w)) as [r w'] eqn:E.
  assert (w' = (Reconcile k (take k w)).2) as Ew by (by rewrite E).
  destruct (decide (j = k)) as [->|Hj].
  - assert (holds k (λ _, True) w') as Hw'.
    { rewrite Ew. apply Reconcile_holds; [apply stable_pure|]. destruct (Hw k) as (? & ? & _). split_and!; auto. }
    destruct r as [[]|e].
    + apply (Reconcile_settles k (take k w)); [done|apply (Hw k)|apply (Hw k)|done].
    + destruct Hw' as (? & ? & _). split_and!; [done..|left]. unfold awaited. simpl. set_solver.
  - assert (holds j (λ c, settled c j) w') as Hj'.
    { rewrite Ew. apply Reconcile_holds; [apply stable_settled|]. by apply holds_take. }
    destruct r; [done|]. by apply holds_requeue.
Qed.

Lemma operator_started_inv c n : keyed c → loop_inv (started c n).
Proof.
  intros Hk k. split_and!; [|done|].
  - intros x. unfold shown. simpl. set_solver.
  - unfold awaited. simpl. destruct (applications c !! k) eqn:Ha.
    + left. apply elem_of_union_l, elem_of_union_r. by eapply elem_of_dom_2.
    + right. unfold settled. by rewrite Ha.
Qed.

Lemma resync_inv w : loop_inv w → loop_inv (resync w).
Proof. intros Hw k. destruct (Hw k) as (? & ? & Hq). split_and!; [done..|]. unfold awaited in *. simpl. set_solver. Qed.

Lemma loop_step_inv w w' : honest → step w w' → loop_inv w → loop_inv w'.
Proof.
  intros Hh Hs Hw. destruct Hs as [w w' [k w1 Hk]|w c Hev|w f|w|w].
  - by apply process_inv.
  - intros j. apply holds_changed; [apply stable_settled|done..].
  - intros j. by apply holds_deliver.
  - by apply resync_inv.
  - apply operator_started_inv. apply all_keyed_cluster, (Hw ("", "")).
Qed.

Lemma loop_reachable_inv c w : honest → keyed c → reachable c w → loop_inv w.
Proof.
  intros Hh Hk. unfold reachable. generalize (operator_started_inv c 0 Hk). generalize (started c 0).
  intros w0 Hw0 Hr. induction Hr as [|w0 w1 w2 Hs Hr IH]; [done|]. apply IH. by eapply loop_step_inv.
Qed.

(** The caches stay coherent, so that [status_write_atomic] applies to every run. *)
Lemma coherent_reachable c w : versions_ok c → reachable c w → coherent w.
Proof.
  intros Hok. unfold reachable. assert (coherent (started c 0)) as Hw0 by (by apply coherent_fresh).
  revert Hw0. generalize (started c 0). intros w0 Hw0 Hr. induction Hr as [|w0 w1 w2 Hs Hr IH]; [done|]. apply IH.
  destruct Hs as [w w' [k w3 Hk]|w c1 Hev|w f|w|w].
  - unfold process. assert (coherent (Reconcile k (take k w3)).2) as Hr3.
    { apply Reconcile_keeps; [apply @api_coherent|apply @cached_coherent|]. by destruct Hw0. }
    destruct (Reconcile k (take k w3)) as [[|] w4]; by destruct Hr3.
  - by apply coherent_changed.
  - by apply coherent_deliver.
  - by destruct Hw0.
  - apply coherent_fresh. apply Hw0.
Qed.
(** ** The loop on its own becomes idle *)

(** All changes are delivered. *)
Definition caught_up (w : KWorld) : KWorld := deliver (λ _ len, len) w.

Lemma caught_up_pending w : pending (caught_up w) = ∅.
Proof.
  apply set_eq. intros k. unfold pending. rewrite elem_of_over_kinds. split; [|set_solver]. intros [kd Hk].
  unfold caught_up, deliver in Hk. cbn [kw_seen] in Hk. by rewrite feed_all in Hk.
Qed.

Lemma caught_up_queue w : kw_queue (caught_up w) = awaited w.
Proof.
  rewrite <- (awaited_deliver (λ _ len, len) w). fold (caught_up w). unfold awaited.
  by rewrite caught_up_pending, union_empty_r_L.
Qed.

(** A turn of a worker whose watches keep up. *)
Inductive turn : KWorld → KWorld → Prop :=
| turn_one k w : k ∈ kw_queue (caught_up w) → turn w (process k (caught_up w)).

Lemma turn_steps w w' : turn w w' → rtc step w w'.
Proof.
  destruct 1 as [k w Hk]. eapply rtc_l; [apply (step_deliver w (λ _ len, len))|].
  apply rtc_once, step_work. by constructor.
Qed.

Lemma owner_requests_insert `{EqDecision T} (own : T → option OwnerRef) (m : gmap key T) k x :
  owner_requests own m (<[k := x]> m) ⊆ owner_at own m k ∪ owner_request k.1 (own x).
Proof.
  intros j (i & Hne & Hj)%elem_of_owner_requests. destruct (decide (i = k)) as [->|Hi].
  - unfold owner_at in *. rewrite lookup_insert_eq in Hj. set_solver.
  - by rewrite lookup_insert_ne in Hne.
Qed.

Lemma size_owner_request ns o : size (owner_request ns o) ≤ 1.
Proof. unfold owner_request. destruct o; [case_decide|]; rewrite ?size_singleton, ?size_empty; lia. Qed.

Lemma size_owner_at {T} (own : T → option OwnerRef) m k : size (owner_at own m k) ≤ 1.
Proof. unfold owner_at. destruct (m !! k); [apply size_owner_request|rewrite size_empty; lia]. Qed.

Lemma size_union_le (X Y : gset key) : size (X ∪ Y) ≤ size X + size Y.
Proof. rewrite size_union_alt. assert (Y ∖ X ⊆ Y) as Hs%subseteq_size by set_solver. lia. Qed.

(** A run asks again for its own application, and for those that controlled its
    Deployment and its Service before. *)
Lemma announced_bound app d t c :
  desiredDeployment app = Some d → size (announced app d t c) ≤ 3.
Proof.
  intros Hd. set (k := (app_Namespace app, app_Name app)).
  set (q := owner_at (dp_Owner ∘ ld_managed) (deployments c) k ∪ owner_at (ks_Owner ∘ lv_managed) (kservices c) k).
  assert (announced app d t c ⊆ {[ k ]} ∪ q) as Hsub.
  { intros j. unfold announced. fold k. rewrite !elem_of_union, !elem_of_notify. intros [[Hj|Hj]|Hj].
    - destruct Hj as [Hj|[Hj|Hj]]; [done| |by rewrite owner_requests_same in Hj].
      apply owner_requests_insert in Hj. fold k in Hj.
      assert (dp_Owner (ld_managed (live_deployment (own_deployment app d) c)) = owner_of app) as Ho
        by (unfold live_deployment; by destruct (deployments c !! _)).
      simpl in Hj. rewrite Ho in Hj. simpl in Hj. set_solver.
    - destruct Hj as [Hj|[Hj|Hj]]; [done|by rewrite owner_requests_same in Hj|].
      unfold apply_service in Hj. simpl in Hj. fold k in Hj. destruct (Expose _); [|by rewrite owner_requests_same in Hj].
      apply owner_requests_insert in Hj. simpl in Hj. rewrite live_of_managed in Hj. simpl in Hj. set_solver.
    - destruct (reported_rest k app (ld_status (live_deployment (own_deployment app d) c)) t (applied app d c)) as (-> & -> & _) in Hj.
      destruct Hj as [Hj|[Hj|Hj]]; [|by rewrite owner_requests_same in Hj..].
      left. apply elem_of_singleton. unfold reported in Hj. destruct (compute_status _ _ _); [|done].
      destruct (decide (j = k)) as [|Hn]; [done|]. simpl in Hj. by rewrite lookup_insert_ne in Hj. }
  apply subseteq_size in Hsub. unfold q in Hsub.
  pose proof (size_union_le {[ k ]} q). pose proof (size_union_le (owner_at (dp_Owner ∘ ld_managed) (deployments c) k)
    (owner_at (ks_Owner ∘ lv_managed) (kservices c) k)).
  pose proof (size_owner_at (dp_Owner ∘ ld_managed) (deployments c) k).
  pose proof (size_owner_at (ks_Owner ∘ lv_managed) (kservices c) k).
  unfold q in *. rewrite size_singleton in *. lia.
Qed.

Lemma settled_local c c' k :
  applications c' !! k = applications c !! k → deployments c' !! k = deployments c !! k →
  kservices c' !! k = kservices c !! k → settled c' k ↔ settled c k.
Proof. unfold settled. by intros -> -> ->. Qed.

(** The quantities of every application parse. *)
Definition parsable (c : Cluster) : Prop :=
  ∀ k app, applications c !! k = Some app → is_Some (desiredDeployment app).

(** The applications of [c'] are those of [c], but for statuses and versions. *)
Definition same_specs (c c' : Cluster) : Prop :=
  ∀ k, match applications c !! k, applications c' !! k with
       | Some a, Some a' => app_Name a' = app_Name a ∧ app_Namespace a' = app_Namespace a ∧
           app_Spec a' = app_Spec a ∧ app_Generation a' = app_Generation a
       | None, None => True
       | _, _ => False
       end.

Definition unsettled (c : Cluster) : gset key := filter (λ k, ¬ settled c k) (dom (applications c)).

Lemma same_specs_refl c c' : applications c' = applications c → same_specs c c'.
Proof. intros E k. rewrite E. by destruct (applications c !! k). Qed.

Lemma same_specs_trans c1 c2 c3 : same_specs c1 c2 → same_specs c2 c3 → same_specs c1 c3.
Proof.
  intros H1 H2 k. specialize (H1 k). specialize (H2 k).
  destruct (applications c1 !! k), (applications c2 !! k), (applications c3 !! k); try done. naive_solver congruence.
Qed.

Lemma same_specs_keyed c c' : same_specs c c' → keyed c → keyed c'.
Proof.
  intros Hs Hk k a' Ha'. specialize (Hs k). rewrite Ha' in Hs.
  destruct (applications c !! k) as [a|] eqn:Ha; [|done]. rewrite <- (Hk _ _ Ha). naive_solver congruence.
Qed.

Lemma same_specs_parsable c c' : same_specs c c' → parsable c → parsable c'.
Proof.
  intros Hs Hp k a' Ha'. specialize (Hs k). rewrite Ha' in Hs.
  destruct (applications c !! k) as [a|] eqn:Ha; [|done]. destruct Hs as (Hn & Hns & Hsp & _).
  destruct (same_wants a a' Hn Hns Hsp) as [-> _]. by eapply Hp.
Qed.

Lemma reported_applied_frame app d dep t c :
  let k := (app_Namespace app, app_Name app) in
  let c' := reported k app dep t (applied app d c) in
  applications c !! k = Some app →
  same_specs c c' ∧ ∀ j, j ≠ k → settled c' j ↔ settled c j.
Proof.
  intros k c' Ha. destruct (reported_app k app dep t (applied app d c) Ha) as (app1 & Ha1 & Hn & Hns & Hs & Hg & _).
  destruct (reported_rest k app dep t (applied app d c)) as (Ed & Es & _). fold c' in Ha1, Ed, Es.
  assert (∀ j, j ≠ k → applications c' !! j = applications c !! j) as Hother.
  { intros j Hj. unfold c', reported. destruct (compute_status _ _ _); [|done]. simpl. by rewrite lookup_insert_ne. }
  split.
  - intros j. destruct (decide (j = k)) as [->|Hj]; [by rewrite Ha, Ha1|].
    rewrite Hother by done. by destruct (applications c !! j).
  - intros j Hj. apply settled_local; [by apply Hother| |].
    + rewrite Ed. simpl. fold k. by rewrite lookup_insert_ne.
    + rewrite Es. simpl. fold k. destruct (Expose _); [|done]. by rewrite lookup_insert_ne.
Qed.

(** What one turn of the worker does on an undisturbed cluster. *)
Lemma process_calm k w c q :
  kube_calm → keyed c → parsable c → kw_cluster w = c → awaited (take k w) = q → synced w →
  ∃ c' q', shows (process k w) c' q' ∧ same_specs c c' ∧ (∀ j, settled c j ∨ j = k → settled c' j) ∧
    size q' ≤ size q + (if decide (settled c k) then 0 else 3).
Proof.
  intros Hcalm Hk Hp Hc Hq Hs. assert (shows (take k w) c q) as Hw by done. unfold process.
  destruct (applications c !! k) as [app|] eqn:Ha.
  - pose proof (Hk _ _ Ha) as Ek. destruct (Hp _ _ Ha) as [d Hd]. rewrite <- Ek in *.
    destruct (decide (settled c _)) as [Hset|Hset].
    + destruct (Reconcile_settled_calm app _ c q Hcalm Hw) as (w' & -> & Hw'); [done..|].
      eexists _, _. split; [exact Hw'|]. simpl.
      split_and!; [by apply same_specs_refl|intros j Hj; apply (settled_local c); naive_solver|lia].
    + destruct (Reconcile_calm Hcalm app d _ c q Hw) as (t & w' & -> & Hw'); [done..|].
      pose proof (reported_settled c app d t Ha Hd) as Hnow.
      edestruct (reported_applied_frame app d) as [Hf Ho]; [done|].
      eexists _, _. split; [exact Hw'|]. split_and!; [exact Hf| |].
      * intros j Hj. destruct (decide (j = (app_Namespace app, app_Name app))) as [->|Hn]; [done|].
        apply Ho; [done|]. naive_solver.
      * etrans; [apply size_union_le|]. pose proof (announced_bound app d t c Hd). lia.
  - unfold Reconcile, Get_application.
    destruct (cached_calm Hcalm KindApplication (λ c, or_err (applications c !! k) not_found) _ c q Hw) as (w1 & -> & Hw1).
    rewrite Ha. simpl. exists c, q. split; [exact Hw1|]. split_and!; [by apply same_specs_refl| |lia].
    intros j [|Hj]; [done|]. subst j. unfold settled. by rewrite Ha.
Qed.

(** Each turn takes a request away for good, or settles an application. *)
Definition load (w : KWorld) : nat := size (awaited w) + 4 * size (unsettled (kw_cluster w)).

Lemma elem_of_unsettled c k : k ∈ unsettled c ↔ ¬ settled c k.
Proof.
  unfold unsettled. rewrite elem_of_filter, elem_of_dom. split; [by intros []|]. intros Hn. split; [done|].
  destruct (applications c !! k) eqn:Ha; [eauto|]. destruct Hn. unfold settled. by rewrite Ha.
Qed.

Lemma unsettled_progress c c' k :
  (∀ j, settled c j ∨ j = k → settled c' j) →
  size (unsettled c') + (if decide (settled c k) then 0 else 1) ≤ size (unsettled c).
Proof.
  intros Hset. case_decide as Hd.
  - assert (unsettled c' ⊆ unsettled c) as Hle%subseteq_size; [|lia].
    intros j. rewrite !elem_of_unsettled. naive_solver.
  - assert (unsettled c' ⊂ unsettled c) as Hlt%subset_size; [|lia].
    split; [intros j; rewrite !elem_of_unsettled; naive_solver|]. intros Hsub.
    apply elem_of_unsettled, Hsub, elem_of_unsettled in Hd. naive_solver.
Qed.

Lemma size_taken (X : gset key) k : k ∈ X → size (X ∖ {[ k ]}) + 1 = size X.
Proof.
  intros Hk. rewrite size_difference by set_solver. rewrite size_singleton.
  assert ({[ k ]} ⊆ X) as Hle%subseteq_size by set_solver. rewrite size_singleton in Hle. lia.
Qed.

Definition calm_state (w : KWorld) : Prop := keyed (kw_cluster w) ∧ parsable (kw_cluster w) ∧ synced w.

Lemma turn_calm w w' :
  kube_calm → calm_state w → turn w w' →
  calm_state w' ∧ same_specs (kw_cluster w) (kw_cluster w') ∧ load w' < load w.
Proof.
  intros Hcalm (Hk & Hp & Hs) Hw. destruct Hw as [k w Hin].
  assert (awaited (take k (caught_up w)) = awaited w ∖ {[ k ]}) as Hq.
  { change (awaited (take k (caught_up w))) with (kw_queue (caught_up w) ∖ {[ k ]} ∪ pending (caught_up w)).
    by rewrite caught_up_pending, union_empty_r_L, caught_up_queue. }
  destruct (process_calm k (caught_up w) (kw_cluster w) _ Hcalm Hk Hp eq_refl Hq (synced_deliver _ _ Hs))
    as (c' & q' & (Hc' & Hq' & Hs') & Hspec & Hset & Hsz).
  unfold calm_state, load. rewrite Hc', Hq'. rewrite caught_up_queue in Hin.
  split_and!; [by eapply same_specs_keyed|by eapply same_specs_parsable|done|done|].
  pose proof (unsettled_progress _ _ _ Hset). pose proof (size_taken _ _ Hin). case_decide; lia.
Qed.

Lemma turns_calm n w w' :
  kube_calm → calm_state w → nsteps turn n w w' →
  calm_state w' ∧ same_specs (kw_cluster w) (kw_cluster w') ∧ n + load w' ≤ load w.
Proof.
  intros Hcalm Hw Hn. induction Hn as [w|n w1 w2 w3 Ht Hn IH]; [split_and!; [done|by apply same_specs_refl|lia]|].
  destruct (turn_calm w1 w2) as (Hw2 & Hs & Hl); [done..|]. destruct (IH Hw2) as (Hw3 & Hs3 & Hl3).
  split_and!; [done|by eapply same_specs_trans|lia].
Qed.

Lemma load_bound w : load w ≤ size (awaited w) + 4 * size (applications (kw_cluster w)).
Proof.
  unfold load. assert (unsettled (kw_cluster w) ⊆ dom (applications (kw_cluster w))) as Hs%subseteq_size.
  { unfold unsettled. set_solver. }
  rewrite size_dom in Hs. lia.
Qed.

(** The worker goes on until nothing is awaited. *)
Lemma turns_until_idle w : kube_calm → calm_state w → ∃ w', rtc turn w w' ∧ awaited w' = ∅.
Proof.
  intros Hcalm. remember (load w) as n eqn:En. revert w En.
  induction n as [n IH] using lt_wf_ind. intros w -> Hw.
  destruct (set_choose_or_empty (awaited w)) as [[k Hin]|Hempty%leibniz_equiv]; [|by exists w].
  rewrite <- caught_up_queue in Hin. pose proof (turn_one k w Hin) as Ht.
  destruct (turn_calm _ _ Hcalm Hw Ht) as (Hw2 & _ & Hl).
  destruct (IH _ Hl _ eq_refl Hw2) as (w' & Hw' & Hq). exists w'. split; [|done]. by eapply rtc_l.
Qed.

(** ** Properties *)

(** The Deployment of [app] and, if it is exposed, its Service are as it wants them, and its status
    says what is there.  Not the observability ConfigMap, which is not watched
    ([configmap_loss_unnoticed]), nor a Service left from when it was exposed
    ([unexposed_service_stays]). *)
Definition as_wanted (c : Cluster) (k : key) (app : Application) : Prop :=
  ∃ d l, desiredDeployment app = Some d ∧ deployments c !! k = Some l ∧ ld_managed l = own_deployment app d ∧
    (Expose (app_Spec app) = true →
       lv_managed <$> (kservices c !! k) = Some (own_service app (desiredService app))) ∧
    ObservedGeneration (app_Status app) = app_Generation app ∧
    ReadyReplicas (app_Status app) = ds_ReadyReplicas (ld_status l) ∧
    st_Replicas (app_Status app) = ds_Replicas (ld_status l) ∧
    (Phase (app_Status app) = "Ready" ↔ (0 < desired_replicas app ≤ ds_ReadyReplicas (ld_status l))%Z).

Lemma settled_wanted c k app : applications c !! k = Some app → settled c k → as_wanted c k app.
Proof.
  intros Ha (d & l & Hd & Hl & Hm & Hsvc & Hst)%(settled_Some _ _ _ Ha).
  destruct (compute_status_None _ _ _ (Hst 0%Z)) as (? & ? & ? & ?). by exists d, l.
Qed.

Lemma idle_settled w : loop_inv w → awaited w = ∅ → ∀ k, settled (kw_cluster w) k.
Proof. intros Hw Hq k. destruct (Hw k) as (_ & _ & [Hk|]); [|done]. rewrite Hq in Hk. set_solver. Qed.

(** C14: an operator without pending requests has done its work.  From any start, whatever
    other clients create, change or delete, between runs or between two calls of one
    run, however far the caches lag behind, whichever calls fail and whenever the operator
    restarts: in every state of the control loop each application waits in the queue, or a change
    that a watch has yet to deliver will put it there, or its Deployment, its Service if it is
    exposed and its status are as wanted; so an empty queue with caches up to date means that all
    of them are.  No change of these objects is missed, and no run that worked on old
    data has the last word. *)
Theorem idle_means_converged c w k app :
  honest → keyed c → reachable c w → applications (kw_cluster w) !! k = Some app →
  k ∈ kw_queue w ∨ k ∈ pending w ∨ as_wanted (kw_cluster w) k app.
Proof.
  intros Hh Hk Hr Ha. destruct (loop_reachable_inv c w Hh Hk Hr k) as (_ & _ & [Hq|Hs]).
  - unfold awaited in Hq. apply elem_of_union in Hq as [?|?]; auto.
  - right. right. by apply settled_wanted.
Qed.

(** C15: the control loop does not feed itself.  From every state it can reach, once other
    clients and failures stop, and if the watches keep up and the quantities of all applications
    parse (a run for one that does not panics, and is repeated for ever), the worker becomes
    idle within as many turns as there are requests on their way, plus four for each application,
    in whatever order it takes them, although every one of its own writes is announced to it;
    it is then done: specifications are untouched and every application has its Deployment, its
    Service if it is exposed and its status as wanted. *)
Theorem loop_quiesces c w :
  kube_calm → keyed c → reachable c w → parsable (kw_cluster w) →
  (∀ n w', nsteps turn n w w' → n ≤ size (awaited w) + 4 * size (applications (kw_cluster w))) ∧
  (∃ w', rtc turn w w' ∧ awaited w' = ∅) ∧
  ∀ w', rtc turn w w' → awaited w' = ∅ →
    same_specs (kw_cluster w) (kw_cluster w') ∧
    ∀ k app, applications (kw_cluster w') !! k = Some app → as_wanted (kw_cluster w') k app.
Proof.
  intros Hcalm Hk Hr Hp.
  assert (honest) as Hh by (intros n e; by rewrite (kc_fault Hcalm)).
  destruct (loop_reachable_inv c w Hh Hk Hr ("", "")) as (Hkw & Hsw & _).
  assert (calm_state w) as Hw by (split_and!; [by apply all_keyed_cluster|done..]). split_and!.
  - intros n w' Hn. apply turns_calm in Hn as (_ & _ & Hn); [|done..]. pose proof (load_bound w). lia.
  - by apply turns_until_idle.
  - intros w' Hturns Hq. pose proof Hturns as [n Hn]%rtc_nsteps.
    destruct (turns_calm n w w' Hcalm Hw Hn) as (_ & Hs & _). split; [done|]. intros k app Ha.
    apply settled_wanted; [done|]. apply idle_settled; [|done]. eapply loop_reachable_inv; [done..|].
    unfold reachable in *. etrans; [exact Hr|]. clear -Hturns. induction Hturns as [|w1 w2 w3 Ht _ IH]; [done|].
    etrans; [by apply turn_steps|done].
Qed.

(** The observability ConfigMap is not watched: when another client deletes it from under
    an idle operator, nothing is ever announced. *)
Theorem configmap_loss_unnoticed w k :
  synced w → awaited w = ∅ →
  ∃ w', step w w' ∧ awaited w' = ∅ ∧ configmaps (kw_cluster w') = delete k (configmaps (kw_cluster w)) ∧
    applications (kw_cluster w') = applications (kw_cluster w).
Proof.
  intros Hs Hq. set (c := set_configmaps (kw_cluster w) (delete k (configmaps (kw_cluster w)))).
  exists (changed c w). split_and!; [| |done..].
  - apply step_other. constructor; simpl; auto.
  - by rewrite awaited_changed, Hq, notify_unwatched, union_empty_r_L.
Qed.

(** Turning [expose] off leaves the Services alone. *)
Theorem unexposed_service_stays app d w :
  let k := (app_Namespace app, app_Name app) in
  kube_calm → synced w → applications (kw_cluster w) !! k = Some app → desiredDeployment app = Some d →
  Expose (app_Spec app) = false →
  kservices (kw_cluster (Reconcile k w).2) = kservices (kw_cluster w).
Proof.
  intros k Hcalm Hs Ha Hd He.
  destruct (Reconcile_calm Hcalm app d w _ _ (conj eq_refl (conj eq_refl Hs)) Ha Hd) as (t & w' & Hr & Hc & _).
  unfold k. rewrite Hr. cbn [snd]. rewrite Hc.
  destruct (reported_rest k app (ld_status (live_deployment (own_deployment app d) (kw_cluster w))) t
    (applied app d (kw_cluster w))) as (_ & Es & _). fold k. rewrite Es. simpl. by rewrite He.
Qed.
End loop.

(** ** Witnesses *)

#[local] Existing Instance demo_quantity.
#[local] Existing Instance demo_kube.
#[local] Definition demo_key : key := ("default", "payments").
#[local] Definition demo_start : Cluster := kw_cluster (demo_cluster "").
#[local] Definition demo_world : KWorld := started demo_start 0.

#[local] Lemma demo_keyed : keyed demo_start.
Proof. intros k a. simpl. by intros [<- <-]%lookup_singleton_Some. Qed.

Lemma idle_means_converged_witness :
  let w := caught_up (process demo_key (caught_up (process demo_key demo_world))) in
  kw_queue w = ∅ ∧ ∃ app, applications (kw_cluster w) !! demo_key = Some app ∧
    as_wanted (kw_cluster w) demo_key app.
Proof.
  intros w. assert (kw_queue w = ∅) as Hq by (vm_compute; reflexivity).
  assert (pending w = ∅) as Hp by (vm_compute; reflexivity).
  assert (is_Some (applications (kw_cluster w) !! demo_key)) as [app Ha] by (eexists; vm_compute; reflexivity).
  split; [exact Hq|]. exists app. split; [exact Ha|].
  destruct (@idle_means_converged _ demo_kube demo_start w demo_key app) as [Hin|[Hin|Hw]].
  - intros n e. discriminate.
  - exact demo_keyed.
  - eapply rtc_l; [apply step_work, (work_one demo_key demo_world); vm_compute; reflexivity|].
    eapply rtc_l; [apply step_deliver|].
    eapply rtc_l; [apply step_work, (work_one demo_key (caught_up (process demo_key demo_world))); vm_compute; reflexivity|].
    apply rtc_once, step_deliver.
  - exact Ha.
  - rewrite Hq in Hin. exfalso. by apply elem_of_empty in Hin.
  - rewrite Hp in Hin. exfalso. by apply elem_of_empty in Hin.
  - exact Hw.
Defined.

Lemma loop_quiesces_witness :
  ∃ w', rtc turn demo_world w' ∧ awaited w' = ∅ ∧ same_specs (kw_cluster demo_world) (kw_cluster w').
Proof.
  destruct (@loop_quiesces _ demo_kube demo_start demo_world) as (_ & (w' & Hr & Hq) & Hend).
  - by constructor.
  - exact demo_keyed.
  - apply rtc_refl.
  - intros k a. simpl. intros [<- <-]%lookup_singleton_Some. apply demo_desired.
  - exists w'. split; [exact Hr|]. split; [exact Hq|]. by apply Hend.
Defined.
