(* ===== verification/ReadModels.v ===== *)
(** * The read-only modules (internal/modules/application, internal/modules/provisioning)

    Views of Kubernetes applications and of Temporal workflow executions over
    HTTP.  Each module serves a [Reader]; the live readers are written against
    the client of the platform, which is an argument, and the disabled ones answer
    503.  The response writer and error mapping are those of Httpx. *)
From S2P Require Import Prelude GoStrings Encoding Apperr Postgres Httpx Controller ApiServer Reconciler.

(** [omitempty] of strings and integers. *)
Definition omit_str (k v : string) : list (string * json) := if decide (v = "") then [] else [(k, JStr v)].
Definition omit_int (k : string) (v : Z) : list (string * json) := if decide (v = 0%Z) then [] else [(k, JNum v)].

(** A module's reader, as its handlers use it. *)
Class Reader (Query Key View : Type) := {
  reader_List : Query → result goerror (list View);
  reader_Get : Key → result goerror View
}.

(** [if err != nil { httpx.Error(w, r, err); return }; httpx.JSON(...)] *)
Definition answer {A} (r : Request) (x : result goerror A) (body : A → json) (w : Writer) : Writer :=
  match x with
  | Err e => Error r e w
  | Ok a => JSON 200 (body a) w
  end.
(** [map[string]any{"items": items}] *)
Definition items_json {A} (toResponse : A → json) (l : list A) : json := JObj [("items", JArr (map toResponse l))].

(** What a client of either module can see. *)
Lemma answer_status {A} r (x : result goerror A) body w :
  rw_sent w = None → status_of (answer r x body w) = match x with Ok _ => 200%Z | Err e => HTTPStatus e end.
Proof.
  intros Hw. destruct x as [a|e]; simpl; [|by apply status_of_Error].
  unfold JSON, Write, WriteHeader, send, status_of. simpl. by rewrite Hw.
Qed.

(** ** Applications *)

Module Applications.

Record ViewCondition := mkViewCondition {
  vc_Type : string; vc_Status : string; vc_Reason : string; vc_Message : string; vc_ObservedGeneration : Z }.
Record ApplicationView := mkApplicationView {
  av_Namespace : string; av_Name : string; av_Image : string; av_Port : Z; av_DesiredReplicas : Z; av_Tier : Z;
  av_Expose : bool; av_Phase : string; av_ReadyReplicas : Z; av_ObservedGeneration : Z; av_Conditions : list ViewCondition }.

Definition ErrNotFound : goerror := NotFound "APPLICATION_NOT_FOUND" "application not found".
Definition ErrDisabled : goerror := Unavailable "KUBERNETES_NOT_CONFIGURED"
  "the applications view is unavailable because no Kubernetes cluster is configured for this control plane".

Definition view_condition (c : Condition) : ViewCondition :=
  mkViewCondition (cd_Type c) (cd_Status c) (cd_Reason c) (cd_Message c) (cd_ObservedGeneration c).
Definition toView (a : Application) : ApplicationView :=
  mkApplicationView (app_Namespace a) (app_Name a) (Image (app_Spec a)) (Port (app_Spec a)) (Replicas (app_Spec a))
    (AppTier (app_Spec a)) (Expose (app_Spec a)) (Phase (app_Status a)) (ReadyReplicas (app_Status a))
    (ObservedGeneration (app_Status a)) (map view_condition (Conditions (app_Status a))).

(** The controller-runtime client: a listing, of one namespace or of all, and a lookup. *)
Section kube.
Context (client_List : option string → result goerror (list Application)).
Context (client_Get : string * string → result goerror Application).

Definition List (namespace : string) : result goerror (list ApplicationView) :=
  match client_List (if decide (namespace = "") then None else Some namespace) with
  | Err e => Err (EWrap "list applications" e)
  | Ok l => Ok (map toView l)
  end.
Definition Get (k : string * string) : result goerror ApplicationView :=
  match client_Get k with
  | Err e => if IsNotFound e then Err ErrNotFound else Err (EWrap "get application" e)
  | Ok a => Ok (toView a)
  end.
Definition KubeReader : Reader string (string * string) ApplicationView := {| reader_List := List; reader_Get := Get |}.
End kube.

Definition DisabledReader : Reader string (string * string) ApplicationView :=
  {| reader_List _ := Err ErrDisabled; reader_Get _ := Err ErrDisabled |}.

Record ConditionResponse := mkConditionResponse {
  cr_Type : string; cr_Status : string; cr_Reason : string; cr_Message : string; cr_ObservedGeneration : Z }.
Record ApplicationResponse := mkApplicationResponse {
  ar_Namespace : string; ar_Name : string; ar_Image : string; ar_Port : Z; ar_DesiredReplicas : Z; ar_Tier : Z;
  ar_Expose : bool; ar_Phase : string; ar_ReadyReplicas : Z; ar_ObservedGeneration : Z;
  ar_Conditions : list ConditionResponse }.
Definition toConditionResponse (c : ViewCondition) : ConditionResponse :=
  mkConditionResponse (vc_Type c) (vc_Status c) (vc_Reason c) (vc_Message c) (vc_ObservedGeneration c).
Definition toResponse (v : ApplicationView) : ApplicationResponse :=
  mkApplicationResponse (av_Namespace v) (av_Name v) (av_Image v) (av_Port v) (av_DesiredReplicas v) (av_Tier v)
    (av_Expose v) (av_Phase v) (av_ReadyReplicas v) (av_ObservedGeneration v)
    (map toConditionResponse (av_Conditions v)).

(** Marshalling, by the tags of the fields. *)
Definition ConditionResponse_json (c : ConditionResponse) : json :=
  JObj ([("type", JStr (cr_Type c)); ("status", JStr (cr_Status c))] ++ omit_str "reason" (cr_Reason c) ++
        omit_str "message" (cr_Message c) ++ omit_int "observedGeneration" (cr_ObservedGeneration c)).
Definition ApplicationResponse_json (p : ApplicationResponse) : json :=
  JObj [("namespace", JStr (ar_Namespace p)); ("name", JStr (ar_Name p)); ("image", JStr (ar_Image p));
        ("port", JNum (ar_Port p)); ("desiredReplicas", JNum (ar_DesiredReplicas p)); ("tier", JNum (ar_Tier p));
        ("expose", JBool (ar_Expose p)); ("phase", JStr (ar_Phase p)); ("readyReplicas", JNum (ar_ReadyReplicas p));
        ("observedGeneration", JNum (ar_ObservedGeneration p));
        ("conditions", JArr (map ConditionResponse_json (ar_Conditions p)))].
Definition application_json (v : ApplicationView) : json := ApplicationResponse_json (toResponse v).

Definition ListHandler `{!Reader string (string * string) ApplicationView} (r : Request) (w : Writer) : Writer :=
  answer r (reader_List (Query_Get r "namespace")) (items_json application_json) w.
(** [namespace] and [name] are path parameters. *)
Definition GetHandler `{!Reader string (string * string) ApplicationView} (namespace name : string) (r : Request) (w : Writer) : Writer :=
  answer r (reader_Get (namespace, name)) application_json w.

(** A missing application is 404, any other failure of the cluster 500, and a
    control plane without a cluster answers 503 on every route. *)
Lemma get_status gt ls ns n r :
  status_of (@GetHandler (KubeReader ls gt) ns n r fresh_writer) =
    match gt (ns, n) with
    | Ok _ => 200%Z
    | Err e => if IsNotFound e then 404%Z else HTTPStatus e
    end ∧
  status_of (@GetHandler DisabledReader ns n r fresh_writer) = 503%Z ∧
  status_of (@ListHandler DisabledReader r fresh_writer) = 503%Z.
Proof.
  unfold GetHandler, ListHandler. rewrite !answer_status by done. split_and!; [|done..]. simpl. unfold Get.
  destruct (gt (ns, n)) as [a|e]; [done|]. by destruct (IsNotFound e).
Qed.
End Applications.

(** ** Provisioning workflows *)

Module Workflows.

Record WorkflowView := mkWorkflowView {
  wv_WorkflowID : string; wv_RunID : string; wv_Type : string; wv_Status : string; wv_StartTime : string;
  wv_CloseTime : string; wv_HistoryLength : Z }.

Definition ErrNotFound : goerror := NotFound "WORKFLOW_NOT_FOUND" "provisioning workflow not found".
Definition ErrDisabled : goerror := Unavailable "TEMPORAL_NOT_CONFIGURED"
  "the provisioning view is unavailable because Temporal is not reachable from this control plane".
Definition provisionWorkflowType : string := "ProvisionTenantWorkflow".

(** An execution of the visibility API; absent sub-messages read as empty. *)
Record ExecutionInfo := mkExecutionInfo {
  ei_WorkflowId : string; ei_RunId : string; ei_Type : string; ei_Status : string;
  ei_StartTime : option Z; ei_CloseTime : option Z; ei_HistoryLength : Z }.

(** The layout without a fraction. *)
Definition FormatRFC3339 (t : Z) : string := FormatRFC3339Nano (t / 1000000000 * 1000000000).
Definition toView (e : ExecutionInfo) : WorkflowView :=
  mkWorkflowView (ei_WorkflowId e) (ei_RunId e) (ei_Type e)
    (TrimPrefix (ei_Status e) "WORKFLOW_EXECUTION_STATUS_")
    (from_option FormatRFC3339 "" (ei_StartTime e)) (from_option FormatRFC3339 "" (ei_CloseTime e)) (ei_HistoryLength e).

(** The Temporal client: the first page of at most 100 executions, and a description,
    whose failure tells a missing execution ([inl]) from the rest. *)
Section temporal.
Context (ListWorkflow : nat → result goerror (list ExecutionInfo)).
Context (DescribeWorkflowExecution : string → result (goerror + goerror) ExecutionInfo).

Definition List : result goerror (list WorkflowView) :=
  match ListWorkflow 100 with
  | Err _ => Err ErrDisabled
  | Ok l => Ok (map toView (filter (λ e, ei_Type e = provisionWorkflowType) l))
  end.
Definition Get (workflowID : string) : result goerror WorkflowView :=
  match DescribeWorkflowExecution workflowID with
  | Err (inl _) => Err ErrNotFound
  | Err (inr _) => Err ErrDisabled
  | Ok e => Ok (toView e)
  end.
Definition TemporalReader : Reader unit string WorkflowView := {| reader_List _ := List; reader_Get := Get |}.
End temporal.

Definition DisabledReader : Reader unit string WorkflowView :=
  {| reader_List _ := Err ErrDisabled; reader_Get _ := Err ErrDisabled |}.

Record WorkflowResponse := mkWorkflowResponse {
  wp_WorkflowID : string; wp_RunID : string; wp_Type : string; wp_Status : string; wp_StartTime : string;
  wp_CloseTime : string; wp_HistoryLength : Z }.
Definition toResponse (v : WorkflowView) : WorkflowResponse :=
  mkWorkflowResponse (wv_WorkflowID v) (wv_RunID v) (wv_Type v) (wv_Status v) (wv_StartTime v) (wv_CloseTime v)
    (wv_HistoryLength v).
Definition WorkflowResponse_json (p : WorkflowResponse) : json :=
  JObj ([("workflowId", JStr (wp_WorkflowID p)); ("runId", JStr (wp_RunID p)); ("type", JStr (wp_Type p));
         ("status", JStr (wp_Status p))] ++ omit_str "startTime" (wp_StartTime p) ++
        omit_str "closeTime" (wp_CloseTime p) ++ [("historyLength", JNum (wp_HistoryLength p))]).
Definition workflow_json (v : WorkflowView) : json := WorkflowResponse_json (toResponse v).

Definition ListHandler `{!Reader unit string WorkflowView} (r : Request) (w : Writer) : Writer :=
  answer r (reader_List tt) (items_json workflow_json) w.
Definition GetHandler `{!Reader unit string WorkflowView} (workflowId : string) (r : Request) (w : Writer) : Writer :=
  answer r (reader_Get workflowId) workflow_json w.

(** An outage of Temporal is never a 500: the routes answer 200, 404 or 503. *)
Lemma statuses ls ds id r :
  (∀ x, x = status_of (@ListHandler (TemporalReader ls ds) r fresh_writer) → x ∈ [200; 503]%Z) ∧
  (∀ x, x = status_of (@GetHandler (TemporalReader ls ds) id r fresh_writer) → x ∈ [200; 404; 503]%Z).
Proof.
  unfold GetHandler, ListHandler. rewrite !answer_status by done. simpl. unfold List, Get.
  split; intros x ->.
  - destruct (ls 100); [by left|by right; left].
  - destruct (ds id) as [e|[e|e]]; [by left|by right; left|by right; right; left].
Qed.

(** The listing shows exactly the provisioning workflows of the page, in its order. *)
Lemma list_exact ls l : ls 100 = Ok l →
  List ls = Ok (map toView (filter (λ e, ei_Type e = provisionWorkflowType) l)) ∧
  ∀ vs, List ls = Ok vs → Forall (λ v, wv_Type v = provisionWorkflowType) vs.
Proof.
  intros Hl. unfold List. rewrite Hl. split; [done|]. intros vs [= <-]. apply Forall_map, Forall_forall.
  intros e [He _]%list_elem_of_filter. done.
Qed.
End Workflows.
