(* ===== verification/Memory.v ===== *)
(** * Go memory: pointers, slices and deep copies

    Most of the code base is modelled with immutable values, because it never
    shares what it mutates.  The deep copies of api/v1alpha1 exist exactly to
    undo sharing, so they need the store: a heap of typed cells, references into
    cells (the address of a variable, of a field or of an element), slices, and
    computations that fault on a nil dereference or an index out of range.  The
    class [Deep] is the contract of a [DeepCopyInto] method. *)
From S2P Require Import Prelude.

(** The heap: cells by address. *)
Abbreviation Heap := (gmap nat).

Section memory.
Context {cell : Type}.

(** Computations over the heap; [None] is a run-time panic. *)
Definition HM (A : Type) : Type := Heap cell → option (A * Heap cell).

#[global] Instance HM_ret : MRet HM := λ A a h, Some (a, h).
#[global] Instance HM_bind : MBind HM := λ A B k m h,
  match m h with Some (a, h') => k a h' | None => None end.

(** ** References *)

(** The place [A] inside the cell at [r_loc]. *)
Record ref (A : Type) : Type := mkRef {
  r_loc : nat;
  r_get : cell → option A;
  r_set : A → cell → option cell
}.
#[global] Arguments mkRef {_} _ _ _.
#[global] Arguments r_loc {_} _.
#[global] Arguments r_get {_} _ _.
#[global] Arguments r_set {_} _ _ _.

Class RefOk {A} (r : ref A) : Prop := {
  ref_get_set a c c' : r_set r a c = Some c' → r_get r c' = Some a;
  ref_set_set a b c c' : r_set r a c = Some c' → r_set r b c' = r_set r b c;
  ref_writable a b c : r_get r c = Some a → is_Some (r_set r b c);
  ref_set_get a c : r_get r c = Some a → r_set r a c = Some c
}.

Definition load {A} (r : ref A) : HM A := λ h,
  match h !! r_loc r ≫= r_get r with Some a => Some (a, h) | None => None end.
Definition store {A} (r : ref A) (a : A) : HM unit := λ h,
  match h !! r_loc r ≫= r_set r a with Some c => Some (tt, <[r_loc r := c]> h) | None => None end.

(** A part of a place: a field ([get] always succeeds) or an element. *)
Definition part {A B} (r : ref A) (get : A → option B) (set : B → A → option A) : ref B :=
  mkRef (r_loc r) (λ c, r_get r c ≫= get) (λ b c, a ← r_get r c; a' ← set b a; r_set r a' c).
Definition field {A B} (r : ref A) (get : A → B) (set : B → A → A) : ref B :=
  part r (λ a, Some (get a)) (λ b a, Some (set b a)).

(** ** Allocation *)

(** The types a cell can hold. *)
Class Stored (A : Type) := {
  inj_cell : A → cell;
  prj_cell : cell → option A;
  prj_inj a : prj_cell (inj_cell a) = Some a;
  inj_prj a c : prj_cell c = Some a → inj_cell a = c
}.
Class Zero (A : Type) := zero : A.

Definition alloc {A} `{Stored A} (a : A) : HM nat := λ h,
  let l := fresh (dom h) in Some (l, <[l := inj_cell a]> h).
Definition deref {A} `{Stored A} (l : nat) : ref A :=
  mkRef l prj_cell (λ a c, match prj_cell c with Some _ => Some (inj_cell a) | None => None end).
(** [new(T)] *)
Definition new A `{Stored A, Zero A} : HM nat := alloc zero.

(** ** Slices *)

(** The header of a slice that is not nil. *)
Record slice := mkSlice { sl_arr : nat; sl_off : nat; sl_len : nat; sl_cap : nat }.

(** [&s[i]] *)
Definition slice_elem {A} `{Stored (list A)} (s : slice) (i : nat) : ref A :=
  part (deref (sl_arr s))
    (λ l, if decide (i < sl_len s) then l !! (sl_off s + i) else None)
    (λ a l, if decide (i < sl_len s ∧ sl_off s + i < length l) then Some (<[sl_off s + i := a]> l) else None).
(** [make([]T, n)] *)
Definition make_slice A `{Stored (list A), Zero A} (n : nat) : HM slice :=
  l ← alloc (replicate n (zero : A)); mret (mkSlice l 0 n n).
(** [copy(dst, src)]: as many elements as the shorter one has *)
Definition slice_content {A} (s : slice) (l : list A) : list A := take (sl_len s) (drop (sl_off s) l).
Definition overwrite {A} (l : list A) (off : nat) (xs : list A) : list A :=
  take off l ++ xs ++ drop (off + length xs) l.
Definition copy_slice {A} `{Stored (list A)} (dst src : slice) : HM unit :=
  xs ← load (deref (A := list A) (sl_arr src));
  ys ← load (deref (A := list A) (sl_arr dst));
  store (deref (sl_arr dst)) (overwrite ys (sl_off dst) (take (sl_len dst) (slice_content src xs))).

(** [for i := range s { body(i) }], over the length [n] of [s] *)
Fixpoint for_range (i n : nat) (body : nat → HM unit) : HM unit :=
  match n with
  | 0 => mret tt
  | S n => _ ← body i; for_range (S i) n body
  end.

(** ** The effect of writing a place *)

(** From [h] to [h'] only the place [r] was changed, to [a]; new cells may have
    appeared. *)
Definition updated {A} (r : ref A) (h h' : Heap cell) (a : A) : Prop :=
  (∃ c c', h !! r_loc r = Some c ∧ r_set r a c = Some c' ∧ h' !! r_loc r = Some c') ∧
  ∀ l, l ∈ dom h → l ≠ r_loc r → h' !! l = h !! l.

#[global] Instance deref_ok {A} `{Stored A} l : RefOk (deref (A := A) l).
Proof.
  split; simpl; intros *.
  - destruct (prj_cell c); [|done]. intros [= <-]. apply prj_inj.
  - destruct (prj_cell c); [|done]. intros [= <-]. by rewrite prj_inj.
  - intros ->. eauto.
  - intros Hp. rewrite Hp. f_equal. by apply inj_prj.
Qed.

(** The laws of a field. *)
Class FieldOk {A B} (get : A → B) (set : B → A → A) : Prop := {
  fld_get_set b a : get (set b a) = b;
  fld_set_set b b' a : set b' (set b a) = set b' a;
  fld_set_get a : set (get a) a = a
}.

#[global] Instance field_ok {A B} (r : ref A) (get : A → B) set :
  RefOk r → FieldOk get set → RefOk (field r get set).
Proof.
  intros Hr Hf. split; unfold field, part; simpl; intros *.
  - destruct (r_get r c) as [x|]; [|done]. simpl. intros Hs. rewrite (ref_get_set _ _ _ Hs). simpl. by rewrite fld_get_set.
  - destruct (r_get r c) as [x|]; [|done]. simpl. intros Hs.
    rewrite (ref_get_set _ _ _ Hs). simpl. rewrite fld_set_set. by eapply ref_set_set.
  - destruct (r_get r c) as [x|] eqn:E; [|done]. simpl. intros _. by eapply ref_writable.
  - destruct (r_get r c) as [x|] eqn:E; [|done]. simpl. intros [= <-]. rewrite fld_set_get. by apply ref_set_get.
Qed.

#[global] Instance slice_elem_ok {A} `{Stored (list A)} s i : RefOk (slice_elem (A := A) s i).
Proof.
  split; unfold slice_elem, part; simpl; intros *;
    (destruct (prj_cell c) as [l|] eqn:El; [|done]); simpl; rewrite ?El.
  - case_decide as Hi; [|done]. simpl. intros [= <-]. rewrite prj_inj. simpl. rewrite decide_True by lia.
    apply list_lookup_insert_eq. lia.
  - case_decide as Hi; [|done]. simpl. intros [= <-]. rewrite prj_inj. simpl. rewrite length_insert, decide_True by lia.
    simpl. by rewrite list_insert_insert_eq.
  - case_decide; [|done]. intros Hl%lookup_lt_Some. rewrite decide_True by lia. simpl. eauto.
  - case_decide; [|done]. intros Hl. pose proof (lookup_lt_Some _ _ _ Hl). rewrite decide_True by lia. simpl.
    rewrite list_insert_id by done. f_equal. by apply inj_prj.
Qed.

Lemma load_Some {A} (r : ref A) h a : load r h = Some (a, h) ↔ h !! r_loc r ≫= r_get r = Some a.
Proof. unfold load. destruct (h !! r_loc r ≫= r_get r); naive_solver. Qed.

Lemma load_same {A} (r : ref A) h h' a :
  load r h = Some (a, h) → h' !! r_loc r = h !! r_loc r → load r h' = Some (a, h').
Proof. rewrite !load_Some. by intros ? ->. Qed.

Lemma updated_load {A} (r : ref A) `{!RefOk r} h h' a : updated r h h' a → load r h' = Some (a, h').
Proof.
  intros [(c & c' & _ & Hs & Hl) _]. apply load_Some. rewrite Hl. simpl. by eapply ref_get_set.
Qed.

Lemma updated_dom {A} (r : ref A) h h' a : updated r h h' a → dom h ⊆ dom h'.
Proof.
  intros [(c & c' & _ & _ & Hl) Hother] l Hin. destruct (decide (l = r_loc r)) as [->|Hne].
  - apply elem_of_dom. eauto.
  - apply elem_of_dom. rewrite Hother by done. by apply elem_of_dom.
Qed.

Lemma store_updated {A} (r : ref A) `{!RefOk r} h a b :
  load r h = Some (a, h) → ∃ h', store r b h = Some (tt, h') ∧ updated r h h' b ∧ dom h' = dom h.
Proof.
  rewrite load_Some. unfold store. destruct (h !! r_loc r) as [c|] eqn:Hc; [|done]. simpl. intros Hg.
  destruct (ref_writable a b c Hg) as [c' Hs]. rewrite Hs. eexists. split; [done|].
  split; [split|].
  - exists c, c'. split_and!; [done|done|apply lookup_insert_eq].
  - intros l _ Hne. by apply lookup_insert_ne.
  - rewrite dom_insert_L. assert (r_loc r ∈ dom h) by (apply elem_of_dom; eauto). set_solver.
Qed.

(** Writing a place twice, and writing a place and then a part of it. *)
Lemma updated_trans {A} (r : ref A) `{!RefOk r} h h1 h2 a b :
  updated r h h1 a → updated r h1 h2 b → updated r h h2 b.
Proof.
  intros Hu1 [(c1 & c2 & Hc1 & Hs2 & Hc2) Ho2]. pose proof (updated_dom _ _ _ _ Hu1) as Hd.
  destruct Hu1 as [(c & c1' & Hc & Hs1 & Hc1') Ho1]. simplify_eq. split.
  - exists c, c2. split_and!; [done| |done]. by rewrite <- (ref_set_set _ b _ _ Hs1).
  - intros l Hl Hne. rewrite Ho2; auto.
Qed.
Lemma updated_part {A B} (r : ref A) `{!RefOk r} (get : A → option B) set h h1 h2 a b :
  updated r h h1 a → updated (part r get set) h1 h2 b → ∃ a', set b a = Some a' ∧ updated r h h2 a'.
Proof.
  intros Hu1 [(c1 & c2 & Hc1 & Hs2 & Hc2) Ho2]. pose proof (updated_dom _ _ _ _ Hu1) as Hd.
  destruct Hu1 as [(c & c1' & Hc & Hs1 & Hc1') Ho1]. simpl in *. simplify_eq.
  rewrite (ref_get_set _ _ _ Hs1) in Hs2. simpl in Hs2. destruct (set b a) as [a'|] eqn:Ea; [|done].
  exists a'. split; [done|]. simpl in Hs2. split.
  - exists c, c2. split_and!; [done| |done]. by rewrite <- (ref_set_set _ a' _ _ Hs1).
  - intros l Hl Hne. rewrite Ho2; auto.
Qed.
Lemma updated_field {A B} (r : ref A) `{!RefOk r} (get : A → B) set h h1 h2 a b :
  updated r h h1 a → updated (field r get set) h1 h2 b → updated r h h2 (set b a).
Proof. intros H1 H2. destruct (updated_part r _ _ _ _ _ _ _ H1 H2) as (a' & [= <-] & ?). done. Qed.

Lemma load_field {A B} (r : ref A) (get : A → B) set h a :
  load r h = Some (a, h) → load (field r get set) h = Some (get a, h).
Proof. rewrite !load_Some. simpl. destruct (h !! r_loc r); [|done]. simpl. by intros ->. Qed.

(** ** Deep copies *)

(** [Deep T A]: a value of the Go type [T] denotes an [A], reading exactly the
    cells of the given set; [DeepCopyInto] writes to its second argument a value
    that denotes the same and reads only cells that did not exist before. *)
Definition copies {T A} (reads : Heap cell → T → gset nat → A → Prop) (m : ref T → ref T → HM unit) : Prop :=
  ∀ pin pout h v S a, RefOk pin → RefOk pout →
    load pin h = Some (v, h) → reads h v S a → r_loc pout ∉ S → r_loc pin ≠ r_loc pout →
    (∃ v0, load pout h = Some (v0, h)) →
    ∃ h' v' S', m pin pout h = Some (tt, h') ∧ updated pout h h' v' ∧ reads h' v' S' a ∧ S' ## dom h.

Class Deep (T A : Type) := {
  reads : Heap cell → T → gset nat → A → Prop;
  DeepCopyInto : ref T → ref T → HM unit;
  reads_dom h v S a : reads h v S a → S ⊆ dom h;
  reads_frame h h' v S a : reads h v S a → (∀ l, l ∈ S → h' !! l = h !! l) → reads h' v S a;
  deep_copies : copies reads DeepCopyInto
}.

(** [DeepCopy]: a fresh object, filled by [DeepCopyInto]. *)
Definition DeepCopy {T A} `{Stored T, Zero T, Deep T A} (p : option nat) : HM (option nat) :=
  match p with
  | None => mret None
  | Some l =>
    out ← new T;
    _ ← DeepCopyInto (deref l) (deref out);
    mret (Some out)
  end.

(** What was read stays readable when other places are written. *)
Lemma reads_updated {T A B} `{Deep T A} (r : ref B) h h' b v S a :
  reads h v S a → updated r h h' b → r_loc r ∉ S → reads h' v S a.
Proof.
  intros Hr [_ Ho] Hn. eapply reads_frame; [done|]. intros l Hl. apply Ho; [by eapply reads_dom|]. by intros ->.
Qed.

(** [*out = *in] *)
Definition assign {T} (pin pout : ref T) : HM unit := v ← load pin; store pout v.

Lemma assign_updated {T} (pin pout : ref T) `{!RefOk pout} h v v0 :
  load pin h = Some (v, h) → load pout h = Some (v0, h) →
  ∃ h', assign pin pout h = Some (tt, h') ∧ updated pout h h' v ∧ dom h' = dom h.
Proof.
  intros Hin Hout. destruct (store_updated pout h v0 v Hout) as (h' & Hs & Hu).
  exists h'. unfold assign, mbind, HM_bind. by rewrite Hin.
Qed.

(** Values without pointers: the assignment is the deep copy. *)
Definition plain_deep {T} : Deep T T.
Proof.
refine {| reads h v S a := S = ∅ ∧ a = v; DeepCopyInto := assign |}.
- abstract (intros h v S a [-> _]; set_solver).
- abstract (intros h h' v S a ? _; done).
- abstract (intros pin pout h v S a ? ? Hin [-> ->] _ _ [v0 Hout];
    destruct (assign_updated pin pout h v v0 Hin Hout) as (h' & Hs & Hu & _);
    exists h', v, ∅; split_and!; [done..|set_solver]).
Defined.

(** ** Slices as values *)

(** The slice [s] holds the elements [vs]. *)
Definition holds {T} `{Stored (list T)} (h : Heap cell) (s : slice) (vs : list T) : Prop :=
  ∃ arr, load (deref (sl_arr s)) h = Some (arr, h) ∧ sl_off s + sl_len s ≤ length arr ∧ vs = slice_content s arr.

Section slices.
Context {T A : Type} `{Stored (list T), Zero T} {deep : Deep T A}.

Inductive reads_list (h : Heap cell) : list T → gset nat → list A → Prop :=
| reads_nil : reads_list h [] ∅ []
| reads_cons v vs S1 S2 a l :
    reads h v S1 a → reads_list h vs S2 l → reads_list h (v :: vs) (S1 ∪ S2) (a :: l).

Definition reads_slice (h : Heap cell) (s : option slice) (S : gset nat) (l : option (list A)) : Prop :=
  match s, l with
  | None, None => S = ∅
  | Some s, Some l => ∃ vs S', holds h s vs ∧ reads_list h vs S' l ∧ S = {[sl_arr s]} ∪ S'
  | _, _ => False
  end.

Lemma reads_list_dom h vs S l : reads_list h vs S l → S ⊆ dom h.
Proof. induction 1 as [|v vs S1 S2 a l Hr _ IH]; [set_solver|]. apply reads_dom in Hr. set_solver. Qed.
Lemma reads_list_frame h h' vs S l :
  reads_list h vs S l → (∀ x, x ∈ S → h' !! x = h !! x) → reads_list h' vs S l.
Proof.
  induction 1 as [|v vs S1 S2 a l Hr _ IH]; intros Hx; [constructor|]. constructor; [|apply IH; set_solver].
  eapply reads_frame; [done|]. set_solver.
Qed.
Lemma reads_list_snoc h vs S l v S' a :
  reads_list h vs S l → reads h v S' a → reads_list h (vs ++ [v]) (S ∪ S') (l ++ [a]).
Proof.
  induction 1 as [|v0 vs S1 S2 a0 l Hr _ IH]; intros Hv; simpl.
  - replace (∅ ∪ S') with (S' ∪ ∅) by set_solver. constructor; [done|constructor].
  - rewrite <- (assoc_L (∪)). constructor; auto.
Qed.
Lemma reads_list_length h vs S l : reads_list h vs S l → length l = length vs.
Proof. induction 1; simpl; congruence. Qed.

Lemma reads_list_middle h d v rest S ld lr :
  reads_list h (d ++ v :: rest) S (ld ++ lr) → length ld = length d →
  ∃ a lr' S1, lr = a :: lr' ∧ reads h v S1 a ∧ S1 ⊆ S.
Proof.
  revert S ld. induction d as [|x d IH]; intros S [|b ld] Hr Hlen; try done; simpl in Hr;
    inversion Hr as [|? ? S1 S2 ? ? Hx Hr2]; subst.
  - eexists _, _, _. split_and!; [done..|set_solver].
  - destruct (IH S2 ld) as (a & lr' & S3 & -> & ? & ?); [done|by injection Hlen|].
    eexists _, _, _. split_and!; [done..|set_solver].
Qed.

Lemma holds_dom h s (vs : list T) : holds h s vs → sl_arr s ∈ dom h.
Proof.
  intros (arr & Hl & _). apply load_Some in Hl. apply elem_of_dom. simpl in Hl.
  destruct (h !! sl_arr s); [eauto|done].
Qed.
Lemma holds_frame h h' s (vs : list T) : holds h s vs → h' !! sl_arr s = h !! sl_arr s → holds h' s vs.
Proof. intros (arr & Hl & ?) He. exists arr. split; [|done]. by eapply load_same. Qed.
Lemma holds_length h s (vs : list T) : holds h s vs → length vs = sl_len s.
Proof. intros (arr & _ & Hlen & ->). unfold slice_content. rewrite length_take, length_drop. lia. Qed.
Lemma holds_elem h s (vs : list T) i v :
  holds h s vs → vs !! i = Some v → load (slice_elem s i) h = Some (v, h).
Proof.
  intros Hh Hi. pose proof (holds_length _ _ _ Hh). destruct Hh as (arr & Hl & Hlen & ->).
  pose proof (lookup_lt_Some _ _ _ Hi). apply load_Some in Hl. apply load_Some. simpl in *.
  destruct (h !! sl_arr s) as [c|]; [|done]. simpl in *. rewrite Hl. simpl. rewrite decide_True by lia.
  unfold slice_content in Hi. rewrite lookup_take_lt, lookup_drop in Hi by lia. done.
Qed.

Lemma reads_slice_dom h s S l : reads_slice h s S l → S ⊆ dom h.
Proof.
  destruct s as [s|], l as [l|]; simpl; try done; [|set_solver].
  intros (vs & S' & Hh%holds_dom & Hr%reads_list_dom & ->). set_solver.
Qed.
Lemma reads_slice_frame h h' s S l :
  reads_slice h s S l → (∀ x, x ∈ S → h' !! x = h !! x) → reads_slice h' s S l.
Proof.
  destruct s as [s|], l as [l|]; simpl; try done. intros (vs & S' & Hh & Hr & ->) Hx. exists vs, S'.
  split_and!; [|eapply reads_list_frame; [done|]; set_solver|done]. eapply holds_frame; [done|]. set_solver.
Qed.

(** ** Filling a new slice *)

(** From [h0] to [h] only the array at [l] changed. *)
Definition only_array (l : nat) (h0 h : Heap cell) : Prop := ∀ x, x ∈ dom h0 → x ≠ l → h !! x = h0 !! x.

Lemma slice_elem_updated l n i (v : T) h0 h h' arr :
  length arr = n → i < n → updated (deref l) h0 h arr → updated (slice_elem (mkSlice l 0 n n) i) h h' v →
  updated (deref l) h0 h' (<[i := v]> arr).
Proof.
  intros Hlen Hi Hu He. destruct (updated_part (deref l) _ _ _ _ _ _ _ Hu He) as (arr' & Hs & Hu').
  simpl in Hs. rewrite decide_True in Hs by lia. by injection Hs as <-.
Qed.

(** One turn of the loop: element [i] of [s] is copied to element [i] of the new array. *)
Lemma copy_elem l n i s vs v S a h0 h arr :
  length arr = n → vs !! i = Some v → length vs = n →
  holds h0 s vs → sl_arr s ≠ l → reads h0 v S a → l ∉ S → updated (deref l) h0 h arr →
  ∃ h' v' S', DeepCopyInto (slice_elem s i) (slice_elem (mkSlice l 0 n n) i) h = Some (tt, h') ∧
    updated (slice_elem (A := T) (mkSlice l 0 n n) i) h h' v' ∧
    updated (deref l) h0 h' (<[i := v']> arr) ∧ reads h' v' S' a ∧ S' ## dom h.
Proof.
  intros Hlen Hv Hvs Hh Hne Hr Hl Hu. pose proof (lookup_lt_Some _ _ _ Hv) as Hi.
  assert (holds h s vs) as Hh1 by (eapply holds_frame; [done|]; apply Hu; [by eapply holds_dom|done]).
  destruct (lookup_lt_is_Some_2 arr i) as [v0 Hv0]; [lia|].
  destruct (deep_copies (slice_elem s i) (slice_elem (mkSlice l 0 n n) i) h v S a) as (h' & v' & S' & Hm & He & Hr' & HS');
    [apply _|apply _|by eapply holds_elem|by apply (reads_updated (deref l) h0 h arr)|done|done| |].
  - exists v0. apply (holds_elem h _ arr); [|done]. exists arr. split_and!; [by apply (updated_load (deref l) h0)|simpl; lia|].
    unfold slice_content. simpl. by rewrite drop_0, take_ge by lia.
  - exists h', v', S'. split_and!; try done. eapply slice_elem_updated; [done|lia|done|done].
Qed.

Lemma copy_loop l s vs S lst h0 (body : nat → HM unit) :
  holds h0 s vs → sl_arr s ≠ l → reads_list h0 vs S lst → l ∉ S →
  (∀ i h, only_array l h0 h → body i h = DeepCopyInto (slice_elem s i) (slice_elem (mkSlice l 0 (length vs) (length vs)) i) h) →
  ∀ done rest vdone h Sd ldone lrest,
    vs = done ++ rest → lst = ldone ++ lrest → length vdone = length done → length ldone = length done →
    updated (deref l) h0 h (vdone ++ replicate (length rest) zero) →
    reads_list h vdone Sd ldone → Sd ## dom h0 →
    ∃ h' vs' S', for_range (length done) (length rest) body h = Some (tt, h') ∧
      updated (deref l) h0 h' vs' ∧ reads_list h' vs' S' lst ∧ S' ## dom h0 ∧ length vs' = length vs.
Proof.
  intros Hh Hne Hr Hl Hbody done rest. revert done.
  induction rest as [|v rest IH]; intros done vdone h Sd ldone lrest Evs Els Hld Hla Hu Hrd HSd.
  { simpl in *. exists h, vdone, Sd. rewrite app_nil_r in Hu, Evs. subst done. pose proof (reads_list_length _ _ _ _ Hr) as Hlen.
    subst lst. rewrite length_app in Hlen. destruct lrest as [|]; simpl in *; [|lia]. by rewrite app_nil_r. }
  assert (∃ a lrest' S1, lrest = a :: lrest' ∧ reads h0 v S1 a ∧ S1 ⊆ S) as (a & lrest' & S1 & -> & Hv & HS1).
  { subst. by eapply reads_list_middle. }
  assert (vs !! length done = Some v) as Hlk by (rewrite Evs; by apply list_lookup_middle).
  destruct (copy_elem l (length vs) (length done) s vs v S1 a h0 h (vdone ++ replicate (length (v :: rest)) zero))
    as (h1 & v' & S' & Hm & He & Hu1 & Hr1 & HS'); try done; [|set_solver|].
  { rewrite length_app, length_replicate, Evs, length_app. simpl. lia. }
  simpl. unfold mbind, HM_bind. rewrite Hbody by (intros x ??; by apply Hu). rewrite Hm.
  assert (l ∈ dom h0) as Hl0 by (destruct Hu as [(c & _ & Hc & _) _]; apply elem_of_dom; eauto).
  specialize (IH (done ++ [v]) (vdone ++ [v']) h1 (Sd ∪ S') (ldone ++ [a]) lrest').
  rewrite !length_app in IH. simpl in IH. rewrite !Nat.add_1_r in IH. apply IH.
  - by rewrite Evs, <- app_assoc.
  - by rewrite Els, <- app_assoc.
  - lia.
  - lia.
  - rewrite <- app_assoc. simpl. rewrite insert_app_r_alt in Hu1 by lia. rewrite Hld, Nat.sub_diag in Hu1. done.
  - apply reads_list_snoc; [|done]. eapply reads_list_frame; [done|]. intros x Hx.
    apply He; [by eapply reads_list_dom|]. simpl. intros ->. set_solver.
  - pose proof (updated_dom _ _ _ _ Hu). set_solver.
Qed.

(** [out.F = make([]T, n)] *)
Definition make_into (fout : ref (option slice)) (n : nat) : HM unit :=
  d ← make_slice T n; store fout (Some d).

(** [if in.F != nil { out.F = make([]T, len(in.F)); for i := range in.F
    { in.F[i].DeepCopyInto(&out.F[i]) } }] *)
Definition copy_elems (fin fout : ref (option slice)) : HM unit :=
  s ← load fin;
  match s with
  | None => mret tt
  | Some s =>
    _ ← make_into fout (sl_len s);
    for_range 0 (sl_len s) (λ i,
      si ← load fin; so ← load fout;
      match si, so with
      | Some si, Some so => DeepCopyInto (slice_elem si i) (slice_elem so i)
      | _, _ => λ _, None
      end)
  end.

Lemma updated_same {B} (r : ref B) `{!RefOk r} h b : load r h = Some (b, h) → updated r h h b.
Proof.
  rewrite load_Some. intros Hl. destruct (h !! r_loc r) as [c|] eqn:Hc; [|done]. simpl in Hl.
  split; [|done]. exists c, c. split_and!; [done|by apply ref_set_get|done].
Qed.

(** A new array, its header stored in [fout]: only [fout] changed, and a new cell appeared. *)
Lemma make_into_updated n (fout : ref (option slice)) `{!RefOk fout} h s0 :
  load fout h = Some (s0, h) →
  ∃ l h1, l ∉ dom h ∧
    make_into fout n h = Some (tt, h1) ∧
    updated fout h h1 (Some (mkSlice l 0 n n)) ∧ dom h1 = {[l]} ∪ dom h ∧
    h1 !! l = Some (inj_cell (replicate n (zero : T))).
Proof.
  intros Hl. unfold make_into, make_slice, mbind, HM_bind, alloc. cbv [mret HM_ret].
  set (l := fresh (dom h)). assert (l ∉ dom h) as Hf by apply is_fresh.
  assert (r_loc fout ∈ dom h) as Hd by (apply load_Some in Hl; apply elem_of_dom; destruct (h !! r_loc fout); [eauto|done]).
  assert (r_loc fout ≠ l) as Hne by (by intros <-).
  set (h0 := <[l := inj_cell (replicate n (zero : T))]> h).
  destruct (store_updated fout h0 s0 (Some (mkSlice l 0 n n))) as (h1 & Hs & [(c & c' & Hc & Hc' & Hc1) Ho] & Hdom).
  { eapply load_same; [exact Hl|]. by apply lookup_insert_ne. }
  exists l, h1. split_and!; try done.
  - split; [exists c, c'; split_and!; try done; unfold h0 in Hc; by rewrite lookup_insert_ne in Hc|].
    intros x Hx Hxne. rewrite Ho by (unfold h0; set_solver). apply lookup_insert_ne. by intros ->.
  - rewrite Hdom. unfold h0. by rewrite dom_insert_L.
  - rewrite Ho; [apply lookup_insert_eq|unfold h0; set_solver|done].
Qed.

(** Later changes of new cells do not matter to the old ones. *)
Lemma updated_new {B C} (r : ref B) (r' : ref C) h h1 h2 b c :
  updated r h h1 b → updated r' h1 h2 c → r_loc r' ∉ dom h → updated r h h2 b.
Proof.
  intros Hu1 [_ Ho] Hn. pose proof (updated_dom _ _ _ _ Hu1) as Hd.
  destruct Hu1 as [(c0 & c1 & Hc0 & Hs & Hc1) Ho1].
  assert (r_loc r ∈ dom h) by (apply elem_of_dom; eauto). split.
  - exists c0, c1. split_and!; [done..|]. rewrite Ho; [done|by apply Hd|]. intros E. by rewrite E in *.
  - intros x Hx Hne. rewrite Ho; [auto|auto|]. by intros ->.
Qed.
Lemma new_holds h l n (vs : list T) : load (deref l) h = Some (vs, h) → length vs = n → holds h (mkSlice l 0 n n) vs.
Proof.
  intros Hl Hn. exists vs. split_and!; [done|simpl; lia|]. unfold slice_content. simpl. by rewrite drop_0, take_ge by lia.
Qed.
Lemma load_dom {B} (r : ref B) h b : load r h = Some (b, h) → r_loc r ∈ dom h.
Proof. intros Hl%load_Some. apply elem_of_dom. destruct (h !! r_loc r); [eauto|done]. Qed.

(** While the new array is being filled, both headers read the same. *)
Lemma headers_kept (fin fout : ref (option slice)) `{!RefOk fout} h h1 h2 l s d :
  load fin h = Some (s, h) → r_loc fin ≠ r_loc fout → l ∉ dom h → updated fout h h1 d →
  only_array l h1 h2 → load fin h2 = Some (s, h2) ∧ load fout h2 = Some (d, h2).
Proof.
  intros Hin Hne Hl Hu Ho. pose proof (updated_dom _ _ _ _ Hu) as Hd. pose proof (load_dom _ _ _ Hin).
  assert (r_loc fout ∈ dom h) by (destruct Hu as [(c & _ & Hc & _) _]; apply elem_of_dom; eauto). split.
  - apply (load_same fin h1); [apply (load_same fin h); [done|]; by apply Hu|]. apply Ho; [by apply Hd|]. by intros <-.
  - apply (load_same fout h1); [by eapply updated_load|]. apply Ho; [by apply Hd|]. by intros <-.
Qed.

Lemma copy_elems_copies (fin fout : ref (option slice)) `{!RefOk fin, !RefOk fout} h s S l :
  load fin h = Some (s, h) → load fout h = Some (s, h) → reads_slice h s S l →
  r_loc fout ∉ S → r_loc fin ≠ r_loc fout →
  ∃ h' s' S', copy_elems fin fout h = Some (tt, h') ∧ updated fout h h' s' ∧ reads_slice h' s' S' l ∧ S' ## dom h.
Proof.
  intros Hin Hout Hr Hn Hne. unfold copy_elems, mbind at 1, HM_bind at 1. rewrite Hin.
  destruct s as [s|], l as [lst|]; simpl in Hr; try done.
  2:{ exists h, None, ∅. split_and!; [done|by apply updated_same|done|set_solver]. }
  destruct Hr as (vs & S0 & Hh & Hl & ->). pose proof (holds_length _ _ _ Hh) as Hlen.
  destruct (make_into_updated (sl_len s) fout h (Some s) Hout) as (l & h1 & Hl1 & Hm & Hu1 & Hd1 & Hc1).
  unfold mbind at 1, HM_bind at 1. rewrite Hm. pose proof (holds_dom _ _ _ Hh) as Hsd. pose proof (reads_list_dom _ _ _ _ Hl) as Hld.
  destruct (copy_loop l s vs S0 lst h1) with (done := @nil T) (rest := vs) (vdone := @nil T) (h := h1) (Sd := ∅ : gset nat)
    (ldone := @nil A) (lrest := lst) (body := λ i, si ← load fin; so ← load fout;
      match si, so with
      | Some si, Some so => DeepCopyInto (slice_elem si i) (slice_elem so i)
      | _, _ => λ _, None
      end : HM unit) as (h' & vs' & S' & Hf & Hu2 & Hr2 & HS' & Hlv);
    [|by intros <-| |by set_solver| |done|done|done|done| |constructor|set_solver|].
  - eapply holds_frame; [done|]. apply Hu1; [done|set_solver].
  - eapply reads_list_frame; [done|]. intros x Hx. apply Hu1; [set_solver|]. intros ->. set_solver.
  - intros i h2 Ho. destruct (headers_kept fin fout h h1 h2 l (Some s) _ Hin Hne Hl1 Hu1 Ho) as [E1 E2]. unfold mbind at 1, HM_bind at 1. rewrite E1.
    unfold mbind at 1, HM_bind at 1. rewrite E2. by rewrite Hlen.
  - split; [|done]. exists (inj_cell (replicate (sl_len s) (zero : T))), (inj_cell (replicate (length vs) (zero : T))).
    simpl. rewrite prj_inj. by rewrite Hlen.
  - exists h', (Some (mkSlice l 0 (sl_len s) (sl_len s))), ({[l]} ∪ S'). simpl in Hf. rewrite Hlen in Hf.
    split_and!; [done| | |set_solver].
    + eapply updated_new; [done|done|done].
    + exists vs', S'. split_and!; [|done|done]. apply new_holds; [by apply (updated_load (deref l) h1)|lia].
Qed.
End slices.

(** ** Slices of values without pointers *)

Section values.
Context {T : Type} `{Stored (list T), Zero T}.
#[local] Existing Instance plain_deep.

(** [if in.F != nil { out.F = make([]T, len(in.F)); copy(out.F, in.F) }] *)
Definition copy_values (fin fout : ref (option slice)) : HM unit :=
  s ← load fin;
  match s with
  | None => mret tt
  | Some s =>
    _ ← make_into (T := T) fout (sl_len s);
    so ← load fout; si ← load fin;
    match so, si with
    | Some so, Some si => copy_slice (A := T) so si
    | _, _ => λ _, None
    end
  end.

Lemma reads_list_plain h (vs : list T) S l : reads_list h vs S l ↔ l = vs ∧ S = ∅.
Proof.
  split.
  - induction 1 as [|v vs S1 S2 a l [-> ->] _ [-> ->]]; [done|]. split; [done|set_solver].
  - intros [-> ->]. induction vs as [|v vs IH]; [constructor|].
    replace (∅ : gset nat) with (∅ ∪ ∅ : gset nat) by set_solver. by constructor.
Qed.

Lemma copy_values_copies (fin fout : ref (option slice)) `{!RefOk fin, !RefOk fout} h s S (l : option (list T)) :
  load fin h = Some (s, h) → load fout h = Some (s, h) → reads_slice h s S l →
  r_loc fout ∉ S → r_loc fin ≠ r_loc fout →
  ∃ h' s' S', copy_values fin fout h = Some (tt, h') ∧ updated fout h h' s' ∧ reads_slice h' s' S' l ∧ S' ## dom h.
Proof.
  intros Hin Hout Hr Hn Hne. unfold copy_values, mbind at 1, HM_bind at 1. rewrite Hin.
  destruct s as [s|], l as [lst|]; simpl in Hr; try done.
  2:{ exists h, None, ∅. split_and!; [done|by apply updated_same|done|set_solver]. }
  destruct Hr as (vs & S0 & Hh & [-> ->]%reads_list_plain & ->). pose proof (holds_length _ _ _ Hh) as Hlen.
  destruct (make_into_updated (T := T) (sl_len s) fout h (Some s) Hout) as (l & h1 & Hl1 & Hm & Hu1 & Hd1 & Hc1).
  unfold mbind at 1, HM_bind at 1. rewrite Hm. pose proof (holds_dom _ _ _ Hh) as Hsd.
  destruct (headers_kept fin fout h h1 h1 l (Some s) _ Hin Hne Hl1 Hu1) as [E1 E2]; [by intros ???|].
  unfold mbind at 1, HM_bind at 1. rewrite E2. unfold mbind at 1, HM_bind at 1. rewrite E1.
  assert (holds h1 s vs) as (arr & Ha & Hlen' & ->) by (eapply holds_frame; [done|]; apply Hu1; [done|set_solver]).
  unfold copy_slice, mbind, HM_bind. cbn [sl_arr sl_off sl_len]. rewrite Ha.
  assert (load (deref l) h1 = Some (replicate (sl_len s) (zero : T), h1)) as Hz
    by (apply load_Some; simpl; rewrite Hc1; simpl; apply prj_inj).
  rewrite Hz. destruct (store_updated (deref l) h1 _ (overwrite (replicate (sl_len s) zero) 0
    (take (sl_len s) (slice_content s arr))) Hz) as (h' & Hs & Hu2 & Hd2).
  exists h', (Some (mkSlice l 0 (sl_len s) (sl_len s))), {[l]}. split_and!; [done|by eapply updated_new| |set_solver].
  assert (overwrite (replicate (sl_len s) (zero : T)) 0 (take (sl_len s) (slice_content s arr)) = slice_content s arr) as Eo.
  { unfold overwrite. rewrite (take_ge (slice_content s arr)) by lia. simpl.
    rewrite Hlen, drop_replicate, Nat.sub_diag. simpl. by rewrite app_nil_r. }
  rewrite Eo in Hu2. exists (slice_content s arr), ∅. split_and!; [|by apply reads_list_plain|set_solver].
  apply new_holds; [by apply (updated_load (deref l) h1)|done].
Qed.

(** [if in.F != nil { out.F = new(T); *out.F = *in.F }] *)
Context `{Stored T}.
Definition copy_pointer (fin fout : ref (option nat)) : HM unit :=
  p ← load fin;
  match p with
  | None => mret tt
  | Some _ =>
    n ← new T;
    _ ← store fout (Some n);
    pi ← load fin; po ← load fout;
    match pi, po with
    | Some i, Some o => assign (deref (A := T) i) (deref o)
    | _, _ => λ _, None
    end
  end.

Definition reads_pointer (h : Heap cell) (p : option nat) (S : gset nat) (a : option T) : Prop :=
  match p, a with
  | None, None => S = ∅
  | Some l, Some a => load (deref l) h = Some (a, h) ∧ S = {[l]}
  | _, _ => False
  end.

Lemma reads_pointer_dom h p S a : reads_pointer h p S a → S ⊆ dom h.
Proof.
  destruct p, a; simpl; try done; [|set_solver]. intros [Hl%load_dom ->]. simpl in Hl. set_solver.
Qed.
Lemma reads_pointer_frame h h' p S a :
  reads_pointer h p S a → (∀ l, l ∈ S → h' !! l = h !! l) → reads_pointer h' p S a.
Proof.
  destruct p as [l|], a; simpl; try done. intros [Hl ->] Hx. split; [|done].
  eapply load_same; [exact Hl|]. apply Hx. set_solver.
Qed.

Lemma copy_pointer_copies (fin fout : ref (option nat)) `{!RefOk fin, !RefOk fout} h p S a :
  load fin h = Some (p, h) → load fout h = Some (p, h) → reads_pointer h p S a →
  r_loc fout ∉ S → r_loc fin ≠ r_loc fout →
  ∃ h' p' S', copy_pointer fin fout h = Some (tt, h') ∧ updated fout h h' p' ∧ reads_pointer h' p' S' a ∧ S' ## dom h.
Proof.
  intros Hin Hout Hr Hn Hne. unfold copy_pointer, mbind at 1, HM_bind at 1. rewrite Hin.
  destruct p as [l|], a as [a|]; simpl in Hr; try done.
  2:{ exists h, None, ∅. split_and!; [done|by apply updated_same|done|set_solver]. }
  destruct Hr as [Hl ->]. pose proof (load_dom _ _ _ Hl) as Hd. pose proof (load_dom _ _ _ Hin) as Hdi.
  pose proof (load_dom _ _ _ Hout) as Hdo. simpl in Hd. unfold new, alloc, mbind, HM_bind. set (o := fresh (dom h)).
  assert (o ∉ dom h) as Hf by apply is_fresh. set (h0 := <[o := inj_cell (zero : T)]> h).
  assert (∀ x, x ∈ dom h → h0 !! x = h !! x) as Hx by (intros x Hxd; apply lookup_insert_ne; by intros <-).
  destruct (store_updated fout h0 (Some l) (Some o)) as (h1 & Hs & Hu1 & Hd1); [by eapply load_same; [|apply Hx]|].
  rewrite Hs. assert (∀ x, x ∈ dom h → x ≠ r_loc fout → h1 !! x = h !! x) as Hx1.
  { intros x Hxd Hxne. rewrite <- Hx by done. apply Hu1; [unfold h0; set_solver|done]. }
  rewrite (load_same fin h h1 (Some l) Hin), (updated_load fout h0 h1 (Some o)) by auto.
  assert (load (deref o) h1 = Some ((zero : T), h1)) as Ho.
  { apply load_Some. simpl. destruct Hu1 as [_ Hu1]. rewrite Hu1; [|unfold h0; set_solver|by intros ->].
    unfold h0. rewrite lookup_insert_eq. simpl. apply prj_inj. }
  destruct (assign_updated (deref l) (deref o) h1 a zero) as (h2 & Ha & Hu2 & Hd2);
    [eapply load_same; [exact Hl|]; apply Hx1; [done|set_solver]|done|].
  rewrite Ha. exists h2, (Some o), {[o]}. split_and!; [done| |split; [by apply (updated_load (deref o) h1)|done]|set_solver].
  eapply updated_new; [|exact Hu2|done]. split; [|auto].
  destruct Hu1 as [(c & c' & Hc & Hc') _]. exists c, c'. by rewrite Hx in Hc.
Qed.
End values.

(** ** Copying a struct field by field *)

(** A statement that replaces a field, already assigned from [in], by a copy of its own. *)
Record copier (T A : Type) := mkCopier {
  cp_reads : Heap cell → T → gset nat → A → Prop;
  cp_run : ref T → ref T → HM unit;
  cp_dom h v S a : cp_reads h v S a → S ⊆ dom h;
  cp_frame h h' v S a : cp_reads h v S a → (∀ l, l ∈ S → h' !! l = h !! l) → cp_reads h' v S a;
  cp_copies pin pout h v S a : RefOk pin → RefOk pout →
    load pin h = Some (v, h) → load pout h = Some (v, h) → cp_reads h v S a →
    r_loc pout ∉ S → r_loc pin ≠ r_loc pout →
    ∃ h' v' S', cp_run pin pout h = Some (tt, h') ∧ updated pout h h' v' ∧ cp_reads h' v' S' a ∧ S' ## dom h
}.
#[global] Arguments cp_reads {_ _} _ _ _ _ _.
#[global] Arguments cp_run {_ _} _ _ _.

Definition deep_copier {T A} `{Deep T A} : copier T A.
Proof.
refine {| cp_reads := reads; cp_run := DeepCopyInto; cp_dom := reads_dom; cp_frame := reads_frame |}.
abstract (intros pin pout h v S a ? ? Hin Hout Hr Hn Hne; eapply deep_copies; eauto).
Defined.
Definition elems_copier {T A} `{Stored (list T), Zero T, Deep T A} : copier (option slice) (option (list A)).
Proof.
refine {| cp_reads := reads_slice; cp_run := copy_elems; cp_dom := reads_slice_dom; cp_frame := reads_slice_frame |}.
abstract (intros; eapply copy_elems_copies; eauto).
Defined.
Definition values_copier {T} `{Stored (list T), Zero T} : copier (option slice) (option (list T)).
Proof.
refine {| cp_reads := reads_slice (deep := plain_deep); cp_run := copy_values;
  cp_dom := reads_slice_dom; cp_frame := reads_slice_frame |}.
abstract (intros; eapply copy_values_copies; eauto).
Defined.
Definition pointer_copier {T} `{Zero T, Stored T} : copier (option nat) (option T).
Proof.
refine {| cp_reads := reads_pointer; cp_run := copy_pointer; cp_dom := reads_pointer_dom; cp_frame := reads_pointer_frame |}.
abstract (intros; eapply copy_pointer_copies; eauto).
Defined.

Section fields.
Context {R : Type} (pin pout : ref R) `{!RefOk pin, !RefOk pout}.
Context (h : Heap cell) (v : R) (Hin : load pin h = Some (v, h)) (Hne : r_loc pin ≠ r_loc pout).

(** A copy in progress: [out] is [v1], and nothing else of the old memory has changed. *)
Definition copying (h1 : Heap cell) (v1 : R) : Prop := updated pout h h1 v1.

(** Between two steps of the copy. *)
Definition later (h1 h2 : Heap cell) : Prop := ∀ x, x ∈ dom h1 → x ≠ r_loc pout → h2 !! x = h1 !! x.

Lemma later_trans h1 h2 h3 : later h1 h2 → later h2 h3 → later h1 h3.
Proof using Type.
  intros H12 H23 x Hx Hxne. rewrite <- H12 by done. apply H23; [|done]. apply elem_of_dom. rewrite H12 by done. by apply elem_of_dom.
Qed.
Lemma cp_later {T A} (c : copier T A) h1 h2 t S a :
  r_loc pout ∈ dom h → cp_reads c h1 t S a → S ## dom h → later h1 h2 → cp_reads c h2 t S a.
Proof using Type.
  intros Hd Hr HS Hl. eapply cp_frame; [done|]. intros x Hx. apply Hl; [by eapply cp_dom|]. intros ->. by apply (proj1 (elem_of_disjoint S (dom h)) HS (r_loc pout)).
Qed.

Lemma copying_start v0 : load pout h = Some (v0, h) → ∃ h1, assign pin pout h = Some (tt, h1) ∧ copying h1 v.
Proof using All.
  intros Hout. destruct (assign_updated pin pout h v v0 Hin Hout) as (h1 & ? & ? & _). by exists h1.
Qed.

(** The next field; what was copied before stays readable. *)
Lemma copying_field {T A} (c : copier T A) (get : R → T) set `{!FieldOk get set} h1 v1 S a :
  copying h1 v1 → get v1 = get v → cp_reads c h (get v) S a → r_loc pout ∉ S →
  ∃ h2 t' S', cp_run c (field pin get set) (field pout get set) h1 = Some (tt, h2) ∧ copying h2 (set t' v1) ∧
    cp_reads c h2 t' S' a ∧ S' ## dom h ∧ later h1 h2.
Proof using All.
  intros Hu Hget Hr Hn. pose proof (load_dom _ _ _ Hin) as Hd. pose proof (updated_dom _ _ _ _ Hu) as Hdd.
  assert (load pin h1 = Some (v, h1)) as Hin1 by (eapply load_same; [exact Hin|]; by apply Hu).
  destruct (cp_copies _ _ c (field pin get set) (field pout get set) h1 (get v) S a) as (h2 & t' & S' & Hm & Hf & Hr' & HS');
    [apply _|apply _|by apply load_field| | |done|done|].
  - rewrite <- Hget. by eapply load_field, updated_load.
  - eapply cp_frame; [done|]. intros l Hl. apply Hu; [by eapply cp_dom|]. by intros ->.
  - exists h2, t', S'. split_and!; try done; [by eapply updated_field|set_solver|]. by intros x ??; apply Hf.
Qed.

(** [out.F = in.F] for a field without pointers. *)
Lemma copying_assign {T} (get : R → T) set `{!FieldOk get set} h1 v1 :
  copying h1 v1 → get v1 = get v →
  ∃ h2, assign (field pin get set) (field pout get set) h1 = Some (tt, h2) ∧ copying h2 (set (get v) v1) ∧ later h1 h2.
Proof using All.
  intros Hu Hget. destruct (copying_field (deep_copier (H := plain_deep)) get set h1 v1 ∅ (get v))
    as (h2 & t' & S' & Hm & Hc & [-> ->] & _ & Ho); [done|done|done|set_solver|]. exists h2. done.
Qed.
End fields.
(** ** What a deep copy gives *)

(** The object at [l] denotes [a] and reads the cells [S] besides its own. *)
Definition object {T A} `{Stored T, Deep T A} (h : Heap cell) (l : nat) (S : gset nat) (a : A) : Prop :=
  ∃ v, load (deref l) h = Some (v, h) ∧ reads h v S a.

Lemma object_frame {T A} `{Stored T, Deep T A} h h' l S (a : A) :
  object h l S a → (∀ x, x ∈ {[l]} ∪ S → h' !! x = h !! x) → object h' l S a.
Proof.
  intros (v & Hl & Hr) Hx. exists v. split.
  - eapply load_same; [exact Hl|]. apply Hx. set_solver.
  - eapply reads_frame; [done|]. set_solver.
Qed.

Lemma DeepCopy_spec {T A} `{Stored T, Zero T, Deep T A} h l S (a : A) :
  object h l S a →
  ∃ h' l' S', DeepCopy (Some l) h = Some (Some l', h') ∧ object h' l' S' a ∧
    (∀ x, x ∈ dom h → h' !! x = h !! x) ∧ {[l']} ∪ S' ## dom h.
Proof.
  intros (v & Hl & Hr). simpl. unfold new, alloc, mbind, HM_bind. set (o := fresh (dom h)).
  assert (o ∉ dom h) as Hf by apply is_fresh. pose proof (load_dom _ _ _ Hl) as Hd. simpl in Hd.
  set (h1 := <[o := inj_cell (zero : T)]> h).
  assert (∀ x, x ∈ dom h → h1 !! x = h !! x) as Hx by (intros x Hin; apply lookup_insert_ne; by intros <-).
  pose proof (reads_dom _ _ _ _ Hr) as HS.
  destruct (deep_copies (deref l) (deref o) h1 v S a) as (h' & v' & S' & Hm & Hu & Hr' & HS');
    [apply _|apply _|by eapply load_same; [|by apply Hx]|eapply reads_frame; [done|]; auto|by intros Hin%HS|by intros E; simpl in E; subst|..].
  - exists zero. apply load_Some. simpl. unfold h1. rewrite lookup_insert_eq. simpl. apply prj_inj.
  - rewrite Hm. exists h', o, S'. split_and!; [done| | |unfold h1 in HS'; rewrite dom_insert_L in HS'; set_solver].
    + exists v'. split; [by apply (updated_load (deref o) h1)|done].
    + intros x Hin. rewrite <- Hx by done. apply Hu; [unfold h1; set_solver|]. simpl. by intros ->.
Qed.
End memory.
#[global] Arguments HM : clear implicits.
#[global] Arguments ref : clear implicits.
#[global] Arguments Stored : clear implicits.
#[global] Arguments Deep : clear implicits.
