(* ===== verification/DeepCopy.v ===== *)
(** * Deep copies of the Application resource (api/v1alpha1/zz_generated.deepcopy.go)

    The resource as Go lays it out in memory, with its pointers and slices, and the
    hand-written [DeepCopyInto], [DeepCopy] and [DeepCopyObject] methods,
    statement by statement over the heap of Memory.  Metadata and conditions are types of
    the Kubernetes libraries: arguments, with the contract of their own
    [DeepCopyInto].  What a copy denotes is the immutable resource the
    controller is modelled with. *)
From S2P Require Import Prelude Memory Controller.

(** ** The types in memory *)

(** Records: the laws of a field hold by computation. *)
Ltac field_laws := split; [done|done|by intros []].
(** A type with its own constructor of cells. *)
Tactic Notation "stored" uconstr(inj) uconstr(prj) := refine {| inj_cell := inj; prj_cell := prj |}; [done|by intros ? []; naive_solver].

Section layout.
Context {TypeMeta ObjectMeta ListMeta GoCondition metacell : Type}.

Record GoSecuritySettings := mkGoSecuritySettings { go_ReadOnlyRootFilesystem : option nat }.

Record GoApplicationSpec := mkGoApplicationSpec {
  go_Image : string;
  go_Port : Z;
  go_Replicas : Z;
  go_Tier : Z;
  go_Env : option slice;
  go_Resources : ResourceRequests;
  go_Expose : bool;
  go_Security : GoSecuritySettings
}.

Record GoApplicationStatus := mkGoApplicationStatus {
  go_Phase : string;
  go_ObservedGeneration : Z;
  go_st_Replicas : Z;
  go_ReadyReplicas : Z;
  go_Conditions : option slice
}.

Record GoApplication := mkGoApplication {
  go_TypeMeta : TypeMeta;
  go_ObjectMeta : ObjectMeta;
  go_Spec : GoApplicationSpec;
  go_Status : GoApplicationStatus
}.

Record GoApplicationList := mkGoApplicationList {
  go_list_TypeMeta : TypeMeta;
  go_ListMeta : ListMeta;
  go_Items : option slice
}.

(** What a cell of the heap holds: a variable of one of the types, the array behind a
    slice, or something of the libraries. *)
Inductive go_cell :=
| CBool (b : bool)
| CEnv (l : list AppEnvVar)
| CConditions (l : list GoCondition)
| CItems (l : list GoApplication)
| CSecurity (s : GoSecuritySettings)
| CSpec (s : GoApplicationSpec)
| CStatus (s : GoApplicationStatus)
| CApplication (a : GoApplication)
| CApplicationList (l : GoApplicationList)
| CMeta (m : metacell).

(** ** References to fields *)

Definition set_ro (p : option nat) (s : GoSecuritySettings) : GoSecuritySettings := mkGoSecuritySettings p.
Definition set_Env (e : option slice) (s : GoApplicationSpec) : GoApplicationSpec :=
  mkGoApplicationSpec (go_Image s) (go_Port s) (go_Replicas s) (go_Tier s) e (go_Resources s) (go_Expose s) (go_Security s).
Definition set_Resources (r : ResourceRequests) (s : GoApplicationSpec) : GoApplicationSpec :=
  mkGoApplicationSpec (go_Image s) (go_Port s) (go_Replicas s) (go_Tier s) (go_Env s) r (go_Expose s) (go_Security s).
Definition set_Security (x : GoSecuritySettings) (s : GoApplicationSpec) : GoApplicationSpec :=
  mkGoApplicationSpec (go_Image s) (go_Port s) (go_Replicas s) (go_Tier s) (go_Env s) (go_Resources s) (go_Expose s) x.
Definition set_Conditions (c : option slice) (s : GoApplicationStatus) : GoApplicationStatus :=
  mkGoApplicationStatus (go_Phase s) (go_ObservedGeneration s) (go_st_Replicas s) (go_ReadyReplicas s) c.
Definition set_TypeMeta (t : TypeMeta) (a : GoApplication) : GoApplication :=
  mkGoApplication t (go_ObjectMeta a) (go_Spec a) (go_Status a).
Definition set_ObjectMeta (m : ObjectMeta) (a : GoApplication) : GoApplication :=
  mkGoApplication (go_TypeMeta a) m (go_Spec a) (go_Status a).
Definition set_Spec (s : GoApplicationSpec) (a : GoApplication) : GoApplication :=
  mkGoApplication (go_TypeMeta a) (go_ObjectMeta a) s (go_Status a).
Definition set_Status (s : GoApplicationStatus) (a : GoApplication) : GoApplication :=
  mkGoApplication (go_TypeMeta a) (go_ObjectMeta a) (go_Spec a) s.
Definition set_list_TypeMeta (t : TypeMeta) (l : GoApplicationList) : GoApplicationList :=
  mkGoApplicationList t (go_ListMeta l) (go_Items l).
Definition set_ListMeta (m : ListMeta) (l : GoApplicationList) : GoApplicationList :=
  mkGoApplicationList (go_list_TypeMeta l) m (go_Items l).
Definition set_Items (i : option slice) (l : GoApplicationList) : GoApplicationList :=
  mkGoApplicationList (go_list_TypeMeta l) (go_ListMeta l) i.

#[global] Instance ro_ok : FieldOk go_ReadOnlyRootFilesystem set_ro.
Proof. field_laws. Qed.
#[global] Instance Env_ok : FieldOk go_Env set_Env.
Proof. field_laws. Qed.
#[global] Instance Resources_ok : FieldOk go_Resources set_Resources.
Proof. field_laws. Qed.
#[global] Instance Security_ok : FieldOk go_Security set_Security.
Proof. field_laws. Qed.
#[global] Instance Conditions_ok : FieldOk go_Conditions set_Conditions.
Proof. field_laws. Qed.
#[global] Instance TypeMeta_ok : FieldOk go_TypeMeta set_TypeMeta.
Proof. field_laws. Qed.
#[global] Instance ObjectMeta_ok : FieldOk go_ObjectMeta set_ObjectMeta.
Proof. field_laws. Qed.
#[global] Instance Spec_ok : FieldOk go_Spec set_Spec.
Proof. field_laws. Qed.
#[global] Instance Status_ok : FieldOk go_Status set_Status.
Proof. field_laws. Qed.
#[global] Instance list_TypeMeta_ok : FieldOk go_list_TypeMeta set_list_TypeMeta.
Proof. field_laws. Qed.
#[global] Instance ListMeta_ok : FieldOk go_ListMeta set_ListMeta.
Proof. field_laws. Qed.
#[global] Instance Items_ok : FieldOk go_Items set_Items.
Proof. field_laws. Qed.
End layout.
Arguments GoApplication : clear implicits.
Arguments GoApplicationList : clear implicits.
Arguments go_cell : clear implicits.

(** ** The methods *)

Section methods.
Context {TypeMeta ObjectMeta ListMeta GoCondition metacell MetaV ListV : Type}.
Context {zt : Zero TypeMeta} {zo : Zero ObjectMeta} {zl : Zero ListMeta} {zc : Zero GoCondition}.
Abbreviation cell := (go_cell TypeMeta ObjectMeta ListMeta GoCondition metacell).
Abbreviation App := (GoApplication TypeMeta ObjectMeta).
Abbreviation AppList := (GoApplicationList TypeMeta ListMeta).
Context {meta_deep : Deep cell ObjectMeta MetaV} {list_deep : Deep cell ListMeta ListV}
  {condition_deep : Deep cell GoCondition Condition}.

#[global] Instance stored_bool : Stored cell bool.
Proof. stored CBool (λ x : cell, match x with CBool b => Some b | _ => None end). Defined.
#[global] Instance stored_env : Stored cell (list AppEnvVar).
Proof. stored CEnv (λ x : cell, match x with CEnv b => Some b | _ => None end). Defined.
#[global] Instance stored_conditions : Stored cell (list GoCondition).
Proof. stored CConditions (λ x : cell, match x with CConditions b => Some b | _ => None end). Defined.
#[global] Instance stored_items : Stored cell (list App).
Proof. stored CItems (λ x : cell, match x with CItems b => Some b | _ => None end). Defined.
#[global] Instance stored_security : Stored cell GoSecuritySettings.
Proof. stored CSecurity (λ x : cell, match x with CSecurity b => Some b | _ => None end). Defined.
#[global] Instance stored_spec : Stored cell GoApplicationSpec.
Proof. stored CSpec (λ x : cell, match x with CSpec b => Some b | _ => None end). Defined.
#[global] Instance stored_status : Stored cell GoApplicationStatus.
Proof. stored CStatus (λ x : cell, match x with CStatus b => Some b | _ => None end). Defined.
#[global] Instance stored_application : Stored cell App.
Proof. stored CApplication (λ x : cell, match x with CApplication b => Some b | _ => None end). Defined.
#[global] Instance stored_list : Stored cell AppList.
Proof. stored CApplicationList (λ x : cell, match x with CApplicationList b => Some b | _ => None end). Defined.

#[global] Instance zero_bool : Zero bool := false.
#[global] Instance zero_env : Zero AppEnvVar := mkAppEnvVar "" "".
#[global] Instance zero_security : Zero GoSecuritySettings := mkGoSecuritySettings None.
#[global] Instance zero_spec : Zero GoApplicationSpec :=
  mkGoApplicationSpec "" 0 0 0 None (mkResourceRequests "" "") false zero.
#[global] Instance zero_status : Zero GoApplicationStatus := mkGoApplicationStatus "" 0 0 0 None.
#[global] Instance zero_application : Zero App := mkGoApplication zero zero zero zero.
#[global] Instance zero_list : Zero AppList := mkGoApplicationList zero zero None.

(** [SecuritySettings.DeepCopyInto] *)
Definition SecuritySettings_DeepCopyInto (pin pout : ref cell GoSecuritySettings) : HM cell unit :=
  _ ← assign pin pout;
  copy_pointer (T := bool) (field pin go_ReadOnlyRootFilesystem set_ro) (field pout go_ReadOnlyRootFilesystem set_ro).

(** [ApplicationSpec.DeepCopyInto] *)
Definition ApplicationSpec_DeepCopyInto (pin pout : ref cell GoApplicationSpec) : HM cell unit :=
  _ ← assign pin pout;
  _ ← copy_values (T := AppEnvVar) (field pin go_Env set_Env) (field pout go_Env set_Env);
  _ ← assign (field pin go_Resources set_Resources) (field pout go_Resources set_Resources);
  SecuritySettings_DeepCopyInto (field pin go_Security set_Security) (field pout go_Security set_Security).

(** [ApplicationStatus.DeepCopyInto] *)
Definition ApplicationStatus_DeepCopyInto (pin pout : ref cell GoApplicationStatus) : HM cell unit :=
  _ ← assign pin pout;
  copy_elems (T := GoCondition) (field pin go_Conditions set_Conditions) (field pout go_Conditions set_Conditions).

(** [Application.DeepCopyInto] *)
Definition Application_DeepCopyInto (pin pout : ref cell App) : HM cell unit :=
  _ ← assign pin pout;
  _ ← assign (field pin go_TypeMeta set_TypeMeta) (field pout go_TypeMeta set_TypeMeta);
  _ ← DeepCopyInto (field pin go_ObjectMeta set_ObjectMeta) (field pout go_ObjectMeta set_ObjectMeta);
  _ ← ApplicationSpec_DeepCopyInto (field pin go_Spec set_Spec) (field pout go_Spec set_Spec);
  ApplicationStatus_DeepCopyInto (field pin go_Status set_Status) (field pout go_Status set_Status).

(** ** What they denote, and that they copy *)

Definition security_reads (h : Heap cell) (v : GoSecuritySettings) (S : gset nat) (a : SecuritySettings) : Prop :=
  reads_pointer h (go_ReadOnlyRootFilesystem v) S (ReadOnlyRootFilesystem a).

(** The environment as well as whether it is nil. *)
Definition spec_reads (h : Heap cell) (v : GoApplicationSpec) (S : gset nat)
    (a : ApplicationSpec * option (list AppEnvVar)) : Prop :=
  ∃ S1 S2 sec, S = S1 ∪ S2 ∧ cp_reads values_copier h (go_Env v) S1 a.2 ∧ security_reads h (go_Security v) S2 sec ∧
    a.1 = mkApplicationSpec (go_Image v) (go_Port v) (go_Replicas v) (go_Tier v) (default [] a.2)
            (go_Resources v) (go_Expose v) sec.

Definition status_reads (h : Heap cell) (v : GoApplicationStatus) (S : gset nat)
    (a : ApplicationStatus * option (list Condition)) : Prop :=
  cp_reads elems_copier h (go_Conditions v) S a.2 ∧
  a.1 = mkApplicationStatus (go_Phase v) (go_ObservedGeneration v) (go_st_Replicas v) (go_ReadyReplicas v) (default [] a.2).

#[global] Instance security_deep : Deep cell GoSecuritySettings SecuritySettings.
Proof.
  refine {| reads := security_reads; DeepCopyInto := SecuritySettings_DeepCopyInto |}.
  - intros h v S a. apply reads_pointer_dom.
  - intros h h' v S a. apply reads_pointer_frame.
  - intros pin pout h v S a Hpi Hpo Hin Hr Hn Hne [v0 Hout].
    destruct (copying_start pin pout h v Hin Hne v0 Hout) as (h1 & Hm1 & Hc1).
    destruct (copying_field pin pout h v Hin Hne pointer_copier go_ReadOnlyRootFilesystem set_ro h1 v S _ Hc1 eq_refl Hr Hn)
      as (h2 & t & S' & Hm2 & Hc2 & Hr2 & HS & _).
    exists h2, (set_ro t v), S'. unfold SecuritySettings_DeepCopyInto, mbind, HM_bind. rewrite Hm1. by split_and!.
Defined.

#[global] Instance spec_deep : Deep cell GoApplicationSpec (ApplicationSpec * option (list AppEnvVar)).
Proof.
  refine {| reads := spec_reads; DeepCopyInto := ApplicationSpec_DeepCopyInto |}.
  - intros h v S a (S1 & S2 & sec & -> & Hd1%cp_dom & Hd2%reads_pointer_dom & _). set_solver.
  - intros h h' v S a (S1 & S2 & sec & -> & Hd1 & Hd2 & Ha) Hx. exists S1, S2, sec. split_and!; [done| | |done].
    + eapply cp_frame; [done|]. set_solver.
    + eapply reads_pointer_frame; [done|]. set_solver.
  - intros pin pout h v S [a env] Hpi Hpo Hin (S1 & S2 & sec & -> & Henv & Hsec & Ha) Hn Hne [v0 Hout]. simpl in *.
    destruct (copying_start pin pout h v Hin Hne v0 Hout) as (h1 & Hm1 & Hc1).
    destruct (copying_field pin pout h v Hin Hne values_copier go_Env set_Env h1 v S1 env Hc1 eq_refl Henv)
      as (h2 & e & S1' & Hm2 & Hc2 & He & HS1 & _); [set_solver|].
    destruct (copying_assign pin pout h v Hin Hne go_Resources set_Resources h2 _ Hc2 eq_refl) as (h3 & Hm3 & Hc3 & Hx3).
    destruct (copying_field pin pout h v Hin Hne (@deep_copier _ _ _ security_deep) go_Security set_Security h3 _ S2 sec Hc3 eq_refl Hsec)
      as (h4 & x & S2' & Hm4 & Hc4 & Hx & HS2 & Hx4); [set_solver|].
    exists h4, (set_Security x (set_Resources (go_Resources v) (set_Env e v))), (S1' ∪ S2').
    unfold ApplicationSpec_DeepCopyInto, mbind, HM_bind. simpl in Hm2, Hm4. rewrite Hm1, Hm2, Hm3. split_and!; [done|done| |set_solver].
    exists S1', S2', sec. split_and!; [done| |done|done]. simpl. pose proof (load_dom _ _ _ Hout).
    by apply (cp_later pout h values_copier h2); [..|by eapply later_trans].
Defined.

#[global] Instance status_deep : Deep cell GoApplicationStatus (ApplicationStatus * option (list Condition)).
Proof using zc condition_deep.
  refine {| reads := status_reads; DeepCopyInto := ApplicationStatus_DeepCopyInto |}.
  - intros h v S a [Hr _]. by eapply cp_dom.
  - intros h h' v S a [Hr Ha] Hx. split; [|done]. by eapply cp_frame.
  - intros pin pout h v S [a cs] Hpi Hpo Hin [Hr Ha] Hn Hne [v0 Hout]. simpl in *.
    destruct (copying_start pin pout h v Hin Hne v0 Hout) as (h1 & Hm1 & Hc1).
    destruct (copying_field pin pout h v Hin Hne elems_copier go_Conditions set_Conditions h1 v S _ Hc1 eq_refl Hr Hn)
      as (h2 & t & S' & Hm2 & Hc2 & Hr2 & HS & _).
    exists h2, (set_Conditions t v), S'. unfold ApplicationStatus_DeepCopyInto, mbind, HM_bind. rewrite Hm1. by split_and!.
Defined.

(** ** Applications *)

(** What an Application denotes. *)
Record app_value := mkAppValue {
  av_type : TypeMeta;
  av_meta : MetaV;
  av_spec : ApplicationSpec * option (list AppEnvVar);
  av_status : ApplicationStatus * option (list Condition)
}.
Definition application_reads (h : Heap cell) (v : App) (S : gset nat) (a : app_value) : Prop :=
  ∃ S1 S2 S3, S = S1 ∪ S2 ∪ S3 ∧ go_TypeMeta v = av_type a ∧ reads h (go_ObjectMeta v) S1 (av_meta a) ∧
    spec_reads h (go_Spec v) S2 (av_spec a) ∧ status_reads h (go_Status v) S3 (av_status a).

#[global] Instance application_deep : Deep cell App app_value.
Proof using zc condition_deep meta_deep.
  refine {| reads := application_reads; DeepCopyInto := Application_DeepCopyInto |}.
  - intros h v S a (S1 & S2 & S3 & -> & _ & Hd1%reads_dom & Hd2%(reads_dom (Deep := spec_deep)) & Hd3%(reads_dom (Deep := status_deep))).
    set_solver.
  - intros h h' v S a (S1 & S2 & S3 & -> & Ht & Hm & Hs & Hst) Hx. exists S1, S2, S3. split_and!; [done|done|..].
    + eapply reads_frame; [done|]. set_solver.
    + eapply (reads_frame (Deep := spec_deep)); [done|]. set_solver.
    + eapply (reads_frame (Deep := status_deep)); [done|]. set_solver.
  - intros pin pout h v S [tm om sp st] Hpi Hpo Hin (S1 & S2 & S3 & -> & Ht & Hom & Hsp & Hst) Hn Hne [v0 Hout]. simpl in *.
    destruct (copying_start pin pout h v Hin Hne v0 Hout) as (h1 & Hm1 & Hc1).
    destruct (copying_assign pin pout h v Hin Hne go_TypeMeta set_TypeMeta h1 _ Hc1 eq_refl) as (h2 & Hm2 & Hc2 & _).
    destruct (copying_field pin pout h v Hin Hne (@deep_copier _ _ _ meta_deep) go_ObjectMeta set_ObjectMeta h2 _ S1 om Hc2 eq_refl Hom)
      as (h3 & m & S1' & Hm3 & Hc3 & Hm & HS1 & _); [set_solver|].
    destruct (copying_field pin pout h v Hin Hne (@deep_copier _ _ _ spec_deep) go_Spec set_Spec h3 _ S2 sp Hc3 eq_refl Hsp)
      as (h4 & s & S2' & Hm4 & Hc4 & Hs & HS2 & Hl4); [set_solver|].
    destruct (copying_field pin pout h v Hin Hne (@deep_copier _ _ _ status_deep) go_Status set_Status h4 _ S3 st Hc4 eq_refl Hst)
      as (h5 & t & S3' & Hm5 & Hc5 & Ht5 & HS3 & Hl5); [set_solver|].
    eexists h5, _, (S1' ∪ S2' ∪ S3'). unfold Application_DeepCopyInto, mbind, HM_bind. simpl in Hm3, Hm4.
    rewrite Hm1, Hm2, Hm3, Hm4. split_and!; [done|done| |set_solver]. pose proof (load_dom _ _ _ Hout).
    exists S1', S2', S3'. split_and!; [done|done| | |done]; simpl.
    + by apply (cp_later pout h (@deep_copier _ _ _ meta_deep) h3); [..|by eapply later_trans].
    + by apply (cp_later pout h (@deep_copier _ _ _ spec_deep) h4).
Defined.
(** ** Lists of applications *)

(** [ApplicationList.DeepCopyInto] *)
Definition ApplicationList_DeepCopyInto (pin pout : ref cell AppList) : HM cell unit :=
  _ ← assign pin pout;
  _ ← assign (field pin go_list_TypeMeta set_list_TypeMeta) (field pout go_list_TypeMeta set_list_TypeMeta);
  _ ← DeepCopyInto (field pin go_ListMeta set_ListMeta) (field pout go_ListMeta set_ListMeta);
  copy_elems (T := App) (field pin go_Items set_Items) (field pout go_Items set_Items).

Record list_value := mkListValue { lv_type : TypeMeta; lv_meta : ListV; lv_items : option (list app_value) }.
Definition list_reads (h : Heap cell) (v : AppList) (S : gset nat) (a : list_value) : Prop :=
  ∃ S1 S2, S = S1 ∪ S2 ∧ go_list_TypeMeta v = lv_type a ∧ reads h (go_ListMeta v) S1 (lv_meta a) ∧
    cp_reads (@elems_copier _ App app_value _ _ application_deep) h (go_Items v) S2 (lv_items a).

#[global] Instance list_deep_copy : Deep cell AppList list_value.
Proof using zc condition_deep meta_deep list_deep zt zo.
  refine {| reads := list_reads; DeepCopyInto := ApplicationList_DeepCopyInto |}.
  - intros h v S a (S1 & S2 & -> & _ & Hd1%reads_dom & Hd2%cp_dom). set_solver.
  - intros h h' v S a (S1 & S2 & -> & Ht & Hm & Hi) Hx. exists S1, S2. split_and!; [done|done|..].
    + eapply reads_frame; [done|]. set_solver.
    + eapply cp_frame; [done|]. set_solver.
  - intros pin pout h v S [tm lm items] Hpi Hpo Hin (S1 & S2 & -> & Ht & Hlm & Hi) Hn Hne [v0 Hout]. simpl in Ht, Hlm, Hi.
    destruct (copying_start pin pout h v Hin Hne v0 Hout) as (h1 & Hm1 & Hc1).
    destruct (copying_assign pin pout h v Hin Hne go_list_TypeMeta set_list_TypeMeta h1 _ Hc1 eq_refl) as (h2 & Hm2 & Hc2 & _).
    destruct (copying_field pin pout h v Hin Hne (@deep_copier _ _ _ list_deep) go_ListMeta set_ListMeta h2 _ S1 lm Hc2 eq_refl Hlm)
      as (h3 & m & S1' & Hm3 & Hc3 & Hm & HS1 & _); [set_solver|].
    destruct (copying_field pin pout h v Hin Hne (@elems_copier _ App app_value _ _ application_deep) go_Items set_Items h3 _ S2 items Hc3 eq_refl Hi)
      as (h4 & i & S2' & Hm4 & Hc4 & Hi4 & HS2 & Hl4); [set_solver|].
    eexists h4, _, (S1' ∪ S2'). unfold ApplicationList_DeepCopyInto, mbind, HM_bind. simpl in Hm3.
    rewrite Hm1, Hm2, Hm3. split_and!; [done|done| |set_solver]. pose proof (load_dom _ _ _ Hout).
    exists S1', S2'. split_and!; [done|done| |done]. by apply (cp_later pout h (@deep_copier _ _ _ list_deep) h3).
Defined.

(** ** DeepCopy and DeepCopyObject *)

Definition SecuritySettings_DeepCopy : option nat → HM cell (option nat) := DeepCopy (T := GoSecuritySettings).
Definition ApplicationSpec_DeepCopy : option nat → HM cell (option nat) := DeepCopy (T := GoApplicationSpec).
Definition ApplicationStatus_DeepCopy : option nat → HM cell (option nat) := DeepCopy (T := GoApplicationStatus).
Definition Application_DeepCopy : option nat → HM cell (option nat) := DeepCopy (T := App).
Definition ApplicationList_DeepCopy : option nat → HM cell (option nat) := DeepCopy (T := AppList).

(** A [runtime.Object]: the nil interface, or a pointer with its type. *)
Inductive Object := ObjApplication (p : option nat) | ObjApplicationList (p : option nat).

Definition Application_DeepCopyObject (p : option nat) : HM cell (option Object) :=
  c ← Application_DeepCopy p;
  match c with Some _ => mret (Some (ObjApplication c)) | None => mret None end.
Definition ApplicationList_DeepCopyObject (p : option nat) : HM cell (option Object) :=
  c ← ApplicationList_DeepCopy p;
  match c with Some _ => mret (Some (ObjApplicationList c)) | None => mret None end.

(** ** Independence *)

(** [copy] applied to any object returns a new object, leaves memory as it was, and
    from then on changes to the old memory do not show in the copy, nor changes
    to the copy in the original. *)
Definition independent {T A} `{Stored cell T, Deep cell T A} (copy : nat → HM cell (option nat)) : Prop :=
  ∀ h l S (a : A), object h l S a →
    ∃ h' l', copy l h = Some (Some l', h') ∧ (∀ x, x ∈ dom h → h' !! x = h !! x) ∧
      ∃ S', l' ∉ dom h ∧ object h' l' S' a ∧
        (∀ h2, (∀ x, x ∉ dom h → h2 !! x = h' !! x) → object h2 l' S' a) ∧
        (∀ h2, (∀ x, x ∈ dom h → h2 !! x = h' !! x) → object h2 l S a).

Lemma DeepCopy_independent {T A} `{Stored cell T, Zero T, Deep cell T A} :
  independent (T := T) (λ l, DeepCopy (Some l)).
Proof.
  intros h l S a Ho. destruct (DeepCopy_spec h l S a Ho) as (h' & l' & S' & Hm & Ho' & Hx & Hd).
  exists h', l'. split_and!; [done|done|]. exists S'. split_and!; [set_solver|done|..].
  - intros h2 Hh2. eapply object_frame; [done|]. intros x Hin. apply Hh2. set_solver.
  - intros h2 Hh2. eapply object_frame; [exact Ho|]. intros x Hin.
    assert (x ∈ dom h); [|by rewrite Hh2, Hx by done].
    destruct Ho as (v & Hl%load_dom & Hr%reads_dom). simpl in Hl. set_solver.
Qed.

(** C19: the deep copies of the custom resource are deep.  For each of the five types, applied
    to any object in any memory, [DeepCopy] does not panic and returns a new
    object with the same content (nil and empty slices told apart), changes
    nothing that existed, and shares nothing with it: whatever is later
    written to the old memory the copy keeps its content, and whatever is written to
    the copy the original keeps its own.  nil is copied to nil, and
    [DeepCopyObject] turns it into the nil interface. *)
Theorem deep_copies_independent :
  independent (T := GoSecuritySettings) (λ l, SecuritySettings_DeepCopy (Some l)) ∧
  independent (T := GoApplicationSpec) (λ l, ApplicationSpec_DeepCopy (Some l)) ∧
  independent (T := GoApplicationStatus) (λ l, ApplicationStatus_DeepCopy (Some l)) ∧
  independent (T := App) (λ l, Application_DeepCopy (Some l)) ∧
  independent (T := AppList) (λ l, ApplicationList_DeepCopy (Some l)) ∧
  ∀ h, Application_DeepCopyObject None h = Some (None, h) ∧ ApplicationList_DeepCopyObject None h = Some (None, h).
Proof using All. split_and!; try apply DeepCopy_independent. done. Qed.
End methods.

(** ** A concrete memory *)

(** Metadata as a name and a pointer to a map of labels; conditions and list metadata
    without pointers. *)
Section demo.
Abbreviation labels := (gmap string string).
Abbreviation demo_meta := (string * option nat)%type.
Abbreviation demo_cell := (go_cell string demo_meta string Condition labels).

#[local] Instance demo_zero_string : Zero string := "".
#[local] Instance demo_zero_meta : Zero demo_meta := ("", None).
#[local] Instance demo_zero_labels : Zero labels := (∅ : labels).
#[local] Instance demo_zero_condition : Zero Condition := mkCondition "" "" 0 0 "" "".
#[local] Instance demo_stored_labels : Stored demo_cell labels.
Proof. stored CMeta (λ x : demo_cell, match x with CMeta b => Some b | _ => None end). Defined.

#[local] Definition set_labels (p : option nat) (m : demo_meta) : demo_meta := (m.1, p).
#[local] Instance demo_labels_ok : FieldOk snd set_labels.
Proof. split; [done|done|by intros []]. Qed.
#[local] Instance demo_meta_deep : Deep demo_cell demo_meta (string * option labels).
Proof.
  refine {| reads h v S a := v.1 = a.1 ∧ reads_pointer h v.2 S a.2;
    DeepCopyInto pin pout := _ ← assign pin pout; copy_pointer (T := labels) (field pin snd set_labels) (field pout snd set_labels) |}.
  - intros h v S a [_ Hr]. by eapply reads_pointer_dom.
  - intros h h' v S a [? Hr] Hx. split; [done|]. by eapply reads_pointer_frame.
  - intros pin pout h v S a Hpi Hpo Hin [Hv Hr] Hn Hne [v0 Hout].
    destruct (copying_start pin pout h v Hin Hne v0 Hout) as (h1 & Hm1 & Hc1).
    destruct (copying_field pin pout h v Hin Hne (pointer_copier (T := labels)) snd set_labels h1 v S _ Hc1 eq_refl Hr Hn)
      as (h2 & t & S' & Hm2 & Hc2 & Hr2 & HS & _).
    exists h2, (set_labels t v), S'. unfold mbind, HM_bind. rewrite Hm1. by split_and!.
Defined.
#[local] Instance demo_list_deep : Deep demo_cell string string := plain_deep.
#[local] Instance demo_condition_deep : Deep demo_cell Condition Condition := plain_deep.

#[local] Definition demo_app : GoApplication string demo_meta :=
  mkGoApplication "Application" ("shop", Some 3)
    (mkGoApplicationSpec "shop:1" 8080 2 1 (Some (mkSlice 1 1 1 2)) (mkResourceRequests "" "") true (mkGoSecuritySettings (Some 2)))
    (mkGoApplicationStatus "Ready" 1 2 2 (Some (mkSlice 4 0 0 0))).
#[local] Definition demo_heap : Heap demo_cell :=
  {[ 1 := CEnv [mkAppEnvVar "OLD" "x"; mkAppEnvVar "MODE" "prod"]; 2 := CBool false; 3 := CMeta {[ "team" := "shop" ]};
     4 := CConditions []; 5 := CItems [demo_app]; 6 := CApplicationList (mkGoApplicationList "ApplicationList" "" (Some (mkSlice 5 0 1 1))) ]}.
#[local] Definition demo_value :=
  mkListValue "ApplicationList" ""
    (Some [mkAppValue "Application" ("shop", Some ({[ "team" := "shop" ]} : labels))
      (mkApplicationSpec "shop:1" 8080 2 1 [mkAppEnvVar "MODE" "prod"] (mkResourceRequests "" "") true (mkSecuritySettings (Some false)),
       Some [mkAppEnvVar "MODE" "prod"])
      (mkApplicationStatus "Ready" 1 2 2 [], Some [])]).

#[local] Lemma demo_object : ∃ S, object (T := GoApplicationList string string) demo_heap 6 S demo_value.
Proof.
  eexists. eexists. split; [by vm_compute|]. eexists ∅, _. split_and!; [done|done|done|].
  eexists [demo_app], _. split_and!; [eexists; split_and!; [by vm_compute|simpl; lia|done]| |done].
  apply reads_cons; [|constructor]. eexists {[3]}, ({[1]} ∪ {[2]}), {[4]}. split_and!; [done|done|..].
  - split; [done|]. split; [by vm_compute|done].
  - eexists _, _, (mkSecuritySettings (Some false)). split_and!; [done| | |done].
    + eexists [mkAppEnvVar "MODE" "prod"], ∅. split_and!; [eexists; split_and!; [by vm_compute|simpl; lia|done]| |set_solver].
      by apply reads_list_plain.
    + split; [by vm_compute|done].
  - split; [|done]. eexists [], ∅. split_and!; [eexists; split_and!; [by vm_compute|simpl; lia|done]|constructor|set_solver].
Qed.

(** After the copy the environment of the original is overwritten, and its opt-out
    turned around: the copy still says what it said. *)
Lemma deep_copies_independent_witness :
  ∃ h' l' S', ApplicationList_DeepCopy (Some 6) demo_heap = Some (Some l', h') ∧
    object (T := GoApplicationList string string) (<[1 := CEnv []]> (<[2 := CBool true]> h')) l' S' demo_value.
Proof.
  destruct demo_object as [S Ho].
  destruct (deep_copies_independent (meta_deep := demo_meta_deep) (list_deep := demo_list_deep) (condition_deep := demo_condition_deep))
    as (_ & _ & _ & _ & Hl & _).
  destruct (Hl demo_heap 6 S demo_value Ho) as (h' & l' & Hc & _ & S' & _ & _ & Hcopy & _).
  exists h', l', S'. split; [exact Hc|]. apply Hcopy. intros x Hx.
  rewrite !lookup_insert_ne; [done|intros <-; apply Hx; vm_compute; done..].
Defined.
End demo.
