(* ===== verification/Frames.v ===== *)
(** * What each module leaves alone

    The catalog, the tenants, the idempotency store and the relay share one
    database and, in it, one outbox.  Each operation of a module is shown to
    touch only its own tables and to extend the outbox by unpublished rows of its
    own event types with new keys; so the invariants of the other modules
    survive it.  The frames are preorders, proved statement by statement with
    [keeps] of Postgres. *)
From S2P Require Import Prelude GoStrings Apperr Uuid Postgres TenantDomain TenantApp Httpx TenantApi.
From S2P Require Import CatalogDomain CatalogRepo CatalogApp CatalogList CatalogApi Relay.

(** ** Extension of the outbox *)

Section frames.
Context `{UUIDLib}.

(** [d'] has the outbox of [d] and new unpublished rows of the types [T]. *)
Definition extends (T : list string) (d d' : Database) : Prop :=
  ∃ rows, outbox_events d' = outbox_events d ++ rows ∧
    Forall (λ r, ob_event_type r ∈ T ∧ unpublished r) rows ∧
    (NoDup (outbox_ids (outbox_events d)) → NoDup (outbox_ids (outbox_events d'))).

#[export] Instance extends_preorder T : PreOrder (extends T).
Proof.
  split.
  - intros d. exists []. by rewrite app_nil_r.
  - intros d1 d2 d3 (r1 & E1 & F1 & N1) (r2 & E2 & F2 & N2). exists (r1 ++ r2).
    split_and!; [by rewrite E2, E1, app_assoc|by apply Forall_app|auto].
Qed.

Lemma extends_same T d d' : outbox_events d' = outbox_events d → extends T d d'.
Proof. intros E. exists []. rewrite E, app_nil_r. done. Qed.

(** One INSERT INTO outbox_events: the primary key is new. *)
Lemma extends_one T d r :
  ob_event_type r ∈ T → unpublished r → ¬ Exists (λ r', ob_id r' = ob_id r) (outbox_events d) →
  extends T d (set_outbox d (outbox_events d ++ [r])).
Proof.
  intros Ht Hu Hnew. exists [r]. split_and!; [done|by repeat constructor|]. intros Hnd. simpl.
  unfold outbox_ids in *. rewrite map_app. apply NoDup_app. split_and!; [done| |by apply NoDup_singleton].
  intros u Hu1 Hu2. apply list_elem_of_singleton in Hu2 as ->. apply Hnew.
  apply list_elem_of_In, in_map_iff in Hu1 as (r' & E & Hr'). apply Exists_exists. exists r'.
  split; [by apply list_elem_of_In|done].
Qed.

(** The catalog writes its tables and extends the outbox; likewise the tenants; the
    idempotency store writes only its table. *)
Definition catalog_frame (d d' : Database) : Prop :=
  tenants d' = tenants d ∧ idempotency_keys d' = idempotency_keys d ∧ extends catalog_types d d'.
Definition tenant_frame (d d' : Database) : Prop :=
  catalog_services d' = catalog_services d ∧ ownership_history d' = ownership_history d ∧
  idempotency_keys d' = idempotency_keys d ∧ extends TenantApp.tenant_types d d'.
Definition idem_frame (d d' : Database) : Prop := d' = set_idem d (idempotency_keys d').

#[export] Instance catalog_frame_preorder : PreOrder catalog_frame.
Proof.
  split; [intros d; split_and!; reflexivity|]. intros d1 d2 d3 (T1 & I1 & E1) (T2 & I2 & E2).
  split_and!; [congruence|congruence|by etrans].
Qed.
#[export] Instance tenant_frame_preorder : PreOrder tenant_frame.
Proof.
  split; [intros d; split_and!; reflexivity|]. intros d1 d2 d3 (S1 & H1 & I1 & E1) (S2 & H2 & I2 & E2).
  split_and!; [congruence..|by etrans].
Qed.
#[export] Instance idem_frame_preorder : PreOrder idem_frame.
Proof.
  split; unfold idem_frame; [by intros []|]. intros d1 d2 d3 H1 H2. rewrite H2, H1. done.
Qed.

(** ** Invariants across frames *)

Lemma filter_extends (P : OutboxRow → Prop) `{!∀ r, Decision (P r)} T d d' :
  extends T d d' → (∀ r, ob_event_type r ∈ T → ¬ P r) →
  filter P (outbox_events d') = filter P (outbox_events d).
Proof.
  intros (rows & E & F & _) HP. rewrite E, filter_app, (filter_none _ rows), app_nil_r; [done|].
  eapply Forall_impl; [exact F|]. intros r [Hr _]. auto.
Qed.

(** The event types of the two modules are different. *)
Lemma types_disjoint t : t ∈ catalog_types → t ∈ TenantApp.tenant_types → False.
Proof.
  unfold catalog_types, TenantApp.tenant_types. rewrite !elem_of_cons, !elem_of_nil.
  intros Hc Ht. destruct_or!; by subst.
Qed.

Lemma catalog_frame_tenants d d' : catalog_frame d d' → TenantApp.tenants_inv d → TenantApp.tenants_inv d'.
Proof.
  intros (Ht & _ & He) [Hr Hs Hv Hn].
  assert (∀ u, TenantApp.tenant_outbox u d' = TenantApp.tenant_outbox u d) as Ho.
  { intros u. apply (filter_extends _ _ _ _ He). intros r Hc [_ Htt]. by eapply types_disjoint. }
  constructor; rewrite Ht; [done|done|..]; intros u; rewrite Ho; auto.
Qed.

(** [catalog_inv] is about the services, their history and the outbox rows of the catalog. *)
Lemma catalog_inv_ext d d' :
  catalog_services d' = catalog_services d → ownership_history d' = ownership_history d →
  (∀ u, outbox_of u d' = outbox_of u d) → catalog_inv d → catalog_inv d'.
Proof.
  intros Hs Hh Ho [I1 I2 I3 I4 I5 I6]. constructor; rewrite ?Hs, ?Hh; try done; intros u; rewrite Ho; auto.
Qed.

Lemma tenant_frame_catalog d d' : tenant_frame d d' → catalog_inv d → catalog_inv d'.
Proof.
  intros (Hs & Hh & _ & He). apply catalog_inv_ext; [done..|]. intros u. apply (filter_extends _ _ _ _ He).
  intros r Ht [_ Hc]. by eapply types_disjoint.
Qed.

Lemma idem_frame_catalog d d' : idem_frame d d' → catalog_inv d → catalog_inv d'.
Proof. intros ->. by apply catalog_inv_ext. Qed.
Lemma idem_frame_tenants d d' : idem_frame d d' → TenantApp.tenants_inv d → TenantApp.tenants_inv d'.
Proof. intros ->. by intros []; constructor. Qed.
End frames.

(** ** The operations of the catalog *)

Section catalog.
Context `{Env}.

Lemma keeps_FindByID R `{!PreOrder R} sid : keeps R (CatalogRepo.FindByID sid).
Proof. unfold CatalogRepo.FindByID. keeps_steps. Qed.
Lemma keeps_FindByTenantAndName R `{!PreOrder R} t n : keeps R (FindByTenantAndName t n).
Proof. unfold FindByTenantAndName. keeps_steps. Qed.

(** A statement that writes no table of another module and no outbox row. *)
Lemma catalog_own_tables d x y :
  catalog_frame d (mkDatabase x y (outbox_events d) (idempotency_keys d) (tenants d)).
Proof. split_and!; [done|done|by apply extends_same]. Qed.

Lemma insert_service_frame row d u d' : insert_service row d = Ok (u, d') → catalog_frame d d'.
Proof.
  unfold insert_service. destruct (negb _); [done|]. do 2 (case_decide; [done|]).
  intros [= _ <-]. apply catalog_own_tables.
Qed.
Lemma insert_history_frame h d u d' : insert_history h d = Ok (u, d') → catalog_frame d d'.
Proof. unfold insert_history. do 2 (case_decide; [done|]). intros [= _ <-]. apply catalog_own_tables. Qed.
Lemma open_interval_frame h d u d' : open_interval h d = Ok (u, d') → catalog_frame d d'.
Proof. unfold open_interval. case_decide; [by intros [= _ <-]|apply insert_history_frame]. Qed.
Lemma close_intervals_frame x a t c d u d' : close_intervals x a t c d = Ok (u, d') → catalog_frame d d'.
Proof. intros [= _ <-]. apply catalog_own_tables. Qed.
Lemma update_service_frame row v d n d' : update_service row v d = Ok (n, d') → catalog_frame d d'.
Proof.
  unfold update_service. destruct (_ !! _) as [old|]; [|by intros [= _ <-]]. case_decide; [|by intros [= _ <-]].
  destruct (negb _); [done|]. intros [= _ <-]. apply catalog_own_tables.
Qed.
Lemma insert_outbox_frame i e o d t u d' :
  CatalogRepo.insert_outbox i e o d t = Ok (u, d') → catalog_frame d d'.
Proof.
  unfold CatalogRepo.insert_outbox. destruct (uuid_Parse _); [|done]. case_decide; [done|]. intros [= _ <-].
  split_and!; [done..|]. apply extends_one; [apply EventType_catalog|done|done].
Qed.
End catalog.

#[export] Hint Resolve keeps_FindByID keeps_FindByTenantAndName : keeps.
#[export] Hint Resolve insert_service_frame insert_history_frame open_interval_frame close_intervals_frame
  update_service_frame insert_outbox_frame : keeps.

Section catalog_commands.
Context `{Env}.

Lemma keeps_Insert s : keeps catalog_frame (CatalogRepo.Insert s).
Proof. unfold CatalogRepo.Insert. keeps_steps; eauto with keeps. Qed.
Lemma keeps_Append es : keeps catalog_frame (CatalogRepo.Append es).
Proof. induction es; simpl; keeps_steps; eauto with keeps. Qed.
Lemma keeps_Update s v : keeps catalog_frame (CatalogRepo.Update s v).
Proof.
  unfold CatalogRepo.Update, CatalogRepo.no_row_updated, recordOwnership. keeps_steps; eauto with keeps.
Qed.
#[local] Hint Resolve keeps_Insert keeps_Append keeps_Update : keeps.

Lemma keeps_RegisterService inp : keeps catalog_frame (RegisterService inp).
Proof. unfold RegisterService, register_service, register_check, register_insert, CatalogDomain.PullEvents. keeps_steps. Qed.
Lemma keeps_mutate sid v op : keeps catalog_frame (CatalogApp.mutate sid v (apply_op op)).
Proof. unfold CatalogApp.mutate, mutate_load, mutate_store, apply_op, CatalogDomain.PullEvents. keeps_steps. Qed.

(** The writing halves of the commands. *)
Lemma keeps_register_insert s : keeps catalog_frame (register_insert s).
Proof. unfold register_insert, CatalogDomain.PullEvents. keeps_steps. Qed.
Lemma keeps_mutate_store v cur s : keeps catalog_frame (mutate_store v cur s).
Proof. unfold mutate_store, CatalogDomain.PullEvents. keeps_steps. Qed.

(** Every command of the catalog keeps the tables of the tenants and of the
    idempotency store, and adds only catalog events to the outbox. *)
Lemma keeps_run_command c : keeps catalog_frame (CatalogApp.run_command c).
Proof.
  destruct c as [i|i|i|i]; simpl; [apply keeps_RegisterService|..];
    unfold CatalogApp.ChangeOwnership, CatalogApp.ChangeLifecycle, RetireService; keeps_steps.
  - apply (keeps_mutate _ _ (OpChangeOwnership _)).
  - apply (keeps_mutate _ _ (OpChangeLifecycle _)).
  - apply (keeps_mutate _ _ OpRetire).
Qed.

Lemma run_command_catalog_inv c : keeps (preserving catalog_inv) (CatalogApp.run_command c).
Proof.
  intros w Hw. pose proof (CatalogApp.wp_run_command c w Hw) as Hr. unfold wp in Hr.
  destruct (CatalogApp.run_command c w) as [r w']. simpl.
  eapply (all_or_nothing_inv catalog_inv); [exact Hw| |exact Hr]. intros a. by apply command_effect_inv.
Qed.
End catalog_commands.

#[export] Hint Resolve keeps_run_command run_command_catalog_inv : keeps.

(** ** The operations of the tenants *)

Section tenants.
Context `{Env}.

Lemma tenant_keeps_FindByID R `{!PreOrder R} i : keeps R (TenantApp.FindByID i).
Proof. unfold TenantApp.FindByID. keeps_steps. Qed.
Lemma keeps_FindBySlug R `{!PreOrder R} s : keeps R (FindBySlug s).
Proof. unfold FindBySlug. keeps_steps. Qed.

Lemma tenant_own_table d x : tenant_frame d (set_tenants d x).
Proof. split_and!; [done|done|done|by apply extends_same]. Qed.
Lemma insert_tenant_frame row d u d' : insert_tenant row d = Ok (u, d') → tenant_frame d d'.
Proof.
  unfold insert_tenant. do 2 (destruct (negb _); [done|]). do 2 (case_decide; [done|]).
  intros [= _ <-]. apply tenant_own_table.
Qed.
Lemma update_tenant_frame row v d n d' : update_tenant row v d = Ok (n, d') → tenant_frame d d'.
Proof.
  unfold update_tenant. destruct (negb _); [done|]. destruct (_ !! _) as [old|]; [|by intros [= _ <-]].
  case_decide; [|by intros [= _ <-]]. destruct (negb _); [done|]. intros [= _ <-]. apply tenant_own_table.
Qed.
Lemma tenant_insert_outbox_frame i e o d t u d' :
  TenantApp.insert_outbox i e o d t = Ok (u, d') → tenant_frame d d'.
Proof.
  unfold TenantApp.insert_outbox. destruct (uuid_Parse _); [|done]. case_decide; [done|]. intros [= _ <-].
  split_and!; [done..|]. apply extends_one; [|done|done]. unfold TenantApp.tenant_types. destruct e; simpl; set_solver.
Qed.
End tenants.

#[export] Hint Resolve tenant_keeps_FindByID keeps_FindBySlug : keeps.
#[export] Hint Resolve insert_tenant_frame update_tenant_frame tenant_insert_outbox_frame : keeps.

Section tenant_commands.
Context `{Env}.

Lemma tenant_keeps_Insert t : keeps tenant_frame (TenantApp.Insert t).
Proof. unfold TenantApp.Insert. keeps_steps; eauto with keeps. Qed.
Lemma tenant_keeps_Append es : keeps tenant_frame (TenantApp.Append es).
Proof. induction es; simpl; keeps_steps; eauto with keeps. Qed.
Lemma tenant_keeps_Update t v : keeps tenant_frame (TenantApp.Update t v).
Proof. unfold TenantApp.Update, TenantApp.no_row_updated. keeps_steps; eauto with keeps. Qed.
#[local] Hint Resolve tenant_keeps_Insert tenant_keeps_Append tenant_keeps_Update : keeps.

(** The writing halves of the commands. *)
Lemma keeps_create_insert t : keeps tenant_frame (create_insert t).
Proof. unfold create_insert, TenantDomain.PullEvents. keeps_steps. Qed.
Lemma keeps_tenant_store v cur t : keeps tenant_frame (tenant_store v cur t).
Proof. unfold tenant_store, TenantDomain.PullEvents. keeps_steps. Qed.

(** Every command of the tenants keeps the tables of the catalog and of the
    idempotency store, and adds only tenant events to the outbox. *)
Lemma keeps_tenant_command c : keeps tenant_frame (run_tenant_command c).
Proof.
  destruct c as [i|i|i]; simpl; unfold TenantApp.ChangeStatus, TenantApp.UpdateQuota, TenantApp.mutate, CreateTenant;
    unfold create_tenant, create_check, create_insert, tenant_load, tenant_store, TenantDomain.PullEvents; keeps_steps.
Qed.

Lemma tenant_command_inv c : keeps (preserving tenants_inv) (run_tenant_command c).
Proof.
  intros w Hw. pose proof (wp_tenant_command c w Hw) as Hr. unfold wp in Hr.
  destruct (run_tenant_command c w) as [r w']. simpl.
  eapply (all_or_nothing_inv tenants_inv); [exact Hw| |exact Hr]. intros a. by apply tenant_effect_inv.
Qed.
End tenant_commands.

#[export] Hint Resolve keeps_tenant_command tenant_command_inv : keeps.

(** ** The shared database under any module *)

Definition all_types : list string := catalog_types ++ tenant_types.

Lemma extends_weaken `{UUIDLib} T T' d d' : T ⊆ T' → extends T d d' → extends T' d d'.
Proof.
  intros HT (rows & E & F & N). exists rows. split_and!; [done| |done].
  eapply Forall_impl; [exact F|]. intros r [? ?]. auto.
Qed.

(** What any operation of the API may do to the database. *)
Record api_step `{UUIDLib} (d d' : Database) : Prop := {
  as_outbox : extends all_types d d';
  as_catalog : catalog_inv d → catalog_inv d';
  as_tenants : tenants_inv d → tenants_inv d'
}.
#[export] Instance api_step_preorder `{UUIDLib} : PreOrder api_step.
Proof.
  split; [intros d; constructor; [reflexivity|done|done]|].
  intros d1 d2 d3 [E1 C1 T1] [E2 C2 T2]. constructor; [by etrans|auto|auto].
Qed.

Section modules.
Context `{Env}.

Lemma keeps_and {A} (R1 R2 R : relation Database) (m : M A) :
  keeps R1 m → keeps R2 m → (∀ d d', R1 d d' → R2 d d' → R d d') → keeps R m.
Proof. intros H1 H2 HR w. apply HR; auto. Qed.

Lemma command_step c : keeps api_step (CatalogApp.run_command c).
Proof.
  eapply keeps_and; [apply keeps_run_command|apply run_command_catalog_inv|]. intros d d' Hf Hc.
  constructor; [|exact Hc|by apply catalog_frame_tenants]. destruct Hf as (_ & _ & He).
  eapply extends_weaken; [|exact He]. unfold all_types. set_solver.
Qed.
Lemma tenant_command_step c : keeps api_step (run_tenant_command c).
Proof.
  eapply keeps_and; [apply keeps_tenant_command|apply tenant_command_inv|]. intros d d' Hf Ht.
  constructor; [|by apply tenant_frame_catalog|exact Ht]. destruct Hf as (_ & _ & _ & He).
  eapply extends_weaken; [|exact He]. unfold all_types. set_solver.
Qed.

Lemma keeps_Save k h st b : keeps idem_frame (Save k h st b).
Proof.
  unfold Save. keeps_steps. unfold insert_idem. case_decide; [by intros [= _ <-]|].
  case_decide; [done|]. by intros [= _ <-].
Qed.
Lemma Save_step k h st b : keeps api_step (Save k h st b).
Proof.
  intros w. pose proof (keeps_Save k h st b w) as Hf.
  constructor; [|by apply idem_frame_catalog|by apply idem_frame_tenants]. apply extends_same. by rewrite Hf.
Qed.

(** Queries leave every relation intact. *)
Context (R : relation Database) `{!PreOrder R}.
Lemma keeps_Lookup k : keeps R (Lookup k).
Proof using Type*. unfold Lookup. keeps_steps. Qed.
Lemma keeps_GetService i : keeps R (GetService i).
Proof using Type*. unfold GetService. keeps_steps. Qed.
Lemma keeps_GetTenant i : keeps R (GetTenant i).
Proof using Type*. unfold GetTenant. keeps_steps. Qed.
Lemma keeps_Health : keeps R Health.
Proof using Type*. unfold Health. keeps_steps. Qed.

Context {coll : Collation}.
Lemma keeps_ListServices f : keeps R (ListServices f).
Proof using Type*.
  assert (∀ rows, keeps R (scan_all rows)) as Hs by (intros rows; induction rows; simpl; keeps_steps).
  unfold ListServices, CatalogList.List. keeps_steps.
Qed.
Lemma keeps_ListTenants f : keeps R (ListTenants f).
Proof using Type*.
  assert (∀ rows, keeps R (scan_tenants rows)) as Hs by (intros rows; induction rows; simpl; keeps_steps).
  unfold ListTenants, TenantApi.List. keeps_steps.
Qed.
End modules.

#[export] Hint Resolve command_step tenant_command_step Save_step : keeps.
#[export] Hint Resolve keeps_Lookup keeps_GetService keeps_GetTenant keeps_Health keeps_ListServices keeps_ListTenants : keeps.
