(* ===== verification/Concurrency.v ===== *)
(** * All commands of both modules, interleaved

    The catalog and the tenants share one database and one outbox.  Their workloads do not
    touch what the other relies on, so any interleaving of commands of both is
    serializable. *)
From S2P Require Import Prelude GoStrings Apperr Uuid Postgres TenantDomain TenantApp TenantConcurrency.
From S2P Require Import CatalogDomain CatalogRepo CatalogApp CatalogConcurrency Relay Frames Interleave.

(** ** The modules are apart *)

Section apart.
Context `{Env}.

(** What a catalog command leaves of the tenants, and a tenant command of the catalog. *)
Definition catalog_only (d d' : Database) : Prop :=
  tenants d' = tenants d ∧
  ∃ rows, outbox_events d' = outbox_events d ++ rows ∧ Forall (λ r, ob_event_type r ∈ catalog_types) rows.
Definition tenants_only (d d' : Database) : Prop :=
  catalog_services d' = catalog_services d ∧ ownership_history d' = ownership_history d ∧
  ∃ rows, outbox_events d' = outbox_events d ++ rows ∧ Forall (λ r, ob_event_type r ∈ TenantApp.tenant_types) rows.

Lemma catalog_appended es rows : CatalogRepo.appended es rows → Forall (λ r, ob_event_type r ∈ catalog_types) rows.
Proof.
  induction 1 as [|r e rows es (_ & Ht & _) _ IH]; constructor; [|done]. rewrite Ht. apply EventType_catalog.
Qed.
Lemma tenant_appended es rows : TenantApp.appended es rows → Forall (λ r, ob_event_type r ∈ TenantApp.tenant_types) rows.
Proof.
  induction 1 as [|e r es rows (_ & Ht & _) _ IH]; constructor; [|done]. rewrite Ht. unfold TenantApp.tenant_types. destruct e; simpl; set_solver.
Qed.

Lemma catalog_effect_only q s' d d' : catalog_effect q s' d d' → catalog_only d d'.
Proof.
  destruct q; simpl.
  - intros (_ & old & now & s1 & hid & rows & _ & _ & _ & _ & Hrows%catalog_appended & ->). split; [done|eauto].
  - intros (s & _ & _ & hid & rows & _ & _ & Hrows%catalog_appended & ->). split; [done|eauto].
Qed.
Lemma tenant_written_only q t' d d' : tenant_written q t' d d' → tenants_only d d'.
Proof.
  destruct q; simpl.
  - intros (_ & old & now & t1 & rows & _ & _ & _ & _ & Hrows%tenant_appended & ->). split_and!; [done|done|eauto].
  - intros (fresh & now & n & s & p & q & rows & _ & _ & _ & _ & _ & _ & _ & Hrows%tenant_appended & ->).
    split_and!; [done|done|eauto].
Qed.

(** Rows of other types do not show in a module's part of the outbox. *)
Lemma filter_other (P : OutboxRow → Prop) `{!∀ r, Decision (P r)} (T : list string) l rows :
  Forall (λ r, ob_event_type r ∈ T) rows → (∀ r, ob_event_type r ∈ T → ¬ P r) → filter P (l ++ rows) = filter P l.
Proof.
  intros F HP. rewrite filter_app, (filter_none _ rows), app_nil_r; [done|]. eapply Forall_impl; [exact F|]. auto.
Qed.

Lemma catalog_only_tenants d d' : catalog_only d d' → tenants_inv d → tenants_inv d'.
Proof.
  intros (Ht & rows & He & F) [Hr Hs Hv Hn].
  assert (∀ u, tenant_outbox u d' = tenant_outbox u d) as Ho.
  { intros u. unfold tenant_outbox. rewrite He. eapply filter_other; [done|]. intros r Hc [_ Htt]. by eapply types_disjoint. }
  constructor; rewrite Ht; [done|done|..]; intros u; rewrite Ho; auto.
Qed.
Lemma tenants_only_catalog d d' : tenants_only d d' → catalog_inv d → catalog_inv d'.
Proof.
  intros (Hs & Hh & rows & He & F). apply catalog_inv_ext; [done..|]. intros u. unfold outbox_of. rewrite He.
  eapply filter_other; [done|]. intros r Ht [_ Hc]. by eapply types_disjoint.
Qed.

Lemma catalog_apart : apart catalog_workload tenant_workload.
Proof.
  split.
  - intros n q a d d' He%catalog_effect_only. eapply tidy_ext; [apply He|by apply catalog_only_tenants].
  - intros q' q a d d' He%catalog_effect_only. apply tenant_admissible_evolves, evolves_same, He.
  - intros q' x q a d d' He%catalog_effect_only. apply tenant_current_evolves, evolves_same, He.
Qed.
Lemma tenants_apart : apart tenant_workload catalog_workload.
Proof.
  split.
  - intros n q a d d' He%tenant_written_only. eapply tidy_ext; [apply He|by apply tenants_only_catalog].
  - intros q' q a d d' He%tenant_written_only. apply catalog_admissible_evolves, evolves_same, He.
  - intros q' x q a d d' He%tenant_written_only. apply catalog_current_evolves, evolves_same, He.
Qed.

(** ** The commands of the API *)

Definition commands : Workload := both catalog_workload tenant_workload catalog_apart tenants_apart.

(** What the theorems below assume of clients: an [If-Match] version is none (zero or less), or
    one the row has had, as every ETag of the API is; the code accepts any
    ([store_guard_exact] says what it does with others).  The operations are made by the
    constructors of the value objects, as the handlers do. *)
Definition seen_versions (q : @request _ _ commands) (d : Database) : Prop :=
  match q with
  | inl (QMutate sid v op) =>
    CatalogDomain.op_wf op ∧ seen_version catalog_services sr_version v (CatalogDomain.sid_v sid) d
  | inr (QTenantMutate i v op) => TenantDomain.op_wf op ∧ seen_version tenants tr_version v (TenantDomain.tid_v i) d
  | _ => True
  end.
Lemma seen_admissible q d : seen_versions q d → @admissible _ _ commands q d.
Proof. by destruct q as [[]|[]]. Qed.

(** C4: when clients send only [If-Match] versions they have seen, concurrent commands never lose
    an update and never take a name or a slug twice.  In every state that such commands of the
    catalog and of the tenants can reach, under any interleaving of their reading and writing halves
    and under any failures, there is one serial order of commands, each client in it at most once,
    whose one-after-the-other effects give exactly the stored database, but for the publication
    times that the relay sets meanwhile; every acknowledged command is in it with the result it
    was given, and besides them only commands whose commit was left in doubt and took
    effect; and the invariants of both modules hold. *)
Theorem commands_serializable s :
  @reachable _ _ commands seen_versions s →
  (∃ log, @explains _ _ commands log s) ∧ catalog_inv (sh_db s) ∧ tenants_inv (sh_db s).
Proof.
  intros Hr. split; [by apply (reachable_serializable _ seen_admissible)|].
  destruct (reachable_inv _ seen_admissible s Hr) as [log Hi]. destruct (si_sound _ _ _ Hi) as [S1 S2].
  split; [apply (tidy_inv S1)|apply (tidy_inv S2)].
Qed.

Definition let_in (q : @request _ _ commands) (d : Database) : bool :=
  match q with inl q => catalog_admit q d | inr q => tenant_admit q d end.
Lemma let_in_ok q d : let_in q d = true → seen_versions q d.
Proof.
  intros Hq. assert (@admissible _ _ commands q d) as Ha
    by (destruct q; [by apply catalog_admit_ok|by apply tenant_admit_ok]). by destruct q as [[]|[]].
Qed.
End apart.

(** ** A schedule *)

#[local] Existing Instance demo_uuid.
#[local] Existing Instance calm_env.

(** Clients 0 and 1 register the same name and clients 2 and 3 create the same slug, each pair having
    found it free before either inserts; clients 4 and 5 change the service from the same version,
    and client 6 suspends the tenant in between. *)
#[local] Definition demo_tenant : CreateTenantInput := mkCreateTenantInput "Acme" "acme" "standard" 5.
#[local] Definition register : @request _ _ commands := inl (QRegister race_input).
#[local] Definition create : @request _ _ commands := inr (QCreate demo_tenant).
#[local] Definition promote : @request _ _ commands := inl (QMutate race_service 0 (CatalogDomain.OpChangeLifecycle LifecycleProduction)).
#[local] Definition hand_over : @request _ _ commands :=
  inl (QMutate race_service 1 (CatalogDomain.OpChangeOwnership (mkOwnership "billing" "pd://billing"))).
#[local] Definition suspend : @request _ _ commands :=
  inr (QTenantMutate (TenantDomain.mkTenantID ("20" : @uuid demo_uuid)) 1 (TenantDomain.OpStatus StatusSuspended)).
#[local] Definition demo_schedule : list (@Action _ _ commands) :=
  [ARequest 0 register; ARequest 1 register; ARequest 2 create; ARequest 3 create;
   ARead 0 0 0; ARead 2 20 0; ARead 1 10 0; ARead 3 30 0; AWrite 2 25 0; AWrite 0 5 0; AWrite 3 35 0; AWrite 1 15 0;
   ARequest 4 promote; ARequest 5 hand_over; ARequest 6 suspend; ARead 4 40 40; ARead 5 50 50; ARead 6 60 60;
   AWrite 4 70 70; AWrite 6 80 80; AWrite 5 90 90].
#[local] Definition verdict (s : @Shared _ _ commands) (i : nat) : option (result goerror Z) :=
  match sh_clients s !! i with
  | Some (Answered _ (Ok (inl svc))) => Some (Ok (svc_version svc))
  | Some (Answered _ (Ok (inr t))) => Some (Ok (tn_version t))
  | Some (Answered _ (Err e)) => Some (Err e)
  | _ => None
  end.

Lemma commands_serializable_witness :
  ∃ s, exec let_in demo_schedule (mkShared empty_db ∅) = Some s ∧
    map (verdict s) [0; 1; 2; 3; 4; 5; 6] =
      [Some (Ok 1%Z); Some (Err CatalogDomain.ErrNameConflict); Some (Ok 1%Z); Some (Err ErrSlugConflict);
       Some (Ok 2%Z); Some (Err CatalogDomain.ErrVersionConflict); Some (Ok 2%Z)] ∧
    (∃ log, @explains _ _ commands log s) ∧ catalog_inv (sh_db s).
Proof.
  assert ((λ s, map (verdict s) [0; 1; 2; 3; 4; 5; 6]) <$> exec let_in demo_schedule (mkShared empty_db ∅) =
    Some [Some (Ok 1%Z); Some (Err CatalogDomain.ErrNameConflict); Some (Ok 1%Z); Some (Err ErrSlugConflict);
       Some (Ok 2%Z); Some (Err CatalogDomain.ErrVersionConflict); Some (Ok 2%Z)]) as E1 by (vm_compute; reflexivity).
  destruct (exec let_in demo_schedule (mkShared empty_db ∅)) as [s|] eqn:E; [|discriminate E1].
  apply (inj Some) in E1. exists s. split; [reflexivity|]. split; [exact E1|].
  destruct (@commands_serializable demo_uuid calm_env s) as (Hlog & Hinv & _); [|exact (conj Hlog Hinv)].
  exact (@exec_reachable _ _ commands seen_versions let_in let_in_ok demo_schedule s E).
Defined.
