(* ===== verification/Registry.v ===== *)
(** * The registry: what the data modules promise

    An abstract specification of the catalog and the tenants: two maps from identifiers
    to aggregates and one log of events, changed by atomic steps.  There are no tables,
    transactions, rows or JSON in it.  The theorem relates it to the stored database:
    whatever concurrent commands do, under any failures, the database stands
    for a registry that its acknowledged commands produce one after the other, and
    queries answer from it. *)
From S2P Require Import Prelude GoStrings Apperr Uuid Postgres TenantDomain TenantApp TenantConcurrency.
From S2P Require Import CatalogDomain CatalogRepo CatalogApp CatalogConcurrency Relay Marking Frames Concurrency Interleave.

(** ** The specification *)

Section spec.
Context `{Env}.

Record Registry := mkRegistry {
  reg_services : gmap uuid Service;
  reg_tenants : gmap uuid Tenant;
  reg_log : list (CatalogDomain.Event + TenantDomain.Event)
}.

Definition empty_registry : Registry := mkRegistry ∅ ∅ [].

(** An aggregate at rest: no pending events, times as precise as they are kept. *)
Definition at_rest (s : Service) : Service :=
  mkService (svc_id s) (svc_tenantID s) (svc_name s) (svc_description s) (svc_tier s) (svc_lifecycle s)
    (svc_repository s) (svc_ownership s) (svc_version s) (timestamptz (svc_createdAt s))
    (timestamptz (svc_updatedAt s)) [].
Definition tenant_at_rest (t : Tenant) : Tenant :=
  mkTenant (tn_id t) (tn_name t) (tn_slug t) (tn_plan t) (tn_status t) (tn_quota t) (tn_version t)
    (timestamptz (tn_createdAt t)) (timestamptz (tn_updatedAt t)) [].

(** The aggregate is put under its identifier and its events are appended. *)
Definition put_service (s : Service) (σ : Registry) : Registry :=
  mkRegistry (<[sid_v (svc_id s) := at_rest s]> (reg_services σ)) (reg_tenants σ)
    (reg_log σ ++ (inl <$> svc_events s)).
Definition put_tenant (t : Tenant) (σ : Registry) : Registry :=
  mkRegistry (reg_services σ) (<[TenantDomain.tid_v (tn_id t) := tenant_at_rest t]> (reg_tenants σ))
    (reg_log σ ++ (inr <$> tn_events t)).

Definition service_named (t : uuid) (n : string) (s : Service) : Prop :=
  tid_v (svc_tenantID s) = t ∧ sn_v (svc_name s) = n.

(** Registering takes a new identifier and a name free in its tenant; changing takes the
    aggregate, at the version asked for if one is, through an operation of the domain. *)
Inductive spec_step : both_request catalog_workload tenant_workload → both_answer catalog_workload tenant_workload →
    Registry → Registry → Prop :=
| spec_register inp s σ :
    built inp s → reg_services σ !! sid_v (svc_id s) = None →
    (∀ u s0, reg_services σ !! u = Some s0 → ¬ service_named (tid_v (svc_tenantID s)) (sn_v (svc_name s)) s0) →
    spec_step (inl (QRegister inp)) (inl (PullEvents s).2) σ (put_service s σ)
| spec_change sid v op s now s1 σ :
    reg_services σ !! sid_v sid = Some s → (0 < v → svc_version s = v)%Z → run_op op s now = Ok s1 →
    spec_step (inl (QMutate sid v op)) (inl (PullEvents s1).2) σ (put_service s1 σ)
| spec_create inp t σ :
    tenant_built inp t → reg_tenants σ !! TenantDomain.tid_v (tn_id t) = None →
    (∀ u t0, reg_tenants σ !! u = Some t0 → tn_slug t0 ≠ tn_slug t) →
    spec_step (inr (QCreate inp)) (inr (TenantDomain.PullEvents t).2) σ (put_tenant t σ)
| spec_tenant_change i v op t now t1 σ :
    reg_tenants σ !! TenantDomain.tid_v i = Some t → (0 < v → tn_version t = v)%Z → TenantDomain.run_op op t now = Ok t1 →
    spec_step (inr (QTenantMutate i v op)) (inr (TenantDomain.PullEvents t1).2) σ (put_tenant t1 σ).

Inductive spec_run : list (nat * (both_request catalog_workload tenant_workload * both_answer catalog_workload tenant_workload)) →
    Registry → Prop :=
| spec_start : spec_run [] empty_registry
| spec_next log σ i q a σ' : spec_run log σ → spec_step q a σ σ' → spec_run (log ++ [(i, (q, a))]) σ'.

(** ** What a database stands for *)

Definition logged (r : OutboxRow) (e : CatalogDomain.Event + TenantDomain.Event) : Prop :=
  match e with
  | inl e => uuid_Parse (CatalogDomain.AggregateID e) = Some (ob_aggregate_id r) ∧
      ob_event_type r = CatalogDomain.EventType e ∧ ob_payload r = CatalogRepo.envelope e
  | inr e => uuid_Parse (TenantDomain.AggregateID e) = Some (ob_aggregate_id r) ∧
      ob_event_type r = TenantDomain.EventType e ∧ ob_payload r = TenantApp.envelope e
  end.

Record represents (d : Database) (σ : Registry) : Prop := {
  rp_services : reg_services σ = row_service <$> catalog_services d;
  rp_tenants : reg_tenants σ = row_tenant <$> tenants d;
  rp_log : Forall2 logged (outbox_events d) (reg_log σ);
  rp_service_times u r : catalog_services d !! u = Some r → timestamptz (sr_created_at r) = sr_created_at r;
  rp_tenant_times u r : tenants d !! u = Some r → timestamptz (tr_created_at r) = tr_created_at r
}.

Lemma represents_empty : represents empty_db empty_registry.
Proof. constructor; try done; by rewrite fmap_empty. Qed.
End spec.

(** ** Each committed command is a step of the specification *)

Section refinement.
Context `{Env}.

Lemma logged_services rows es : CatalogRepo.appended es rows → Forall2 logged rows (inl <$> es).
Proof. induction 1 as [|r e rows es (Ha & Ht & Hp & _) _ IH]; constructor; [by split_and!|done]. Qed.
Lemma logged_tenants rows es : TenantApp.appended es rows → Forall2 logged rows (inr <$> es).
Proof. induction 1 as [|e r es rows (Ha & Ht & Hp) _ IH]; constructor; [by split_and!|done]. Qed.

Lemma row_at_rest s : row_service (service_row timestamptz s) = at_rest s.
Proof. by destruct s as [[] [] [] ? [] ? ? []]. Qed.
Lemma row_tenant_at_rest t : row_tenant (tenant_row timestamptz t) = tenant_at_rest t.
Proof. by destruct t as [[] [] [] ? ? []]. Qed.

(** The columns an UPDATE leaves alone are those an operation leaves alone. *)
Lemma update_at_rest op old now s1 :
  run_op op (row_service old) now = Ok s1 → timestamptz (sr_created_at old) = sr_created_at old →
  row_service (CatalogRepo.update_columns old (service_row timestamptz s1)) = at_rest s1 ∧
  sr_id old = sid_v (svc_id s1).
Proof.
  intros Hrun Ht. apply run_op_inv in Hrun as [->|(e & [] & _)].
  - unfold at_rest. simpl. by rewrite Ht.
  - destruct s1 as [[] [] [] ? [] ? ? []]. simpl in *. simplify_eq. unfold at_rest. simpl. by rewrite Ht.
Qed.
Lemma update_tenant_at_rest op old now t1 :
  TenantDomain.run_op op (row_tenant old) now = Ok t1 → timestamptz (tr_created_at old) = tr_created_at old →
  row_tenant (TenantApp.update_columns old (tenant_row timestamptz t1)) = tenant_at_rest t1 ∧
  tr_id old = TenantDomain.tid_v (tn_id t1).
Proof.
  intros Hrun Ht. apply run_op_step in Hrun as [->|(e & Hi & Hn & Hsl & Hp & Hc & _)].
  - unfold tenant_at_rest. simpl. by rewrite Ht.
  - destruct t1 as [[] [] [] ? ? []]. simpl in *. simplify_eq. unfold tenant_at_rest. simpl. by rewrite Ht.
Qed.

(** A row is stored and the events of its aggregate are appended. *)
Lemma represents_service d d' σ s row rows :
  represents d σ → row_service row = at_rest s → timestamptz (sr_created_at row) = sr_created_at row →
  CatalogRepo.appended (svc_events s) rows →
  catalog_services d' = <[sid_v (svc_id s) := row]> (catalog_services d) → tenants d' = tenants d →
  outbox_events d' = outbox_events d ++ rows → represents d' (put_service s σ).
Proof.
  intros [Hs Ht Hl Hst Htt] Hrow Htime Happ Ed Et Eo. constructor; simpl.
  - by rewrite Ed, fmap_insert, Hs, Hrow.
  - by rewrite Et.
  - rewrite Eo. apply Forall2_app; [done|by apply logged_services].
  - intros u r. rewrite Ed. intros [[<- <-]|[_ Hr]]%lookup_insert_Some; [done|by eapply Hst].
  - by rewrite Et.
Qed.
Lemma represents_tenant d d' σ t row rows :
  represents d σ → row_tenant row = tenant_at_rest t → timestamptz (tr_created_at row) = tr_created_at row →
  TenantApp.appended (tn_events t) rows →
  tenants d' = <[TenantDomain.tid_v (tn_id t) := row]> (tenants d) → catalog_services d' = catalog_services d →
  outbox_events d' = outbox_events d ++ rows → represents d' (put_tenant t σ).
Proof.
  intros [Hs Ht Hl Hst Htt] Hrow Htime Happ Ed Et Eo. constructor; simpl.
  - by rewrite Et.
  - by rewrite Ed, fmap_insert, Ht, Hrow.
  - rewrite Eo. apply Forall2_app; [done|by apply logged_tenants].
  - by rewrite Et.
  - intros u r. rewrite Ed. intros [[<- <-]|[_ Hr]]%lookup_insert_Some; [done|by eapply Htt].
Qed.

Lemma catalog_step_refines q s' d d' σ :
  catalog_inv d → represents d σ → catalog_effect q s' d d' →
  ∃ σ', spec_step (inl q) (inl s') σ σ' ∧ represents d' σ'.
Proof.
  intros Hinv Hr. destruct q as [sid v op|inp]; simpl.
  - intros (_ & old & now & s1 & hid & rows & Hold & Hv & Hrun & -> & Hrows & ->).
    destruct (update_at_rest op old now s1) as [Hrest Hid]; [done|by eapply rp_service_times|].
    destruct (inv_rows _ Hinv _ _ Hold) as [Hkey _]. exists (put_service s1 σ). split.
    + apply (spec_change sid v op (row_service old) now s1); [|done..]. by rewrite (rp_services _ _ Hr), lookup_fmap, Hold.
    + eapply represents_service; [done|exact Hrest| |done..]. simpl. by eapply rp_service_times.
  - intros (s & Hb & -> & hid & rows & Hfresh & Hname & Hrows & ->). exists (put_service s σ). split.
    + apply (spec_register inp s); [done|by rewrite (rp_services _ _ Hr), lookup_fmap, Hfresh|].
      intros u s0. rewrite (rp_services _ _ Hr), lookup_fmap. intros (r & Hu & ->)%fmap_Some [Ht Hn].
      apply Hname. by exists u, r.
    + eapply represents_service; [done|apply row_at_rest| |done..]. apply timestamptz_idemp.
Qed.

Lemma tenant_step_refines q t' d d' σ :
  tenants_inv d → represents d σ → tenant_written q t' d d' →
  ∃ σ', spec_step (inr q) (inr t') σ σ' ∧ represents d' σ'.
Proof.
  intros Hinv Hr. destruct q as [i v op|inp]; simpl.
  - intros (_ & old & now & t1 & rows & Hold & Hv & Hrun & -> & Hrows & ->).
    destruct (update_tenant_at_rest op old now t1) as [Hrest Hid]; [done|by eapply rp_tenant_times|].
    destruct (ti_rows _ Hinv _ _ Hold) as [Hkey _]. exists (put_tenant t1 σ). split.
    + apply (spec_tenant_change i v op (row_tenant old) now t1); [|done..]. by rewrite (rp_tenants _ _ Hr), lookup_fmap, Hold.
    + eapply represents_tenant; [done|exact Hrest| |done| |done..]; simpl; [by eapply rp_tenant_times|].
      by rewrite <- Hid, Hkey.
  - intros (fresh & now & n & s & p & q & rows & En & Es & Ep & Eq & -> & Hfresh & Hslug & Hrows & ->).
    eexists (put_tenant (Create (TenantDomain.mkTenantID fresh) n s p q now) σ). split.
    + apply spec_create; [by exists fresh, now, n, s, p, q|simpl; by rewrite (rp_tenants _ _ Hr), lookup_fmap, Hfresh|].
      intros u t0. rewrite (rp_tenants _ _ Hr), lookup_fmap. intros (r & Hu & ->)%fmap_Some Heq.
      apply Hslug. exists u, r. split; [done|]. simpl in Heq. by rewrite <- Heq.
    + eapply represents_tenant; [done|apply row_tenant_at_rest| |done..]. apply timestamptz_idemp.
Qed.

(** Publication times are not part of the registry. *)
Lemma represents_marked d d' σ : marked d d' → represents d σ → represents d' σ.
Proof.
  intros (us & t & ->) [Hs Ht Hl Hst Htt]. constructor; [done|done| |done..]. simpl. apply Forall2_fmap_l.
  eapply Forall2_impl; [exact Hl|]. intros r e. unfold logged, compose.
  by destruct (mark_row_same us t r) as (-> & -> & ->).
Qed.

(** A serial history of commands is a run of the specification. *)
Lemma serial_refines log d :
  @serial _ _ commands log d →
  catalog_inv d ∧ tenants_inv d ∧ ∃ σ, spec_run log σ ∧ represents d σ.
Proof.
  induction 1 as [|log d i q a d' _ (Hc & Ht & σ & Hrun & Hrep) He|log d d' _ (Hc & Ht & σ & Hrun & Hrep) Hm].
  { split_and!; [apply catalog_inv_empty|apply tenants_inv_empty|]. exists empty_registry. split; [constructor|apply represents_empty]. }
  2:{ split_and!; [by eapply marked_catalog|by eapply marked_tenants|]. exists σ. split; [done|by eapply represents_marked]. }
  destruct q as [q|q], a as [a|a]; simpl in He; try done.
  - destruct (catalog_step_refines q a d d' σ Hc Hrep He) as (σ' & Hs & Hr'). split_and!.
    + destruct q; simpl in He; [destruct He as [? He]; by eapply mutated_inv|].
      destruct He as (s & Hb & _ & He). by eapply registered_inv.
    + eapply catalog_only_tenants; [by eapply catalog_effect_only|done].
    + exists σ'. split; [by econstructor|done].
  - destruct (tenant_step_refines q a d d' σ Ht Hrep He) as (σ' & Hs & Hr'). split_and!.
    + eapply tenants_only_catalog; [by eapply tenant_written_only|done].
    + destruct q; simpl in He; [destruct He as [? He]; by eapply tenant_mutated_inv|by eapply created_inv].
    + exists σ'. split; [by econstructor|done].
Qed.

(** ** Queries *)

Definition lookup_service (raw : string) (σ : Registry) : result goerror Service :=
  sid ← ServiceIDFromString raw; or_err (reg_services σ !! sid_v sid) CatalogDomain.ErrServiceNotFound.
Definition lookup_tenant (raw : string) (σ : Registry) : result goerror Tenant :=
  i ← TenantDomain.TenantIDFromString raw; or_err (reg_tenants σ !! TenantDomain.tid_v i) ErrTenantNotFound.

Lemma GetService_refines raw σ w :
  catalog_inv (w_db w) → represents (w_db w) σ → fault (w_tick w) = None →
  (GetService raw w).1 = lookup_service raw σ.
Proof.
  intros Hinv Hr Hf. unfold GetService, lookup_service, lift, mbind, M_bind, result_bind.
  destruct (ServiceIDFromString raw) as [sid|e]; [|done]. rewrite FindByID_run by done.
  rewrite (rp_services _ _ Hr), lookup_fmap. destruct (catalog_services (w_db w) !! sid_v sid) as [r|] eqn:E; [|done].
  simpl. apply scan_row_wf. by apply (inv_rows _ Hinv _ _ E).
Qed.

Lemma GetTenant_refines raw σ w :
  tenants_inv (w_db w) → represents (w_db w) σ → fault (w_tick w) = None →
  (GetTenant raw w).1 = lookup_tenant raw σ.
Proof.
  intros Hinv Hr Hf. unfold GetTenant, lookup_tenant, lift, mbind, M_bind, result_bind.
  destruct (TenantDomain.TenantIDFromString raw) as [i|e]; [|done].
  unfold TenantApp.FindByID, catch, query, lift. rewrite stmt_run by done.
  rewrite (rp_tenants _ _ Hr), lookup_fmap. destruct (tenants (w_db w) !! TenantDomain.tid_v i) as [r|] eqn:E; simpl; [|done].
  apply tenant_scan_row_wf. by apply (ti_rows _ Hinv _ _ E).
Qed.

(** C5: the database implements the registry, for clients that send only [If-Match] versions they
    have seen.  In every state that concurrent commands of both modules then reach, under any
    interleaving, any failures and with the relay at work, the tables and the outbox stand for a
    registry that results from a serial order of atomic registry steps: each acknowledged command
    once, with the answer it was given, and besides them only commands whose commit was left in
    doubt and took effect; and every query that the driver lets through answers exactly from that
    registry. *)
Theorem database_implements_registry s :
  @reachable _ _ commands seen_versions s →
  ∃ log σ, @explains _ _ commands log s ∧ spec_run log σ ∧ represents (sh_db s) σ ∧
    ∀ w raw, w_db w = sh_db s → fault (w_tick w) = None →
      (GetService raw w).1 = lookup_service raw σ ∧ (GetTenant raw w).1 = lookup_tenant raw σ.
Proof.
  intros [log Hex]%(reachable_serializable _ seen_admissible).
  destruct (serial_refines _ _ (ex_serial _ _ Hex)) as (Hc & Ht & σ & Hrun & Hrep).
  exists log, σ. split_and!; [done..|]. intros w raw Hw Hf. rewrite <- Hw in *.
  split; [by apply GetService_refines|by apply GetTenant_refines].
Qed.
End refinement.

(** ** A schedule *)

#[local] Existing Instance demo_uuid.
#[local] Existing Instance calm_env.

(** A service and a tenant are registered while a second registration races for the name. *)
#[local] Definition register : @request _ _ commands := inl (QRegister race_input).
#[local] Definition create : @request _ _ commands := inr (QCreate (mkCreateTenantInput "Acme" "acme" "standard" 5)).
#[local] Definition race_schedule : list (@Action _ _ commands) :=
  [ARequest 0 register; ARequest 1 register; ARequest 2 create;
   ARead 0 0 0; ARead 1 10 0; ARead 2 20 0; AWrite 0 5 0; AWrite 2 25 0; AWrite 1 15 0].

Lemma database_implements_registry_witness :
  ∃ s log σ, exec let_in race_schedule (mkShared empty_db ∅) = Some s ∧
    size (catalog_services (sh_db s)) = 1 ∧ size (tenants (sh_db s)) = 1 ∧
    @spec_run demo_uuid calm_env log σ ∧ size (reg_services σ) = 1 ∧ size (reg_tenants σ) = 1.
Proof.
  assert ((λ s : @Shared _ _ commands, (size (catalog_services (sh_db s)), size (tenants (sh_db s)))) <$>
    exec let_in race_schedule (mkShared empty_db ∅) = Some (1, 1)) as E1 by (vm_compute; reflexivity).
  destruct (exec let_in race_schedule (mkShared empty_db ∅)) as [s|] eqn:E; [|discriminate E1].
  apply (inj Some) in E1. injection E1 as E1 E2.
  destruct (@database_implements_registry demo_uuid calm_env s) as (log & σ & _ & Hrun & Hrep & _).
  { exact (@exec_reachable _ _ commands seen_versions let_in let_in_ok race_schedule s E). }
  exists s, log, σ. split; [reflexivity|]. split; [exact E1|]. split; [exact E2|]. split; [exact Hrun|].
  rewrite (rp_services _ _ Hrep), (rp_tenants _ _ Hrep), !map_size_fmap. exact (conj E1 E2).
Defined.
