(* ===== verification/Platform.v ===== *)
(** * Commands, database, relays and bus in one run

    The API runs commands of both modules, interleaved at their halves (Concurrency); any number
    of relay replicas claim, publish and mark outbox rows (Replicas); both work on one
    database.  Here the steps of both are the steps of one system.  Seen from the commands the relays only
    mark rows; seen from the relays the commands only add rows; so what
    Registry says of the tables and what Replicas says of the bus hold together, and the whole is a
    registry whose log reaches the bus. *)
From S2P Require Import Prelude GoStrings Apperr Uuid Postgres TenantDomain TenantApp TenantConcurrency.
From S2P Require Import CatalogDomain CatalogRepo CatalogApp CatalogConcurrency Relay Frames Replicas.
From S2P Require Import Interleave Concurrency Registry.

(** ** The system *)

Section platform.
Context `{RelayEnv} (r : Relay).
Abbreviation Clients := (gmap nat (@Client _ _ commands)).

Record Platform := mkPlatform {
  pf_db : Database;
  pf_clients : Clients;
  pf_bus : list Msg;
  pf_relays : gmap nat Replica
}.
Definition api_part (p : Platform) : @Shared _ _ commands := mkShared (pf_db p) (pf_clients p).
Definition relay_part (p : Platform) : Fleet := mkFleet (pf_db p) (pf_bus p) (pf_relays p).

(** A command or a replica takes a step; the flag tells that a batch failed.  [policy]: which
    requests clients make. *)
Inductive platform_step (policy : @request _ _ commands → Database → Prop) : bool → Platform → Platform → Prop :=
| platform_command d cs bus rs d' cs' :
    command_step policy (mkShared d cs) (mkShared d' cs') →
    platform_step policy false (mkPlatform d cs bus rs) (mkPlatform d' cs' bus rs)
| platform_relay b d cs bus rs d' bus' rs' :
    relay_step r b (mkFleet d bus rs) (mkFleet d' bus' rs') →
    platform_step policy b (mkPlatform d cs bus rs) (mkPlatform d' cs bus' rs').

(** [platform_reach policy k p]: [p] can be reached from empty tables, with [k] failed batches. *)
Inductive platform_reach (policy : @request _ _ commands → Database → Prop) : nat → Platform → Prop :=
| platform_start : platform_reach policy 0 (mkPlatform empty_db ∅ [] ∅)
| platform_next k p b p' :
    platform_reach policy k p → platform_step policy b p p' → platform_reach policy (if b then S k else k) p'.

(** ** Each side sees the other as it expects it *)

(** The writing half of a command adds unpublished rows with new keys. *)
Lemma commands_extend (q : @request _ _ commands) (x : @reading _ _ commands q) :
  keeps (extends all_types) (@write_half _ _ commands q x).
Proof.
  assert (∀ T d d', T ⊆ all_types → extends T d d' → extends all_types d d') as Hmono.
  { intros T d d' HT (rows & E & F & N). exists rows. split_and!; [done| |done].
    eapply Forall_impl; [exact F|]. intros row [? ?]. auto. }
  destruct q as [q|q]; simpl in *; (apply keeps_bind; [apply _| |intros a; apply keeps_ret, _]); intros w.
  - apply (Hmono catalog_types); [unfold all_types; set_solver|].
    enough (catalog_frame (w_db w) (w_db (catalog_write q x w).2)) as Hf by apply Hf.
    destruct q; simpl; [apply keeps_mutate_store|apply keeps_register_insert].
  - apply (Hmono tenant_types); [unfold all_types; set_solver|].
    enough (tenant_frame (w_db w) (w_db (tenant_write q x w).2)) as Hf by apply Hf.
    destruct q; simpl; [apply keeps_tenant_store|apply keeps_create_insert].
Qed.

Lemma command_extends policy s s' : @command_step _ _ commands policy s s' → extends all_types (sh_db s) (sh_db s').
Proof.
  destruct 1 as [d cs i q|d cs i q n t res w'|d cs i q x n t res w' Hc Hf]; simpl; [reflexivity..|].
  change w' with (res, w').2. rewrite <- Hf. exact (finish_keeps (extends all_types) _ (mkWorld d n t) (commands_extend q x)).
Qed.

Lemma command_arrives policy k d cs d' cs' bus rs :
  @command_step _ _ commands policy (mkShared d cs) (mkShared d' cs') → fleet_inv r k d bus rs → fleet_inv r k d' bus rs.
Proof.
  intros (new & E & F & N)%command_extends Hi. eapply inv_arrive; [exact Hi|exact E|apply N, Hi|].
  eapply Forall_impl; [exact F|]. by intros row [_ ?].
Qed.

Lemma platform_inv policy k p :
  platform_reach policy k p →
  @reachable _ _ commands policy (api_part p) ∧ fleet_inv r k (pf_db p) (pf_bus p) (pf_relays p).
Proof.
  induction 1 as [|k p b p' _ [Hr Hi] Hs]; [split; [constructor|apply empty_fleet_inv]|].
  destruct Hs as [d cs bus rs d' cs' Hs|b d cs bus rs d' bus' rs' Hs]; simpl in *.
  - split; [|by eapply command_arrives]. eapply reachable_step; [exact Hr|]. by apply step_command.
  - split; [|by apply (relay_step_inv r k b _ _ Hs)].
    eapply reachable_step; [exact Hr|]. apply step_mark. by apply (relay_step_marked r b _ _ Hs).
Qed.

(** ** The whole implements a registry whose log reaches the bus *)

(** C3: any number of API servers and relay replicas, interleaved at every call that other
    programs can observe, under failures of the driver, of commits and of the bus, and crashes.
    Whatever clients send: every message on the bus is the message of a stored outbox row; after [k]
    failed batches the message of a row is on the bus at most [k + 1] times, at least once if the row
    is marked, and exactly once if it is marked and no batch failed; and no row is in the hands of
    two replicas.  If clients send only [If-Match] versions they have seen, moreover the tables
    stand for a registry that results from a serial order of the acknowledged commands and of those
    whose commit was left in doubt and took effect, and the outbox rows are, place by place, the
    events of that registry's log; so what reaches the bus are events of that log, and no
    event of a refused or rolled-back command is ever published. *)
Theorem platform_implements_registry policy k p :
  platform_reach policy k p →
  (∀ m, m ∈ pf_bus p → ∃ row, row ∈ outbox_events (pf_db p) ∧ m = message r (to_record row)) ∧
  (∀ row, row ∈ outbox_events (pf_db p) → copies row (pf_bus p) ≤ S k ∧
     (¬ unpublished row → 1 ≤ copies row (pf_bus p) ∧ (k = 0 → copies row (pf_bus p) = 1))) ∧
  (∀ i j c1 c2 u, pf_relays p !! i = Some c1 → pf_relays p !! j = Some c2 → u ∈ held c1 → u ∈ held c2 → i = j) ∧
  ((∀ q d, policy q d → seen_versions q d) →
   ∃ log σ, @explains _ _ commands log (api_part p) ∧ spec_run log σ ∧ represents (pf_db p) σ ∧
     (∀ i e, reg_log σ !! i = Some e → ∃ row, outbox_events (pf_db p) !! i = Some row ∧ logged row e) ∧
     (∀ m, m ∈ pf_bus p → ∃ i e row, reg_log σ !! i = Some e ∧ outbox_events (pf_db p) !! i = Some row ∧
        logged row e ∧ m = message r (to_record row))).
Proof.
  intros [Hr Hi]%platform_inv. split_and!.
  - intros m (row & Hrow & ->)%(fi_bus _ _ _ _ _ Hi). eauto.
  - intros row Hin. destruct (fi_most _ _ _ _ _ Hi row Hin) as [Hle _]. split; [done|]. intros Hp.
    assert (1 ≤ copies row (pf_bus p)) by (apply Hi; [done|by left]). split; [done|]. lia.
  - apply Hi.
  - intros Hpol. assert (∀ q d, policy q d → @admissible _ _ commands q d) as Hadm by (intros q d Hq; by apply seen_admissible, Hpol).
    apply (reachable_serializable _ Hadm) in Hr as [log Hex].
    destruct (serial_refines _ _ (ex_serial _ _ Hex)) as (_ & _ & σ & Hrun & Hrep). simpl in Hrep.
    exists log, σ. split_and!; [done..| |].
    + intros i e He. destruct (Forall2_lookup_r _ _ _ _ _ (rp_log _ _ Hrep) He) as (row & Hrow & Hl). eauto.
    + intros m (row & Hrow & ->)%(fi_bus _ _ _ _ _ Hi). apply list_elem_of_lookup in Hrow as [i Hrow].
      destruct (Forall2_lookup_l _ _ _ _ _ (rp_log _ _ Hrep) Hrow) as (e & He & Hl). by exists i, e, row.
Qed.
End platform.

(** ** Executing schedules *)

Section schedules.
Context `{RelayEnv} (r : Relay).

Inductive Move : Type :=
| MCommand (a : @Action _ _ commands)
| MRelay (t : Turn).

Definition move (p : Platform) (m : Move) : option (bool * Platform) :=
  match m with
  | MCommand (AMark _ _) | MRelay (TArrive _) => None
  | MCommand a =>
    s ← exec_step let_in (api_part p) a;
    Some (false, mkPlatform (sh_db s) (sh_clients s) (pf_bus p) (pf_relays p))
  | MRelay t =>
    bs ← take_turn r (relay_part p) t;
    Some (bs.1, mkPlatform (fl_db bs.2) (pf_clients p) (fl_bus bs.2) (fl_relays bs.2))
  end.

Fixpoint moves (l : list Move) (k : nat) (p : Platform) : option (nat * Platform) :=
  match l with
  | [] => Some (k, p)
  | m :: l => bp ← move p m; moves l (if (bp : bool * Platform).1 then S k else k) bp.2
  end.

Lemma move_step p m b p' : move p m = Some (b, p') → platform_step r seen_versions b p p'.
Proof.
  destruct p as [d cs bus rs]. unfold move. destruct m as [a|t].
  - assert (is_command a ∨ ¬ is_command a) as [Ha|Ha] by (destruct a; simpl; tauto); [|by destruct a].
    intros E. assert (∃ s, exec_step let_in (mkShared d cs) a = Some s ∧ b = false ∧
      p' = mkPlatform (sh_db s) (sh_clients s) bus rs) as ([d' cs'] & Es & -> & ->).
    { destruct a; try done; apply bind_Some in E as (s & Es & [= <- <-]); by exists s. }
    apply platform_command. by apply (exec_command_sound seen_versions let_in let_in_ok _ a).
  - assert (is_relay t ∨ ¬ is_relay t) as [Ht|Ht] by (destruct t; simpl; tauto); [|by destruct t].
    intros E. assert (∃ s, take_turn r (mkFleet d bus rs) t = Some (b, s) ∧
      p' = mkPlatform (fl_db s) cs (fl_bus s) (fl_relays s)) as ([d' bus' rs'] & Es & ->).
    { destruct t; try done; apply bind_Some in E as ([b0 s] & Es & [= <- <-]); by exists s. }
    apply platform_relay. by apply (take_turn_relay r _ t).
Qed.

Lemma moves_reach l k p k' p' :
  platform_reach r seen_versions k p → moves l k p = Some (k', p') → platform_reach r seen_versions k' p'.
Proof.
  revert k p. induction l as [|m l IH]; simpl; intros k p Hr; [by intros [= <- <-]|].
  intros ([b p1] & E & Hl)%bind_Some. eapply IH; [|exact Hl]. eapply platform_next; [exact Hr|]. by apply (move_step _ m).
Qed.
End schedules.

(** ** A schedule *)

#[local] Existing Instance demo_uuid.
#[local] Definition demo_bus_env : @RelayEnv demo_uuid := Relay.demo_relay_env (λ _, PubAck).
#[local] Existing Instance demo_bus_env.

(** Two clients race for a name while a tenant is created; a first replica takes the two rows, crashes after
    the first message, and a second one publishes both, while the service is promoted. *)
#[local] Definition register : @request _ _ commands := inl (QRegister race_input).
#[local] Definition create : @request _ _ commands := inr (QCreate (mkCreateTenantInput "Acme" "acme" "standard" 5)).
#[local] Definition promote : @request _ _ commands := inl (QMutate race_service 0 (CatalogDomain.OpChangeLifecycle LifecycleProduction)).
#[local] Definition demo_moves : list Move :=
  [MCommand (ARequest 0 register); MCommand (ARequest 1 register); MCommand (ARequest 2 create);
   MCommand (ARead 0 0 0); MCommand (ARead 1 10 0); MCommand (AWrite 0 5 0); MCommand (ARead 2 20 0);
   MCommand (AWrite 2 25 0); MCommand (AWrite 1 15 0);
   MRelay (TClaim 1 1 0); MRelay (TPublish 1 2 0); MCommand (ARequest 3 promote); MCommand (ARead 3 40 0); MRelay (TCrash 1);
   MRelay (TClaim 2 1 0); MRelay (TPublish 2 2 0); MCommand (AWrite 3 50 0); MRelay (TPublish 2 3 0); MRelay (TCommit 2 4 9)].
#[local] Definition demo_end : option (nat * Platform) := moves Relay.demo_relay demo_moves 0 (mkPlatform empty_db ∅ [] ∅).

#[local] Definition outcome (kp : nat * Platform) : nat * nat * list (option Z) :=
  (kp.1, length (pf_bus kp.2), map ob_published_at (outbox_events (pf_db kp.2))).

Lemma platform_implements_registry_witness :
  ∃ p log σ, demo_end = Some (1, p) ∧ length (pf_bus p) = 3 ∧
    map ob_published_at (outbox_events (pf_db p)) = [Some 9%Z; Some 9%Z; None] ∧
    @spec_run demo_uuid calm_env log σ ∧ length (reg_log σ) = 3.
Proof.
  assert (outcome <$> demo_end = Some (1, 3, [Some 9%Z; Some 9%Z; None])) as E1 by (vm_compute; reflexivity).
  destruct demo_end as [[k p]|] eqn:E; [|discriminate E1]. apply (inj Some) in E1. injection E1 as -> Hb Ho.
  destruct (@platform_implements_registry _ demo_bus_env Relay.demo_relay seen_versions 1 p) as (_ & _ & _ & Hreg).
  { eapply moves_reach; [apply platform_start|exact E]. }
  destruct Hreg as (log & σ & _ & Hrun & Hrep & _); [intros q d Hq; exact Hq|].
  exists p, log, σ. split; [reflexivity|]. split; [exact Hb|]. split; [exact Ho|]. split; [exact Hrun|].
  rewrite <- (Forall2_length _ _ _ (rp_log _ _ Hrep)), <- (length_map ob_published_at (outbox_events (pf_db p))). by rewrite Ho.
Defined.
