(* ===== verification/Routes.v ===== *)
(** * The routes of the API (cmd/api, routes.go and module.go of the modules)

    The routing tables of the four modules, the health and metrics endpoints,
    and the router over them behind the middleware chain.  The router library is
    an argument, the class [Chi]: which registered route a method and a path
    select, and its answers to paths without a route.  The Kubernetes and
    Temporal clients are arguments that may be absent; the module is then the
    disabled one. *)
From S2P Require Import Prelude GoStrings Apperr Uuid Controller ApiServer Reconciler ReadModels Postgres TenantDomain TenantApp Logging Httpx.
From S2P Require Import CatalogDomain CatalogRepo CatalogApp CatalogList CatalogApi TenantApi Relay Frames.

(** ** Answering a request *)

(** The status the recorder kept is the one on the wire. *)
Definition answered (w : Writer) : Prop := ∃ h, rw_sent w = Some (rw_recorded w, h).

(** New lines, all written by the logger of the request. *)
Definition logs (r : Request) (w w' : Writer) : Prop :=
  ∃ ls, rw_log w' = rw_log w ++ ls ∧ Forall (carries (From (rq_logger r))) ls.

(** The correlation id stays on the response. *)
Definition correlates (w w' : Writer) : Prop := ∀ cid,
  rw_sent w = None → rw_header w !! correlationHeader = Some cid → sent_header w' correlationHeader = Some cid.

(** [w'] answers what [w] left open; the route context is untouched. *)
Definition answers (r : Request) (w w' : Writer) : Prop :=
  (rw_sent w = None → rw_recorded w = 200%Z → answered w') ∧ rw_route w' = rw_route w ∧ logs r w w' ∧ correlates w w'.

Lemma send_route code w : rw_route (send code w) = rw_route w.
Proof. unfold send. by destruct (rw_sent w). Qed.
Lemma send_log code w : rw_log (send code w) = rw_log w.
Proof. unfold send. by destruct (rw_sent w). Qed.
Lemma logs_nothing r w w' : rw_log w' = rw_log w → logs r w w'.
Proof. intros E. exists []. by rewrite app_nil_r. Qed.

(** Setting headers, one [WriteHeader] and one [Write]. *)
Lemma answers_written r (code : Z) c w : answers r w (Write c (WriteHeader code w)).
Proof.
  split_and!; [|by unfold Write, WriteHeader; simpl; rewrite !send_route| |].
  - unfold Write, WriteHeader, answered, send. simpl. intros -> _. simpl. eauto.
  - apply logs_nothing. unfold Write, WriteHeader. simpl. by rewrite !send_log.
  - unfold Write, WriteHeader, sent_header, send. intros cid. simpl. by intros ->.
Qed.
Lemma answers_Header r k v w w' : k ≠ correlationHeader → answers r (Header_Set k v w) w' → answers r w w'.
Proof.
  intros Hk (Ha & Hr & Hl & Hc). split_and!; [done..|]. intros cid Hs Hh. apply Hc; [done|]. simpl. by rewrite lookup_insert_ne.
Qed.
Lemma answers_JSON r status body w : answers r w (JSON status body w).
Proof. eapply answers_Header; [|apply answers_written]. done. Qed.
Lemma failure_lines_carry r e : Forall (carries (From (rq_logger r))) (failure_lines r e).
Proof. unfold failure_lines. destruct (_ <=? _)%Z; [apply Log_carries|constructor]. Qed.
Lemma answers_Error r e w : answers r w (Error r e w).
Proof.
  destruct (answers_JSON r (HTTPStatus e) (error_json (error_body r e)) (log_lines (failure_lines r e) w))
    as (Ha & Hr & (ls & El & Hl) & Hc).
  split_and!; [exact Ha|exact Hr| |exact Hc]. exists (failure_lines r e ++ ls). unfold Error. rewrite El. simpl.
  split; [by rewrite app_assoc|]. apply Forall_app. split; [apply failure_lines_carry|done].
Qed.
Lemma answers_replay r rec w : answers r w (replay rec w).
Proof. eapply answers_Header; [|eapply answers_Header; [|apply answers_written]]; done. Qed.

(** ** The router library *)

Inductive routed : Type :=
| Matched (route : nat) (params : gmap string string) (pattern : string)
| Unmatched (method_not_allowed : bool) (pattern : string).

(** [chi_match table method path] selects a registered entry, whose method is the one
    of the request unless the entry is a mount ([None]).  [chi_unmatched] is the
    answer 404 or 405; [promhttp] the exposition of the metrics. *)
Class Chi := {
  chi_match : list (option string * string) → string → string → routed;
  chi_match_entry tbl m p i params pattern : chi_match tbl m p = Matched i params pattern →
    ∃ e, tbl !! i = Some e ∧ (e.1 = None ∨ e.1 = Some m);
  chi_unmatched : bool → Writer → Writer;
  chi_unmatched_answers r b w : answers r w (chi_unmatched b w);
  promhttp : Metrics → Writer → Writer;
  promhttp_answers r m w : answers r w (promhttp m w)
}.

(** [chi.URLParam] *)
Definition URLParam (params : gmap string string) (k : string) : string := default "" (params !! k).

(** ** The tables of the modules *)

Record KubeClient := mkKubeClient {
  kube_List : option string → result goerror (list Application);
  kube_Get : string * string → result goerror Application
}.
Record TemporalClient := mkTemporalClient {
  temporal_List : nat → result goerror (list Workflows.ExecutionInfo);
  temporal_Describe : string → result (goerror + goerror) Workflows.ExecutionInfo
}.

Section routes.
Context `{Env} {coll : Collation} `{!Chi}.
Context (json_error : string → string) (sha256_hex : string → string) (time_json : Z → json).
(** The clients, when configured; their answers depend on the instant of the call. *)
Context (kube : option (nat → KubeClient)) (temporal : option (nat → TemporalClient)).

Record Route := mkRoute { ro_method : string; ro_pattern : string; ro_handler : (string → string) → handler }.

Definition catalog_routes : list Route :=
  [mkRoute "POST" "/services/" (λ _, CatalogApi.Register sha256_hex time_json true);
   mkRoute "GET" "/services/" (λ _, CatalogApi.ListHandler time_json);
   mkRoute "GET" "/services/{id}" (λ p, CatalogApi.Get time_json (p "id"));
   mkRoute "PATCH" "/services/{id}/ownership" (λ p, CatalogApi.ChangeOwnership json_error time_json (p "id"));
   mkRoute "PATCH" "/services/{id}/lifecycle" (λ p, CatalogApi.ChangeLifecycle json_error time_json (p "id"));
   mkRoute "DELETE" "/services/{id}" (λ p, CatalogApi.Retire time_json (p "id"))].

Definition tenant_routes : list Route :=
  [mkRoute "POST" "/tenants/" (λ _, TenantApi.Create json_error time_json);
   mkRoute "GET" "/tenants/" (λ _, TenantApi.ListHandler time_json);
   mkRoute "GET" "/tenants/{id}" (λ p, TenantApi.Get time_json (p "id"));
   mkRoute "PATCH" "/tenants/{id}/status" (λ p, TenantApi.ChangeStatus json_error time_json (p "id"));
   mkRoute "PATCH" "/tenants/{id}/quota" (λ p, TenantApi.UpdateQuota json_error time_json (p "id"))].

(** The reader of a module: the live one over the client, or the disabled one. *)
Definition app_reader (t : nat) : Reader string (string * string) Applications.ApplicationView :=
  match kube with
  | Some c => Applications.KubeReader (kube_List (c t)) (kube_Get (c t))
  | None => Applications.DisabledReader
  end.
Definition workflow_reader (t : nat) : Reader unit string Workflows.WorkflowView :=
  match temporal with
  | Some c => Workflows.TemporalReader (temporal_List (c t)) (temporal_Describe (c t))
  | None => Workflows.DisabledReader
  end.
(** A handler that asks a client and leaves the database alone. *)
Definition reading (h : nat → Request → Writer → Writer) : handler := λ r w a, (h (w_tick a) r w, tick a).

Definition application_routes : list Route :=
  [mkRoute "GET" "/applications/" (λ _, reading (λ t, @Applications.ListHandler (app_reader t)));
   mkRoute "GET" "/applications/{namespace}/{name}"
     (λ p, reading (λ t, @Applications.GetHandler (app_reader t) (p "namespace") (p "name")))].
Definition provisioning_routes : list Route :=
  [mkRoute "GET" "/provisioning/workflows" (λ _, reading (λ t, @Workflows.ListHandler (workflow_reader t)));
   mkRoute "GET" "/provisioning/workflows/{workflowId}"
     (λ p, reading (λ t, @Workflows.GetHandler (workflow_reader t) (p "workflowId")))].

Definition api_routes : list Route := catalog_routes ++ tenant_routes ++ application_routes ++ provisioning_routes.

(** ** The router of cmd/api *)

Context {V : Type} `{!Verifier V} `{!LimiterLib}.
Context (now : nat → Z) (NewString : nat → string) (base : Logger).

#[local] Abbreviation Process := (@Process World V _).
#[local] Abbreviation Handler := (@Handler World V _).

Record Entry := mkEntry { en_method : option string; en_pattern : string; en_handler : (string → string) → Handler }.

(** Routing: the matched entry with the pattern in the route context. *)
Definition mux (entries : list Entry) : Handler := λ r w s,
  match chi_match (map (λ e, (en_method e, en_pattern e)) entries) (rq_method r) (rq_path r) with
  | Unmatched b pattern => (Returned, chi_unmatched b (set_route pattern w), s)
  | Matched i params pattern =>
    match entries !! i with
    | Some e => en_handler e (URLParam params) r (set_route pattern w) s
    | None => (Panicked, w, s)
    end
  end.

Definition on_world (h : handler) : Handler := λ r w s,
  let '(w', a) := h r w (ps_app s) in (Returned, w', set_app s a).

Definition v1_entry (ro : Route) : Entry :=
  mkEntry (Some (ro_method ro)) ("/api/v1" +:+ ro_pattern ro) (λ p, on_world (ro_handler ro p)).
Definition v1 : Handler := gate now (mux (map v1_entry api_routes)).

(** The readiness check has three seconds for its ping. *)
Definition readyz : Handler := λ r w s,
  on_world (λ r' w' a, let '(x, a') := Health a in (Readiness x w', a'))
    (WithTimeout (now (ps_tick s)) (seconds 3) r) w (tick_process s).

Definition entries : list Entry :=
  [mkEntry (Some "GET") "/healthz" (λ _, on_world (λ _ w a, (Liveness w, a)));
   mkEntry (Some "GET") "/readyz" (λ _, readyz);
   mkEntry (Some "GET") "/metrics" (λ _ _ w s, (Returned, promhttp (ps_metrics s) w, s));
   mkEntry None "/api/v1" (λ _, v1)].

(** The handler of the server: the chain around the router. *)
Definition api : Handler := chain now NewString base (mux entries).
End routes.

(** ** What the handlers do *)

(** The effect of a request with method [m] on the database. *)
Definition effect `{UUIDLib} (m : string) (d d' : Database) : Prop := api_step d d' ∧ (m = "GET" → d' = d).
#[export] Instance effect_preorder `{UUIDLib} m : PreOrder (effect m).
Proof.
  split; [intros d; by split; [reflexivity|]|]. intros d1 d2 d3 [S1 G1] [S2 G2]. split; [by etrans|].
  intros Hm. rewrite G2, G1; done.
Qed.
Lemma effect_write `{UUIDLib} m d d' : m ≠ "GET" → api_step d d' → effect m d d'.
Proof. by split. Qed.

Section handler_facts.
Context `{Env} {coll : Collation}.

Lemma answers_respond r time_json st s w : answers r w (CatalogApi.respond time_json st s w).
Proof. eapply answers_Header; [|apply answers_JSON]. done. Qed.
Lemma answers_tenant_respond r time_json st t w : answers r w (tenant_respond time_json st t w).
Proof. eapply answers_Header; [|apply answers_JSON]. done. Qed.

(** A handler of the database answers every request, and keeps [R]. *)
Definition serves (R : relation Database) (h : handler) : Prop :=
  ∀ r w a, answers r w (h r w a).1 ∧ R (w_db a) (w_db (h r w a).2).

Context (R : relation Database) `{!PreOrder R}.

(** A branch of a handler. *)
Definition branch (r : Request) (w : Writer) (k : World → Writer * World) : Prop :=
  ∀ a, answers r w (k a).1 ∧ R (w_db a) (w_db (k a).2).

Lemma branch_or_error {A} r w (m : M A) k : keeps R m → (∀ x, branch r w (k x)) → branch r w (or_error r w m k).
Proof using Type*.
  intros Hm Hk a. specialize (Hm a). unfold or_error. destruct (m a) as [[x|e] a']; simpl in *.
  - destruct (Hk x a') as [? ?]. split; [done|by etrans].
  - split; [apply answers_Error|done].
Qed.
Lemma branch_done r w w' : answers r w w' → branch r w (λ a, (w', a)).
Proof using Type*. intros Hw a. split; [done|reflexivity]. Qed.

Context (time_json : Z → json).
#[local] Hint Resolve answers_respond answers_tenant_respond answers_JSON answers_Error answers_replay : core.

Lemma serves_list_services : serves R (CatalogApi.ListHandler time_json).
Proof using Type*.
  intros r w. apply branch_or_error; [keeps_steps|]. intros f. apply branch_or_error; [keeps_steps|].
  intros [ss next]. by apply branch_done.
Qed.
Lemma serves_get_service i : serves R (CatalogApi.Get time_json i).
Proof using Type*. intros r w. apply branch_or_error; [keeps_steps|]. intros s. by apply branch_done. Qed.
Lemma serves_list_tenants : serves R (TenantApi.ListHandler time_json).
Proof using Type*.
  intros r w. apply branch_or_error; [keeps_steps|]. intros f. apply branch_or_error; [keeps_steps|].
  intros [ss next]. by apply branch_done.
Qed.
Lemma serves_get_tenant i : serves R (TenantApi.Get time_json i).
Proof using Type*. intros r w. apply branch_or_error; [keeps_steps|]. intros s. by apply branch_done. Qed.
Lemma serves_reading h : (∀ t r w, answers r w (h t r w)) → serves R (reading h).
Proof using Type*. intros Hh r w a. split; [apply Hh|reflexivity]. Qed.
End handler_facts.

Section route_facts.
Context `{Env} {coll : Collation}.
Context (json_error : string → string) (sha256_hex : string → string) (time_json : Z → json).
Context (kube : option (nat → KubeClient)) (temporal : option (nat → TemporalClient)).
#[local] Hint Resolve answers_respond answers_tenant_respond answers_JSON answers_Error answers_replay : core.

Lemma serves_register : serves api_step (CatalogApi.Register sha256_hex time_json true).
Proof.
  assert (∀ r f w, branch api_step r w (register_fresh sha256_hex time_json true r f r w)) as Hf.
  { intros r f w. apply branch_or_error; [apply _|apply (command_step (CmdRegister _))|]. intros s a.
    split; [eapply answers_Header; [|apply answers_respond]; done|]. simpl.
    destruct (idem_key true r); [exact (Save_step _ _ _ _ a)|reflexivity]. }
  intros r w. apply branch_or_error; [apply _|keeps_steps|]. intros f. destruct (idem_key true r); [|apply Hf].
  apply branch_or_error; [apply _|keeps_steps|]. intros [rec|]; [apply branch_done; [apply _|done]|apply Hf].
Qed.
Lemma serves_mutating r w c :
  branch api_step r w (mutating time_json r w (CatalogApp.run_command c)).
Proof. apply branch_or_error; [apply _|keeps_steps|]. intros s. apply branch_done; [apply _|done]. Qed.
Lemma serves_change_ownership i : serves api_step (CatalogApi.ChangeOwnership json_error time_json i).
Proof. intros r w. apply branch_or_error; [apply _|keeps_steps|]. intros f. apply (serves_mutating r w (CmdOwnership _)). Qed.
Lemma serves_change_lifecycle i : serves api_step (CatalogApi.ChangeLifecycle json_error time_json i).
Proof. intros r w. apply branch_or_error; [apply _|keeps_steps|]. intros f. apply (serves_mutating r w (CmdLifecycle _)). Qed.
Lemma serves_retire i : serves api_step (CatalogApi.Retire time_json i).
Proof. intros r w. apply (serves_mutating r w (CmdRetire _)). Qed.

Lemma serves_create_tenant : serves api_step (TenantApi.Create json_error time_json).
Proof.
  intros r w. apply branch_or_error; [apply _|keeps_steps|]. intros f.
  apply branch_or_error; [apply _|apply (tenant_command_step (CmdCreate _))|].
  intros t. apply branch_done; [apply _|]. eapply answers_Header; [|apply answers_tenant_respond]. done.
Qed.
Lemma serves_change_status i : serves api_step (TenantApi.ChangeStatus json_error time_json i).
Proof.
  intros r w. apply branch_or_error; [apply _|keeps_steps|]. intros f.
  apply branch_or_error; [apply _|apply (tenant_command_step (CmdStatus _))|]. intros t. apply branch_done; [apply _|done].
Qed.
Lemma serves_update_quota i : serves api_step (TenantApi.UpdateQuota json_error time_json i).
Proof.
  intros r w. apply branch_or_error; [apply _|keeps_steps|]. intros f.
  apply branch_or_error; [apply _|apply (tenant_command_step (CmdQuota _))|]. intros t. apply branch_done; [apply _|done].
Qed.

Lemma answers_answer {A} r (x : result goerror A) body w : answers r w (answer r x body w).
Proof. destruct x; simpl; auto. Qed.

Lemma serves_effect m h : (m = "GET" → ∀ R, PreOrder R → serves R h) → (m ≠ "GET" → serves api_step h) → serves (effect m) h.
Proof.
  intros Hr Hw. destruct (decide (m = "GET")) as [E|E]; [by apply Hr; [|apply _]|].
  intros r w a. destruct (Hw E r w a). split; [done|by apply effect_write].
Qed.

(** Every route of the table answers; those of method GET leave the database alone,
    the others keep what the modules promise. *)
Lemma routes_serve :
  Forall (λ ro, ∀ p, serves (effect (ro_method ro)) (ro_handler ro p))
    (api_routes json_error sha256_hex time_json kube temporal).
Proof.
  unfold api_routes, catalog_routes, tenant_routes, application_routes, provisioning_routes. simpl.
  repeat (apply Forall_cons_2; [intros p; apply serves_effect; intros Hm; [try discriminate Hm; intros R HR|try by destruct Hm]|]);
    [..|by apply Forall_nil_2].
  - apply serves_register.
  - by apply serves_list_services.
  - by apply serves_get_service.
  - apply serves_change_ownership.
  - apply serves_change_lifecycle.
  - apply serves_retire.
  - apply serves_create_tenant.
  - by apply serves_list_tenants.
  - by apply serves_get_tenant.
  - apply serves_change_status.
  - apply serves_update_quota.
  - apply serves_reading; [done|]. intros. apply answers_answer.
  - apply serves_reading; [done|]. intros. apply answers_answer.
  - apply serves_reading; [done|]. intros. apply answers_answer.
  - apply serves_reading; [done|]. intros. apply answers_answer.
Qed.
End route_facts.

(** ** What the router does *)

Section router_facts.
Context `{Env} `{!Chi} {V : Type} `{!Verifier V} `{!LimiterLib} (now : nat → Z).
#[local] Abbreviation Handler := (@Handler World V _).

(** On requests of method [m] the handler returns, answers an open writer, keeps the
    metrics and has the effect of the method. *)
Definition behaves (m : string) (h : Handler) : Prop := ∀ r w s, rq_method r = m →
  let o := h r w s in
  o.1.1 = Returned ∧ (rw_sent w = None → rw_recorded w = 200%Z → answered o.1.2) ∧
  ps_metrics o.2 = ps_metrics s ∧ effect m (w_db (ps_app s)) (w_db (ps_app o.2)) ∧ logs r w o.1.2 ∧ correlates w o.1.2.

Lemma behaves_on_world m h : serves (effect m) h → behaves m (on_world h).
Proof.
  intros Hh r w s Hm. unfold on_world. destruct (Hh r w (ps_app s)) as [(Ha & _ & Hl & Hc) He].
  by destruct (h r w (ps_app s)) as [w' a].
Qed.

Lemma behaves_answer m (f : Request → Writer → Process → Writer) :
  (∀ r w s, answers r w (f r w s)) → behaves m (λ r w s, (Returned, f r w s, s)).
Proof. intros Hf r w s _. destruct (Hf r w s) as (Ha & _ & Hl & Hc). by split_and!; [done..|reflexivity| |]. Qed.

Lemma behaves_mux m es :
  Forall (λ e, en_method e = None ∨ en_method e = Some m → ∀ p, behaves m (en_handler e p)) es → behaves m (mux es).
Proof.
  intros Hes r w s Hm. unfold mux. rewrite Hm.
  destruct (chi_match _ m (rq_path r)) as [i params pattern|b pattern] eqn:Ec.
  - apply chi_match_entry in Ec as (e & He & Hem). rewrite list_lookup_fmap in He.
    destruct (es !! i) as [en|] eqn:Een; [|done]. injection He as <-.
    rewrite Forall_lookup in Hes. exact (Hes _ _ Een Hem (URLParam params) r (set_route pattern w) s Hm).
  - destruct (chi_unmatched_answers r b (set_route pattern w)) as (Ha & _ & Hl & Hc). by split_and!; [done..|reflexivity| |].
Qed.

Lemma behaves_Authenticate m next : behaves m next → behaves m (Authenticate next).
Proof.
  intros Hn r w s Hm. unfold Authenticate. destruct (negb _).
  { by apply (behaves_answer m (λ r w _, Error r ErrMissingToken w)); [intros; apply answers_Error|]. }
  destruct (Verify _ _) as [[p|e] v].
  - by apply (Hn (with_principal r p) w (set_verifier s v)).
  - destruct (answers_Error r e w) as (Ha & _ & Hl & Hc). by split_and!; [done..|simpl; reflexivity| |].
Qed.
Lemma behaves_RateLimit m next : behaves m next → behaves m (RateLimit now next).
Proof.
  intros Hn r w s Hm. unfold RateLimit. destruct (allow _ _ _ _) as [[] kl]; simpl.
  - by apply (Hn r w (set_limiter s kl)).
  - destruct (answers_Header r "Retry-After" "1" w _ ltac:(done) (answers_Error r ErrRateLimited _)) as (Ha & _ & Hl & Hc).
    by split_and!; [done..|simpl; reflexivity| |].
Qed.
End router_facts.

Section api_facts.
Context `{Env} {coll : Collation} `{!Chi} {V : Type} `{!Verifier V} `{!LimiterLib}.
Context (json_error : string → string) (sha256_hex : string → string) (time_json : Z → json).
Context (kube : option (nat → KubeClient)) (temporal : option (nat → TemporalClient)).
Context (now : nat → Z) (NewString : nat → string) (base : Logger).
#[local] Abbreviation v1 := (v1 json_error sha256_hex time_json kube temporal now).
#[local] Abbreviation entries := (entries json_error sha256_hex time_json kube temporal now).
#[local] Abbreviation api := (api json_error sha256_hex time_json kube temporal now NewString base).

Lemma v1_behaves m : behaves m v1.
Proof.
  apply behaves_Authenticate, behaves_RateLimit, behaves_mux, Forall_fmap.
  eapply Forall_impl; [apply routes_serve|]. intros ro Hro [|Hm] p; [done|]. injection Hm as <-.
  apply behaves_on_world, Hro.
Qed.

Lemma readyz_behaves m : behaves (V:=V) m (readyz now).
Proof.
  intros r w s Hm.
  assert (serves (effect m) (λ _ w' a, let '(x, a') := Health a in (Readiness x w', a'))) as Hs.
  { intros r' w' a. pose proof (keeps_Health (effect m) a) as Hh. destruct (Health a) as [x a']. simpl in *.
    split; [|done]. unfold Readiness. destruct x; apply answers_JSON. }
  exact (behaves_on_world m _ Hs (WithTimeout (now (ps_tick s)) (seconds 3) r) w (tick_process s) Hm).
Qed.

Lemma entries_behave m : behaves m (mux entries).
Proof.
  apply behaves_mux. unfold Routes.entries.
  repeat (apply Forall_cons_2; [intros _ p|]); [..|by apply Forall_nil_2].
  - apply behaves_on_world. intros r w a. split; [apply answers_JSON|reflexivity].
  - apply readyz_behaves.
  - apply (behaves_answer m (λ _ w s, promhttp (ps_metrics s) w)). intros. apply promhttp_answers.
  - apply v1_behaves.
Qed.

(** The token of the request, as [Authenticate] reads it, and what the verifier says. *)
Definition authorised (r : Request) (v : V) : Prop :=
  HasPrefix (Header_Get r "Authorization") "Bearer " = true ∧
  ∃ p v', Verify (TrimPrefix (Header_Get r "Authorization") "Bearer ") v = (Ok p, v').
Definition inert (h : @Handler World V _) (r : Request) (s : @Process World V _) : Prop :=
  ∀ w, w_db (ps_app (h r w s).2) = w_db (ps_app s).

Lemma v1_inert r s : ¬ authorised r (ps_verifier s) → inert v1 r s.
Proof.
  intros Hn w. unfold Routes.v1, gate, Authenticate.
  destruct (HasPrefix _ _) eqn:Ep; simpl; [|done].
  destruct (Verify _ _) as [[p|e] v] eqn:Ev; [|done]. destruct Hn. split; eauto.
Qed.

Lemma entries_inert r s : ¬ authorised r (ps_verifier s) → inert (mux entries) r s.
Proof.
  intros Hn w. unfold mux. destruct (chi_match _ _ _) as [i params pattern|b pattern]; [|done].
  destruct (entries !! i) as [en|] eqn:Ei; [|done].
  assert (en ∈ entries) as Hin by (by eapply list_elem_of_lookup_2).
  unfold Routes.entries in Hin. rewrite !elem_of_cons, elem_of_nil in Hin.
  destruct Hin as [->|[->|[->|[->|[]]]]]; [done| |done|by apply v1_inert].
  simpl. unfold readyz, on_world. pose proof (keeps_Health eq (ps_app s)) as Hh. simpl.
  by destruct (Health (ps_app s)).
Qed.

(** C8: writes are authorised: a request to the server, on any path and under any
    failures, changes the database only if its method is not GET and it carries
    an [Authorization: Bearer] token that the verifier accepts. *)
Theorem writes_authorised r s :
  w_db (ps_app (api r fresh_writer s).2) ≠ w_db (ps_app s) →
  rq_method r ≠ "GET" ∧ authorised r (ps_verifier s).
Proof.
  intros Hch. destruct (chain_run now NewString base (mux entries) r s) as (cid & r0 & w0 & s0 & _ & _ & _ & _ & _ & _ & _ &
    Hhdr & Hmeth & _ & _ & _ & _ & Ha & Hv & _ & _ & _ & Happ & _).
  unfold Routes.api in Hch. rewrite Happ in Hch. split.
  - intros Hm. apply Hch. rewrite <- Ha. rewrite Hm in Hmeth.
    by apply (entries_behave "GET" r0 w0 s0 Hmeth).
  - destruct (decide (HasPrefix (Header_Get r "Authorization") "Bearer " = true)) as [Hp|Hp];
      [destruct (Verify (TrimPrefix (Header_Get r "Authorization") "Bearer ") (ps_verifier s)) as [[p|e] v] eqn:Ev|].
    { split; eauto. }
    all: exfalso; apply Hch; rewrite <- Ha; apply entries_inert; unfold authorised, Header_Get; rewrite Hhdr, Hv;
      intros (? & ? & ? & ?); unfold Header_Get in *; congruence.
Qed.

End api_facts.

Section observed.
Context `{Env} {coll : Collation} `{!Chi} {V : Type} `{!Verifier V} `{!LimiterLib}.
Context (json_error : string → string) (sha256_hex : string → string) (time_json : Z → json).
Context (kube : option (nat → KubeClient)) (temporal : option (nat → TemporalClient)).
Context (now : nat → Z) (NewString : nat → string) (env service : string).
#[local] Abbreviation api :=
  (api json_error sha256_hex time_json kube temporal now NewString (Logging.New env service)).

(** A line of the program's log that names the request by [cid]. *)
Definition names_request (cid : string) (x : Line) : Prop :=
  [("service", LString service); ("env", LString env); ("correlation_id", LString cid)] `prefix_of` ln_attrs x.

Lemma carries_names cid x :
  carries (With [("correlation_id", LString cid)] (Logging.New env service)) x → names_request cid x.
Proof. done. Qed.

(** The line [Observe] writes is never dropped. *)
Lemma request_line r cid route status d :
  correlated (Logging.New env service) cid r →
  ∃ x, request_lines r route status d = [x] ∧ ln_msg x = "request" ∧
    [("method", LString (rq_method r)); ("route", LString route); ("status", LInt status); ("duration", LDuration d)]
      `suffix_of` ln_attrs x.
Proof.
  intros [Ho _]. unfold request_lines, Log. rewrite Ho. unfold Logging.New, With, LevelInfo, LevelDebug. simpl.
  case_decide; simpl; (eexists; split_and!; [reflexivity|reflexivity|by eexists]).
Qed.

(** C23: every request is answered, counted once and logged: under any failures the
    server returns a response, and exactly one request counter goes up by one, the one
    labelled with the matched route pattern (or [unmatched]), the method and the
    text of the status on the wire; one duration is observed for the route and
    method; all other series stay; the last line of its log is the access line with the same
    route, method and status; and every line logged for it names the service and the
    correlation id, the one the client sent if it sent one, that is on the response. *)
Theorem requests_observed r s :
  let out := api r fresh_writer s in
  let route := if decide (rw_route out.1.2 = "") then "unmatched" else rw_route out.1.2 in
  out.1.1 = Returned ∧
  ∃ status h d, rw_sent out.1.2 = Some (status, h) ∧
    (∀ l, requests_total (ps_metrics out.2) l =
       requests_total (ps_metrics s) l + if decide (l = (route, rq_method r, StatusText status)) then 1 else 0)%N ∧
    (∀ l, durations (ps_metrics out.2) l =
       durations (ps_metrics s) l ++ if decide (l = (route, rq_method r)) then [d] else []) ∧
    ∃ cid ls x d', (Header_Get r correlationHeader ≠ "" → cid = Header_Get r correlationHeader) ∧
      h !! correlationHeader = Some cid ∧ Forall (names_request cid) (ls ++ [x]) ∧
      rw_log out.1.2 = ls ++ [x] ∧ ln_msg x = "request" ∧
      [("method", LString (rq_method r)); ("route", LString route); ("status", LInt status); ("duration", LDuration d')]
        `suffix_of` ln_attrs x.
Proof.
  destruct (chain_run now NewString (Logging.New env service) (mux (entries json_error sha256_hex time_json kube temporal now)) r s)
    as (cid & r0 & w0 & s0 & Hw & Hgiven & _ & _ & _ & _ & _ & _ & Hmeth & _ & _ & Hlog & Hcor & _ & _ & _ & Hm & Hret & _ & _ &
        _ & ls & Hout & Hmet).
  destruct Hw as (Hsent & _ & Hhead & Hrec).
  destruct (entries_behave json_error sha256_hex time_json kube temporal now (rq_method r) r0 w0 s0 Hmeth)
    as (Hr & Hans & Hme & _ & (ls0 & El & Fl) & Hkeep).
  unfold recovered in Hout. rewrite Hr in Hout, Hmet. destruct (Hans Hsent Hrec) as (h & Hh).
  specialize (Hkeep cid Hsent Hhead). unfold sent_header in Hkeep. rewrite Hh in Hkeep.
  unfold Routes.api. cbv zeta. rewrite Hout. cbn [log_lines rw_route rw_sent rw_log]. split; [done|].
  destruct Hmet as (d & d' & -> & ->).
  set (o := mux _ r0 w0 s0) in *. set (route := if decide (rw_route o.1.2 = "") then _ else _).
  exists (rw_recorded o.1.2), h, d. rewrite Hme, Hm. split_and!; [done|..]; [intros l..|].
  - unfold requests_total, Inc, ObserveDuration. simpl. rewrite lookup_insert.
    destruct (decide (_ = l)) as [<-|Hne]; [by rewrite decide_True|]. rewrite decide_False by congruence. lia.
  - unfold durations, Inc, ObserveDuration. simpl. rewrite lookup_insert.
    destruct (decide (_ = l)) as [<-|Hne]; [by rewrite decide_True|]. rewrite decide_False by congruence.
    by rewrite app_nil_r.
  - destruct (request_line r0 cid route (rw_recorded o.1.2) d' Hcor) as (x & Ex & Hx & Hs). rewrite Hmeth in Hs.
    pose proof (Log_carries (From (rq_logger r0)) LevelInfo "request" [("method", LString (rq_method r0)); ("route", LString route);
      ("status", LInt (rw_recorded o.1.2)); ("duration", LDuration d')]) as Fx.
    fold (request_lines r0 route (rw_recorded o.1.2) d') in Fx. rewrite Ex in *. rewrite El, Hlog. simpl.
    exists cid, ls0, x, d'. split_and!; try done. apply Forall_app.
    split; (eapply Forall_impl; [eassumption|]); intros y Hy; apply carries_names, Hcor, Hy.
Qed.
End observed.

(** ** Witnesses: a router that matches segment by segment *)

#[local] Existing Instance demo_uuid.
#[local] Fixpoint segments (cur : list ascii) (s : list ascii) : list string :=
  match s with
  | [] => [of_bytes (rev cur)]
  | c :: s' => if decide (c = "/"%char) then of_bytes (rev cur) :: segments [] s' else segments (c :: cur) s'
  end.
(** A mount matches any path below it. *)
#[local] Fixpoint seg_match (mount : bool) (pat path : list string) (params : gmap string string) : option (gmap string string) :=
  match pat, path with
  | [], [] => Some params
  | [], _ => if mount then Some params else None
  | a :: pat', b :: path' =>
    if HasPrefix a "{" then seg_match mount pat' path' (<[of_bytes (removelast (tl (bytes a))) := b]> params)
    else if decide (a = b) then seg_match mount pat' path' params else None
  | _, _ => None
  end.
#[local] Fixpoint demo_match (i : nat) (tbl : list (option string * string)) (m p : string) : option (nat * gmap string string * string) :=
  match tbl with
  | [] => None
  | (em, pat) :: tbl' =>
    match bool_decide (em = None ∨ em = Some m),
          seg_match (bool_decide (em = None)) (segments [] (bytes pat)) (segments [] (bytes p)) ∅ with
    | true, Some params => Some (i, params, pat)
    | _, _ => demo_match (S i) tbl' m p
    end
  end.

#[local] Lemma demo_match_entry i tbl m p k params pat :
  demo_match i tbl m p = Some (k, params, pat) →
  ∃ e, i ≤ k ∧ tbl !! (k - i) = Some e ∧ (e.1 = None ∨ e.1 = Some m).
Proof.
  revert i. induction tbl as [|[em pt] tbl IH]; intros i; simpl; [done|].
  assert (demo_match (S i) tbl m p = Some (k, params, pat) →
    ∃ e, i ≤ k ∧ ((em, pt) :: tbl) !! (k - i) = Some e ∧ (e.1 = None ∨ e.1 = Some m)) as Hnext.
  { intros (e & Hle & He & Hm)%IH. exists e. split_and!; [lia| |done].
    replace (k - i) with (S (k - S i)) by lia. done. }
  destruct (bool_decide _) eqn:Eb; [|done].
  destruct (seg_match _ _ _ _) as [ps|]; [|done]. intros [= <- _ _]. exists (em, pt).
  rewrite Nat.sub_diag. split_and!; [lia|done|]. by apply bool_decide_eq_true in Eb.
Qed.
#[local] Definition demo_find (tbl : list (option string * string)) (m p : string) : routed :=
  match demo_match 0 tbl m p with Some (i, params, pat) => Matched i params pat | None => Unmatched false "" end.
#[local] Lemma demo_find_entry tbl m p i params pat :
  demo_find tbl m p = Matched i params pat → ∃ e, tbl !! i = Some e ∧ (e.1 = None ∨ e.1 = Some m).
Proof.
  unfold demo_find. destruct (demo_match 0 tbl m p) as [[[k ps] pt]|] eqn:E; [|done]. intros [= -> -> ->].
  apply demo_match_entry in E as (e & _ & He & Hm). rewrite Nat.sub_0_r in He. eauto.
Qed.
#[local] Lemma answers_Write r c w : answers r w (Write c w).
Proof.
  split_and!; [|unfold Write; simpl; by rewrite send_route|apply logs_nothing; unfold Write; simpl; by rewrite send_log|].
  2:{ intros cid. unfold Write, sent_header, send. simpl. by intros ->. }
  unfold Write, answered, send. simpl. intros -> ->. simpl. eauto. Qed.

#[local] Definition demo_chi : Chi := {|
  chi_match := demo_find; chi_match_entry := demo_find_entry;
  chi_unmatched b w := Write (CRaw JNull) (WriteHeader (if b then 405 else 404) w);
  chi_unmatched_answers r b w := answers_written r _ _ w;
  promhttp _ w := Write (CRaw JNull) w; promhttp_answers r _ w := answers_Write r _ w |}.
#[local] Definition demo_verifier : Verifier unit := λ tok v,
  (if decide (tok = "good") then Ok (mkPrincipal "alice" "" []) else Err (Unauthorized "INVALID_TOKEN" "token validation failed"), v).
#[local] Definition demo_limiter : LimiterLib := {| Limiter := unit; NewLimiter := tt; Allow _ l := (true, l) |}.
#[local] Definition demo_process (d : Database) : @Process World unit demo_limiter :=
  mkProcess (mkWorld d 0 0) tt ∅ NewMetrics 0.
#[local] Definition demo_api : @Handler World unit demo_limiter :=
  @api demo_uuid calm_env CatalogList.demo_collation demo_chi (λ s, s) (λ s, s) CatalogApi.demo_time None None unit
    demo_verifier demo_limiter (λ n, Z.of_nat n) (λ n, pretty n) (Logging.New "production" "forge-api").
#[local] Definition demo_create (token : string) : Request :=
  mkRequest "POST" "/api/v1/services/" ∅ {[ "Authorization" := "Bearer " +:+ token ]} CatalogApi.demo_body "10.0.0.1:999" None None None None None.

Lemma writes_authorised_witness :
  let s := demo_process empty_db in let out := demo_api (demo_create "good") fresh_writer s in
  status_of out.1.2 = 201%Z ∧ rw_route out.1.2 = "/api/v1/services/" ∧
  status_of (demo_api (demo_create "bad") fresh_writer s).1.2 = 401%Z ∧
  @authorised unit demo_verifier (demo_create "good") (ps_verifier s).
Proof.
  intros s out. split; [vm_compute; reflexivity|]. split; [vm_compute; reflexivity|]. split; [vm_compute; reflexivity|].
  apply (@writes_authorised demo_uuid calm_env CatalogList.demo_collation demo_chi unit demo_verifier demo_limiter
    (λ s, s) (λ s, s) CatalogApi.demo_time None None (λ n, Z.of_nat n) (λ n, pretty n) (Logging.New "production" "forge-api") (demo_create "good") s).
  intros E. apply (f_equal (λ d, size (catalog_services d))) in E. revert E. vm_compute. discriminate.
Defined.
