(* ===== verification/System.v ===== *)
(** * The whole system

    The API server and the relay over one database and one event bus.  The server
    handles a request with the handler of [Routes]; the relay claims a batch
    with the store of [Relay].  Both commit in transactions, so a run is a
    sequence of actions, in any order: a request, one turn of the drain loop, or
    a sweep of the rate limiter.  Failures of the database, of commits and of
    publishing, and the locks of other relay replicas, are those of [RelayEnv]. *)
From S2P Require Import Prelude GoStrings Apperr Uuid Controller ReadModels Postgres TenantDomain TenantApp Logging Httpx.
From S2P Require Import CatalogDomain CatalogRepo CatalogApp CatalogList CatalogApi TenantApi Relay Marking Frames Routes.

(** ** Actions *)

Section system.
Context `{RelayEnv} {coll : Collation} `{!Chi} {V : Type} `{!Verifier V} `{!LimiterLib}.
Context (json_error : string → string) (sha256_hex : string → string) (time_json : Z → json).
Context (kube : option (nat → KubeClient)) (temporal : option (nat → TemporalClient)).
Context (now : nat → Z) (NewString : nat → string) (base : Logger) (relay : Relay).
#[local] Abbreviation api := (api json_error sha256_hex time_json kube temporal now NewString base).

(** [sy_drain] is the count of the drain in progress, if any. *)
Record System := mkSystem { sy_process : @Process World V _; sy_bus : list Msg; sy_drain : option nat }.
Definition relay_view (y : System) : RWorld := mkRWorld (ps_app (sy_process y)) (sy_bus y).
Definition sys_db (y : System) : Database := rw_db (relay_view y).

Inductive Action : Type :=
| Serve (r : Request)
| RelayTurn
| Reap (t : string → Z).

(** One turn of the loop of [DrainOnce]; an idle relay starts a drain.  An error or a
    short batch ends it. *)
Definition relay_turn (y : System) : System :=
  let '(res, w) := PgStore_ClaimBatch (Z.to_nat (rl_batch relay)) (publish_record relay) (relay_view y) in
  mkSystem (set_app (sy_process y) (rw_world w)) (rw_bus w)
    (match res with
     | Err _ => None
     | Ok n => if (Z.of_nat n <? rl_batch relay)%Z then None else Some (default 0 (sy_drain y) + n)
     end).

Definition act (x : Action) (y : System) : System :=
  match x with
  | Serve r => mkSystem (api r fresh_writer (sy_process y)).2 (sy_bus y) (sy_drain y)
  | RelayTurn => relay_turn y
  | Reap t => mkSystem (mkProcess (ps_app (sy_process y)) (ps_verifier (sy_process y)) (reap t (ps_limiter (sy_process y)))
                          (ps_metrics (sy_process y)) (ps_tick (sy_process y))) (sy_bus y) (sy_drain y)
  end.
Definition run_actions (xs : list Action) (y : System) : System := foldl (λ y x, act x y) y xs.

(** A server that has just started on the database [d]. *)
Definition started (d : Database) (v : V) (n : nat) (t : Z) : System :=
  mkSystem (mkProcess (mkWorld d n t) v ∅ NewMetrics 0) [] None.

(** ** The invariant of the system *)

Record system_inv (y : System) : Prop := {
  si_catalog : catalog_inv (sys_db y);
  si_tenants : tenants_inv (sys_db y);
  si_relay : relay_inv relay (relay_view y);
  si_types : Forall (λ r, ob_event_type r ∈ all_types) (outbox_events (sys_db y))
}.

Lemma extends_relay T w w' bus :
  extends T (w_db w) (w_db w') → relay_inv relay (mkRWorld w bus) → relay_inv relay (mkRWorld w' bus).
Proof.
  intros (rows & E & F & N) [Hnd Hpub Hbus]. unfold rw_db in *. simpl in *. constructor; unfold rw_db; simpl.
  - auto.
  - intros row. rewrite E, elem_of_app. intros [Hrow|Hrow] Hp; [by apply Hpub|].
    rewrite Forall_forall in F. by destruct (F row Hrow).
  - intros m (row & Hrow & ->)%Hbus. exists row. rewrite E, elem_of_app. auto.
Qed.

Lemma serve_effect r y : effect (rq_method r) (sys_db y) (sys_db (act (Serve r) y)).
Proof.
  destruct (chain_run now NewString base (mux (entries json_error sha256_hex time_json kube temporal now)) r (sy_process y))
    as (cid & r0 & w0 & s0 & _ & _ & _ & _ & _ & _ & _ & _ & Hmeth & _ & _ & _ & _ & Ha & _ & _ & _ & _ & Happ & _).
  unfold sys_db, rw_db. simpl. unfold Routes.api. rewrite Happ, <- Ha.
  by apply (entries_behave json_error sha256_hex time_json kube temporal now (rq_method r) r0 w0 s0 Hmeth).
Qed.

Lemma serve_inv r y : system_inv y → system_inv (act (Serve r) y).
Proof.
  intros [Hc Ht Hr Hty]. destruct (serve_effect r y) as [[He Hc' Ht'] _]. constructor; [auto|auto|..].
  - by apply (extends_relay all_types (ps_app (sy_process y))).
  - destruct He as (rows & -> & F & _). apply Forall_app. split; [done|].
    eapply Forall_impl; [exact F|]. by intros ? [? ?].
Qed.

Lemma relay_turn_inv y : system_inv y → system_inv (relay_turn y).
Proof.
  intros [Hc Ht Hr Hty]. unfold relay_turn.
  pose proof (pg_claim_effect (Z.to_nat (rl_batch relay)) _ _ (relay_view y) (publish_record_publishes relay)) as Hb.
  destruct (PgStore_ClaimBatch _ _ _) as [res [w bus]]. destruct Hb as (rows & t & ms & Hb).
  pose proof (be_db _ _ _ _ _ _ _ _ Hb) as Hd.
  assert (marked (sys_db y) (rw_db (mkRWorld w bus))) as Hm by (exists (outbox_ids rows), t; done).
  constructor; unfold sys_db, relay_view; simpl.
  - by apply (marked_catalog (sys_db y)).
  - by apply (marked_tenants (sys_db y)).
  - by eapply batch_inv.
  - rewrite Hd. simpl. apply Forall_map. eapply Forall_impl; [exact Hty|].
    intros r. unfold compose. by destruct (mark_row_same (outbox_ids rows) t r) as (_ & -> & _).
Qed.

Lemma run_actions_inv xs y : system_inv y → system_inv (run_actions xs y).
Proof.
  revert y. induction xs as [|[r| |t] xs IH]; intros y Hy; simpl; [done|..]; apply IH.
  - by apply serve_inv.
  - by apply relay_turn_inv.
  - destruct Hy. by constructor.
Qed.

Lemma started_inv v n t : system_inv (started empty_db v n t).
Proof.
  constructor; [apply catalog_inv_empty|apply tenants_inv_empty| |by constructor].
  constructor; simpl; [by constructor|intros ?; by rewrite elem_of_nil|intros ?; by rewrite elem_of_nil].
Qed.

(** ** The event bus against the stored aggregates *)

(** [m] is the message of a catalog event. *)
Definition event_message (e : Event) (m : Msg) : Prop :=
  msg_Subject m = rl_prefix relay +:+ "." +:+ EventType e ∧ msg_Data m = jsonb_text (CatalogRepo.envelope e).
(** [m] carries an outbox row of the tenant [u]. *)
Definition tenant_message (u : uuid) (y : System) (m : Msg) : Prop :=
  ∃ r, r ∈ tenant_outbox u (sys_db y) ∧ m = message relay (to_record r).

(** The messages [ms] on the bus, with distinct identifiers, are the events of a log
    that replays to the stored service. *)
Definition published_log (y : System) (row : ServiceRow) : Prop :=
  ∃ es ms, explained es (row_service row) ∧ Forall2 event_message es ms ∧
    NoDup (map msg_ID ms) ∧ Forall (λ m, m ∈ sy_bus y) ms.

Lemma records_message u r e : records u r e → event_message e (message relay (to_record r)).
Proof. intros (_ & Ht & Hp & _). split; unfold message, subjectFor; simpl; [by rewrite Ht|by rewrite Hp]. Qed.

(** The messages of the outbox rows of a service. *)
Definition log_messages (u : uuid) (y : System) : list Msg :=
  map (λ r, message relay (to_record r)) (outbox_of u (sys_db y)).

Lemma log_messages_nodup u y : system_inv y → NoDup (map msg_ID (log_messages u y)).
Proof.
  intros [_ _ [Hnd _ _] _]. unfold log_messages. rewrite map_map. simpl.
  apply (NoDup_ids_filter (CatalogRepo.about u)) in Hnd. unfold outbox_ids in Hnd. fold (sys_db y) in Hnd.
  rewrite <- (map_map ob_id uuid_String). by apply NoDup_fmap_2; [intros ? ? ?%uuid_String_inj|].
Qed.

Lemma drained_log u y row :
  system_inv y → pending (relay_view y) = [] → catalog_services (sys_db y) !! u = Some row → published_log y row.
Proof.
  intros Hy Hp Hrow. pose proof (log_messages_nodup u y Hy) as Hnd. destruct Hy as [Hc _ [_ Hpub _] _].
  destruct (inv_log _ Hc _ _ Hrow) as (es & Hes & Hrec). exists es, (log_messages u y). split_and!; [done| |done|].
  - apply Forall2_fmap_r, Forall2_flip. eapply Forall2_impl; [exact Hrec|]. intros r e. apply records_message.
  - apply Forall_map, Forall_forall. intros r [_ Hr]%list_elem_of_filter. apply Hpub; [done|]. intros Hu.
    assert (r ∈ pending (relay_view y)) as Hin by (by apply list_elem_of_filter). rewrite Hp in Hin.
    by apply elem_of_nil in Hin.
Qed.

(** C1: the system is safe under any schedule: from empty tables, after any sequence of
    HTTP requests, relay turns and limiter sweeps, under all failures of the
    database, of commits and of publishing: the catalog's and the tenants'
    invariants hold of the shared database, the outbox holds only their events
    under distinct keys, every row marked published has its message on the bus,
    and the bus holds only messages of outbox rows. *)
Theorem system_invariant xs v n t : system_inv (run_actions xs (started empty_db v n t)).
Proof. apply run_actions_inv, started_inv. Qed.

(** C11: nothing is invented on the bus: after any run, every message on it is either
    an event of the log of a stored service, with the payload the outbox stored,
    or a row of the log of a stored tenant. *)
Theorem bus_sound xs v n t m :
  let y := run_actions xs (started empty_db v n t) in
  m ∈ sy_bus y →
  (∃ u row es e, catalog_services (sys_db y) !! u = Some row ∧ explained es (row_service row) ∧ e ∈ es ∧ event_message e m) ∨
  (∃ u row, tenants (sys_db y) !! u = Some row ∧ tenant_message u y m).
Proof.
  intros y Hm. destruct (run_actions_inv xs _ (started_inv v n t)) as [Hc Ht Hr Hty]. fold y in Hc, Ht, Hr, Hty.
  destruct (ri_bus _ _ Hr m Hm) as (r & Hrow & ->). rewrite Forall_forall in Hty. specialize (Hty r Hrow).
  apply elem_of_app in Hty as [Hcat|Hten].
  - left. assert (r ∈ outbox_of (ob_aggregate_id r) (sys_db y)) as Hin by (by apply list_elem_of_filter).
    destruct (catalog_services (sys_db y) !! ob_aggregate_id r) as [row|] eqn:Erow;
      [|rewrite (inv_log_none _ Hc _ Erow) in Hin; by apply elem_of_nil in Hin].
    destruct (inv_log _ Hc _ _ Erow) as (es & Hes & Hrec).
    apply list_elem_of_lookup in Hin as (i & Hi). destruct (Forall2_lookup_l _ _ _ _ _ Hrec Hi) as (e & He & Hre).
    exists (ob_aggregate_id r), row, es, e. split_and!; [done|done|by eapply list_elem_of_lookup_2|by eapply records_message].
  - right. assert (r ∈ tenant_outbox (ob_aggregate_id r) (sys_db y)) as Hin by (by apply list_elem_of_filter).
    destruct (tenants (sys_db y) !! ob_aggregate_id r) as [row|] eqn:Erow;
      [|rewrite (ti_none _ Ht _ Erow) in Hin; by apply elem_of_nil in Hin].
    exists (ob_aggregate_id r), row. split; [done|]. exists r. done.
Qed.

(** Once nothing fails, a turn of the relay takes a batch off the backlog. *)
Lemma relay_turn_calm y :
  relay_calm → NoDup (outbox_ids (outbox_events (sys_db y))) →
  backlog (relay_view (relay_turn y)) = drop (Z.to_nat (rl_batch relay)) (backlog (relay_view y)) ∧
  NoDup (outbox_ids (outbox_events (sys_db (relay_turn y)))).
Proof.
  intros Hcalm Hnd. unfold relay_turn.
  destruct (claim_calm Hcalm (Z.to_nat (rl_batch relay)) relay (relay_view y) Hnd) as ([w bus] & -> & Hb & Hn & _). done.
Qed.
Lemma relay_turn_tables y :
  catalog_services (sys_db (relay_turn y)) = catalog_services (sys_db y) ∧ tenants (sys_db (relay_turn y)) = tenants (sys_db y).
Proof.
  unfold relay_turn.
  pose proof (pg_claim_effect (Z.to_nat (rl_batch relay)) _ _ (relay_view y) (publish_record_publishes relay)) as Hb.
  destruct (PgStore_ClaimBatch _ _ _) as [res [w bus]]. destruct Hb as (rows & t & ms & [Hd _ _ _ _ _ _ _]).
  unfold sys_db, relay_view. simpl. by rewrite Hd.
Qed.

Lemma turns_drain k y :
  relay_calm → (0 < rl_batch relay)%Z → NoDup (outbox_ids (outbox_events (sys_db y))) →
  length (backlog (relay_view y)) ≤ k →
  let y' := run_actions (replicate k RelayTurn) y in
  pending (relay_view y') = [] ∧ catalog_services (sys_db y') = catalog_services (sys_db y) ∧
  tenants (sys_db y') = tenants (sys_db y).
Proof.
  intros Hcalm Hb. revert y. induction k as [|k IH]; intros y Hnd Hk; simpl.
  - split_and!; [|done|done]. apply Permutation_nil_r. rewrite <- backlog_perm.
    destruct (backlog (relay_view y)); [done|simpl in Hk; lia].
  - destruct (relay_turn_calm y Hcalm Hnd) as [Hbl Hnd']. destruct (relay_turn_tables y) as [Hs Ht].
    destruct (IH (relay_turn y) Hnd') as (Hp & Hs' & Ht'); [rewrite Hbl, length_drop; lia|].
    split_and!; [done|by rewrite Hs'|by rewrite Ht'].
Qed.

(** C7: eventual delivery, end to end: from any state the system can be in, once
    nothing fails any more finitely many relay turns, without changing the
    services or the tenants, bring every stored service's whole history to the
    bus: the bus holds, under distinct identifiers, messages that are the events
    of a log replaying to the stored service, one per version. *)
Theorem history_reaches_bus y :
  relay_calm → (0 < rl_batch relay)%Z → system_inv y →
  let y' := run_actions (replicate (length (pending (relay_view y))) RelayTurn) y in
  catalog_services (sys_db y') = catalog_services (sys_db y) ∧ tenants (sys_db y') = tenants (sys_db y) ∧
  ∀ u row, catalog_services (sys_db y) !! u = Some row → published_log y' row.
Proof.
  intros Hcalm Hb Hy y'. pose proof (run_actions_inv (replicate (length (pending (relay_view y))) RelayTurn) y Hy) as Hy'.
  destruct (turns_drain (length (pending (relay_view y))) y Hcalm Hb) as (Hp & Hs & Ht).
  { apply Hy. } { by rewrite backlog_perm. }
  split_and!; [done|done|]. intros u row Hrow. apply (drained_log u); [done|done|]. unfold y'. by rewrite Hs.
Qed.
End system.

(** ** Witnesses *)

#[local] Existing Instance demo_uuid.
#[local] Existing Instance CatalogList.demo_collation.
#[local] Existing Instance Routes.demo_chi.
#[local] Existing Instance Routes.demo_verifier.
#[local] Existing Instance Routes.demo_limiter.
#[local] Definition demo_run (env : @RelayEnv demo_uuid) (xs : list Action) (y : System) : System :=
  run_actions (λ s, s) (λ s, s) CatalogApi.demo_time None None (λ n, Z.of_nat n) (λ n, pretty n) slog_Default Relay.demo_relay xs y.
#[local] Definition demo_start : System := started empty_db tt 0 0.
#[local] Definition demo_calm : @RelayEnv demo_uuid := Relay.demo_relay_env (λ _, PubAck).
(** A registration, a refused publish, and a retry of it. *)
#[local] Definition demo_actions : list Action := [Serve (Routes.demo_create "good"); RelayTurn; RelayTurn].

Lemma bus_sound_witness :
  let env := Relay.demo_relay_env (λ n, if decide (n < 15) then PubUnknown (EOther "timeout") else PubAck) in
  let y := demo_run env demo_actions demo_start in
  length (sy_bus y) = 2 ∧
  ∃ m, sy_bus y !! 0 = Some m ∧
  ((∃ u row es e, catalog_services (sys_db y) !! u = Some row ∧ explained es (row_service row) ∧ e ∈ es ∧
      event_message Relay.demo_relay e m) ∨
   (∃ u row, tenants (sys_db y) !! u = Some row ∧ tenant_message Relay.demo_relay u y m)).
Proof.
  intros env y. split; [vm_compute; reflexivity|].
  destruct (sy_bus y !! 0) as [m|] eqn:Em; [|exfalso; revert Em; vm_compute; discriminate].
  exists m. split; [reflexivity|].
  apply (bus_sound (λ s, s) (λ s, s) CatalogApi.demo_time None None (λ n, Z.of_nat n) (λ n, pretty n) slog_Default Relay.demo_relay
    demo_actions tt 0 0 m). apply (list_elem_of_lookup_2 _ 0). exact Em.
Defined.

Lemma history_reaches_bus_witness :
  let env := demo_calm in
  let y := demo_run env [Serve (Routes.demo_create "good")] demo_start in
  let y' := demo_run env [RelayTurn] y in
  ∃ u row, catalog_services (sys_db y) !! u = Some row ∧ sy_bus y = [] ∧ published_log Relay.demo_relay y' row.
Proof.
  intros env y y'. exists ("0" : @uuid demo_uuid).
  pose proof (run_actions_inv (λ s, s) (λ s, s) CatalogApi.demo_time None None (λ n, Z.of_nat n) (λ n, pretty n) slog_Default
    Relay.demo_relay [Serve (Routes.demo_create "good")] demo_start (started_inv Relay.demo_relay tt 0 0)) as Hinv.
  destruct (catalog_services (sys_db y) !! ("0" : @uuid demo_uuid)) as [row|] eqn:Erow;
    [|exfalso; revert Erow; vm_compute; discriminate].
  exists row. split; [reflexivity|]. split; [vm_compute; reflexivity|].
  assert (length (pending (relay_view y)) = 1) as Hlen by (vm_compute; reflexivity).
  pose proof (history_reaches_bus (λ s, s) (λ s, s) CatalogApi.demo_time None None (λ n, Z.of_nat n) (λ n, pretty n) slog_Default
    Relay.demo_relay y ltac:(by constructor) ltac:(done) Hinv) as (_ & _ & Hall).
  specialize (Hall _ _ Erow). rewrite Hlen in Hall. exact Hall.
Defined.
