(* ===== verification/Processes.v ===== *)
(** * The processes (cmd/, internal/platform/postgres, events, observability, kube, temporal)

    The [run] functions of the six programs: which libraries they call, in which
    order, what they defer, and how they end.  A library call is a value of [Call]
    with its arguments; the class [ProcEnv] says how each one turns out.  The
    record of a run is the list of calls with their outcomes; deferred calls run
    when the function returns, the last one first, and not when the process exits
    by [os.Exit].  The API process runs the migrations of [Migrate] on a schema. *)
From S2P Require Import Prelude GoStrings Apperr Postgres Httpx Relay Migrate Config.

(** ** Calls into the libraries *)

(** [jetstream.StreamConfig] and [jetstream.ConsumerConfig], the fields that are set. *)
Record StreamConfig := mkStreamConfig {
  sc_Name : string; sc_Subjects : list string; sc_Duplicates : Z; sc_MaxAge : Z; sc_Description : string }.
Record ConsumerConfig := mkConsumerConfig {
  cc_Durable : string; cc_AckExplicit : bool; cc_FilterSubject : string; cc_AckWait : Z }.

(** [http.Server], the fields that are set; durations in nanoseconds. *)
Record Server := mkServer {
  sv_Addr : string; sv_ReadHeaderTimeout : Z; sv_ReadTimeout : Z; sv_WriteTimeout : Z; sv_IdleTimeout : Z }.
Definition NewServer (addr : string) : Server :=
  mkServer addr (5 * Second) (15 * Second) (30 * Second) (60 * Second).

Inductive Call : Type :=
| NotifyContext | StopSignals | AwaitSignal
| NewExporter (endpoint : string) | ShutdownTracing
| ParseConfig (url : string) | NewWithConfig (cfg : DatabaseConfig) | PingPool | ClosePool
| RunMigrations
| KubeGetConfig | KubeNew | NewLazyClient (hostPort namespace : string)
| ListenAndServe (s : Server) | ShutdownServer (timeout : Z)
| NatsConnect (name url : string) (maxReconnects reconnectWait : Z) | NewJetStream | NatsClose | NatsDrain
| CreateOrUpdateStream (c : StreamConfig)
| RelayRun (r : Relay.Relay)
| CreateOrUpdateConsumer (stream : string) (c : ConsumerConfig) | Consume | Ack (m : Msg) | StopConsume
| DialTemporal (hostPort namespace : string) | CloseTemporal
| WorkerRun (taskQueue : string)
| ExecuteWorkflow (id taskQueue slug : string) (maxServices : Z) | GetResult
| GetConfigOrDie | NewManager | SetupWithManager | AddHealthzCheck | AddReadyzCheck | ManagerStart.

(** How waiting in the API's [select] ends. *)
Inductive select_end : Type :=
| ServerReturned (e : goerror)   (** [ListenAndServe] always returns an error *)
| SignalReceived.

Class ProcEnv := {
  outcome : nat → Call → option goerror;
  selected : nat → select_end;
  deliveries : list Msg
}.

(** ** Running a process *)

(** The function returned an error, or the process exited on the spot. *)
Inductive stop : Type :=
| Failed (e : goerror)
| Exited (code : Z).

Section processes.
Context `{ProcEnv} {Schema : Type} (migrations : @MM Schema unit).

Record PState := mkPState {
  pr_calls : list (Call * option goerror);
  pr_defers : list Call;              (** the last one first *)
  pr_db : @MWorld Schema
}.
Definition Proc (A : Type) : Type := PState → result stop A * PState.
#[global] Instance Proc_ret : MRet Proc := λ A a s, (Ok a, s).
#[global] Instance Proc_bind : MBind Proc := λ A B k m s,
  match m s with (Ok a, s') => k a s' | (Err e, s') => (Err e, s') end.

Definition logged (c : Call) (o : option goerror) (s : PState) : PState :=
  mkPState (pr_calls s ++ [(c, o)]) (pr_defers s) (pr_db s).
(** A call whose error is looked at by the caller. *)
Definition attempt (c : Call) : Proc (option goerror) := λ s,
  let o := outcome (length (pr_calls s)) c in (Ok o, logged c o s).
Definition fail_with {A} (e : goerror) : Proc A := λ s, (Err (Failed e), s).
Definition exit_with {A} (code : Z) : Proc A := λ s, (Err (Exited code), s).
(** [if err != nil { return f(err) }] *)
Definition call (f : goerror → goerror) (c : Call) : Proc unit :=
  o ← attempt c; match o with Some e => fail_with (f e) | None => mret tt end.
Definition plain (e : goerror) : goerror := e.
(** A call that does not fail. *)
Definition always (c : Call) : Proc unit := λ s, (Ok tt, logged c None s).
Definition defer (c : Call) : Proc unit := λ s, (Ok tt, mkPState (pr_calls s) (c :: pr_defers s) (pr_db s)).
Definition of_result {A} (r : result goerror A) : Proc A := λ s,
  match r with Ok a => (Ok a, s) | Err e => (Err (Failed e), s) end.

(** The deferred calls; their errors are dropped. *)
Definition run_defers (s : PState) : PState :=
  mkPState (pr_calls s ++ map (λ c, (c, None)) (pr_defers s)) [] (pr_db s).

(** [main]: the exit code and the record of the process. *)
Definition exec_state (out : result stop unit * PState) : PState :=
  match out.1 with Err (Exited _) => out.2 | _ => run_defers out.2 end.
Definition exit_code (out : result stop unit * PState) : Z :=
  match out.1 with Ok _ => 0 | Err (Failed _) => 1 | Err (Exited c) => c end.
Definition exec (run : Proc unit) (d : @MWorld Schema) : Z * PState :=
  let out := run (mkPState [] [] d) in (exit_code out, exec_state out).

(** ** Platform packages *)

(** [observability.InitTracing]: whether the shutdown function it returns is that of a
    provider, or the no-op of a process without an endpoint. *)
Definition InitTracing (endpoint : string) : Proc bool :=
  if decide (endpoint = "") then mret false
  else _ ← call plain (NewExporter endpoint); mret true.
Definition defer_shutdown (provider : bool) : Proc unit := if provider then defer ShutdownTracing else mret tt.

(** [postgres.New]: a pool that does not answer a ping is closed again. *)
Definition pg_New (cfg : DatabaseConfig) : Proc unit :=
  _ ← call (EWrap "parse db url") (ParseConfig (URL cfg));
  _ ← call (EWrap "create pool") (NewWithConfig cfg);
  o ← attempt PingPool;
  match o with
  | Some e => _ ← always ClosePool; fail_with (EWrap "ping db" e)
  | None => mret tt
  end.

(** [postgres.Migrate] on the schema of the process. *)
Definition run_migrations : Proc unit := λ s,
  let '(r, d) := migrations (pr_db s) in
  match r with
  | Ok _ => (Ok tt, mkPState (pr_calls s ++ [(RunMigrations, None)]) (pr_defers s) d)
  | Err e => (Err (Failed e), mkPState (pr_calls s ++ [(RunMigrations, Some e)]) (pr_defers s) d)
  end.

(** [events.Connect] *)
Definition Connect (name url : string) : Proc unit :=
  _ ← call (EWrap "connect nats") (NatsConnect name url (-1) (2 * Second));
  o ← attempt NewJetStream;
  match o with
  | Some e => _ ← always NatsClose; fail_with (EWrap "create jetstream" e)
  | None => mret tt
  end.
(** [events.EnsureStream]: duplicates are dropped for two minutes, messages kept for
    thirty days. *)
Definition stream_config (name subjectPrefix : string) : StreamConfig :=
  mkStreamConfig name [subjectPrefix +:+ ".>"] (2 * Minute) (30 * 24 * Hour)
    "Forge domain events relayed from the transactional outbox".
Definition EnsureStream (Quote : string → string) (name subjectPrefix : string) : Proc unit :=
  call (EWrap ("ensure stream " +:+ Quote name)) (CreateOrUpdateStream (stream_config name subjectPrefix)).

(** [kube.BuildClient] and [temporal.BuildClient]: an error, or the client. *)
Definition kube_BuildClient : Proc (option goerror) :=
  o ← attempt KubeGetConfig;
  match o with
  | Some e => mret (Some (EWrap "resolve kube config" e))
  | None => o' ← attempt KubeNew; mret (EWrap "build kube client" <$> o')
  end.
Definition temporal_BuildClient (hostPort namespace : string) : Proc (option goerror) :=
  o ← attempt (NewLazyClient hostPort namespace); mret (EWrap "build temporal client" <$> o).

(** [buildVerifier] *)
Inductive VerifierConfig : Type :=
| JWKS (url issuer audience : string)
| HMAC (secret : string).
Definition buildVerifier (a : Auth) : VerifierConfig :=
  if decide (Mode a = "jwks") then JWKS (JWKSURL a) (Issuer a) (Audience a) else HMAC (HMACSecret a).

(** [Server.Start] and the check of [Server.Shutdown]'s error: a closed server is no
    error. *)
Definition ErrServerClosed : goerror := EOther "http: Server closed".
Definition unless_closed (e : goerror) : option goerror := if Is e ErrServerClosed then None else Some e.

(** ** The programs *)

Context {float64 : Type} (of_int : Z → float64) (ParseFloat : string → option float64).
Context (ParseDuration : string → option Z) (Quote : string → string) (LookupEnv : string → option string).
Definition load : result goerror Config := Load of_int ParseFloat ParseDuration Quote LookupEnv.

(** cmd/api.  Without a Kubernetes or Temporal client the module is disabled; the
    client is never closed. *)
Definition serve (server : Server) (shutdownTimeout : Z) : Proc unit := λ s,
  match selected (length (pr_calls s)) with
  | ServerReturned e =>
    let s' := logged (ListenAndServe server) (Some e) s in
    match unless_closed e with Some e' => (Err (Failed e'), s') | None => (Ok tt, s') end
  | SignalReceived =>
    (o ← attempt (ShutdownServer shutdownTimeout);
     match o ≫= unless_closed with Some e => fail_with e | None => mret tt end) (logged (ListenAndServe server) None s)
  end.
(** Everything before the server starts. *)
Definition api_prepare : Proc Config :=
  cfg ← of_result load;
  _ ← always NotifyContext; _ ← defer StopSignals;
  shutdownTracing ← InitTracing (OTLPEndpoint (cfg_Telemetry cfg));
  _ ← defer_shutdown shutdownTracing;
  _ ← pg_New (cfg_Database cfg); _ ← defer ClosePool;
  _ ← run_migrations;
  kubeErr ← kube_BuildClient;
  temporalErr ← temporal_BuildClient (HostPort (cfg_Temporal cfg)) (Namespace (cfg_Temporal cfg));
  mret cfg.
Definition api_run : Proc unit :=
  cfg ← api_prepare;
  serve (NewServer (cfg_HTTPAddr cfg)) (cfg_ShutdownTimeout cfg).

(** cmd/relay *)
Definition Canceled : goerror := EOther "context canceled".
Definition relay_run : Proc unit :=
  cfg ← of_result load;
  _ ← always NotifyContext; _ ← defer StopSignals;
  _ ← pg_New (cfg_Database cfg); _ ← defer ClosePool;
  _ ← Connect "forge-relay" (NATSURL (cfg_Events cfg)); _ ← defer NatsDrain;
  _ ← EnsureStream Quote (StreamName (cfg_Events cfg)) (SubjectPrefix (cfg_Events cfg));
  o ← attempt (RelayRun (NewRelay (SubjectPrefix (cfg_Events cfg)) (BatchSize (cfg_Relay cfg)) (PollInterval (cfg_Relay cfg))));
  match o with
  | Some e => if decide (e = Canceled) then mret tt else fail_with e
  | None => mret tt
  end.

(** cmd/worker *)
Definition worker_run : Proc unit :=
  cfg ← of_result load;
  _ ← call plain (DialTemporal (HostPort (cfg_Temporal cfg)) (Namespace (cfg_Temporal cfg))); _ ← defer CloseTemporal;
  call plain (WorkerRun (TaskQueue (cfg_Temporal cfg))).

(** cmd/consumer: the callback acknowledges each message; an error is logged. *)
Fixpoint consume (ms : list Msg) : Proc unit :=
  match ms with
  | [] => mret tt
  | m :: ms' => _ ← attempt (Ack m); consume ms'
  end.
Definition consumer_config (prefix : string) : ConsumerConfig :=
  mkConsumerConfig "forge-example-consumer" true (prefix +:+ ".>") (30 * Second).
Definition consumer_run : Proc unit :=
  cfg ← of_result load;
  _ ← always NotifyContext; _ ← defer StopSignals;
  _ ← Connect "forge-consumer" (NATSURL (cfg_Events cfg)); _ ← defer NatsDrain;
  _ ← EnsureStream Quote (StreamName (cfg_Events cfg)) (SubjectPrefix (cfg_Events cfg));
  _ ← call plain (CreateOrUpdateConsumer (StreamName (cfg_Events cfg)) (consumer_config (SubjectPrefix (cfg_Events cfg))));
  _ ← call plain Consume; _ ← defer StopConsume;
  _ ← consume deliveries;
  always AwaitSignal.

(** cmd/provision *)
Definition provision_run (slug : string) (maxServices : Z) : Proc unit :=
  cfg ← of_result load;
  _ ← (if decide (slug = "") then exit_with 2 else mret tt);
  _ ← call plain (DialTemporal (HostPort (cfg_Temporal cfg)) (Namespace (cfg_Temporal cfg))); _ ← defer CloseTemporal;
  _ ← call plain (ExecuteWorkflow ("provision-tenant-" +:+ slug) (TaskQueue (cfg_Temporal cfg)) slug maxServices);
  call plain GetResult.

(** cmd/operator: every error exits at once. *)
Definition or_exit (c : Call) : Proc unit :=
  o ← attempt c; match o with Some _ => exit_with 1 | None => mret tt end.
Definition operator_main : Proc unit :=
  _ ← or_exit GetConfigOrDie;
  _ ← or_exit NewManager;
  _ ← or_exit SetupWithManager;
  _ ← or_exit AddHealthzCheck;
  _ ← or_exit AddReadyzCheck;
  or_exit ManagerStart.

Inductive Program : Type :=
| Api | RelayProgram | Worker | Consumer | Provision (slug : string) (maxServices : Z) | Operator.
Definition run_of (p : Program) : Proc unit :=
  match p with
  | Api => api_run
  | RelayProgram => relay_run
  | Worker => worker_run
  | Consumer => consumer_run
  | Provision slug n => provision_run slug n
  | Operator => operator_main
  end.
End processes.

(** The server stops writing no later than the chain of the API cuts a handler off:
    the deadline of the connection starts with the reading of the request, at
    [t0], that of the context when [Timeout] runs, at [t1].  So the answer of a
    handler that was cut off cannot be sent. *)
Lemma write_deadline_first addr t0 t1 r dl :
  (t0 ≤ t1)%Z → rq_deadline r = None → rq_deadline (WithTimeout t1 (seconds 30) r) = Some dl →
  (t0 + sv_WriteTimeout (NewServer addr) ≤ dl)%Z.
Proof. unfold WithTimeout, seconds. simpl. intros Ht -> [= <-]. unfold Second. lia. Qed.

(** ** Resources *)

Inductive resource : Type := RSignals | RTracing | RPool | RNats | RConsumer | RTemporal | RLazyTemporal.
#[export] Instance resource_eq_dec : EqDecision resource.
Proof. solve_decision. Defined.

(** What a successful call opens, and what a call closes. *)
Definition opens (c : Call) : option resource :=
  match c with
  | NotifyContext => Some RSignals
  | NewExporter _ => Some RTracing
  | NewWithConfig _ => Some RPool
  | NatsConnect _ _ _ _ => Some RNats
  | Consume => Some RConsumer
  | DialTemporal _ _ => Some RTemporal
  | NewLazyClient _ _ => Some RLazyTemporal
  | _ => None
  end.
Definition closes (c : Call) : option resource :=
  match c with
  | StopSignals => Some RSignals
  | ShutdownTracing => Some RTracing
  | ClosePool => Some RPool
  | NatsClose | NatsDrain => Some RNats
  | StopConsume => Some RConsumer
  | CloseTemporal => Some RTemporal
  | _ => None
  end.

(** The open resources, the last one first; [None] if something was closed out of
    order or twice. *)
Definition track (c : Call * option goerror) (open : list resource) : option (list resource) :=
  match closes c.1 with
  | Some r => match open with r' :: open' => if decide (r = r') then Some open' else None | [] => None end
  | None =>
    match opens c.1, c.2 with
    | Some r, None => Some (r :: open)
    | _, _ => Some open
    end
  end.
Definition open_after (calls : list (Call * option goerror)) : option (list resource) :=
  foldl (λ o c, o ≫= track c) (Some []) calls.

(** No program has a call that closes the lazy client of [temporal.BuildClient]; the others
    are [scoped]. *)
Definition scoped (c : Call * option goerror) : Prop := opens c.1 ≠ Some RLazyTemporal.
#[export] Instance scoped_dec c : Decision (scoped c).
Proof. unfold scoped. apply _. Defined.
Definition scoped_after (calls : list (Call * option goerror)) : option (list resource) := open_after (filter scoped calls).

Lemma scoped_after_snoc calls c : scoped c → scoped_after (calls ++ [c]) = scoped_after calls ≫= track c.
Proof.
  intros Hc. unfold scoped_after. rewrite filter_app, filter_cons_True, filter_nil by done. unfold open_after. by rewrite foldl_app.
Qed.
Lemma scoped_after_lazy calls h n o : scoped_after (calls ++ [(NewLazyClient h n, o)]) = scoped_after calls.
Proof. unfold scoped_after. rewrite filter_app, filter_cons_False, filter_nil, app_nil_r; [done|]. by intros E. Qed.

(** A lazy client that was made stays open, and one that was not does not matter. *)
Lemma lazy_stays calls (o : option (list resource)) :
  (∀ l, o = Some l → RLazyTemporal ∈ l) → foldl (λ o c, o ≫= track c) o calls ≠ Some [].
Proof.
  revert o. induction calls as [|[c e] calls IH]; intros o Ho; simpl.
  { intros ->. eapply not_elem_of_nil. by apply Ho. }
  apply IH. intros l (l0 & -> & Ht)%bind_Some. specialize (Ho _ eq_refl). unfold track in Ht. simpl in Ht.
  destruct (closes c) as [r|] eqn:Ec.
  - destruct l0 as [|r' l0]; [done|]. case_decide; [|done]. injection Ht as <-. apply elem_of_cons in Ho as [<-|]; [|done].
    subst. by destruct c.
  - destruct (opens c), e; injection Ht as <-; set_solver.
Qed.
Lemma open_after_lazy calls h n : (NewLazyClient h n, None) ∈ calls → open_after calls ≠ Some [].
Proof.
  intros (l1 & l2 & ->)%list_elem_of_split. unfold open_after. rewrite foldl_app. simpl. apply lazy_stays.
  intros l (l0 & _ & [= <-])%bind_Some. left.
Qed.
Lemma open_after_scoped calls :
  (∀ h n, (NewLazyClient h n, None) ∉ calls) → open_after (filter scoped calls) = open_after calls.
Proof.
  intros Hn. unfold open_after. generalize (Some ([] : list resource)).
  induction calls as [|[c e] calls IH]; intros o; [done|].
  assert (∀ h n, (NewLazyClient h n, None) ∉ calls) as Hn' by (intros h n Hin; apply (Hn h n); by right).
  destruct (decide (scoped (c, e))) as [Hs|Hs]; [rewrite filter_cons_True by done; by apply IH|].
  rewrite filter_cons_False by done. simpl. rewrite IH by done. f_equal. apply dec_stable in Hs. simpl in Hs.
  destruct c; try done. destruct e as [e|]; [by destruct o|]. exfalso. eapply Hn. left.
Qed.

Section resources.
Context `{ProcEnv} {Schema : Type}.
#[local] Abbreviation Proc := (@Proc Schema).

(** Besides [extra], what is open is what the deferred calls will close, in their
    order. *)
Definition covered (extra : list resource) (s : @PState Schema) : Prop :=
  ∃ rs, map closes (pr_defers s) = map Some rs ∧ scoped_after (pr_calls s) = Some (extra ++ rs).

(** [m] turns the uncovered resources [pre] into [post]; an error leaves none, and an
    exit leaves nothing open. *)
Definition brackets {A} (pre : list resource) (m : Proc A) (post : A → list resource) : Prop :=
  ∀ s, covered pre s →
    match m s with
    | (Ok a, s') => covered (post a) s'
    | (Err (Failed _), s') => covered [] s'
    | (Err (Exited _), s') => scoped_after (pr_calls s') = Some []
    end.

Lemma brackets_bind {A B} pre mid post (m : Proc A) (k : A → Proc B) :
  brackets pre m mid → (∀ a, brackets (mid a) (k a) post) → brackets pre (m ≫= k) post.
Proof.
  intros Hm Hk s Hs. specialize (Hm s Hs). unfold mbind, Proc_bind.
  destruct (m s) as [[a|[e|c]] s']; [by apply Hk|done|done].
Qed.
Lemma brackets_ret {A} (a : A) post : brackets (post a) (mret a) post.
Proof. by intros s Hs. Qed.
Lemma brackets_fail {A} e (post : A → list resource) : brackets [] (fail_with e) post.
Proof. by intros s Hs. Qed.
Lemma brackets_of_result {A} (r : result goerror A) : brackets [] (of_result r) (λ _, []).
Proof. intros s Hs. unfold of_result. by destruct r. Qed.

(** Calls that neither open nor close, that open, that close. *)
Lemma covered_logged pre post c o s :
  scoped (c, o) → covered pre s → (∀ rs, track (c, o) (pre ++ rs) = Some (post ++ rs)) → covered post (logged c o s).
Proof. intros Hc (rs & Hd & Ho) Ht. exists rs. split; [done|]. simpl. rewrite scoped_after_snoc, Ho by done. apply Ht. Qed.
(** A call that opens nothing, or something it will be asked to close. *)
Lemma scoped_closes c o r : closes c = Some r → scoped (c, o).
Proof. by destruct c. Qed.

Lemma brackets_attempt pre c : opens c = None → closes c = None → brackets pre (attempt c) (λ _, pre).
Proof.
  intros Ho Hc s Hs. simpl. eapply covered_logged; [unfold scoped; simpl; by rewrite Ho|exact Hs|]. intros rs. unfold track. simpl. by rewrite Hc, Ho.
Qed.
Lemma brackets_call f c : closes c = None → opens c ≠ Some RLazyTemporal → brackets [] (call f c) (λ _, option_list (opens c)).
Proof.
  intros Hc Hsc s Hs. unfold call, mbind, Proc_bind, attempt.
  assert (covered (if outcome (length (pr_calls s)) c is None then option_list (opens c) else [])
    (logged c (outcome (length (pr_calls s)) c) s)) as Hl.
  { eapply covered_logged; [done|exact Hs|]. intros rs. unfold track. simpl. rewrite Hc.
    by destruct (opens c), (outcome _ c). }
  by destruct (outcome _ c).
Qed.
Lemma brackets_open c r : closes c = None → opens c = Some r → r ≠ RLazyTemporal → brackets [] (always c) (λ _, [r]).
Proof.
  intros Hc Ho Hr s Hs. simpl. eapply covered_logged; [unfold scoped; simpl; congruence|exact Hs|].
  intros rs. unfold track. simpl. by rewrite Hc, Ho.
Qed.
Lemma brackets_close c r : closes c = Some r → brackets [r] (always c) (λ _, []).
Proof.
  intros Hc s Hs. simpl. eapply covered_logged; [by eapply scoped_closes|exact Hs|]. intros rs. unfold track. simpl.
  by rewrite Hc, decide_True.
Qed.
Lemma brackets_inert pre c : closes c = None → opens c = None → brackets pre (always c) (λ _, pre).
Proof.
  intros Hc Ho s Hs. simpl. eapply covered_logged; [unfold scoped; simpl; by rewrite Ho|exact Hs|]. intros rs. unfold track. simpl. by rewrite Hc, Ho.
Qed.
Lemma brackets_defer c r : closes c = Some r → brackets [r] (defer c) (λ _, []).
Proof. intros Hc s (rs & Hd & Ho). exists (r :: rs). simpl. by rewrite Hd, Hc. Qed.

(** When the function returns, the deferred calls close everything. *)
Lemma covered_closed s : covered [] s → scoped_after (pr_calls (run_defers s)) = Some [].
Proof.
  intros (rs & Hd & Ho). simpl in *. revert rs Hd Ho. generalize (pr_calls s).
  induction (pr_defers s) as [|c ds IH]; intros calls rs Hd Ho; simpl.
  { destruct rs; [|done]. by rewrite app_nil_r. }
  destruct rs as [|r rs]; [done|]. injection Hd as Hc Hd.
  rewrite cons_middle, app_assoc. apply (IH _ rs Hd).
  rewrite scoped_after_snoc, Ho by (by eapply scoped_closes). simpl. unfold track. simpl. by rewrite Hc, decide_True.
Qed.

Lemma brackets_exec run d : brackets [] run (λ _, []) → scoped_after (pr_calls (exec run d).2) = Some [].
Proof.
  intros Hr. specialize (Hr (mkPState [] [] d)). unfold exec.
  destruct (run _) as [[a|[e|c]] s]; simpl; (apply covered_closed, Hr || apply Hr); by exists [].
Qed.

(** ** The programs *)

Lemma brackets_pg_New cfg : brackets [] (pg_New cfg) (λ _, [RPool]).
Proof.
  unfold pg_New. eapply brackets_bind; [by apply brackets_call|]. intros ?. simpl.
  eapply brackets_bind; [by apply brackets_call|]. intros ?. simpl.
  eapply brackets_bind; [by apply brackets_attempt|]. intros [e|].
  - eapply brackets_bind; [by apply (brackets_close _ RPool)|]. intros ?. apply brackets_fail.
  - apply (brackets_ret tt (λ _, [RPool])).
Qed.
Lemma brackets_Connect name url : brackets [] (Connect name url) (λ _, [RNats]).
Proof.
  unfold Connect. eapply brackets_bind; [by apply brackets_call|]. intros ?. simpl.
  eapply brackets_bind; [by apply brackets_attempt|]. intros [e|].
  - eapply brackets_bind; [by apply (brackets_close _ RNats)|]. intros ?. apply brackets_fail.
  - apply (brackets_ret tt (λ _, [RNats])).
Qed.
Lemma brackets_InitTracing endpoint :
  brackets [] (InitTracing endpoint) (λ b : bool, if b then [RTracing] else []).
Proof.
  unfold InitTracing. case_decide; [by intros s Hs|].
  eapply brackets_bind; [by apply brackets_call|]. intros ?. by intros s Hs.
Qed.
Lemma brackets_defer_shutdown (b : bool) : brackets (if b then [RTracing] else []) (defer_shutdown b) (λ _, []).
Proof. destruct b; [by apply brackets_defer|by intros s Hs]. Qed.
Lemma brackets_migrations (migrations : @MM Schema unit) : brackets [] (run_migrations migrations) (λ _, []).
Proof.
  intros s (rs & Hd & Ho). unfold run_migrations. destruct (migrations (pr_db s)) as [[u|e] d];
    exists rs; simpl; by rewrite scoped_after_snoc, Ho.
Qed.
Lemma brackets_EnsureStream Quote name prefix : brackets [] (EnsureStream Quote name prefix) (λ _, []).
Proof. by apply brackets_call. Qed.
Lemma brackets_kube : brackets [] kube_BuildClient (λ _, []).
Proof.
  eapply brackets_bind; [by apply brackets_attempt|]. intros [e|]; [by intros s Hs|].
  eapply brackets_bind; [by apply brackets_attempt|]. intros o. by intros s Hs.
Qed.
Lemma brackets_temporal h n : brackets [] (temporal_BuildClient h n) (λ _, []).
Proof. intros s (rs & Hd & Ho). exists rs. split; [done|]. simpl. by rewrite scoped_after_lazy. Qed.
Lemma brackets_serve addr t : brackets [] (serve addr t) (λ _, []).
Proof.
  intros s Hs. unfold serve. destruct (selected _) as [e|].
  - assert (covered [] (logged (ListenAndServe addr) (Some e) s)) as Hl by (by eapply covered_logged).
    by destruct (unless_closed e).
  - assert (covered [] (logged (ListenAndServe addr) None s)) as Hl by (by eapply covered_logged).
    revert Hl. generalize (logged (ListenAndServe addr) None s).
    eapply brackets_bind; [by apply brackets_attempt|]. intros o. destruct (o ≫= unless_closed); by intros s' Hs'.
Qed.
Lemma brackets_consume ms : brackets [] (consume ms) (λ _, []).
Proof.
  induction ms as [|m ms IH]; simpl; [by intros s Hs|]. eapply brackets_bind; [by apply brackets_attempt|]. by intros ?.
Qed.

(** The consumer acknowledges each delivered message once, in order; a failed
    acknowledgement does not stop it. *)
Lemma consume_acks ms (s : @PState Schema) :
  (consume ms s).1 = Ok tt ∧ (pr_calls (consume ms s).2).*1 = (pr_calls s).*1 ++ map Ack ms.
Proof.
  revert s. induction ms as [|m ms IH]; intros s; simpl; [by rewrite app_nil_r|].
  unfold mbind, Proc_bind, attempt. set (s1 := logged _ _ s). destruct (IH s1) as [H1 H2]. split; [done|].
  rewrite H2. unfold s1. simpl. by rewrite fmap_app, <- app_assoc.
Qed.
End resources.

Create HintDb brackets.
#[local] Hint Resolve brackets_of_result brackets_pg_New brackets_Connect brackets_InitTracing brackets_defer_shutdown
  brackets_migrations brackets_EnsureStream brackets_kube brackets_temporal brackets_serve brackets_consume : brackets.
(** Step through a program. *)
#[local] Ltac bracket :=
  lazymatch goal with |- brackets _ (mbind _ _) _ => idtac end; eapply brackets_bind;
    [first [by eauto with brackets | by apply brackets_call | by apply brackets_attempt |
            by eapply brackets_open | by eapply brackets_defer | by apply brackets_inert]|intros ?; simpl].

(** ** Which calls a program makes *)

Section made.
Context `{ProcEnv} {Schema : Type} (P : Call → Prop).
#[local] Abbreviation Proc := (@Proc Schema).
#[local] Abbreviation PState := (@PState Schema).

(** All calls of [m] and those it defers satisfy [P]. *)
Definition all_calls (s : PState) : Prop := Forall (λ c, P c.1) (pr_calls s) ∧ Forall P (pr_defers s).
Definition only {A} (m : Proc A) : Prop := ∀ s, all_calls s → all_calls (m s).2.

Lemma only_bind {A B} (m : Proc A) (k : A → Proc B) : only m → (∀ a, only (k a)) → only (m ≫= k).
Proof.
  intros Hm Hk s Hs. specialize (Hm s Hs). unfold mbind, Proc_bind. destruct (m s) as [[a|e] s']; [by apply Hk|done].
Qed.
Lemma all_calls_logged c o s : P c → all_calls s → all_calls (logged c o s).
Proof. intros Hc [H1 H2]. split; [|done]. apply Forall_app. by split; [|repeat constructor]. Qed.
Lemma only_attempt c : P c → only (attempt c).
Proof. intros Hc s Hs. by apply all_calls_logged. Qed.
Lemma only_always c : P c → only (always c).
Proof. intros Hc s Hs. by apply all_calls_logged. Qed.
Lemma only_defer c : P c → only (defer c).
Proof. intros Hc s [H1 H2]. split; [done|by constructor]. Qed.
Lemma only_result {A} (r : result goerror A) : only (of_result r).
Proof. intros s Hs. unfold of_result. by destruct r. Qed.
Lemma only_ret {A} (a : A) : only (mret a).
Proof. by intros s Hs. Qed.
Lemma only_fail {A} e : only (fail_with (A := A) e).
Proof. by intros s Hs. Qed.
Lemma only_exit {A} c : only (exit_with (A := A) c).
Proof. by intros s Hs. Qed.
Lemma only_migrations (migrations : @MM Schema unit) : P RunMigrations → only (run_migrations migrations).
Proof.
  intros Hp s [H1 H2]. unfold run_migrations. destruct (migrations (pr_db s)) as [[u|e] d];
    (split; [|done]); apply Forall_app; (split; [done|by repeat constructor]).
Qed.
Lemma only_consume ms : (∀ m, P (Ack m)) → only (consume ms).
Proof. intros Hp. induction ms as [|m ms IH]; simpl; [apply only_ret|]. by apply only_bind; [apply only_attempt|]. Qed.

(** The calls of the whole process, deferred ones included. *)
Lemma only_exec run d : only run → Forall (λ c, P c.1) (pr_calls (exec run d).2).
Proof.
  intros Hr. destruct (Hr (mkPState [] [] d)) as [H1 H2]; [by repeat constructor|]. unfold exec, exec_state, run_defers.
  destruct (run _) as [[a|[e|c]] s]; simpl in *; [|..|done]; apply Forall_app; split; try done; by apply Forall_fmap.
Qed.

(** [m] does not exit on the spot. *)
Definition returns {A} (m : Proc A) : Prop := ∀ s c, (m s).1 ≠ Err (Exited c).
Lemma returns_bind {A B} (m : Proc A) (k : A → Proc B) : returns m → (∀ a, returns (k a)) → returns (m ≫= k).
Proof.
  intros Hm Hk s c. unfold mbind, Proc_bind. specialize (Hm s c). destruct (m s) as [[a|e] s']; [by apply Hk|].
  intros E. apply Hm. simpl in *. congruence.
Qed.
Lemma returns_result {A} (r : result goerror A) : returns (of_result r).
Proof. intros s c. unfold of_result. by destruct r. Qed.
Lemma returns_migrations (migrations : @MM Schema unit) : returns (run_migrations migrations).
Proof. intros s c. unfold run_migrations. by destruct (migrations (pr_db s)) as [[]]. Qed.
End made.

#[local] Ltac only_steps :=
  repeat (lazymatch goal with
  | |- only _ (mbind _ _) => apply only_bind; [|intros ?]
  | |- only _ (call _ _) => unfold call
  | |- only _ (or_exit _) => unfold or_exit
  | |- only _ (attempt _) => apply only_attempt; done || by intros ?
  | |- only _ (always _) => apply only_always; done || by intros ?
  | |- only _ (defer _) => apply only_defer; done || by intros ?
  | |- only _ (of_result _) => apply only_result
  | |- only _ (mret _) => apply only_ret
  | |- only _ (fail_with _) => apply only_fail
  | |- only _ (exit_with _) => apply only_exit
  | |- only _ (consume _) => apply only_consume; done || by intros ?
  | |- only _ (run_migrations _) => apply only_migrations; done || by intros ?
  | |- only _ (match ?x with _ => _ end) => destruct x
  end).
#[local] Ltac returns_steps :=
  repeat (lazymatch goal with
  | |- returns (mbind _ _) => apply returns_bind; [|intros ?]
  | |- returns (call _ _) => unfold call
  | |- returns (of_result _) => apply returns_result
  | |- returns (run_migrations _) => apply returns_migrations
  | |- returns (match ?x with _ => _ end) => destruct x
  | |- returns _ => by intros ? ?
  end).

Section release.
Context `{ProcEnv} {Schema : Type} (migrations : @MM Schema unit).
Context {float64 : Type} (of_int : Z → float64) (ParseFloat : string → option float64).
Context (ParseDuration : string → option Z) (Quote : string → string) (LookupEnv : string → option string).
#[local] Abbreviation run_of := (run_of migrations of_int ParseFloat ParseDuration Quote LookupEnv).

Lemma brackets_api : brackets [] (run_of Api) (λ _, []).
Proof.
  simpl. unfold api_run, api_prepare. eapply (brackets_bind _ (λ _, [])); [|intros; apply brackets_serve].
  repeat bracket. by intros s Hs.
Qed.
Lemma brackets_relay : brackets [] (run_of RelayProgram) (λ _, []).
Proof. simpl. unfold relay_run. repeat bracket. repeat case_match; by intros s Hs. Qed.
Lemma brackets_worker : brackets [] (run_of Worker) (λ _, []).
Proof. simpl. unfold worker_run. repeat bracket. by apply brackets_call. Qed.
Lemma brackets_consumer : brackets [] (run_of Consumer) (λ _, []).
Proof. simpl. unfold consumer_run. repeat bracket. by apply brackets_inert. Qed.
Lemma brackets_provision slug n : slug ≠ "" → brackets [] (run_of (Provision slug n)) (λ _, []).
Proof.
  intros Hs. simpl. unfold provision_run. rewrite decide_False by done.
  bracket. eapply (brackets_bind _ (λ _, [])); [by intros s ?|intros ?]. repeat bracket. by apply brackets_call.
Qed.

(** A program that opens nothing the model tracks, and defers nothing. *)
Definition idle (s : @PState Schema) : Prop := scoped_after (pr_calls s) = Some [] ∧ pr_defers s = [].
Definition idles {A} (m : @Proc Schema A) : Prop := ∀ s, idle s → idle (m s).2.

Lemma idles_or_exit c : opens c = None → closes c = None → idles (or_exit c).
Proof.
  intros Ho Hc s [Hs Hd]. unfold or_exit, mbind, Proc_bind, attempt. simpl.
  destruct (outcome _ c); (split; [|done]); simpl; rewrite scoped_after_snoc, Hs by (unfold scoped; simpl; by rewrite Ho); simpl; unfold track; simpl; by rewrite Hc, Ho.
Qed.
Lemma idles_bind {A B} (m : @Proc Schema A) (k : A → @Proc Schema B) : idles m → (∀ a, idles (k a)) → idles (m ≫= k).
Proof.
  intros Hm Hk s Hs. specialize (Hm s Hs). unfold mbind, Proc_bind.
  destruct (m s) as [[a|e] s']; [by apply Hk|done].
Qed.
Lemma idles_exec run d : idles run → scoped_after (pr_calls (exec run d).2) = Some [].
Proof.
  intros Hr. destruct (Hr (mkPState [] [] d)) as [Ho Hd]; [done|]. unfold exec.
  destruct (run _) as [[a|[e|c]] s]; simpl in *; rewrite ?Hd, ?app_nil_r; done.
Qed.
Lemma idles_operator : idles (run_of Operator).
Proof. simpl. unfold operator_main. repeat (apply idles_bind; [by apply idles_or_exit|intros ?]). by apply idles_or_exit. Qed.
Lemma idles_no_slug n : idles (run_of (Provision "" n)).
Proof. apply idles_bind; [intros s Hs; by destruct (load _ _ _ _ _)|]. intros cfg s Hs. done. Qed.

(** Only the API makes a lazy Temporal client. *)
Lemma lazy_client_api p : p ≠ Api → only (λ c, opens c ≠ Some RLazyTemporal) (run_of p).
Proof.
  intros Hp. destruct p as [| | | |slug n|]; [done|..]; simpl;
    unfold relay_run, worker_run, consumer_run, provision_run, operator_main, pg_New, Connect, EnsureStream; only_steps.
Qed.

End release.

(** ** Serving *)

Section serving.
Context `{ProcEnv} {Schema : Type}.
#[local] Abbreviation Proc := (@Proc Schema).
#[local] Abbreviation PState := (@PState Schema).

Lemma Proc_bind_Ok {A B} (m : Proc A) (k : A → Proc B) s b s' :
  (m ≫= k) s = (Ok b, s') → ∃ a s1, m s = (Ok a, s1) ∧ k a s1 = (Ok b, s').
Proof. unfold mbind, Proc_bind. destruct (m s) as [[a|e] s1]; [eauto|done]. Qed.
Lemma call_Ok f c (s : PState) u s' : call f c s = (Ok u, s') → s' = logged c None s.
Proof. unfold call, mbind, Proc_bind, attempt. destruct (outcome _ c); by intros [= <- <-]. Qed.

End serving.

Section api_process.
Context `{ProcEnv} {Schema : Type} (exec_sql : string → Schema → result goerror Schema).
Context (ReadDir : result goerror (list string)) (ReadFile : string → result goerror string) `{!SortSlice}.
Context (fault : nat → option goerror) (stops : nat → bool) (commit : nat → commit_outcome).
Context {float64 : Type} (of_int : Z → float64) (ParseFloat : string → option float64).
Context (ParseDuration : string → option Z) (Quote : string → string) (LookupEnv : string → option string).
#[local] Abbreviation migrations := (Migrate exec_sql ReadDir ReadFile Quote fault stops commit).
#[local] Abbreviation load := (load of_int ParseFloat ParseDuration Quote LookupEnv).
#[local] Abbreviation prepare := (api_prepare migrations of_int ParseFloat ParseDuration Quote LookupEnv).
#[local] Abbreviation run_api := (run_of migrations of_int ParseFloat ParseDuration Quote LookupEnv Api).

(** Before the server starts nothing listens, and the process does not exit on the spot. *)
Definition quiet (c : Call) : Prop := ∀ server, c ≠ ListenAndServe server.
Lemma prepare_quiet : only quiet prepare.
Proof.
  unfold api_prepare, InitTracing, defer_shutdown, pg_New, kube_BuildClient, temporal_BuildClient. only_steps.
Qed.
Lemma prepare_returns : returns prepare.
Proof.
  unfold api_prepare, InitTracing, defer_shutdown, pg_New, kube_BuildClient, temporal_BuildClient. returns_steps.
Qed.

(** What has been called when the preparation succeeded. *)
Lemma pg_New_Ok cfg (s : @PState Schema) u s' : pg_New cfg s = (Ok u, s') →
  s' = logged PingPool None (logged (NewWithConfig cfg) None (logged (ParseConfig (URL cfg)) None s)).
Proof.
  unfold pg_New. intros (u1 & s1 & ->%call_Ok & E)%Proc_bind_Ok. apply Proc_bind_Ok in E as (u2 & s2 & ->%call_Ok & E).
  apply Proc_bind_Ok in E as (o & s3 & [= <- <-] & E). destruct (outcome _ PingPool); [discriminate E|].
  by injection E as _ <-.
Qed.

(** The schema has every migration of the embedded directory. *)
Definition migrated (d : @MWorld Schema) : Prop :=
  ∀ entries n, ReadDir = Ok entries → n ∈ entries → is_up n = true → ∃ v, parseVersion Quote n = Ok v ∧ v ∈ table d.

Lemma kube_Ok (s : @PState Schema) o s' : kube_BuildClient s = (Ok o, s') →
  pr_db s' = pr_db s ∧ ∃ l, pr_calls s' = pr_calls s ++ l.
Proof.
  unfold kube_BuildClient, mbind, Proc_bind, attempt. simpl.
  destruct (outcome _ KubeGetConfig); intros [= <- <-]; simpl; (split; [done|]); eauto.
  rewrite <- app_assoc. eauto.
Qed.
Lemma tracing_Ok endpoint (s : @PState Schema) b s' : InitTracing endpoint s = (Ok b, s') → pr_db s' = pr_db s.
Proof.
  unfold InitTracing. case_decide; [by intros [= <- <-]|]. by intros (u & s1 & ->%call_Ok & [= <- <-])%Proc_bind_Ok.
Qed.

Lemma prepare_Ok d cfg s :
  prepare (mkPState [] [] d) = (Ok cfg, s) →
  load = Ok cfg ∧ (PingPool, None) ∈ pr_calls s ∧ (NewWithConfig (cfg_Database cfg), None) ∈ pr_calls s ∧
  (RunMigrations, None) ∈ pr_calls s ∧ migrated (pr_db s).
Proof.
  unfold api_prepare. intros (c & s1 & E1 & E)%Proc_bind_Ok. unfold of_result in E1.
  destruct load as [cfg'|] eqn:Hl; [|done]. injection E1 as <- <-.
  apply Proc_bind_Ok in E as (? & s2 & [= _ <-] & E). apply Proc_bind_Ok in E as (? & s3 & [= _ <-] & E).
  apply Proc_bind_Ok in E as (b & s4 & _ & E). apply Proc_bind_Ok in E as (? & s5 & _ & E).
  apply Proc_bind_Ok in E as (? & s6 & ->%pg_New_Ok & E). apply Proc_bind_Ok in E as (? & s7 & [= _ <-] & E).
  apply Proc_bind_Ok in E as (? & s8 & Em & E). unfold run_migrations in Em. cbn [pr_db logged] in Em.
  destruct (migrations (pr_db s5)) as [[[]|e] d'] eqn:Emig; [|done]. injection Em as _ <-.
  apply Proc_bind_Ok in E as (ke & s9 & [Hdb [l Hcalls]]%kube_Ok & E).
  apply Proc_bind_Ok in E as (te & s10 & E10 & [= <- <-]).
  unfold temporal_BuildClient, mbind, Proc_bind, attempt in E10. injection E10 as _ <-. simpl in *. rewrite Hcalls.
  split; [done|]. split_and!; [set_solver..|]. rewrite Hdb. intros entries n. by eapply Migrate_records_all.
Qed.

Lemma load_config_ok cfg : load = Ok cfg → config_ok cfg.
Proof.
  unfold Processes.load, Load. rewrite validate_outcome. destruct (decide (problems _ _ = [])) as [Hp|]; [|done].
  intros [= <-]. by apply problems_nil in Hp.
Qed.

(** The server's part of the record. *)
Lemma serve_calls addr t (s : @PState Schema) :
  ∃ o post, pr_calls (exec_state (serve addr t s)) = pr_calls s ++ (ListenAndServe addr, o) :: post ∧
    pr_db (exec_state (serve addr t s)) = pr_db s.
Proof.
  unfold serve. destruct (selected _) as [e|].
  - exists (Some e). destruct (unless_closed e); simpl; rewrite <- app_assoc; eauto.
  - exists None. unfold mbind, Proc_bind, attempt, option_bind.
    destruct (outcome _ (ShutdownServer t)) as [e|]; [destruct (unless_closed e)|];
      simpl; rewrite <- !app_assoc; eauto.
Qed.

(** C21: the API serves only when it is ready: if the process ever listens, its
    configuration was accepted, before that it pinged a pool with the configured
    limits and applied the migrations, every [.up.sql] file of the directory is
    recorded in the schema, and in production tokens are checked against a key
    set.  In all other cases it does not listen and its exit code is 1. *)
Theorem api_serves_ready d :
  let out := exec run_api d in
  (∃ cfg o pre post, load = Ok cfg ∧ pr_calls out.2 = pre ++ (ListenAndServe (NewServer (cfg_HTTPAddr cfg)), o) :: post ∧
    (PingPool, None) ∈ pre ∧ (NewWithConfig (cfg_Database cfg), None) ∈ pre ∧ (RunMigrations, None) ∈ pre ∧
    migrated (pr_db out.2) ∧
    (cfg_Env cfg = "production" → ∃ url iss aud, buildVerifier (cfg_Auth cfg) = JWKS url iss aud ∧ iss ≠ "" ∧ aud ≠ "")) ∨
  (out.1 = 1%Z ∧ ∀ addr o, (ListenAndServe addr, o) ∉ pr_calls out.2).
Proof.
  pose proof (prepare_quiet (mkPState [] [] d)) as Hq. pose proof (prepare_returns (mkPState [] [] d)) as He.
  pose proof (prepare_Ok d) as Hok.
  unfold exec. simpl. unfold api_run, mbind, Proc_bind. destruct Hq as [Hc Hd]; [by repeat constructor|].
  destruct (prepare (mkPState [] [] d)) as [[cfg|[e|c]] s]; simpl in *; [|right|by destruct (He c)].
  2:{ split; [done|]. intros addr o [Hin|Hin]%elem_of_app.
      - rewrite Forall_forall in Hc. by destruct (Hc _ Hin addr).
      - apply list_elem_of_fmap in Hin as (c & [= <- _] & Hin). rewrite Forall_forall in Hd. by destruct (Hd _ Hin addr). }
  left. destruct (Hok cfg s eq_refl) as (Hl & Hp & Hn & Hm & Hs).
  assert (cfg_Env cfg = "production" →
    ∃ url iss aud, buildVerifier (cfg_Auth cfg) = JWKS url iss aud ∧ iss ≠ "" ∧ aud ≠ "") as Hprod.
  { intros Hprod. destruct (load_config_ok cfg Hl) as (_ & [(_ & _ & ?)|(Hmode & _ & Hi & Ha)] & _); [done|].
    unfold buildVerifier. rewrite decide_True by done. eauto 6. }
  exists cfg. destruct (serve_calls (NewServer (cfg_HTTPAddr cfg)) (cfg_ShutdownTimeout cfg) s) as (o & post & Hcalls & Hdb).
  exists o, (pr_calls s), post. unfold migrated. rewrite Hcalls, Hdb. by split_and!.
Qed.
End api_process.
